(* ===== verification/_CoqProject ===== *)
-Q . S2P
Prelude.v
GoText.v
Sha256.v
Json.v
Workflow.v
Identity.v
JsonProofs.v
Outbox.v
OutboxInv.v
OutboxDyn.v
OutboxOps.v
OutboxClose.v
OutboxGrowth.v
OutboxDemo.v
OutboxProps.v
OutboxClient.v
OutboxRefine.v
Fencing.v
Ledger.v
LedgerProps.v
Ir.v
Types.v
Env.v
EnvProps.v
Check.v
Value.v
Eval.v
Admission.v
CheckLemmas.v
Typing.v
EvalProps.v
CheckInv.v
ArtifactDemo.v
ArtifactProps.v
FactProps.v
Dispatcher.v
DispatcherProps.v
CheckedEnqueue.v
Driver.v
DriverProps.v
DriverEnds.v
Lifetime.v
LifetimeProps.v
EngineState.v
Engine.v
EngineRuns.v
EngineProps.v
Recovery.v
GoPath.v
SourceScan.v
SourceAst.v
Compiler.v
ScanProps.v
CompilerProps.v
PredicateProps.v
DataflowProps.v
Kafka.v
KafkaHandler.v
KafkaProps.v
KafkaGroup.v
Descriptor.v
Generation.v
GenerationArtifact.v
GenerationProps.v
GenerationRecovery.v
HttpExecutor.v
HttpProps.v
HttpPolicy.v
HttpPolicyProps.v
Postgres.v
PostgresSim.v
PostgresComplete.v
PostgresClose.v
PostgresLedger.v
PostgresView.v
PostgresRuns.v
PostgresProps.v
