(* ===== verification/Prelude.v ===== *)
(** * Effectus: a verification library

    Effectus runs business rules whose effects touch the outside world. Rules are
    compiled to a checked artifact; an execution evaluates the predicates of the
    artifact's plans on the caller's facts, turns every selected plan into a saga, and
    drives the steps of each saga through a durable outbox: an effect is written down as
    intent, claimed by a worker under a lease, fenced, called, and its outcome recorded,
    so that a crash at any point is recovered without repeating a committed effect and a
    failed plan is undone in reverse order. This library models that path in Go source
    order and proves what each part promises the next.

    ** Parts of the program and the files that model them

    - Byte strings, hashing and JSON: [GoText] (the parts of [strings] and
      [unicode/utf8] that are used), [Sha256] ([crypto/sha256], hexadecimal and
      big-endian integers), [Json] and [JsonProofs] ([encoding/json], and
      [CanonicalJSON] of [schema/saga_outbox.go] with its round trip). All executable.
    - Durable records: [Workflow] ([schema/workflow/contracts.go],
      [invocation/invocation.go]) and [Identity] (the hash identities of
      [schema/saga_outbox.go]).
    - The outbox store ([schema/saga_outbox.go], [schema/saga_outbox_memory.go]):
      [Outbox] has one definition per method. The four Go maps are finite maps in the
      record [InMemoryOutboxStore]; a method holds the mutex for its whole body and is
      one state transformer. [OutboxInv], [OutboxDyn], [OutboxOps] and [OutboxClose]
      state the store invariant and prove it for every method; [OutboxGrowth] says what
      is never undone, [OutboxDemo] is a concrete run.
    - The fencing provider ([schema/fencing/provider.go]): [Fencing].
    - The execution ledger ([schema/ledger/contracts.go],
      [schema/execution_ledger.go]): [Ledger], with its invariant in [LedgerProps].
    - The checked IR: [Ir] (messages), [Types] ([ir/types.go]), [Env]
      ([ir/environment.go]), [Check] ([ir/check.go]) and [Value] ([ir/value.go]).
    - Evaluation and admission: [Eval] ([runtime/checked_workflow.go], expressions,
      facts, literals) and [Admission] ([runtime/durable_admission.go] and the request
      validation of [runtime/engine.go]).
    - A worker: [Dispatcher] ([schema/saga_dispatcher.go]). It runs against an [Oracle]:
      before each of its calls the other workers may do anything to the shared store
      that outbox operations can do, clocks read anything, contexts may end, and the
      executor answers anything. The fencing provider is the class [FencingProvider];
      the in-memory provider is an instance.
    - The driver: [CheckedEnqueue] ([schema/saga_checked.go]) and [Driver] (the rest of
      [runtime/checked_workflow.go]) in the same setting.
    - Lifetimes ([runtime/engine_lifetime.go], [Engine.Close], [Generation.Close]):
      [Lifetime]. Goroutines are an index into a map of call states; every critical
      section, channel operation and resolution is one constructor of [lifetime_step],
      so the reachable states are those of all interleavings.
    - The engine: [EngineState] ([runtime/engine_state.go] and the failure states of
      [runtime/engine.go]) and [Engine] ([runtime/engine_identity.go], admission, loading
      and [Execute]). It owns neither ledger nor outbox: before each of its calls other
      engines may use the one and other workers the other. What [beginExecution] returned
      is an argument of [Execute]; the gates themselves are in [Lifetime].
    - Recovery: [Recovery] ([runtime/recovery.go]); the goroutine that renews the lease is
      part of the interference on the ledger.
    - The compiler: [GoPath] (the parts of [path/filepath] and [strconv] that are used),
      [SourceScan] (the scanner of when blocks of [compiler/checked.go]), [SourceAst] (the
      syntax trees of [internal/language/ast] and [compiler/frontend.go]) and [Compiler]
      (the lowering of [compiler/checked.go] and [CompileChecked]).
    - Generations: [Descriptor] ([invocation/descriptor.go], with the resources that
      executors own), [Generation] ([runtime/generation.go], [runtime/generation_build.go])
      and [GenerationArtifact] (the durable form of [runtime/durable_admission.go],
      [runtime/artifact_resolver.go] and [DryRun] of [runtime/generation_view.go]).
    - Kafka intake: [Kafka] ([internal/daemon/kafka/kafka.go]: configuration, one record at
      a time in a state monad over the source, whose outside calls are answered by any
      function of what happened before), [KafkaHandler] ([checked.go]) and [KafkaGroup]
      ([consumer.go]: the workers of all partitions as a step relation).

    ** What is proved

    - The store ([OutboxProps], [OutboxClient], [OutboxRefine]): the invariant of every
      reachable store; effects start in plan order and are undone in reverse; a saga has
      at most one dispatch under way; success is final and a permanent failure certain;
      a compensated saga is undone; only the holder of the current lease completes a
      dispatch; claims take the first eligible dispatch; replays are idempotent; every
      operation is one step of an abstract saga machine or leaves the saga alone
      (refinement), and a running saga can always be advanced (progress).
    - Leases ([Fencing], [LedgerProps]): tokens increase, a superseded holder is refused,
      leases exclude each other; admission is idempotent, state changes are
      compare-and-swap, terminal records never change.
    - The checker ([CheckLemmas], [CheckInv], [ArtifactProps], on the artifact of
      [ArtifactDemo]): an accepted artifact is in canonical order, within its limits,
      carries the policies of its contracts, and is read back unchanged from its
      encoding; every refusal wraps one of the two sentinels.
    - Type soundness ([Typing], [EvalProps], [ValueProps], [FactProps]): [conforms] is
      the meaning of the types, independent of the code; on admitted facts an accepted
      predicate yields a boolean or one of the listed run-time errors, and the arguments
      of an accepted step have the types its verb declares.
    - Composition ([DispatcherProps], [DriverProps]): under any interference a worker
      calls out only for intent that is durably in flight with exactly the grants,
      identity and attempt of the call; when the driver reports success exactly the
      selected plans are completed sagas whose every step durably succeeded; the intent
      that admission writes first is the intent the driver enqueues.
    - Termination ([DriverEnds]): the polling loops of the driver end once the context
      has ended, and fuel beyond that changes nothing.
    - Lifetimes ([LifetimeProps]): one call per execution; no call uses a closed
      generation; none is closed twice; an idle engine retains nothing but its own.
    - The engine ([EngineRuns] has the proof rules, [EngineProps] the theorems): a
      reported success is the durable record and was earned by completed sagas; a failure
      is recorded only after the work was closed; effects need authority over the
      execution. [RecoveryProps]: a poll stays within its batch and is honest about an
      empty backlog.
    - The compiler: the scanner with its nested loops is a one-pass automaton
      ([ScanProps]); the checker accepts what was lowered as it is, and the order of the
      sources does not matter ([CompilerProps]); a compiled predicate evaluates to the
      meaning of the source expression ([PredicateProps]); the steps are the invocations in
      order and a result reference reads the slot of the step that binds the name
      ([DataflowProps]).
    - Generations ([GenerationProps], [GenerationRecovery], on the examples of
      [GenerationDemo]): descriptors have one canonical form; resources are neither leaked
      nor closed twice; the digest covers the configuration, which rests on
      [JsonInjective], that the text of a JSON value determines it; what admission pins,
      recovery rebuilds, unless a verb declares that none of its arguments is required.
    - Kafka ([KafkaProps], [KafkaGroup]): commits are justified by the boundary of the
      contract or a durable poison disposition, attempts end, identities name records, and
      the group works on one record at a time and leaves no gap.

    ** Conventions and bounds

    - An [error] is the list of sentinels that [errors.Is] finds in it and its text; the
      values [fmt.Errorf] interpolates are left out of the text.
    - Times are integers of nanoseconds, the zero time is 0 and is the least.
    - Machine integers are [Z] with their ranges written out where the code can reach
      them (checked int64 arithmetic, [uint64] fencing tokens, [float64] as
      [spec_float]).
    - Recursion bounded in the source by a depth of 64 is a fixpoint on [65 - depth];
      running out is the source's depth error. The JSON reader has fuel [parseFuel],
      twice the length of the input and two more, more than its nested calls can use.
      The polling loops of the driver have no bound in the source: their fuel counts
      rounds, and the result is [None] while they would still be running. Safety theorems
      are about runs that return; [DriverEnds] says how much fuel a run needs. The retry
      loop of a Kafka record has fuel for its rounds, and [KafkaProps] says how much is
      enough. The loops of the scanner take the length of the source as fuel; every round
      consumes a byte.
    - Arguments stand for what is not in the repository: the protobuf codec (size,
      unknown fields, deterministic encoding), [regexp.MatchString], the text of a
      float64 in JSON, random tokens, clocks, contexts and executors, the parsers of
      participle and expr, [strings.ToLower] beyond ASCII, resolvers, the Kafka client, and
      the decoding of JSON documents into Go structs ([decodeIdentity],
      [decodeEnvironment], [decodeExecutors]). A context derived with [WithoutCancel] is
      another reading of the oracle.

    ** Not modelled

    The PostgreSQL stores are SQL executed by the database. HTTP, gRPC and the commands are
    input and output around the modelled core. The guardrails are lint rules for the
    repository and the schema tooling runs an external program. The grammar of the surface
    language is given to a parser generator, and its trees are an argument here. Source
    bundles are seen through their accessors; parsing of descriptor documents, archive
    extraction and the setters of the Kafka source are left out. Generated protobuf code
    appears as the messages of [Ir]. Observers only report. *)

From stdpp Require Export prelude strings gmap sorting list.
From Stdlib Require Export ZArith Lia.

Declare Scope effectus_scope.
Delimit Scope effectus_scope with eff.
Open Scope effectus_scope.
Open Scope list_scope.

(** ** Go errors

    An [error] value is seen by the rest of the program only through
    [errors.Is] against the package-level sentinels and through [Error()].
    [err_is] lists the sentinels the value wraps and [err_text] is its message.
    Messages are kept up to the values interpolated by [fmt.Errorf]. *)
Inductive sentinel : Type :=
  (* schema/saga_outbox.go *)
  | ErrIdentityConflict
  | ErrNoDispatch
  | ErrStaleLease
  | ErrActiveDispatchLease
  | ErrTerminalSaga
  | ErrInvalidTransition
  | ErrOptimisticConflict
  (* schema/execution_ledger.go *)
  | ErrArtifactNotFound
  | ErrExecutionNotFound
  | ErrStaleExecutionLease
  (* schema/fencing/provider.go *)
  | ErrLeaseHeld
  | ErrStaleGrant
  (* ir/check.go *)
  | ErrInvalidArtifact
  | ErrLimitExceeded
  (* runtime *)
  | ErrInvalidExecuteRequest
  | ErrGenerationMismatch
  | ErrBlockedDependency
  | ErrDurableDisposition
  | ErrExecutionBusy
  | ErrTerminalExecution
  | ErrEngineExecutionNotFound   (* [runtime.ErrExecutionNotFound] *)
  | errRecoveryLeaseLost
  (* an error with SQLSTATE 40001 or 23505, as [errors.As] finds it *)
  | PostgresConcurrency
  (* context *)
  | ErrCanceled
  | ErrDeadlineExceeded
  (* internal/daemon/kafka/kafka.go *)
  | ErrPoisonMessage.

#[global] Instance sentinel_eq_dec : EqDecision sentinel.
Proof. solve_decision. Defined.

Record error : Type := mkError { err_is : list sentinel; err_text : string }.

#[global] Instance error_eq_dec : EqDecision error.
Proof. solve_decision. Defined.

(** [errors.New] / [fmt.Errorf] without a wrapped error. *)
Definition errorf (text : string) : error := mkError [] text.
(** [fmt.Errorf] whose first verb is [%w] on a sentinel. *)
Definition wrapf (s : sentinel) (text : string) : error := mkError [s] text.
(** [errors.Is]. *)
Definition errorsIs (e : error) (s : sentinel) : bool := bool_decide (s ∈ err_is e).
(** [errors.Join] of two non-nil errors. *)
Definition errorsJoin (e1 e2 : error) : error :=
  mkError (err_is e1 ++ err_is e2) (err_text e1 +:+ err_text e2).

(** ** Fallible computations

    A Go call returning [(T, error)] is a [result T]: [Ok] when the error is
    nil, [Err] when it is not (the source never reads [T] in that case). *)
Inductive result (A : Type) : Type :=
  | Ok (a : A)
  | Err (e : error).
Arguments Ok {A} a.
Arguments Err {A} e.

#[global] Instance result_ret : MRet result := λ A a, Ok a.
#[global] Instance result_bind : MBind result := λ A B f x,
  match x with Ok a => f a | Err e => Err e end.
#[global] Instance result_fmap : FMap result := λ A B f x,
  match x with Ok a => Ok (f a) | Err e => Err e end.

#[global] Instance result_eq_dec `{EqDecision A} : EqDecision (result A).
Proof. solve_decision. Defined.

(** [if cond { return ..., err }] *)
Definition failIf (b : bool) (e : error) : result unit := if b then Err e else Ok tt.
(** [if err := f(); err != nil { return ..., err }] for a call returning only an error. *)
Definition isOk {A} (r : result A) : bool := match r with Ok _ => true | Err _ => false end.
Definition ofOption {A} (o : option A) (e : error) : result A :=
  match o with Some a => Ok a | None => Err e end.
(** [ctx.Err()]: [None] while the context is live. *)
Definition ctxErr (ctx : option error) : result unit :=
  match ctx with Some e => Err e | None => Ok tt end.

Lemma bind_Ok {A B} (x : result A) (f : A → result B) b :
  x ≫= f = Ok b ↔ ∃ a, x = Ok a ∧ f a = Ok b.
Proof. destruct x; naive_solver. Qed.
Lemma bind_Err {A B} (x : result A) (f : A → result B) e :
  x ≫= f = Err e ↔ x = Err e ∨ ∃ a, x = Ok a ∧ f a = Err e.
Proof. destruct x; naive_solver. Qed.
Lemma failIf_Ok b e u : failIf b e = Ok u ↔ b = false.
Proof. destruct b, u; naive_solver. Qed.
Lemma failIf_Err b e e' : failIf b e = Err e' ↔ b = true ∧ e = e'.
Proof. destruct b; naive_solver. Qed.
Lemma ofOption_Ok {A} (o : option A) e a : ofOption o e = Ok a ↔ o = Some a.
Proof. destruct o; naive_solver. Qed.
Lemma ctxErr_Ok ctx u : ctxErr ctx = Ok u ↔ ctx = None.
Proof. destruct ctx, u; naive_solver. Qed.
Lemma isOk_true {A} (r : result A) : isOk r = true ↔ ∃ a, r = Ok a.
Proof. destruct r; naive_solver. Qed.

(** Left-to-right traversal that stops at the first error. *)
Fixpoint mapR {A B} (f : A → result B) (l : list A) : result (list B) :=
  match l with
  | [] => Ok []
  | a :: l => b ← f a; bs ← mapR f l; Ok (b :: bs)
  end.

(** [for _, x := range l { state, err = f(state, x); if err != nil { return err } }] *)
Fixpoint foldR {A S} (f : S → A → result S) (l : list A) (s : S) : result S :=
  match l with
  | [] => Ok s
  | a :: l => s' ← f s a; foldR f l s'
  end.

Lemma mapR_Forall2 {A B} (f : A → result B) l l' :
  mapR f l = Ok l' ↔ Forall2 (λ a b, f a = Ok b) l l'.
Proof.
  revert l'. induction l as [|a l IH]; intros l'; simpl.
  - split; [intros [= <-]; constructor | by inversion 1].
  - rewrite bind_Ok. setoid_rewrite bind_Ok. split.
    + intros (b & ? & bs & ?%IH & [= <-]). by constructor.
    + inversion 1; subst. naive_solver.
Qed.

Lemma foldR_app {A S} (f : S → A → result S) l1 l2 s :
  foldR f (l1 ++ l2) s = foldR f l1 s ≫= foldR f l2.
Proof. revert s. induction l1 as [|a l IH]; intros s; simpl; [done|]. destruct (f s a); simpl; auto. Qed.

(** An invariant of every step is an invariant of the loop. *)
Lemma foldR_ind {A S} (P : S → Prop) (f : S → A → result S) l s s' :
  (∀ s a s', a ∈ l → P s → f s a = Ok s' → P s') →
  P s → foldR f l s = Ok s' → P s'.
Proof.
  revert s. induction l as [|a l IH]; intros s Hstep HP; simpl.
  - by intros [= <-].
  - intros (s1 & ? & ?)%bind_Ok. eapply IH; [|eapply Hstep; eauto; set_solver|done].
    intros; eapply Hstep; eauto; set_solver.
Qed.

Lemma forallb_Forall_impl {A} (f g : A → bool) l :
  Forall (λ x, f x = true → g x = true) l → forallb f l = true → forallb g l = true.
Proof.
  induction 1 as [|x l Hx _ IH]; [done|]. cbn. rewrite !andb_true_iff. naive_solver.
Qed.
Lemma forallb_elem {A} (f : A → bool) l x : forallb f l = true → x ∈ l → f x = true.
Proof. rewrite forallb_forall. intros H Hx. apply H. by apply list_elem_of_In. Qed.

(** ** Machine integers and time *)
Definition u64 (z : Z) : Z := z `mod` 2 ^ 64.
(** [x++] on a uint64. *)
Definition u64_inc (z : Z) : Z := u64 (z + 1).
Definition MaxInt64 : Z := 2 ^ 63 - 1.
Definition MinInt64 : Z := - 2 ^ 63.
Definition isInt64 (z : Z) : bool := bool_decide (MinInt64 ≤ z ≤ MaxInt64)%Z.

Lemma u64_range z : (0 ≤ u64 z < 2 ^ 64)%Z.
Proof. unfold u64. apply Z.mod_pos_bound. lia. Qed.
Lemma u64_small z : (0 ≤ z < 2 ^ 64)%Z → u64 z = z.
Proof. intros. unfold u64. by apply Z.mod_small. Qed.
Lemma u64_inc_u64 z : u64_inc (u64 z) = u64 (z + 1).
Proof. unfold u64_inc, u64. by rewrite Zplus_mod_idemp_l. Qed.

(** A revision counter never keeps its value. *)
Lemma u64_inc_ne z : u64_inc z ≠ z.
Proof.
  unfold u64_inc, u64. intros E. pose proof (Z.div_mod (z + 1) (2 ^ 64) ltac:(lia)) as D. rewrite E in D.
  assert (2 ^ 64 * ((z + 1) / 2 ^ 64) = 1)%Z as M by lia. apply Z.mul_eq_1 in M as [M|M]; lia.
Qed.

(** [time.Time] is the number of nanoseconds since the zero [time.Time{}];
    a [time.Duration] is a number of nanoseconds. *)
Definition Time : Type := Z.
Definition Duration : Type := Z.
Definition zeroTime : Time := 0%Z.
Definition timeIsZero (t : Time) : bool := bool_decide (t = zeroTime).
(** [a.After(b)] *)
Definition timeAfter (a b : Time) : bool := bool_decide (b < a)%Z.
Definition timeAdd (t : Time) (d : Duration) : Time := (t + d)%Z.
Definition Microsecond : Duration := 1000%Z.
Definition Millisecond : Duration := 1000000%Z.
Definition Second : Duration := 1000000000%Z.
Definition Minute : Duration := (60 * Second)%Z.

(** ** Sorting

    [sort.Strings] and [sort.Slice] under a total order are stdpp's
    [merge_sort]; the result is determined up to elements the order
    identifies. *)
Definition sortedStrings (l : list string) : list string := merge_sort String.le l.

Lemma sortedStrings_Permutation l : sortedStrings l ≡ₚ l.
Proof. apply merge_sort_Permutation. Qed.
Lemma sortedStrings_Sorted l : StronglySorted String.le (sortedStrings l).
Proof. apply StronglySorted_merge_sort; apply _. Qed.
Lemma sortedStrings_id l : StronglySorted String.le l → sortedStrings l = l.
Proof.
  intros. apply (StronglySorted_unique String.le);
    auto using sortedStrings_Sorted, sortedStrings_Permutation.
Qed.
Lemma sortedStrings_idemp l : sortedStrings (sortedStrings l) = sortedStrings l.
Proof. apply sortedStrings_id, sortedStrings_Sorted. Qed.
Lemma sortedStrings_elem x l : x ∈ sortedStrings l ↔ x ∈ l.
Proof. by rewrite sortedStrings_Permutation. Qed.

(** [s < t] on strings: bytewise lexicographic. *)
Definition strLt (s t : string) : bool := String.ltb s t.

Lemma compare_refl s : String.compare s s = Eq.
Proof.
  induction s as [|a s IH]; [done|]. cbn. unfold Ascii.compare. by rewrite N.compare_refl.
Qed.
Lemma strLt_compare s t : strLt s t = true ↔ String.compare s t = Lt.
Proof. unfold strLt, String.ltb. by destruct (String.compare s t). Qed.
Lemma strLt_le s t : strLt s t = true ↔ String.le s t ∧ s ≠ t.
Proof.
  rewrite strLt_compare. unfold String.le, String.leb. split.
  - intros H. rewrite H. split; [done|]. intros ->. by rewrite compare_refl in H.
  - intros [H Hne]. destruct (String.compare s t) eqn:E; [|done..].
    by apply String.compare_eq_iff in E.
Qed.
Lemma strLt_irrefl s : strLt s s = false.
Proof. apply not_true_is_false. rewrite strLt_le. naive_solver. Qed.
Lemma strLt_trans s t u : strLt s t = true → strLt t u = true → strLt s u = true.
Proof.
  rewrite !strLt_le. intros [H1 H1'] [H2 H2']. split; [by etrans|].
  intros ->. apply H1'. by apply (anti_symm String.le).
Qed.
Lemma strLt_asymm s t : strLt s t = true → strLt t s = false.
Proof. intros H. apply not_true_is_false. intros H'.
  pose proof (strLt_trans _ _ _ H H') as E. by rewrite strLt_irrefl in E. Qed.
Lemma strLt_total s t : strLt s t = true ∨ s = t ∨ strLt t s = true.
Proof.
  rewrite !strLt_le. destruct (decide (s = t)); [by right; left|].
  destruct (total String.le s t); naive_solver.
Qed.

(** ** Comparison functions

    The less-functions passed to [sort.Slice] compare fields in turn. [strict_total] is
    what they satisfy, [lexLt] one more field, and [leOf] the order that is sorted by. *)
Record strict_total {A} (lt : A → A → bool) : Prop := {
  so_irrefl a : lt a a = false;
  so_trans a b c : lt a b = true → lt b c = true → lt a c = true;
  so_total a b : lt a b = true ∨ a = b ∨ lt b a = true }.
Definition lexLt {A B} `{EqDecision A} (lt1 : A → A → bool) (lt2 : B → B → bool) (x y : A * B) : bool :=
  if bool_decide (x.1 ≠ y.1) then lt1 x.1 y.1 else lt2 x.2 y.2.
Definition leOf {A K} (key : A → K) (lt : K → K → bool) (a b : A) : Prop := lt (key b) (key a) = false.

Lemma strLt_strict : strict_total strLt.
Proof. split; [apply strLt_irrefl|apply strLt_trans|apply strLt_total]. Qed.
Lemma Zlt_strict : strict_total (λ a b : Z, bool_decide (a < b)%Z).
Proof.
  split; intros *; rewrite ?bool_decide_eq_true, ?bool_decide_eq_false; lia.
Qed.
Lemma lexLt_strict {A B} `{EqDecision A} (lt1 : A → A → bool) (lt2 : B → B → bool) :
  strict_total lt1 → strict_total lt2 → strict_total (lexLt lt1 lt2).
Proof.
  intros [I1 T1 O1] [I2 T2 O2]. unfold lexLt. split.
  - intros [a b]. cbn. rewrite bool_decide_eq_false_2 by tauto. done.
  - intros [a b] [a' b'] [a'' b'']. cbn. destruct (decide (a = a')) as [->|N1], (decide (a' = a'')) as [->|N2].
    + rewrite !bool_decide_eq_false_2 by tauto. eauto.
    + rewrite (bool_decide_eq_false_2 (a' ≠ a')) by tauto. by rewrite !bool_decide_eq_true_2.
    + rewrite (bool_decide_eq_false_2 (a'' ≠ a'')) by tauto. by rewrite !bool_decide_eq_true_2.
    + rewrite (bool_decide_eq_true_2 (a ≠ a')), (bool_decide_eq_true_2 (a' ≠ a'')) by done. intros H1 H2.
      rewrite bool_decide_eq_true_2; [eauto|]. intros ->. assert (lt1 a'' a'' = true) by eauto. congruence.
  - intros [a b] [a' b']. cbn. destruct (decide (a = a')) as [->|N].
    + rewrite !bool_decide_eq_false_2 by tauto. destruct (O2 b b') as [?|[->|?]]; auto.
    + rewrite !bool_decide_eq_true_2 by congruence. destruct (O1 a a') as [?|[->|?]]; auto.
Qed.
Lemma leOf_total {A K} (key : A → K) lt : strict_total lt → Total (leOf key lt).
Proof.
  intros [I T O] a b. unfold leOf. destruct (lt (key b) (key a)) eqn:E; [|auto]. right.
  destruct (lt (key a) (key b)) eqn:E'; [|done]. assert (lt (key a) (key a) = true) by eauto. congruence.
Qed.
Lemma leOf_trans {A K} (key : A → K) lt : strict_total lt → Transitive (leOf key lt).
Proof.
  intros [I T O] a b c. unfold leOf. intros H1 H2. destruct (lt (key c) (key a)) eqn:E; [|done].
  destruct (O (key b) (key c)) as [H|[H|H]]; [|congruence|congruence].
  assert (lt (key b) (key a) = true) by eauto. congruence.
Qed.

(** The keys of a Go map in [sort.Strings] order. *)
Definition sortedKeys {V} (m : gmap string V) : list string := sortedStrings (map_to_list m).*1.

Lemma sortedKeys_elem {V} (m : gmap string V) k : k ∈ sortedKeys m ↔ is_Some (m !! k).
Proof.
  unfold sortedKeys. rewrite sortedStrings_elem, list_elem_of_fmap. split.
  - intros ([k' v] & -> & Hin). apply elem_of_map_to_list in Hin. eauto.
  - intros [v Hv]. exists (k, v). by rewrite elem_of_map_to_list.
Qed.

Lemma list_filter_none {A} (f : A → bool) l : (∀ x, In x l → f x = false) → List.filter f l = [].
Proof. induction l as [|x l IH]; cbn; [done|]. intros H. rewrite (H x) by auto. auto. Qed.

Lemma NoDup_map_filter {A B} (g : A → B) (f : A → bool) l : NoDup (g <$> l) → NoDup (g <$> List.filter f l).
Proof.
  induction l as [|x l IH]; cbn; [done|]. intros [Hx Hn]%NoDup_cons. destruct (f x); [|auto]. cbn. apply NoDup_cons. split; [|auto].
  intros (y & E & Hy)%list_elem_of_fmap. apply Hx, list_elem_of_fmap. exists y. split; [done|].
  apply list_elem_of_In in Hy. apply List.filter_In in Hy as [Hy _]. by apply list_elem_of_In.
Qed.

Lemma elem_of_take_sublist {A} (x : A) n l : x ∈ take n l → x ∈ l.
Proof. intros H. rewrite <-(take_drop n l). apply elem_of_app. by left. Qed.
Lemma NoDup_take_sublist {A} n (l : list A) : NoDup l → NoDup (take n l).
Proof. intros H. rewrite <-(take_drop n l) in H. by apply NoDup_app in H as [? _]. Qed.

(** ** Searching a map

    [for _, x := range m { if f(x) { return true } }; return false] *)
Definition mapExists {V} (f : V → bool) (m : gmap string V) : bool := existsb f (map_to_list m).*2.

Lemma elem_of_map_values {V} (m : gmap string V) v : v ∈ (map_to_list m).*2 ↔ ∃ k, m !! k = Some v.
Proof.
  rewrite list_elem_of_fmap. split.
  - intros ([k v'] & -> & Hin). exists k. by apply elem_of_map_to_list.
  - intros [k Hk]. exists (k, v). by rewrite elem_of_map_to_list.
Qed.
Lemma mapExists_true {V} (f : V → bool) m : mapExists f m = true ↔ ∃ k v, m !! k = Some v ∧ f v = true.
Proof.
  unfold mapExists. rewrite existsb_exists. setoid_rewrite <-list_elem_of_In.
  setoid_rewrite elem_of_map_values. naive_solver.
Qed.
Lemma mapExists_false {V} (f : V → bool) m : mapExists f m = false ↔ ∀ k v, m !! k = Some v → f v = false.
Proof.
  rewrite <-not_true_iff_false, mapExists_true. split.
  - intros H k v Hk. destruct (f v) eqn:E; [|done]. destruct H. eauto.
  - intros H (k & v & Hk & E). by rewrite (H k v Hk) in E.
Qed.

(** A property that at most one key of a map has. *)
Lemma filter_at_most_one {V} (l : list (string * V)) (f : V → bool) : NoDup l.*1 →
  (∀ k v k' v', (k, v) ∈ l → (k', v') ∈ l → f v = true → f v' = true → k = k') →
  (List.length (List.filter f l.*2) ≤ 1)%nat.
Proof.
  induction l as [|[k v] l IH]; cbn; [lia|]. intros [Hk Hn]%NoDup_cons H.
  destruct (f v) eqn:E; [|apply IH; [done|]; intros k1 v1 k2 v2 L1 L2; refine (H _ _ _ _ _ _); apply elem_of_cons; by right].
  cbn. replace (List.filter f l.*2) with (@nil V); [cbn; lia|]. symmetry. apply list_filter_none.
  intros v' Hv. destruct (f v') eqn:E'; [|done]. exfalso. apply list_elem_of_In, list_elem_of_fmap in Hv as ([k' v''] & -> & L).
  apply Hk. rewrite (H k v k' v''); [apply list_elem_of_fmap; by exists (k', v'')|apply elem_of_cons; by left|apply elem_of_cons; by right|done|done].
Qed.

(** ** Record update

    [r <| f := v |>] is the record [r] with field [f] replaced by [v], for a record
    type whose eta-expansion is registered as an [Eta] instance. *)
Class Eta (R : Type) := eta : R → R.
Class Setter {R T : Type} (proj : R → T) := setter : T → R → R.
#[global] Hint Mode Setter - - ! : typeclass_instances.
Arguments setter {R T} proj {_} v r /.

Ltac derive_setter proj :=
  let v := fresh "v" in
  let r := fresh "r" in
  intros v r;
  lazymatch type of r with
  | ?R =>
      let t := constr:(@eta R _ r) in
      let t := eval hnf in t in
      lazymatch eval pattern (proj r) in t with
      | ?g _ => let t' := eval cbv beta in (g v) in exact t'
      end
  end.
#[global] Hint Extern 1 (Setter ?proj) => (unfold Setter; derive_setter proj) : typeclass_instances.

Notation "r <| proj := v |>" := (setter proj v r)
  (at level 1, left associativity, format "r  <| proj  :=  v |>") : effectus_scope.

(** ** Automation *)

(** Facts that close routine side goals of the components. *)
Create HintDb effectus discriminated.
#[export] Hint Resolve sortedStrings_Sorted sortedStrings_Permutation u64_range : effectus.

(** Equations of the error monad, used as left-to-right rewrites. *)
Create Rewrite HintDb results.
#[export] Hint Rewrite @bind_Ok @bind_Err failIf_Ok failIf_Err @ofOption_Ok ctxErr_Ok : results.

(** [inv_res H] decomposes a hypothesis about a successful or failing run of the
    error monad into the equations of its steps. *)
Ltac inv_res_step :=
  match goal with
  | H : _ ≫= _ = Ok _ |- _ => apply bind_Ok in H as (? & ? & H)
  | H : failIf _ _ = Ok _ |- _ => apply failIf_Ok in H
  | H : ofOption _ _ = Ok _ |- _ => apply ofOption_Ok in H
  | H : ctxErr _ = Ok _ |- _ => apply ctxErr_Ok in H
  | H : Ok _ = Ok _ |- _ => injection H as H
  | H : mret _ = Ok _ |- _ => injection H as H
  | H : Err _ = Ok _ |- _ => discriminate H
  | H : Ok _ = Err _ |- _ => discriminate H
  | H : (if ?b then Err _ else _) = Ok _ |- _ => destruct b eqn:?; [discriminate H|]
  | H : (if ?b then _ else Err _) = Ok _ |- _ => destruct b eqn:?; [|discriminate H]
  | u : unit |- _ => destruct u
  end.
Ltac inv_res := repeat inv_res_step; simplify_eq.

(** Turns the boolean tests of the code into the propositions they decide. *)
Ltac bool_to_prop :=
  repeat match goal with
  | H : bool_decide _ = true |- _ => apply bool_decide_eq_true in H
  | H : bool_decide _ = false |- _ => apply bool_decide_eq_false in H
  | H : _ && _ = true |- _ => apply andb_true_iff in H as [? ?]
  | H : _ || _ = false |- _ => apply orb_false_iff in H as [? ?]
  | H : negb _ = true |- _ => apply negb_true_iff in H
  | H : negb _ = false |- _ => apply negb_false_iff in H
  end.
