(* ===== verification/GoText.v ===== *)
(** * Go byte strings

    The parts of [strings], [unicode/utf8] and [unicode] that the sources use,
    on byte strings: [TrimSpace], [ToLower] (as far as comparisons with ASCII
    keywords can observe it), [HasPrefix]/[HasSuffix], [Contains],
    [EqualFold] against an ASCII prefix, and [utf8.ValidString]. *)

From S2P Require Import Prelude.
From Stdlib Require Import ZArith NArith Ascii String Lia.

(** ** Bytes *)
Definition bytes (s : string) : list ascii := list_ascii_of_string s.
Definition ofBytes (l : list ascii) : string := string_of_list_ascii l.
Definition byteN (a : ascii) : N := N_of_ascii a.
Definition byteIn (lo hi : N) (a : ascii) : bool :=
  bool_decide (lo ≤ byteN a)%N && bool_decide (byteN a ≤ hi)%N.
Definition byteIs (n : N) (a : ascii) : bool := bool_decide (byteN a = n).
(** [len(s)] *)
Definition strlen (s : string) : Z := Z.of_nat (String.length s).

Lemma bytes_ofBytes l : bytes (ofBytes l) = l.
Proof. apply list_ascii_of_string_of_list_ascii. Qed.
Lemma ofBytes_bytes s : ofBytes (bytes s) = s.
Proof. apply string_of_list_ascii_of_string. Qed.
Lemma bytes_inj s t : bytes s = bytes t → s = t.
Proof. intros H. by rewrite <-(ofBytes_bytes s), H, ofBytes_bytes. Qed.
Lemma bytes_app s t : bytes (s +:+ t) = bytes s ++ bytes t.
Proof. induction s as [|a s IH]; [done|]. simpl. by rewrite IH. Qed.
Lemma length_bytes s : List.length (bytes s) = String.length s.
Proof. induction s as [|a s IH]; [done|]. simpl. by rewrite IH. Qed.
Lemma strlen_nonneg s : (0 ≤ strlen s)%Z.
Proof. unfold strlen. lia. Qed.
Lemma strlen_app s t : strlen (s +:+ t) = (strlen s + strlen t)%Z.
Proof. unfold strlen. rewrite <-!length_bytes, bytes_app, length_app. lia. Qed.
#[export] Hint Resolve strlen_nonneg : effectus.

(** ** [unicode.IsSpace] on UTF-8 encoded text

    The white-space runes are U+0009..U+000D, U+0020, U+0085, U+00A0, U+1680,
    U+2000..U+200A, U+2028, U+2029, U+202F, U+205F and U+3000; a rune is
    recognised by its one-, two- or three-byte encoding. *)
Definition space1 (a : ascii) : bool := byteIn 9 13 a || byteIs 32 a.
Definition space2 (a b : ascii) : bool := byteIs 194 a && (byteIs 133 b || byteIs 160 b).
Definition space3 (a b c : ascii) : bool :=
  (byteIs 225 a && byteIs 154 b && byteIs 128 c)
  || (byteIs 226 a && byteIs 128 b
      && (byteIn 128 138 c || byteIs 168 c || byteIs 169 c || byteIs 175 c))
  || (byteIs 226 a && byteIs 129 b && byteIs 159 c)
  || (byteIs 227 a && byteIs 128 b && byteIs 128 c).

(** Does the text start with a white-space rune? *)
Definition startsWithSpace (l : list ascii) : bool :=
  match l with
  | a :: b :: c :: _ => space1 a || space2 a b || space3 a b c
  | [a; b] => space1 a || space2 a b
  | [a] => space1 a
  | [] => false
  end.
(** The same for a reversed text, i.e. does the text end with one? *)
Definition endsWithSpaceRev (l : list ascii) : bool :=
  match l with
  | c :: b :: a :: _ => space1 c || space2 b c || space3 a b c
  | [c; b] => space1 c || space2 b c
  | [c] => space1 c
  | [] => false
  end.

(** [strings.TrimLeftFunc(s, unicode.IsSpace)] *)
Fixpoint trimLeft (l : list ascii) : list ascii :=
  match l with
  | [] => []
  | a :: l1 =>
      if space1 a then trimLeft l1 else
      match l1 with
      | [] => l
      | b :: l2 =>
          if space2 a b then trimLeft l2 else
          match l2 with
          | [] => l
          | c :: l3 => if space3 a b c then trimLeft l3 else l
          end
      end
  end.

(** [strings.TrimRightFunc(s, unicode.IsSpace)] on the reversed text. *)
Fixpoint trimRightRev (l : list ascii) : list ascii :=
  match l with
  | [] => []
  | c :: l1 =>
      if space1 c then trimRightRev l1 else
      match l1 with
      | [] => l
      | b :: l2 =>
          if space2 b c then trimRightRev l2 else
          match l2 with
          | [] => l
          | a :: l3 => if space3 a b c then trimRightRev l3 else l
          end
      end
  end.

(** [strings.TrimSpace] *)
Definition TrimSpace (s : string) : string :=
  ofBytes (rev (trimRightRev (rev (trimLeft (bytes s))))).

(** [strings.TrimSpace(s) == ""] *)
Definition isBlank (s : string) : bool := bool_decide (TrimSpace s = "").

Lemma ascii_list_ind3 (P : list ascii → Prop) :
  P [] → (∀ a, P [a]) → (∀ a b, P [b] → P [a; b]) →
  (∀ a b c l, P l → P (c :: l) → P (b :: c :: l) → P (a :: b :: c :: l)) → ∀ l, P l.
Proof.
  intros H0 H1 H2 H3 l.
  enough (P l ∧ (∀ a, P (a :: l)) ∧ (∀ a b, P (a :: b :: l))) by naive_solver.
  induction l as [|x l (IH0 & IH1 & IH2)]; [eauto 10|]. repeat split; eauto.
Qed.

Lemma trimLeft_head l : startsWithSpace (trimLeft l) = false.
Proof.
  induction l as [| a | a b IH | a b c l IH0 IH1 IH2] using ascii_list_ind3; simpl.
  - done.
  - destruct (space1 a) eqn:E; simpl; [done|]. by rewrite E.
  - destruct (space1 a) eqn:E; [exact IH|]. destruct (space2 a b) eqn:E2; [done|]. simpl. by rewrite E, E2.
  - destruct (space1 a) eqn:E; [exact IH2|]. destruct (space2 a b) eqn:E2; [exact IH1|].
    destruct (space3 a b c) eqn:E3; [exact IH0|]. simpl. by rewrite E, E2, E3.
Qed.

Lemma trimLeft_id l : startsWithSpace l = false → trimLeft l = l.
Proof.
  destruct l as [|a [|b [|c l]]]; simpl; intros H; [done|..].
  - by rewrite H.
  - apply orb_false_iff in H as [-> ->]. done.
  - apply orb_false_iff in H as [[-> ->]%orb_false_iff ->]. done.
Qed.

Lemma trimRightRev_head l : endsWithSpaceRev (trimRightRev l) = false.
Proof.
  induction l as [| a | a b IH | a b c l IH0 IH1 IH2] using ascii_list_ind3; simpl.
  - done.
  - destruct (space1 a) eqn:E; simpl; [done|]. by rewrite E.
  - destruct (space1 a) eqn:E; [exact IH|]. destruct (space2 b a) eqn:E2; [done|]. simpl. by rewrite E, E2.
  - destruct (space1 a) eqn:E; [exact IH2|]. destruct (space2 b a) eqn:E2; [exact IH1|].
    destruct (space3 c b a) eqn:E3; [exact IH0|]. simpl. by rewrite E, E2, E3.
Qed.

Lemma trimRightRev_id l : endsWithSpaceRev l = false → trimRightRev l = l.
Proof.
  destruct l as [|a [|b [|c l]]]; simpl; intros H; [done|..].
  - by rewrite H.
  - apply orb_false_iff in H as [-> ->]. done.
  - apply orb_false_iff in H as [[-> ->]%orb_false_iff ->]. done.
Qed.

Lemma trimRightRev_suffix l : ∃ k, l = k ++ trimRightRev l.
Proof.
  induction l as [| a | a b IH | a b c l [k0 IH0] [k1 IH1] [k2 IH2]] using ascii_list_ind3; simpl.
  - by exists [].
  - destruct (space1 a); [by exists [a]|by exists []].
  - destruct (space1 a).
    + destruct IH as [k Hk]. exists (a :: k). simpl in *. by rewrite Hk at 1.
    + destruct (space2 b a); [by exists [a; b]|by exists []].
  - destruct (space1 a). { exists (a :: k2). simpl. by f_equal. }
    destruct (space2 b a). { exists (a :: b :: k1). simpl. by do 2 f_equal. }
    destruct (space3 c b a). { exists (a :: b :: c :: k0). simpl. by do 3 f_equal. }
    by exists [].
Qed.

Lemma startsWithSpace_prefix l k : startsWithSpace (l ++ k) = false → startsWithSpace l = false.
Proof.
  destruct l as [|a [|b [|c l]]]; simpl; [done|..|done].
  - destruct k as [|b [|c k]]; simpl; [done|..]; rewrite !orb_false_iff; tauto.
  - destruct k as [|c k]; simpl; rewrite ?orb_false_iff; tauto.
Qed.

(** [strings.TrimSpace] is idempotent: what it returns has no surrounding white space. *)
Lemma TrimSpace_idemp s : TrimSpace (TrimSpace s) = TrimSpace s.
Proof.
  unfold TrimSpace. rewrite bytes_ofBytes.
  set (l := trimLeft (bytes s)). destruct (trimRightRev_suffix (rev l)) as [k Hk].
  rewrite (trimLeft_id (rev (trimRightRev (rev l)))).
  - rewrite rev_involutive, (trimRightRev_id (trimRightRev _)); [done|apply trimRightRev_head].
  - apply (startsWithSpace_prefix _ (rev k)). rewrite <-rev_app_distr, <-Hk, rev_involutive.
    apply trimLeft_head.
Qed.

(** ** Case folding *)
Definition lowerByte (a : ascii) : ascii := if byteIn 65 90 a then ascii_of_N (byteN a + 32) else a.

(** [strings.ToLower], exact on ASCII. The only other runes whose lower case is
    ASCII are U+0130 (to i) and U+212A (to k); the remaining non-ASCII bytes are
    left alone, which no comparison with an ASCII keyword distinguishes. *)
Fixpoint toLowerBytes (l : list ascii) : list ascii :=
  match l with
  | [] => []
  | a :: l1 =>
      match l1 with
      | b :: l2 =>
          if byteIs 196 a && byteIs 176 b then "i"%char :: toLowerBytes l2 else
          match l2 with
          | c :: l3 =>
              if byteIs 226 a && byteIs 132 b && byteIs 170 c then "k"%char :: toLowerBytes l3
              else lowerByte a :: toLowerBytes l1
          | [] => lowerByte a :: toLowerBytes l1
          end
      | [] => [lowerByte a]
      end
  end.
Definition ToLower (s : string) : string := ofBytes (toLowerBytes (bytes s)).

(** [strings.EqualFold(s, t)] for an ASCII [t] and an [s] of the same length in
    bytes: each rune of [s] must then match one byte of [t], so a multi-byte rune
    (such as U+017F, which folds onto s) leaves too few runes and folding is bytewise. *)
Definition equalFoldASCII (s t : string) : bool :=
  bool_decide (lowerByte <$> bytes s = lowerByte <$> bytes t).

(** ** Searching *)
Fixpoint prefixB (p l : list ascii) : bool :=
  match p, l with
  | [], _ => true
  | a :: p, b :: l => bool_decide (a = b) && prefixB p l
  | _ :: _, [] => false
  end.
Definition HasPrefix (s p : string) : bool := prefixB (bytes p) (bytes s).
Definition HasSuffix (s p : string) : bool := prefixB (rev (bytes p)) (rev (bytes s)).
Fixpoint containsB (l p : list ascii) : bool :=
  prefixB p l || match l with [] => false | _ :: l => containsB l p end.
Definition Contains (s p : string) : bool := containsB (bytes s) (bytes p).
(** [s[i:j]] for indices in range. *)
Definition slice (s : string) (i j : nat) : string := ofBytes (take (j - i) (drop i (bytes s))).
(** [strings.Compare]: bytewise lexicographic. *)
Definition strCompare (s t : string) : Z :=
  match String.compare s t with Eq => 0 | Lt => -1 | Gt => 1 end.

Lemma prefixB_spec p l : prefixB p l = true ↔ ∃ k, l = p ++ k.
Proof.
  revert l. induction p as [|a p IH]; intros [|b l]; simpl; [naive_solver..|].
  rewrite andb_true_iff, bool_decide_eq_true, IH. naive_solver.
Qed.
Lemma HasPrefix_spec s p : HasPrefix s p = true ↔ ∃ t, s = p +:+ t.
Proof.
  unfold HasPrefix. rewrite prefixB_spec. split.
  - intros [k Hk]. exists (ofBytes k). apply bytes_inj. by rewrite bytes_app, bytes_ofBytes.
  - intros [t ->]. rewrite bytes_app. eauto.
Qed.
Lemma HasSuffix_spec s p : HasSuffix s p = true ↔ ∃ t, s = t +:+ p.
Proof.
  unfold HasSuffix. rewrite prefixB_spec. split.
  - intros [k Hk]. exists (ofBytes (rev k)). apply bytes_inj. rewrite bytes_app, bytes_ofBytes.
    by rewrite <-(rev_involutive (bytes s)), Hk, rev_app_distr, rev_involutive.
  - intros [t ->]. rewrite bytes_app, rev_app_distr. eauto.
Qed.

(** ** UTF-8

    [utf8.DecodeRune] splits a text into well-formed encodings of one to four
    bytes and single bytes that start none. *)
Inductive rune : Type :=
  | R1 (a : ascii)
  | R2 (a b : ascii)
  | R3 (a b c : ascii)
  | R4 (a b c d : ascii)
  | RBad (a : ascii).

Definition runeBytes (r : rune) : list ascii :=
  match r with
  | R1 a | RBad a => [a]
  | R2 a b => [a; b]
  | R3 a b c => [a; b; c]
  | R4 a b c d => [a; b; c; d]
  end.

Definition cont (a : ascii) : bool := byteIn 128 191 a.
Definition enc1 (a : ascii) : bool := byteIn 0 127 a.
Definition enc2 (a b : ascii) : bool := byteIn 194 223 a && cont b.
Definition enc3 (a b c : ascii) : bool :=
  byteIn 224 239 a
  && (if byteIs 224 a then byteIn 160 191 b else if byteIs 237 a then byteIn 128 159 b else cont b)
  && cont c.
Definition enc4 (a b c d : ascii) : bool :=
  byteIn 240 244 a
  && (if byteIs 240 a then byteIn 144 191 b else if byteIs 244 a then byteIn 128 143 b else cont b)
  && cont c && cont d.

Fixpoint runes (l : list ascii) : list rune :=
  match l with
  | [] => []
  | a :: l1 =>
      if enc1 a then R1 a :: runes l1 else
      match l1 with
      | [] => [RBad a]
      | b :: l2 =>
          if enc2 a b then R2 a b :: runes l2 else
          match l2 with
          | [] => RBad a :: runes l1
          | c :: l3 =>
              if enc3 a b c then R3 a b c :: runes l3 else
              match l3 with
              | [] => RBad a :: runes l1
              | d :: l4 => if enc4 a b c d then R4 a b c d :: runes l4 else RBad a :: runes l1
              end
          end
      end
  end.

(** A well-formed encoding. *)
Definition runeOK (r : rune) : bool :=
  match r with
  | R1 a => enc1 a
  | R2 a b => enc2 a b
  | R3 a b c => enc3 a b c
  | R4 a b c d => enc4 a b c d
  | RBad _ => false
  end.

(** [utf8.ValidString] *)
Definition ValidUTF8 (s : string) : bool := forallb runeOK (runes (bytes s)).

Lemma byteIn_spec lo hi a : byteIn lo hi a = true ↔ (lo ≤ byteN a ≤ hi)%N.
Proof. unfold byteIn. rewrite andb_true_iff, !bool_decide_eq_true. done. Qed.

Lemma runes_nil : runes [] = [].
Proof. done. Qed.

(** A well-formed encoding in front of a text is its first rune. *)
Lemma runes_cons r l : runeOK r = true → runes (runeBytes r ++ l) = r :: runes l.
Proof.
  assert (H12 : ∀ a b, enc2 a b = true → enc1 a = false).
  { intros a b. unfold enc1, enc2, byteIn, cont. rewrite !andb_true_iff, andb_false_iff,
      !bool_decide_eq_true, !bool_decide_eq_false. lia. }
  assert (H3 : ∀ a b c, enc3 a b c = true → enc1 a = false ∧ enc2 a b = false).
  { intros a b c. unfold enc1, enc2, enc3, byteIn. rewrite !andb_true_iff, !andb_false_iff,
      !bool_decide_eq_true, !bool_decide_eq_false. lia. }
  assert (H4 : ∀ a b c d, enc4 a b c d = true → enc1 a = false ∧ enc2 a b = false ∧ enc3 a b c = false).
  { intros a b c d. unfold enc1, enc2, enc3, enc4, byteIn. rewrite !andb_true_iff, !andb_false_iff,
      !bool_decide_eq_true, !bool_decide_eq_false. lia. }
  destruct r as [a|a b|a b c|a b c d|a]; simpl; intros E; [..|done].
  - by rewrite E.
  - by rewrite (H12 _ _ E), E.
  - destruct (H3 _ _ _ E) as [-> ->]. by rewrite E.
  - destruct (H4 _ _ _ _ E) as (-> & -> & ->). by rewrite E.
Qed.

Lemma runes_concat rs l :
  forallb runeOK rs = true → runes ((rs ≫= runeBytes) ++ l) = rs ++ runes l.
Proof.
  induction rs as [|r rs IH]; [done|]. cbn [forallb]. rewrite andb_true_iff. intros [Hr Hrs].
  rewrite bind_cons, <-app_assoc, runes_cons by done. by rewrite IH.
Qed.

Lemma runes_bytes l : runes l ≫= runeBytes = l.
Proof.
  enough (∀ n l, List.length l ≤ n → runes l ≫= runeBytes = l) by eauto.
  clear l. induction n as [|n IH]; intros l Hl; [by destruct l; simpl in *; [|lia]|].
  destruct l as [|a l1]; [done|]. cbn [runes]. simpl in Hl.
  destruct (enc1 a). { rewrite bind_cons, IH by lia. done. }
  destruct l1 as [|b l2]; [done|]. simpl in Hl.
  destruct (enc2 a b). { rewrite bind_cons, IH by lia. done. }
  destruct l2 as [|c l3]; [rewrite bind_cons, IH by (simpl; lia); done|]. simpl in Hl.
  destruct (enc3 a b c). { rewrite bind_cons, IH by lia. done. }
  destruct l3 as [|d l4]; [rewrite bind_cons, IH by (simpl; lia); done|]. simpl in Hl.
  destruct (enc4 a b c d); rewrite bind_cons, IH by (simpl; lia); done.
Qed.

Example trim_ex : TrimSpace (ofBytes (ascii_of_nat <$> [32; 194; 160; 97; 32; 98; 227; 128; 128; 9])) = "a b".
Proof. vm_compute. reflexivity. Qed.

#[global] Arguments TrimSpace : simpl never.
#[global] Arguments ToLower : simpl never.
#[global] Arguments ValidUTF8 : simpl never.
#[global] Arguments Contains : simpl never.
#[global] Arguments HasPrefix : simpl never.
#[global] Arguments HasSuffix : simpl never.
