(* ===== verification/Sha256.v ===== *)
(** * SHA-256, hexadecimal and big-endian integers

    [crypto/sha256.Sum256], [encoding/hex.EncodeToString] and
    [binary.BigEndian.PutUint64] as executable functions on byte lists, so that
    every identity and digest of the program can be computed in a witness. The
    functions are never unfolded by simplification. *)

From S2P Require Import Prelude GoText.
From Stdlib Require Import ZArith NArith Ascii String Lia.
Local Open Scope N_scope.

Definition mask32 : N := 4294967295.
Definition add32 (a b : N) : N := N.land (a + b) mask32.
Definition rotr (x n : N) : N :=
  N.lor (N.shiftr x n) (N.land (N.shiftl x (32 - n)) mask32).
Definition not32 (x : N) : N := N.lxor x mask32.

(** The constants of FIPS 180-4: the first 32 bits of the fractional parts of the cube
    roots of the first 64 primes, and of the square roots of the first 8. *)
Definition isPrime (n : N) : bool :=
  forallb (λ d, negb (bool_decide (n mod N.of_nat d = 0))) (seq 2 (N.to_nat n - 2)).
Definition primes : list N := List.filter isPrime (N.of_nat <$> seq 2 310).

(** The largest [r] below [2 ^ bits] with [r ^ k <= x]. *)
Fixpoint rootBelow (k : N) (bits : nat) (x acc : N) : N :=
  match bits with
  | O => acc
  | S bits =>
      let next := acc + 2 ^ N.of_nat bits in
      rootBelow k bits x (if bool_decide (next ^ k <= x) then next else acc)
  end.
Definition rootFraction (k p : N) : N := rootBelow k 40 (p * 2 ^ (32 * k)) 0 mod 2 ^ 32.

Definition K256 : list N := Eval vm_compute in rootFraction 3 <$> primes.
Definition H256 : list N := Eval vm_compute in rootFraction 2 <$> take 8 primes.

Example K256_ends : List.length K256 = 64%nat ∧ head K256 = Some 0x428a2f98 ∧ last K256 = Some 0xc67178f2.
Proof. vm_compute. auto. Qed.

(** [n] bytes of [x], most significant first. *)
Fixpoint beBytes (n : nat) (x : N) : list ascii :=
  match n with
  | O => []
  | S n => ascii_of_N (N.shiftr x (8 * N.of_nat n) mod 256) :: beBytes n x
  end.
(** [binary.BigEndian.PutUint64] *)
Definition be64 (x : N) : list ascii := beBytes 8 x.
Definition ofBE (l : list ascii) : N := foldl (λ acc a, acc * 256 + byteN a) 0 l.

Definition pad (l : list ascii) : list ascii :=
  let n := N.of_nat (List.length l) in
  let zeros := N.to_nat ((119 - n mod 64) mod 64) in
  l ++ [ascii_of_N 128] ++ replicate zeros (ascii_of_N 0) ++ be64 (8 * n).

Fixpoint words (l : list ascii) : list N :=
  match l with
  | a :: b :: c :: d :: l => ofBE [a; b; c; d] :: words l
  | _ => []
  end.

(** The message schedule: [recent] holds the last words, most recent first. *)
Fixpoint schedule (n : nat) (recent : list N) : list N :=
  match n with
  | O => []
  | S n =>
      let w i := default 0 (recent !! i) in
      let s0 := N.lxor (N.lxor (rotr (w 14%nat) 7) (rotr (w 14%nat) 18)) (N.shiftr (w 14%nat) 3) in
      let s1 := N.lxor (N.lxor (rotr (w 1%nat) 17) (rotr (w 1%nat) 19)) (N.shiftr (w 1%nat) 10) in
      let next := add32 (add32 (w 15%nat) s0) (add32 (w 6%nat) s1) in
      next :: schedule n (next :: take 15 recent)
  end.

Definition round256 (h : list N) (kw : N * N) : list N :=
  match h with
  | [a; b; c; d; e; f; g; h] =>
      let S1 := N.lxor (N.lxor (rotr e 6) (rotr e 11)) (rotr e 25) in
      let ch := N.lxor (N.land e f) (N.land (not32 e) g) in
      let t1 := add32 (add32 (add32 h S1) (add32 ch kw.1)) kw.2 in
      let S0 := N.lxor (N.lxor (rotr a 2) (rotr a 13)) (rotr a 22) in
      let maj := N.lxor (N.lxor (N.land a b) (N.land a c)) (N.land b c) in
      [add32 t1 (add32 S0 maj); a; b; c; add32 d t1; e; f; g]
  | _ => h
  end.

Definition compress (h : list N) (block : list N) : list N :=
  let ws := block ++ schedule 48 (rev block) in
  zip_with add32 h (foldl round256 h (zip K256 ws)).

Fixpoint blocks (fuel : nat) (ws : list N) (h : list N) : list N :=
  match fuel, ws with
  | S fuel, _ :: _ => blocks fuel (drop 16 ws) (compress h (take 16 ws))
  | _, _ => h
  end.

(** [sha256.Sum256] *)
Definition sha256 (l : list ascii) : list ascii :=
  let ws := words (pad l) in
  blocks (List.length ws) ws H256 ≫= beBytes 4.

Definition hexDigit (n : N) : ascii := if n <? 10 then ascii_of_N (48 + n) else ascii_of_N (87 + n).
(** [hex.EncodeToString] *)
Definition hexBytes (l : list ascii) : list ascii :=
  l ≫= λ a, [hexDigit (byteN a / 16); hexDigit (byteN a mod 16)].
Definition hexEncode (l : list ascii) : string := ofBytes (hexBytes l).
(** [hex.EncodeToString(sha256.Sum256(data)[:])] *)
Definition sha256hex (data : list ascii) : string := hexEncode (sha256 data).

Example sha256_empty :
  sha256hex [] = "e3b0c44298fc1c149afbf4c8996fb92427ae41e4649b934ca495991b7852b855".
Proof. vm_compute. reflexivity. Qed.
Example sha256_abc :
  sha256hex (bytes "abc") = "ba7816bf8f01cfea414140de5dae2223b00361a396177a9cb410ff61f20015ad".
Proof. vm_compute. reflexivity. Qed.
Example sha256_two_blocks :
  sha256hex (bytes "abcdbcdecdefdefgefghfghighijhijkijkljklmklmnlmnomnopnopq")
  = "248d6a61d20638b8e5c026930c3e6039a33ce45964ff2167f6ecedd419db06c1".
Proof. vm_compute. reflexivity. Qed.

#[global] Opaque sha256.
#[global] Arguments sha256 : simpl never.
#[global] Arguments sha256hex : simpl never.

(** ** Big-endian integers decode *)
Lemma length_beBytes n x : List.length (beBytes n x) = n.
Proof. induction n as [|n IH]; simpl; [done|]. by rewrite IH. Qed.

Lemma ofBE_app l k : ofBE (l ++ k) = ofBE l * 256 ^ N.of_nat (List.length k) + ofBE k.
Proof.
  unfold ofBE. rewrite foldl_app. generalize (foldl (λ acc a, acc * 256 + byteN a) 0 l).
  induction k as [|a k IH] using rev_ind; intros acc.
  - simpl. lia.
  - rewrite !foldl_app. simpl. rewrite IH, length_app, Nat2N.inj_add, N.pow_add_r.
    change (N.of_nat (List.length [a])) with 1. lia.
Qed.

Lemma byteN_ascii_of_N n : n < 256 → byteN (ascii_of_N n) = n.
Proof. intros. unfold byteN. by apply N_ascii_embedding. Qed.
Lemma byteN_lt a : byteN a < 256.
Proof. apply N_ascii_bounded. Qed.
Lemma byteN_inj a b : byteN a = byteN b → a = b.
Proof. unfold byteN. intros H. by rewrite <-(ascii_N_embedding a), <-(ascii_N_embedding b), H. Qed.

Lemma ofBE_beBytes n x : ofBE (beBytes n x) = x mod 256 ^ N.of_nat n.
Proof.
  induction n as [|n IH]; [by rewrite N.mod_1_r|].
  cbn [beBytes]. change (?a :: ?l) with ([a] ++ l). rewrite ofBE_app, IH, length_beBytes.
  unfold ofBE at 1. cbn [foldl]. rewrite byteN_ascii_of_N by (apply N.mod_lt; lia).
  rewrite N.shiftr_div_pow2, N.pow_mul_r. change (2 ^ 8) with 256.
  rewrite Nat2N.inj_succ, N.pow_succ_r', (N.mul_comm 256).
  rewrite N.Div0.mod_mul_r. lia.
Qed.

Lemma length_be64 x : List.length (be64 x) = 8%nat.
Proof. apply (length_beBytes 8). Qed.

Lemma be64_inj x y : x < 2 ^ 64 → y < 2 ^ 64 → be64 x = be64 y → x = y.
Proof.
  intros Hx Hy H. apply (f_equal ofBE) in H. unfold be64 in H. rewrite !ofBE_beBytes in H.
  change (256 ^ N.of_nat 8) with (2 ^ 64) in H. by rewrite !N.mod_small in H.
Qed.

#[global] Opaque be64.
#[global] Arguments be64 : simpl never.
