(* ===== verification/Json.v ===== *)
(** * JSON as [encoding/json] reads and writes it

    [json.Marshal] (sorted map keys, HTML escaping, U+2028/U+2029 and invalid
    UTF-8 escaped), [json.Decoder] with [UseNumber] (first value of the input,
    nesting bound 10000, later duplicates win, invalid UTF-8 replaced) and
    [json.Valid]; then [CanonicalJSON] of [schema/saga_outbox.go] and
    [jsonSemanticallyEqual] of [schema/execution_ledger.go].

    A Go value handed to [Marshal] is the tree Marshal walks: a native number is
    the literal Marshal prints for it, a map is its key-sorted entry list, and a
    value Marshal rejects (a channel, a function, NaN) is [JUnsupported]. *)

From S2P Require Import Prelude GoText Sha256.
From Stdlib Require Import ZArith NArith Ascii String Lia.
Local Open Scope list_scope.

Set Warnings "-register-all".
Inductive json : Type :=
  | JNull
  | JBool (b : bool)
  | JNum (literal : string)
  | JStr (s : string)
  | JArr (items : list json)
  | JObj (fields : list (string * json))
  | JUnsupported.

Definition chr (n : N) : ascii := ascii_of_N n.
Definition quote : ascii := chr 34.
Definition backslash : ascii := chr 92.

(** ** Numbers

    An optional minus sign, an integer part without leading zero, an optional
    fraction and an optional exponent. *)
Definition isDigit (a : ascii) : bool := byteIn 48 57 a.
Fixpoint scanDigits (l : list ascii) : list ascii * list ascii :=
  match l with
  | a :: l' => if isDigit a then let '(ds, r) := scanDigits l' in (a :: ds, r) else ([], l)
  | [] => ([], [])
  end.
(** At least one digit. *)
Definition scanDigits1 (l : list ascii) : option (list ascii * list ascii) :=
  match scanDigits l with
  | ([], _) => None
  | r => Some r
  end.
Definition scanInt (l : list ascii) : option (list ascii * list ascii) :=
  match l with
  | a :: l' =>
      if byteIs 48 a then Some ([a], l')
      else if byteIn 49 57 a then let '(ds, r) := scanDigits l' in Some (a :: ds, r) else None
  | [] => None
  end.
Definition scanFrac (l : list ascii) : option (list ascii * list ascii) :=
  match l with
  | a :: l' => if byteIs 46 a then '(ds, r) ← scanDigits1 l'; Some (a :: ds, r) else Some ([], l)
  | [] => Some ([], [])
  end.
Definition scanExp (l : list ascii) : option (list ascii * list ascii) :=
  match l with
  | a :: l' =>
      if byteIs 101 a || byteIs 69 a then
        match l' with
        | s :: l'' =>
            if byteIs 43 s || byteIs 45 s
            then '(ds, r) ← scanDigits1 l''; Some (a :: s :: ds, r)
            else '(ds, r) ← scanDigits1 l'; Some (a :: ds, r)
        | [] => None
        end
      else Some ([], l)
  | [] => Some ([], [])
  end.
Definition scanUnsigned (l : list ascii) : option (list ascii * list ascii) :=
  '(i, l1) ← scanInt l; '(f, l2) ← scanFrac l1; '(e, l3) ← scanExp l2; Some (i ++ f ++ e, l3).
Definition scanNumber (l : list ascii) : option (list ascii * list ascii) :=
  match l with
  | a :: l' => if byteIs 45 a then '(n, r) ← scanUnsigned l'; Some (a :: n, r) else scanUnsigned l
  | [] => None
  end.
Definition isValidNumber (lit : string) : bool :=
  match scanNumber (bytes lit) with Some (_, []) => true | _ => false end.

(** ** Encoding *)
Definition escapeByte (a : ascii) : list ascii :=
  if byteIs 34 a || byteIs 92 a then [backslash; a]
  else if byteIs 8 a then bytes "\b"
  else if byteIs 12 a then bytes "\f"
  else if byteIs 10 a then bytes "\n"
  else if byteIs 13 a then bytes "\r"
  else if byteIs 9 a then bytes "\t"
  else if byteIn 0 31 a || byteIs 60 a || byteIs 62 a || byteIs 38 a
  then bytes "\u00" ++ [hexDigit (byteN a / 16); hexDigit (byteN a mod 16)]
  else [a].
Definition escapeRune (r : rune) : list ascii :=
  match r with
  | R1 a => escapeByte a
  | R3 a b c =>
      if byteIs 226 a && byteIs 128 b && byteIs 168 c then bytes "\u2028"
      else if byteIs 226 a && byteIs 128 b && byteIs 169 c then bytes "\u2029"
      else runeBytes r
  | RBad _ => bytes "\ufffd"
  | _ => runeBytes r
  end.
Definition escape (l : list ascii) : list ascii := runes l ≫= escapeRune.
Definition jsonString (s : string) : list ascii := quote :: escape (bytes s) ++ [quote].

(** Can Marshal encode the value at all? *)
Fixpoint supported (v : json) : bool :=
  match v with
  | JNull | JBool _ | JStr _ => true
  | JNum lit => bool_decide (lit = "") || isValidNumber lit
  | JArr items => forallb supported items
  | JObj fields => forallb (λ p, supported p.2) fields
  | JUnsupported => false
  end.

(** The text Marshal writes for a supported value. *)
Fixpoint jsonText (v : json) : list ascii :=
  match v with
  | JNull => bytes "null"
  | JBool true => bytes "true"
  | JBool false => bytes "false"
  | JNum lit => if bool_decide (lit = "") then bytes "0" else bytes lit
  | JStr s => jsonString s
  | JArr items =>
      bytes "[" ++ (fix go l := match l with
                    | [] => []
                    | [v] => jsonText v
                    | v :: l => jsonText v ++ bytes "," ++ go l
                    end) items ++ bytes "]"
  | JObj fields =>
      bytes "{" ++ (fix go l := match l with
                    | [] => []
                    | [(k, v)] => jsonString k ++ bytes ":" ++ jsonText v
                    | (k, v) :: l => jsonString k ++ bytes ":" ++ jsonText v ++ bytes "," ++ go l
                    end) fields ++ bytes "}"
  | JUnsupported => []
  end.

(** [json.Marshal] *)
Definition Marshal (v : json) : option string :=
  if supported v then Some (ofBytes (jsonText v)) else None.

(** ** Decoding *)
Definition isWS (a : ascii) : bool := byteIs 32 a || byteIs 9 a || byteIs 10 a || byteIs 13 a.
Fixpoint skipWS (l : list ascii) : list ascii :=
  match l with
  | a :: l' => if isWS a then skipWS l' else l
  | [] => []
  end.

Definition hexVal (a : ascii) : option N :=
  if byteIn 48 57 a then Some (byteN a - 48)%N
  else if byteIn 97 102 a then Some (byteN a - 87)%N
  else if byteIn 65 70 a then Some (byteN a - 55)%N
  else None.
Definition hex4 (a b c d : ascii) : option N :=
  x ← hexVal a; y ← hexVal b; z ← hexVal c; w ← hexVal d;
  Some (((x * 16 + y) * 16 + z) * 16 + w)%N.

Definition isSimpleEscape (a : ascii) : bool :=
  byteIs 98 a || byteIs 102 a || byteIs 110 a || byteIs 114 a || byteIs 116 a
  || byteIs 92 a || byteIs 47 a || byteIs 34 a.

(** The raw text of a string up to its closing quote, and what follows. *)
Fixpoint scanRaw (l : list ascii) : option (list ascii * list ascii) :=
  match l with
  | [] => None
  | a :: l1 =>
      if byteIs 34 a then Some ([], l1)
      else if byteIs 92 a then
        match l1 with
        | [] => None
        | e :: l2 =>
            if isSimpleEscape e then '(raw, r) ← scanRaw l2; Some (a :: e :: raw, r)
            else if byteIs 117 e then
              match l2 with
              | h1 :: h2 :: h3 :: h4 :: l3 =>
                  if bool_decide (is_Some (hex4 h1 h2 h3 h4))
                  then '(raw, r) ← scanRaw l3; Some (a :: e :: h1 :: h2 :: h3 :: h4 :: raw, r)
                  else None
              | _ => None
              end
            else None
        end
      else if byteIn 0 31 a then None
      else '(raw, r) ← scanRaw l1; Some (a :: raw, r)
  end.

(** [utf8.EncodeRune] for a code point below 0x110000 that is no surrogate. *)
Definition encodeRune (c : N) : list ascii :=
  if (c <? 128)%N then [chr c]
  else if (c <? 2048)%N then [chr (192 + c / 64); chr (128 + c mod 64)]
  else if (c <? 65536)%N then [chr (224 + c / 4096); chr (128 + c / 64 mod 64); chr (128 + c mod 64)]
  else [chr (240 + c / 262144); chr (128 + c / 4096 mod 64); chr (128 + c / 64 mod 64);
        chr (128 + c mod 64)].
Definition replacement : list ascii := [chr 239; chr 191; chr 189].

Definition simpleEscape (a : ascii) : ascii :=
  if byteIs 98 a then chr 8 else if byteIs 102 a then chr 12 else if byteIs 110 a then chr 10
  else if byteIs 114 a then chr 13 else if byteIs 116 a then chr 9 else a.

Definition highSurrogate (c : N) : bool := bool_decide (55296 ≤ c)%N && bool_decide (c < 56320)%N.
Definition lowSurrogate (c : N) : bool := bool_decide (56320 ≤ c)%N && bool_decide (c < 57344)%N.

(** Replaces the escapes of a raw string and its invalid bytes. *)
Fixpoint unquote (rs : list rune) : list ascii :=
  match rs with
  | [] => []
  | R1 a :: rs1 =>
      if byteIs 92 a then
        match rs1 with
        | R1 e :: rs2 =>
            if byteIs 117 e then
              match rs2 with
              | R1 h1 :: R1 h2 :: R1 h3 :: R1 h4 :: rs3 =>
                  match hex4 h1 h2 h3 h4 with
                  | Some c =>
                      if highSurrogate c || lowSurrogate c then
                        match rs3 with
                        | R1 b :: R1 f :: R1 g1 :: R1 g2 :: R1 g3 :: R1 g4 :: rs4 =>
                            match hex4 g1 g2 g3 g4 with
                            | Some c' =>
                                if byteIs 92 b && byteIs 117 f && highSurrogate c && lowSurrogate c'
                                then encodeRune (65536 + (c - 55296) * 1024 + (c' - 56320))%N
                                     ++ unquote rs4
                                else replacement ++ unquote rs3
                            | None => replacement ++ unquote rs3
                            end
                        | _ => replacement ++ unquote rs3
                        end
                      else encodeRune c ++ unquote rs3
                  | None => []
                  end
              | _ => []
              end
            else simpleEscape e :: unquote rs2
        | _ => []
        end
      else a :: unquote rs1
  | RBad _ :: rs1 => replacement ++ unquote rs1
  | r :: rs1 => runeBytes r ++ unquote rs1
  end.

Definition scanString (l : list ascii) : option (string * list ascii) :=
  '(raw, r) ← scanRaw l; Some (ofBytes (unquote (runes raw)), r).

Fixpoint stripPrefix (p l : list ascii) : option (list ascii) :=
  match p, l with
  | [], _ => Some l
  | a :: p, b :: l => if bool_decide (a = b) then stripPrefix p l else None
  | _ :: _, [] => None
  end.

(** [m[key] = value] on the key-sorted entries of a map. *)
Fixpoint objInsert (k : string) (v : json) (l : list (string * json)) : list (string * json) :=
  match l with
  | [] => [(k, v)]
  | (k', v') :: l' =>
      match String.compare k k' with
      | Lt => (k, v) :: l
      | Eq => (k, v) :: l'
      | Gt => (k', v') :: objInsert k v l'
      end
  end.

Definition maxNestingDepth : N := 10000.

(** A recursive-descent reader; [fuel] bounds the number of nested calls and
    [depth] counts the open arrays and objects. *)
Fixpoint parseValue (fuel : nat) (depth : N) (l : list ascii) : option (json * list ascii) :=
  match fuel with
  | O => None
  | S fuel =>
      match skipWS l with
      | [] => None
      | a :: l1 =>
          if byteIs 34 a then '(s, r) ← scanString l1; Some (JStr s, r)
          else if byteIs 91 a then
            if (maxNestingDepth <? depth + 1)%N then None else
            match skipWS l1 with
            | b :: l2 => if byteIs 93 b then Some (JArr [], l2)
                         else '(items, r) ← parseElems fuel (depth + 1) l1; Some (JArr items, r)
            | [] => None
            end
          else if byteIs 123 a then
            if (maxNestingDepth <? depth + 1)%N then None else
            match skipWS l1 with
            | b :: l2 => if byteIs 125 b then Some (JObj [], l2)
                         else '(fields, r) ← parseMembers fuel (depth + 1) l1 [];
                              Some (JObj fields, r)
            | [] => None
            end
          else if byteIs 110 a then r ← stripPrefix (bytes "ull") l1; Some (JNull, r)
          else if byteIs 116 a then r ← stripPrefix (bytes "rue") l1; Some (JBool true, r)
          else if byteIs 102 a then r ← stripPrefix (bytes "alse") l1; Some (JBool false, r)
          else '(lit, r) ← scanNumber (a :: l1); Some (JNum (ofBytes lit), r)
      end
  end
with parseElems (fuel : nat) (depth : N) (l : list ascii) : option (list json * list ascii) :=
  match fuel with
  | O => None
  | S fuel =>
      '(v, l1) ← parseValue fuel depth l;
      match skipWS l1 with
      | b :: l2 =>
          if byteIs 93 b then Some ([v], l2)
          else if byteIs 44 b then '(vs, r) ← parseElems fuel depth l2; Some (v :: vs, r)
          else None
      | [] => None
      end
  end
with parseMembers (fuel : nat) (depth : N) (l : list ascii) (acc : list (string * json))
    : option (list (string * json) * list ascii) :=
  match fuel with
  | O => None
  | S fuel =>
      match skipWS l with
      | [] => None
      | q :: l0 =>
          if byteIs 34 q then
            '(k, l1) ← scanString l0;
            match skipWS l1 with
            | [] => None
            | c :: l2 =>
                if byteIs 58 c then
                  '(v, l3) ← parseValue fuel depth l2;
                  match skipWS l3 with
                  | b :: l4 =>
                      if byteIs 125 b then Some (objInsert k v acc, l4)
                      else if byteIs 44 b then parseMembers fuel depth l4 (objInsert k v acc)
                      else None
                  | [] => None
                  end
                else None
            end
          else None
      end
  end.

Definition parseFuel (l : list ascii) : nat := 2 * List.length l + 2.

(** [Decoder.Decode] with [UseNumber]: the first value, the rest of the input unread. *)
Definition Decode (s : string) : option json :=
  let l := bytes s in fst <$> parseValue (parseFuel l) 0 l.

(** [json.Valid] *)
Definition Valid (s : string) : bool :=
  let l := bytes s in
  match parseValue (parseFuel l) 0 l with
  | Some (_, r) => bool_decide (skipWS r = [])
  | None => false
  end.

(** ** schema helpers *)

(** A possibly nil [map[string]any] as Marshal walks it. *)
Definition mapJSON (m : option (gmap string json)) : json :=
  match m with
  | None => JNull
  | Some m => JObj ((λ k, (k, default JNull (m !! k))) <$> sortedKeys m)
  end.

(** Encodes JSON-compatible data and rejects lossy or unsupported values. *)
Definition CanonicalJSON (value : json) : result (string * string) :=
  data ← ofOption (Marshal value) (errorf "encode canonical JSON");
  decoded ← ofOption (Decode data) (errorf "verify canonical JSON");
  canonical ← ofOption (Marshal decoded) (errorf "re-encode canonical JSON");
  Ok (canonical, sha256hex (bytes canonical)).

Definition jsonSemanticallyEqual (left right : string) : bool :=
  match Decode left, Decode right with
  | Some l, Some r =>
      match Marshal l, Marshal r with
      | Some lc, Some rc => bool_decide (lc = rc)
      | _, _ => false
      end
  | _, _ => false
  end.

Example canonical_ex :
  fst <$> CanonicalJSON (mapJSON (Some (<["b" := JNum "1e3"]> (<["a" := JArr [JStr "<x>"; JNull]]> ∅))))
  = Ok (ofBytes (bytes "{" ++ jsonString "a" ++ bytes ":[" ++ [quote] ++ bytes "\u003cx\u003e"
        ++ [quote] ++ bytes ",null]," ++ jsonString "b" ++ bytes ":1e3}")).
Proof. vm_compute. reflexivity. Qed.
Example decode_surrogates :
  Decode (ofBytes (quote :: bytes "\uD834\uDD1E\uD834x" ++ [quote] ++ bytes " trailing"))
  = Some (JStr (ofBytes (chr <$> [240; 157; 132; 158; 239; 191; 189; 120]%N))).
Proof. vm_compute. reflexivity. Qed.
Example decode_reject : Decode "[1,]" = None ∧ Decode "[01]" = None ∧ Valid "1 2" = false ∧ Decode "1 2" = Some (JNum "1").
Proof. vm_compute. auto. Qed.
