(* ===== verification/Workflow.v ===== *)
(** * Durable workflow contracts

    The data of [invocation/invocation.go] and [schema/workflow/contracts.go]:
    directions, outcome classes, fencing grants, saga, step, dispatch and attempt
    records, and the requests of the outbox store. String-typed enumerations are
    inductive types with their wire spelling given by a printing function. *)

From S2P Require Import Prelude GoText.
From Stdlib Require Import ZArith.

(** ** invocation *)
Inductive Direction : Type := DirectionForward | DirectionCompensation.
Definition directionString (d : Direction) : string :=
  match d with DirectionForward => "forward" | DirectionCompensation => "compensation" end.

(** [OutcomeOther] stands for any other string an executor can put in the class;
    [OutcomeOther ""] is the zero value of the type. *)
Inductive OutcomeClass : Type :=
  | OutcomeSuccess
  | OutcomeRetryableKnownNotCommitted
  | OutcomePermanentFailure
  | OutcomeUnknown
  | OutcomeStaleFence
  | OutcomeOther (class : string).

Record FencingGrant : Type := mkGrant {
  fg_Authority : string;
  fg_Resource : string;
  fg_Token : Z }.

#[global] Instance Direction_eq_dec : EqDecision Direction.
Proof. solve_decision. Defined.
#[global] Instance OutcomeClass_eq_dec : EqDecision OutcomeClass.
Proof. solve_decision. Defined.
#[global] Instance FencingGrant_eq_dec : EqDecision FencingGrant.
Proof. solve_decision. Defined.

(** [invocation.Outcome]; the result type is the executor's. *)
Record Outcome (V : Type) : Type := mkOutcome {
  oc_Class : OutcomeClass;
  oc_Result : V;
  oc_Err : option error }.
Arguments mkOutcome {V}.
Arguments oc_Class {V}.
Arguments oc_Result {V}.
Arguments oc_Err {V}.

(** Rejects incomplete or contradictory classifications. *)
Definition ValidateOutcome {V} (outcome : Outcome V) : result unit :=
  match oc_Class outcome with
  | OutcomeSuccess =>
      match oc_Err outcome with
      | Some _ => Err (errorf "successful invocation has an error")
      | None => Ok tt
      end
  | OutcomeRetryableKnownNotCommitted | OutcomePermanentFailure
  | OutcomeUnknown | OutcomeStaleFence =>
      match oc_Err outcome with
      | None => Err (errorf "invocation outcome requires an error")
      | Some _ => Ok tt
      end
  | OutcomeOther _ => Err (errorf "unknown invocation outcome class")
  end.

(** ** schema/workflow *)
Inductive SagaState : Type :=
  | SagaRunning
  | SagaCompleted
  | SagaCompensating
  | SagaCompensated
  | SagaFailed
  | SagaBlockedUnknown
  | SagaBlockedDependency
  | SagaBlockedFence
  | SagaBlockedCompensation.

Inductive DispatchState : Type :=
  | DispatchQueued
  | DispatchInFlight
  | DispatchSucceeded
  | DispatchRetryWait
  | DispatchFailedPermanent
  | DispatchCanceled
  | DispatchBlockedUnknown
  | DispatchBlockedFence.

Inductive StepState : Type := StepPending | StepSucceeded | StepFailed | StepCompensated.

Record FencingRequirement : Type := mkRequirement {
  fr_Authority : string;
  fr_Resource : string }.

#[global] Instance SagaState_eq_dec : EqDecision SagaState.
Proof. solve_decision. Defined.
#[global] Instance DispatchState_eq_dec : EqDecision DispatchState.
Proof. solve_decision. Defined.
#[global] Instance StepState_eq_dec : EqDecision StepState.
Proof. solve_decision. Defined.
#[global] Instance FencingRequirement_eq_dec : EqDecision FencingRequirement.
Proof. solve_decision. Defined.

Record SagaInstance : Type := mkSaga {
  sg_Namespace : string;
  sg_SagaID : string;
  sg_ExecutionID : string;
  sg_PlanID : string;
  sg_PlanDigest : string;
  sg_State : SagaState;
  sg_Serial : bool;
  sg_Revision : Z;
  sg_CreatedAt : Time;
  sg_UpdatedAt : Time }.

Record CreateSagaRequest : Type := mkCreateSaga {
  cs_Namespace : string;
  cs_SagaID : string;
  cs_ExecutionID : string;
  cs_PlanID : string;
  cs_PlanDigest : string;
  cs_Serial : bool;
  cs_AllowUnstableIdentityForTest : bool }.

(** [A] is the type of argument values; [None] is a nil map. *)
Record EnqueueStepRequest (A : Type) : Type := mkEnqueue {
  eq_SagaID : string;
  eq_EffectID : string;
  eq_Sequence : Z;
  eq_Verb : string;
  eq_ContractHash : string;
  eq_Arguments : option (gmap string A);
  eq_CompensationVerb : string;
  eq_CompensationContract : string;
  eq_CompensationArguments : option (gmap string A);
  eq_Fencing : list FencingRequirement }.
Arguments mkEnqueue {A}.
Arguments eq_SagaID {A}.
Arguments eq_EffectID {A}.
Arguments eq_Sequence {A}.
Arguments eq_Verb {A}.
Arguments eq_ContractHash {A}.
Arguments eq_Arguments {A}.
Arguments eq_CompensationVerb {A}.
Arguments eq_CompensationContract {A}.
Arguments eq_CompensationArguments {A}.
Arguments eq_Fencing {A}.

Record SagaStep : Type := mkStep {
  st_SagaID : string;
  st_EffectID : string;
  st_Sequence : Z;
  st_Verb : string;
  st_ContractHash : string;
  st_Arguments : string;
  st_ArgumentHash : string;
  st_CompensationVerb : string;
  st_CompensationContract : string;
  st_CompensationArguments : string;
  st_CompensationArgumentHash : string;
  st_Fencing : list FencingRequirement;
  st_State : StepState;
  st_Result : string }.

Record Dispatch : Type := mkDispatch {
  d_ID : string;
  d_SagaID : string;
  d_EffectID : string;
  d_Sequence : Z;
  d_Direction : Direction;
  d_Verb : string;
  d_ContractHash : string;
  d_Arguments : string;
  d_ArgumentHash : string;
  d_IdempotencyKey : string;
  d_State : DispatchState;
  d_Attempt : Z;
  d_LeaseOwner : string;
  d_LeaseToken : string;
  d_LeaseDeadline : Time;
  d_NextAttemptAt : Time;
  d_Fencing : list FencingRequirement;
  d_FencingGrants : list FencingGrant;
  d_LastOutcome : OutcomeClass;
  d_LastError : string;
  d_Result : string;
  d_Revision : Z;
  d_CreatedAt : Time;
  d_UpdatedAt : Time }.

Record ClaimOptions : Type := mkClaim {
  cl_Owner : string;
  cl_LeaseDuration : Duration;
  cl_Now : Time;
  cl_TargetDispatchID : string }.

Record Completion : Type := mkCompletion {
  cp_DispatchID : string;
  cp_Attempt : Z;
  cp_LeaseToken : string;
  cp_Outcome : OutcomeClass;
  cp_Result : string;
  cp_Error : string;
  cp_NextAttemptAt : Time;
  cp_Exhausted : bool;
  cp_Now : Time }.

Record DispatchAttempt : Type := mkAttempt {
  at_DispatchID : string;
  at_Attempt : Z;
  at_LeaseOwner : string;
  at_LeaseToken : string;
  at_LeaseDeadline : Time;
  at_FencingGrants : list FencingGrant;
  at_Outcome : OutcomeClass;
  at_Error : string;
  at_StartedAt : Time;
  at_CompletedAt : Time }.

#[global] Instance eta_SagaInstance : Eta SagaInstance := λ r,
  mkSaga (sg_Namespace r) (sg_SagaID r) (sg_ExecutionID r) (sg_PlanID r) (sg_PlanDigest r)
    (sg_State r) (sg_Serial r) (sg_Revision r) (sg_CreatedAt r) (sg_UpdatedAt r).
#[global] Instance eta_SagaStep : Eta SagaStep := λ r,
  mkStep (st_SagaID r) (st_EffectID r) (st_Sequence r) (st_Verb r) (st_ContractHash r)
    (st_Arguments r) (st_ArgumentHash r) (st_CompensationVerb r) (st_CompensationContract r)
    (st_CompensationArguments r) (st_CompensationArgumentHash r) (st_Fencing r) (st_State r)
    (st_Result r).
#[global] Instance eta_Dispatch : Eta Dispatch := λ r,
  mkDispatch (d_ID r) (d_SagaID r) (d_EffectID r) (d_Sequence r) (d_Direction r) (d_Verb r)
    (d_ContractHash r) (d_Arguments r) (d_ArgumentHash r) (d_IdempotencyKey r) (d_State r)
    (d_Attempt r) (d_LeaseOwner r) (d_LeaseToken r) (d_LeaseDeadline r) (d_NextAttemptAt r)
    (d_Fencing r) (d_FencingGrants r) (d_LastOutcome r) (d_LastError r) (d_Result r)
    (d_Revision r) (d_CreatedAt r) (d_UpdatedAt r).
#[global] Instance eta_DispatchAttempt : Eta DispatchAttempt := λ r,
  mkAttempt (at_DispatchID r) (at_Attempt r) (at_LeaseOwner r) (at_LeaseToken r)
    (at_LeaseDeadline r) (at_FencingGrants r) (at_Outcome r) (at_Error r) (at_StartedAt r)
    (at_CompletedAt r).
#[global] Instance eta_Completion : Eta Completion := λ r,
  mkCompletion (cp_DispatchID r) (cp_Attempt r) (cp_LeaseToken r) (cp_Outcome r) (cp_Result r)
    (cp_Error r) (cp_NextAttemptAt r) (cp_Exhausted r) (cp_Now r).
#[global] Instance eta_EnqueueStepRequest {A} : Eta (EnqueueStepRequest A) := λ r,
  mkEnqueue (eq_SagaID r) (eq_EffectID r) (eq_Sequence r) (eq_Verb r) (eq_ContractHash r)
    (eq_Arguments r) (eq_CompensationVerb r) (eq_CompensationContract r)
    (eq_CompensationArguments r) (eq_Fencing r).

#[global] Instance SagaInstance_eq_dec : EqDecision SagaInstance.
Proof. unfold EqDecision, Decision. decide equality; apply (decide (_ = _)). Defined.
#[global] Instance SagaStep_eq_dec : EqDecision SagaStep.
Proof. unfold EqDecision, Decision. decide equality; apply (decide (_ = _)). Defined.
#[global] Instance Dispatch_eq_dec : EqDecision Dispatch.
Proof. unfold EqDecision, Decision. decide equality; apply (decide (_ = _)). Defined.
#[global] Instance DispatchAttempt_eq_dec : EqDecision DispatchAttempt.
Proof. unfold EqDecision, Decision. decide equality; apply (decide (_ = _)). Defined.
