(* ===== verification/Identity.v ===== *)
(** * Stable identities

    The hash identities of [schema/saga_outbox.go]: every component is framed by
    its length as an 8-byte big-endian integer before it is hashed, so two
    different component lists never produce the same hash input. *)

From S2P Require Import Prelude GoText Sha256 Workflow.
From Stdlib Require Import ZArith NArith Ascii String.
Local Open Scope list_scope.

(** The bytes written to the hash for one component. *)
Definition frameComponent (component : string) : list ascii :=
  be64 (N.of_nat (String.length component)) ++ bytes component.

(** The whole hash input of [hashIdentity]. *)
Definition frameIdentity (components : list string) : list ascii :=
  components ≫= frameComponent.

Definition hashIdentity (components : list string) : string :=
  sha256hex (frameIdentity components).

(** Scopes a transport idempotency key to its checked ruleset. *)
Definition StableAdmissionID (namespace deliveryID ruleset version : string) : string :=
  hashIdentity [namespace; deliveryID; ruleset; version].

(** Derives an execution identity from admission identity. *)
Definition StableExecutionID (namespace deliveryID ruleset version : string) : string :=
  StableAdmissionID namespace deliveryID ruleset version.

(** Derives one plan saga identity from an execution. *)
Definition StableSagaID (executionID planID : string) : string :=
  hashIdentity [executionID; planID].

(** A stable key; an attempt is deliberately not an input. *)
Definition IdempotencyKey (namespace sagaID effectID : string) (direction : Direction) : string :=
  hashIdentity [namespace; sagaID; effectID; directionString direction].

#[global] Arguments hashIdentity : simpl never.
#[global] Arguments StableSagaID : simpl never.
#[global] Arguments IdempotencyKey : simpl never.

(** Go strings are shorter than 2^63 bytes; the framing only needs 2^64. *)
Definition frameable (component : string) : Prop := (strlen component < 2 ^ 64)%Z.

Lemma frameIdentity_inj xs ys :
  Forall frameable xs → Forall frameable ys → frameIdentity xs = frameIdentity ys → xs = ys.
Proof.
  unfold frameable, strlen. revert ys.
  induction xs as [|x xs IH]; intros [|y ys] Hx Hy H; [done|..];
    pose proof (f_equal List.length H) as Hlen; simpl in H, Hlen; unfold frameComponent in H, Hlen;
    rewrite ?length_app, ?length_be64 in Hlen; [lia..|].
  apply Forall_cons in Hx as [Hx Hxs]. apply Forall_cons in Hy as [Hy Hys].
  rewrite <-!app_assoc in H. clear Hlen.
  apply app_inj_1 in H as [Hlen H]; [|by rewrite !length_be64].
  apply be64_inj in Hlen; [|lia..].
  apply app_inj_1 in H as [H%bytes_inj Hrest]; [|rewrite !length_bytes; lia].
  rewrite H. f_equal. by apply IH.
Qed.

(** Two different inputs with one SHA-256 digest. *)
Definition collides (a b : list ascii) : Prop := a ≠ b ∧ sha256hex a = sha256hex b.

(** Two equal identities come from the same components, or their framed components
    collide. *)
Lemma hashIdentity_collision xs ys :
  Forall frameable xs → Forall frameable ys →
  hashIdentity xs = hashIdentity ys → xs = ys ∨ collides (frameIdentity xs) (frameIdentity ys).
Proof.
  intros Hx Hy H. destruct (decide (frameIdentity xs = frameIdentity ys)) as [E|E].
  - left. by apply frameIdentity_inj.
  - right. by split.
Qed.

(** Idempotency keys identify effects. Two effects with the same key agree in namespace, saga, effect and
    direction, unless SHA-256 itself maps the two framed identities to one digest: the length framing of the
    components introduces no confusion of its own, so no component can be shifted into its neighbour. *)
Theorem IdempotencyKey_unique ns sid eid dir ns' sid' eid' dir' :
  Forall frameable [ns; sid; eid; ns'; sid'; eid'] →
  IdempotencyKey ns sid eid dir = IdempotencyKey ns' sid' eid' dir' →
  (ns = ns' ∧ sid = sid' ∧ eid = eid' ∧ dir = dir') ∨
  collides (frameIdentity [ns; sid; eid; directionString dir]) (frameIdentity [ns'; sid'; eid'; directionString dir']).
Proof.
  intros Hf H. repeat (apply Forall_cons in Hf as [? Hf]).
  assert (Hd : ∀ d, frameable (directionString d)) by by intros [].
  apply hashIdentity_collision in H as [[= -> -> -> Hdir]|]; [|by right|repeat constructor; auto..].
  left. repeat split. by destruct dir, dir'.
Qed.

Lemma IdempotencyKey_unique_witness :
  IdempotencyKey "ab" "c" "e" DirectionForward ≠ IdempotencyKey "a" "bc" "e" DirectionForward ∧
  (("ab" = "ab" ∧ "c" = "c" ∧ "e" = "e" ∧ DirectionForward = DirectionForward) ∨
   collides (frameIdentity ["ab"; "c"; "e"; directionString DirectionForward])
            (frameIdentity ["ab"; "c"; "e"; directionString DirectionForward])).
Proof.
  split; [vm_compute; discriminate|]. apply (IdempotencyKey_unique "ab" "c" "e" DirectionForward "ab" "c" "e" DirectionForward).
  - repeat constructor.
  - reflexivity.
Defined.
