(* ===== verification/JsonProofs.v ===== *)
(** * JSON round trip

    What [Marshal] writes for a well-formed value, the decoder reads back as the
    same value; hence [CanonicalJSON] is the plain encoding of such a value, and
    canonical text is accepted unchanged by everything that re-canonicalises it. Last, the
    text of a value determines it. *)

From S2P Require Import Prelude GoText Sha256 Json Identity.
From Stdlib Require Import ZArith NArith Ascii String Lia.
Local Open Scope list_scope.

(** ** Strings *)
Lemma enc1_cases (P : ascii → Prop) :
  (∀ b0 b1 b2 b3 b4 b5 b6, P (Ascii b0 b1 b2 b3 b4 b5 b6 false)) → ∀ a, enc1 a = true → P a.
Proof. intros H [b0 b1 b2 b3 b4 b5 b6 []]; [|eauto]. destruct b0, b1, b2, b3, b4, b5, b6; discriminate. Qed.

Definition asciiText (l : list ascii) : bool := forallb enc1 l.

Lemma runes_ascii l k : asciiText l = true → runes (l ++ k) = (R1 <$> l) ++ runes k.
Proof.
  induction l as [|a l IH]; [done|]. cbn [asciiText forallb]. rewrite andb_true_iff.
  intros [Ha Hl]. rewrite fmap_cons. cbn [app]. rewrite <-IH by done. cbn [runes]. by rewrite Ha.
Qed.

Lemma escapeByte_ascii a : enc1 a = true → asciiText (escapeByte a) = true.
Proof. revert a. apply enc1_cases. intros [] [] [] [] [] [] []; vm_compute; reflexivity. Qed.

Lemma unquote_escapeByte a k :
  enc1 a = true → unquote ((R1 <$> escapeByte a) ++ k) = a :: unquote k.
Proof. revert a. apply enc1_cases. intros [] [] [] [] [] [] []; reflexivity. Qed.

Lemma byteIs_range n a lo hi : byteIs n a = true → byteIn lo hi a = bool_decide (lo ≤ n)%N && bool_decide (n ≤ hi)%N.
Proof. unfold byteIs, byteIn. rewrite bool_decide_eq_true. by intros ->. Qed.

Lemma byteIs_eq n a : byteIs n a = true → a = chr n.
Proof. unfold byteIs, byteN. rewrite bool_decide_eq_true. intros <-. unfold chr. by rewrite ascii_N_embedding. Qed.

Lemma unquote_escapeRune r l :
  runeOK r = true → unquote (runes (escapeRune r ++ l)) = runeBytes r ++ unquote (runes l).
Proof.
  intros Hr. destruct r as [a|a b|a b c|a b c d|a]; simpl in Hr; [..|done].
  - cbn [escapeRune runeBytes app].
    rewrite runes_ascii by by apply escapeByte_ascii. by apply unquote_escapeByte.
  - cbn [escapeRune]. rewrite runes_cons by done. done.
  - cbn [escapeRune].
    destruct (byteIs 226 a && byteIs 128 b && byteIs 168 c) eqn:E1.
    { bool_to_prop. by rewrite (byteIs_eq 226 a), (byteIs_eq 128 b), (byteIs_eq 168 c). }
    destruct (byteIs 226 a && byteIs 128 b && byteIs 169 c) eqn:E2.
    { bool_to_prop. by rewrite (byteIs_eq 226 a), (byteIs_eq 128 b), (byteIs_eq 169 c). }
    rewrite runes_cons by done. done.
  - cbn [escapeRune]. rewrite runes_cons by done. done.
Qed.

Lemma unquote_escape rs :
  forallb runeOK rs = true → unquote (runes (rs ≫= escapeRune)) = rs ≫= runeBytes.
Proof.
  induction rs as [|r rs IH]; [done|]. cbn [forallb]. rewrite andb_true_iff. intros [Hr Hrs].
  by rewrite !bind_cons, unquote_escapeRune, IH.
Qed.

Lemma scanRaw_plain a l :
  byteIn 0 31 a = false → byteIs 34 a = false → byteIs 92 a = false →
  scanRaw (a :: l) = '(raw, r) ← scanRaw l; Some (a :: raw, r).
Proof. cbn [scanRaw]. by intros -> -> ->. Qed.

Lemma byteIn_high a : enc1 a = false →
  byteIn 0 31 a = false ∧ byteIs 34 a = false ∧ byteIs 92 a = false.
Proof.
  unfold enc1, byteIn, byteIs. rewrite !andb_false_iff, !bool_decide_eq_false. lia.
Qed.

Lemma cont_high a : cont a = true → enc1 a = false.
Proof.
  unfold cont, enc1, byteIn. rewrite andb_true_iff, andb_false_iff, !bool_decide_eq_true, !bool_decide_eq_false. lia.
Qed.
Lemma byteIn_lead lo hi a : (128 ≤ lo)%N → byteIn lo hi a = true → enc1 a = false.
Proof.
  unfold enc1, byteIn. rewrite andb_true_iff, andb_false_iff, !bool_decide_eq_true, !bool_decide_eq_false. lia.
Qed.

Ltac high_byte := first [by apply cont_high | by eapply byteIn_lead; [|eassumption]; lia].

Lemma runeOK_high r : runeOK r = true →
  match r with R1 _ => True | _ => Forall (λ a, enc1 a = false) (runeBytes r) end.
Proof.
  destruct r as [a|a b|a b c|a b c d|a]; simpl; unfold enc2, enc3, enc4; intros H; bool_to_prop; [done|..|done].
  all: repeat constructor; repeat case_match; high_byte.
Qed.

Lemma scanRaw_high k l : Forall (λ a, enc1 a = false) k →
  scanRaw (k ++ l) = '(raw, r) ← scanRaw l; Some (k ++ raw, r).
Proof.
  induction 1 as [|a k Ha _ IH]; [cbn [app]; by destruct (scanRaw l) as [[]|]|].
  destruct (byteIn_high a Ha) as (? & ? & ?).
  cbn [app]. rewrite scanRaw_plain, IH by done. by destruct (scanRaw l) as [[]|].
Qed.

Lemma scanRaw_escapeByte a l : enc1 a = true →
  scanRaw (escapeByte a ++ l) = '(raw, r) ← scanRaw l; Some (escapeByte a ++ raw, r).
Proof. revert a. apply enc1_cases. intros [] [] [] [] [] [] []; reflexivity. Qed.

Lemma scanRaw_escapeRune r l : runeOK r = true →
  scanRaw (escapeRune r ++ l) = '(raw, r') ← scanRaw l; Some (escapeRune r ++ raw, r').
Proof.
  intros Hr. pose proof (runeOK_high r Hr) as Hhigh.
  destruct r as [a|a b|a b c|a b c d|a]; [by apply scanRaw_escapeByte| | | |done];
    cbn [escapeRune]; [by apply scanRaw_high| |by apply scanRaw_high].
  repeat case_match; [reflexivity..|]. by apply scanRaw_high.
Qed.

Lemma scanRaw_escape rs l : forallb runeOK rs = true →
  scanRaw ((rs ≫= escapeRune) ++ quote :: l) = Some (rs ≫= escapeRune, l).
Proof.
  induction rs as [|r rs IH]; [done|]. cbn [forallb]. rewrite andb_true_iff. intros [Hr Hrs].
  rewrite bind_cons, <-app_assoc, scanRaw_escapeRune by done. by rewrite IH.
Qed.

(** A valid UTF-8 string survives escaping and reading. *)
Lemma scanString_jsonString s l : ValidUTF8 s = true →
  scanString (escape (bytes s) ++ quote :: l) = Some (s, l).
Proof.
  intros H. unfold scanString, escape. rewrite scanRaw_escape by done. simpl.
  rewrite unquote_escape by done. by rewrite runes_bytes, ofBytes_bytes.
Qed.

(** ** Numbers *)

(** Text that cannot extend a number literal. *)
Definition numStop (l : list ascii) : Prop :=
  match l with
  | [] => True
  | a :: _ => isDigit a = false ∧ byteIs 46 a = false ∧ (byteIs 101 a || byteIs 69 a) = false
  end.

Definition scanner_ok (scan : list ascii → option (list ascii * list ascii)) : Prop :=
  ∀ l a r, scan l = Some (a, r) →
    l = a ++ r ∧ ∀ rest, numStop rest → scan (l ++ rest) = Some (a, r ++ rest).

Lemma scanDigits_ok l a r : scanDigits l = (a, r) →
  l = a ++ r ∧ ∀ rest, numStop rest → scanDigits (l ++ rest) = (a, r ++ rest).
Proof.
  revert a r. induction l as [|x l IH]; intros a r; simpl.
  - intros [= <- <-]. split; [done|]. intros [|y rest]; [done|]. simpl. by intros [-> _].
  - destruct (isDigit x) eqn:E.
    + destruct (scanDigits l) as [ds r'] eqn:E'. intros [= <- <-].
      destruct (IH _ _ eq_refl) as [-> H]. split; [done|]. intros rest Hrest. by rewrite H.
    + intros [= <- <-]. done.
Qed.

Lemma scanDigits1_ok : scanner_ok scanDigits1.
Proof.
  intros l a r. unfold scanDigits1. destruct (scanDigits l) as [[|d ds] r'] eqn:E; [done|].
  intros [= <- <-]. apply scanDigits_ok in E as [-> H]. split; [done|]. intros rest Hrest. by rewrite H.
Qed.

Lemma scanInt_ok : scanner_ok scanInt.
Proof.
  intros [|x l] a r; [done|]. simpl. destruct (byteIs 48 x); [by intros [= <- <-]|].
  destruct (byteIn 49 57 x); [|done]. destruct (scanDigits l) as [ds r'] eqn:E. intros [= <- <-].
  apply scanDigits_ok in E as [-> H]. split; [done|]. intros rest Hrest. by rewrite H.
Qed.

Lemma scanFrac_ok : scanner_ok scanFrac.
Proof.
  intros [|x l] a r; simpl.
  - intros [= <- <-]. split; [done|]. intros [|y rest]; [done|]. simpl. by intros (_ & -> & _).
  - destruct (byteIs 46 x); [|by intros [= <- <-]].
    destruct (scanDigits1 l) as [[ds r']|] eqn:E; [|done]. intros [= <- <-].
    apply scanDigits1_ok in E as [-> H]. split; [done|]. intros rest Hrest. by rewrite H.
Qed.

Lemma scanExp_ok : scanner_ok scanExp.
Proof.
  intros [|x l] a r; simpl.
  - intros [= <- <-]. split; [done|]. intros [|y rest]; [done|]. simpl. by intros (_ & _ & ->).
  - destruct (byteIs 101 x || byteIs 69 x); [|by intros [= <- <-]].
    destruct l as [|s l]; [done|]. cbn [app]. destruct (byteIs 43 s || byteIs 45 s).
    + destruct (scanDigits1 l) as [[ds r']|] eqn:E; [|done]. intros [= <- <-].
      apply scanDigits1_ok in E as [-> H]. split; [done|]. intros rest Hrest. by rewrite H.
    + destruct (scanDigits1 (s :: l)) as [[ds r']|] eqn:E; [|done]. intros [= <- <-].
      apply scanDigits1_ok in E as [Heq H]. split; [by rewrite Heq|]. intros rest Hrest.
      change (s :: l ++ rest) with ((s :: l) ++ rest). by rewrite H.
Qed.

Lemma scanUnsigned_ok : scanner_ok scanUnsigned.
Proof.
  intros l a r. unfold scanUnsigned.
  destruct (scanInt l) as [[i l1]|] eqn:Ei; [|done]. simpl.
  destruct (scanFrac l1) as [[f l2]|] eqn:Ef; [|done]. simpl.
  destruct (scanExp l2) as [[e l3]|] eqn:Ee; [|done]. simpl. intros [= <- <-].
  apply scanInt_ok in Ei as [-> Hi]. apply scanFrac_ok in Ef as [-> Hf].
  apply scanExp_ok in Ee as [-> He]. split; [by rewrite !app_assoc|]. intros rest Hrest.
  rewrite Hi by done. simpl. rewrite Hf by done. simpl. by rewrite He.
Qed.

Lemma scanNumber_ok : scanner_ok scanNumber.
Proof.
  intros [|x l] a r; [done|]. simpl. destruct (byteIs 45 x).
  - destruct (scanUnsigned l) as [[n r']|] eqn:E; [|done]. simpl. intros [= <- <-].
    apply scanUnsigned_ok in E as [-> H]. split; [done|]. intros rest Hrest. by rewrite H.
  - intros E. apply scanUnsigned_ok in E as [Heq H]. split; [done|]. intros rest Hrest.
    by apply (H rest).
Qed.

Lemma scanNumber_literal lit rest : isValidNumber lit = true → numStop rest →
  scanNumber (bytes lit ++ rest) = Some (bytes lit, rest).
Proof.
  unfold isValidNumber. destruct (scanNumber (bytes lit)) as [[n [|]]|] eqn:E; [|done..].
  intros _ Hrest. apply scanNumber_ok in E as [Hl H]. rewrite app_nil_r in Hl. rewrite H by done.
  by rewrite Hl.
Qed.

(** ** Values *)
Lemma json_nested_ind (P : json → Prop) :
  P JNull → (∀ b, P (JBool b)) → (∀ lit, P (JNum lit)) → (∀ s, P (JStr s)) →
  (∀ items, Forall P items → P (JArr items)) →
  (∀ fields, Forall (λ p, P p.2) fields → P (JObj fields)) →
  P JUnsupported → ∀ v, P v.
Proof.
  intros Hnull Hbool Hnum Hstr Harr Hobj Hun. fix IH 1. intros [| | | |items|fields|].
  - apply Hnull.
  - apply Hbool.
  - apply Hnum.
  - apply Hstr.
  - apply Harr. induction items as [|v items IHitems]; constructor; [apply IH|apply IHitems].
  - apply Hobj. induction fields as [|[k v] fields IHfields]; constructor; [apply IH|apply IHfields].
  - apply Hun.
Qed.

(** Strictly increasing keys: the entries of a map, each key once. *)
Fixpoint ascending (l : list string) : bool :=
  match l with
  | a :: (b :: _) as l' => strLt a b && ascending l'
  | _ => true
  end.

(** A value as the decoder builds it: valid UTF-8, number literals, sorted maps. *)
Fixpoint jsonWF (v : json) : bool :=
  match v with
  | JNull | JBool _ => true
  | JNum lit => isValidNumber lit
  | JStr s => ValidUTF8 s
  | JArr items => forallb jsonWF items
  | JObj fields => ascending fields.*1 && forallb (λ p, ValidUTF8 p.1 && jsonWF p.2) fields
  | JUnsupported => false
  end.

Fixpoint jsonDepth (v : json) : N :=
  match v with
  | JArr items => (1 + foldr (λ v, N.max (jsonDepth v)) 0 items)%N
  | JObj fields => (1 + foldr (λ p, N.max (jsonDepth p.2)) 0 fields)%N
  | _ => 0%N
  end.

(** The calls a value needs of the reader. *)
Fixpoint jsonFuel (v : json) : nat :=
  match v with
  | JArr items => S (foldr (λ v n, S (jsonFuel v + n)) O items)
  | JObj fields => S (foldr (λ p n, S (jsonFuel p.2 + n)) O fields)
  | _ => 1
  end.

Fixpoint itemsText (l : list json) : list ascii :=
  match l with
  | [] => []
  | [v] => jsonText v
  | v :: l => jsonText v ++ bytes "," ++ itemsText l
  end.
Fixpoint fieldsText (l : list (string * json)) : list ascii :=
  match l with
  | [] => []
  | [(k, v)] => jsonString k ++ bytes ":" ++ jsonText v
  | (k, v) :: l => jsonString k ++ bytes ":" ++ jsonText v ++ bytes "," ++ fieldsText l
  end.
Lemma jsonText_arr items : jsonText (JArr items) = bytes "[" ++ itemsText items ++ bytes "]".
Proof. done. Qed.
Lemma jsonText_obj fields : jsonText (JObj fields) = bytes "{" ++ fieldsText fields ++ bytes "}".
Proof. done. Qed.

(** The text of a value starts with a byte that is neither white space nor a
    closing bracket. *)
Definition startsValue (l : list ascii) : Prop :=
  match l with
  | [] => False
  | a :: _ => isWS a = false ∧ byteIs 93 a = false ∧ byteIs 125 a = false
  end.

Lemma startsValue_app l k : startsValue l → startsValue (l ++ k).
Proof. by destruct l. Qed.
Lemma skipWS_starts l : startsValue l → skipWS l = l.
Proof. destruct l as [|a l]; [done|]. simpl. by intros (-> & _). Qed.

(** The first byte of a number literal. *)
Lemma number_head lit : isValidNumber lit = true →
  ∃ a l, bytes lit = a :: l ∧ (byteIs 45 a || isDigit a) = true.
Proof.
  unfold isValidNumber, isDigit. destruct (bytes lit) as [|a l]; [done|]. intros H. exists a, l.
  split; [done|]. simpl in H. destruct (byteIs 45 a); [done|]. simpl.
  unfold scanUnsigned in H. simpl in H. destruct (byteIs 48 a) eqn:E.
  - by apply byteIs_eq in E as ->.
  - destruct (byteIn 49 57 a) eqn:E'; [|done]. unfold byteIn in *. bool_to_prop.
    rewrite andb_true_iff, !bool_decide_eq_true. lia.
Qed.

Lemma number_byte a : (byteIs 45 a || isDigit a) = true →
  isWS a = false ∧ byteIs 93 a = false ∧ byteIs 125 a = false ∧ byteIs 34 a = false ∧ byteIs 91 a = false
  ∧ byteIs 123 a = false ∧ byteIs 110 a = false ∧ byteIs 116 a = false ∧ byteIs 102 a = false.
Proof.
  unfold isWS, isDigit, byteIn, byteIs. rewrite orb_true_iff, andb_true_iff, !bool_decide_eq_true.
  rewrite !orb_false_iff, !bool_decide_eq_false. lia.
Qed.

Lemma jsonText_starts v : jsonWF v = true → startsValue (jsonText v).
Proof.
  destruct v as [| []|lit|s|items|fields|]; cbn [jsonWF]; intros H; try done.
  destruct (number_head lit H) as (a & l & Hl & Ha). cbn [jsonText]. rewrite bool_decide_false by by intros ->.
  rewrite Hl. destruct (number_byte a Ha) as (? & ? & ? & _). done.
Qed.

(** Text that ends a value: nothing, a comma, a closing bracket or white space. *)
Definition delim (l : list ascii) : Prop :=
  match l with
  | [] => True
  | a :: _ => (byteIs 44 a || byteIs 93 a || byteIs 125 a || isWS a) = true
  end.
Lemma delim_numStop l : delim l → numStop l.
Proof.
  destruct l as [|a l]; [done|]. simpl. unfold isDigit, isWS, byteIn, byteIs.
  rewrite !orb_true_iff, !orb_false_iff, andb_false_iff, !bool_decide_eq_true, !bool_decide_eq_false. lia.
Qed.

(** Reading a map back in key order appends each entry. *)
Lemma ascending_app_l ks ks' : ascending (ks ++ ks') = true → ascending ks = true.
Proof.
  induction ks as [|a [|b ks] IH]; [done..|]. cbn. rewrite !andb_true_iff. intros [-> H]. split; [done|].
  by apply IH.
Qed.
Lemma ascending_last ks k : ascending (ks ++ [k]) = true → Forall (λ k', strLt k' k = true) ks.
Proof.
  intros H. induction ks as [|a ks IH]; [constructor|].
  assert (Htail : ascending (ks ++ [k]) = true).
  { destruct ks; [done|]. cbn in H. bool_to_prop. done. }
  specialize (IH Htail). constructor; [|done].
  destruct ks as [|b ks]; cbn in H; bool_to_prop; [done|].
  apply Forall_cons in IH as [Hb _]. by apply (strLt_trans a b k).
Qed.
Lemma objInsert_last k v l : Forall (λ k', strLt k' k = true) l.*1 → objInsert k v l = l ++ [(k, v)].
Proof.
  induction l as [|[k' v'] l IH]; [done|]. cbn. intros [Hk Hl]%Forall_cons.
  rewrite String.compare_antisym. apply strLt_compare in Hk as ->. cbn. by rewrite IH.
Qed.

Definition reads (v : json) : Prop :=
  ∀ fuel depth rest,
    jsonWF v = true → (depth + jsonDepth v ≤ maxNestingDepth)%N → jsonFuel v ≤ fuel → delim rest →
    parseValue fuel depth (jsonText v ++ rest) = Some (v, rest).

(** Evaluates the tests of the reader on literal bytes. *)
Ltac read_literal :=
  repeat match goal with
  | |- context [isWS ?a] =>
      let b := eval vm_compute in (isWS a) in
      lazymatch b with true => idtac | false => idtac end; change (isWS a) with b
  | |- context [byteIs ?n ?a] =>
      let b := eval vm_compute in (byteIs n a) in
      lazymatch b with true => idtac | false => idtac end; change (byteIs n a) with b
  end; cbn match.
Ltac read_step :=
  cbn [mbind option_bind bytes list_ascii_of_string app skipWS parseElems parseMembers]; read_literal.

Lemma parseElems_text items : items ≠ [] → Forall reads items → ∀ fuel depth rest,
  forallb jsonWF items = true →
  (depth + foldr (λ v, N.max (jsonDepth v)) 0 items ≤ maxNestingDepth)%N →
  foldr (λ v n, S (jsonFuel v + n)) O items ≤ fuel →
  parseElems fuel depth (itemsText items ++ bytes "]" ++ rest) = Some (items, rest).
Proof.
  intros Hne HF. induction HF as [|v items Hv HF IH]; [done|]. intros fuel depth rest Hwf Hd Hf.
  cbn [forallb foldr] in *. bool_to_prop. destruct fuel as [|fuel]; [lia|].
  destruct items as [|v' items].
  - cbn [itemsText parseElems]. rewrite Hv by (done || lia). by read_step.
  - cbn [parseElems]. change (itemsText (v :: v' :: items))
      with (jsonText v ++ bytes "," ++ itemsText (v' :: items)).
    rewrite <-!app_assoc, Hv by (done || lia).
    assert (Hrec := IH ltac:(done) fuel depth rest ltac:(done) ltac:(lia) ltac:(lia)).
    cbn [bytes list_ascii_of_string app] in Hrec. read_step. by rewrite Hrec.
Qed.

Lemma parseMembers_text fields : fields ≠ [] → Forall (λ p, reads p.2) fields →
  ∀ acc fuel depth rest,
  ascending (acc ++ fields).*1 = true →
  forallb (λ p, ValidUTF8 p.1 && jsonWF p.2) fields = true →
  (depth + foldr (λ p, N.max (jsonDepth p.2)) 0 fields ≤ maxNestingDepth)%N →
  foldr (λ p n, S (jsonFuel p.2 + n)) O fields ≤ fuel →
  parseMembers fuel depth (fieldsText fields ++ bytes "}" ++ rest) acc = Some (acc ++ fields, rest).
Proof.
  intros Hne HF. induction HF as [|[k v] fields Hv HF IH]; [done|].
  intros acc fuel depth rest Hasc Hwf Hd Hf.
  cbn [forallb foldr fst snd] in *. bool_to_prop. destruct fuel as [|fuel]; [lia|].
  assert (Hins : objInsert k v acc = acc ++ [(k, v)]).
  { apply objInsert_last, ascending_last. rewrite fmap_app, fmap_cons in Hasc.
    apply (ascending_app_l _ fields.*1). rewrite <-app_assoc. apply Hasc. }
  destruct fields as [|[k' v'] fields].
  - cbn [fieldsText]. unfold jsonString. rewrite <-!app_assoc. read_step. rewrite <-?app_assoc. cbn [app].
    rewrite scanString_jsonString by done. read_step. rewrite Hv by (done || lia). read_step. by rewrite Hins.
  - change (fieldsText ((k, v) :: (k', v') :: fields))
      with (jsonString k ++ bytes ":" ++ jsonText v ++ bytes "," ++ fieldsText ((k', v') :: fields)).
    unfold jsonString at 1. rewrite <-!app_assoc. read_step. rewrite <-?app_assoc. cbn [app].
    rewrite scanString_jsonString by done. read_step. rewrite <-?app_assoc. rewrite Hv by (done || lia).
    assert (Hrec := IH ltac:(done) (acc ++ [(k, v)]) fuel depth rest).
    rewrite <-app_assoc in Hrec. specialize (Hrec Hasc ltac:(done) ltac:(lia) ltac:(lia)).
    cbn [bytes list_ascii_of_string app] in Hrec. read_step. by rewrite Hins, Hrec.
Qed.

Lemma itemsText_starts items : items ≠ [] → forallb jsonWF items = true → startsValue (itemsText items).
Proof.
  destruct items as [|v [|v' items]]; [done|..]; intros _; cbn [forallb]; rewrite andb_true_iff; intros [Hv _].
  - by apply jsonText_starts.
  - change (itemsText (v :: v' :: items)) with (jsonText v ++ bytes "," ++ itemsText (v' :: items)).
    by apply startsValue_app, jsonText_starts.
Qed.
Lemma fieldsText_starts fields : fields ≠ [] → startsValue (fieldsText fields).
Proof. destruct fields as [|[k v] [|[k' v'] fields]]; [done|..]; intros _; by vm_compute. Qed.

Lemma parseValue_text v : reads v.
Proof.
  induction v as [| b|lit|s|items IH|fields IH|] using json_nested_ind; intros [|fuel] depth rest Hwf Hd Hf Hrest;
    cbn [jsonFuel jsonDepth jsonWF] in *; try lia; try done.
  - by destruct b.
  - destruct (number_head lit Hwf) as (a & l & Hl & Ha).
    assert (Hnum := scanNumber_literal lit rest Hwf (delim_numStop _ Hrest)).
    cbn [jsonText]. rewrite bool_decide_false by by intros ->. rewrite Hl in *.
    destruct (number_byte a Ha) as (H1 & H2 & H3 & H4 & H5 & H6 & H7 & H8 & H9).
    cbn [app parseValue skipWS]. rewrite H1, H4, H5, H6, H7, H8, H9. cbn [app] in Hnum. rewrite Hnum.
    cbn [mbind option_bind]. by rewrite <-Hl, ofBytes_bytes.
  - cbn [jsonText]. unfold jsonString. cbn [app parseValue skipWS]. read_literal. rewrite <-app_assoc. cbn [app].
    by rewrite scanString_jsonString.
  - rewrite jsonText_arr, <-!app_assoc. cbn [bytes list_ascii_of_string app parseValue skipWS]. read_literal.
    rewrite (proj2 (N.ltb_ge _ _)) by lia. destruct (decide (items = [])) as [->|Hne]; [done|].
    assert (Hst := itemsText_starts _ Hne Hwf).
    assert (Hrec := parseElems_text items Hne IH fuel (depth + 1) rest Hwf ltac:(lia) ltac:(lia)).
    cbn [bytes list_ascii_of_string app] in Hrec. rewrite Hrec.
    destruct (itemsText items) as [|a l]; [done|]. cbn [app]. destruct Hst as (Hws & H93 & _).
    cbn [skipWS]. by rewrite Hws, H93.
  - rewrite jsonText_obj, <-!app_assoc. cbn [bytes list_ascii_of_string app parseValue skipWS]. read_literal.
    rewrite (proj2 (N.ltb_ge _ _)) by lia. destruct (decide (fields = [])) as [->|Hne]; [done|].
    assert (Hst := fieldsText_starts _ Hne). bool_to_prop.
    assert (Hrec := parseMembers_text fields Hne IH [] fuel (depth + 1) rest
      ltac:(done) ltac:(done) ltac:(lia) ltac:(lia)).
    cbn [bytes list_ascii_of_string app] in Hrec. rewrite Hrec.
    destruct (fieldsText fields) as [|a l]; [done|]. cbn [app]. destruct Hst as (Hws & _ & H125).
    cbn [skipWS]. by rewrite Hws, H125.
Qed.

(** The reader's fuel always suffices for text it can read. *)
Lemma jsonFuel_bound v : jsonWF v = true → jsonFuel v ≤ 2 * List.length (jsonText v).
Proof.
  induction v as [| b|lit|s|items IH|fields IH|] using json_nested_ind; intros Hwf; cbn [jsonWF] in Hwf; try done.
  - simpl; lia.
  - destruct b; simpl; lia.
  - destruct (number_head lit Hwf) as (a & l & Hl & _). cbn [jsonText].
    rewrite bool_decide_false by by intros ->. rewrite Hl. simpl. lia.
  - cbn. rewrite length_app. simpl. lia.
  - rewrite jsonText_arr, !length_app. change (List.length (bytes "[")) with 1. change (List.length (bytes "]")) with 1.
    cbn [jsonFuel].
    enough (foldr (λ v n, S (jsonFuel v + n)) O items ≤ 2 * List.length (itemsText items) + 1) by lia.
    clear -IH Hwf. induction IH as [|v items Hv _ IHl]; [simpl; lia|]. cbn [forallb] in Hwf. bool_to_prop.
    destruct items as [|v' items]; [cbn; rewrite Nat.add_0_r; specialize (Hv ltac:(done)); lia|].
    specialize (Hv ltac:(done)). specialize (IHl ltac:(done)).
    change (itemsText (v :: v' :: items)) with (jsonText v ++ bytes "," ++ itemsText (v' :: items)).
    rewrite !length_app. change (List.length (bytes ",")) with 1. cbn [foldr] in *. lia.
  - rewrite jsonText_obj, !length_app. change (List.length (bytes "{")) with 1. change (List.length (bytes "}")) with 1.
    cbn [jsonFuel]. bool_to_prop.
    enough (foldr (λ p n, S (jsonFuel p.2 + n)) O fields ≤ 2 * List.length (fieldsText fields) + 1) by lia.
    clear H. rename H0 into Hwf.
    induction IH as [|[k v] fields Hv _ IHl]; [simpl; lia|]. cbn [forallb fst snd] in *. bool_to_prop.
    specialize (Hv ltac:(done)).
    destruct fields as [|[k' v'] fields]; [cbn [foldr fieldsText snd]; rewrite !length_app; lia|].
    specialize (IHl ltac:(done)).
    change (fieldsText ((k, v) :: (k', v') :: fields))
      with (jsonString k ++ bytes ":" ++ jsonText v ++ bytes "," ++ fieldsText ((k', v') :: fields)).
    rewrite !length_app. change (List.length (bytes ",")) with 1. cbn [foldr snd] in *. lia.
Qed.

(** A well-formed value within the nesting bound. *)
Definition jsonValue (v : json) : bool := jsonWF v && bool_decide (jsonDepth v ≤ maxNestingDepth)%N.

Lemma jsonWF_supported v : jsonWF v = true → supported v = true.
Proof.
  induction v as [| b|lit|s|items IH|fields IH|] using json_nested_ind; cbn; intros H; try done.
  - by rewrite H, orb_true_r.
  - by eapply forallb_Forall_impl.
  - bool_to_prop. eapply forallb_Forall_impl; [|done]. eapply Forall_impl; [exact IH|].
    intros [k v] Hv ?. cbn in *. bool_to_prop. auto.
Qed.

Lemma parseValue_jsonText v rest : jsonValue v = true → delim rest →
  parseValue (parseFuel (jsonText v ++ rest)) 0 (jsonText v ++ rest) = Some (v, rest).
Proof.
  unfold jsonValue. rewrite andb_true_iff, bool_decide_eq_true. intros [Hwf Hd] Hrest.
  apply parseValue_text; [done|lia| |done]. apply jsonFuel_bound in Hwf. unfold parseFuel.
  rewrite length_app. lia.
Qed.

(** Decoding what Marshal wrote gives the value back. *)
Lemma Decode_Marshal v : jsonValue v = true → Marshal v = Some (ofBytes (jsonText v)) ∧
  Decode (ofBytes (jsonText v)) = Some v ∧ Valid (ofBytes (jsonText v)) = true.
Proof.
  intros Hv. assert (Hwf : jsonWF v = true) by by apply andb_true_iff in Hv as [? _].
  assert (Hp := parseValue_jsonText v [] Hv I). rewrite app_nil_r in Hp.
  unfold Marshal, Decode, Valid. rewrite jsonWF_supported, bytes_ofBytes, Hp by done. done.
Qed.

(** C38: Canonical JSON is a faithful encoding. For every JSON value (valid UTF-8 strings, valid number literals,
    sorted unique keys, nesting within the decoder's bound) CanonicalJSON succeeds, its text decodes back to exactly
    that value, its text is what a second encoding prints, and the digest is the SHA-256 of that text. *)
Theorem CanonicalJSON_roundtrip v :
  jsonValue v = true →
  ∃ text, CanonicalJSON v = Ok (text, sha256hex (bytes text)) ∧
    Decode text = Some v ∧ Marshal v = Some text.
Proof.
  intros Hv. destruct (Decode_Marshal v Hv) as (HM & HD & _).
  exists (ofBytes (jsonText v)). unfold CanonicalJSON. rewrite HM. cbn [ofOption mbind result_bind].
  rewrite HD. cbn [ofOption mbind result_bind]. by rewrite HM.
Qed.

Lemma CanonicalJSON_roundtrip_witness :
  ∃ text, CanonicalJSON (JObj [("a", JArr [JStr "<&>"; JNum "-1.5e3"; JNull]); ("b", JObj [])])
            = Ok (text, sha256hex (bytes text)) ∧
    Decode text = Some (JObj [("a", JArr [JStr "<&>"; JNum "-1.5e3"; JNull]); ("b", JObj [])]) ∧
    Marshal (JObj [("a", JArr [JStr "<&>"; JNum "-1.5e3"; JNull]); ("b", JObj [])]) = Some text.
Proof.
  apply (CanonicalJSON_roundtrip (JObj [("a", JArr [JStr "<&>"; JNum "-1.5e3"; JNull]); ("b", JObj [])])).
  vm_compute. reflexivity.
Defined.

(** ** The text of a JSON value determines it

    [json.Marshal] writes different texts for different values, the fields of objects in
    any order, as long as every string is valid UTF-8 and every number is a literal. The
    digests over such texts identify what they were computed from, up to SHA-256. *)

(** What is written without loss: [jsonWF] but for the order of the fields. *)
Fixpoint exact (v : json) : bool :=
  match v with
  | JNull | JBool _ => true
  | JNum lit => isValidNumber lit
  | JStr s => ValidUTF8 s
  | JArr items => forallb exact items
  | JObj fields => forallb (λ p, ValidUTF8 p.1 && exact p.2) fields
  | JUnsupported => false
  end.

(** The constructor of a value can be read off its first byte. *)
Definition shape (v : json) : N :=
  match v with JNull => 110 | JBool true => 116 | JBool false => 102 | JNum _ => 0 | JStr _ => 34 | JArr _ => 91 | JObj _ => 123 | JUnsupported => 1 end.
Definition shapeOf (a : ascii) : N := if byteIs 45 a || isDigit a then 0 else byteN a.
Lemma shape_text v rest : exact v = true → ∃ a l, jsonText v ++ rest = a :: l ∧ shapeOf a = shape v.
Proof.
  destruct v as [|[]|lit|s|items|fields|]; cbn [exact]; intros H; try done; try (eexists _, _; split; [reflexivity|reflexivity]).
  destruct (number_head lit H) as (a & l & Hl & Ha). cbn [jsonText]. rewrite bool_decide_false by by intros ->.
  exists a, (l ++ rest). rewrite Hl. split; [done|]. unfold shapeOf. by rewrite Ha.
Qed.

Definition determined (v : json) : Prop :=
  ∀ w r r', exact v = true → exact w = true → delim r → delim r' → jsonText v ++ r = jsonText w ++ r' → v = w ∧ r = r'.

Lemma jsonString_inj s s' r r' : ValidUTF8 s = true → ValidUTF8 s' = true → jsonString s ++ r = jsonString s' ++ r' → s = s' ∧ r = r'.
Proof.
  unfold jsonString. cbn. intros H H' [= E]. rewrite <-!app_assoc in E. cbn in E. apply (f_equal scanString) in E.
  rewrite !scanString_jsonString in E by done. by simplify_eq.
Qed.
Lemma number_inj lit lit' r r' : isValidNumber lit = true → isValidNumber lit' = true → delim r → delim r' →
  bytes lit ++ r = bytes lit' ++ r' → lit = lit' ∧ r = r'.
Proof.
  intros H H' Hr Hr' E. apply (f_equal scanNumber) in E. rewrite !scanNumber_literal in E by (done || by apply delim_numStop).
  injection E as E ->. by apply bytes_inj in E as ->.
Qed.

(** A closing bracket and a comma end a value and are not the same byte. *)
Lemma itemsText_cons v items : itemsText (v :: items) = jsonText v ++ match items with [] => [] | _ => bytes "," ++ itemsText items end.
Proof. destruct items; cbn; [by rewrite app_nil_r|done]. Qed.
Lemma fieldsText_cons k v fields :
  fieldsText ((k, v) :: fields) = jsonString k ++ bytes ":" ++ jsonText v ++ match fields with [] => [] | _ => bytes "," ++ fieldsText fields end.
Proof. destruct fields; cbn [fieldsText]; [by rewrite app_nil_r|done]. Qed.
Lemma text_head v rest : exact v = true → ∃ a l, jsonText v ++ rest = a :: l ∧ byteIs 93 a = false ∧ byteIs 125 a = false.
Proof.
  intros H. destruct (shape_text v rest H) as (a & l & E & Ha). exists a, l. split; [done|].
  unfold shapeOf in Ha. destruct (byteIs 45 a || isDigit a) eqn:Hd; [destruct (number_byte a Hd) as (? & ? & ? & _); done|].
  unfold byteIs. rewrite !bool_decide_eq_false, Ha. destruct v as [|[]| | | | |]; cbn; done.
Qed.

Lemma items_inj items : Forall determined items → ∀ items' r r',
  forallb exact items = true → forallb exact items' = true →
  itemsText items ++ bytes "]" ++ r = itemsText items' ++ bytes "]" ++ r' → items = items' ∧ r = r'.
Proof.
  induction 1 as [|v items Hv HF IH]; intros [|w items'] r r' H H' E.
  - cbn in E. by simplify_eq.
  - cbn in H'. bool_to_prop. rewrite itemsText_cons, <-app_assoc in E. cbn in E. match type of E with _ = jsonText w ++ ?k => destruct (text_head w k) as (a & l & Hw & Ha & _); [done|] end.
    rewrite Hw in E. injection E as <- _. done.
  - cbn in H. bool_to_prop. rewrite itemsText_cons, <-app_assoc in E. cbn in E. match type of E with jsonText v ++ ?k = _ => destruct (text_head v k) as (a & l & Hw & Ha & _); [done|] end.
    rewrite Hw in E. injection E as -> _. done.
  - cbn in H, H'. bool_to_prop. rewrite !itemsText_cons, <-!app_assoc in E.
    apply Hv in E as [-> E]; [|done|done|by destruct items|by destruct items'].
    destruct items as [|x items], items' as [|y items']; [by simplify_eq/=|done..|].
    rewrite <-!app_assoc in E. apply app_inv_head in E. apply IH in E as [<- <-]; done.
Qed.
Lemma fields_inj fields : Forall (λ p, determined p.2) fields → ∀ fields' r r',
  forallb (λ p, ValidUTF8 p.1 && exact p.2) fields = true → forallb (λ p, ValidUTF8 p.1 && exact p.2) fields' = true →
  fieldsText fields ++ bytes "}" ++ r = fieldsText fields' ++ bytes "}" ++ r' → fields = fields' ∧ r = r'.
Proof.
  induction 1 as [|[k v] fields Hv HF IH]; intros [|[k' w] fields'] r r' H H' E.
  - cbn in E. by simplify_eq.
  - rewrite fieldsText_cons in E. done.
  - rewrite fieldsText_cons in E. done.
  - cbn in H, H'. bool_to_prop. rewrite !fieldsText_cons, <-!app_assoc in E. apply jsonString_inj in E as [-> E]; [|done..].
    change (determined v) in Hv. apply app_inv_head in E. apply Hv in E as [-> E]; [|done|done|by destruct fields|by destruct fields'].
    destruct fields as [|x fields], fields' as [|y fields']; [by simplify_eq/=|done..|].
    rewrite <-!app_assoc in E. apply app_inv_head in E. apply IH in E as [<- <-]; done.
Qed.

(** Values with one text have one constructor. *)
Lemma same_shape v w r r' : exact v = true → exact w = true → jsonText v ++ r = jsonText w ++ r' → shape v = shape w.
Proof.
  intros H H' E. destruct (shape_text v r H) as (a & l & Ea & <-), (shape_text w r' H') as (b & l' & Eb & <-). congruence.
Qed.
Lemma jsonText_determined v : determined v.
Proof.
  induction v as [|b|lit|s|items HF|fields HF|] using json_nested_ind; intros w r r' H H' Hr Hr' E; pose proof (same_shape _ _ _ _ H H' E) as Hs.
  - destruct w as [|[]| | | | |]; try done. by simplify_eq/=.
  - destruct b, w as [|[]| | | | |]; try done; by simplify_eq/=.
  - destruct w as [|[]|lit'| | | |]; try done. cbn [exact] in H, H'. cbn [jsonText] in E.
    rewrite !bool_decide_false in E by (by intros ->). apply number_inj in E as [-> ->]; done.
  - destruct w as [|[]| |s'| | |]; try done. apply jsonString_inj in E as [-> ->]; done.
  - destruct w as [|[]| | |items'| |]; try done. rewrite !jsonText_arr, <-!app_assoc in E. apply app_inv_head in E.
    apply (items_inj _ HF) in E as [-> ->]; done.
  - destruct w as [|[]| | | |fields'|]; try done. rewrite !jsonText_obj, <-!app_assoc in E. apply app_inv_head in E.
    apply (fields_inj _ HF) in E as [-> ->]; done.
  - done.
Qed.

(** Equal digests of two texts: the values are equal, or the texts collide. *)
Lemma exact_collision v w : exact v = true → exact w = true →
  sha256hex (jsonText v) = sha256hex (jsonText w) → v = w ∨ collides (jsonText v) (jsonText w).
Proof.
  intros Hv Hw Hd. destruct (decide (jsonText v = jsonText w)) as [E|E]; [left|by right].
  apply (jsonText_determined v w [] []); [done..|]. by rewrite !app_nil_r.
Qed.
