(* ===== verification/Outbox.v ===== *)
(** * The in-memory outbox store

    [schema/saga_outbox.go] (validation and shared predicates) and
    [schema/saga_outbox_memory.go] (the store). The store's four maps are finite
    maps; every method holds the mutex for its whole body, so a method is one
    state transformer. A method that returns an error leaves the store as it was,
    which is why the result of an operation is [result (A * store)].

    What a method reads from its surroundings is an argument: [ctx] is
    [ctx.Err()], each [now] is one call of the store's clock, [token] is what
    [randomLeaseToken] returned, and [testBinary] says whether [os.Args[0]] ends
    in [.test]. The copies made by [cloneSaga] and [cloneDispatch] are the values
    themselves. *)

From S2P Require Import Prelude GoText Sha256 Json Workflow Identity.
From Stdlib Require Import ZArith Ascii String.
Local Open Scope list_scope.
Local Open Scope Z_scope.

(** ** schema/saga_outbox.go *)

Definition isTerminalSaga (state : SagaState) : bool :=
  match state with
  | SagaCompleted | SagaCompensated | SagaFailed | SagaBlockedUnknown
  | SagaBlockedDependency | SagaBlockedFence | SagaBlockedCompensation => true
  | SagaRunning | SagaCompensating => false
  end.

(** [strings.TrimSpace(value) == "" || strings.TrimSpace(value) != value] *)
Definition badField (value : string) : bool :=
  bool_decide (TrimSpace value = "") || bool_decide (TrimSpace value ≠ value).

Definition validateSagaRequest (testBinary : bool) (request : CreateSagaRequest) : result unit :=
  failIf (negb (cs_Serial request)) (errorf "non-serial durable sagas are not supported") ;;
  let testOverride := cs_AllowUnstableIdentityForTest request && testBinary in
  failIf (negb testOverride &&
          bool_decide (cs_SagaID request ≠ StableSagaID (cs_ExecutionID request) (cs_PlanID request)))
    (wrapf ErrIdentityConflict "saga ID must equal StableSagaID(execution_id, plan_id)") ;;
  failIf (existsb badField [cs_Namespace request; cs_SagaID request; cs_ExecutionID request;
                            cs_PlanID request; cs_PlanDigest request])
    (errorf "field is required and must not have surrounding whitespace").

(** The order of fencing requirements: authority, then resource. *)
Definition requirementBefore (a b : FencingRequirement) : bool :=
  if bool_decide (fr_Authority a ≠ fr_Authority b)
  then strLt (fr_Authority a) (fr_Authority b)
  else strLt (fr_Resource a) (fr_Resource b).
Definition requirementLe (a b : FencingRequirement) : Prop := requirementBefore b a = false.
#[global] Instance requirementLe_dec a b : Decision (requirementLe a b).
Proof. unfold requirementLe. apply _. Defined.
Definition sortRequirements (l : list FencingRequirement) : list FencingRequirement :=
  merge_sort requirementLe l.

(** The loop over the sorted requirements of [normalizeEnqueue]. *)
Fixpoint checkRequirements (previous : option FencingRequirement) (l : list FencingRequirement)
    : result unit :=
  match l with
  | [] => Ok tt
  | requirement :: l =>
      failIf (bool_decide (fr_Authority requirement = "") || bool_decide (fr_Resource requirement = ""))
        (errorf "fencing authority and resource are required") ;;
      failIf (bool_decide (previous = Some requirement)) (errorf "duplicate fencing requirement") ;;
      checkRequirements (Some requirement) l
  end.

Record NormalizedEnqueue : Type := mkNormalized {
  ne_request : EnqueueStepRequest json;
  ne_arguments : string;
  ne_argumentHash : string;
  ne_compensationArguments : string;
  ne_compensationHash : string }.

Definition normalizeEnqueue (request : EnqueueStepRequest json) : result NormalizedEnqueue :=
  failIf (isBlank (eq_SagaID request) || isBlank (eq_EffectID request) || isBlank (eq_Verb request))
    (errorf "saga_id, effect_id, and verb are required") ;;
  failIf (bool_decide (eq_Sequence request ≤ 0)) (errorf "step sequence must be positive") ;;
  failIf (isBlank (eq_ContractHash request)) (errorf "contract hash is required") ;;
  '(arguments, argumentHash) ← CanonicalJSON (mapJSON (eq_Arguments request));
  '(request, compensationArguments, compensationHash) ←
    (if bool_decide (eq_CompensationVerb request ≠ "") then
       failIf (bool_decide (eq_CompensationContract request = ""))
         (errorf "compensation contract hash is required") ;;
       let request := match eq_CompensationArguments request with
                      | None => request <| eq_CompensationArguments := eq_Arguments request |>
                      | Some _ => request
                      end in
       '(compensationArguments, compensationHash) ←
         CanonicalJSON (mapJSON (eq_CompensationArguments request));
       Ok (request, compensationArguments, compensationHash)
     else
       failIf (bool_decide (eq_CompensationContract request ≠ "")
               || bool_decide (is_Some (eq_CompensationArguments request)))
         (errorf "compensation metadata requires a compensation verb") ;;
       Ok (request, "", "")) : result (EnqueueStepRequest json * string * string);
  let request := request <| eq_Fencing := sortRequirements (eq_Fencing request) |> in
  checkRequirements None (eq_Fencing request) ;;
  Ok (mkNormalized request arguments argumentHash compensationArguments compensationHash).

(** A later known non-commit cannot resolve an earlier unknown result. The current
    claimed attempt, whose outcome is still empty, is included in [attempts]. *)
Fixpoint priorAttemptsFrom (index : Z) (attempts : list DispatchAttempt) (currentAttempt : Z) : bool :=
  match attempts with
  | [] => true
  | attempt :: attempts =>
      if bool_decide (at_Attempt attempt ≠ u64 (index + 1)) then false
      else if bool_decide (at_Attempt attempt = currentAttempt)
      then priorAttemptsFrom (index + 1) attempts currentAttempt
      else if timeIsZero (at_CompletedAt attempt)
              || bool_decide (at_Outcome attempt ≠ OutcomeRetryableKnownNotCommitted)
      then false
      else priorAttemptsFrom (index + 1) attempts currentAttempt
  end.
Definition priorAttemptsKnownNotCommitted (attempts : list DispatchAttempt) (currentAttempt : Z) : bool :=
  if bool_decide (u64 (Z.of_nat (List.length attempts)) ≠ currentAttempt) then false
  else priorAttemptsFrom 0 attempts currentAttempt.

(** ** The store *)
Record InMemoryOutboxStore : Type := mkStore {
  os_sagas : gmap string SagaInstance;
  os_steps : gmap string (gmap string SagaStep);
  os_dispatches : gmap string Dispatch;
  os_attempts : gmap string (list DispatchAttempt) }.
#[global] Instance eta_Store : Eta InMemoryOutboxStore := λ r,
  mkStore (os_sagas r) (os_steps r) (os_dispatches r) (os_attempts r).

Definition NewInMemoryOutboxStore : InMemoryOutboxStore := mkStore ∅ ∅ ∅ ∅.

(** [store.steps[sagaID]]: a missing entry is a nil map, which reads as empty. *)
Definition stepsOf (store : InMemoryOutboxStore) (sagaID : string) : gmap string SagaStep :=
  default ∅ (os_steps store !! sagaID).
(** [store.attempts[dispatchID]] *)
Definition attemptsOf (store : InMemoryOutboxStore) (dispatchID : string) : list DispatchAttempt :=
  default [] (os_attempts store !! dispatchID).

Definition putSaga (id : string) (saga : SagaInstance) (store : InMemoryOutboxStore) : InMemoryOutboxStore :=
  store <| os_sagas := <[id := saga]> (os_sagas store) |>.
Definition putDispatch (id : string) (d : Dispatch) (store : InMemoryOutboxStore) : InMemoryOutboxStore :=
  store <| os_dispatches := <[id := d]> (os_dispatches store) |>.
Definition putStep (sagaID effectID : string) (step : SagaStep) (store : InMemoryOutboxStore)
    : InMemoryOutboxStore :=
  store <| os_steps := <[sagaID := <[effectID := step]> (stepsOf store sagaID)]> (os_steps store) |>.
Definition putAttempts (id : string) (l : list DispatchAttempt) (store : InMemoryOutboxStore)
    : InMemoryOutboxStore :=
  store <| os_attempts := <[id := l]> (os_attempts store) |>.

(** [attempts[len(attempts)-1]] replaced by a modified copy. *)
Definition updateLast (f : DispatchAttempt → DispatchAttempt) (l : list DispatchAttempt)
    : list DispatchAttempt := alter f (pred (List.length l)) l.

(** ** Sagas *)
Definition CreateSaga (testBinary : bool) (ctx : option error) (now : Time) (request : CreateSagaRequest)
    (store : InMemoryOutboxStore) : result (SagaInstance * InMemoryOutboxStore) :=
  ctxErr ctx ;;
  validateSagaRequest testBinary request ;;
  match os_sagas store !! cs_SagaID request with
  | Some existing =>
      failIf (bool_decide (sg_Namespace existing ≠ cs_Namespace request)
              || bool_decide (sg_ExecutionID existing ≠ cs_ExecutionID request)
              || bool_decide (sg_PlanID existing ≠ cs_PlanID request)
              || bool_decide (sg_PlanDigest existing ≠ cs_PlanDigest request)
              || bool_decide (sg_Serial existing ≠ cs_Serial request))
        (wrapf ErrIdentityConflict "saga") ;;
      Ok (existing, store)
  | None =>
      let saga := mkSaga (cs_Namespace request) (cs_SagaID request) (cs_ExecutionID request)
        (cs_PlanID request) (cs_PlanDigest request) SagaRunning (cs_Serial request) 1 now now in
      Ok (saga, putSaga (cs_SagaID request) saga store
                  <| os_steps := <[cs_SagaID request := ∅]> (os_steps store) |>)
  end.

(** ** Steps *)
Definition sameRequirements (left right : list FencingRequirement) : bool := bool_decide (left = right).
Definition sameGrants (left right : list FencingGrant) : bool := bool_decide (left = right).

Definition sameStep (step : SagaStep) (request : EnqueueStepRequest json)
    (argumentHash compensationHash : string) : bool :=
  bool_decide (st_Sequence step = eq_Sequence request)
  && bool_decide (st_Verb step = eq_Verb request)
  && bool_decide (st_ContractHash step = eq_ContractHash request)
  && bool_decide (st_ArgumentHash step = argumentHash)
  && bool_decide (st_CompensationVerb step = eq_CompensationVerb request)
  && bool_decide (st_CompensationContract step = eq_CompensationContract request)
  && bool_decide (st_CompensationArgumentHash step = compensationHash)
  && sameRequirements (st_Fencing step) (eq_Fencing request).

Definition dispatchIDOf (key : string) : string := "dispatch/" +:+ key.

Definition EnqueueStep (ctx : option error) (now : Time) (request : EnqueueStepRequest json)
    (store : InMemoryOutboxStore) : result (Dispatch * InMemoryOutboxStore) :=
  ctxErr ctx ;;
  n ← normalizeEnqueue request;
  let request := ne_request n in
  saga ← ofOption (os_sagas store !! eq_SagaID request) (errorf "saga not found");
  let idempotencyKey :=
    IdempotencyKey (sg_Namespace saga) (sg_SagaID saga) (eq_EffectID request) DirectionForward in
  let dispatchID := dispatchIDOf idempotencyKey in
  match os_dispatches store !! dispatchID with
  | Some existing =>
      match stepsOf store (eq_SagaID request) !! eq_EffectID request with
      | Some step =>
          if sameStep step request (ne_argumentHash n) (ne_compensationHash n)
          then Ok (existing, store)
          else Err (wrapf ErrIdentityConflict "saga effect")
      | None => Err (wrapf ErrIdentityConflict "saga effect")
      end
  | None =>
      failIf (isTerminalSaga (sg_State saga)) (wrapf ErrTerminalSaga "saga is terminal") ;;
      failIf (bool_decide (sg_State saga ≠ SagaRunning))
        (wrapf ErrInvalidTransition "cannot enqueue a forward step") ;;
      failIf (bool_decide (eq_Sequence request ≠ Z.of_nat (size (stepsOf store (eq_SagaID request))) + 1))
        (wrapf ErrIdentityConflict "step sequence is not dense") ;;
      let step := mkStep (eq_SagaID request) (eq_EffectID request) (eq_Sequence request) (eq_Verb request)
        (eq_ContractHash request) (ne_arguments n) (ne_argumentHash n) (eq_CompensationVerb request)
        (eq_CompensationContract request) (ne_compensationArguments n) (ne_compensationHash n)
        (eq_Fencing request) StepPending "" in
      let dispatch := mkDispatch dispatchID (sg_SagaID saga) (st_EffectID step) (st_Sequence step)
        DirectionForward (st_Verb step) (st_ContractHash step) (st_Arguments step) (st_ArgumentHash step)
        idempotencyKey DispatchQueued 0 "" "" zeroTime zeroTime (eq_Fencing request) []
        (OutcomeOther "") "" "" 1 now now in
      let saga := saga <| sg_Revision := u64_inc (sg_Revision saga) |> <| sg_UpdatedAt := now |> in
      Ok (dispatch,
          putSaga (eq_SagaID request) saga
            (putDispatch dispatchID dispatch
               (putStep (eq_SagaID request) (eq_EffectID request) step store)))
  end.

Definition replayExistingStep (ctx : option error) (request : EnqueueStepRequest json)
    (store : InMemoryOutboxStore) : result Dispatch :=
  ctxErr ctx ;;
  n ← normalizeEnqueue request;
  let request := ne_request n in
  saga ← ofOption (os_sagas store !! eq_SagaID request) (errorf "saga not found");
  let key := IdempotencyKey (sg_Namespace saga) (sg_SagaID saga) (eq_EffectID request) DirectionForward in
  match os_dispatches store !! dispatchIDOf key,
        stepsOf store (eq_SagaID request) !! eq_EffectID request with
  | Some dispatch, Some step =>
      if sameStep step request (ne_argumentHash n) (ne_compensationHash n)
      then Ok dispatch else Err (wrapf ErrIdentityConflict "saga effect")
  | _, _ => Err (wrapf ErrIdentityConflict "saga effect")
  end.

(** ** Claims *)
Definition hasOtherInFlightLocked (store : InMemoryOutboxStore) (sagaID dispatchID : string) (now : Time)
    : bool :=
  mapExists (λ d, bool_decide (d_ID d ≠ dispatchID) && bool_decide (d_SagaID d = sagaID)
                  && bool_decide (d_State d = DispatchInFlight) && timeAfter (d_LeaseDeadline d) now)
    (os_dispatches store).

Definition hasUnfinishedEarlierForwardLocked (store : InMemoryOutboxStore) (candidate : Dispatch) : bool :=
  if bool_decide (d_Direction candidate ≠ DirectionForward) then false else
  mapExists (λ d, bool_decide (d_SagaID d = d_SagaID candidate)
                  && bool_decide (d_Direction d = DirectionForward)
                  && bool_decide (d_Sequence d < d_Sequence candidate)
                  && bool_decide (d_State d ≠ DispatchSucceeded))
    (os_dispatches store).

(** The filter of [ClaimDispatch]. *)
Definition eligible (store : InMemoryOutboxStore) (options : ClaimOptions) (now : Time) (d : Dispatch) : bool :=
  if bool_decide (cl_TargetDispatchID options ≠ "") && bool_decide (d_ID d ≠ cl_TargetDispatchID options)
  then false else
  match os_sagas store !! d_SagaID d with
  | None => false
  | Some saga =>
      if isTerminalSaga (sg_State saga) then false
      else if bool_decide (sg_State saga = SagaCompensating)
              && bool_decide (d_Direction d ≠ DirectionCompensation) then false
      else if bool_decide (sg_State saga = SagaRunning)
              && bool_decide (d_Direction d ≠ DirectionForward) then false
      else match d_State d with
           | DispatchQueued => true
           | DispatchRetryWait => negb (timeAfter (d_NextAttemptAt d) now)
           | DispatchInFlight => negb (timeAfter (d_LeaseDeadline d) now)
           | _ => false
           end
  end.

(** The claim order: creation time, saga, sequence, identifier. *)
Definition claimBefore (a b : Dispatch) : bool :=
  if bool_decide (d_CreatedAt a ≠ d_CreatedAt b) then bool_decide (d_CreatedAt a < d_CreatedAt b)
  else if bool_decide (d_SagaID a ≠ d_SagaID b) then strLt (d_SagaID a) (d_SagaID b)
  else if bool_decide (d_Sequence a ≠ d_Sequence b) then bool_decide (d_Sequence a < d_Sequence b)
  else strLt (d_ID a) (d_ID b).
Definition claimLe (a b : string * Dispatch) : Prop := claimBefore b.2 a.2 = false.
#[global] Instance claimLe_dec a b : Decision (claimLe a b).
Proof. unfold claimLe. apply _. Defined.

(** May a serial saga start this dispatch now? *)
Definition startable (store : InMemoryOutboxStore) (now : Time) (d : Dispatch) : bool :=
  match os_sagas store !! d_SagaID d with
  | None => false
  | Some saga =>
      negb (sg_Serial saga && (hasOtherInFlightLocked store (d_SagaID d) (d_ID d) now
                               || hasUnfinishedEarlierForwardLocked store d))
  end.

Definition eligibleDispatches (store : InMemoryOutboxStore) (options : ClaimOptions) (now : Time)
    : list (string * Dispatch) :=
  merge_sort claimLe (List.filter (λ p, eligible store options now p.2) (map_to_list (os_dispatches store))).

Definition ClaimDispatch (ctx : option error) (storeNow : Time) (token : result string)
    (options : ClaimOptions) (store : InMemoryOutboxStore) : result (Dispatch * InMemoryOutboxStore) :=
  ctxErr ctx ;;
  failIf (bool_decide (cl_Owner options = "") || bool_decide (cl_LeaseDuration options ≤ 0))
    (errorf "claim owner and positive lease duration are required") ;;
  let now := if timeIsZero (cl_Now options) then storeNow else cl_Now options in
  match List.find (λ p, startable store now p.2) (eligibleDispatches store options now) with
  | None => Err (wrapf ErrNoDispatch "no eligible dispatch")
  | Some (key, dispatch) =>
      token ← token;
      let dispatch := dispatch
        <| d_State := DispatchInFlight |> <| d_Attempt := u64_inc (d_Attempt dispatch) |>
        <| d_LeaseOwner := cl_Owner options |> <| d_LeaseToken := token |>
        <| d_LeaseDeadline := timeAdd now (cl_LeaseDuration options) |> <| d_FencingGrants := [] |>
        <| d_Revision := u64_inc (d_Revision dispatch) |> <| d_UpdatedAt := now |> in
      let attempt := mkAttempt (d_ID dispatch) (d_Attempt dispatch) (d_LeaseOwner dispatch) token
        (d_LeaseDeadline dispatch) [] (OutcomeOther "") "" now zeroTime in
      Ok (dispatch, putAttempts (d_ID dispatch) (attemptsOf store (d_ID dispatch) ++ [attempt])
                      (putDispatch key dispatch store))
  end.

(** ** Leases and fencing grants *)
Definition currentLease (dispatch : option Dispatch) (attempt : Z) (token : string) : bool :=
  match dispatch with
  | None => false
  | Some d => bool_decide (d_State d = DispatchInFlight) && bool_decide (d_Attempt d = attempt)
              && bool_decide (token ≠ "") && bool_decide (d_LeaseToken d = token)
  end.
Definition currentLeaseAt (dispatch : option Dispatch) (attempt : Z) (token : string) (now : Time) : bool :=
  match dispatch with
  | None => false
  | Some d => currentLease (Some d) attempt token && timeAfter (d_LeaseDeadline d) now
  end.

Fixpoint validateGrantsFrom (previous : option FencingGrant) (grants : list FencingGrant) : result unit :=
  match grants with
  | [] => Ok tt
  | grant :: grants =>
      failIf (bool_decide (fg_Authority grant = "") || bool_decide (fg_Resource grant = "")
              || bool_decide (fg_Token grant = 0)) (errorf "invalid fencing grant") ;;
      failIf (match previous with
              | None => false
              | Some p =>
                  strLt (fg_Authority grant) (fg_Authority p)
                  || (bool_decide (fg_Authority p = fg_Authority grant)
                      && negb (strLt (fg_Resource p) (fg_Resource grant)))
              end) (errorf "fencing grants must be unique and canonically ordered") ;;
      validateGrantsFrom (Some grant) grants
  end.
Definition validateGrants (grants : list FencingGrant) : result unit := validateGrantsFrom None grants.

Definition SaveFencingGrants (ctx : option error) (leaseNow updateNow : Time) (dispatchID : string)
    (attempt : Z) (leaseToken : string) (grants : list FencingGrant) (store : InMemoryOutboxStore)
    : result InMemoryOutboxStore :=
  ctxErr ctx ;;
  validateGrants grants ;;
  match os_dispatches store !! dispatchID with
  | None => Err (wrapf ErrStaleLease "stale dispatch lease")
  | Some dispatch =>
      failIf (negb (currentLeaseAt (Some dispatch) attempt leaseToken leaseNow))
        (wrapf ErrStaleLease "stale dispatch lease") ;;
      failIf (bool_decide (List.length (d_Fencing dispatch) ≠ List.length grants))
        (errorf "fencing grant count does not match dispatch requirements") ;;
      failIf (existsb (λ '(requirement, grant),
                bool_decide (fg_Authority grant ≠ fr_Authority requirement)
                || bool_decide (fg_Resource grant ≠ fr_Resource requirement))
                (zip (d_Fencing dispatch) grants))
        (errorf "fencing grant does not match dispatch requirement") ;;
      failIf (bool_decide (d_FencingGrants dispatch ≠ []) && negb (sameGrants (d_FencingGrants dispatch) grants))
        (wrapf ErrIdentityConflict "fencing grants already persisted") ;;
      let dispatch := dispatch <| d_FencingGrants := grants |>
        <| d_Revision := u64_inc (d_Revision dispatch) |> <| d_UpdatedAt := updateNow |> in
      Ok (putAttempts dispatchID
            (updateLast (λ a, a <| at_FencingGrants := grants |>) (attemptsOf store dispatchID))
            (putDispatch dispatchID dispatch store))
  end.

(** ** Completions *)
Definition validateCompletion (completion : Completion) : result unit :=
  failIf (bool_decide (cp_DispatchID completion = "") || bool_decide (cp_Attempt completion = 0)
          || bool_decide (cp_LeaseToken completion = ""))
    (errorf "dispatch ID, attempt, and lease token are required") ;;
  match cp_Outcome completion with
  | OutcomeSuccess =>
      failIf (bool_decide (cp_Result completion = ""))
        (errorf "successful dispatch requires a canonical result") ;;
      decoded ← ofOption (Decode (cp_Result completion)) (errorf "result is invalid JSON");
      failIf (bool_decide (Marshal decoded ≠ Some (cp_Result completion)))
        (errorf "result is not canonical JSON")
  | OutcomeRetryableKnownNotCommitted | OutcomePermanentFailure
  | OutcomeUnknown | OutcomeStaleFence =>
      failIf (bool_decide (cp_Error completion = "")) (errorf "dispatch outcome requires an error")
  | OutcomeOther _ => Err (errorf "invalid dispatch outcome")
  end.

Definition terminalOutcomeMayMaskPriorUnknown (completion : Completion) : bool :=
  bool_decide (cp_Outcome completion = OutcomePermanentFailure)
  || bool_decide (cp_Outcome completion = OutcomeStaleFence)
  || (bool_decide (cp_Outcome completion = OutcomeRetryableKnownNotCommitted) && cp_Exhausted completion).

(** The state changes of one observed outcome on the dispatch, its step and its saga. *)
Definition applyCompletion (dispatch : Dispatch) (step : SagaStep) (saga : SagaInstance)
    (completion : Completion) (priorUnresolved : bool) : Dispatch * SagaStep * SagaInstance :=
  let dispatch := dispatch
    <| d_LastOutcome := cp_Outcome completion |> <| d_LastError := cp_Error completion |>
    <| d_LeaseOwner := "" |> <| d_LeaseToken := "" |> <| d_LeaseDeadline := zeroTime |>
    <| d_Revision := u64_inc (d_Revision dispatch) |> <| d_UpdatedAt := cp_Now completion |> in
  let saga := saga
    <| sg_Revision := u64_inc (sg_Revision saga) |> <| sg_UpdatedAt := cp_Now completion |> in
  if priorUnresolved then
    (dispatch <| d_State := DispatchBlockedUnknown |>, step,
     match d_Direction dispatch with
     | DirectionCompensation => saga <| sg_State := SagaBlockedCompensation |>
     | DirectionForward => saga <| sg_State := SagaBlockedUnknown |>
     end)
  else
  match cp_Outcome completion with
  | OutcomeSuccess =>
      (dispatch <| d_State := DispatchSucceeded |> <| d_Result := cp_Result completion |>,
       match d_Direction dispatch with
       | DirectionForward => step <| st_State := StepSucceeded |> <| st_Result := cp_Result completion |>
       | DirectionCompensation => step <| st_State := StepCompensated |>
       end, saga)
  | OutcomeRetryableKnownNotCommitted =>
      if cp_Exhausted completion then
        match d_Direction dispatch with
        | DirectionCompensation =>
            (dispatch <| d_State := DispatchFailedPermanent |>, step,
             saga <| sg_State := SagaBlockedCompensation |>)
        | DirectionForward =>
            (dispatch <| d_State := DispatchFailedPermanent |>, step <| st_State := StepFailed |>,
             saga <| sg_State := SagaFailed |>)
        end
      else
        (dispatch <| d_State := DispatchRetryWait |>
                  <| d_NextAttemptAt := cp_NextAttemptAt completion |>, step, saga)
  | OutcomePermanentFailure =>
      match d_Direction dispatch with
      | DirectionForward =>
          (dispatch <| d_State := DispatchFailedPermanent |>, step <| st_State := StepFailed |>, saga)
      | DirectionCompensation =>
          (dispatch <| d_State := DispatchFailedPermanent |>, step,
           saga <| sg_State := SagaBlockedCompensation |>)
      end
  | OutcomeUnknown =>
      if cp_Exhausted completion then
        (dispatch <| d_State := DispatchBlockedUnknown |>, step,
         match d_Direction dispatch with
         | DirectionCompensation => saga <| sg_State := SagaBlockedCompensation |>
         | DirectionForward => saga <| sg_State := SagaBlockedUnknown |>
         end)
      else
        (dispatch <| d_State := DispatchRetryWait |>
                  <| d_NextAttemptAt := cp_NextAttemptAt completion |>, step, saga)
  | OutcomeStaleFence =>
      (dispatch <| d_State := DispatchBlockedFence |>, step, saga <| sg_State := SagaBlockedFence |>)
  | OutcomeOther _ => (dispatch, step, saga)
  end.

(** ** Compensation *)
Definition hasSucceededStepLocked (store : InMemoryOutboxStore) (sagaID : string) : bool :=
  mapExists (λ step, bool_decide (st_State step = StepSucceeded)) (stepsOf store sagaID).

(** The succeeded step with an inverse and the highest sequence. *)
Definition betterCandidate (candidate : option SagaStep) (step : SagaStep) : option SagaStep :=
  if bool_decide (st_State step ≠ StepSucceeded) || bool_decide (st_CompensationVerb step = "")
  then candidate
  else match candidate with
       | None => Some step
       | Some c => if bool_decide (st_Sequence c < st_Sequence step) then Some step else candidate
       end.
Definition compensationCandidateLocked (store : InMemoryOutboxStore) (sagaID : string) : option SagaStep :=
  foldl betterCandidate None (map_to_list (stepsOf store sagaID)).*2.

Definition enqueueCompensationLocked (saga : SagaInstance) (step : SagaStep) (now : Time)
    (store : InMemoryOutboxStore) : InMemoryOutboxStore :=
  let key := IdempotencyKey (sg_Namespace saga) (sg_SagaID saga) (st_EffectID step) DirectionCompensation in
  let id := dispatchIDOf key in
  match os_dispatches store !! id with
  | Some _ => store
  | None =>
      putDispatch id
        (mkDispatch id (sg_SagaID saga) (st_EffectID step) (st_Sequence step) DirectionCompensation
           (st_CompensationVerb step) (st_CompensationContract step) (st_CompensationArguments step)
           (st_CompensationArgumentHash step) key DispatchQueued 0 "" "" zeroTime zeroTime
           (st_Fencing step) [] (OutcomeOther "") "" "" 1 now now) store
  end.

(** [sagaKey] is the map key under which [saga] is stored. *)
Definition finishSaga (sagaKey : string) (saga : SagaInstance) (state : SagaState) (now : Time)
    (store : InMemoryOutboxStore) : InMemoryOutboxStore :=
  putSaga sagaKey (saga <| sg_State := state |> <| sg_Revision := u64_inc (sg_Revision saga) |>
                        <| sg_UpdatedAt := now |>) store.

Definition startCompensationLocked (sagaKey : string) (saga : SagaInstance) (now : Time)
    (store : InMemoryOutboxStore) : InMemoryOutboxStore :=
  match compensationCandidateLocked store (sg_SagaID saga) with
  | None =>
      if hasSucceededStepLocked store (sg_SagaID saga)
      then finishSaga sagaKey saga SagaBlockedCompensation now store
      else finishSaga sagaKey saga SagaFailed now store
  | Some candidate =>
      enqueueCompensationLocked saga candidate now (finishSaga sagaKey saga SagaCompensating now store)
  end.

Definition enqueueNextCompensationLocked (sagaKey : string) (saga : SagaInstance) (now : Time)
    (store : InMemoryOutboxStore) : InMemoryOutboxStore :=
  match compensationCandidateLocked store (sg_SagaID saga) with
  | None =>
      if hasSucceededStepLocked store (sg_SagaID saga)
      then finishSaga sagaKey saga SagaBlockedCompensation now store
      else finishSaga sagaKey saga SagaCompensated now store
  | Some candidate => enqueueCompensationLocked saga candidate now store
  end.

Definition CompleteDispatch (ctx : option error) (defaultNow leaseNow : Time) (completion : Completion)
    (store : InMemoryOutboxStore) : result InMemoryOutboxStore :=
  ctxErr ctx ;;
  let completion := if timeIsZero (cp_Now completion)
                    then completion <| cp_Now := defaultNow |> else completion in
  validateCompletion completion ;;
  match os_dispatches store !! cp_DispatchID completion with
  | None => Err (wrapf ErrStaleLease "stale dispatch lease")
  | Some dispatch =>
      failIf (negb (currentLeaseAt (Some dispatch) (cp_Attempt completion) (cp_LeaseToken completion) leaseNow))
        (wrapf ErrStaleLease "stale dispatch lease") ;;
      match os_sagas store !! d_SagaID dispatch,
            stepsOf store (d_SagaID dispatch) !! d_EffectID dispatch with
      | Some saga, Some step =>
          let priorUnresolved :=
            terminalOutcomeMayMaskPriorUnknown completion
            && negb (priorAttemptsKnownNotCommitted (attemptsOf store (d_ID dispatch)) (d_Attempt dispatch)) in
          let '(dispatch', step', saga') := applyCompletion dispatch step saga completion priorUnresolved in
          let store :=
            putAttempts (d_ID dispatch)
              (updateLast (λ a, a <| at_Outcome := cp_Outcome completion |>
                                  <| at_Error := cp_Error completion |>
                                  <| at_CompletedAt := cp_Now completion |>)
                 (attemptsOf store (d_ID dispatch)))
              (putSaga (d_SagaID dispatch) saga'
                 (putStep (d_SagaID dispatch) (d_EffectID dispatch) step'
                    (putDispatch (cp_DispatchID completion) dispatch' store))) in
          Ok (match d_Direction dispatch with
              | DirectionForward =>
                  if negb priorUnresolved
                     && (bool_decide (cp_Outcome completion = OutcomePermanentFailure)
                         || (bool_decide (cp_Outcome completion = OutcomeRetryableKnownNotCommitted)
                             && cp_Exhausted completion))
                  then startCompensationLocked (d_SagaID dispatch) saga' (cp_Now completion) store
                  else store
              | DirectionCompensation =>
                  if bool_decide (cp_Outcome completion = OutcomeSuccess)
                  then enqueueNextCompensationLocked (d_SagaID dispatch) saga' (cp_Now completion) store
                  else store
              end)
      | _, _ => Err (errorf "dispatch dependencies are missing")
      end
  end.

(** ** Closing sagas *)
Definition CompleteSaga (ctx : option error) (now : Time) (sagaID : string) (store : InMemoryOutboxStore)
    : result InMemoryOutboxStore :=
  ctxErr ctx ;;
  saga ← ofOption (os_sagas store !! sagaID) (errorf "saga not found");
  if bool_decide (sg_State saga = SagaCompleted) then Ok store else
  failIf (bool_decide (sg_State saga ≠ SagaRunning)) (wrapf ErrInvalidTransition "cannot complete saga") ;;
  failIf (mapExists (λ d, bool_decide (d_SagaID d = sagaID) && bool_decide (d_State d ≠ DispatchSucceeded))
            (os_dispatches store)) (wrapf ErrInvalidTransition "dispatch has not succeeded") ;;
  Ok (finishSaga sagaID saga SagaCompleted now store).

Definition cancelDispatch (d : Dispatch) (now : Time) (reason : string) : Dispatch :=
  d <| d_State := DispatchCanceled |> <| d_NextAttemptAt := zeroTime |> <| d_LastError := reason |>
    <| d_Revision := u64_inc (d_Revision d) |> <| d_UpdatedAt := now |>.
Definition blockExpiredDispatch (d : Dispatch) (now : Time) : Dispatch :=
  d <| d_State := DispatchBlockedUnknown |> <| d_LeaseOwner := "" |> <| d_LeaseToken := "" |>
    <| d_LeaseDeadline := zeroTime |> <| d_NextAttemptAt := zeroTime |>
    <| d_LastError := "dispatch lease expired without a known outcome" |>
    <| d_Revision := u64_inc (d_Revision d) |> <| d_UpdatedAt := now |>.
Definition blockUnknownRetryDispatch (d : Dispatch) (now : Time) : Dispatch :=
  d <| d_State := DispatchBlockedUnknown |> <| d_NextAttemptAt := zeroTime |>
    <| d_Revision := u64_inc (d_Revision d) |> <| d_UpdatedAt := now |>.

Definition isUncertainRetryLocked (store : InMemoryOutboxStore) (d : Dispatch) : bool :=
  if bool_decide (d_State d ≠ DispatchRetryWait) then false
  else if bool_decide (d_LastOutcome d = OutcomeUnknown) then true
  else existsb (λ a, bool_decide (at_Outcome a = OutcomeUnknown) || timeIsZero (at_CompletedAt a))
         (attemptsOf store (d_ID d)).

(** An unexpired lease on a dispatch of the saga. *)
Definition hasActiveLease (store : InMemoryOutboxStore) (sagaID : string) (now : Time) : bool :=
  mapExists (λ d, bool_decide (d_SagaID d = sagaID) && bool_decide (d_State d = DispatchInFlight)
                  && timeAfter (d_LeaseDeadline d) now) (os_dispatches store).

(** The first loop of [FinalizeStoppedExecution] over the dispatches of a saga. *)
Definition settleDispatch (store : InMemoryOutboxStore) (now : Time) (sagaID : string) (d : Dispatch) : Dispatch :=
  if bool_decide (d_SagaID d ≠ sagaID) then d
  else if bool_decide (d_State d = DispatchInFlight) then blockExpiredDispatch d now
  else if isUncertainRetryLocked store d then blockUnknownRetryDispatch d now
  else d.
(** Its second loop. *)
Definition cancelPending (now : Time) (sagaID : string) (d : Dispatch) : Dispatch :=
  if bool_decide (d_SagaID d = sagaID)
     && (bool_decide (d_State d = DispatchQueued) || bool_decide (d_State d = DispatchRetryWait))
  then cancelDispatch d now "execution stopped before dispatch could complete" else d.
(** Does the dispatch leave an unknown effect behind? *)
Definition uncertainDispatch (store : InMemoryOutboxStore) (sagaID : string) (d : Dispatch) : bool :=
  bool_decide (d_SagaID d = sagaID)
  && (bool_decide (d_State d = DispatchInFlight) || isUncertainRetryLocked store d
      || bool_decide (d_State d = DispatchBlockedUnknown)).

Definition stoppedStateStep (store : InMemoryOutboxStore) (sagaID : string) (next : SagaState) (d : Dispatch)
    : SagaState :=
  if bool_decide (d_SagaID d ≠ sagaID) then next
  else if bool_decide (d_State d = DispatchInFlight) then SagaBlockedUnknown
  else if isUncertainRetryLocked store d then SagaBlockedUnknown
  else if bool_decide (d_State d = DispatchBlockedUnknown) then SagaBlockedUnknown
  else if bool_decide (d_Direction d = DirectionForward) && bool_decide (d_State d = DispatchSucceeded)
          && bool_decide (next ≠ SagaBlockedUnknown) then SagaBlockedDependency
  else next.

(** The body of the second loop of [FinalizeStoppedExecution] for one saga. *)
Definition finalizeStoppedSaga (executionID : string) (now : Time) (store : InMemoryOutboxStore)
    (entry : string * SagaInstance) : InMemoryOutboxStore :=
  let '(sagaKey, saga) := entry in
  if bool_decide (sg_ExecutionID saga ≠ executionID) then store else
  let closed := store <| os_dispatches :=
    (cancelPending now (sg_SagaID saga) ∘ settleDispatch store now (sg_SagaID saga)) <$> os_dispatches store |> in
  if isTerminalSaga (sg_State saga) then
    let uncertain := mapExists (uncertainDispatch store (sg_SagaID saga)) (os_dispatches store) in
    if uncertain && bool_decide (sg_State saga ≠ SagaBlockedUnknown)
    then finishSaga sagaKey saga SagaBlockedUnknown now closed else closed
  else
    let initial := if bool_decide (sg_State saga = SagaCompensating)
                   then SagaBlockedDependency else SagaFailed in
    let next := foldl (stoppedStateStep store (sg_SagaID saga)) initial (map_to_list (os_dispatches store)).*2 in
    finishSaga sagaKey saga next now closed.

Definition FinalizeStoppedExecution (ctx : option error) (now : Time) (executionID : string)
    (store : InMemoryOutboxStore) : result InMemoryOutboxStore :=
  ctxErr ctx ;;
  failIf (bool_decide (executionID = "")) (errorf "execution ID is required") ;;
  failIf (mapExists (λ saga, bool_decide (sg_ExecutionID saga = executionID)
                             && hasActiveLease store (sg_SagaID saga) now) (os_sagas store))
    (wrapf ErrActiveDispatchLease "saga") ;;
  Ok (foldl (finalizeStoppedSaga executionID now) store (map_to_list (os_sagas store))).

(** What blocking compensation does to one inverse dispatch. *)
Definition blockCompensationDispatch (store : InMemoryOutboxStore) (now : Time) (sagaID : string) (d : Dispatch)
    : Dispatch :=
  if bool_decide (d_SagaID d = sagaID) && bool_decide (d_Direction d = DirectionCompensation) then
    match d_State d with
    | DispatchQueued => cancelDispatch d now "compensation disabled by fail-fast execution policy"
    | DispatchInFlight => blockExpiredDispatch d now
    | DispatchRetryWait =>
        if isUncertainRetryLocked store d then blockUnknownRetryDispatch d now
        else cancelDispatch d now "compensation disabled by fail-fast execution policy"
    | _ => d
    end
  else d.
Definition uncertainCompensation (store : InMemoryOutboxStore) (sagaID : string) (d : Dispatch) : bool :=
  bool_decide (d_SagaID d = sagaID) && bool_decide (d_Direction d = DirectionCompensation)
  && (bool_decide (d_State d = DispatchInFlight) || isUncertainRetryLocked store d).

Definition BlockSagaCompensation (ctx : option error) (now : Time) (sagaID : string)
    (store : InMemoryOutboxStore) : result InMemoryOutboxStore :=
  ctxErr ctx ;;
  saga ← ofOption (os_sagas store !! sagaID) (errorf "saga not found");
  if bool_decide (sg_State saga = SagaBlockedCompensation) then Ok store else
  failIf (bool_decide (sg_State saga ≠ SagaCompensating))
    (wrapf ErrInvalidTransition "cannot block compensation") ;;
  failIf (hasActiveLease store sagaID now) (wrapf ErrActiveDispatchLease "saga") ;;
  let next := if mapExists (uncertainCompensation store sagaID) (os_dispatches store)
              then SagaBlockedUnknown else SagaBlockedCompensation in
  Ok (finishSaga sagaID saga next now
        (store <| os_dispatches := blockCompensationDispatch store now sagaID <$> os_dispatches store |>)).

Definition FinalizeFailFastSaga (ctx : option error) (now : Time) (sagaID : string)
    (store : InMemoryOutboxStore) : result InMemoryOutboxStore :=
  ctxErr ctx ;;
  saga ← ofOption (os_sagas store !! sagaID) (errorf "saga not found");
  if bool_decide (sg_State saga = SagaFailed) then Ok store else
  failIf (bool_decide (sg_State saga ≠ SagaBlockedCompensation))
    (wrapf ErrInvalidTransition "cannot finalize fail-fast saga") ;;
  failIf (mapExists (λ d, bool_decide (d_SagaID d = sagaID)
                          && (bool_decide (d_Direction d = DirectionCompensation)
                              || bool_decide (d_State d = DispatchInFlight))) (os_dispatches store))
    (wrapf ErrInvalidTransition "saga has compensation or in-flight work") ;;
  Ok (finishSaga sagaID saga SagaFailed now store).

(** ** Reads *)
Definition GetSaga (ctx : option error) (sagaID : string) (store : InMemoryOutboxStore) : result SagaInstance :=
  ctxErr ctx ;; ofOption (os_sagas store !! sagaID) (errorf "saga not found").
Definition GetDispatch (ctx : option error) (dispatchID : string) (store : InMemoryOutboxStore) : result Dispatch :=
  ctxErr ctx ;; ofOption (os_dispatches store !! dispatchID) (errorf "dispatch not found").

Definition listBefore (a b : Dispatch) : bool :=
  if bool_decide (d_Sequence a ≠ d_Sequence b) then bool_decide (d_Sequence a < d_Sequence b)
  else strLt (directionString (d_Direction a)) (directionString (d_Direction b)).
Definition listLe (a b : Dispatch) : Prop := listBefore b a = false.
#[global] Instance listLe_dec a b : Decision (listLe a b).
Proof. unfold listLe. apply _. Defined.
Definition ListDispatches (ctx : option error) (sagaID : string) (store : InMemoryOutboxStore)
    : result (list Dispatch) :=
  ctxErr ctx ;;
  Ok (merge_sort listLe
        (List.filter (λ d, bool_decide (d_SagaID d = sagaID)) (map_to_list (os_dispatches store)).*2)).
Definition ListAttempts (ctx : option error) (dispatchID : string) (store : InMemoryOutboxStore)
    : result (list DispatchAttempt) :=
  ctxErr ctx ;; Ok (attemptsOf store dispatchID).
