(* ===== verification/OutboxInv.v ===== *)
(** * Well-formedness of the outbox store

    The static part of the store's invariant (identities, keys, dense step
    sequences, the forward dispatch of every step, attempt lists) and the frame
    lemma that every operation uses: an operation that keeps the identifying
    fields of what it touches preserves the static part. *)

From S2P Require Import Prelude GoText Sha256 Json Workflow Identity Outbox.
From Stdlib Require Import ZArith String.
Local Open Scope list_scope.

(** ** Identifying fields *)
Definition sg_core (sg : SagaInstance) :=
  (sg_Namespace sg, sg_SagaID sg, sg_ExecutionID sg, sg_PlanID sg, sg_PlanDigest sg, sg_Serial sg,
   sg_CreatedAt sg).
Definition st_core (st : SagaStep) :=
  (st_SagaID st, st_EffectID st, st_Sequence st, st_Verb st, st_ContractHash st, st_Arguments st,
   st_ArgumentHash st, st_CompensationVerb st, st_CompensationContract st,
   st_CompensationArguments st, st_CompensationArgumentHash st, st_Fencing st).
Definition d_core (d : Dispatch) :=
  (d_ID d, d_SagaID d, d_EffectID d, d_Sequence d, d_Direction d, d_Verb d, d_ContractHash d,
   d_Arguments d, d_ArgumentHash d, d_IdempotencyKey d, d_Fencing d, d_CreatedAt d).

(** The payload a dispatch carries is the step's, for its direction. *)
Definition carries (d : Dispatch) (st : SagaStep) : Prop :=
  d_Sequence d = st_Sequence st ∧ d_Fencing d = st_Fencing st ∧
  match d_Direction d with
  | DirectionForward =>
      d_Verb d = st_Verb st ∧ d_ContractHash d = st_ContractHash st ∧
      d_Arguments d = st_Arguments st ∧ d_ArgumentHash d = st_ArgumentHash st
  | DirectionCompensation =>
      d_Verb d = st_CompensationVerb st ∧ d_ContractHash d = st_CompensationContract st ∧
      d_Arguments d = st_CompensationArguments st ∧ d_ArgumentHash d = st_CompensationArgumentHash st ∧
      st_CompensationVerb st ≠ ""
  end.

Definition stepAt (s : InMemoryOutboxStore) (sid eid : string) : option SagaStep := stepsOf s sid !! eid.

Record static_inv (s : InMemoryOutboxStore) : Prop := {
  si_saga k sg : os_sagas s !! k = Some sg →
    sg_SagaID sg = k ∧ sg_Serial sg = true ∧ is_Some (os_steps s !! k);
  si_step sid eid st : stepAt s sid eid = Some st →
    is_Some (os_sagas s !! sid) ∧ st_SagaID st = sid ∧ st_EffectID st = eid ∧
    (1 ≤ st_Sequence st ≤ Z.of_nat (size (stepsOf s sid)))%Z;
  si_seq sid eid eid' st st' : stepAt s sid eid = Some st → stepAt s sid eid' = Some st' →
    st_Sequence st = st_Sequence st' → eid = eid';
  si_disp k d : os_dispatches s !! k = Some d → d_ID d = k ∧ k = dispatchIDOf (d_IdempotencyKey d) ∧
    ∃ sg st, os_sagas s !! d_SagaID d = Some sg ∧ stepAt s (d_SagaID d) (d_EffectID d) = Some st ∧
      carries d st ∧
      d_IdempotencyKey d = IdempotencyKey (sg_Namespace sg) (d_SagaID d) (d_EffectID d) (d_Direction d);
  si_fwd sid eid st : stepAt s sid eid = Some st →
    ∃ k d, os_dispatches s !! k = Some d ∧ d_SagaID d = sid ∧ d_EffectID d = eid ∧
      d_Direction d = DirectionForward;
  si_atts k l : os_attempts s !! k = Some l → is_Some (os_dispatches s !! k) }.

(** ** Frame *)
Definition stepCores (s : InMemoryOutboxStore) := (λ m : gmap string SagaStep, st_core <$> m) <$> os_steps s.

Record evolves (s s' : InMemoryOutboxStore) : Prop := {
  ev_sagas : sg_core <$> os_sagas s' = sg_core <$> os_sagas s;
  ev_steps : stepCores s' = stepCores s;
  ev_disp : d_core <$> os_dispatches s' = d_core <$> os_dispatches s;
  ev_atts k l : os_attempts s' !! k = Some l →
    is_Some (os_attempts s !! k) ∨ is_Some (os_dispatches s !! k) }.

Lemma core_lookup {A B} (f : A → B) (m m' : gmap string A) k x :
  f <$> m' = f <$> m → m' !! k = Some x → ∃ y, m !! k = Some y ∧ f y = f x.
Proof.
  intros Hm Hx. apply (f_equal (lookup k)) in Hm. rewrite !lookup_fmap, Hx in Hm.
  destruct (m !! k) as [y|]; [|done]. exists y. split; [done|]. by injection Hm.
Qed.
Lemma core_is_Some {A B} (f : A → B) (m m' : gmap string A) k :
  f <$> m' = f <$> m → is_Some (m' !! k) ↔ is_Some (m !! k).
Proof. intros Hm. rewrite <-!(fmap_is_Some f), <-!lookup_fmap, Hm. done. Qed.

Lemma evolves_stepsOf s s' sid : evolves s s' → st_core <$> stepsOf s' sid = st_core <$> stepsOf s sid.
Proof.
  intros [_ Hst _ _]. apply (f_equal (lookup sid)) in Hst. unfold stepCores in Hst. rewrite !lookup_fmap in Hst. unfold stepsOf.
  destruct (os_steps s' !! sid), (os_steps s !! sid); simpl in *; congruence.
Qed.
Lemma evolves_size s s' sid : evolves s s' → size (stepsOf s' sid) = size (stepsOf s sid).
Proof. intros H%(evolves_stepsOf _ _ sid). apply (f_equal size) in H. by rewrite !map_size_fmap in H. Qed.
Lemma evolves_stepAt s s' sid eid st' : evolves s s' → stepAt s' sid eid = Some st' →
  ∃ st, stepAt s sid eid = Some st ∧ st_core st = st_core st'.
Proof. intros H. apply core_lookup. by apply evolves_stepsOf. Qed.
Lemma evolves_stepAt_fwd s s' sid eid st : evolves s s' → stepAt s sid eid = Some st →
  ∃ st', stepAt s' sid eid = Some st' ∧ st_core st = st_core st'.
Proof.
  intros H Hst. destruct (core_lookup st_core (stepsOf s' sid) (stepsOf s sid) eid st) as (st' & ? & ?); eauto.
  symmetry. by apply evolves_stepsOf.
Qed.
Lemma evolves_saga_fwd s s' k sg : evolves s s' → os_sagas s !! k = Some sg →
  ∃ sg', os_sagas s' !! k = Some sg' ∧ sg_core sg' = sg_core sg.
Proof. intros [H _ _ _] Hk. eapply core_lookup; [symmetry; exact H|done]. Qed.
Lemma evolves_disp_fwd s s' k d : evolves s s' → os_dispatches s !! k = Some d →
  ∃ d', os_dispatches s' !! k = Some d' ∧ d_core d' = d_core d.
Proof. intros [_ _ H _] Hk. eapply core_lookup; [symmetry; exact H|done]. Qed.

Ltac use_core :=
  repeat match goal with
  | H : st_core _ = st_core _ |- _ => unfold st_core in H; injection H; clear H; intros
  | H : d_core _ = d_core _ |- _ => unfold d_core in H; injection H; clear H; intros
  | H : sg_core _ = sg_core _ |- _ => unfold sg_core in H; injection H; clear H; intros
  end.

Lemma static_evolves s s' : static_inv s → evolves s s' → static_inv s'.
Proof.
  intros [Hsg Hst Hseq Hd Hf Ha] Hev. pose proof Hev as [Es Et Ed Ea]. split.
  - intros k sg' H'. destruct (core_lookup _ _ _ _ _ Es H') as (sg & H & C).
    apply Hsg in H as (? & ? & ?). use_core. split; [congruence|]. split; [congruence|].
    by rewrite (core_is_Some (λ m : gmap string SagaStep, st_core <$> m) _ _ _ Et).
  - intros sid eid st' H'. destruct (evolves_stepAt _ _ _ _ _ Hev H') as (st & H & C).
    apply Hst in H as (? & ? & ? & ?). rewrite (core_is_Some _ _ _ _ Es), (evolves_size _ _ _ Hev).
    use_core. repeat split; try congruence; lia.
  - intros sid eid eid' st st' H H' E.
    destruct (evolves_stepAt _ _ _ _ _ Hev H) as (u & Hu & C), (evolves_stepAt _ _ _ _ _ Hev H') as (u' & Hu' & C').
    apply (Hseq _ _ _ _ _ Hu Hu'). use_core. congruence.
  - intros k d' H'. destruct (core_lookup _ _ _ _ _ Ed H') as (d & H & C).
    destruct (Hd _ _ H) as (H1 & H2 & sg & st & Hsg' & Hst' & Hc & HI).
    destruct (evolves_saga_fwd _ _ _ _ Hev Hsg') as (sg1 & Hsg1 & Csg).
    destruct (evolves_stepAt_fwd _ _ _ _ _ Hev Hst') as (st1 & Hst1 & Cst).
    unfold carries in *. use_core. split; [congruence|]. split; [congruence|]. exists sg1, st1.
    replace (d_SagaID d') with (d_SagaID d) by done. replace (d_EffectID d') with (d_EffectID d) by done.
    replace (d_Direction d') with (d_Direction d) by done. destruct Hc as (? & ? & Hc).
    split; [done|]. split; [done|]. split; [|congruence]. split; [congruence|]. split; [congruence|].
    destruct (d_Direction d); destruct_and!; repeat split; congruence.
  - intros sid eid st' H'. destruct (evolves_stepAt _ _ _ _ _ Hev H') as (st & H & _).
    destruct (Hf _ _ _ H) as (k & d & Hk & ? & ? & ?).
    destruct (evolves_disp_fwd _ _ _ _ Hev Hk) as (d' & Hk' & C). exists k, d'. use_core. repeat split; congruence.
  - intros k l H'. rewrite (core_is_Some _ _ _ _ Ed). apply Ea in H' as [[? H']|H']; [|done]. eauto.
Qed.

(** Elementary updates that keep identities. *)
Lemma core_insert {A B} (f : A → B) (m : gmap string A) k x y :
  m !! k = Some x → f y = f x → f <$> <[k := y]> m = f <$> m.
Proof. intros Hk E. rewrite fmap_insert, E. apply insert_id. by rewrite lookup_fmap, Hk. Qed.
Lemma core_fmap {A B} (f : A → B) (g : A → A) (m : gmap string A) :
  (∀ x, f (g x) = f x) → f <$> (g <$> m) = f <$> m.
Proof. intros E. rewrite <-map_fmap_compose. apply map_fmap_ext. intros k x _. apply E. Qed.

Lemma evolves_refl s : evolves s s.
Proof. split; eauto. Qed.
Lemma evolves_trans s1 s2 s3 : evolves s1 s2 → evolves s2 s3 → evolves s1 s3.
Proof.
  intros [H1 H2 H3 H4] [K1 K2 K3 K4]. split; [congruence..|]. intros k l Hk.
  apply K4 in Hk as [[l' Hk]|Hk]; [eauto|]. right. by rewrite <-(core_is_Some _ _ _ _ H3).
Qed.
Lemma evolves_putSaga s k sg sg' : os_sagas s !! k = Some sg → sg_core sg' = sg_core sg → evolves s (putSaga k sg' s).
Proof. intros H E. split; cbn; eauto using core_insert. Qed.
Lemma evolves_putDispatch s k d d' : os_dispatches s !! k = Some d → d_core d' = d_core d → evolves s (putDispatch k d' s).
Proof. intros H E. split; cbn; eauto using core_insert. Qed.
Lemma evolves_putAttempts s k l : is_Some (os_dispatches s !! k) → evolves s (putAttempts k l s).
Proof.
  intros H. split; cbn; [done..|]. intros k' l' [[<- _]|[_ Hk]]%lookup_insert_Some; eauto.
Qed.
Lemma evolves_putStep s sid eid st st' : stepAt s sid eid = Some st → st_core st' = st_core st → evolves s (putStep sid eid st' s).
Proof.
  intros H E. split; cbn; [done| |done|eauto]. unfold stepAt, stepsOf in *.
  destruct (os_steps s !! sid) as [m|] eqn:Hm; [|done]. cbn in *.
  eapply core_insert; [done|]. by eapply core_insert.
Qed.
Lemma evolves_fmap s f : (∀ d, d_core (f d) = d_core d) →
  evolves s (s <| os_dispatches := f <$> os_dispatches s |>).
Proof. intros E. split; cbn; eauto using core_fmap. Qed.

#[export] Hint Resolve evolves_refl : effectus.
