(* ===== verification/OutboxDyn.v ===== *)
(** * Dynamic invariants of the outbox store

    What the store guarantees between operations about the states of its sagas,
    steps and dispatches: attempt bookkeeping, leases, plan order, the coupling of
    step and dispatch states, reverse compensation order, and what each saga
    state promises. The second half shows how the elementary updates that the
    operations are made of keep these invariants. *)

From S2P Require Import Prelude GoText Sha256 Json Workflow Identity Outbox OutboxInv.
From Stdlib Require Import ZArith String.
Local Open Scope list_scope.
Local Open Scope Z_scope.

(** ** One dispatch and its attempts *)

(** The attempts of a dispatch that may run again: known not committed, unknown, or never completed. *)
Definition openAttempt (a : DispatchAttempt) : Prop :=
  at_Outcome a = OutcomeRetryableKnownNotCommitted ∨ at_Outcome a = OutcomeUnknown ∨
  (at_Outcome a = OutcomeOther "" ∧ at_CompletedAt a = zeroTime).
Definition pendingState (x : DispatchState) : bool :=
  match x with DispatchQueued | DispatchInFlight | DispatchRetryWait => true | _ => false end.

Record disp_inv (d : Dispatch) (atts : list DispatchAttempt) : Prop := {
  di_count : d_Attempt d = u64 (Z.of_nat (List.length atts));
  di_number i a : atts !! i = Some a → at_Attempt a = u64 (Z.of_nat i + 1) ∧ at_DispatchID a = d_ID d;
  di_queued : d_State d = DispatchQueued → atts = [];
  di_started : d_State d ≠ DispatchQueued → d_State d ≠ DispatchCanceled → atts ≠ [];
  di_lease : d_State d = DispatchInFlight → ∃ a, last atts = Some a ∧ at_LeaseOwner a = d_LeaseOwner d ∧
    at_LeaseToken a = d_LeaseToken d ∧ at_LeaseDeadline a = d_LeaseDeadline d ∧
    at_FencingGrants a = d_FencingGrants d ∧ at_Outcome a = OutcomeOther "" ∧ at_CompletedAt a = zeroTime;
  di_nolease : d_State d ≠ DispatchInFlight →
    d_LeaseOwner d = "" ∧ d_LeaseToken d = "" ∧ d_LeaseDeadline d = zeroTime;
  di_known : d_State d = DispatchFailedPermanent ∨ d_State d = DispatchBlockedFence →
    priorAttemptsKnownNotCommitted atts (d_Attempt d) = true;
  di_success i a : atts !! i = Some a → at_Outcome a = OutcomeSuccess →
    d_State d = DispatchSucceeded ∧ S i = List.length atts;
  di_succeeded : d_State d = DispatchSucceeded → ∃ a, last atts = Some a ∧ at_Outcome a = OutcomeSuccess;
  di_open i a : pendingState (d_State d) = true → atts !! i = Some a → openAttempt a;
  di_canceled i a : d_State d = DispatchCanceled → atts !! i = Some a →
    at_Outcome a = OutcomeRetryableKnownNotCommitted;
  di_failed : d_State d = DispatchFailedPermanent → ∃ a, last atts = Some a ∧
    (at_Outcome a = OutcomeRetryableKnownNotCommitted ∨ at_Outcome a = OutcomePermanentFailure) }.

(** ** One saga: the part that does not read the saga's state *)
Definition ofSaga (s : InMemoryOutboxStore) (sid k : string) (d : Dispatch) : Prop :=
  os_dispatches s !! k = Some d ∧ d_SagaID d = sid.

(** A step's state and the state of its dispatch in either direction. *)
Definition couple (d : Dispatch) (st : SagaStep) : Prop :=
  match d_Direction d with
  | DirectionForward =>
      match st_State st with
      | StepPending => d_State d ≠ DispatchSucceeded ∧ d_State d ≠ DispatchFailedPermanent
      | StepSucceeded | StepCompensated => d_State d = DispatchSucceeded
      | StepFailed => d_State d = DispatchFailedPermanent
      end
  | DirectionCompensation =>
      match d_State d with
      | DispatchSucceeded => st_State st = StepCompensated
      | _ => st_State st = StepSucceeded
      end
  end.

Record struct_inv (s : InMemoryOutboxStore) (sid : string) : Prop := {
  (** forward effects start in plan order *)
  w_order k d k' d' : ofSaga s sid k d → ofSaga s sid k' d' →
    d_Direction d = DirectionForward → d_Direction d' = DirectionForward →
    attemptsOf s k ≠ [] → d_Sequence d' < d_Sequence d → d_State d' = DispatchSucceeded;
  w_couple k d st : ofSaga s sid k d → stepAt s sid (d_EffectID d) = Some st → couple d st;
  w_undone eid st : stepAt s sid eid = Some st → st_State st = StepCompensated →
    ∃ k d, ofSaga s sid k d ∧ d_EffectID d = eid ∧ d_Direction d = DirectionCompensation;
  (** inverses run from the last effect backwards *)
  w_reverse k d eid st : ofSaga s sid k d → d_Direction d = DirectionCompensation →
    stepAt s sid eid = Some st → d_Sequence d < st_Sequence st → st_State st = StepSucceeded →
    st_CompensationVerb st = "";
  w_single k d k' d' : ofSaga s sid k d → ofSaga s sid k' d' →
    d_Direction d = DirectionCompensation → d_Direction d' = DirectionCompensation →
    d_State d ≠ DispatchSucceeded → d_State d' ≠ DispatchSucceeded → k = k' }.

(** ** One saga: what its state promises *)
Definition phaseOf (dir : Direction) : SagaState :=
  match dir with DirectionForward => SagaRunning | DirectionCompensation => SagaCompensating end.

(** Neither an unknown nor a fenced-off effect. *)
Definition knownState (x : DispatchState) : bool :=
  match x with DispatchBlockedUnknown | DispatchBlockedFence => false | _ => true end.

Record state_inv (s : InMemoryOutboxStore) (sid : string) (S : SagaState) : Prop := {
  z_nocomp k d : ofSaga s sid k d → d_Direction d = DirectionCompensation → S ≠ SagaRunning ∧ S ≠ SagaCompleted;
  z_active k d : ofSaga s sid k d → pendingState (d_State d) = true →
    d_State d ≠ DispatchQueued ∨ d_Direction d = DirectionCompensation → S = phaseOf (d_Direction d);
  z_running k d : S = SagaRunning → ofSaga s sid k d →
    d_State d = DispatchSucceeded ∨ pendingState (d_State d) = true;
  z_completed k d : S = SagaCompleted → ofSaga s sid k d → d_State d = DispatchSucceeded;
  z_compensated eid st : S = SagaCompensated → stepAt s sid eid = Some st → st_State st ≠ StepSucceeded;
  (** compensation only runs while every outcome is known *)
  z_known k d : S = SagaCompensating ∨ S = SagaCompensated → ofSaga s sid k d → knownState (d_State d) = true }.

Record store_inv (s : InMemoryOutboxStore) : Prop := {
  inv_static : static_inv s;
  inv_disp k d : os_dispatches s !! k = Some d → disp_inv d (attemptsOf s k);
  inv_struct sid sg : os_sagas s !! sid = Some sg → struct_inv s sid;
  inv_state sid sg : os_sagas s !! sid = Some sg → state_inv s sid (sg_State sg) }.

(** ** Identities are unique *)
Lemma disp_unique s k k' d d' : static_inv s → os_dispatches s !! k = Some d → os_dispatches s !! k' = Some d' →
  d_SagaID d = d_SagaID d' → d_EffectID d = d_EffectID d' → d_Direction d = d_Direction d' → k = k'.
Proof.
  intros Hs H H' E1 E2 E3. apply (si_disp _ Hs) in H as (_ & -> & sg & _ & Hsg & _ & _ & ->).
  apply (si_disp _ Hs) in H' as (_ & -> & sg' & _ & Hsg' & _ & _ & ->). rewrite E1 in Hsg. simplify_eq.
  by rewrite E1, E2, E3.
Qed.
Lemma disp_step s k d : static_inv s → os_dispatches s !! k = Some d →
  ∃ st, stepAt s (d_SagaID d) (d_EffectID d) = Some st ∧ d_Sequence d = st_Sequence st.
Proof. intros Hs H. apply (si_disp _ Hs) in H as (_ & _ & _ & st & _ & Hst & (? & _) & _). eauto. Qed.
Lemma disp_saga s k d : static_inv s → os_dispatches s !! k = Some d → is_Some (os_sagas s !! d_SagaID d).
Proof. intros Hs H. apply (si_disp _ Hs) in H as (_ & _ & sg & _ & ? & _). eauto. Qed.
Lemma disp_seq_unique s k k' d d' sid : static_inv s → ofSaga s sid k d → ofSaga s sid k' d' →
  d_Direction d = d_Direction d' → d_Sequence d = d_Sequence d' → k = k'.
Proof.
  intros Hs [H <-] [H' E] Ed Es. destruct (disp_step _ _ _ Hs H) as (st & Hst & Q), (disp_step _ _ _ Hs H') as (st' & Hst' & Q').
  eapply disp_unique; eauto. rewrite E in Hst'. eapply (si_seq _ Hs); eauto. congruence.
Qed.

(** ** Frame *)
Record same_saga (s s' : InMemoryOutboxStore) (sid : string) : Prop := {
  sm_steps : stepsOf s' sid = stepsOf s sid;
  sm_disp k d : ofSaga s' sid k d ↔ ofSaga s sid k d;
  sm_atts k d : ofSaga s sid k d → attemptsOf s' k = attemptsOf s k }.

Lemma struct_frame s s' sid : same_saga s s' sid → struct_inv s sid → struct_inv s' sid.
Proof.
  intros [E1 E2 E3] [H1 H2 H3 H4 H5]. split; unfold stepAt in *; rewrite ?E1; setoid_rewrite E2; try done.
  intros k d k' d' K K'. rewrite (E3 _ _ K). exact (H1 _ _ _ _ K K').
Qed.
Lemma state_frame s s' sid S : same_saga s s' sid → state_inv s sid S → state_inv s' sid S.
Proof.
  intros [E1 E2 E3] [H1 H2 H3 H4 H5 H6]. split; unfold stepAt in *; rewrite ?E1; try setoid_rewrite E2; done.
Qed.

(** ** Updating one dispatch and its step *)
Record updates (s s' : InMemoryOutboxStore) (k : string) (d d' : Dispatch) (st st' : SagaStep) : Prop := {
  up_old : os_dispatches s !! k = Some d;
  up_disp : os_dispatches s' = <[k := d']> (os_dispatches s);
  up_step : stepAt s (d_SagaID d) (d_EffectID d) = Some st;
  up_steps : stepsOf s' (d_SagaID d) = <[d_EffectID d := st']> (stepsOf s (d_SagaID d));
  up_others sid : sid ≠ d_SagaID d → stepsOf s' sid = stepsOf s sid;
  up_atts k' : k' ≠ k → attemptsOf s' k' = attemptsOf s k';
  up_dcore : d_core d' = d_core d;
  up_stcore : st_core st' = st_core st }.

Lemma updates_disp s s' k d d' st st' k1 d1 : updates s s' k d d' st st' → os_dispatches s' !! k1 = Some d1 →
  (k1 = k ∧ d1 = d') ∨ (k1 ≠ k ∧ os_dispatches s !! k1 = Some d1).
Proof. intros [_ -> _ _ _ _ _ _] [[-> ->]|[? ?]]%lookup_insert_Some; auto. Qed.
Lemma updates_step s s' k d d' st st' eid st1 : updates s s' k d d' st st' →
  stepAt s' (d_SagaID d) eid = Some st1 →
  (eid = d_EffectID d ∧ st1 = st') ∨ (eid ≠ d_EffectID d ∧ stepAt s (d_SagaID d) eid = Some st1).
Proof. intros [_ _ _ E _ _ _ _]. unfold stepAt. rewrite E. intros [[-> ->]|[? ?]]%lookup_insert_Some; auto. Qed.

Lemma updates_frame s s' k d d' st st' sid : updates s s' k d d' st st' → sid ≠ d_SagaID d → same_saga s s' sid.
Proof.
  intros U Hne. destruct U as [U1 U2 U3 U4 U5 U6 U7 U8]. use_core. split; [by apply U5| |].
  - intros k1 d1. unfold ofSaga. rewrite U2. split; intros [L <-]; split; try done.
    + apply lookup_insert_Some in L as [[-> ->]|[_ L]]; [congruence|done].
    + rewrite lookup_insert_ne; [done|]. intros ->. simplify_eq.
  - intros k1 d1 [L <-]. apply U6. intros ->. simplify_eq.
Qed.

(** What an update must respect for the plan-order and coupling invariants to survive. *)
Record keeps (s s' : InMemoryOutboxStore) (k : string) (d d' : Dispatch) (st st' : SagaStep) : Prop := {
  kp_order k1 d1 : ofSaga s (d_SagaID d) k1 d1 → d_Direction d = DirectionForward →
    d_Direction d1 = DirectionForward → attemptsOf s' k ≠ [] → d_Sequence d1 < d_Sequence d →
    d_State d1 = DispatchSucceeded;
  kp_succ : d_State d = DispatchSucceeded → d_State d' = DispatchSucceeded;
  kp_couple : couple d' st';
  kp_couple_other k1 d1 : k1 ≠ k → ofSaga s (d_SagaID d) k1 d1 → d_EffectID d1 = d_EffectID d → couple d1 st';
  kp_undone : st_State st' = StepCompensated → st_State st = StepCompensated ∨ d_Direction d = DirectionCompensation;
  kp_reverse : st_State st' = StepSucceeded → st_State st = StepSucceeded ∨
    (∀ k1 d1, ofSaga s (d_SagaID d) k1 d1 → d_Direction d1 ≠ DirectionCompensation) }.

Lemma struct_update s s' k d d' st st' : updates s s' k d d' st st' → keeps s s' k d d' st st' →
  struct_inv s (d_SagaID d) → struct_inv s' (d_SagaID d).
Proof.
  intros U K [H1 H2 H3 H4 H5]. pose proof U as [U1 U2 U3 U4 U5 U6 U7 U8]. destruct K as [K1 K2 K3 K4 K5 K6].
  assert (Hold : ofSaga s (d_SagaID d) k d) by done.
  assert (Hnew : ofSaga s' (d_SagaID d) k d').
  { split; [by rewrite U2, lookup_insert_eq|]. by use_core. }
  split.
  - intros k1 d1 k2 d2 [L1 E1] [L2 E2] F1 F2 A Q. use_core.
    apply (updates_disp _ _ _ _ _ _ _ _ _ U) in L1 as [[-> ->]|[N1 L1]], L2 as [[-> ->]|[N2 L2]].
    + lia.
    + eapply K1; [done| |done|done|]; congruence.
    + apply K2. rewrite U6 in A by done. eapply (H1 k1 d1 k d); try done; congruence.
    + rewrite U6 in A by done. by eapply (H1 k1 d1 k2 d2).
  - intros k1 d1 st1 [L1 E1] Hst1.
    destruct (updates_disp _ _ _ _ _ _ _ _ _ U L1) as [[-> ->]|[N1 L1']],
      (updates_step _ _ _ _ _ _ _ _ _ U Hst1) as [[E ->]|[N Hst]].
    + done.
    + use_core. congruence.
    + by eapply K4.
    + by eapply H2.
  - intros eid st1 Hst1 C. destruct (updates_step _ _ _ _ _ _ _ _ _ U Hst1) as [[-> ->]|[N Hst]].
    + destruct (K5 C) as [C'|C'].
      * destruct (H3 _ _ U3 C') as (k1 & d1 & [L1 E1] & E2 & E3). destruct (decide (k1 = k)) as [->|].
        -- exists k, d'. simplify_eq. split; [done|]. use_core. split; congruence.
        -- exists k1, d1. split; [|done]. split; [|done]. by rewrite U2, lookup_insert_ne.
      * exists k, d'. split; [done|]. use_core. split; congruence.
    + destruct (H3 _ _ Hst C) as (k1 & d1 & [L1 E1] & E2 & E3). destruct (decide (k1 = k)) as [->|].
      * simplify_eq.
      * exists k1, d1. split; [|done]. split; [|done]. by rewrite U2, lookup_insert_ne.
  - intros k1 d1 eid st1 [L1 E1] F1 Hst1 Q C.
    assert (∃ d2, ofSaga s (d_SagaID d) k1 d2 ∧ d_Direction d2 = DirectionCompensation ∧ d_Sequence d2 = d_Sequence d1)
      as (d2 & D1 & D2 & D3).
    { apply (updates_disp _ _ _ _ _ _ _ _ _ U) in L1 as [[-> ->]|[N1 L1]]; [exists d|exists d1]; use_core;
        repeat split; congruence. }
    destruct (updates_step _ _ _ _ _ _ _ _ _ U Hst1) as [[-> ->]|[N Hst]].
    + destruct (K6 C) as [C'|C']; [|by destruct (C' k1 d2)]. use_core.
      transitivity (st_CompensationVerb st); [congruence|]. eapply H4; eauto. lia.
    + eapply H4; eauto. lia.
  - intros k1 d1 k2 d2 [L1 E1] [L2 E2] F1 F2 N1 N2. use_core.
    assert (∀ k1 d1, os_dispatches s' !! k1 = Some d1 → d_SagaID d1 = d_SagaID d →
      d_Direction d1 = DirectionCompensation → d_State d1 ≠ DispatchSucceeded →
      ∃ d0, ofSaga s (d_SagaID d) k1 d0 ∧ d_Direction d0 = DirectionCompensation ∧ d_State d0 ≠ DispatchSucceeded) as Hb.
    { intros k0 d0 L0 E0 F0 N0.
      apply (updates_disp _ _ _ _ _ _ _ _ _ U) in L0 as [[-> ->]|[M L0]]; [exists d|by exists d0].
      repeat split; [done|congruence|naive_solver]. }
    destruct (Hb _ _ L1 E1 F1 N1) as (? & ? & ? & ?), (Hb _ _ L2 E2 F2 N2) as (? & ? & ? & ?). eauto.
Qed.

(** ** Closing dispatches in place *)

(** Pending work becomes canceled or unknown; everything else stays. *)
Definition closes (d d' : Dispatch) : Prop :=
  d_core d' = d_core d ∧
  (d' = d ∨ (pendingState (d_State d) = true ∧
             (d_State d' = DispatchCanceled ∨ d_State d' = DispatchBlockedUnknown))).

Lemma closes_succ d d' : closes d d' → d_State d' = DispatchSucceeded ↔ d_State d = DispatchSucceeded.
Proof.
  intros [_ [->|[H1 H2]]]; [done|]. destruct H2 as [H2|H2]; rewrite H2; split; intros E; try done; by rewrite E in H1.
Qed.
Lemma closes_couple d d' st : closes d d' → couple d st → couple d' st.
Proof.
  intros [C [->|[H1 H2]]] K; [done|]. use_core. unfold couple in *. replace (d_Direction d') with (d_Direction d) by done.
  destruct (d_Direction d), (d_State d), (st_State st); cbn in H1; try discriminate H1; destruct H2 as [H2|H2]; rewrite H2;
    first [done | intuition congruence].
Qed.

Section Closing.
  Context (s : InMemoryOutboxStore) (f : Dispatch → Dispatch) (Hf : ∀ d, closes d (f d)).
Let s' := s <| os_dispatches := f <$> os_dispatches s |>.

Lemma closing_ofSaga sid k d' : ofSaga s' sid k d' ↔ ∃ d, ofSaga s sid k d ∧ d' = f d.
Proof.
    unfold ofSaga, s'. cbn. rewrite lookup_fmap, fmap_Some. split.
    - intros [(d & L & ->) E]. exists d. destruct (Hf d) as [C _]. use_core. repeat split; congruence.
    - intros (d & [L <-] & ->). destruct (Hf d) as [C _]. use_core. split; [by exists d|congruence].
  Qed.

Lemma struct_closing sid : struct_inv s sid → struct_inv s' sid.
Proof.
    assert (Hcore : ∀ d, d_Direction (f d) = d_Direction d ∧ d_Sequence (f d) = d_Sequence d ∧ d_EffectID (f d) = d_EffectID d).
    { intros d. destruct (Hf d) as [C _]. by use_core. }
    assert (Hnot : ∀ d, d_State (f d) ≠ DispatchSucceeded ↔ d_State d ≠ DispatchSucceeded).
    { intros d. by rewrite closes_succ. }
    intros [H1 H2 H3 H4 H5]. split.
    - intros k d k' d' (d1 & D & ->)%closing_ofSaga (d2 & D' & ->)%closing_ofSaga.
      destruct (Hcore d1) as (-> & -> & _), (Hcore d2) as (-> & -> & _). intros. apply (closes_succ _ _ (Hf d2)). by eapply (H1 k d1 k' d2).
    - intros k d st (d1 & D & ->)%closing_ofSaga. destruct (Hcore d1) as (_ & _ & ->). intros. eapply closes_couple; eauto.
    - intros eid st Hst C. destruct (H3 _ _ Hst C) as (k & d & D & E & F). exists k, (f d).
      rewrite closing_ofSaga. destruct (Hcore d) as (-> & _ & ->). eauto.
    - intros k d eid st (d1 & D & ->)%closing_ofSaga. destruct (Hcore d1) as (-> & -> & _). apply (H4 _ _ _ _ D).
    - intros k d k' d' (d1 & D & ->)%closing_ofSaga (d2 & D' & ->)%closing_ofSaga. rewrite !Hnot.
      destruct (Hcore d1) as (-> & _), (Hcore d2) as (-> & _). apply (H5 _ _ _ _ D D').
  Qed.
End Closing.

(** ** A new compensation dispatch *)
Lemma struct_new_compensation s sid k d st :
  struct_inv s sid → os_dispatches s !! k = None → attemptsOf s k = [] →
  d_SagaID d = sid → d_Direction d = DirectionCompensation → d_State d = DispatchQueued →
  stepAt s sid (d_EffectID d) = Some st → st_State st = StepSucceeded →
  (∀ eid st', stepAt s sid eid = Some st' → d_Sequence d < st_Sequence st' → st_State st' = StepSucceeded →
     st_CompensationVerb st' = "") →
  (∀ k' d', ofSaga s sid k' d' → d_Direction d' = DirectionCompensation → d_State d' = DispatchSucceeded) →
  struct_inv (putDispatch k d s) sid.
Proof.
  intros [H1 H2 H3 H4 H5] Hk Ha Hsid Hdir Hq Hst Hsucc Hrev Hall.
  assert (Hof : ∀ k1 d1, ofSaga (putDispatch k d s) sid k1 d1 → (k1 = k ∧ d1 = d) ∨ ofSaga s sid k1 d1).
  { intros k1 d1 [L E]. cbn in L. apply lookup_insert_Some in L as [[<- <-]|[_ L]]; [by left|by right]. }
  split.
  - intros k1 d1 k2 d2 [[-> ->]|D1]%Hof [[-> ->]|D2]%Hof; [intros; congruence..|]. exact (H1 _ _ _ _ D1 D2).
  - intros k1 d1 st1 [[-> ->]|D1]%Hof L; [|by eapply H2]. unfold couple. rewrite Hdir, Hq.
    change (stepAt s sid (d_EffectID d) = Some st1) in L. by simplify_eq.
  - intros eid st1 L C. destruct (H3 _ _ L C) as (k1 & d1 & [D E] & R). exists k1, d1. split; [|done]. split; [|done].
    cbn. rewrite lookup_insert_ne; [done|congruence].
  - intros k1 d1 eid st1 [[-> ->]|D1]%Hof; [eauto|]. exact (H4 _ _ _ _ D1).
  - intros k1 d1 k2 d2 [[-> ->]|D1]%Hof [[-> ->]|D2]%Hof; intros; [done|exfalso..|by eapply H5]; eauto.
Qed.

(** ** A new forward step with its dispatch *)
Lemma struct_new_step s s' sid eid k d st :
  static_inv s → struct_inv s sid → os_dispatches s !! k = None → stepAt s sid eid = None →
  os_dispatches s' = <[k := d]> (os_dispatches s) → stepsOf s' sid = <[eid := st]> (stepsOf s sid) →
  (∀ k', attemptsOf s' k' = attemptsOf s k') → attemptsOf s k = [] →
  d_SagaID d = sid → d_EffectID d = eid → d_Direction d = DirectionForward → d_State d = DispatchQueued →
  st_State st = StepPending → (∀ eid' st', stepAt s sid eid' = Some st' → st_Sequence st' < d_Sequence d) →
  struct_inv s' sid.
Proof.
  intros Hs [H1 H2 H3 H4 H5] Hk He Ed Et Ea Hak Hsid Heid Hdir Hq Hp Hmax.
  assert (Hof : ∀ k1 d1, ofSaga s' sid k1 d1 → (k1 = k ∧ d1 = d) ∨ ofSaga s sid k1 d1).
  { intros k1 d1 [L E]. rewrite Ed in L. apply lookup_insert_Some in L as [[<- <-]|[_ L]]; [by left|by right]. }
  assert (Hstep : ∀ e1 st1, stepAt s' sid e1 = Some st1 → (e1 = eid ∧ st1 = st) ∨ (stepAt s sid e1 = Some st1 ∧ e1 ≠ eid)).
  { intros e1 st1. unfold stepAt. rewrite Et. intros [[<- <-]|[? L]]%lookup_insert_Some; auto. }
  split.
  - intros k1 d1 k2 d2 [[-> ->]|D1]%Hof [[-> ->]|D2]%Hof; rewrite ?Ea; intros A1 A2 A3 A4.
    + lia.
    + by rewrite Hak in A3.
    + destruct D1 as [L E]. destruct (disp_step _ _ _ Hs L) as (st1 & Hst1 & Q). rewrite E in Hst1.
      apply Hmax in Hst1. lia.
    + by eapply (H1 k1 d1 k2 d2).
  - intros k1 d1 st1 [[-> ->]|D1]%Hof [[E ->]|[L N]]%Hstep.
    + unfold couple. rewrite Hdir, Hp, Hq. done.
    + congruence.
    + destruct D1 as [L1 E1]. destruct (disp_step _ _ _ Hs L1) as (? & ? & _). congruence.
    + by eapply H2.
  - intros e1 st1 [[-> ->]|[L N]]%Hstep C; [congruence|]. destruct (H3 _ _ L C) as (k1 & d1 & [D E] & R).
    exists k1, d1. split; [|done]. split; [|done]. rewrite Ed, lookup_insert_ne; [done|congruence].
  - intros k1 d1 e1 st1 [[-> ->]|D1]%Hof; [intros; congruence|]. intros F [[-> ->]|[L N]]%Hstep Q C; [congruence|]. by eapply H4.
  - intros k1 d1 k2 d2 [[-> ->]|D1]%Hof [[-> ->]|D2]%Hof; [intros; congruence..|]. by eapply H5.
Qed.
