(* ===== verification/OutboxOps.v ===== *)
(** * Every outbox operation preserves the store invariant

    One lemma per operation of [Outbox.v], from the elementary updates of
    [OutboxDyn.v]. The reachable stores are those a sequence of successful
    operations builds from the empty store; all of them satisfy [store_inv]. *)

From S2P Require Import Prelude GoText Sha256 Json Workflow Identity Outbox OutboxInv OutboxDyn.
From Stdlib Require Import ZArith String.
Local Open Scope list_scope.
Local Open Scope Z_scope.

(** ** Identities survive new entries *)
Lemma static_new_saga s k sg : static_inv s → os_sagas s !! k = None → sg_SagaID sg = k → sg_Serial sg = true →
  static_inv (putSaga k sg s <| os_steps := <[k := ∅]> (os_steps s) |>).
Proof.
  intros [Hsg Hst Hseq Hd Hf Ha] Hk Ek Es.
  set (s' := putSaga k sg s <| os_steps := <[k := ∅]> (os_steps s) |>).
  assert (Hnone : stepsOf s k = ∅).
  { apply map_eq. intros eid. rewrite lookup_empty. apply eq_None_not_Some. intros [st L].
    apply (Hst k) in L as [[? E] _]. congruence. }
  assert (Ho : ∀ sid, stepsOf s' sid = stepsOf s sid).
  { intros sid. unfold stepsOf at 1, s'. cbn. destruct (decide (sid = k)) as [->|].
    - by rewrite lookup_insert_eq, Hnone.
    - by rewrite lookup_insert_ne. }
  assert (Hin : ∀ sid sg1, os_sagas s !! sid = Some sg1 → os_sagas s' !! sid = Some sg1).
  { intros sid sg1 L. cbn. rewrite lookup_insert_ne; [done|congruence]. }
  split; unfold stepAt in *; try (setoid_rewrite Ho).
  - intros k1 sg1. cbn. intros [[<- <-]|[N L]]%lookup_insert_Some.
    + rewrite lookup_insert_eq. eauto.
    + rewrite lookup_insert_ne by done. eauto.
  - intros sid eid st L. destruct (Hst _ _ _ L) as ([sg1 ?] & ?). split; [|done]. eauto.
  - done.
  - intros k1 d L. destruct (Hd _ _ L) as (? & ? & sg1 & st & ? & ? & ? & ?). split; [done|]. split; [done|].
    exists sg1, st. eauto.
  - done.
  - done.
Qed.

Lemma static_new_disp s k d sg st : static_inv s → os_dispatches s !! k = None →
  d_ID d = k → k = dispatchIDOf (d_IdempotencyKey d) → os_sagas s !! d_SagaID d = Some sg →
  stepAt s (d_SagaID d) (d_EffectID d) = Some st → carries d st →
  d_IdempotencyKey d = IdempotencyKey (sg_Namespace sg) (d_SagaID d) (d_EffectID d) (d_Direction d) →
  static_inv (putDispatch k d s).
Proof.
  intros [Hsg Hst Hseq Hd Hf Ha] Hk E1 E2 Hs Ht Hc Hi. split; try done.
  - intros k1 d1. cbn. intros [[<- <-]|[N L]]%lookup_insert_Some; [|by apply Hd].
    split; [done|]. split; [done|]. by exists sg, st.
  - intros sid eid st1 L. destruct (Hf _ _ _ L) as (k1 & d1 & L1 & R). exists k1, d1. split; [|done].
    cbn. rewrite lookup_insert_ne; [done|congruence].
  - intros k1 l L. cbn. destruct (Ha _ _ L) as [d1 L1]. destruct (decide (k1 = k)) as [->|].
    + rewrite lookup_insert_eq. eauto.
    + rewrite lookup_insert_ne by done. eauto.
Qed.

(** A step and its forward dispatch enter together. *)
Lemma static_new_step s sid eid st k d sg : static_inv s → os_dispatches s !! k = None →
  stepAt s sid eid = None → os_sagas s !! sid = Some sg →
  d_ID d = k → k = dispatchIDOf (d_IdempotencyKey d) → d_SagaID d = sid → d_EffectID d = eid →
  d_Direction d = DirectionForward → carries d st →
  d_IdempotencyKey d = IdempotencyKey (sg_Namespace sg) sid eid DirectionForward →
  st_SagaID st = sid → st_EffectID st = eid → st_Sequence st = Z.of_nat (size (stepsOf s sid)) + 1 →
  static_inv (putDispatch k d (putStep sid eid st s)).
Proof.
  intros [Hsg Hst Hseq Hd Hf Ha] Hk Hn Hs E1 E2 E3 E4 E5 Hc Hi S1 S2 S3.
  set (s' := putDispatch k d (putStep sid eid st s)).
  assert (Eo : stepsOf s' sid = <[eid := st]> (stepsOf s sid)).
  { unfold stepsOf at 1. cbn. by rewrite lookup_insert_eq. }
  assert (En : ∀ sid', sid' ≠ sid → stepsOf s' sid' = stepsOf s sid').
  { intros sid' N. unfold stepsOf at 1. cbn. by rewrite lookup_insert_ne. }
  assert (Hinv : ∀ sid' e st', stepAt s' sid' e = Some st' →
     (sid' = sid ∧ e = eid ∧ st' = st) ∨ (stepAt s sid' e = Some st' ∧ (sid' = sid → e ≠ eid))).
  { intros sid' e st'. unfold stepAt. destruct (decide (sid' = sid)) as [->|N].
    - rewrite Eo. intros [[<- <-]|[N L]]%lookup_insert_Some; auto.
    - rewrite En by done. auto. }
  assert (Hkeep : ∀ sid' e st', stepAt s sid' e = Some st' → stepAt s' sid' e = Some st').
  { intros sid' e st' L. unfold stepAt. destruct (decide (sid' = sid)) as [->|N].
    - rewrite Eo, lookup_insert_ne; [done|]. congruence.
    - by rewrite En. }
  assert (Hsize : size (stepsOf s' sid) = S (size (stepsOf s sid))).
  { rewrite Eo. by apply map_size_insert_None. }
  split.
  - intros k1 sg1 L. destruct (Hsg _ _ L) as (? & ? & Hm). split; [done|]. split; [done|].
    cbn. destruct (decide (k1 = sid)) as [->|]; [rewrite lookup_insert_eq|rewrite lookup_insert_ne by done]; eauto.
  - intros sid' e st' [(-> & -> & ->)|[L _]]%Hinv.
    + rewrite Hsize. repeat split; eauto; lia.
    + destruct (Hst _ _ _ L) as (? & ? & ? & Q). repeat split; try done; [lia|].
      destruct (decide (sid' = sid)) as [->|]; [|rewrite En by done; lia]. rewrite Hsize. lia.
  - intros sid' e e' st1 st2 [(-> & -> & ->)|[L1 N1]]%Hinv [(? & -> & ->)|[L2 N2]]%Hinv Q; [done|..].
    + destruct (Hst _ _ _ L2). lia.
    + subst. destruct (Hst _ _ _ L1). lia.
    + by eapply Hseq.
  - intros k1 d1. cbn. intros [[<- <-]|[N L]]%lookup_insert_Some.
    + split; [done|]. split; [done|]. exists sg, st. rewrite E3, E4, E5. repeat split; try done; try apply Hc.
      unfold stepAt. by rewrite Eo, lookup_insert_eq.
    + destruct (Hd _ _ L) as (? & ? & sg1 & st1 & ? & ? & ?). repeat split; try done. exists sg1, st1. eauto.
  - intros sid' e st' [(-> & -> & ->)|[L _]]%Hinv.
    + exists k, d. cbn. by rewrite lookup_insert_eq.
    + destruct (Hf _ _ _ L) as (k1 & d1 & L1 & R). exists k1, d1. split; [|done].
      cbn. rewrite lookup_insert_ne; [done|congruence].
  - intros k1 l L. cbn. destruct (Ha _ _ L) as [d1 L1]. destruct (decide (k1 = k)) as [->|].
    + rewrite lookup_insert_eq. eauto.
    + rewrite lookup_insert_ne by done. eauto.
Qed.

(** ** Attempt lists *)
Lemma updateLast_snoc f l a : updateLast f (l ++ [a]) = l ++ [f a].
Proof.
  unfold updateLast. rewrite length_app, Nat.add_1_r. cbn [pred].
  rewrite alter_app_r_alt by lia. by rewrite Nat.sub_diag.
Qed.
Lemma priorAttemptsFrom_snoc i l a cur : priorAttemptsFrom i (l ++ [a]) cur =
  priorAttemptsFrom i l cur && bool_decide (at_Attempt a = u64 (i + Z.of_nat (List.length l) + 1))
  && (bool_decide (at_Attempt a = cur)
      || negb (timeIsZero (at_CompletedAt a) || bool_decide (at_Outcome a ≠ OutcomeRetryableKnownNotCommitted))).
Proof.
  revert i. induction l as [|b l IH]; intros i; cbn [app priorAttemptsFrom List.length].
  - rewrite Z.add_0_r, bool_decide_not. cbn [negb andb].
    destruct (bool_decide (at_Attempt a = u64 (i + 1))); [|done]. cbn. destruct (bool_decide (at_Attempt a = cur)); [done|].
    cbn. by destruct (timeIsZero _ || _).
  - rewrite IH. replace (i + 1 + Z.of_nat (List.length l)) with (i + Z.of_nat (S (List.length l))) by lia.
    destruct (bool_decide (at_Attempt b ≠ _)); [done|]. destruct (bool_decide (at_Attempt b = _)); [done|].
    by destruct (timeIsZero (at_CompletedAt b) || _).
Qed.
Lemma prior_snoc_current f l a cur : at_Attempt a = cur → at_Attempt (f a) = at_Attempt a →
  priorAttemptsKnownNotCommitted (l ++ [f a]) cur = priorAttemptsKnownNotCommitted (l ++ [a]) cur.
Proof.
  intros E Ef. unfold priorAttemptsKnownNotCommitted. rewrite !length_app, !priorAttemptsFrom_snoc, Ef, E. cbn [List.length].
  rewrite (bool_decide_eq_true_2 (cur = cur)) by done. done.
Qed.

(** ** One dispatch under each operation *)
Lemma disp_inv_last d atts : disp_inv d atts → d_State d ≠ DispatchQueued → d_State d ≠ DispatchCanceled →
  ∃ l a, atts = l ++ [a] ∧ at_Attempt a = d_Attempt d ∧ at_DispatchID a = d_ID d.
Proof.
  intros H N1 N2. destruct (exists_last (di_started _ _ H N1 N2)) as (l & a & ->). exists l, a. split; [done|].
  destruct (di_number _ _ H (List.length l) a) as [E ->]; [by rewrite lookup_app_r, Nat.sub_diag by lia|].
  rewrite (di_count _ _ H), E, length_app. cbn [List.length]. split; [|done]. f_equal. lia.
Qed.
Lemma lookup_snoc_Some' {A} (l : list A) x i y :
  (l ++ [x]) !! i = Some y ↔ l !! i = Some y ∨ (i = List.length l ∧ x = y).
Proof.
  rewrite lookup_snoc_Some. split; intros [H|H]; auto; left; [tauto|]. split; [|done]. by eapply lookup_lt_Some.
Qed.

Lemma disp_inv_new d : d_Attempt d = 0 → d_State d = DispatchQueued → d_LeaseOwner d = "" → d_LeaseToken d = "" →
  d_LeaseDeadline d = zeroTime → disp_inv d [].
Proof. intros E1 E2 E3 E4 E5. split; try (by rewrite E2; intros [] || done); try done; try naive_solver congruence. Qed.

Lemma disp_inv_claim d d' atts a : disp_inv d atts → pendingState (d_State d) = true →
  d_ID d' = d_ID d → d_State d' = DispatchInFlight → d_Attempt d' = u64_inc (d_Attempt d) →
  at_DispatchID a = d_ID d → at_Attempt a = d_Attempt d' → at_LeaseOwner a = d_LeaseOwner d' →
  at_LeaseToken a = d_LeaseToken d' → at_LeaseDeadline a = d_LeaseDeadline d' →
  at_FencingGrants a = d_FencingGrants d' → at_Outcome a = OutcomeOther "" → at_CompletedAt a = zeroTime →
  disp_inv d' (atts ++ [a]).
Proof.
  intros H P E1 E2 E3 A1 A2 A3 A4 A5 A6 A7 A8.
  assert (En : d_Attempt d' = u64 (Z.of_nat (List.length atts) + 1)) by (by rewrite E3, (di_count _ _ H), u64_inc_u64).
  split; rewrite ?E1, ?E2.
  - rewrite En, length_app. cbn [List.length]. f_equal. lia.
  - intros i b [L|[-> <-]]%lookup_snoc_Some'; [by apply (di_number _ _ H)|]. by rewrite A2, En.
  - done.
  - intros _ _ E. by apply app_eq_nil in E as [_ ?].
  - intros _. exists a. by rewrite last_snoc.
  - done.
  - by intros [].
  - intros i b [L|[-> <-]]%lookup_snoc_Some' O; [|congruence]. apply (di_success _ _ H) in L as [E _]; [|done].
    by rewrite E in P.
  - done.
  - intros i b _ [L|[-> <-]]%lookup_snoc_Some'; [by eapply (di_open _ _ H)|]. right. by right.
  - done.
  - done.
Qed.

Lemma disp_inv_grants d d' atts g : disp_inv d atts → d_State d = DispatchInFlight →
  d_ID d' = d_ID d → d_State d' = DispatchInFlight → d_Attempt d' = d_Attempt d → d_LeaseOwner d' = d_LeaseOwner d →
  d_LeaseToken d' = d_LeaseToken d → d_LeaseDeadline d' = d_LeaseDeadline d → d_FencingGrants d' = g →
  disp_inv d' (updateLast (λ a, a <| at_FencingGrants := g |>) atts).
Proof.
  intros H P E1 E2 E3 E4 E5 E6 E7.
  destruct (disp_inv_last _ _ H) as (l & a & -> & A1 & A2); [by rewrite P..|]. rewrite updateLast_snoc.
  destruct H as [H1 H2 H3 H4 H5 H6 H7 H8 H9 H10 H11 H12]. split; rewrite ?E1, ?E2, ?E3.
  - rewrite H1. by rewrite !length_app.
  - intros i b [L|[-> <-]]%lookup_snoc_Some'; [apply H2; apply lookup_snoc_Some'; by left|].
    apply (H2 (List.length l) a). apply lookup_snoc_Some'. by right.
  - done.
  - intros _ _ E. by apply app_eq_nil in E as [_ ?].
  - intros _. destruct (H5 P) as (b & L & B). rewrite last_snoc in *. simplify_eq. eexists. split; [done|]. cbn.
    rewrite E4, E5, E6. tauto.
  - done.
  - by intros [].
  - intros i b [L|[-> <-]]%lookup_snoc_Some' O.
    + destruct (H8 i b) as [E _]; [apply lookup_snoc_Some'; by left|done|]. congruence.
    + destruct (H8 (List.length l) a) as [E _]; [apply lookup_snoc_Some'; by right|done|]. congruence.
  - done.
  - intros i b _ [L|[-> <-]]%lookup_snoc_Some'.
    + eapply (H10 i); [by rewrite P|]. apply lookup_snoc_Some'. by left.
    + apply (H10 (List.length l) a); [by rewrite P|]. apply lookup_snoc_Some'. by right.
  - done.
  - done.
Qed.

Lemma disp_inv_complete d d' atts f : disp_inv d atts → d_State d = DispatchInFlight →
  (∀ a, at_Attempt (f a) = at_Attempt a ∧ at_DispatchID (f a) = at_DispatchID a) →
  (∀ a, at_Outcome (f a) = OutcomeSuccess ↔ d_State d' = DispatchSucceeded) →
  d_ID d' = d_ID d → pendingState (d_State d') = true ∧ d_State d' = DispatchRetryWait ∨
    pendingState (d_State d') = false ∧ d_State d' ≠ DispatchCanceled →
  d_Attempt d' = d_Attempt d → d_LeaseOwner d' = "" → d_LeaseToken d' = "" → d_LeaseDeadline d' = zeroTime →
  (d_State d' = DispatchFailedPermanent ∨ d_State d' = DispatchBlockedFence →
     priorAttemptsKnownNotCommitted atts (d_Attempt d) = true) →
  (d_State d' = DispatchRetryWait → ∀ a, openAttempt (f a)) →
  (d_State d' = DispatchFailedPermanent → ∀ a,
     at_Outcome (f a) = OutcomeRetryableKnownNotCommitted ∨ at_Outcome (f a) = OutcomePermanentFailure) →
  disp_inv d' (updateLast f atts).
Proof.
  intros H P Hf Ho E1 E2 E3 E4 E5 E6 E7 E8 E9.
  destruct (disp_inv_last _ _ H) as (l & a & -> & A1 & A2); [by rewrite P..|]. rewrite updateLast_snoc.
  assert (d_State d' ≠ DispatchInFlight ∧ d_State d' ≠ DispatchQueued) as [N1 N2].
  { destruct E2 as [[_ ->]|[E2 _]]; [done|]. by split; intros E; rewrite E in E2. }
  destruct H as [H1 H2 H3 H4 H5 H6 H7 H8 H9 H10 H11 H12]. destruct (Hf a) as [F1 F2]. split; rewrite ?E1, ?E3; try done.
  - rewrite H1. by rewrite !length_app.
  - intros i b [L|[-> <-]]%lookup_snoc_Some'; [apply H2; apply lookup_snoc_Some'; by left|].
    rewrite F1, F2. apply (H2 (List.length l) a). apply lookup_snoc_Some'. by right.
  - intros _ _ E. by apply app_eq_nil in E as [_ ?].
  - intros E. rewrite prior_snoc_current by congruence. auto.
  - intros i b [L|[-> <-]]%lookup_snoc_Some' O.
    + destruct (H8 i b) as [E _]; [apply lookup_snoc_Some'; by left|done|]. congruence.
    + rewrite length_app. cbn. split; [by apply (Ho a)|lia].
  - intros E. exists (f a). rewrite last_snoc. split; [done|]. by apply Ho.
  - intros i b Pd [L|[-> <-]]%lookup_snoc_Some'.
    + eapply (H10 i); [by rewrite P|]. apply lookup_snoc_Some'. by left.
    + apply E8. destruct E2 as [[_ ?]|[? _]]; [done|congruence].
  - intros i b E. destruct E2 as [[_ ?]|[_ ?]]; congruence.
  - intros E. exists (f a). rewrite last_snoc. auto.
Qed.

Lemma disp_inv_close d d' atts : disp_inv d atts → pendingState (d_State d) = true → d_ID d' = d_ID d →
  d_Attempt d' = d_Attempt d → d_LeaseOwner d' = "" → d_LeaseToken d' = "" → d_LeaseDeadline d' = zeroTime →
  d_State d' = DispatchCanceled ∨ (d_State d' = DispatchBlockedUnknown ∧ d_State d ≠ DispatchQueued) →
  (d_State d' = DispatchCanceled → ∀ i a, atts !! i = Some a → at_Outcome a = OutcomeRetryableKnownNotCommitted) →
  disp_inv d' atts.
Proof.
  intros [H1 H2 H3 H4 H5 H6 H7 H8 H9 H10 H11 H12] P E1 E2 E3 E4 E5 E6 E7.
  assert (d_State d' ≠ DispatchInFlight ∧ d_State d' ≠ DispatchQueued ∧ d_State d' ≠ DispatchFailedPermanent ∧
    d_State d' ≠ DispatchBlockedFence ∧ d_State d' ≠ DispatchSucceeded) as (N1 & N2 & N3 & N4 & N5).
  { destruct E6 as [->|[-> _]]; done. }
  split; rewrite ?E1, ?E2; try done.
  - intros _ N. apply H4; [by destruct E6 as [?|[_ ?]]|]. intros E. by rewrite E in P.
  - by intros [].
  - intros i a L O. apply H8 in L as [E _]; [|done]. by rewrite E in P.
  - intros i a Pd. by destruct E6 as [E|[E _]]; rewrite E in Pd.
  - intros i a E. by apply E7.
Qed.

(** ** Operations on one saga *)
Record only_saga (s s' : InMemoryOutboxStore) (sid : string) : Prop := {
  on_same sid' : sid' ≠ sid → same_saga s s' sid';
  on_saga sid' : sid' ≠ sid → os_sagas s' !! sid' = os_sagas s !! sid' }.

Lemma same_saga_refl s sid : same_saga s s sid.
Proof. by split. Qed.
Lemma same_saga_trans s1 s2 s3 sid : same_saga s1 s2 sid → same_saga s2 s3 sid → same_saga s1 s3 sid.
Proof.
  intros [A1 A2 A3] [B1 B2 B3]. split.
  - congruence.
  - intros. by rewrite B2, A2.
  - intros k d H. rewrite (B3 k d); [by eapply A3|]. by apply A2.
Qed.
Lemma only_saga_trans s1 s2 s3 sid : only_saga s1 s2 sid → only_saga s2 s3 sid → only_saga s1 s3 sid.
Proof.
  intros [A1 A2] [B1 B2]. split; intros sid' N; [by eapply same_saga_trans; eauto|]. rewrite B2, A2; done.
Qed.
Lemma same_saga_putSaga s sid k sg : same_saga s (putSaga k sg s) sid.
Proof. by split. Qed.
Lemma only_putSaga s k sg : only_saga s (putSaga k sg s) k.
Proof. split; intros sid' N; [done|]. cbn. by rewrite lookup_insert_ne. Qed.
Lemma only_new_disp s k d : os_dispatches s !! k = None → only_saga s (putDispatch k d s) (d_SagaID d).
Proof.
  intros Hk. split; intros sid' N; [|done]. split; [done| |done].
  intros k1 d1. unfold ofSaga. cbn. split; intros [L <-]; split; try done.
  - apply lookup_insert_Some in L as [[<- <-]|[_ L]]; done.
  - rewrite lookup_insert_ne; [done|congruence].
Qed.
Lemma only_updates s s' k d d' st st' : updates s s' k d d' st st' →
  (∀ sid', sid' ≠ d_SagaID d → os_sagas s' !! sid' = os_sagas s !! sid') → only_saga s s' (d_SagaID d).
Proof. intros U H. split; [|done]. intros. by eapply updates_frame. Qed.

(** The store invariant from its part for the one saga an operation works on. *)
Lemma inv_local s s' sid : store_inv s → only_saga s s' sid → static_inv s' →
  (∀ k d, ofSaga s' sid k d → disp_inv d (attemptsOf s' k)) → struct_inv s' sid →
  (∀ sg, os_sagas s' !! sid = Some sg → state_inv s' sid (sg_State sg)) → store_inv s'.
Proof.
  intros [I1 I2 I3 I4] [O1 O2] Hst Hd Hs Hz. split; [done|..].
  - intros k d L. destruct (decide (d_SagaID d = sid)) as [E|N]; [by apply Hd|].
    destruct (O1 _ N) as [_ S2 S3]. assert (ofSaga s (d_SagaID d) k d) as [L' _] by (by apply S2).
    rewrite (S3 k d); [by apply I2|done].
  - intros sid' sg L. destruct (decide (sid' = sid)) as [->|N]; [done|]. rewrite O2 in L by done.
    eapply struct_frame; eauto.
  - intros sid' sg L. destruct (decide (sid' = sid)) as [->|N]; [by apply Hz|]. rewrite O2 in L by done.
    eapply state_frame; eauto.
Qed.

(** ** Quiet sagas: nothing is in flight, waiting or compensating *)
Definition quiet (s : InMemoryOutboxStore) (sid : string) : Prop :=
  ∀ k d, ofSaga s sid k d → pendingState (d_State d) = true →
    d_State d = DispatchQueued ∧ d_Direction d = DirectionForward.

Lemma quiet_state s sid S : quiet s sid → S ≠ SagaRunning → S ≠ SagaCompleted →
  (S = SagaCompensated → ∀ eid st, stepAt s sid eid = Some st → st_State st ≠ StepSucceeded) →
  (S = SagaCompensating ∨ S = SagaCompensated → ∀ k d, ofSaga s sid k d → knownState (d_State d) = true) → state_inv s sid S.
Proof.
  intros Q N1 N2 C Kn. split; try done.
  - intros k d D P A. destruct (Q _ _ D P) as [E F]. destruct A; congruence.
  - intros eid st E L. by eapply C.
  - intros k d E. by apply Kn.
Qed.

(** While a dispatch is in flight or waiting for a retry, no other dispatch of its saga is. *)
Lemma active_alone s k d k1 d1 : store_inv s → os_dispatches s !! k = Some d →
  pendingState (d_State d) = true → d_State d ≠ DispatchQueued → ofSaga s (d_SagaID d) k1 d1 → pendingState (d_State d1) = true → k1 ≠ k →
  d_State d1 = DispatchQueued ∧ d_Direction d1 = DirectionForward.
Proof.
  intros Hi L P NQ D1 P1 N. pose proof (inv_static _ Hi) as Hs. destruct (disp_saga _ _ _ Hs L) as [sg Lsg].
  pose proof (inv_state _ Hi _ _ Lsg) as Z. pose proof (inv_struct _ Hi _ _ Lsg) as W. assert (D : ofSaga s (d_SagaID d) k d) by done.
  assert (E : sg_State sg = phaseOf (d_Direction d)).
  { apply (z_active _ _ _ Z k d D); [done|by left]. }
  assert (d_State d ≠ DispatchSucceeded ∧ d_State d ≠ DispatchCanceled) as [NS NC].
  { by split; intros X; rewrite X in P. }
  destruct (decide (d_State d1 = DispatchQueued)) as [E1|N1], (d_Direction d1) eqn:F1; try done; exfalso.
  - assert (E2 := z_active _ _ _ Z _ _ D1 P1 (or_intror F1)). rewrite E2, F1 in E. destruct (d_Direction d) eqn:F; [done|].
    apply N. eapply (w_single _ _ W); eauto; congruence.
  - assert (E2 := z_active _ _ _ Z _ _ D1 P1 (or_introl N1)). rewrite E2, F1 in E. destruct (d_Direction d) eqn:F; [|done].
    assert (attemptsOf s k ≠ []) as A by (eapply di_started; [exact (inv_disp _ Hi k d L)|congruence..]).
    assert (attemptsOf s k1 ≠ []) as A1.
    { eapply di_started; [exact (inv_disp _ Hi k1 d1 (proj1 D1))|done|]. intros X. by rewrite X in P1. }
    destruct (Z.lt_trichotomy (d_Sequence d) (d_Sequence d1)) as [Q|[Q|Q]].
    + assert (X := w_order _ _ W _ _ _ _ D1 D F1 F A1 Q). congruence.
    + apply N. symmetry. eapply disp_seq_unique; eauto. congruence.
    + assert (X := w_order _ _ W _ _ _ _ D D1 F F1 A Q). by rewrite X in P1.
  - assert (E2 := z_active _ _ _ Z _ _ D1 P1 (or_introl N1)). rewrite E2, F1 in E. destruct (d_Direction d) eqn:F; [done|].
    apply N. eapply (w_single _ _ W); eauto. intros X. by rewrite X in P1.
Qed.
Lemma inflight_alone s k d k1 d1 : store_inv s → os_dispatches s !! k = Some d → d_State d = DispatchInFlight →
  ofSaga s (d_SagaID d) k1 d1 → pendingState (d_State d1) = true → k1 ≠ k →
  d_State d1 = DispatchQueued ∧ d_Direction d1 = DirectionForward.
Proof. intros Hi L P. apply active_alone; [done|done|by rewrite P..]. Qed.

(** ** Choosing the next inverse *)
Definition reversible (st : SagaStep) : Prop := st_State st = StepSucceeded ∧ st_CompensationVerb st ≠ "".

Lemma betterCandidate_spec c st : 
  (betterCandidate c st = c ∧ (reversible st → ∃ c0, c = Some c0 ∧ st_Sequence st ≤ st_Sequence c0)) ∨
  (betterCandidate c st = Some st ∧ reversible st ∧ ∀ c0, c = Some c0 → st_Sequence c0 ≤ st_Sequence st).
Proof.
  unfold betterCandidate, reversible. destruct (_ || _) eqn:E.
  - left. split; [done|]. intros [A B]. apply orb_true_iff in E as [E|E]; bool_to_prop; congruence.
  - bool_to_prop. assert (st_State st = StepSucceeded) by (by apply dec_stable).
    destruct c as [c|]; [|right; naive_solver].
    destruct (bool_decide _) eqn:Q; bool_to_prop; [right|left]; (split; [done|]).
    + split; [done|]. intros c0 [= <-]. lia.
    + intros _. exists c. split; [done|lia].
Qed.
Lemma foldl_better l c0 : 
  match foldl betterCandidate c0 l with
  | None => c0 = None ∧ ∀ st, st ∈ l → ¬ reversible st
  | Some c => (c0 = Some c ∨ (c ∈ l ∧ reversible c)) ∧ (∀ st, st ∈ l → reversible st → st_Sequence st ≤ st_Sequence c) ∧
      (∀ c1, c0 = Some c1 → st_Sequence c1 ≤ st_Sequence c)
  end.
Proof.
  revert c0. induction l as [|st l IH]; intros c0; cbn [foldl].
  - destruct c0; [|split; [done|set_solver]]. split; [by left|]. split; [set_solver|]. intros c1 [= <-]. lia.
  - specialize (IH (betterCandidate c0 st)).
    destruct (betterCandidate_spec c0 st) as [[E H]|[E [H H']]]; rewrite E in *; destruct (foldl _ _ l) as [c|].
    + destruct IH as (I1 & I2 & I3). split; [set_solver|]. split; [|done].
      intros st1 [->|L]%elem_of_cons R; [|by apply I2]. destruct (H R) as (c1 & E1 & Q). apply I3 in E1. lia.
    + destruct IH as (-> & I2). split; [done|]. intros st1 [->|L]%elem_of_cons R; [|by eapply I2].
      destruct (H R) as (? & ? & _). done.
    + destruct IH as (I1 & I2 & I3). split; [|split].
      * right. destruct I1 as [[= <-]|[? ?]]; split; set_solver.
      * intros st1 [->|L]%elem_of_cons R; [|by apply I2]. by apply I3.
      * intros c1 E1. specialize (I3 _ eq_refl). apply H' in E1. lia.
    + destruct IH as [? _]. done.
Qed.
Lemma candidate_spec s sid :
  match compensationCandidateLocked s sid with
  | None => ∀ eid st, stepAt s sid eid = Some st → ¬ reversible st
  | Some c => (∃ eid, stepAt s sid eid = Some c) ∧ reversible c ∧
      ∀ eid st, stepAt s sid eid = Some st → reversible st → st_Sequence st ≤ st_Sequence c
  end.
Proof.
  unfold compensationCandidateLocked. pose proof (foldl_better (map_to_list (stepsOf s sid)).*2 None) as H.
  destruct (foldl _ _ _) as [c|].
  - destruct H as ([?|[L R]] & H & _); [done|]. apply elem_of_map_values in L. split; [done|]. split; [done|].
    intros eid st E. apply H. apply elem_of_map_values. by exists eid.
  - destruct H as [_ H]. intros eid st E. apply H. apply elem_of_map_values. by exists eid.
Qed.
Lemma hasSucceeded_false s sid : hasSucceededStepLocked s sid = false →
  ∀ eid st, stepAt s sid eid = Some st → st_State st ≠ StepSucceeded.
Proof. intros H eid st L E. apply mapExists_false with (k := eid) (v := st) in H; [|done]. bool_to_prop. done. Qed.

(** ** Starting and continuing compensation *)
Record saga_ok (s : InMemoryOutboxStore) (sid : string) : Prop := {
  so_static : static_inv s;
  so_disp k d : ofSaga s sid k d → disp_inv d (attemptsOf s k);
  so_struct : struct_inv s sid;
  so_state sg : os_sagas s !! sid = Some sg → state_inv s sid (sg_State sg) }.
Record settled (s : InMemoryOutboxStore) (sid : string) : Prop := {
  se_static : static_inv s;
  se_disp k d : ofSaga s sid k d → disp_inv d (attemptsOf s k);
  se_struct : struct_inv s sid;
  se_quiet : quiet s sid;
  se_known k d : ofSaga s sid k d → knownState (d_State d) = true;
  se_comp k d : ofSaga s sid k d → d_Direction d = DirectionCompensation → d_State d = DispatchSucceeded }.

Lemma finishSaga_settled s sid sg state now : os_sagas s !! sid = Some sg → settled s sid →
  settled (finishSaga sid sg state now s) sid.
Proof.
  intros L [H1 H2 H3 H4 H5 H6]. split; try done.
  - eapply static_evolves; [done|]. by eapply evolves_putSaga.
  - eapply struct_frame; [|done]. apply same_saga_putSaga.
Qed.
Lemma finishSaga_ok s sid sg state now : os_sagas s !! sid = Some sg → settled s sid →
  state ≠ SagaRunning → state ≠ SagaCompleted →
  (state = SagaCompensated → ∀ eid st, stepAt s sid eid = Some st → st_State st ≠ StepSucceeded) →
  saga_ok (finishSaga sid sg state now s) sid.
Proof.
  intros L H N1 N2 C. pose proof (finishSaga_settled _ _ _ state now L H) as [H1 H2 H3 H4 H5 H6]. split; try done.
  intros sg'. cbn. rewrite lookup_insert_eq. intros [= <-]. cbn. eapply state_frame; [apply same_saga_putSaga|].
  apply quiet_state; auto.
Qed.

Lemma enqueueCompensation_ok s sid sg st now : os_sagas s !! sid = Some sg → sg_SagaID sg = sid →
  sg_State sg = SagaCompensating → settled s sid → compensationCandidateLocked s sid = Some st →
  saga_ok (enqueueCompensationLocked sg st now s) sid ∧ only_saga s (enqueueCompensationLocked sg st now s) sid.
Proof.
  intros L Esid Est [H1 H2 H3 H4 H6 H5] Hc. pose proof (candidate_spec s sid) as Hspec. rewrite Hc in Hspec.
  destruct Hspec as ([eid' Lst] & [Rs Rv] & Hmax). destruct (si_step _ H1 _ _ _ Lst) as (_ & _ & Ee & _).
  unfold enqueueCompensationLocked. rewrite Esid.
  set (key := IdempotencyKey _ _ _ _). set (d := mkDispatch _ _ _ _ _ _ _ _ _ _ _ _ _ _ _ _ _ _ _ _ _ _ _ _).
  destruct (os_dispatches s !! dispatchIDOf key) eqn:Hk.
  { split; [|by split]. split; try done. intros sg1 L1. simplify_eq. by rewrite Est; apply quiet_state. }
  assert (Ha : attemptsOf s (dispatchIDOf key) = []).
  { unfold attemptsOf. destruct (os_attempts s !! dispatchIDOf key) eqn:A; [|done].
    apply (si_atts _ H1) in A as [? A]. congruence. }
  assert (Lst' : stepAt s (d_SagaID d) (d_EffectID d) = Some st) by (cbn; by rewrite Ee).
  split; [|by apply (only_new_disp s _ d)]. split.
  - eapply (static_new_disp s _ d sg st); try done.
  - intros k1 d1 [L1 E1]. cbn in L1. apply lookup_insert_Some in L1 as [[<- <-]|[_ L1]]; [|by apply H2].
    change (attemptsOf _ _) with (attemptsOf s (dispatchIDOf key)). rewrite Ha. by apply disp_inv_new.
  - eapply (struct_new_compensation s sid _ d st); try done.
    intros e1 st1 L1 Q S1. destruct (decide (st_CompensationVerb st1 = "")) as [|N]; [done|].
    specialize (Hmax _ _ L1 (conj S1 N)). cbn in Q. lia.
  - intros sg1 L1. cbn in L1. simplify_eq. rewrite Est. split; try done.
    + intros k1 d1 [L2 E2] P A. cbn in L2. apply lookup_insert_Some in L2 as [[<- <-]|[_ L2]]; [done|].
      destruct (H4 k1 d1) as [? ?]; [done..|]. destruct A; congruence.
    + intros k1 d1 _ [L2 E2]. cbn in L2. apply lookup_insert_Some in L2 as [[<- <-]|[_ L2]]; [done|]. by apply (H6 k1).
Qed.

Lemma startCompensation_ok s sid sg now : os_sagas s !! sid = Some sg → sg_SagaID sg = sid → settled s sid →
  saga_ok (startCompensationLocked sid sg now s) sid ∧ only_saga s (startCompensationLocked sid sg now s) sid.
Proof.
  intros L E H. unfold startCompensationLocked. rewrite E. destruct (compensationCandidateLocked s sid) as [c|] eqn:Hc.
  - set (s1 := finishSaga sid sg SagaCompensating now s).
    set (sg1 := sg <| sg_State := SagaCompensating |> <| sg_Revision := u64_inc (sg_Revision sg) |> <| sg_UpdatedAt := now |>).
    destruct (enqueueCompensation_ok s1 sid sg1 c now) as [A B]; try done.
    + cbn. by rewrite lookup_insert_eq.
    + by apply finishSaga_settled.
    + split; [exact A|]. eapply only_saga_trans; [apply only_putSaga|exact B].
  - destruct (hasSucceededStepLocked s sid); (split; [by apply finishSaga_ok|apply only_putSaga]).
Qed.
Lemma nextCompensation_ok s sid sg now : os_sagas s !! sid = Some sg → sg_SagaID sg = sid → settled s sid →
  sg_State sg = SagaCompensating →
  saga_ok (enqueueNextCompensationLocked sid sg now s) sid ∧ only_saga s (enqueueNextCompensationLocked sid sg now s) sid.
Proof.
  intros L E H Est. unfold enqueueNextCompensationLocked. rewrite E.
  destruct (compensationCandidateLocked s sid) as [c|] eqn:Hc; [by apply enqueueCompensation_ok|].
  destruct (hasSucceededStepLocked s sid) eqn:Hh; (split; [apply finishSaga_ok; try done|apply only_putSaga]).
  intros _. by apply hasSucceeded_false.
Qed.

(** ** CreateSaga and EnqueueStep *)
Lemma inv_empty : store_inv NewInMemoryOutboxStore.
Proof. split; [split|..]; try done. Qed.

Lemma no_disp_of_new_saga s sid : static_inv s → os_sagas s !! sid = None → ∀ k d, ¬ ofSaga s sid k d.
Proof. intros Hs L k d [D <-]. destruct (disp_saga _ _ _ Hs D) as [? ?]. congruence. Qed.

Lemma CreateSaga_inv tb ctx now req s sg s' : CreateSaga tb ctx now req s = Ok (sg, s') → store_inv s → store_inv s'.
Proof.
  unfold CreateSaga. intros H Hi. inv_res. unfold validateSagaRequest in *.
  destruct (os_sagas s !! cs_SagaID req) eqn:L; inv_res; [done|]. bool_to_prop.
  pose proof (inv_static _ Hi) as Hs. pose proof (no_disp_of_new_saga _ _ Hs L) as Hno.
  match goal with |- store_inv ?x => set (s1 := x) end.
  assert (Hst1 : static_inv s1) by (by apply static_new_saga).
  assert (Hempty : stepsOf s1 (cs_SagaID req) = ∅) by (unfold stepsOf, s1; cbn; by rewrite lookup_insert_eq).
  apply (inv_local s s1 (cs_SagaID req)); [done| |done|..].
  - split; intros sid' N; [|cbn; by rewrite lookup_insert_ne]. split; [|done|done].
    unfold stepsOf; cbn. by rewrite lookup_insert_ne.
  - intros k d D. by destruct (Hno k d).
  - split; intros *; try (intros D; by destruct (Hno _ _ D)). unfold stepAt. by rewrite Hempty, lookup_empty.
  - intros sg1 L1. cbn in L1. rewrite lookup_insert_eq in L1. injection L1 as <-. cbn.
    split; intros *; try done; try (intros D; by destruct (Hno _ _ D)); intros _ D; by destruct (Hno _ _ D).
Qed.

Lemma inv_new_step s sid eid st k d sg sg' : store_inv s → os_dispatches s !! k = None →
  stepAt s sid eid = None → os_sagas s !! sid = Some sg → sg_State sg = SagaRunning →
  sg_core sg' = sg_core sg → sg_State sg' = SagaRunning →
  d_ID d = k → k = dispatchIDOf (d_IdempotencyKey d) → d_SagaID d = sid → d_EffectID d = eid →
  d_Direction d = DirectionForward → carries d st →
  d_IdempotencyKey d = IdempotencyKey (sg_Namespace sg) sid eid DirectionForward →
  st_SagaID st = sid → st_EffectID st = eid → st_Sequence st = Z.of_nat (size (stepsOf s sid)) + 1 →
  st_State st = StepPending → d_State d = DispatchQueued → disp_inv d [] →
  store_inv (putSaga sid sg' (putDispatch k d (putStep sid eid st s))).
Proof.
  intros Hi Ld Hno Lsg Hrun Hcore Hrun' D1 D2 D3 D4 D5 D6 D7 S1 S2 S3 S4 D8 D9. pose proof (inv_static _ Hi) as Hs.
  set (s1 := putDispatch k d (putStep sid eid st s)).
  assert (Hs1 : static_inv s1) by (by eapply static_new_step).
  assert (Eo : stepsOf s1 sid = <[eid := st]> (stepsOf s sid)) by (unfold stepsOf at 1; cbn; by rewrite lookup_insert_eq).
  assert (Ha : attemptsOf s k = []).
  { unfold attemptsOf. destruct (os_attempts s !! k) eqn:A; [|done]. apply (si_atts _ Hs) in A as [? A]. congruence. }
  assert (Hof : ∀ k1 d1, ofSaga s1 sid k1 d1 → (k1 = k ∧ d1 = d) ∨ ofSaga s sid k1 d1).
  { intros k1 d1 [L E]. cbn in L. apply lookup_insert_Some in L as [[<- <-]|[_ L]]; [by left|by right]. }
  pose proof (inv_state _ Hi _ _ Lsg) as Z. rewrite Hrun in Z.
  eapply (inv_local s _ sid); [done|..].
  - eapply only_saga_trans; [|apply only_putSaga]. rewrite <-D3. eapply only_saga_trans; [|by apply only_new_disp]. rewrite D3.
    split; [|done]. intros sid' N. split; [|done|done]. unfold stepsOf. cbn. by rewrite lookup_insert_ne.
  - eapply static_evolves; [exact Hs1|]. by eapply evolves_putSaga.
  - intros k1 d1 [[-> ->]|D]%Hof; [by change (disp_inv d (attemptsOf s k)); rewrite Ha|]. by apply (inv_disp _ Hi), D.
  - eapply struct_frame; [apply same_saga_putSaga|]. eapply (struct_new_step s s1 sid eid k d st); try done.
    + by eapply (inv_struct _ Hi).
    + intros e1 st1 L1. destruct (si_step _ Hs _ _ _ L1) as (_ & _ & _ & ?). destruct D6 as [-> _]. lia.
  - intros sg1. cbn. rewrite lookup_insert_eq. intros [= <-]. rewrite Hrun'.
    eapply state_frame; [apply same_saga_putSaga|]. split; try done.
    + intros k1 d1 [[-> ->]|D]%Hof F; [congruence|]. by eapply (z_nocomp _ _ _ Z).
    + intros k1 d1 [[-> ->]|D]%Hof P A; [destruct A; congruence|]. by eapply (z_active _ _ _ Z).
    + intros k1 d1 _ [[-> ->]|D]%Hof; [right; by rewrite D8|]. by eapply (z_running _ _ _ Z).
    + by intros k1 d1 [?|?].
Qed.

Lemma normalizeEnqueue_identity req n : normalizeEnqueue req = Ok n →
  eq_SagaID (ne_request n) = eq_SagaID req ∧ eq_EffectID (ne_request n) = eq_EffectID req ∧
  eq_Sequence (ne_request n) = eq_Sequence req.
Proof.
  unfold normalizeEnqueue. intros H. do 3 (apply bind_Ok in H as ([] & _ & H)).
  apply bind_Ok in H as ([a h] & _ & H). apply bind_Ok in H as ([[r ca] ch] & Hr & H). inv_res. cbn.
  destruct (bool_decide (eq_CompensationVerb req ≠ "")); [|by inv_res].
  apply bind_Ok in Hr as ([] & _ & Hr). apply bind_Ok in Hr as ([ca' ch'] & _ & Hr). inv_res.
  by destruct (eq_CompensationArguments req).
Qed.
(** An effect without a forward dispatch has no step. *)
Lemma fresh_step s sid eid sg : static_inv s → os_sagas s !! sid = Some sg →
  os_dispatches s !! dispatchIDOf (IdempotencyKey (sg_Namespace sg) sid eid DirectionForward) = None → stepAt s sid eid = None.
Proof.
  intros Hs Lsg Ld. destruct (stepAt s _ _) eqn:E; [|done]. destruct (si_fwd _ Hs _ _ _ E) as (k & d & Lk & E1 & E2 & E3).
  destruct (si_disp _ Hs _ _ Lk) as (_ & Ek & sg1 & _ & Lsg1 & _ & _ & Ei). rewrite E1, E2, E3 in Ei.
  rewrite E1, Lsg in Lsg1. injection Lsg1 as <-. rewrite <-Ei in Ld. congruence.
Qed.
Lemma EnqueueStep_inv ctx now req s d s' : EnqueueStep ctx now req s = Ok (d, s') → store_inv s → store_inv s'.
Proof.
  unfold EnqueueStep. intros H Hi. apply bind_Ok in H as ([] & _ & H).
  apply bind_Ok in H as (n & _ & H). apply bind_Ok in H as (sg & Lsg%ofOption_Ok & H). set (r := ne_request n) in *.
  destruct (os_dispatches s !! _) eqn:Ld.
  { destruct (stepsOf s (eq_SagaID r) !! eq_EffectID r); [|done]. destruct (sameStep _ _ _ _); [|done]. by inv_res. }
  inv_res. bool_to_prop.
  pose proof (inv_static _ Hi) as Hs. destruct (si_saga _ Hs _ _ Lsg) as (Esid & _ & _).
  assert (Hno : stepAt s (eq_SagaID r) (eq_EffectID r) = None).
  { rewrite Esid in Ld. by eapply fresh_step. }
  assert (E1 := dec_stable H1). assert (E2 := dec_stable H2). rewrite Esid in *.
  eapply inv_new_step; try done. unfold sg_core; cbn. congruence.
Qed.

(** ** ClaimDispatch *)
Definition claimNow (storeNow : Time) (o : ClaimOptions) : Time :=
  if timeIsZero (cl_Now o) then storeNow else cl_Now o.
(** The dispatch and the attempt a claim writes. *)
Definition claimed (now : Time) (o : ClaimOptions) (tok : string) (d : Dispatch) : Dispatch :=
  d <| d_State := DispatchInFlight |> <| d_Attempt := u64_inc (d_Attempt d) |>
    <| d_LeaseOwner := cl_Owner o |> <| d_LeaseToken := tok |>
    <| d_LeaseDeadline := timeAdd now (cl_LeaseDuration o) |> <| d_FencingGrants := [] |>
    <| d_Revision := u64_inc (d_Revision d) |> <| d_UpdatedAt := now |>.
Definition claimAttempt (now : Time) (o : ClaimOptions) (tok : string) (d : Dispatch) : DispatchAttempt :=
  mkAttempt (d_ID d) (u64_inc (d_Attempt d)) (cl_Owner o) tok (timeAdd now (cl_LeaseDuration o)) []
    (OutcomeOther "") "" now zeroTime.

Lemma eligibleDispatches_elem s o now k d : (k, d) ∈ eligibleDispatches s o now ↔
  os_dispatches s !! k = Some d ∧ eligible s o now d = true.
Proof.
  unfold eligibleDispatches. rewrite merge_sort_Permutation, list_elem_of_In, List.filter_In, <-list_elem_of_In, elem_of_map_to_list.
  done.
Qed.
Lemma find_elem {A} (f : A → bool) l x : List.find f l = Some x → x ∈ l ∧ f x = true.
Proof. intros [H1 H2]%List.find_some. by rewrite list_elem_of_In. Qed.

Lemma ClaimDispatch_Ok ctx sn token o s d' s' : ClaimDispatch ctx sn token o s = Ok (d', s') →
  let now := claimNow sn o in
  ∃ k d tok, os_dispatches s !! k = Some d ∧ eligible s o now d = true ∧ startable s now d = true ∧ token = Ok tok ∧
    d' = claimed now o tok d ∧
    s' = putAttempts (d_ID d) (attemptsOf s (d_ID d) ++ [claimAttempt now o tok d]) (putDispatch k d' s).
Proof.
  unfold ClaimDispatch. intros H. apply bind_Ok in H as ([] & _ & H). apply bind_Ok in H as ([] & _ & H).
  fold (claimNow sn o) in H. destruct (List.find _ _) as [[k d]|] eqn:F; [|done].
  apply find_elem in F as [[L E]%eligibleDispatches_elem St]. apply bind_Ok in H as (tok & Ht & H). inv_res.
  exists k, d, tok. done.
Qed.

Lemma eligible_facts s o now d : eligible s o now d = true →
  pendingState (d_State d) = true ∧ ∃ sg, os_sagas s !! d_SagaID d = Some sg ∧ sg_State sg = phaseOf (d_Direction d).
Proof.
  unfold eligible. destruct (_ && _); [done|]. destruct (os_sagas s !! d_SagaID d) as [sg|]; [|done].
  intros H. split; [|exists sg; split; [done|]]; destruct (d_State d), (sg_State sg), (d_Direction d); cbn in *; done.
Qed.

Lemma attemptsOf_put s k l : attemptsOf (putAttempts k l s) k = l.
Proof. unfold attemptsOf. cbn. by rewrite lookup_insert_eq. Qed.
Lemma attemptsOf_put_ne s k k' l : k' ≠ k → attemptsOf (putAttempts k l s) k' = attemptsOf s k'.
Proof. intros. unfold attemptsOf. cbn. by rewrite lookup_insert_ne. Qed.

(** Writing a dispatch and its attempts, with its step left alone. *)
Lemma updates_put s k d d' st l : static_inv s → os_dispatches s !! k = Some d →
  stepAt s (d_SagaID d) (d_EffectID d) = Some st → d_core d' = d_core d →
  updates s (putAttempts k l (putDispatch k d' s)) k d d' st st.
Proof.
  intros Hs L Lst C. split; try done.
  - unfold stepAt in Lst. symmetry. by rewrite insert_id.
  - intros k1 N. by rewrite attemptsOf_put_ne.
Qed.

Lemma updates_ofSaga s s' k d d' st st' k1 d1 : updates s s' k d d' st st' → ofSaga s' (d_SagaID d) k1 d1 →
  (k1 = k ∧ d1 = d') ∨ (k1 ≠ k ∧ ofSaga s (d_SagaID d) k1 d1).
Proof. intros U [L E]. destruct (updates_disp _ _ _ _ _ _ _ _ _ U L) as [?|[? ?]]; [by left|by right]. Qed.

Definition earlierSucceeded (s : InMemoryOutboxStore) (d : Dispatch) : Prop :=
  ∀ k1 d1, ofSaga s (d_SagaID d) k1 d1 → d_Direction d = DirectionForward → d_Direction d1 = DirectionForward →
    d_Sequence d1 < d_Sequence d → d_State d1 = DispatchSucceeded.

(** A dispatch that is pending before and in flight or waiting after, in the phase of its saga. *)
Lemma inv_same_phase s s' k d d' st sg sg' : store_inv s → updates s s' k d d' st st → static_inv s' →
  os_sagas s !! d_SagaID d = Some sg → sg_State sg = phaseOf (d_Direction d) →
  only_saga s s' (d_SagaID d) → os_sagas s' !! d_SagaID d = Some sg' → sg_State sg' = sg_State sg →
  pendingState (d_State d) = true → d_State d' = DispatchInFlight ∨ d_State d' = DispatchRetryWait →
  earlierSucceeded s d → disp_inv d' (attemptsOf s' k) → store_inv s'.
Proof.
  intros Hi U Hs' Lsg Eph Ho Lsg' Est P P' Hord Hd.
  pose proof (inv_struct _ Hi _ _ Lsg) as W. pose proof (inv_state _ Hi _ _ Lsg) as Z.
  pose proof U as [L _ Lst _ _ _ C _]. assert (D : ofSaga s (d_SagaID d) k d) by done.
  assert (Hcp : couple d st) by (by eapply (w_couple _ _ W)).
  assert (C1 : d_Direction d' = d_Direction d) by (use_core; congruence).
  apply (inv_local s s' (d_SagaID d)); [done..| | |].
  - intros k1 d1 [[-> ->]|[N D1]]%(updates_ofSaga _ _ _ _ _ _ _ _ _ U); [done|].
    rewrite (up_atts _ _ _ _ _ _ _ U) by done. apply (inv_disp _ Hi), D1.
  - eapply struct_update; [exact U| |done]. split; auto.
    + intros k1 d1 D1 F F1 _ Q. by eapply Hord.
    + intros E. by rewrite E in P.
    + unfold couple in *. rewrite C1.
      destruct (d_Direction d), (st_State st), (d_State d), P' as [->| ->]; cbn in *; naive_solver.
    + intros k1 d1 N D1 E1. eapply (w_couple _ _ W); [done|]. by rewrite E1.
  - intros sg1 L1. rewrite Lsg' in L1. injection L1 as <-. rewrite Est.
    split; intros *; [intros [[-> ->]|[N D1]]%(updates_ofSaga _ _ _ _ _ _ _ _ _ U)..| | | |].
    + rewrite C1. by apply (z_nocomp _ _ _ Z k d).
    + by eapply (z_nocomp _ _ _ Z).
    + by rewrite C1, Eph.
    + by eapply (z_active _ _ _ Z).
    + intros E [[-> ->]|[N D1]]%(updates_ofSaga _ _ _ _ _ _ _ _ _ U); [right; by destruct P' as [->| ->]|].
      by eapply (z_running _ _ _ Z).
    + rewrite Eph. by destruct (d_Direction d).
    + rewrite Eph. by destruct (d_Direction d).
    + intros E [[-> ->]|[N D1]]%(updates_ofSaga _ _ _ _ _ _ _ _ _ U); [by destruct P' as [->| ->]|].
      by eapply (z_known _ _ _ Z).
Qed.

Lemma startable_earlier s now k d : static_inv s → os_dispatches s !! k = Some d → startable s now d = true →
  earlierSucceeded s d.
Proof.
  intros Hs L Hst k1 d1 D1 F F1 Q. unfold startable in Hst. destruct (os_sagas s !! d_SagaID d) as [sg|] eqn:Lsg; [|done].
  destruct (si_saga _ Hs _ _ Lsg) as (_ & Ser & _). rewrite Ser in Hst. bool_to_prop. cbn in Hst.
  apply orb_false_iff in Hst as [_ Hst]. unfold hasUnfinishedEarlierForwardLocked in Hst.
  rewrite F in Hst. cbn in Hst. apply mapExists_false with (k := k1) (v := d1) in Hst; [|apply D1].
  destruct D1 as [_ E1]. rewrite E1, F1, !bool_decide_eq_true_2 in Hst by done. cbn in Hst. bool_to_prop.
  by apply dec_stable.
Qed.
Lemma attempted_earlier s k d : store_inv s → os_dispatches s !! k = Some d → attemptsOf s k ≠ [] → earlierSucceeded s d.
Proof.
  intros Hi L A k1 d1 D1 F F1 Q. destruct (disp_saga _ _ _ (inv_static _ Hi) L) as [sg Lsg].
  by eapply (w_order _ _ (inv_struct _ Hi _ _ Lsg) k d k1 d1).
Qed.
Lemma static_put s k d d' l : static_inv s → os_dispatches s !! k = Some d → d_core d' = d_core d →
  static_inv (putAttempts k l (putDispatch k d' s)).
Proof.
  intros Hs L C. eapply static_evolves; [done|]. eapply evolves_trans; [by eapply (evolves_putDispatch s k d d')|].
  apply evolves_putAttempts. cbn. rewrite lookup_insert_eq. eauto.
Qed.

Lemma ClaimDispatch_inv ctx sn token o s d' s' :
  ClaimDispatch ctx sn token o s = Ok (d', s') → store_inv s → store_inv s'.
Proof.
  intros (k & d & tok & L & He & Hst & -> & -> & ->)%ClaimDispatch_Ok Hi. pose proof (inv_static _ Hi) as Hs.
  destruct (eligible_facts _ _ _ _ He) as (P & sg & Lsg & Eph). destruct (si_disp _ Hs _ _ L) as (-> & _).
  destruct (disp_step _ _ _ Hs L) as (st & Lst & Hseq). set (now := claimNow sn o) in *. set (d' := claimed now o tok d).
  set (s' := putAttempts k _ _).
  assert (U : updates s s' k d d' st st) by (by apply updates_put).
  eapply (inv_same_phase s s' k d d' st sg sg); try done; [by eapply static_put|by eapply only_updates|by left| |].
  - by eapply startable_earlier.
  - unfold s'. rewrite attemptsOf_put. eapply (disp_inv_claim d); try done. by apply (inv_disp _ Hi).
Qed.

(** ** Leases *)
Lemma currentLeaseAt_true d att tok now : currentLeaseAt (Some d) att tok now = true ↔
  d_State d = DispatchInFlight ∧ d_Attempt d = att ∧ tok ≠ "" ∧ d_LeaseToken d = tok ∧ now < d_LeaseDeadline d.
Proof. unfold currentLeaseAt, currentLease, timeAfter. rewrite !andb_true_iff, !bool_decide_eq_true. tauto. Qed.

(** A dispatch in flight pins its saga to the phase of its direction. *)
Lemma inflight_saga s k d : store_inv s → os_dispatches s !! k = Some d → d_State d = DispatchInFlight →
  ∃ sg, os_sagas s !! d_SagaID d = Some sg ∧ sg_State sg = phaseOf (d_Direction d).
Proof.
  intros Hi L P. destruct (disp_saga _ _ _ (inv_static _ Hi) L) as [sg Lsg]. exists sg. split; [done|].
  apply (z_active _ _ _ (inv_state _ Hi _ _ Lsg) k d); [done|by rewrite P|left; by rewrite P].
Qed.
Lemma inflight_earlier s k d : store_inv s → os_dispatches s !! k = Some d → d_State d = DispatchInFlight → earlierSucceeded s d.
Proof.
  intros Hi L P. eapply attempted_earlier; eauto. eapply di_started; [by apply (inv_disp _ Hi)|congruence..].
Qed.

Lemma SaveFencingGrants_inv ctx ln un id att tok g s s' :
  SaveFencingGrants ctx ln un id att tok g s = Ok s' → store_inv s → store_inv s'.
Proof.
  unfold SaveFencingGrants. intros H Hi. do 2 apply bind_Ok in H as ([] & _ & H).
  destruct (os_dispatches s !! id) as [d|] eqn:L; [|done]. inv_res. bool_to_prop.
  match goal with H : currentLeaseAt _ _ _ _ = true |- _ => apply currentLeaseAt_true in H as (P & _) end.
  pose proof (inv_static _ Hi) as Hs. destruct (disp_step _ _ _ Hs L) as (st & Lst & Hseq).
  destruct (inflight_saga _ _ _ Hi L P) as (sg & Lsg & Eph).
  match goal with |- store_inv (putAttempts _ _ (putDispatch _ ?x _)) => set (d' := x) end. set (s' := putAttempts id _ _).
  assert (U : updates s s' id d d' st st) by (by apply updates_put).
  eapply (inv_same_phase s s' id d d' st sg sg); try done;
    [by eapply static_put|by eapply only_updates|by rewrite P|by left|by eapply inflight_earlier|].
  unfold s'. rewrite attemptsOf_put. apply (disp_inv_grants d); try done. by apply (inv_disp _ Hi).
Qed.

(** ** CompleteDispatch *)

(** What a completion writes before any compensation step. *)
Definition completed (k : string) (l : list DispatchAttempt) (d d' : Dispatch) (st' : SagaStep) (sg' : SagaInstance)
    (s : InMemoryOutboxStore) : InMemoryOutboxStore :=
  putAttempts k l (putSaga (d_SagaID d) sg' (putStep (d_SagaID d) (d_EffectID d) st' (putDispatch k d' s))).

Section Completing.
  Context (s : InMemoryOutboxStore) (k : string) (l : list DispatchAttempt) (d d' : Dispatch)
    (st st' : SagaStep) (sg sg' : SagaInstance).
  Context (Hi : store_inv s) (L : os_dispatches s !! k = Some d) (P : d_State d = DispatchInFlight)
    (Lst : stepAt s (d_SagaID d) (d_EffectID d) = Some st) (Lsg : os_sagas s !! d_SagaID d = Some sg)
    (Eph : sg_State sg = phaseOf (d_Direction d))
    (Cd : d_core d' = d_core d) (Cst : st_core st' = st_core st) (Csg : sg_core sg' = sg_core sg)
    (Hd : disp_inv d' l).
Let s1 := completed k l d d' st' sg' s.

Lemma completed_updates : updates s s1 k d d' st st'.
Proof using L Lst Cd Cst.
    split; try done.
    - unfold stepsOf at 1. cbn. by rewrite lookup_insert_eq.
    - intros sid N. unfold stepsOf at 1. cbn. by rewrite lookup_insert_ne.
    - intros k1 N. unfold s1, completed. by rewrite attemptsOf_put_ne.
  Qed.
Lemma completed_static : static_inv s1.
Proof using Hi L Lst Lsg Cd Cst Csg.
    eapply static_evolves; [apply (inv_static _ Hi)|].
    eapply evolves_trans; [by eapply (evolves_putDispatch s k d d')|].
    eapply evolves_trans; [by eapply evolves_putStep|]. eapply evolves_trans; [by eapply evolves_putSaga|].
    apply evolves_putAttempts. cbn. rewrite lookup_insert_eq. eauto.
  Qed.
Lemma completed_only : only_saga s s1 (d_SagaID d).
Proof using L Lst Cd Cst.
    eapply only_updates; [apply completed_updates|]. intros sid N. cbn. by rewrite lookup_insert_ne.
  Qed.
Lemma completed_saga : os_sagas s1 !! d_SagaID d = Some sg'.
Proof using. cbn. by rewrite lookup_insert_eq. Qed.
Lemma completed_attempts : attemptsOf s1 k = l.
Proof using. apply attemptsOf_put. Qed.
Lemma completed_disp k1 d1 : ofSaga s1 (d_SagaID d) k1 d1 → disp_inv d1 (attemptsOf s1 k1).
Proof using Hi L Lst Cd Cst Hd.
    intros [[-> ->]|[N D1]]%(updates_ofSaga _ _ _ _ _ _ _ _ _ completed_updates); [by rewrite completed_attempts|].
    rewrite (up_atts _ _ _ _ _ _ _ completed_updates) by done. apply (inv_disp _ Hi), D1.
  Qed.
  (** The other dispatches of a saga with a dispatch in flight are only queued or closed. *)
Lemma completed_quiet : pendingState (d_State d') = false → quiet s1 (d_SagaID d).
Proof using Hi L P Lst Cd Cst.
    intros Np k1 d1 [[-> ->]|[N D1]]%(updates_ofSaga _ _ _ _ _ _ _ _ _ completed_updates) P1; [congruence|].
    by eapply (inflight_alone s k d k1).
  Qed.

  (** The step is pending while its forward dispatch is in flight, succeeded while its inverse is. *)
Lemma inflight_step : st_State st = match d_Direction d with DirectionForward => StepPending | DirectionCompensation => StepSucceeded end.
Proof using Hi L P Lst Lsg Eph.
    assert (couple d st) as C by (by eapply (w_couple _ _ (inv_struct _ Hi _ _ Lsg))).
    unfold couple in C. rewrite P in C. destruct (d_Direction d), (st_State st); naive_solver.
  Qed.
Lemma forward_alone k1 d1 : d_Direction d = DirectionForward → ofSaga s (d_SagaID d) k1 d1 →
    d_Direction d1 = DirectionForward.
Proof using Hi Lsg Eph.
    intros F D1. destruct (d_Direction d1) eqn:F1; [done|].
    destruct (z_nocomp _ _ _ (inv_state _ Hi _ _ Lsg) _ _ D1 F1) as [X _]. by rewrite Eph, F in X.
  Qed.

  (** While a dispatch is in flight, no outcome of its saga is lost. *)
Lemma inflight_known k1 d1 : ofSaga s (d_SagaID d) k1 d1 → knownState (d_State d1) = true.
Proof using Hi Lsg Eph.
    intros D1. pose proof (inv_state _ Hi _ _ Lsg) as Z. destruct (d_Direction d) eqn:F; rewrite Eph in Z.
    - destruct (z_running _ _ _ Z k1 d1 eq_refl D1) as [->|X]; [done|]. by destruct (d_State d1).
    - apply (z_known _ _ _ Z k1 d1); [by left|done].
  Qed.

Lemma completed_keeps : couple d' st' → (st_State st' = st_State st ∨ d_Direction d = DirectionForward ∧ st_State st' ≠ StepCompensated ∨
                     d_Direction d = DirectionCompensation ∧ st_State st' = StepCompensated) →
    keeps s s1 k d d' st st'.
Proof using Hi L P Lst Lsg Eph.
    intros C Hst. pose proof inflight_step as Est. pose proof (inv_struct _ Hi _ _ Lsg) as W. split; auto.
    - intros k1 d1 D1 F F1 _ Q. by eapply (inflight_earlier s k d).
    - congruence.
    - intros k1 d1 N D1 E. destruct Hst as [Hst|[[F _]|[F Hst]]].
      + assert (couple d1 st) as C1 by (eapply (w_couple _ _ W); [done|by rewrite E]). unfold couple in *. by rewrite Hst.
      + destruct N. destruct D1 as [L1 E1]. eapply (disp_unique s k1 k); eauto; [by apply inv_static|].
        rewrite F. by eapply forward_alone.
      + assert (couple d1 st) as C1 by (eapply (w_couple _ _ W); [done|by rewrite E]). unfold couple in *.
        destruct (d_Direction d1) eqn:F1; [rewrite Hst; by rewrite Est, F in C1|].
        destruct N. destruct D1 as [L1 E1]. eapply (disp_unique s k1 k); eauto; [by apply inv_static|congruence].
    - intros Hc. destruct Hst as [Hst|[[_ ?]|[F _]]]; [left; congruence|done|by right].
    - intros Hc. destruct Hst as [Hst|[[F _]|[F Hst]]]; [left; congruence| |congruence].
      right. intros k1 d1 D1 F1. assert (X := forward_alone k1 d1 F D1). congruence.
  Qed.

  (** Every dispatch of the saga is settled once the one in flight is closed. *)
Lemma completed_settled : pendingState (d_State d') = false → keeps s s1 k d d' st st' →
    (d_Direction d = DirectionCompensation → d_State d' = DispatchSucceeded) →
    knownState (d_State d') = true → settled s1 (d_SagaID d).
Proof using Hi L P Lst Lsg Eph Cd Cst Csg Hd.
    intros Np K Hc Hk. pose proof completed_updates as U. pose proof (inv_struct _ Hi _ _ Lsg) as W. split.
    - apply completed_static.
    - apply completed_disp.
    - by eapply struct_update.
    - by apply completed_quiet.
    - intros k1 d1 [[-> ->]|[N D1]]%(updates_ofSaga _ _ _ _ _ _ _ _ _ U); [done|by eapply inflight_known].
    - intros k1 d1 [[-> ->]|[N D1]]%(updates_ofSaga _ _ _ _ _ _ _ _ _ U) F1; [apply Hc; use_core; congruence|].
      assert (FA := forward_alone k1 d1). destruct (decide (d_Direction d = DirectionForward)) as [F|F].
      { rewrite FA in F1; done. }
      assert (d_Direction d = DirectionCompensation) by (by destruct (d_Direction d)).
      destruct (decide (d_State d1 = DispatchSucceeded)) as [|N1]; [done|]. destruct N.
      eapply (w_single _ _ W); eauto; [done|congruence].
  Qed.
Lemma completed_blocked : pendingState (d_State d') = false → d_State d' ≠ DispatchSucceeded →
    (d_Direction d = DirectionForward → d_State d' ≠ DispatchFailedPermanent) → st_State st' = st_State st →
    sg_State sg' ≠ SagaRunning → sg_State sg' ≠ SagaCompleted → sg_State sg' ≠ SagaCompensated →
    sg_State sg' ≠ SagaCompensating → store_inv s1.
Proof using Hi L P Lst Lsg Eph Cd Cst Csg Hd.
    intros Np N1 N2 Es Z1 Z2 Z3 Z4. assert (K : keeps s s1 k d d' st st').
    { apply completed_keeps; [|by left]. pose proof inflight_step as E. unfold couple.
      replace (d_Direction d') with (d_Direction d) by (use_core; congruence). rewrite Es, E.
      destruct (d_Direction d); [auto|]. by destruct (d_State d'). }
    apply (inv_local s s1 (d_SagaID d)); [done|apply completed_only|apply completed_static|apply completed_disp| |].
    - eapply struct_update; [apply completed_updates|done|]. by eapply (inv_struct _ Hi).
    - intros sg1. rewrite completed_saga. intros [= <-].
      apply quiet_state; [by apply completed_quiet|done..|]. by intros [?|?].
  Qed.
Lemma completed_retry : d_State d' = DispatchRetryWait → st' = st → sg_State sg' = sg_State sg → store_inv s1.
Proof using Hi L P Lst Lsg Eph Cd Cst Csg Hd.
    intros P' Es Ez. pose proof completed_updates as U. rewrite Es in U.
    eapply (inv_same_phase s s1 k d d' st sg sg'); try done.
    - apply completed_static.
    - apply completed_only.
    - apply completed_saga.
    - by rewrite P.
    - by right.
    - by eapply inflight_earlier.
    - by rewrite completed_attempts.
  Qed.
Lemma completed_forward : d_Direction d = DirectionForward → d_State d' = DispatchSucceeded →
    st_State st' = StepSucceeded → sg_State sg' = sg_State sg → store_inv s1.
Proof using Hi L P Lst Lsg Eph Cd Cst Csg Hd.
    intros F P' Es Ez. pose proof completed_updates as U. assert (C1 : d_Direction d' = d_Direction d) by (use_core; congruence).
    apply (inv_local s s1 (d_SagaID d)); [done|apply completed_only|apply completed_static|apply completed_disp| |].
    - eapply struct_update; [exact U| |by eapply (inv_struct _ Hi)].
      apply completed_keeps; [|right; left; by rewrite Es]. unfold couple. by rewrite C1, F, Es.
    - intros sg1. rewrite completed_saga. intros [= <-]. rewrite Ez. pose proof (inv_state _ Hi _ _ Lsg) as Z.
      rewrite Eph, F in *. split; intros *; try done.
      + intros [[-> ->]|[N D1]]%(updates_ofSaga _ _ _ _ _ _ _ _ _ U) F1; [congruence|by eapply (z_nocomp _ _ _ Z)].
      + intros [[-> ->]|[N D1]]%(updates_ofSaga _ _ _ _ _ _ _ _ _ U) P1 A; [by rewrite P' in P1|by eapply (z_active _ _ _ Z)].
      + intros _ [[-> ->]|[N D1]]%(updates_ofSaga _ _ _ _ _ _ _ _ _ U); [by left|by eapply (z_running _ _ _ Z)].
      + by intros [?|?].
  Qed.
End Completing.

Lemma applyCompletion_core d st sg c prior d' st' sg' : applyCompletion d st sg c prior = (d', st', sg') →
  d_core d' = d_core d ∧ st_core st' = st_core st ∧ sg_core sg' = sg_core sg ∧ d_Attempt d' = d_Attempt d ∧
  d_LeaseOwner d' = "" ∧ d_LeaseToken d' = "" ∧ d_LeaseDeadline d' = zeroTime.
Proof.
  unfold applyCompletion. cbn. destruct prior; [|destruct (cp_Outcome c)]; try destruct (cp_Exhausted c);
    destruct (d_Direction d) eqn:F; intros [= <- <- <-]; unfold d_core; cbn; rewrite ?F; repeat split.
Qed.

Definition failsForward (prior : bool) (c : Completion) : bool :=
  negb prior && (bool_decide (cp_Outcome c = OutcomePermanentFailure)
                 || (bool_decide (cp_Outcome c = OutcomeRetryableKnownNotCommitted) && cp_Exhausted c)).

(** The five ways a completion can go. *)
Inductive completion_case (d : Dispatch) (st : SagaStep) (sg : SagaInstance) (c : Completion) (prior : bool)
    (d' : Dispatch) (st' : SagaStep) (sg' : SagaInstance) : Prop :=
  | case_retry : d_State d' = DispatchRetryWait → st' = st → sg_State sg' = sg_State sg →
      cp_Outcome c = OutcomeRetryableKnownNotCommitted ∨ cp_Outcome c = OutcomeUnknown →
      failsForward prior c = false → completion_case d st sg c prior d' st' sg'
  | case_blocked : pendingState (d_State d') = false → d_State d' ≠ DispatchSucceeded → d_State d' ≠ DispatchCanceled →
      (d_Direction d = DirectionForward → d_State d' ≠ DispatchFailedPermanent) → st' = st →
      sg_State sg' ≠ SagaRunning → sg_State sg' ≠ SagaCompleted → sg_State sg' ≠ SagaCompensated →
      sg_State sg' ≠ SagaCompensating → cp_Outcome c ≠ OutcomeSuccess → (d_Direction d = DirectionForward → failsForward prior c = false) →
      (d_State d' = DispatchFailedPermanent ∨ d_State d' = DispatchBlockedFence → prior = false ∧
         terminalOutcomeMayMaskPriorUnknown c = true) →
      (d_State d' = DispatchFailedPermanent → cp_Outcome c ≠ OutcomeStaleFence) → completion_case d st sg c prior d' st' sg'
  | case_forward : d_Direction d = DirectionForward → d_State d' = DispatchSucceeded → st_State st' = StepSucceeded →
      sg_State sg' = sg_State sg → cp_Outcome c = OutcomeSuccess → failsForward prior c = false →
      completion_case d st sg c prior d' st' sg'
  | case_inverse : d_Direction d = DirectionCompensation → d_State d' = DispatchSucceeded → st_State st' = StepCompensated →
      sg_State sg' = sg_State sg → cp_Outcome c = OutcomeSuccess → completion_case d st sg c prior d' st' sg'
  | case_failed : d_Direction d = DirectionForward → d_State d' = DispatchFailedPermanent → st_State st' = StepFailed →
      cp_Outcome c ≠ OutcomeSuccess → failsForward prior c = true → prior = false →
      terminalOutcomeMayMaskPriorUnknown c = true → cp_Outcome c ≠ OutcomeStaleFence →
      completion_case d st sg c prior d' st' sg'.

Lemma applyCompletion_cases d st sg c prior d' st' sg' : isOk (validateCompletion c) = true →
  (prior = true → terminalOutcomeMayMaskPriorUnknown c = true) →
  applyCompletion d st sg c prior = (d', st', sg') → completion_case d st sg c prior d' st' sg'.
Proof.
  intros Hv Hp. assert (Ho : ∀ x, cp_Outcome c ≠ OutcomeOther x).
  { intros x E. unfold validateCompletion in Hv. rewrite E in Hv. by destruct (failIf _ _). }
  unfold applyCompletion, terminalOutcomeMayMaskPriorUnknown in *. cbn. destruct prior; [specialize (Hp eq_refl)|clear Hp];
    destruct (cp_Outcome c) eqn:O, (d_Direction d) eqn:F, (cp_Exhausted c) eqn:X; try (by destruct (Ho class)); try (vm_compute in Hp; discriminate Hp);
    intros [= <- <- <-];
    let t := (unfold failsForward, terminalOutcomeMayMaskPriorUnknown; cbn; rewrite ?O, ?X, ?F; cbn;
              first [done | naive_solver]) in
    first [ solve [apply case_forward; t] | solve [apply case_inverse; t] | solve [apply case_retry; t]
          | solve [apply case_failed; t] | solve [apply case_blocked; t] ].
Qed.

Lemma CompleteDispatch_Ok ctx dn ln c0 s s' : CompleteDispatch ctx dn ln c0 s = Ok s' →
  let c := if timeIsZero (cp_Now c0) then c0 <| cp_Now := dn |> else c0 in
  ∃ d st sg d' st' sg', validateCompletion c = Ok tt ∧
    os_dispatches s !! cp_DispatchID c = Some d ∧
    currentLeaseAt (Some d) (cp_Attempt c) (cp_LeaseToken c) ln = true ∧
    os_sagas s !! d_SagaID d = Some sg ∧ stepAt s (d_SagaID d) (d_EffectID d) = Some st ∧
    let prior := terminalOutcomeMayMaskPriorUnknown c
                 && negb (priorAttemptsKnownNotCommitted (attemptsOf s (d_ID d)) (d_Attempt d)) in
    applyCompletion d st sg c prior = (d', st', sg') ∧
    let f := λ a, a <| at_Outcome := cp_Outcome c |> <| at_Error := cp_Error c |> <| at_CompletedAt := cp_Now c |> in
    let s1 := putAttempts (d_ID d) (updateLast f (attemptsOf s (d_ID d)))
                (putSaga (d_SagaID d) sg' (putStep (d_SagaID d) (d_EffectID d) st'
                   (putDispatch (cp_DispatchID c) d' s))) in
    s' = match d_Direction d with
         | DirectionForward =>
             if failsForward prior c then startCompensationLocked (d_SagaID d) sg' (cp_Now c) s1 else s1
         | DirectionCompensation =>
             if bool_decide (cp_Outcome c = OutcomeSuccess)
             then enqueueNextCompensationLocked (d_SagaID d) sg' (cp_Now c) s1 else s1
         end.
Proof.
  intros H c. unfold CompleteDispatch in H. fold c in H. apply bind_Ok in H as ([] & _ & H).
  apply bind_Ok in H as ([] & Hv & H). destruct (os_dispatches s !! cp_DispatchID c) as [d|] eqn:L; [|done].
  apply bind_Ok in H as ([] & Hl%failIf_Ok & H). apply negb_false_iff in Hl.
  destruct (os_sagas s !! d_SagaID d) as [sg|] eqn:Lsg; [|done].
  destruct (stepsOf s (d_SagaID d) !! d_EffectID d) as [st|] eqn:Lst; [|done].
  destruct (applyCompletion _ _ _ _ _) as [[d' st'] sg'] eqn:A. injection H as <-.
  exists d, st, sg, d', st', sg'. done.
Qed.

Lemma CompleteDispatch_inv ctx dn ln c0 s s' : CompleteDispatch ctx dn ln c0 s = Ok s' → store_inv s → store_inv s'.
Proof.
  intros H Hi. apply CompleteDispatch_Ok in H. set (c := if timeIsZero _ then _ else _) in *. cbv zeta in H.
  destruct H as (d & st & sg & d' & st' & sg' & Hv & L & (P & _)%currentLeaseAt_true & Lsg & Lst & A & ->).
  pose proof (inv_static _ Hi) as Hs. destruct (si_disp _ Hs _ _ L) as (Eid & _). rewrite Eid in *.
  set (prior := terminalOutcomeMayMaskPriorUnknown c && _) in *. set (k := cp_DispatchID c) in *.
  set (f := λ a : DispatchAttempt, _). set (l := updateLast f _). fold (completed k l d d' st' sg' s).
  destruct (inflight_saga _ _ _ Hi L P) as (sg1 & Lsg1 & Eph). rewrite Lsg in Lsg1. injection Lsg1 as <-.
  destruct (applyCompletion_core _ _ _ _ _ _ _ _ A) as (Cd & Cst & Csg & Ea & E1 & E2 & E3).
  assert (Hc : completion_case d st sg c prior d' st' sg').
  { apply applyCompletion_cases; [by rewrite Hv| |done]. intros E. by apply andb_true_iff in E as [? _]. }
  assert (Hd : disp_inv d' l).
  { apply (disp_inv_complete d); try done; [by apply (inv_disp _ Hi)|..].
    - intros a. cbn. destruct Hc as [R _ _ [R'|R']| | | |]; split; congruence.
    - use_core. congruence.
    - destruct Hc as [E| |? E|? E|? E]; [left; by rewrite E|by right|right; by rewrite E..].
    - intros E. assert (prior = false ∧ terminalOutcomeMayMaskPriorUnknown c = true) as [Q T].
      { destruct Hc; [|auto|..|done]; destruct E; congruence. }
      unfold prior in Q. rewrite T in Q. cbn in Q. by apply negb_false_iff in Q.
    - intros E a. unfold openAttempt. cbn. destruct Hc as [_ _ _ R| X | | |]; [tauto|by rewrite E in X|congruence..].
    - intros E a. cbn. assert (cp_Outcome c ≠ OutcomeStaleFence ∧ terminalOutcomeMayMaskPriorUnknown c = true) as [N T].
      { destruct Hc as [| ? ? ? ? ? ? ? ? ? ? ? X Y| | |]; try congruence; [|done]. split; [auto|]. apply X. by left. }
      unfold terminalOutcomeMayMaskPriorUnknown in T. rewrite !orb_true_iff, andb_true_iff, !bool_decide_eq_true in T. tauto. }
  assert (Hsid : sg_SagaID sg' = d_SagaID d).
  { destruct (si_saga _ Hs _ _ Lsg) as (<- & _). by use_core. }
  destruct Hc as [R1 R2 R3 R4 R5|R1 R2 R3 R4 R5 R6 R7 R8 R12 R9 R10 R11 R13|R1 R2 R3 R4 R5 R6|R1 R2 R3 R4 R5|R1 R2 R3 R4 R5 R6 R7 R8].
  - assert (store_inv (completed k l d d' st' sg' s)) by (by eapply completed_retry).
    rewrite R5, bool_decide_eq_false_2 by (destruct R4; congruence). by destruct (d_Direction d).
  - assert (store_inv (completed k l d d' st' sg' s)) by (eapply completed_blocked; eauto; congruence).
    rewrite (bool_decide_eq_false_2 _ R9). destruct (d_Direction d); [by rewrite R10|done].
  - rewrite R1, R6. by eapply completed_forward.
  - rewrite R1, bool_decide_eq_true_2 by done.
    destruct (nextCompensation_ok (completed k l d d' st' sg' s) (d_SagaID d) sg' (cp_Now c)) as [[O1 O2 O3 O4] O]; [..|].
    + apply completed_saga.
    + done.
    + eapply completed_settled; eauto; [by rewrite R2| |by rewrite R2]. eapply completed_keeps; eauto.
      unfold couple. replace (d_Direction d') with (d_Direction d) by (use_core; congruence). by rewrite R1, R2.
    + by rewrite R4, Eph, R1.
    + eapply inv_local; eauto. eapply only_saga_trans; [|exact O]. by eapply completed_only.
  - rewrite R1, R5.
    destruct (startCompensation_ok (completed k l d d' st' sg' s) (d_SagaID d) sg' (cp_Now c)) as [[O1 O2 O3 O4] O]; [..|].
    + apply completed_saga.
    + done.
    + eapply completed_settled; eauto; [by rewrite R2| |congruence|by rewrite R2]. eapply completed_keeps; eauto; [|right; left; by rewrite R3].
      unfold couple. replace (d_Direction d') with (d_Direction d) by (use_core; congruence). by rewrite R1, R2, R3.
    + eapply inv_local; eauto. eapply only_saga_trans; [|exact O]. by eapply completed_only.
Qed.
