(* ===== verification/OutboxClose.v ===== *)
(** * Closing sagas, and the reachable stores

    The remaining operations of the outbox store ([CompleteSaga],
    [FinalizeStoppedExecution], [BlockSagaCompensation] and
    [FinalizeFailFastSaga]) preserve the store invariant; so every store that a
    sequence of operations builds satisfies it. *)

From S2P Require Import Prelude GoText Sha256 Json Workflow Identity Outbox OutboxInv OutboxDyn OutboxOps.
From Stdlib Require Import ZArith String.
Local Open Scope list_scope.
Local Open Scope Z_scope.

(** ** Closing the dispatches of one saga *)
Record closer (s : InMemoryOutboxStore) (sid : string) (f : Dispatch → Dispatch) : Prop := {
  cs_closes d : closes d (f d);
  cs_other d : d_SagaID d ≠ sid → f d = d;
  cs_disp d : disp_inv d (attemptsOf s (d_ID d)) → disp_inv (f d) (attemptsOf s (d_ID d)) }.

Section Closer.
  Context (s : InMemoryOutboxStore) (sid : string) (f : Dispatch → Dispatch).
  Context (Hi : store_inv s) (Hf : closer s sid f).
Let s1 := s <| os_dispatches := f <$> os_dispatches s |>.

Lemma closer_only : only_saga s s1 sid.
Proof using Hf.
    split; [|done]. intros sid' N. split; [done| |done]. intros k d. unfold s1. rewrite (closing_ofSaga _ _ (cs_closes _ _ _ Hf)).
    split.
    - intros (d0 & [L <-] & ->). rewrite (cs_other _ _ _ Hf) by done. done.
    - intros [L <-]. exists d. by rewrite (cs_other _ _ _ Hf).
  Qed.
Lemma closer_static : static_inv s1.
Proof using Hi Hf.
    eapply static_evolves; [apply (inv_static _ Hi)|]. apply evolves_fmap. intros d. apply (cs_closes _ _ _ Hf).
  Qed.
Lemma closer_disp k d : ofSaga s1 sid k d → disp_inv d (attemptsOf s1 k).
Proof using Hi Hf.
    intros (d0 & [L E] & ->)%(closing_ofSaga _ _ (cs_closes _ _ _ Hf)).
    destruct (si_disp _ (inv_static _ Hi) _ _ L) as (<- & _). apply (cs_disp _ _ _ Hf d0), (inv_disp _ Hi _ _ L).
  Qed.
Lemma closer_struct sg : os_sagas s !! sid = Some sg → struct_inv s1 sid.
Proof using Hi Hf. intros L. apply struct_closing; [apply Hf|]. by eapply (inv_struct _ Hi). Qed.
  (** Closing keeps what a state other than running promises. *)
Lemma closer_state S : state_inv s sid S → S ≠ SagaRunning →
    (S = SagaCompensating ∨ S = SagaCompensated → ∀ k d, ofSaga s1 sid k d → knownState (d_State d) = true) →
    state_inv s1 sid S.
Proof using Hf.
    intros [Z1 Z2 Z3 Z4 Z5 Z6] N Kn. split; try done.
    - intros k d (d0 & D & ->)%(closing_ofSaga _ _ (cs_closes _ _ _ Hf)) F. eapply Z1; eauto.
      destruct (cs_closes _ _ _ Hf d0) as [C _]. use_core. congruence.
    - intros k d (d0 & D & ->)%(closing_ofSaga _ _ (cs_closes _ _ _ Hf)) P A.
      destruct (cs_closes _ _ _ Hf d0) as [C [E|[_ [E|E]]]]; [|by rewrite E in P..]. rewrite E in *. by eapply Z2.
    - intros k d E (d0 & D & ->)%(closing_ofSaga _ _ (cs_closes _ _ _ Hf)).
      apply (closes_succ _ _ (cs_closes _ _ _ Hf d0)). by eapply Z4.
    - intros k d E. by apply Kn.
  Qed.

Lemma closer_inv sg sg' S : os_sagas s !! sid = Some sg → sg_core sg' = sg_core sg → sg_State sg' = S →
    state_inv s1 sid S → store_inv (putSaga sid sg' s1).
Proof using Hi Hf.
    intros L C E Z. apply (inv_local s _ sid); [done|..].
    - eapply only_saga_trans; [apply closer_only|apply only_putSaga].
    - eapply static_evolves; [apply closer_static|]. by eapply evolves_putSaga.
    - apply closer_disp.
    - eapply struct_frame; [apply same_saga_putSaga|by eapply closer_struct].
    - intros sg1. cbn. rewrite lookup_insert_eq. intros [= <-]. rewrite E. eapply state_frame; [apply same_saga_putSaga|done].
  Qed.
Lemma closer_inv_same sg : os_sagas s !! sid = Some sg → sg_State sg ≠ SagaRunning →
    (sg_State sg = SagaCompensating ∨ sg_State sg = SagaCompensated →
       ∀ k d, ofSaga s1 sid k d → knownState (d_State d) = true) → store_inv s1.
Proof using Hi Hf.
    intros L N Kn. apply (inv_local s _ sid); [done|apply closer_only|apply closer_static|apply closer_disp|by eapply closer_struct|].
    intros sg1 L1. change (os_sagas s !! sid = Some sg1) in L1. simplify_eq. apply closer_state; [|done..]. by apply (inv_state _ Hi).
  Qed.
End Closer.

(** A pending dispatch that is canceled, or blocked once attempted. *)
Lemma cancel_closes d now reason : pendingState (d_State d) = true → closes d (cancelDispatch d now reason).
Proof. intros P. split; [done|]. right. auto. Qed.
Lemma block_closes d now : pendingState (d_State d) = true → closes d (blockExpiredDispatch d now).
Proof. intros P. split; [done|]. right. auto. Qed.
Lemma blockRetry_closes d now : pendingState (d_State d) = true → closes d (blockUnknownRetryDispatch d now).
Proof. intros P. split; [done|]. right. auto. Qed.
Lemma certain_attempts s d : d_State d = DispatchQueued ∨ d_State d = DispatchRetryWait →
  isUncertainRetryLocked s d = false → disp_inv d (attemptsOf s (d_ID d)) →
  ∀ i a, attemptsOf s (d_ID d) !! i = Some a → at_Outcome a = OutcomeRetryableKnownNotCommitted.
Proof.
  intros [P|P] U H i a L; [by rewrite (di_queued _ _ H P) in L|]. unfold isUncertainRetryLocked in U.
  rewrite bool_decide_eq_false_2 in U by (rewrite P; tauto). destruct (bool_decide _) in U; [done|].
  destruct (di_open _ _ H i a) as [O|[O|[O1 O2]]]; [by rewrite P|done|done|exfalso..].
  all: assert (existsb (λ a, bool_decide (at_Outcome a = OutcomeUnknown) || timeIsZero (at_CompletedAt a))
         (attemptsOf s (d_ID d)) = true) as X; [|congruence]; apply existsb_exists; exists a;
       (split; [apply list_elem_of_In; by eapply list_elem_of_lookup_2|]); apply orb_true_iff.
  - left. by apply bool_decide_eq_true.
  - right. by apply bool_decide_eq_true.
Qed.
Lemma cancel_disp s d now reason : d_State d = DispatchQueued ∨ d_State d = DispatchRetryWait →
  isUncertainRetryLocked s d = false → disp_inv d (attemptsOf s (d_ID d)) →
  disp_inv (cancelDispatch d now reason) (attemptsOf s (d_ID d)).
Proof.
  intros P U H. destruct (di_nolease _ _ H) as (? & ? & ?); [by destruct P as [->| ->]|].
  eapply disp_inv_close; eauto; [by destruct P as [->| ->]|]. intros _. by apply certain_attempts.
Qed.
Lemma block_disp d now l : d_State d = DispatchInFlight → disp_inv d l → disp_inv (blockExpiredDispatch d now) l.
Proof. intros P H. eapply disp_inv_close; eauto; [by rewrite P| |done]. right. by rewrite P. Qed.
Lemma blockRetry_disp d now l : d_State d = DispatchRetryWait → disp_inv d l → disp_inv (blockUnknownRetryDispatch d now) l.
Proof.
  intros P H. destruct (di_nolease _ _ H) as (? & ? & ?); [by rewrite P|].
  eapply disp_inv_close; eauto; [by rewrite P| |done]. right. by rewrite P.
Qed.
Lemma closes_refl d : closes d d.
Proof. split; auto. Qed.
Lemma closes_trans d1 d2 d3 : closes d1 d2 → closes d2 d3 → closes d1 d3.
Proof.
  intros [C1 H1] [C2 H2]. split; [congruence|]. destruct H2 as [->|[P2 H2]]; [done|].
  destruct H1 as [->|[P1 [E|E]]]; [by right|by rewrite E in P2..].
Qed.
#[export] Hint Resolve closes_refl : effectus.

Lemma uncertainRetry_state s d : isUncertainRetryLocked s d = true → d_State d = DispatchRetryWait.
Proof.
  unfold isUncertainRetryLocked. destruct (bool_decide _) eqn:E; [done|]. bool_to_prop. intros _. by apply dec_stable.
Qed.

(** ** BlockSagaCompensation *)
Lemma blockCompensation_closer s now sid : closer s sid (blockCompensationDispatch s now sid).
Proof.
  unfold blockCompensationDispatch. split.
  - intros d. destruct (_ && _); [|apply closes_refl]. destruct (d_State d) eqn:E; try apply closes_refl.
    + apply cancel_closes. by rewrite E.
    + apply block_closes. by rewrite E.
    + destruct (isUncertainRetryLocked s d); [apply blockRetry_closes|apply cancel_closes]; by rewrite E.
  - intros d N. rewrite bool_decide_eq_false_2 by done. done.
  - intros d H. destruct (_ && _); [|exact H]. destruct (d_State d) eqn:E; try exact H.
    + apply cancel_disp; [by left| |exact H]. unfold isUncertainRetryLocked. by rewrite E.
    + by apply block_disp.
    + destruct (isUncertainRetryLocked s d) eqn:U; [by apply blockRetry_disp|apply cancel_disp; [by right|exact U|exact H]].
Qed.
Lemma BlockSagaCompensation_inv ctx now sid s s' :
  BlockSagaCompensation ctx now sid s = Ok s' → store_inv s → store_inv s'.
Proof.
  unfold BlockSagaCompensation. intros H Hi. apply bind_Ok in H as ([] & _ & H).
  apply bind_Ok in H as (sg & Lsg%ofOption_Ok & H). destruct (bool_decide (sg_State sg = _)); [by inv_res|].
  apply bind_Ok in H as ([] & E%failIf_Ok & H). apply bind_Ok in H as ([] & _ & H). bool_to_prop. apply dec_stable in E.
  injection H as <-. set (S := if mapExists _ _ then _ else _).
  eapply (closer_inv s sid); [done|apply blockCompensation_closer|done|done|done|].
  assert (S = SagaBlockedUnknown ∨ S = SagaBlockedCompensation) as HS by (unfold S; destruct (mapExists _ _); auto).
  apply quiet_state; [|by destruct HS as [->| ->]..|by destruct HS as [->| ->]; intros [?|?]].
  intros k d (d0 & D & ->)%(closing_ofSaga _ _ (cs_closes _ _ _ (blockCompensation_closer s now sid))).
  unfold blockCompensationDispatch. destruct D as [L Ed]. rewrite (bool_decide_eq_true_2 (d_SagaID d0 = sid)) by done. cbn [andb].
  destruct (d_Direction d0) eqn:F; cbn [bool_decide].
  - rewrite bool_decide_eq_false_2 by done. intros P. destruct (decide (d_State d0 = DispatchQueued)) as [|N]; [done|].
    assert (X := z_active _ _ _ (inv_state _ Hi _ _ Lsg) k d0 (conj L Ed) P (or_introl N)). rewrite E, F in X. done.
  - rewrite bool_decide_eq_true_2 by done. destruct (d_State d0) eqn:Es; cbn; rewrite ?Es; try done.
    by destruct (isUncertainRetryLocked s d0).
Qed.

(** ** CompleteSaga and FinalizeFailFastSaga *)
Lemma finishSaga_inv s sid sg state now : store_inv s → os_sagas s !! sid = Some sg → state_inv s sid state →
  store_inv (finishSaga sid sg state now s).
Proof.
  intros Hi L Z. apply (inv_local s _ sid); [done|apply only_putSaga|..].
  - eapply static_evolves; [apply (inv_static _ Hi)|]. by eapply evolves_putSaga.
  - intros k d [Ld _]. by apply (inv_disp _ Hi).
  - eapply struct_frame; [apply same_saga_putSaga|]. by eapply (inv_struct _ Hi).
  - intros sg1. cbn. rewrite lookup_insert_eq. intros [= <-]. cbn. eapply state_frame; [apply same_saga_putSaga|done].
Qed.
Lemma CompleteSaga_inv ctx now sid s s' : CompleteSaga ctx now sid s = Ok s' → store_inv s → store_inv s'.
Proof.
  unfold CompleteSaga. intros H Hi. apply bind_Ok in H as ([] & _ & H).
  apply bind_Ok in H as (sg & Lsg%ofOption_Ok & H). destruct (bool_decide (sg_State sg = _)); [by inv_res|].
  apply bind_Ok in H as ([] & E%failIf_Ok & H). apply bind_Ok in H as ([] & M%failIf_Ok & H). bool_to_prop. apply dec_stable in E.
  injection H as <-. pose proof (inv_state _ Hi _ _ Lsg) as Z. rewrite E in Z.
  assert (Hall : ∀ k d, ofSaga s sid k d → d_State d = DispatchSucceeded).
  { intros k d [L Ed]. apply mapExists_false with (k := k) (v := d) in M; [|done].
    rewrite bool_decide_eq_true_2 in M by done. cbn in M. bool_to_prop. by apply dec_stable. }
  apply finishSaga_inv; [done..|]. split; try done.
  - intros k d D F. by destruct (z_nocomp _ _ _ Z k d D F).
  - intros k d D P. by rewrite (Hall k d D) in P.
  - intros k d _ D. by eapply Hall.
  - by intros k d [?|?].
Qed.
Lemma FinalizeFailFastSaga_inv ctx now sid s s' : FinalizeFailFastSaga ctx now sid s = Ok s' → store_inv s → store_inv s'.
Proof.
  unfold FinalizeFailFastSaga. intros H Hi. apply bind_Ok in H as ([] & _ & H).
  apply bind_Ok in H as (sg & Lsg%ofOption_Ok & H). destruct (bool_decide (sg_State sg = _)); [by inv_res|].
  apply bind_Ok in H as ([] & E%failIf_Ok & H). apply bind_Ok in H as ([] & _ & H). bool_to_prop. apply dec_stable in E.
  injection H as <-. pose proof (inv_state _ Hi _ _ Lsg) as Z. rewrite E in Z.
  apply finishSaga_inv; [done..|]. apply quiet_state; try done; [|by intros [?|?]]. intros k d D P.
  destruct (decide (d_State d = DispatchQueued)) as [Q|N].
  - split; [done|]. destruct (d_Direction d) eqn:F; [done|].
    assert (X := z_active _ _ _ Z k d D P (or_intror F)). by rewrite F in X.
  - assert (X := z_active _ _ _ Z k d D P (or_introl N)). by destruct (d_Direction d).
Qed.

(** ** FinalizeStoppedExecution *)
Definition closeStopped (s : InMemoryOutboxStore) (now : Time) (sid : string) (d : Dispatch) : Dispatch :=
  cancelPending now sid (settleDispatch s now sid d).

(** What one dispatch of a stopped saga becomes. *)
Lemma closeStopped_cases s now sid d : d_SagaID d = sid →
  (d_State d = DispatchInFlight ∧ closeStopped s now sid d = blockExpiredDispatch d now) ∨
  (isUncertainRetryLocked s d = true ∧ closeStopped s now sid d = blockUnknownRetryDispatch d now) ∨
  ((d_State d = DispatchQueued ∨ d_State d = DispatchRetryWait) ∧ isUncertainRetryLocked s d = false ∧
     closeStopped s now sid d = cancelDispatch d now "execution stopped before dispatch could complete") ∨
  (pendingState (d_State d) = false ∧ closeStopped s now sid d = d).
Proof.
  intros E. unfold closeStopped, settleDispatch. rewrite bool_decide_eq_false_2 by auto.
  destruct (bool_decide (d_State d = DispatchInFlight)) eqn:P; bool_to_prop.
  { left. split; [done|]. unfold cancelPending. cbn. by rewrite andb_false_r. }
  destruct (isUncertainRetryLocked s d) eqn:U.
  { right. left. split; [done|]. unfold cancelPending. cbn. by rewrite andb_false_r. }
  unfold cancelPending. rewrite (bool_decide_eq_true_2 (d_SagaID d = sid)) by done. cbn [andb].
  destruct (d_State d) eqn:S; cbn; try done; right; right; (right; done) || (left; auto).
Qed.
Lemma closeStopped_other s now sid d : d_SagaID d ≠ sid → closeStopped s now sid d = d.
Proof.
  intros N. unfold closeStopped, settleDispatch, cancelPending. rewrite (bool_decide_eq_true_2 (d_SagaID d ≠ sid)) by done.
  by rewrite bool_decide_eq_false_2.
Qed.
Lemma closeStopped_closer s now sid : closer s sid (closeStopped s now sid).
Proof.
  split.
  - intros d. destruct (decide (d_SagaID d = sid)) as [E|N]; [|rewrite closeStopped_other by done; apply closes_refl].
    destruct (closeStopped_cases s now sid d E) as [[P ->]|[[P%uncertainRetry_state ->]|[(P & _ & ->)|[_ ->]]]];
      [apply block_closes|apply blockRetry_closes|apply cancel_closes|apply closes_refl];
      [by rewrite P|by rewrite P|by destruct P as [->| ->]].
  - intros d N. by apply closeStopped_other.
  - intros d H. destruct (decide (d_SagaID d = sid)) as [E|N]; [|by rewrite closeStopped_other].
    destruct (closeStopped_cases s now sid d E) as [[P ->]|[[P%uncertainRetry_state ->]|[(P & U & ->)|[_ ->]]]];
      [by apply block_disp|by apply blockRetry_disp|by apply cancel_disp|done].
Qed.
Lemma closeStopped_pending s now sid d : d_SagaID d = sid → pendingState (d_State (closeStopped s now sid d)) = false.
Proof. intros E. destruct (closeStopped_cases s now sid d E) as [[P ->]|[[P ->]|[(P & _ & ->)|[P ->]]]]; done. Qed.
(** A dispatch is left unknown exactly when its effect may have happened. *)
Lemma closeStopped_unknown s now sid d : d_SagaID d = sid →
  d_State (closeStopped s now sid d) = DispatchBlockedUnknown ↔ uncertainDispatch s sid d = true.
Proof.
  intros E. unfold uncertainDispatch. rewrite (bool_decide_eq_true_2 (d_SagaID d = sid)) by done. cbn [andb].
  rewrite !orb_true_iff, !bool_decide_eq_true.
  destruct (closeStopped_cases s now sid d E) as [[P ->]|[[P ->]|[(P & Q & ->)|[P ->]]]].
  - cbn. tauto.
  - cbn. tauto.
  - cbn. split; [done|]. intros [[X|X]|X]; [destruct P; congruence|congruence|destruct P; congruence].
  - split; [tauto|]. intros [[X|X]|X]; [by rewrite X in P|apply uncertainRetry_state in X; by rewrite X in P|done].
Qed.

Definition stoppedDependency (sid : string) (d : Dispatch) : bool :=
  bool_decide (d_SagaID d = sid) && bool_decide (d_Direction d = DirectionForward)
  && bool_decide (d_State d = DispatchSucceeded).
Lemma stoppedStateStep_spec s sid next d : stoppedStateStep s sid next d =
  if uncertainDispatch s sid d then SagaBlockedUnknown
  else if stoppedDependency sid d && bool_decide (next ≠ SagaBlockedUnknown) then SagaBlockedDependency else next.
Proof.
  unfold stoppedStateStep, uncertainDispatch, stoppedDependency. rewrite bool_decide_not.
  destruct (bool_decide (d_SagaID d = sid)); [|done]. cbn.
  destruct (bool_decide (d_State d = DispatchInFlight)), (isUncertainRetryLocked s d),
    (bool_decide (d_State d = DispatchBlockedUnknown)); done.
Qed.
(** The state a stopped saga gets, from its dispatches in any order. *)
Lemma foldl_stopped s sid l next : foldl (stoppedStateStep s sid) next l =
  if existsb (uncertainDispatch s sid) l then SagaBlockedUnknown
  else if bool_decide (next = SagaBlockedUnknown) then SagaBlockedUnknown
  else if existsb (stoppedDependency sid) l then SagaBlockedDependency else next.
Proof.
  revert next. induction l as [|d l IH]; intros next; cbn [foldl existsb].
  - by destruct (bool_decide _) eqn:E; bool_to_prop.
  - rewrite IH, stoppedStateStep_spec. rewrite bool_decide_not.
    destruct (uncertainDispatch s sid d), (existsb (uncertainDispatch s sid) l), (stoppedDependency sid d),
      (bool_decide (next = SagaBlockedUnknown)) eqn:E; cbn; rewrite ?E; try done.
    all: by destruct (existsb (stoppedDependency sid) l).
Qed.

(** Nothing of the saga can run again, and an unknown effect is visible in its state. *)
Record closedSaga (s : InMemoryOutboxStore) (sid : string) : Prop := {
  cl_saga : ∃ sg, os_sagas s !! sid = Some sg ∧ isTerminalSaga (sg_State sg) = true ∧
    ((∃ k d, ofSaga s sid k d ∧ d_State d = DispatchBlockedUnknown) → sg_State sg = SagaBlockedUnknown);
  cl_pending k d : ofSaga s sid k d → pendingState (d_State d) = false }.

Lemma closedSaga_frame s s' sid : same_saga s s' sid → os_sagas s' !! sid = os_sagas s !! sid → closedSaga s sid → closedSaga s' sid.
Proof.
  intros [_ E _] E1 [H1 H2]. split; [rewrite E1; setoid_rewrite E; done|]. intros k d. rewrite E. apply H2.
Qed.

Lemma stopped_terminal s sid l initial : isTerminalSaga initial = true → initial ≠ SagaCompleted → initial ≠ SagaCompensated →
  let next := foldl (stoppedStateStep s sid) initial l in
  isTerminalSaga next = true ∧ next ≠ SagaCompleted ∧ next ≠ SagaCompensated.
Proof.
  intros T N1 N2. cbn. rewrite foldl_stopped. destruct (existsb _ l); [done|]. destruct (bool_decide _); [done|].
  by destruct (existsb _ l).
Qed.

Lemma finalizeStoppedSaga_spec eid now s k sg : store_inv s → os_sagas s !! k = Some sg →
  let s' := finalizeStoppedSaga eid now s (k, sg) in
  store_inv s' ∧ only_saga s s' k ∧ (sg_ExecutionID sg = eid → closedSaga s' k).
Proof.
  intros Hi L s'. unfold s', finalizeStoppedSaga. destruct (si_saga _ (inv_static _ Hi) _ _ L) as (Ek & _ & _). rewrite Ek.
  destruct (bool_decide (sg_ExecutionID sg ≠ eid)) eqn:Ee; bool_to_prop; [done|].
  pose proof (closeStopped_closer s now k) as Hc. change (_ ∘ _) with (closeStopped s now k).
  set (s1 := s <| os_dispatches := closeStopped s now k <$> os_dispatches s |>).
  assert (Hof : ∀ k1 d1, ofSaga s1 k k1 d1 → ∃ d, ofSaga s k k1 d ∧ d1 = closeStopped s now k d).
  { intros k1 d1. apply (closing_ofSaga _ _ (cs_closes _ _ _ Hc)). }
  assert (Hpend : ∀ k1 d1, ofSaga s1 k k1 d1 → pendingState (d_State d1) = false).
  { intros k1 d1 (d & [_ E] & ->)%Hof. by apply closeStopped_pending. }
  assert (Hunc : (∃ k1 d1, ofSaga s1 k k1 d1 ∧ d_State d1 = DispatchBlockedUnknown) →
            existsb (uncertainDispatch s k) (map_to_list (os_dispatches s)).*2 = true).
  { intros (k1 & d1 & (d & [Ld E] & ->)%Hof & U). apply closeStopped_unknown in U; [|done].
    apply existsb_exists. exists d. split; [|done]. apply list_elem_of_In, elem_of_map_values. eauto. }
  assert (Hquiet : quiet s1 k).
  { intros k1 d1 D P. by rewrite (Hpend k1 d1 D) in P. }
  assert (Hput : ∀ state, isTerminalSaga state = true → state ≠ SagaCompleted → state ≠ SagaCompensated →
     (existsb (uncertainDispatch s k) (map_to_list (os_dispatches s)).*2 = true → state = SagaBlockedUnknown) →
     let s2 := finishSaga k sg state now s1 in
     store_inv s2 ∧ only_saga s s2 k ∧ (sg_ExecutionID sg = eid → closedSaga s2 k)).
  { intros state T N1 N2 U s2. split; [|split].
    - eapply (closer_inv s k) with (S := state); [done|exact Hc|exact L|done|done|]. apply quiet_state; try done; [intros X; by rewrite X in T|]. intros [X|X]; [by rewrite X in T|done].
    - eapply only_saga_trans; [by apply closer_only|apply only_putSaga].
    - intros _. split; [|done]. eexists. split; [cbn; by rewrite lookup_insert_eq|]. cbn. split; [done|]. intros X. apply U, Hunc, X. }
  destruct (isTerminalSaga (sg_State sg)) eqn:T.
  - destruct (mapExists (uncertainDispatch s k) (os_dispatches s)) eqn:U; cbn [andb].
    + destruct (bool_decide _) eqn:B; bool_to_prop; [by apply Hput|]. apply dec_stable in B.
      split; [eapply (closer_inv_same s k); try done; rewrite B; [done|by intros [?|?]]|]. split; [by apply closer_only|].
      intros _. split; [|done]. by exists sg.
    + split; [eapply (closer_inv_same s k); try done; [intros X; by rewrite X in T|]|].
      { intros X k1 d1 (d & [Ld E] & ->)%Hof. assert (Kd := z_known _ _ _ (inv_state _ Hi _ _ L) k1 d X (conj Ld E)).
        rewrite mapExists_false in U. specialize (U k1 d Ld). destruct (cs_closes _ _ _ Hc d) as [_ [->|[_ [->|Y]]]]; try done.
        apply closeStopped_unknown in Y; [congruence|done]. }
       split; [by apply closer_only|].
      intros _. split; [|done]. exists sg. split; [done|]. split; [done|]. intros X%Hunc. unfold mapExists in U. congruence.
  - set (initial := if bool_decide (sg_State sg = SagaCompensating) then SagaBlockedDependency else SagaFailed).
    destruct (stopped_terminal s k (map_to_list (os_dispatches s)).*2 initial) as (T1 & T2 & T3);
      [unfold initial; by destruct (bool_decide _)..|]. apply Hput; try done.
    intros X. by rewrite foldl_stopped, X.
Qed.

Lemma finalize_fold eid now l : ∀ s, store_inv s → NoDup l.*1 → (∀ k sg, (k, sg) ∈ l → os_sagas s !! k = Some sg) →
  let s' := foldl (finalizeStoppedSaga eid now) s l in
  store_inv s' ∧ (∀ k, k ∉ l.*1 → same_saga s s' k ∧ os_sagas s' !! k = os_sagas s !! k) ∧
  (∀ k sg, (k, sg) ∈ l → sg_ExecutionID sg = eid → closedSaga s' k) ∧
  (∀ k sg, (k, sg) ∈ l → sg_ExecutionID sg ≠ eid → same_saga s s' k ∧ os_sagas s' !! k = os_sagas s !! k).
Proof.
  induction l as [|[k sg] l IH]; intros s Hi Hn Hl; cbn [foldl].
  { split; [done|]. split; [done|]. split; intros k sg H; by apply elem_of_nil in H. }
  apply NoDup_cons in Hn as [Hk Hn]. destruct (finalizeStoppedSaga_spec eid now s k sg) as (H1 & [H2 H3] & H4);
    [done|apply Hl; set_solver|]. set (s1 := finalizeStoppedSaga eid now s (k, sg)) in *.
  destruct (IH s1 H1 Hn) as (I1 & I2 & I3 & I4).
  { intros k1 sg1 L. rewrite H3; [apply Hl; set_solver|]. intros ->. apply Hk. apply list_elem_of_fmap. by exists (k, sg1). }
  split; [done|]. split; [|split].
  - intros k1 [N1 N2]%not_elem_of_cons. destruct (I2 k1 N2) as [J1 J2]. split; [eapply same_saga_trans; eauto|].
    rewrite J2. by apply H3.
  - intros k1 sg1 [[= -> ->]|L]%elem_of_cons E; [|by eapply I3]. destruct (I2 k Hk) as [J1 J2].
    eapply closedSaga_frame; eauto.
  - intros k1 sg1 [[= -> ->]|L]%elem_of_cons E.
    + destruct (I2 k Hk) as [J1 J2]. assert (s1 = s) as X by (unfold s1, finalizeStoppedSaga; by rewrite bool_decide_eq_true_2).
      clearbody s1. by subst s1.
    + assert (k1 ≠ k) by (intros ->; apply Hk, list_elem_of_fmap; by exists (k, sg1)).
      destruct (I4 k1 sg1 L E) as [J1 J2]. split; [eapply same_saga_trans; eauto|]. rewrite J2. by apply H3.
Qed.

Lemma finalize_entries s : NoDup (map_to_list (os_sagas s)).*1 ∧
  (∀ k sg, (k, sg) ∈ map_to_list (os_sagas s) → os_sagas s !! k = Some sg).
Proof. split; [apply NoDup_fst_map_to_list|]. intros k sg H. by apply elem_of_map_to_list. Qed.

Lemma FinalizeStoppedExecution_inv ctx now eid s s' :
  FinalizeStoppedExecution ctx now eid s = Ok s' → store_inv s → store_inv s'.
Proof.
  unfold FinalizeStoppedExecution. intros H Hi. do 3 apply bind_Ok in H as ([] & _ & H). injection H as <-.
  destruct (finalize_entries s). by apply finalize_fold.
Qed.

(** ** Reachable stores *)
Inductive outbox_step : InMemoryOutboxStore → InMemoryOutboxStore → Prop :=
  | step_create tb ctx now req s sg s' : CreateSaga tb ctx now req s = Ok (sg, s') → outbox_step s s'
  | step_enqueue ctx now req s d s' : EnqueueStep ctx now req s = Ok (d, s') → outbox_step s s'
  | step_claim ctx now token o s d s' : ClaimDispatch ctx now token o s = Ok (d, s') → outbox_step s s'
  | step_grants ctx ln un id att tok g s s' : SaveFencingGrants ctx ln un id att tok g s = Ok s' → outbox_step s s'
  | step_complete ctx dn ln c s s' : CompleteDispatch ctx dn ln c s = Ok s' → outbox_step s s'
  | step_complete_saga ctx now sid s s' : CompleteSaga ctx now sid s = Ok s' → outbox_step s s'
  | step_stop ctx now eid s s' : FinalizeStoppedExecution ctx now eid s = Ok s' → outbox_step s s'
  | step_block ctx now sid s s' : BlockSagaCompensation ctx now sid s = Ok s' → outbox_step s s'
  | step_failfast ctx now sid s s' : FinalizeFailFastSaga ctx now sid s = Ok s' → outbox_step s s'.
Definition reachable : InMemoryOutboxStore → Prop := rtc outbox_step NewInMemoryOutboxStore.

Lemma outbox_step_inv s s' : outbox_step s s' → store_inv s → store_inv s'.
Proof.
  destruct 1; eauto using CreateSaga_inv, EnqueueStep_inv, ClaimDispatch_inv, SaveFencingGrants_inv,
    CompleteDispatch_inv, CompleteSaga_inv, FinalizeStoppedExecution_inv, BlockSagaCompensation_inv, FinalizeFailFastSaga_inv.
Qed.
Lemma reachable_inv s : reachable s → store_inv s.
Proof.
  intros H. refine (rtc_ind_r store_inv _ inv_empty _ s H). intros s1 s2 _ Hs Hi. by eapply outbox_step_inv.
Qed.
#[export] Hint Resolve reachable_inv inv_static : effectus.
