(* ===== verification/OutboxGrowth.v ===== *)
(** * What outbox operations never undo

    Identities, step payloads and attempt histories only grow: an operation keeps
    every saga, step, dispatch and attempt it finds, up to the mutable fields. *)

From S2P Require Import Prelude GoText Sha256 Json Workflow Identity Outbox OutboxInv OutboxDyn OutboxOps OutboxClose.
From Stdlib Require Import ZArith String.
Local Open Scope list_scope.
Local Open Scope Z_scope.

(** What identifies an attempt and its lease. *)
Definition at_core (a : DispatchAttempt) :=
  (at_DispatchID a, at_Attempt a, at_LeaseOwner a, at_LeaseToken a, at_LeaseDeadline a, at_StartedAt a).

Record extends (s s' : InMemoryOutboxStore) : Prop := {
  ex_saga k sg : os_sagas s !! k = Some sg → ∃ sg', os_sagas s' !! k = Some sg' ∧ sg_core sg' = sg_core sg;
  ex_step sid eid st : stepAt s sid eid = Some st → ∃ st', stepAt s' sid eid = Some st' ∧ st_core st' = st_core st;
  ex_disp k d : os_dispatches s !! k = Some d → ∃ d', os_dispatches s' !! k = Some d' ∧ d_core d' = d_core d;
  ex_atts k : (at_core <$> attemptsOf s k) `prefix_of` (at_core <$> attemptsOf s' k) }.

Lemma extends_refl s : extends s s.
Proof. split; eauto. Qed.
Lemma extends_trans s1 s2 s3 : extends s1 s2 → extends s2 s3 → extends s1 s3.
Proof.
  intros [A1 A2 A3 A4] [B1 B2 B3 B4]. split.
  - intros k sg (sg' & L & E)%A1. destruct (B1 _ _ L) as (sg2 & L2 & E2). exists sg2. split; [done|congruence].
  - intros sid eid st (st' & L & E)%A2. destruct (B2 _ _ _ L) as (st2 & L2 & E2). exists st2. split; [done|congruence].
  - intros k d (d' & L & E)%A3. destruct (B3 _ _ L) as (d2 & L2 & E2). exists d2. split; [done|congruence].
  - intros k. by transitivity (at_core <$> attemptsOf s2 k).
Qed.
#[export] Instance extends_preorder : PreOrder extends.
Proof. split; [exact extends_refl|exact extends_trans]. Qed.

(** A map after one entry is put where it keeps the identifying part of an old one. *)
Lemma put_keeps {A B} (f : A → B) (m : gmap string A) k y j x : (∀ z, m !! k = Some z → f y = f z) → m !! j = Some x →
  ∃ x', <[k := y]> m !! j = Some x' ∧ f x' = f x.
Proof.
  intros H L. destruct (decide (j = k)) as [->|N].
  - exists y. rewrite lookup_insert_eq. split; [done|]. by apply H.
  - exists x. by rewrite lookup_insert_ne.
Qed.

Lemma extends_putSaga s k sg : (∀ z, os_sagas s !! k = Some z → sg_core sg = sg_core z) → extends s (putSaga k sg s).
Proof. intros H. split; eauto. intros j x L. cbn. by apply put_keeps. Qed.
Lemma extends_putDispatch s k d : (∀ z, os_dispatches s !! k = Some z → d_core d = d_core z) → extends s (putDispatch k d s).
Proof. intros H. split; eauto. intros j x L. cbn. by apply put_keeps. Qed.
Lemma extends_putStep s sid eid st : (∀ z, stepAt s sid eid = Some z → st_core st = st_core z) → extends s (putStep sid eid st s).
Proof.
  intros H. split; eauto. intros sid' eid' st' L. unfold stepAt, stepsOf. cbn. destruct (decide (sid' = sid)) as [->|N].
  - rewrite lookup_insert_eq. cbn. by apply put_keeps.
  - rewrite lookup_insert_ne by done. eauto.
Qed.
Lemma extends_putAttempts s k l : (at_core <$> attemptsOf s k) `prefix_of` (at_core <$> l) → extends s (putAttempts k l s).
Proof.
  intros H. split; eauto. intros k'. destruct (decide (k' = k)) as [->|N]; [by rewrite attemptsOf_put|by rewrite attemptsOf_put_ne].
Qed.
Lemma extends_closing s f : (∀ d, d_core (f d) = d_core d) → extends s (s <| os_dispatches := f <$> os_dispatches s |>).
Proof. intros H. split; eauto. intros k d L. exists (f d). cbn. by rewrite lookup_fmap, L. Qed.
Lemma extends_finishSaga s k sg state now : os_sagas s !! k = Some sg → extends s (finishSaga k sg state now s).
Proof. intros L. apply extends_putSaga. intros z Lz. simplify_eq. done. Qed.
Lemma updateLast_core f l : (∀ a, at_core (f a) = at_core a) → at_core <$> updateLast f l = at_core <$> l.
Proof.
  intros H. destruct l as [|x l'] using rev_ind; [done|]. rewrite updateLast_snoc, !fmap_app. cbn. by rewrite H.
Qed.

(** ** Compensation *)
Lemma extends_enqueueCompensation sg st now s : extends s (enqueueCompensationLocked sg st now s).
Proof.
  unfold enqueueCompensationLocked. destruct (os_dispatches s !! _) eqn:L; [reflexivity|].
  apply extends_putDispatch. intros z Lz. congruence.
Qed.
Lemma extends_startCompensation k sg now s : os_sagas s !! k = Some sg → extends s (startCompensationLocked k sg now s).
Proof.
  intros L. unfold startCompensationLocked. destruct (compensationCandidateLocked s _).
  - etrans; [by eapply extends_finishSaga|apply extends_enqueueCompensation].
  - destruct (hasSucceededStepLocked _ _); by apply extends_finishSaga.
Qed.
Lemma extends_nextCompensation k sg now s : os_sagas s !! k = Some sg → extends s (enqueueNextCompensationLocked k sg now s).
Proof.
  intros L. unfold enqueueNextCompensationLocked. destruct (compensationCandidateLocked s _); [apply extends_enqueueCompensation|].
  destruct (hasSucceededStepLocked _ _); by apply extends_finishSaga.
Qed.

(** ** Every operation *)
Lemma CreateSaga_extends tb ctx now req s sg s' : store_inv s → CreateSaga tb ctx now req s = Ok (sg, s') → extends s s'.
Proof.
  unfold CreateSaga. intros Hi H. inv_res. destruct (os_sagas s !! cs_SagaID req) eqn:L; inv_res; [reflexivity|]. split; eauto.
  - intros k sg Lk. exists sg. cbn. rewrite lookup_insert_ne; [done|congruence].
  - intros sid eid st Ls. exists st. split; [|done]. unfold stepAt, stepsOf. cbn. rewrite lookup_insert_ne; [done|].
    intros <-. apply (si_step _ (inv_static _ Hi)) in Ls as [[? ?] _]. congruence.
Qed.
Lemma EnqueueStep_extends ctx now req s d s' : store_inv s → EnqueueStep ctx now req s = Ok (d, s') → extends s s'.
Proof.
  unfold EnqueueStep. intros Hi H. apply bind_Ok in H as ([] & _ & H). apply bind_Ok in H as (n & _ & H).
  apply bind_Ok in H as (sg & Lsg%ofOption_Ok & H). set (r := ne_request n) in *.
  destruct (os_dispatches s !! _) eqn:Ld.
  { destruct (stepsOf s (eq_SagaID r) !! eq_EffectID r); [|done]. destruct (sameStep _ _ _ _); [|done]. by injection H as _ <-. }
  inv_res. destruct (si_saga _ (inv_static _ Hi) _ _ Lsg) as (Esid & _).
  assert (Hno : stepAt s (eq_SagaID r) (eq_EffectID r) = None).
  { rewrite Esid in Ld. eapply fresh_step; eauto using inv_static. }
  refine (extends_trans _ _ _ (extends_trans _ _ _ (extends_putStep s _ _ _ _) (extends_putDispatch _ _ _ _)) (extends_putSaga _ _ _ _)).
  - intros z Lz. congruence.
  - cbn. intros z Lz. congruence.
  - cbn. intros z Lz. rewrite Lsg in Lz. by injection Lz as <-.
Qed.
Lemma ClaimDispatch_extends ctx now token o s d s' : store_inv s → ClaimDispatch ctx now token o s = Ok (d, s') → extends s s'.
Proof.
  intros Hi (k & d0 & tok & L & _ & _ & _ & -> & ->)%ClaimDispatch_Ok.
  etrans; [apply (extends_putDispatch s k (claimed (claimNow now o) o tok d0)); intros z Lz; simplify_eq; done|].
  apply extends_putAttempts. rewrite fmap_app. apply prefix_app_r. done.
Qed.
Lemma SaveFencingGrants_extends ctx ln un id att tok g s s' : SaveFencingGrants ctx ln un id att tok g s = Ok s' → extends s s'.
Proof.
  unfold SaveFencingGrants. intros H. do 2 apply bind_Ok in H as ([] & _ & H).
  destruct (os_dispatches s !! id) as [d|] eqn:L; [|done]. inv_res.
  refine (extends_trans _ _ _ (extends_putDispatch s _ _ _) (extends_putAttempts _ _ _ _)).
  - intros z Lz. rewrite L in Lz. by injection Lz as <-.
  - by rewrite updateLast_core.
Qed.
Lemma CompleteDispatch_extends ctx dn ln c s s' : CompleteDispatch ctx dn ln c s = Ok s' → extends s s'.
Proof.
  intros H. apply CompleteDispatch_Ok in H. cbv zeta in H.
  destruct H as (d & st & sg & d' & st' & sg' & _ & L & _ & Lsg & Lst & A & ->).
  destruct (applyCompletion_core _ _ _ _ _ _ _ _ A) as (Cd & Cst & Csg & _).
  match goal with |- context [putAttempts ?k ?l ?x] => set (s1 := putAttempts k l x) end.
  assert (X : extends s s1).
  { refine (extends_trans _ _ _ (extends_trans _ _ _ (extends_trans _ _ _ (extends_putDispatch s _ d' _)
      (extends_putStep _ _ _ st' _)) (extends_putSaga _ _ sg' _)) (extends_putAttempts _ _ _ _)).
    - intros z Lz. congruence.
    - intros z Lz. change (stepAt s (d_SagaID d) (d_EffectID d) = Some z) in Lz. congruence.
    - cbn. intros z Lz. congruence.
    - by rewrite updateLast_core. }
  assert (Ls1 : os_sagas s1 !! d_SagaID d = Some sg') by (cbn; by rewrite lookup_insert_eq).
  destruct (d_Direction d).
  - destruct (failsForward _ _); [|done]. etrans; [exact X|]. by apply extends_startCompensation.
  - destruct (bool_decide _); [|done]. etrans; [exact X|]. by apply extends_nextCompensation.
Qed.
Lemma finalizeStoppedSaga_extends eid now s k sg : os_sagas s !! k = Some sg → extends s (finalizeStoppedSaga eid now s (k, sg)).
Proof.
  intros L. unfold finalizeStoppedSaga. destruct (bool_decide _); [reflexivity|].
  match goal with |- context [s <| os_dispatches := ?x |>] => set (s1 := s <| os_dispatches := x |>) end.
  assert (X : extends s s1).
  { apply extends_closing. intros d. apply (cs_closes _ _ _ (closeStopped_closer s now (sg_SagaID sg)) d). }
  destruct (isTerminalSaga _); [destruct (_ && _); [|done]|]; (etrans; [exact X|]); by apply extends_finishSaga.
Qed.
Lemma FinalizeStoppedExecution_extends ctx now eid s s' : store_inv s →
  FinalizeStoppedExecution ctx now eid s = Ok s' → extends s s'.
Proof.
  intros Hi H. unfold FinalizeStoppedExecution in H. do 3 apply bind_Ok in H as ([] & _ & H). injection H as <-.
  destruct (finalize_entries s) as [Hn Hl]. revert Hi Hn Hl. generalize (map_to_list (os_sagas s)). intros l. revert s.
  induction l as [|[k sg] l IH]; intros s Hi Hn Hl; cbn [foldl]; [reflexivity|].
  apply NoDup_cons in Hn as [Hk Hn]. assert (L : os_sagas s !! k = Some sg) by (apply Hl; apply elem_of_cons; by left).
  destruct (finalizeStoppedSaga_spec eid now s k sg Hi L) as (H1 & [_ H3] & _).
  etrans; [by apply finalizeStoppedSaga_extends|]. apply IH; [done|done|].
  intros k1 sg1 L1. rewrite H3; [apply Hl; apply elem_of_cons; by right|]. intros ->. apply Hk, list_elem_of_fmap. by exists (k, sg1).
Qed.
Lemma CompleteSaga_extends ctx now sid s s' : CompleteSaga ctx now sid s = Ok s' → extends s s'.
Proof.
  unfold CompleteSaga. intros H. apply bind_Ok in H as ([] & _ & H). apply bind_Ok in H as (sg & Lsg%ofOption_Ok & H).
  destruct (bool_decide (sg_State sg = _)); [by injection H as <-|]. inv_res. by apply extends_finishSaga.
Qed.
Lemma FinalizeFailFastSaga_extends ctx now sid s s' : FinalizeFailFastSaga ctx now sid s = Ok s' → extends s s'.
Proof.
  unfold FinalizeFailFastSaga. intros H. apply bind_Ok in H as ([] & _ & H). apply bind_Ok in H as (sg & Lsg%ofOption_Ok & H).
  destruct (bool_decide (sg_State sg = _)); [by injection H as <-|]. inv_res. by apply extends_finishSaga.
Qed.
Lemma BlockSagaCompensation_extends ctx now sid s s' : BlockSagaCompensation ctx now sid s = Ok s' → extends s s'.
Proof.
  unfold BlockSagaCompensation. intros H. apply bind_Ok in H as ([] & _ & H). apply bind_Ok in H as (sg & Lsg%ofOption_Ok & H).
  destruct (bool_decide (sg_State sg = _)); [by injection H as <-|]. inv_res.
  etrans; [apply (extends_closing s (blockCompensationDispatch s now sid))|by apply extends_finishSaga].
  intros d. apply (cs_closes _ _ _ (blockCompensation_closer s now sid) d).
Qed.
Lemma outbox_step_extends s s' : store_inv s → outbox_step s s' → extends s s'.
Proof.
  destruct 2; eauto using CreateSaga_extends, EnqueueStep_extends, ClaimDispatch_extends, SaveFencingGrants_extends,
    CompleteDispatch_extends, CompleteSaga_extends, FinalizeStoppedExecution_extends, BlockSagaCompensation_extends,
    FinalizeFailFastSaga_extends.
Qed.
Lemma rtc_inv_extends s s' : store_inv s → rtc outbox_step s s' → store_inv s' ∧ extends s s'.
Proof.
  intros Hi H. induction H as [s|s1 s2 s3 S1 _ IH]; [done|]. destruct IH as [? ?]; [by eapply outbox_step_inv|].
  split; [done|]. etrans; [by apply outbox_step_extends|done].
Qed.
