(* ===== verification/OutboxDemo.v ===== *)
(** * A concrete run of the outbox store

    Three effects with inverses: the first two succeed, the third fails for good, and
    the first two are undone, last first. The stores of the run instantiate the
    store's properties. *)

From S2P Require Import Prelude GoText Sha256 Json Workflow Identity Outbox OutboxInv OutboxDyn OutboxOps OutboxClose.
From Stdlib Require Import ZArith String.
Local Open Scope list_scope.
Local Open Scope Z_scope.

(** ** Scripts of operations *)
Inductive OutboxOp : Type :=
  | OpCreate (now : Time) (request : CreateSagaRequest)
  | OpEnqueue (now : Time) (request : EnqueueStepRequest json)
  | OpClaim (token : string) (options : ClaimOptions)
  | OpComplete (leaseNow : Time) (completion : Completion)
  | OpStop (now : Time) (executionID : string).
Definition runOp (op : OutboxOp) (s : InMemoryOutboxStore) : result InMemoryOutboxStore :=
  match op with
  | OpCreate now request => snd <$> CreateSaga false None now request s
  | OpEnqueue now request => snd <$> EnqueueStep None now request s
  | OpClaim token options => snd <$> ClaimDispatch None 0 (Ok token) options s
  | OpComplete leaseNow completion => CompleteDispatch None 0 leaseNow completion s
  | OpStop now executionID => FinalizeStoppedExecution None now executionID s
  end.
Definition runOps (ops : list OutboxOp) (s : InMemoryOutboxStore) : result InMemoryOutboxStore :=
  foldR (λ s op, runOp op s) ops s.

Lemma runOp_step op s s' : runOp op s = Ok s' → outbox_step s s'.
Proof.
  destruct op; unfold runOp.
  - destruct (CreateSaga _ _ _ _ _) as [[a s1]|] eqn:E; [|done]. intros [= <-]. by eapply step_create.
  - destruct (EnqueueStep _ _ _ _) as [[a s1]|] eqn:E; [|done]. intros [= <-]. by eapply step_enqueue.
  - destruct (ClaimDispatch _ _ _ _ _) as [[a s1]|] eqn:E; [|done]. intros [= <-]. by eapply step_claim.
  - apply step_complete.
  - apply step_stop.
Qed.
Lemma runOps_reachable ops s s' : reachable s → runOps ops s = Ok s' → reachable s'.
Proof.
  revert s. induction ops as [|op ops IH]; intros s H; cbn; [by intros [= <-]|].
  intros (s1 & E & E')%bind_Ok. eapply IH; [|exact E']. eapply rtc_r; [exact H|]. by eapply runOp_step.
Qed.

(** ** The run *)
Definition demoSaga : string := Eval vm_compute in StableSagaID "exec" "plan".
Definition demoKey (effect : string) (dir : Direction) : string :=
  dispatchIDOf (IdempotencyKey "ns" demoSaga effect dir).
Definition demoCreate : CreateSagaRequest := mkCreateSaga "ns" demoSaga "exec" "plan" "digest" true false.
Definition demoStep (effect : string) (seq : Z) : EnqueueStepRequest json :=
  mkEnqueue demoSaga effect seq "verb" "contract" (Some {[ "n" := JNum "1" ]}) "undo" "undo-contract" None [].
Definition demoClaim : OutboxOp := OpClaim "token" (mkClaim "worker" 100 1000 "").
Definition demoComplete (effect : string) (dir : Direction) (outcome : OutcomeClass) (err : string) : OutboxOp :=
  OpComplete 1001 (mkCompletion (demoKey effect dir) 1 "token" outcome "true" err zeroTime false 1001).

(** [a] is in flight and [b] is queued. *)
Definition demoStart : list OutboxOp :=
  [OpCreate 1 demoCreate; OpEnqueue 2 (demoStep "a" 1); OpEnqueue 3 (demoStep "b" 2); demoClaim].
(** [a] and [b] have succeeded, [c] has failed: the inverse of [b] is in flight. *)
Definition demoFail : list OutboxOp :=
  [demoComplete "a" DirectionForward OutcomeSuccess ""; demoClaim; demoComplete "b" DirectionForward OutcomeSuccess "";
   OpEnqueue 4 (demoStep "c" 3); demoClaim; demoComplete "c" DirectionForward OutcomePermanentFailure "no"; demoClaim].
(** [b] is undone: the inverse of [a] is in flight. *)
Definition demoUndo : list OutboxOp := [demoComplete "b" DirectionCompensation OutcomeSuccess ""; demoClaim].
(** Both are undone. *)
Definition demoDone : list OutboxOp := [demoComplete "a" DirectionCompensation OutcomeSuccess ""].

Definition storeOf (r : result InMemoryOutboxStore) : InMemoryOutboxStore :=
  match r with Ok s => s | Err _ => NewInMemoryOutboxStore end.
Definition started := Eval vm_compute in storeOf (runOps demoStart NewInMemoryOutboxStore).
Definition failed := Eval vm_compute in storeOf (runOps demoFail started).
Definition undoing := Eval vm_compute in storeOf (runOps demoUndo failed).
Definition undone := Eval vm_compute in storeOf (runOps demoDone undoing).

Lemma started_reachable : reachable started.
Proof. eapply (runOps_reachable demoStart); [apply rtc_refl|]. vm_cast_no_check (eq_refl (Ok started)). Qed.
Lemma failed_reachable : reachable failed.
Proof. eapply (runOps_reachable demoFail); [apply started_reachable|]. vm_cast_no_check (eq_refl (Ok failed)). Qed.
Lemma undoing_reachable : reachable undoing.
Proof. eapply (runOps_reachable demoUndo); [apply failed_reachable|]. vm_cast_no_check (eq_refl (Ok undoing)). Qed.
Lemma undone_reachable : reachable undone.
Proof. eapply (runOps_reachable demoDone); [apply undoing_reachable|]. vm_cast_no_check (eq_refl (Ok undone)). Qed.

(** A dispatch of a store of the run. *)
Definition noDispatch : Dispatch := mkDispatch "" "" "" 0 DirectionForward "" "" "" "" "" DispatchQueued 0 "" ""
  zeroTime zeroTime [] [] (OutcomeOther "") "" "" 0 zeroTime zeroTime.
Definition dispatchIn (s : InMemoryOutboxStore) (k : string) : Dispatch := default noDispatch (os_dispatches s !! k).
Definition undoneC : Dispatch := Eval vm_compute in dispatchIn undone (demoKey "c" DirectionForward).
Definition noSaga : SagaInstance := mkSaga "" "" "" "" "" SagaRunning false 0 zeroTime zeroTime.
Definition sagaIn (s : InMemoryOutboxStore) (k : string) : SagaInstance := default noSaga (os_sagas s !! k).
Definition undoneSaga : SagaInstance := Eval vm_compute in sagaIn undone demoSaga.
(** The lease on [a] has expired and another worker has claimed it. *)
Definition reclaimedStore := Eval vm_compute in storeOf (snd <$> ClaimDispatch None 0 (Ok "token-2") (mkClaim "worker-2" 100 2000 "") started).
Definition startedA : Dispatch := Eval vm_compute in dispatchIn started (demoKey "a" DirectionForward).
Definition reclaimedA : Dispatch := Eval vm_compute in dispatchIn reclaimedStore (demoKey "a" DirectionForward).
