(* ===== verification/OutboxProps.v ===== *)
(** * What the outbox store guarantees

    The properties a client of the store relies on, for every store that a
    sequence of operations reaches: order, exclusion, what success, failure and
    compensation mean, and how a stopped execution is closed. *)

From S2P Require Import Prelude GoText Sha256 Json Workflow Identity Outbox OutboxInv OutboxDyn OutboxOps OutboxClose OutboxDemo.
From Stdlib Require Import ZArith String.
Local Open Scope list_scope.
Local Open Scope Z_scope.

(** ** Order and exclusion *)

(** C1: Every store built by any sequence of successful outbox operations satisfies the store invariant:
    identities are consistent and unique, attempts are numbered and leases recorded, steps and
    dispatches agree, and each saga state keeps its promise. *)
Theorem outbox_invariant (s : InMemoryOutboxStore) : reachable s → store_inv s.
Proof. apply reachable_inv. Qed.
Lemma outbox_invariant_witness : store_inv undone.
Proof. apply (outbox_invariant undone). exact undone_reachable. Defined.

(** C26: Plan order. When a forward dispatch has been attempted, every forward dispatch of the same saga
    with a smaller sequence number has succeeded, in every reachable store. *)
Theorem effects_start_in_plan_order (s : InMemoryOutboxStore) k d k' d' : reachable s →
  os_dispatches s !! k = Some d → os_dispatches s !! k' = Some d' → d_SagaID d' = d_SagaID d →
  d_Direction d = DirectionForward → d_Direction d' = DirectionForward →
  ListAttempts None k s ≠ Ok [] → d_Sequence d' < d_Sequence d → d_State d' = DispatchSucceeded.
Proof.
  intros Hi%reachable_inv L L' E F F' A Q. eapply (attempted_earlier s k d Hi L); eauto; [|done].
  intros X. apply A. cbn. by rewrite X.
Qed.
Lemma effects_start_in_plan_order_witness :
  (λ d, d_State d) <$> os_dispatches failed !! demoKey "a" DirectionForward = Some DispatchSucceeded.
Proof.
  destruct (os_dispatches failed !! demoKey "a" DirectionForward) as [d'|] eqn:L'; [|by vm_compute in L'].
  destruct (os_dispatches failed !! demoKey "b" DirectionForward) as [d|] eqn:L; [|by vm_compute in L]. cbn. f_equal.
  apply (effects_start_in_plan_order failed (demoKey "b" DirectionForward) d (demoKey "a" DirectionForward) d' failed_reachable L L').
  all: vm_compute in L, L'; injection L as <-; injection L' as <-; vm_compute; try done; intros X; discriminate X.
Defined.

(** At most one dispatch of a saga is in flight or waiting for a retry, in either direction and
    whether or not its lease has expired. *)
Theorem at_most_one_active_dispatch (s : InMemoryOutboxStore) sid : reachable s →
  (List.length (List.filter (λ d, bool_decide (d_SagaID d = sid) &&
     (bool_decide (d_State d = DispatchInFlight) || bool_decide (d_State d = DispatchRetryWait)))
     (map_to_list (os_dispatches s)).*2) ≤ 1)%nat.
Proof.
  intros Hi%reachable_inv. set (act := λ d, _ && _).
  assert (Hact : ∀ d, act d = true → d_SagaID d = sid ∧ pendingState (d_State d) = true ∧ d_State d ≠ DispatchQueued).
  { intros d. unfold act. rewrite andb_true_iff, orb_true_iff, !bool_decide_eq_true. intros [? [->| ->]]; done. }
  apply (filter_at_most_one (map_to_list (os_dispatches s)) act); [apply NoDup_fst_map_to_list|].
  intros k d k' d' L%elem_of_map_to_list L'%elem_of_map_to_list A A'.
  destruct (Hact _ A) as (E & P & Q), (Hact _ A') as (E' & P' & Q').
  destruct (decide (k' = k)) as [->|N]; [done|]. destruct (active_alone s k d k' d' Hi L P Q); try done. split; congruence.
Qed.
Lemma at_most_one_active_dispatch_witness :
  (List.length (List.filter (λ d, bool_decide (d_SagaID d = demoSaga) &&
     (bool_decide (d_State d = DispatchInFlight) || bool_decide (d_State d = DispatchRetryWait)))
     (map_to_list (os_dispatches undoing)).*2) ≤ 1)%nat.
Proof. apply (at_most_one_active_dispatch undoing demoSaga). exact undoing_reachable. Defined.

(** ** What outcomes mean *)

(** Exactly-once success. If an attempt of a dispatch is recorded as successful then the dispatch has
    succeeded, no later attempt was ever made, and the dispatch can never be claimed again. *)
Theorem success_is_final (s : InMemoryOutboxStore) k d i a : reachable s →
  os_dispatches s !! k = Some d → attemptsOf s k !! i = Some a → at_Outcome a = OutcomeSuccess →
  d_State d = DispatchSucceeded ∧ S i = List.length (attemptsOf s k) ∧
  ∀ ctx now token o d' s', ClaimDispatch ctx now token o s = Ok (d', s') → d_ID d' ≠ d_ID d.
Proof.
  intros Hi%reachable_inv L A O. destruct (di_success _ _ (inv_disp _ Hi _ _ L) i a A O) as [E Q]. split; [done|]. split; [done|].
  intros ctx now token o d' s' (k1 & d1 & tok & L1 & El & _ & _ & -> & _)%ClaimDispatch_Ok X. cbn in X.
  destruct (si_disp _ (inv_static _ Hi) _ _ L) as (E1 & _), (si_disp _ (inv_static _ Hi) _ _ L1) as (E2 & _).
  assert (k1 = k) as -> by congruence. simplify_eq. apply eligible_facts in El as [P _]. by rewrite E in P.
Qed.
Lemma success_is_final_witness : ∃ d, os_dispatches failed !! demoKey "a" DirectionForward = Some d ∧
  (d_State d = DispatchSucceeded ∧ 1%nat = List.length (attemptsOf failed (demoKey "a" DirectionForward)) ∧
   ∀ ctx now token o d' s', ClaimDispatch ctx now token o failed = Ok (d', s') → d_ID d' ≠ d_ID d).
Proof.
  destruct (os_dispatches failed !! demoKey "a" DirectionForward) as [d|] eqn:L; [|by vm_compute in L]. exists d. split; [done|].
  destruct (attemptsOf failed (demoKey "a" DirectionForward) !! 0%nat) as [a|] eqn:A; [|by vm_compute in A].
  apply (success_is_final failed (demoKey "a" DirectionForward) d 0 a failed_reachable L A).
  vm_compute in A. by injection A as <-.
Defined.

(** Every attempt is known not to have committed; only the last may say so for good. *)
Definition knownNotCommitted (l : list DispatchAttempt) : Prop :=
  ∀ i a, l !! i = Some a → at_Outcome a = OutcomeRetryableKnownNotCommitted ∨
    (at_Outcome a = OutcomePermanentFailure ∧ S i = List.length l).

Lemma priorAttemptsFrom_lookup n l cur i a : priorAttemptsFrom n l cur = true → l !! i = Some a → at_Attempt a ≠ cur →
  at_Attempt a = u64 (n + Z.of_nat i + 1) ∧ at_Outcome a = OutcomeRetryableKnownNotCommitted ∧ at_CompletedAt a ≠ zeroTime.
Proof.
  revert n i. induction l as [|b l IH]; intros n i H L N; [done|]. cbn [priorAttemptsFrom] in H.
  destruct (bool_decide (at_Attempt b ≠ _)) eqn:E1; [done|]. bool_to_prop. apply dec_stable in E1. destruct i as [|i]; cbn in L.
  - injection L as ->. rewrite bool_decide_eq_false_2 in H by done. destruct (_ || _) eqn:E2; [done|]. bool_to_prop.
    split; [by rewrite Z.add_0_r|]. split; [by apply dec_stable|]. by apply bool_decide_eq_false in H0.
  - replace (n + Z.of_nat (S i) + 1) with (n + 1 + Z.of_nat i + 1) by lia. apply IH; [|done|done].
    destruct (bool_decide _); [done|]. by destruct (_ || _).
Qed.
Lemma failed_known s k d : store_inv s → os_dispatches s !! k = Some d → d_State d = DispatchFailedPermanent →
  Z.of_nat (List.length (attemptsOf s k)) < 2 ^ 64 → knownNotCommitted (attemptsOf s k).
Proof.
  intros Hi L E B i a A. pose proof (inv_disp _ Hi _ _ L) as H. assert (K := di_known _ _ H (or_introl E)).
  destruct (di_failed _ _ H E) as (b & La & O). destruct (decide (S i = List.length (attemptsOf s k))) as [Q|Q].
  - rewrite last_lookup, <-Q in La. cbn in La. simplify_eq. tauto.
  - left. unfold priorAttemptsKnownNotCommitted in K. destruct (bool_decide _) in K; [done|].
    eapply priorAttemptsFrom_lookup; [exact K|exact A|].
    destruct (di_number _ _ H i a A) as [-> _]. rewrite (di_count _ _ H). apply lookup_lt_Some in A. rewrite !u64_small by lia. lia.
Qed.

(** No masked uncertainty. When a dispatch is recorded as failed for good, every attempt made for it
    (up to 2^64) is known not to have committed: an earlier unknown result is never overwritten by a
    later definite one. *)
Theorem permanent_failure_is_certain (s : InMemoryOutboxStore) k d : reachable s →
  os_dispatches s !! k = Some d → d_State d = DispatchFailedPermanent →
  Z.of_nat (List.length (attemptsOf s k)) < 2 ^ 64 → knownNotCommitted (attemptsOf s k).
Proof. intros Hi%reachable_inv. by apply failed_known. Qed.
Lemma permanent_failure_is_certain_witness : knownNotCommitted (attemptsOf failed (demoKey "c" DirectionForward)).
Proof.
  assert (∃ d, os_dispatches failed !! demoKey "c" DirectionForward = Some d ∧ d_State d = DispatchFailedPermanent) as (d & L & E)
    by (eexists; split; vm_compute; reflexivity).
  apply (permanent_failure_is_certain failed (demoKey "c" DirectionForward) d failed_reachable L E). vm_compute. reflexivity.
Defined.

(** ** Compensation *)
Lemma reverse_order s k d eid st : store_inv s → os_dispatches s !! k = Some d → d_Direction d = DirectionCompensation →
  stepAt s (d_SagaID d) eid = Some st → d_Sequence d < st_Sequence st → st_CompensationVerb st ≠ "" →
  st_State st ≠ StepSucceeded.
Proof.
  intros Hi L F Lst Q V E. destruct (disp_saga _ _ _ (inv_static _ Hi) L) as [sg Lsg]. apply V.
  by eapply (w_reverse _ _ (inv_struct _ Hi _ _ Lsg) k d).
Qed.
Lemma forward_of_step s sid eid st : store_inv s → stepAt s sid eid = Some st → ∃ k d,
  ofSaga s sid k d ∧ d_EffectID d = eid ∧ d_Direction d = DirectionForward ∧ couple d st.
Proof.
  intros Hi L. destruct (si_fwd _ (inv_static _ Hi) _ _ _ L) as (k & d & Lk & E1 & E2 & E3). exists k, d.
  assert (D : ofSaga s sid k d) by done. split; [done|]. split; [done|]. split; [done|].
  destruct (si_step _ (inv_static _ Hi) _ _ _ L) as ([sg Lsg] & _).
  eapply (w_couple _ _ (inv_struct _ Hi _ _ Lsg)); [done|by rewrite E2].
Qed.
Lemma inverse_of_compensated s sid eid st : store_inv s → stepAt s sid eid = Some st → st_State st = StepCompensated →
  ∃ k d, ofSaga s sid k d ∧ d_EffectID d = eid ∧ d_Direction d = DirectionCompensation ∧ d_State d = DispatchSucceeded.
Proof.
  intros Hi L C. destruct (si_step _ (inv_static _ Hi) _ _ _ L) as ([sg Lsg] & _). pose proof (inv_struct _ Hi _ _ Lsg) as W.
  destruct (w_undone _ _ W _ _ L C) as (k & d & D & E & F). exists k, d. repeat split; try apply D; try done.
  assert (K : couple d st) by (eapply (w_couple _ _ W); [done|by rewrite E]). unfold couple in K. rewrite F in K.
  destruct (d_State d); congruence.
Qed.

(** Compensation runs backwards. Once an inverse dispatch exists for an effect, every later effect of
    the saga whose forward dispatch succeeded and that has an inverse is already undone: its inverse
    dispatch has succeeded. *)
Theorem compensation_in_reverse_order (s : InMemoryOutboxStore) k d k' d' st : reachable s →
  os_dispatches s !! k = Some d → d_Direction d = DirectionCompensation →
  os_dispatches s !! k' = Some d' → d_SagaID d' = d_SagaID d → d_Direction d' = DirectionForward →
  d_State d' = DispatchSucceeded → d_Sequence d < d_Sequence d' →
  stepAt s (d_SagaID d) (d_EffectID d') = Some st → st_CompensationVerb st ≠ "" →
  ∃ k2 d2, os_dispatches s !! k2 = Some d2 ∧ d_SagaID d2 = d_SagaID d ∧ d_EffectID d2 = d_EffectID d' ∧
    d_Direction d2 = DirectionCompensation ∧ d_State d2 = DispatchSucceeded.
Proof.
  intros Hi%reachable_inv L F L' E' F' S' Q Lst V.
  destruct (disp_step _ _ _ (inv_static _ Hi) L') as (st' & Lst' & Q'). rewrite E', Lst in Lst'. injection Lst' as <-.
  assert (N : st_State st ≠ StepSucceeded) by (eapply (reverse_order s k d); eauto; lia).
  destruct (disp_saga _ _ _ (inv_static _ Hi) L) as [sg Lsg].
  assert (K : couple d' st) by (eapply (w_couple _ _ (inv_struct _ Hi _ _ Lsg) k' d'); done).
  unfold couple in K. rewrite F', S' in K. assert (C : st_State st = StepCompensated).
  { destruct (st_State st); [naive_solver|done|done|done]. }
  destruct (inverse_of_compensated s _ _ _ Hi Lst C) as (k2 & d2 & [? ?] & ? & ? & ?). eauto 10.
Qed.

Lemma compensation_in_reverse_order_witness : ∃ d, os_dispatches undoing !! demoKey "a" DirectionCompensation = Some d ∧
  ∃ k2 d2, os_dispatches undoing !! k2 = Some d2 ∧ d_SagaID d2 = d_SagaID d ∧ d_EffectID d2 = "b" ∧
    d_Direction d2 = DirectionCompensation ∧ d_State d2 = DispatchSucceeded.
Proof.
  assert (∃ d, os_dispatches undoing !! demoKey "a" DirectionCompensation = Some d ∧ d_SagaID d = demoSaga ∧
     d_Direction d = DirectionCompensation ∧ d_Sequence d = 1) as (d & L & E1 & E2 & E3)
    by (eexists; split; [vm_compute; reflexivity|vm_compute; repeat split]).
  assert (∃ d, os_dispatches undoing !! demoKey "b" DirectionForward = Some d ∧ d_SagaID d = demoSaga ∧
     d_Direction d = DirectionForward ∧ d_State d = DispatchSucceeded ∧ d_EffectID d = "b" ∧ d_Sequence d = 2)
    as (d' & L' & E1' & E2' & E3' & E4' & E5') by (eexists; split; [vm_compute; reflexivity|vm_compute; repeat split]).
  assert (∃ st, stepAt undoing demoSaga "b" = Some st ∧ st_CompensationVerb st = "undo") as (st & Lst & V)
    by (eexists; split; vm_compute; reflexivity).
  exists d. split; [exact L|]. rewrite <-E4'.
  apply (compensation_in_reverse_order undoing _ d _ d' st undoing_reachable L E2 L'); try congruence;
    first [lia | by rewrite E1, E4' | by rewrite V].
Defined.

(** What a compensated saga means. Every forward effect of a saga in state [compensated] either was
    undone (its forward dispatch and its inverse dispatch both succeeded) or never happened (no attempt
    of it committed). *)
Theorem compensated_saga_is_undone (s : InMemoryOutboxStore) sid sg k d : reachable s →
  os_sagas s !! sid = Some sg → sg_State sg = SagaCompensated →
  os_dispatches s !! k = Some d → d_SagaID d = sid → d_Direction d = DirectionForward →
  Z.of_nat (List.length (attemptsOf s k)) < 2 ^ 64 →
  (d_State d = DispatchSucceeded ∧ ∃ k2 d2, os_dispatches s !! k2 = Some d2 ∧ d_SagaID d2 = sid ∧
     d_EffectID d2 = d_EffectID d ∧ d_Direction d2 = DirectionCompensation ∧ d_State d2 = DispatchSucceeded) ∨
  knownNotCommitted (attemptsOf s k).
Proof.
  intros Hi%reachable_inv Lsg Es L E F B. assert (D : ofSaga s sid k d) by done.
  pose proof (inv_state _ Hi _ _ Lsg) as Z. rewrite Es in Z. pose proof (inv_disp _ Hi _ _ L) as H.
  assert (Kn := z_known _ _ _ Z k d (or_intror eq_refl) D).
  destruct (d_State d) eqn:St; try done.
  - right. rewrite (di_queued _ _ H St). by intros i a A.
  - assert (X : SagaCompensated = phaseOf (d_Direction d)) by (apply (z_active _ _ _ Z k d D); rewrite St; auto). by rewrite F in X.
  - left. split; [done|]. destruct (disp_step _ _ _ (inv_static _ Hi) L) as (st & Lst & _). rewrite E in Lst.
    assert (K : couple d st) by (by eapply (w_couple _ _ (inv_struct _ Hi _ _ Lsg))). unfold couple in K. rewrite F, St in K.
    assert (N := z_compensated _ _ _ Z _ _ eq_refl Lst).
    destruct (inverse_of_compensated s _ _ _ Hi Lst) as (k2 & d2 & [? ?] & ? & ? & ?); [|eauto 10].
    destruct (st_State st); naive_solver.
  - assert (X : SagaCompensated = phaseOf (d_Direction d)) by (apply (z_active _ _ _ Z k d D); rewrite St; auto). by rewrite F in X.
  - right. by eapply failed_known.
  - right. intros i a A. left. by eapply (di_canceled _ _ H).
Qed.
Lemma compensated_saga_is_undone_witness : ∃ d, os_dispatches undone !! demoKey "b" DirectionForward = Some d ∧
  ((d_State d = DispatchSucceeded ∧ ∃ k2 d2, os_dispatches undone !! k2 = Some d2 ∧ d_SagaID d2 = demoSaga ∧
      d_EffectID d2 = d_EffectID d ∧ d_Direction d2 = DirectionCompensation ∧ d_State d2 = DispatchSucceeded) ∨
   knownNotCommitted (attemptsOf undone (demoKey "b" DirectionForward))).
Proof.
  assert (∃ sg, os_sagas undone !! demoSaga = Some sg ∧ sg_State sg = SagaCompensated) as (sg & Lsg & Es)
    by (eexists; split; vm_compute; reflexivity).
  assert (∃ d, os_dispatches undone !! demoKey "b" DirectionForward = Some d ∧ d_SagaID d = demoSaga ∧
     d_Direction d = DirectionForward) as (d & L & E1 & E2) by (eexists; split; [vm_compute; reflexivity|vm_compute; repeat split]).
  exists d. split; [exact L|].
  apply (compensated_saga_is_undone undone demoSaga sg _ d undone_reachable Lsg Es L E1 E2). vm_compute. reflexivity.
Defined.
