(* ===== verification/OutboxClient.v ===== *)
(** * The outbox store as its clients see it

    Replays of admitted work, rejected completions, the choice of the next dispatch,
    progress, and closing an execution. *)

From S2P Require Import Prelude GoText Sha256 Json Workflow Identity Outbox OutboxInv OutboxDyn OutboxOps OutboxClose OutboxGrowth OutboxDemo.
From Stdlib Require Import ZArith String.
Local Open Scope list_scope.
Local Open Scope Z_scope.

(** ** Replays *)
Lemma sameStep_core st st' r a c : st_core st' = st_core st → sameStep st' r a c = sameStep st r a c.
Proof. intros C. destruct st, st'. unfold st_core in C. cbn in C. by simplify_eq. Qed.

(** What an accepted enqueue leaves behind. *)
Lemma EnqueueStep_Ok ctx now req s d s1 : store_inv s → EnqueueStep ctx now req s = Ok (d, s1) →
  ∃ n sg st, normalizeEnqueue req = Ok n ∧ os_sagas s1 !! eq_SagaID (ne_request n) = Some sg ∧
    stepAt s1 (eq_SagaID (ne_request n)) (eq_EffectID (ne_request n)) = Some st ∧
    sameStep st (ne_request n) (ne_argumentHash n) (ne_compensationHash n) = true ∧
    os_dispatches s1 !! dispatchIDOf (IdempotencyKey (sg_Namespace sg) (sg_SagaID sg) (eq_EffectID (ne_request n))
      DirectionForward) = Some d.
Proof.
  intros Hi H. unfold EnqueueStep in H. apply bind_Ok in H as ([] & _ & H). apply bind_Ok in H as (n & Hn & H).
  apply bind_Ok in H as (sg & Lsg%ofOption_Ok & H). exists n. set (r := ne_request n) in *.
  destruct (os_dispatches s !! _) as [d0|] eqn:Ld.
  - destruct (stepsOf s (eq_SagaID r) !! eq_EffectID r) as [st|] eqn:Lst; [|done].
    destruct (sameStep st r _ _) eqn:Es; [|done]. injection H as <- <-. exists sg, st. done.
  - inv_res. eexists _, _. split; [done|]. split; [cbn; by rewrite lookup_insert_eq|]. split; [|split].
    + unfold stepAt, stepsOf. cbn. rewrite lookup_insert_eq. cbn. by rewrite lookup_insert_eq.
    + unfold sameStep, sameRequirements. cbn. by rewrite !bool_decide_eq_true_2.
    + cbn. by rewrite lookup_insert_eq.
Qed.

(** Enqueueing is idempotent for the life of the store. Once a step has been accepted, the same
    request is accepted again after any further operations: it returns the dispatch that was created
    (with its current state) and changes nothing. *)
Theorem EnqueueStep_replay (s s1 s2 : InMemoryOutboxStore) ctx now now' req d : reachable s →
  EnqueueStep ctx now req s = Ok (d, s1) → rtc outbox_step s1 s2 →
  ∃ d', EnqueueStep None now' req s2 = Ok (d', s2) ∧ replayExistingStep None req s2 = Ok d' ∧ d_core d' = d_core d.
Proof.
  intros Hi%reachable_inv H Hr. destruct (EnqueueStep_Ok _ _ _ _ _ _ Hi H) as (n & sg & st & Hn & Lsg & Lst & Es & Ld).
  apply EnqueueStep_inv in H; [|done]. apply rtc_inv_extends in Hr as [_ [X1 X2 X3 _]]; [|done].
  destruct (X1 _ _ Lsg) as (sg' & Lsg' & Csg), (X2 _ _ _ Lst) as (st' & Lst' & Cst), (X3 _ _ Ld) as (d' & Ld' & Cd).
  exists d'. replace (sg_Namespace sg) with (sg_Namespace sg') in Ld' by (use_core; congruence).
  replace (sg_SagaID sg) with (sg_SagaID sg') in Ld' by (use_core; congruence).
  unfold EnqueueStep, replayExistingStep. rewrite Hn. cbn [ctxErr mbind result_bind]. rewrite Lsg'. cbn [ofOption mbind result_bind].
  rewrite Ld'. unfold stepAt in Lst'. rewrite Lst', (sameStep_core _ _ _ _ _ Cst), Es. done.
Qed.
Lemma EnqueueStep_replay_witness : ∃ d', EnqueueStep None 9 (demoStep "c" 3) undone = Ok (d', undone) ∧
  replayExistingStep None (demoStep "c" 3) undone = Ok d' ∧ d_ID d' = demoKey "c" DirectionForward.
Proof.
  assert (H : EnqueueStep None 9 (demoStep "c" 3) undone = Ok (undoneC, undone)) by (vm_cast_no_check (eq_refl (Ok (undoneC, undone)))).
  destruct (EnqueueStep_replay undone undone undone None 9 9 (demoStep "c" 3) undoneC undone_reachable H (rtc_refl _ _)) as (d' & H1 & H2 & C).
  exists d'. split; [exact H1|]. split; [exact H2|]. unfold d_core in C. injection C as -> _.
  vm_cast_no_check (eq_refl (demoKey "c" DirectionForward)).
Defined.

(** Creating a saga is idempotent and its identity is fixed: after any further operations the same
    request returns the saga created and changes nothing, and a request with the same saga ID but
    another namespace, execution, plan or digest is refused as an identity conflict. *)
Theorem CreateSaga_replay (s s1 s2 : InMemoryOutboxStore) tb ctx now now' req req' sg : reachable s →
  CreateSaga tb ctx now req s = Ok (sg, s1) → rtc outbox_step s1 s2 → cs_SagaID req' = cs_SagaID req →
  validateSagaRequest tb req' = Ok tt →
  if bool_decide ((cs_Namespace req', cs_ExecutionID req', cs_PlanID req', cs_PlanDigest req')
                  = (cs_Namespace req, cs_ExecutionID req, cs_PlanID req, cs_PlanDigest req))
  then ∃ sg', CreateSaga tb None now' req' s2 = Ok (sg', s2) ∧ sg_core sg' = sg_core sg
  else ∃ e, CreateSaga tb None now' req' s2 = Err e ∧ errorsIs e ErrIdentityConflict = true.
Proof.
  intros Hi%reachable_inv H Hr Ek Hv.
  assert (∃ sg0, os_sagas s1 !! cs_SagaID req = Some sg0 ∧ sg_core sg0 = sg_core sg ∧ sg_Serial sg = true ∧
    (sg_Namespace sg, sg_ExecutionID sg, sg_PlanID sg, sg_PlanDigest sg) =
    (cs_Namespace req, cs_ExecutionID req, cs_PlanID req, cs_PlanDigest req)) as (sg0 & L0 & C0 & S0 & F0).
  { pose proof H as H'. unfold CreateSaga in H. apply bind_Ok in H as ([] & _ & H). apply bind_Ok in H as ([] & V & H).
    destruct (os_sagas s !! cs_SagaID req) as [e|] eqn:L.
    - inv_res. bool_to_prop. exists sg. destruct (si_saga _ (inv_static _ Hi) _ _ L) as (_ & ? & _).
      split; [done|]. split; [done|]. split; [done|].
      repeat match goal with H : ¬ _ ≠ _ |- _ => apply dec_stable in H; rewrite H end. done.
    - injection H as <- <-. eexists. split; [cbn; by rewrite lookup_insert_eq|]. cbn. split; [done|]. split; [|done].
      unfold validateSagaRequest in V. inv_res. by bool_to_prop. }
  apply CreateSaga_inv in H; [|done]. apply rtc_inv_extends in Hr as [_ X]; [|done].
  destruct (ex_saga _ _ X _ _ L0) as (sg2 & L2 & C2). assert (V2 : cs_Serial req' = true).
  { unfold validateSagaRequest in Hv. inv_res. by bool_to_prop. }
  assert (Hsame : (sg_Namespace sg2, sg_ExecutionID sg2, sg_PlanID sg2, sg_PlanDigest sg2, sg_Serial sg2) =
    (cs_Namespace req, cs_ExecutionID req, cs_PlanID req, cs_PlanDigest req, true)) by (use_core; congruence).
  injection Hsame as E1 E2 E3 E4 E5.
  unfold CreateSaga. rewrite Hv, Ek, L2. cbn [ctxErr mbind result_bind]. rewrite E1, E2, E3, E4, E5, V2.
  destruct (bool_decide ((_, _, _, _) = _)) eqn:B; bool_to_prop.
  - injection B as -> -> -> ->. rewrite !bool_decide_eq_false_2 by tauto. cbn. eexists. split; [reflexivity|]. congruence.
  - match goal with |- context [failIf ?b ?e] => assert (b = true) as -> end; [|eexists; split; [reflexivity|done]].
    apply not_false_iff_true. intros X0. apply B. bool_to_prop.
    repeat match goal with H : ¬ _ ≠ _ |- _ => apply dec_stable in H; rewrite <-?H end. done.
Qed.
Lemma CreateSaga_replay_witness : (∃ sg', CreateSaga false None 9 demoCreate undone = Ok (sg', undone) ∧ sg_core sg' = sg_core undoneSaga) ∧
  (∃ e, CreateSaga false None 9 (mkCreateSaga "other" demoSaga "exec" "plan" "digest" true false) undone = Err e ∧
        errorsIs e ErrIdentityConflict = true).
Proof.
  assert (H : CreateSaga false None 9 demoCreate undone = Ok (undoneSaga, undone)) by (vm_cast_no_check (eq_refl (Ok (undoneSaga, undone)))).
  split.
  - apply (CreateSaga_replay undone undone undone false None 9 9 demoCreate demoCreate undoneSaga undone_reachable H
      (rtc_refl _ _) eq_refl ltac:(vm_cast_no_check (eq_refl (@Ok unit tt)))).
  - apply (CreateSaga_replay undone undone undone false None 9 9 demoCreate (mkCreateSaga "other" demoSaga "exec" "plan" "digest" true false)
      undoneSaga undone_reachable H (rtc_refl _ _) eq_refl ltac:(vm_cast_no_check (eq_refl (@Ok unit tt)))).
Defined.

(** ** Completions and leases *)

(** Only the holder of the current lease can complete a dispatch. In a reachable store a well-formed
    completion is accepted exactly when the dispatch is in flight under the completion's attempt and
    token and the lease has not expired; otherwise it is refused as stale (and nothing changes). *)
Theorem CompleteDispatch_requires_lease (s : InMemoryOutboxStore) dn ln c : reachable s →
  validateCompletion (if timeIsZero (cp_Now c) then c <| cp_Now := dn |> else c) = Ok tt →
  if currentLeaseAt (os_dispatches s !! cp_DispatchID c) (cp_Attempt c) (cp_LeaseToken c) ln
  then ∃ s', CompleteDispatch None dn ln c s = Ok s'
  else ∃ e, CompleteDispatch None dn ln c s = Err e ∧ errorsIs e ErrStaleLease = true.
Proof.
  intros Hi%reachable_inv Hv. unfold CompleteDispatch. set (c' := if timeIsZero _ then _ else _) in *. rewrite Hv.
  assert (cp_DispatchID c' = cp_DispatchID c ∧ cp_Attempt c' = cp_Attempt c ∧ cp_LeaseToken c' = cp_LeaseToken c) as (-> & -> & ->).
  { unfold c'. by destruct (timeIsZero _). }
  cbn [ctxErr mbind result_bind]. destruct (os_dispatches s !! cp_DispatchID c) as [d|] eqn:L.
  - destruct (currentLeaseAt _ _ _ _) eqn:Hl; cbn [negb failIf mbind result_bind].
    + destruct (si_disp _ (inv_static _ Hi) _ _ L) as (_ & _ & sg & st & Lsg & Lst & _). unfold stepAt in Lst. rewrite Lsg, Lst.
      destruct (applyCompletion _ _ _ _ _) as [[d' st'] sg']. eauto.
    + eexists. split; [reflexivity|done].
  - cbn. eexists. split; [reflexivity|done].
Qed.
Lemma CompleteDispatch_requires_lease_witness :
  let late := mkCompletion (demoKey "a" DirectionForward) 1 "token" OutcomeUnknown "" "lost" zeroTime true 2000 in
  ∃ e, CompleteDispatch None 0 2000 late started = Err e ∧ errorsIs e ErrStaleLease = true.
Proof.
  intros late. assert (E : currentLeaseAt (os_dispatches started !! cp_DispatchID late) (cp_Attempt late) (cp_LeaseToken late) 2000 = false)
    by (vm_cast_no_check (eq_refl false)).
  pose proof (CompleteDispatch_requires_lease started 0 2000 late started_reachable (eq_refl (Ok tt))) as H.
  rewrite E in H. exact H.
Defined.

Lemma attempts_prefix s s' k : extends s s' → (List.length (attemptsOf s k) ≤ List.length (attemptsOf s' k))%nat.
Proof. intros X. pose proof (prefix_length _ _ (ex_atts _ _ X k)) as H. by rewrite !length_fmap in H. Qed.

(** A superseded worker stays fenced off. Once a dispatch has been claimed again, a completion for
    the earlier attempt is refused as stale in that store and in every later one (while the dispatch has
    had fewer than 2^64 attempts), whatever its token. *)
Theorem superseded_attempt_is_stale (s s1 s2 : InMemoryOutboxStore) ctx now token o d d1 dn ln c : reachable s →
  os_dispatches s !! d_ID d = Some d → ClaimDispatch ctx now token o s = Ok (d1, s1) → d_ID d1 = d_ID d →
  rtc outbox_step s1 s2 → Z.of_nat (List.length (attemptsOf s2 (d_ID d))) < 2 ^ 64 →
  cp_DispatchID c = d_ID d → cp_Attempt c = d_Attempt d →
  validateCompletion (if timeIsZero (cp_Now c) then c <| cp_Now := dn |> else c) = Ok tt →
  ∃ e, CompleteDispatch None dn ln c s2 = Err e ∧ errorsIs e ErrStaleLease = true.
Proof.
  intros Hi%reachable_inv L Hc Ed Hr B Ec Ea Hv. pose proof Hc as Hc'.
  apply ClaimDispatch_Ok in Hc as (k & d0 & tok & L0 & _ & _ & _ & -> & E1). cbn in Ed.
  destruct (si_disp _ (inv_static _ Hi) _ _ L0) as (Ek & _). assert (k = d_ID d) as -> by congruence. rewrite L in L0. injection L0 as <-.
  apply ClaimDispatch_inv in Hc'; [|done]. apply rtc_inv_extends in Hr as [Hi2 X]; [|done].
  assert (Hlen : List.length (attemptsOf s1 (d_ID d)) = S (List.length (attemptsOf s (d_ID d)))).
  { rewrite E1, attemptsOf_put, length_app. cbn. lia. }
  pose proof (attempts_prefix _ _ (d_ID d) X) as Hle. pose proof (di_count _ _ (inv_disp _ Hi _ _ L)) as Hn.
  unfold CompleteDispatch. set (c' := if timeIsZero _ then _ else _) in *. rewrite Hv.
  assert (cp_DispatchID c' = cp_DispatchID c ∧ cp_Attempt c' = cp_Attempt c ∧ cp_LeaseToken c' = cp_LeaseToken c) as (-> & -> & ->).
  { unfold c'. by destruct (timeIsZero _). }
  cbn [ctxErr mbind result_bind]. rewrite Ec, Ea. destruct (os_dispatches s2 !! d_ID d) as [d2|] eqn:L2; [|by eexists].
  assert (currentLeaseAt (Some d2) (d_Attempt d) (cp_LeaseToken c) ln = false) as ->; [|by eexists].
  apply not_true_iff_false. rewrite currentLeaseAt_true. intros (_ & E & _).
  rewrite (di_count _ _ (inv_disp _ Hi2 _ _ L2)), Hn, !u64_small in E by lia. lia.
Qed.
Lemma superseded_attempt_is_stale_witness :
  let old := mkCompletion (d_ID startedA) 1 "token" OutcomeSuccess "true" "" zeroTime false 2001 in
  ∃ e, CompleteDispatch None 0 2001 old reclaimedStore = Err e ∧ errorsIs e ErrStaleLease = true.
Proof.
  intros old. assert (H : ClaimDispatch None 0 (Ok "token-2") (mkClaim "worker-2" 100 2000 "") started = Ok (reclaimedA, reclaimedStore))
    by (vm_cast_no_check (eq_refl (Ok (reclaimedA, reclaimedStore)))).
  apply (superseded_attempt_is_stale started reclaimedStore reclaimedStore None 0 (Ok "token-2") (mkClaim "worker-2" 100 2000 "")
    startedA reclaimedA 0 2001 old started_reachable ltac:(vm_cast_no_check (eq_refl (Some startedA))) H eq_refl (rtc_refl _ _));
    reflexivity.
Defined.

(** ** Claims *)
Definition claimKey (p : string * Dispatch) : Z * (string * (Z * string)) :=
  (d_CreatedAt p.2, (d_SagaID p.2, (d_Sequence p.2, d_ID p.2))).
Definition claimLt := lexLt (λ a b : Z, bool_decide (a < b)) (lexLt strLt (lexLt (λ a b : Z, bool_decide (a < b)) strLt)).
Lemma claimLt_strict : strict_total claimLt.
Proof. repeat apply lexLt_strict; auto using Zlt_strict, strLt_strict. Qed.
Lemma claimLe_leOf a b : claimLe a b ↔ leOf claimKey claimLt a b.
Proof. done. Qed.
#[export] Instance claimLe_total : Total claimLe.
Proof. apply (leOf_total claimKey claimLt claimLt_strict). Qed.
#[export] Instance claimLe_trans : Transitive claimLe.
Proof. apply (leOf_trans claimKey claimLt claimLt_strict). Qed.

Lemma find_sorted {A} (R : A → A → Prop) (f : A → bool) l x : StronglySorted R l → List.find f l = Some x →
  ∀ y, y ∈ l → f y = true → y = x ∨ R x y.
Proof.
  induction 1 as [|a l Hs IH Ha]; cbn; [done|]. destruct (f a) eqn:E.
  - intros [= ->] y [->|Hy]%elem_of_cons _; [by left|]. right. rewrite Forall_forall in Ha. auto.
  - intros F y [->|Hy]%elem_of_cons Hf; [congruence|]. by apply IH.
Qed.

(** A claim made now could take this dispatch. *)
Definition claimable (s : InMemoryOutboxStore) (o : ClaimOptions) (now : Time) (d : Dispatch) : bool :=
  eligible s o now d && startable s now d.

Lemma claim_first (s : InMemoryOutboxStore) sn tok o : cl_Owner o ≠ "" → 0 < cl_LeaseDuration o →
  let now := claimNow sn o in
  match ClaimDispatch None sn (Ok tok) o s with
  | Ok (d', s') => ∃ k d, os_dispatches s !! k = Some d ∧ claimable s o now d = true ∧
      (∀ k1 d1, os_dispatches s !! k1 = Some d1 → claimable s o now d1 = true → claimBefore d1 d = false) ∧
      d' = claimed now o tok d ∧
      s' = putAttempts (d_ID d) (attemptsOf s (d_ID d) ++ [claimAttempt now o tok d]) (putDispatch k d' s)
  | Err e => errorsIs e ErrNoDispatch = true ∧ ∀ k1 d1, os_dispatches s !! k1 = Some d1 → claimable s o now d1 = false
  end.
Proof.
  intros H1 H2 now. unfold ClaimDispatch. rewrite !bool_decide_eq_false_2 by (done || lia). cbn [orb failIf mbind result_bind ctxErr].
  fold (claimNow sn o). fold now. destruct (List.find _ _) as [[k d]|] eqn:F.
  - pose proof F as F'. apply find_elem in F as [[L E]%eligibleDispatches_elem St]. cbn in St. exists k, d. split; [done|].
    split; [unfold claimable; by rewrite E, St|]. split; [|done]. intros k1 d1 L1 C1. apply andb_true_iff in C1 as [E1 S1].
    assert (Hs : StronglySorted claimLe (eligibleDispatches s o now)).
    { unfold eligibleDispatches. apply StronglySorted_merge_sort; apply _. }
    destruct (find_sorted _ _ _ _ Hs F' (k1, d1)) as [[= -> ->]|R]; [by apply eligibleDispatches_elem|done| |exact R].
    pose proof (so_irrefl _ claimLt_strict (claimKey (k, d))) as X. exact X.
  - split; [done|]. intros k1 d1 L1. apply andb_false_iff. destruct (eligible s o now d1) eqn:E; [|by left]. right.
    apply (List.find_none _ _ F (k1, d1)). apply list_elem_of_In. by apply eligibleDispatches_elem.
Qed.

(** ClaimDispatch takes the first claimable dispatch in creation order. With a live context, a valid
    request and a token, the claim succeeds exactly when some dispatch is claimable, takes one that no
    other claimable dispatch precedes, and records one more attempt under the new lease; otherwise it
    reports that there is no dispatch. *)
Theorem ClaimDispatch_takes_first (s : InMemoryOutboxStore) sn tok o : cl_Owner o ≠ "" → 0 < cl_LeaseDuration o →
  let now := claimNow sn o in
  match ClaimDispatch None sn (Ok tok) o s with
  | Ok (d', s') => ∃ k d, os_dispatches s !! k = Some d ∧ claimable s o now d = true ∧
      (∀ k1 d1, os_dispatches s !! k1 = Some d1 → claimable s o now d1 = true → claimBefore d1 d = false) ∧
      d' = claimed now o tok d ∧
      s' = putAttempts (d_ID d) (attemptsOf s (d_ID d) ++ [claimAttempt now o tok d]) (putDispatch k d' s)
  | Err e => errorsIs e ErrNoDispatch = true ∧ ∀ k1 d1, os_dispatches s !! k1 = Some d1 → claimable s o now d1 = false
  end.
Proof. apply claim_first. Qed.
Lemma ClaimDispatch_takes_first_witness : ∃ k d, os_dispatches started !! k = Some d ∧
  claimable started (mkClaim "worker-2" 100 2000 "") 2000 d = true ∧
  (∀ k1 d1, os_dispatches started !! k1 = Some d1 → claimable started (mkClaim "worker-2" 100 2000 "") 2000 d1 = true →
    claimBefore d1 d = false) ∧
  reclaimedA = claimed 2000 (mkClaim "worker-2" 100 2000 "") "token-2" d.
Proof.
  pose proof (ClaimDispatch_takes_first started 0 "token-2" (mkClaim "worker-2" 100 2000 "")) as H.
  specialize (H ltac:(discriminate) ltac:(reflexivity)). cbv zeta in H.
  assert (E : ClaimDispatch None 0 (Ok "token-2") (mkClaim "worker-2" 100 2000 "") started = Ok (reclaimedA, reclaimedStore))
    by (vm_cast_no_check (eq_refl (Ok (reclaimedA, reclaimedStore)))).
  rewrite E in H. destruct H as (k & d & H1 & H2 & H3 & H4 & _). exists k, d. split; [exact H1|]. split; [exact H2|]. split; [exact H3|exact H4].
Defined.

(** ** Closing an execution *)
Lemma finalize_result ctx now eid s s' : store_inv s → FinalizeStoppedExecution ctx now eid s = Ok s' →
  ∀ sid sg, os_sagas s !! sid = Some sg →
  if bool_decide (sg_ExecutionID sg = eid) then closedSaga s' sid
  else same_saga s s' sid ∧ os_sagas s' !! sid = os_sagas s !! sid.
Proof.
  intros Hi H sid sg L. unfold FinalizeStoppedExecution in H. do 3 apply bind_Ok in H as ([] & _ & H). injection H as <-.
  destruct (finalize_entries s) as [Hn Hl]. destruct (finalize_fold eid now _ s Hi Hn Hl) as (_ & _ & F1 & F2).
  apply elem_of_map_to_list in L. destruct (bool_decide _) eqn:E; bool_to_prop; [by eapply F1|by eapply F2].
Qed.

(** Stopping an execution closes all of its work and nothing else. After a successful
    FinalizeStoppedExecution every saga of the execution is terminal, none of its dispatches is queued,
    in flight or waiting for a retry, and it is [blocked_unknown] when some effect's outcome is unknown;
    sagas of other executions are untouched. *)
Theorem FinalizeStoppedExecution_closes (s s' : InMemoryOutboxStore) ctx now eid sid sg : reachable s →
  FinalizeStoppedExecution ctx now eid s = Ok s' → os_sagas s !! sid = Some sg →
  if bool_decide (sg_ExecutionID sg = eid) then closedSaga s' sid
  else same_saga s s' sid ∧ os_sagas s' !! sid = os_sagas s !! sid.
Proof. intros Hi%reachable_inv H. by eapply finalize_result. Qed.
Definition stoppedStore := Eval vm_compute in storeOf (FinalizeStoppedExecution None 2000 "exec" started).
Lemma stoppedStore_Ok : FinalizeStoppedExecution None 2000 "exec" started = Ok stoppedStore.
Proof. vm_cast_no_check (eq_refl (Ok stoppedStore)). Qed.
Definition startedSaga : SagaInstance := Eval vm_compute in sagaIn started demoSaga.
Lemma FinalizeStoppedExecution_closes_witness : closedSaga stoppedStore demoSaga ∧
  sg_State (sagaIn stoppedStore demoSaga) = SagaBlockedUnknown.
Proof.
  split; [|vm_compute; reflexivity].
  exact (FinalizeStoppedExecution_closes started stoppedStore None 2000 "exec" demoSaga startedSaga started_reachable stoppedStore_Ok
    ltac:(vm_cast_no_check (eq_refl (Some startedSaga)))).
Defined.

Lemma closeStopped_id s now sid d : pendingState (d_State d) = false → closeStopped s now sid d = d.
Proof.
  intros P. destruct (decide (d_SagaID d = sid)) as [E|N]; [|by apply closeStopped_other].
  destruct (closeStopped_cases s now sid d E) as [[X _]|[[X%uncertainRetry_state _]|[([X|X] & _)|[_ X]]]]; [by rewrite X in P..|done].
Qed.
Lemma closedSaga_again s eid now k sg : store_inv s → os_sagas s !! k = Some sg → (sg_ExecutionID sg = eid → closedSaga s k) →
  finalizeStoppedSaga eid now s (k, sg) = s.
Proof.
  intros Hi L H. unfold finalizeStoppedSaga. destruct (bool_decide _) eqn:E; [done|]. bool_to_prop. apply dec_stable in E.
  destruct (H E) as [(sg' & L' & T & U) P]. simplify_eq. destruct (si_saga _ (inv_static _ Hi) _ _ L) as (-> & _).
  assert (Hd : (cancelPending now k ∘ settleDispatch s now k) <$> os_dispatches s = os_dispatches s).
  { rewrite <-(map_fmap_id (os_dispatches s)) at 2. apply map_fmap_ext. intros k1 d1 L1. cbn.
    destruct (decide (d_SagaID d1 = k)) as [Ek|N]; [|by apply (closeStopped_other s now)].
    apply (closeStopped_id s now). by apply (P k1). }
  rewrite Hd. assert (s <| os_dispatches := os_dispatches s |> = s) as -> by (by destruct s). rewrite T.
  destruct (mapExists _ _) eqn:M; [|done]. apply mapExists_true in M as (k1 & d1 & L1 & M).
  rewrite bool_decide_eq_false_2; [done|]. intros N. apply N, U. exists k1, d1. unfold uncertainDispatch in M.
  apply andb_true_iff in M as [M1 M2]. bool_to_prop. assert (P1 := P k1 d1 (conj L1 M1)). split; [done|].
  rewrite !orb_true_iff, !bool_decide_eq_true in M2.
  destruct M2 as [[X|X%uncertainRetry_state]|X]; [by rewrite X in P1..|done].
Qed.

Lemma finalize_closed ctx now eid s s' : store_inv s → FinalizeStoppedExecution ctx now eid s = Ok s' →
  ∀ sid sg, os_sagas s' !! sid = Some sg → sg_ExecutionID sg = eid → closedSaga s' sid.
Proof.
  intros Hi H sid sg L E. pose proof (finalize_result _ _ _ _ _ Hi H) as Hc. pose proof (FinalizeStoppedExecution_extends _ _ _ _ _ Hi H) as X.
  destruct (os_sagas s !! sid) as [sg0|] eqn:L0.
  - specialize (Hc _ _ L0). destruct (ex_saga _ _ X _ _ L0) as (sg1 & L1 & C). simplify_eq.
    rewrite bool_decide_eq_true_2 in Hc; [done|]. use_core. congruence.
  - exfalso. unfold FinalizeStoppedExecution in H. do 3 apply bind_Ok in H as ([] & _ & H). injection H as <-.
    destruct (finalize_entries s) as [Hn Hl]. destruct (finalize_fold (sg_ExecutionID sg) now _ s Hi Hn Hl) as (_ & F & _).
    rewrite E in F. destruct (F sid) as [_ F']; [|congruence]. intros ([k v] & -> & Y)%list_elem_of_fmap.
    apply elem_of_map_to_list in Y. cbn in L0. congruence.
Qed.
(** Stopping an execution is idempotent: a second call succeeds at any time and returns the same store. *)
Theorem FinalizeStoppedExecution_idempotent (s s' : InMemoryOutboxStore) ctx now now' eid : reachable s →
  FinalizeStoppedExecution ctx now eid s = Ok s' → FinalizeStoppedExecution None now' eid s' = Ok s'.
Proof.
  intros Hi%reachable_inv H. assert (Hi' := FinalizeStoppedExecution_inv _ _ _ _ _ H Hi).
  pose proof (finalize_closed _ _ _ _ _ Hi H) as Hclosed.
  unfold FinalizeStoppedExecution in *. do 2 (apply bind_Ok in H as ([] & ?%failIf_Ok & H) || apply bind_Ok in H as ([] & _ & H)).
  cbn [ctxErr mbind result_bind]. match goal with H : bool_decide (eid = "") = false |- _ => rewrite H end. cbn [failIf mbind result_bind].
  rewrite (proj2 (mapExists_false _ _)); [|].
  - cbn. f_equal. destruct (finalize_entries s') as [_ Hl]. revert Hl. generalize (map_to_list (os_sagas s')).
    induction l as [|[k sg] l IH]; intros Hl; cbn [foldl]; [done|].
    rewrite closedSaga_again; [apply IH|done| |]; [intros; apply Hl; apply elem_of_cons; by right| |].
    + apply Hl, elem_of_cons. by left.
    + apply Hclosed, Hl, elem_of_cons. by left.
  - intros sid sg L. apply andb_false_iff. destruct (bool_decide (sg_ExecutionID sg = eid)) eqn:E; [right|by left]. bool_to_prop.
    apply mapExists_false. intros k d Ld. destruct (si_saga _ (inv_static _ Hi') _ _ L) as (-> & _).
    destruct (bool_decide (d_SagaID d = sid)) eqn:Ed; [|done]. bool_to_prop. cbn.
    assert (P := cl_pending _ _ (Hclosed _ _ L E) k d (conj Ld Ed)).
    rewrite bool_decide_eq_false_2; [done|]. intros Y. by rewrite Y in P.
Qed.
Lemma FinalizeStoppedExecution_idempotent_witness : FinalizeStoppedExecution None 9999 "exec" stoppedStore = Ok stoppedStore.
Proof. exact (FinalizeStoppedExecution_idempotent started stoppedStore None 2000 9999 "exec" started_reachable stoppedStore_Ok). Defined.
