(* ===== verification/OutboxRefine.v ===== *)
(** * The life cycle of a saga

    An abstract state machine for sagas, the proof that every outbox operation moves
    every saga by at most one of its transitions, and progress: a running saga with
    unfinished work always has a dispatch that can be claimed when it is due. *)

From S2P Require Import Prelude GoText Sha256 Json Workflow Identity Outbox OutboxInv OutboxDyn OutboxOps OutboxClose OutboxGrowth OutboxDemo OutboxClient.
From Stdlib Require Import ZArith String.
Local Open Scope list_scope.
Local Open Scope Z_scope.

(** ** The abstract machine *)
Inductive saga_next : SagaState → SagaState → Prop :=
  | next_stay S : saga_next S S
  | next_complete : saga_next SagaRunning SagaCompleted
  | next_compensate : saga_next SagaRunning SagaCompensating
  | next_undone : saga_next SagaCompensating SagaCompensated
  | next_fail : saga_next SagaRunning SagaFailed
  | next_failfast : saga_next SagaBlockedCompensation SagaFailed
  | next_block S S' : S = SagaRunning ∨ S = SagaCompensating →
      S' = SagaBlockedUnknown ∨ S' = SagaBlockedDependency ∨ S' = SagaBlockedFence ∨ S' = SagaBlockedCompensation → saga_next S S'
  | next_unknown S : isTerminalSaga S = true → S ≠ SagaCompleted → S ≠ SagaCompensated → saga_next S SagaBlockedUnknown.

Definition moves (s s' : InMemoryOutboxStore) : Prop := ∀ sid sg sg',
  os_sagas s !! sid = Some sg → os_sagas s' !! sid = Some sg' → saga_next (sg_State sg) (sg_State sg').

Lemma moves_same s s' : (∀ sid sg', os_sagas s' !! sid = Some sg' → ∀ sg, os_sagas s !! sid = Some sg → sg_State sg' = sg_State sg) → moves s s'.
Proof. intros H sid sg sg' L L'. rewrite (H _ _ L' _ L). constructor. Qed.
(** Only the saga [k] moves, and it does so as the machine allows. *)
Lemma moves_one s s' k sg state : os_sagas s !! k = Some sg → saga_next (sg_State sg) state →
  (∀ sid, sid ≠ k → os_sagas s' !! sid = os_sagas s !! sid) → sg_State <$> os_sagas s' !! k = Some state → moves s s'.
Proof.
  intros L N O E sid sg1 sg' L1 L'. destruct (decide (sid = k)) as [->|Hn].
  - rewrite L' in E. cbn in E. simplify_eq. done.
  - rewrite O in L' by done. simplify_eq. constructor.
Qed.

Lemma finishSaga_moves s k sg state now s' : os_sagas s !! k = Some sg → saga_next (sg_State sg) state →
  (∀ sid, os_sagas s' !! sid = os_sagas s !! sid) → moves s (finishSaga k sg state now s').
Proof.
  intros L N O. apply (moves_one _ _ k sg state); [done|done| |].
  - intros sid Hn. cbn. rewrite lookup_insert_ne by done. apply O.
  - cbn. by rewrite lookup_insert_eq.
Qed.

(** ** Completions *)
Lemma enqueueCompensation_sagas sg st now s : os_sagas (enqueueCompensationLocked sg st now s) = os_sagas s.
Proof. unfold enqueueCompensationLocked. by destruct (os_dispatches s !! _). Qed.
Lemma startCompensation_state k sg now s : ∃ state, sg_State <$> os_sagas (startCompensationLocked k sg now s) !! k = Some state ∧
  saga_next SagaRunning state.
Proof.
  unfold startCompensationLocked. destruct (compensationCandidateLocked _ _); [|destruct (hasSucceededStepLocked _ _)];
    rewrite ?enqueueCompensation_sagas; cbn; rewrite lookup_insert_eq; eexists; (split; [reflexivity|]); cbn; try constructor; auto.
Qed.
Lemma nextCompensation_state k sg now s : os_sagas s !! k = Some sg → sg_State sg = SagaCompensating →
  ∃ state, sg_State <$> os_sagas (enqueueNextCompensationLocked k sg now s) !! k = Some state ∧ saga_next SagaCompensating state.
Proof.
  intros L E. unfold enqueueNextCompensationLocked. destruct (compensationCandidateLocked _ _).
  - rewrite enqueueCompensation_sagas, L. cbn. rewrite E. eexists. split; [reflexivity|constructor].
  - destruct (hasSucceededStepLocked _ _); cbn; rewrite lookup_insert_eq; eexists; (split; [reflexivity|]); cbn; try constructor; auto.
Qed.
Lemma startCompensation_other k sg now s sid : sid ≠ k → os_sagas (startCompensationLocked k sg now s) !! sid = os_sagas s !! sid.
Proof.
  intros N. unfold startCompensationLocked. destruct (compensationCandidateLocked _ _); [|destruct (hasSucceededStepLocked _ _)];
    rewrite ?enqueueCompensation_sagas; cbn; by rewrite lookup_insert_ne.
Qed.
Lemma nextCompensation_other k sg now s sid : sid ≠ k → os_sagas (enqueueNextCompensationLocked k sg now s) !! sid = os_sagas s !! sid.
Proof.
  intros N. unfold enqueueNextCompensationLocked. destruct (compensationCandidateLocked _ _); [by rewrite enqueueCompensation_sagas|].
  destruct (hasSucceededStepLocked _ _); cbn; by rewrite lookup_insert_ne.
Qed.
Lemma applyCompletion_state d st sg c prior d' st' sg' : applyCompletion d st sg c prior = (d', st', sg') →
  sg_State sg' = sg_State sg ∨ sg_State sg' = SagaFailed ∧ d_Direction d = DirectionForward ∨
  sg_State sg' = SagaBlockedUnknown ∨ sg_State sg' = SagaBlockedFence ∨ sg_State sg' = SagaBlockedCompensation.
Proof.
  unfold applyCompletion. cbn. destruct prior; [|destruct (cp_Outcome c)]; try destruct (cp_Exhausted c);
    destruct (d_Direction d) eqn:F; intros [= <- <- <-]; cbn; auto 10.
Qed.
Lemma CompleteDispatch_moves ctx dn ln c s s' : store_inv s → CompleteDispatch ctx dn ln c s = Ok s' → moves s s'.
Proof.
  intros Hi H. apply CompleteDispatch_Ok in H. cbv zeta in H.
  set (c' := if timeIsZero _ then _ else _) in H. clearbody c'.
  destruct H as (d & st & sg & d' & st' & sg' & Hv & L & (P & _)%currentLeaseAt_true & Lsg & Lst & A & ->).
  destruct (inflight_saga _ _ _ Hi L P) as (sg1 & Lsg1 & Eph). rewrite Lsg in Lsg1. injection Lsg1 as <-.
  match goal with |- context [putAttempts ?k ?l ?x] => set (s1 := putAttempts k l x) end.
  assert (Ls1 : os_sagas s1 !! d_SagaID d = Some sg') by (cbn; by rewrite lookup_insert_eq).
  assert (Hother : ∀ sid, sid ≠ d_SagaID d → os_sagas s1 !! sid = os_sagas s !! sid) by (intros; cbn; by rewrite lookup_insert_ne).
  assert (Hs1 : moves s s1).
  { apply (moves_one _ _ _ sg (sg_State sg') Lsg); [|done|by rewrite Ls1]. rewrite Eph.
    destruct (applyCompletion_state _ _ _ _ _ _ _ _ A) as [->|[[-> ->]|[->|[->| ->]]]]; [rewrite Eph; constructor|constructor|..];
      apply next_block; auto; destruct (d_Direction d); auto. }
  destruct (d_Direction d) eqn:F.
  - destruct (failsForward _ c'); [|done]. destruct (startCompensation_state (d_SagaID d) sg' (cp_Now c') s1) as (state & E & N).
    apply (moves_one _ _ _ sg state Lsg); [by rewrite Eph| |exact E]. intros sid Hn. rewrite startCompensation_other by done. auto.
  - destruct (bool_decide _) eqn:B; [|done]. bool_to_prop. assert (Est : sg_State sg' = SagaCompensating).
    { assert (Hc := applyCompletion_cases _ _ _ _ _ _ _ _ ltac:(by rewrite Hv) ltac:(by intros [? _]%andb_true_iff) A).
      cbn in Eph. destruct Hc as [? ? E| | | |]; try congruence. }
    destruct (nextCompensation_state (d_SagaID d) sg' (cp_Now c') s1 Ls1 Est) as (state & E & N).
    apply (moves_one _ _ _ sg state Lsg); [by rewrite Eph| |exact E]. intros sid Hn. rewrite nextCompensation_other by done. auto.
Qed.

(** ** Closing operations *)
Lemma finalizeStoppedSaga_moves eid now s k sg : os_sagas s !! k = Some sg → store_inv s →
  moves s (finalizeStoppedSaga eid now s (k, sg)).
Proof.
  intros L Hi. unfold finalizeStoppedSaga. destruct (bool_decide _); [by apply moves_same; naive_solver|].
  destruct (isTerminalSaga (sg_State sg)) eqn:T.
  - destruct (_ && _) eqn:B; [|by apply moves_same; naive_solver]. apply andb_true_iff in B as [U _].
    apply finishSaga_moves; [done| |done]. apply mapExists_true in U as (k1 & d1 & L1 & U).
    unfold uncertainDispatch in U. apply andb_true_iff in U as [U1 U2]. bool_to_prop.
    destruct (si_saga _ (inv_static _ Hi) _ _ L) as (Ek & _). rewrite Ek in U1. assert (D : ofSaga s k k1 d1) by done.
    pose proof (inv_state _ Hi _ _ L) as Z. rewrite !orb_true_iff, !bool_decide_eq_true in U2.
    assert (U3 : pendingState (d_State d1) = true ∧ d_State d1 ≠ DispatchQueued ∨ d_State d1 = DispatchBlockedUnknown).
    { destruct U2 as [[X|X%uncertainRetry_state]|X]; rewrite X; auto. }
    assert (Hno : pendingState (d_State d1) = true ∧ d_State d1 ≠ DispatchQueued → isTerminalSaga (sg_State sg) = false).
    { intros [P Q]. rewrite (z_active _ _ _ Z k1 d1 D P (or_introl Q)). by destruct (d_Direction d1). }
    apply next_unknown; [done|..]; intros E.
    + destruct U3 as [X|X]; [by rewrite Hno in T|]. by rewrite (z_completed _ _ _ Z k1 d1 E D) in X.
    + destruct U3 as [X|X]; [by rewrite Hno in T|]. assert (Y := z_known _ _ _ Z k1 d1 (or_intror E) D). by rewrite X in Y.
  - apply finishSaga_moves; [done| |done]. rewrite foldl_stopped.
    destruct (existsb _ _); [apply next_block; [by destruct (sg_State sg); auto|auto]|].
    destruct (bool_decide (_ = SagaBlockedUnknown)); [apply next_block; [by destruct (sg_State sg); auto|auto]|].
    destruct (existsb _ _); [apply next_block; [by destruct (sg_State sg); auto|auto]|].
    destruct (sg_State sg); try done; cbn; [apply next_fail|apply next_block; auto].
Qed.
Lemma FinalizeStoppedExecution_moves ctx now eid s s' : store_inv s → FinalizeStoppedExecution ctx now eid s = Ok s' → moves s s'.
Proof.
  intros Hi H sid sg sg' L L'. destruct (finalize_entries s) as [Hn Hl].
  unfold FinalizeStoppedExecution in H. do 3 apply bind_Ok in H as ([] & _ & H). injection H as <-.
  apply elem_of_map_to_list in L. apply list_elem_of_split in L as (l1 & l2 & El). rewrite El in *. rewrite foldl_app in L'. cbn [foldl] in L'.
  rewrite fmap_app in Hn. apply NoDup_app in Hn as (N1 & N2 & N3). cbn in N3. apply NoDup_cons in N3 as [N3 N4].
  assert (Hl1 : ∀ k x, (k, x) ∈ l1 → os_sagas s !! k = Some x) by (intros; apply Hl; set_solver).
  destruct (finalize_fold eid now l1 s Hi N1 Hl1) as (I1 & F1 & _). set (s1 := foldl _ s l1) in *.
  assert (K1 : sid ∉ l1.*1) by (intros X; apply (N2 _ X); cbn; apply elem_of_cons; by left).
  assert (Ls1 : os_sagas s1 !! sid = Some sg) by (rewrite (proj2 (F1 _ K1)); apply Hl; set_solver).
  destruct (finalizeStoppedSaga_spec eid now s1 sid sg I1 Ls1) as (I2 & [_ O2] & _). set (s2 := finalizeStoppedSaga _ _ s1 _) in *.
  assert (Hl2 : ∀ k x, (k, x) ∈ l2 → os_sagas s2 !! k = Some x).
  { intros k x X. assert (Xk : k ∈ l2.*1) by (apply list_elem_of_fmap; by exists (k, x)). rewrite O2 by (intros ->; done).
    rewrite (proj2 (F1 k ltac:(intros Y; apply (N2 _ Y); cbn; apply elem_of_cons; by right))). apply Hl. set_solver. }
  destruct (finalize_fold eid now l2 s2 I2 N4 Hl2) as (_ & F2 & _). rewrite (proj2 (F2 sid N3)) in L'.
  by eapply (finalizeStoppedSaga_moves eid now s1 sid sg Ls1 I1).
Qed.

Lemma outbox_step_moves s s' : store_inv s → outbox_step s s' → moves s s'.
Proof.
  intros Hi H. destruct H.
  - unfold CreateSaga in H. inv_res. apply moves_same. destruct (os_sagas s !! cs_SagaID req) eqn:L; inv_res; [naive_solver|].
    intros sid sg'. cbn. intros [[<- <-]|[_ L']]%lookup_insert_Some; [congruence|naive_solver].
  - unfold EnqueueStep in H. apply bind_Ok in H as ([] & _ & H). apply bind_Ok in H as (n & _ & H).
    apply bind_Ok in H as (sg & Lsg%ofOption_Ok & H). destruct (os_dispatches s !! _).
    { destruct (stepsOf _ _ !! _); [|done]. destruct (sameStep _ _ _ _); [|done]. inv_res. apply moves_same. naive_solver. }
    inv_res. apply (moves_one _ _ _ sg (sg_State sg) Lsg); [constructor| |cbn; by rewrite lookup_insert_eq].
    intros sid N. cbn. by rewrite lookup_insert_ne.
  - apply ClaimDispatch_Ok in H as (k & d0 & tok & _ & _ & _ & _ & -> & ->). apply moves_same. naive_solver.
  - unfold SaveFencingGrants in H. do 2 apply bind_Ok in H as ([] & _ & H). destruct (os_dispatches s !! id); [|done]. inv_res.
    apply moves_same. naive_solver.
  - by eapply CompleteDispatch_moves.
  - unfold CompleteSaga in H. apply bind_Ok in H as ([] & _ & H). apply bind_Ok in H as (sg & Lsg%ofOption_Ok & H).
    destruct (bool_decide (sg_State sg = _)); inv_res; [apply moves_same; naive_solver|]. bool_to_prop.
    apply finishSaga_moves; [done| |done]. match goal with H : ¬ _ ≠ _ |- _ => apply dec_stable in H; rewrite H end. constructor.
  - by eapply FinalizeStoppedExecution_moves.
  - unfold BlockSagaCompensation in H. apply bind_Ok in H as ([] & _ & H). apply bind_Ok in H as (sg & Lsg%ofOption_Ok & H).
    destruct (bool_decide (sg_State sg = _)); inv_res; [apply moves_same; naive_solver|]. bool_to_prop.
    apply finishSaga_moves; [done| |done]. match goal with H : ¬ _ ≠ _ |- _ => apply dec_stable in H; rewrite H end.
    destruct (mapExists _ _); apply next_block; auto.
  - unfold FinalizeFailFastSaga in H. apply bind_Ok in H as ([] & _ & H). apply bind_Ok in H as (sg & Lsg%ofOption_Ok & H).
    destruct (bool_decide (sg_State sg = _)); inv_res; [apply moves_same; naive_solver|]. bool_to_prop.
    apply finishSaga_moves; [done| |done]. match goal with H : ¬ _ ≠ _ |- _ => apply dec_stable in H; rewrite H end. constructor.
Qed.

(** C2: Every outbox operation refines the saga state machine: it moves each existing saga by one
    transition of [saga_next] or leaves its state alone. *)
Theorem outbox_refines_saga_machine (s s' : InMemoryOutboxStore) sid sg sg' : reachable s → outbox_step s s' →
  os_sagas s !! sid = Some sg → os_sagas s' !! sid = Some sg' → saga_next (sg_State sg) (sg_State sg').
Proof. intros Hi%reachable_inv H. by apply outbox_step_moves. Qed.
Lemma outbox_refines_saga_machine_witness : saga_next SagaCompensating SagaCompensated.
Proof.
  exact (outbox_refines_saga_machine undoing undone demoSaga (sagaIn undoing demoSaga) (sagaIn undone demoSaga) undoing_reachable
    (runOp_step (demoComplete "a" DirectionCompensation OutcomeSuccess "") undoing undone ltac:(vm_cast_no_check (eq_refl (Ok undone))))
    ltac:(vm_compute; reflexivity) ltac:(vm_compute; reflexivity)).
Defined.

Lemma final_state S S' : S = SagaCompleted ∨ S = SagaCompensated → saga_next S S' → S' = S.
Proof. intros HS N. destruct N as [ | | | | | |? ? [?|?] ?|? ? ? ?]; try done; destruct HS; congruence. Qed.

(** Completed and compensated sagas are final: no further sequence of operations changes the state of
    a saga that has completed or has been compensated. *)
Theorem finished_sagas_are_final (s s' : InMemoryOutboxStore) sid sg : reachable s → rtc outbox_step s s' →
  os_sagas s !! sid = Some sg → sg_State sg = SagaCompleted ∨ sg_State sg = SagaCompensated →
  ∃ sg', os_sagas s' !! sid = Some sg' ∧ sg_State sg' = sg_State sg.
Proof.
  intros Hi%reachable_inv H. revert sg. induction H as [s|s1 s2 s3 H1 _ IH]; intros sg L HS; [eauto|].
  destruct (ex_saga _ _ (outbox_step_extends _ _ Hi H1) _ _ L) as (sg2 & L2 & _).
  assert (E := final_state _ _ HS (outbox_step_moves _ _ Hi H1 _ _ _ L L2)).
  destruct (IH (outbox_step_inv _ _ H1 Hi) sg2 L2) as (sg3 & L3 & E3); [by rewrite E|]. exists sg3. split; [done|congruence].
Qed.
Definition undoneStopped := Eval vm_compute in storeOf (runOps [OpStop 5000 "exec"] undone).
Lemma finished_sagas_are_final_witness : ∃ sg', os_sagas undoneStopped !! demoSaga = Some sg' ∧ sg_State sg' = SagaCompensated.
Proof.
  exact (finished_sagas_are_final undone undoneStopped demoSaga undoneSaga undone_reachable
    (rtc_once _ _ (runOp_step (OpStop 5000 "exec") undone undoneStopped ltac:(vm_cast_no_check (eq_refl (Ok undoneStopped)))))
    ltac:(vm_cast_no_check (eq_refl (Some undoneSaga))) (or_intror eq_refl)).
Defined.





