(* ===== verification/Fencing.v ===== *)
(** * Fencing leases

    [schema/fencing/provider.go]: the in-memory provider of resource leases with
    fencing tokens. A lease handle is the value [memoryLease]; the provider it points
    to is the state that [Renew] and [Release] receive. Each call of the provider's
    clock is an argument. *)

From S2P Require Import Prelude GoText Workflow.
From Stdlib Require Import ZArith String Ascii.
Local Open Scope list_scope.
Local Open Scope Z_scope.

Inductive Guarantee : Type := GuaranteeLocalAdvisory | GuaranteeDurableMonotonic.

Record Request : Type := mkRequest {
  rq_Authority : string;
  rq_Resource : string;
  rq_Holder : string;
  rq_TTL : Duration }.

Record memoryLeaseState : Type := mkLeaseState {
  ls_holder : string;
  ls_token : Z;
  ls_expiresAt : Time }.

Record InMemoryProvider : Type := mkProvider {
  fp_counters : gmap string Z;
  fp_leases : gmap string memoryLeaseState }.

Record memoryLease : Type := mkLease {
  ml_authority : string;
  ml_resource : string;
  ml_holder : string;
  ml_token : Z }.

Definition NewInMemoryProvider : InMemoryProvider := mkProvider ∅ ∅.
Definition providerGuarantee (_ : InMemoryProvider) : Guarantee := GuaranteeLocalAdvisory.

Definition validateRequest (request : Request) : result unit :=
  failIf (bool_decide (rq_Authority request = "") || bool_decide (rq_Resource request = "")
          || bool_decide (rq_Holder request = ""))
    (errorf "fencing authority, resource, and holder are required") ;;
  failIf (bool_decide (rq_TTL request ≤ 0)) (errorf "fencing lease TTL must be positive").

Definition resourceKey (authority resource : string) : string :=
  authority +:+ String (ascii_of_nat 0) resource.

Definition counterOf (p : InMemoryProvider) (key : string) : Z := default 0 (fp_counters p !! key).

Definition Acquire (ctx : option error) (now : Time) (request : Request) (p : InMemoryProvider)
    : result (memoryLease * InMemoryProvider) :=
  ctxErr ctx ;;
  validateRequest request ;;
  let key := resourceKey (rq_Authority request) (rq_Resource request) in
  failIf (match fp_leases p !! key with
          | Some current => timeAfter (ls_expiresAt current) now
          | None => false
          end) (wrapf ErrLeaseHeld "fencing resource lease is held") ;;
  let counter := u64_inc (counterOf p key) in
  let state := mkLeaseState (rq_Holder request) counter (timeAdd now (rq_TTL request)) in
  Ok (mkLease (rq_Authority request) (rq_Resource request) (rq_Holder request) (ls_token state),
      mkProvider (<[key := counter]> (fp_counters p)) (<[key := state]> (fp_leases p))).

Definition Grant (lease : memoryLease) : FencingGrant :=
  mkGrant (ml_authority lease) (ml_resource lease) (ml_token lease).

Definition keyOf (lease : memoryLease) : string := resourceKey (ml_authority lease) (ml_resource lease).

Definition Renew (ctx : option error) (checkNow renewNow : Time) (lease : memoryLease) (ttl : Duration)
    (p : InMemoryProvider) : result InMemoryProvider :=
  ctxErr ctx ;;
  failIf (bool_decide (ttl ≤ 0)) (errorf "fencing lease TTL must be positive") ;;
  match fp_leases p !! keyOf lease with
  | None => Err (wrapf ErrStaleGrant "stale fencing grant")
  | Some current =>
      failIf (bool_decide (ls_holder current ≠ ml_holder lease) || bool_decide (ls_token current ≠ ml_token lease)
              || negb (timeAfter (ls_expiresAt current) checkNow)) (wrapf ErrStaleGrant "stale fencing grant") ;;
      Ok (mkProvider (fp_counters p)
            (<[keyOf lease := mkLeaseState (ls_holder current) (ls_token current) (timeAdd renewNow ttl)]> (fp_leases p)))
  end.

Definition Release (ctx : option error) (lease : memoryLease) (p : InMemoryProvider) : result InMemoryProvider :=
  ctxErr ctx ;;
  match fp_leases p !! keyOf lease with
  | None => Ok p
  | Some current =>
      failIf (bool_decide (ls_holder current ≠ ml_holder lease) || bool_decide (ls_token current ≠ ml_token lease))
        (wrapf ErrStaleGrant "stale fencing grant") ;;
      Ok (mkProvider (fp_counters p) (delete (keyOf lease) (fp_leases p)))
  end.

(** Does the handle hold its resource at [now]? *)
Definition holds (p : InMemoryProvider) (lease : memoryLease) (now : Time) : bool :=
  match fp_leases p !! keyOf lease with
  | None => false
  | Some current => bool_decide (ls_holder current = ml_holder lease) && bool_decide (ls_token current = ml_token lease)
                    && timeAfter (ls_expiresAt current) now
  end.

(** ** Runs of the provider

    [issued p l]: the provider is [p] after a sequence of operations in which the
    handles [l] were issued, the latest first. *)
Inductive issued : InMemoryProvider → list memoryLease → Prop :=
  | issued_new : issued NewInMemoryProvider []
  | issued_acquire ctx now request p l lease p' : issued p l → Acquire ctx now request p = Ok (lease, p') → issued p' (lease :: l)
  | issued_renew ctx n1 n2 lease ttl p l p' : issued p l → Renew ctx n1 n2 lease ttl p = Ok p' → issued p' l
  | issued_release ctx lease p l p' : issued p l → Release ctx lease p = Ok p' → issued p' l.

(** The number of grants issued for a resource. *)
Definition grantsFor (key : string) (l : list memoryLease) : nat :=
  List.length (List.filter (λ lease, bool_decide (keyOf lease = key)) l).

Lemma grantsFor_cons key lease l : grantsFor key (lease :: l) = ((if bool_decide (keyOf lease = key) then 1 else 0) + grantsFor key l)%nat.
Proof. unfold grantsFor. cbn. by destruct (bool_decide _). Qed.
Lemma grantsFor_app key l1 l2 : grantsFor key (l1 ++ l2) = (grantsFor key l1 + grantsFor key l2)%nat.
Proof. unfold grantsFor. by rewrite List.filter_app, length_app. Qed.

(** Counters count grants, every token is the number of grants issued so far, and a
    current lease carries the counter. *)
Record issued_inv (p : InMemoryProvider) (l : list memoryLease) : Prop := {
  ii_counter key : counterOf p key = u64 (Z.of_nat (grantsFor key l));
  ii_lease key st : fp_leases p !! key = Some st → ls_token st = counterOf p key;
  ii_token l1 lease l2 : l = l1 ++ lease :: l2 → ml_token lease = u64 (Z.of_nat (grantsFor (keyOf lease) l2) + 1) }.

Lemma Acquire_Ok ctx now request p lease p' : Acquire ctx now request p = Ok (lease, p') →
  let key := resourceKey (rq_Authority request) (rq_Resource request) in
  let state := mkLeaseState (rq_Holder request) (u64_inc (counterOf p key)) (timeAdd now (rq_TTL request)) in
  lease = mkLease (rq_Authority request) (rq_Resource request) (rq_Holder request) (ls_token state) ∧
  p' = mkProvider (<[key := ls_token state]> (fp_counters p)) (<[key := state]> (fp_leases p)) ∧ 0 < rq_TTL request ∧
  (∀ st, fp_leases p !! key = Some st → ls_expiresAt st ≤ now).
Proof.
  intros H key state. unfold Acquire, validateRequest in H. fold key in H. inv_res. bool_to_prop.
  repeat split; [lia|]. intros st L. destruct (fp_leases p !! key) as [c|]; [|done]. simplify_eq.
  match goal with H : timeAfter _ _ = false |- _ => apply bool_decide_eq_false in H end. lia.
Qed.
Lemma Renew_Ok ctx n1 n2 lease ttl p p' : Renew ctx n1 n2 lease ttl p = Ok p' →
  0 < ttl ∧ holds p lease n1 = true ∧ p' = mkProvider (fp_counters p)
    (<[keyOf lease := mkLeaseState (ml_holder lease) (ml_token lease) (timeAdd n2 ttl)]> (fp_leases p)).
Proof.
  intros H. unfold Renew, holds in *. do 2 apply bind_Ok in H as ([] & ?%ctxErr_Ok & H) || apply bind_Ok in H as ([] & ?%failIf_Ok & H).
  bool_to_prop. destruct (fp_leases p !! keyOf lease) as [c|]; [|done]. inv_res. bool_to_prop.
  repeat match goal with H : ¬ _ ≠ _ |- _ => apply dec_stable in H; rewrite H end. rewrite !bool_decide_eq_true_2 by done.
  repeat split; [lia|done].
Qed.

Lemma counterOf_insert p key c m key' : counterOf (mkProvider (<[key := c]> (fp_counters p)) m) key' =
  if bool_decide (key' = key) then c else counterOf p key'.
Proof.
  unfold counterOf. cbn. destruct (bool_decide (key' = key)) eqn:E; bool_to_prop.
  - subst. by rewrite lookup_insert_eq.
  - by rewrite lookup_insert_ne.
Qed.

Lemma issued_invariant p l : issued p l → issued_inv p l.
Proof.
  induction 1 as [|ctx now request p l lease p' H IH HA|ctx n1 n2 lease ttl p l p' H IH HR|ctx lease p l p' H IH HR].
  - split; [done|done|]. intros [|] ? ?; done.
  - apply Acquire_Ok in HA as (El & -> & _). set (key := resourceKey _ _) in *. cbn [ls_token] in *.
    assert (Ek : keyOf lease = key) by (by rewrite El). destruct IH as [I1 I2 I3]. split.
    + intros key'. rewrite counterOf_insert, grantsFor_cons, Ek. destruct (decide (key' = key)) as [->|N].
      * rewrite !bool_decide_eq_true_2 by done. rewrite I1, u64_inc_u64. f_equal. lia.
      * rewrite (bool_decide_eq_false_2 (key' = key)), bool_decide_eq_false_2 by congruence. by rewrite I1.
    + intros key' st. rewrite counterOf_insert. cbn [fp_leases]. intros [[<- <-]|[N L]]%lookup_insert_Some.
      * by rewrite bool_decide_eq_true_2.
      * rewrite bool_decide_eq_false_2 by congruence. eauto.
    + intros [|x l1] lease1 l2 E; injection E as E1 E2; subst; [|by eapply I3]. cbn [ml_token].
      change (keyOf _) with key. by rewrite I1, u64_inc_u64.
  - apply Renew_Ok in HR as (_ & Hh & ->). destruct IH as [I1 I2 I3]. split; [done| |done].
    intros key st. cbn [fp_leases]. intros [[<- <-]|[N L]]%lookup_insert_Some; [|by apply I2].
    unfold holds in Hh. destruct (fp_leases p !! keyOf lease) as [c|] eqn:L; [|done]. bool_to_prop.
    pose proof (I2 _ _ L) as E. change (counterOf _ _) with (counterOf p (keyOf lease)). cbn [ls_token]. congruence.
  - unfold Release in HR. inv_res. destruct (fp_leases p !! keyOf lease) as [c|] eqn:L; inv_res; [|done].
    destruct IH as [I1 I2 I3]. split; [done| |done]. intros key st. cbn. intros [_ L']%lookup_delete_Some. by apply I2.
Qed.

(** ** Guarantees *)

(** Fencing tokens are strictly increasing. Whatever sequence of acquisitions, renewals and releases
    the provider serves, of two grants for the same resource the later one carries the greater token, as
    long as fewer than 2^64 grants have been issued for it: releasing or losing a lease never reuses a
    token. *)
Theorem fencing_tokens_increase (p : InMemoryProvider) l1 later l2 earlier l3 : issued p (l1 ++ later :: l2 ++ earlier :: l3) →
  keyOf later = keyOf earlier → Z.of_nat (grantsFor (keyOf later) (l1 ++ later :: l2 ++ earlier :: l3)) < 2 ^ 64 →
  ml_token earlier < ml_token later.
Proof.
  intros [_ _ T]%issued_invariant Ek B.
  rewrite (T l1 later _ eq_refl), (T (l1 ++ later :: l2) earlier l3), <-Ek by (by rewrite <-app_assoc).
  rewrite !grantsFor_app, !grantsFor_cons, !grantsFor_app, !grantsFor_cons, !bool_decide_eq_true_2 in * by done.
  rewrite !u64_small by lia. lia.
Qed.
Definition demoRequest (holder : string) : Request := mkRequest "bank" "account-1" holder 50.
Definition demoHandle (holder : string) (token : Z) : memoryLease := mkLease "bank" "account-1" holder token.
Definition demoProvider (token : Z) (holder : string) (expires : Time) : InMemoryProvider :=
  mkProvider {[ resourceKey "bank" "account-1" := token ]} {[ resourceKey "bank" "account-1" := mkLeaseState holder token expires ]}.
(** The first lease runs out and a second worker takes the resource. *)
Lemma demo_issued : issued (demoProvider 2 "w2" 150) ([] ++ demoHandle "w2" 2 :: [] ++ demoHandle "w1" 1 :: []).
Proof.
  apply (issued_acquire None 100 (demoRequest "w2") (demoProvider 1 "w1" 60)); [|vm_compute; reflexivity].
  apply (issued_acquire None 10 (demoRequest "w1") NewInMemoryProvider); [apply issued_new|vm_compute; reflexivity].
Qed.
Lemma fencing_tokens_increase_witness : ml_token (demoHandle "w1" 1) < ml_token (demoHandle "w2" 2).
Proof. exact (fencing_tokens_increase _ _ _ _ _ _ demo_issued eq_refl ltac:(vm_compute; reflexivity)). Defined.

(** A superseded handle is dead. Once a later grant has been issued for a resource, an earlier handle
    never holds it again: renewing it is refused as stale and releasing it leaves the provider as it is,
    whatever happened in between. *)
Theorem superseded_grant_is_stale (p : InMemoryProvider) l1 later l2 earlier l3 n1 n2 ttl :
  issued p (l1 ++ later :: l2 ++ earlier :: l3) → keyOf later = keyOf earlier →
  Z.of_nat (grantsFor (keyOf later) (l1 ++ later :: l2 ++ earlier :: l3)) < 2 ^ 64 → 0 < ttl →
  holds p earlier n1 = false ∧
  (∃ e, Renew None n1 n2 earlier ttl p = Err e ∧ errorsIs e ErrStaleGrant = true) ∧
  (∀ p', Release None earlier p = Ok p' → p' = p).
Proof.
  intros [C T K]%issued_invariant Ek B Ht.
  assert (Hne : ∀ st, fp_leases p !! keyOf earlier = Some st → ls_token st ≠ ml_token earlier).
  { intros st L. rewrite (T _ _ L), C, (K (l1 ++ later :: l2) earlier l3), <-Ek by (by rewrite <-app_assoc).
    rewrite !grantsFor_app, !grantsFor_cons, !grantsFor_app, !grantsFor_cons, <-Ek, !bool_decide_eq_true_2 in * by done.
    rewrite !u64_small by lia. lia. }
  unfold holds, Renew, Release. rewrite (bool_decide_eq_false_2 (ttl ≤ 0)) by lia. cbn [ctxErr failIf mbind result_bind].
  destruct (fp_leases p !! keyOf earlier) as [st|] eqn:L.
  - specialize (Hne _ eq_refl). rewrite (bool_decide_eq_false_2 (ls_token st = _)), (bool_decide_eq_true_2 (ls_token st ≠ _)) by done.
    rewrite andb_false_r, orb_true_r. cbn. repeat split; [by eexists|done].
  - split; [done|]. split; [by eexists|]. by intros p' [= ->].
Qed.
Lemma superseded_grant_is_stale_witness : ∃ e, Renew None 120 120 (demoHandle "w1" 1) 50 (demoProvider 2 "w2" 150) = Err e ∧
  errorsIs e ErrStaleGrant = true.
Proof.
  apply (superseded_grant_is_stale (demoProvider 2 "w2" 150) [] (demoHandle "w2" 2) [] (demoHandle "w1" 1) [] 120 120 50 demo_issued);
    vm_compute; reflexivity.
Defined.

(** Acquire excludes. With a live context and a valid request, Acquire is refused exactly while an
    unexpired lease exists for the resource; otherwise the new handle holds the resource from then until
    its TTL has passed, and the leases of other resources are untouched. *)
Theorem Acquire_excludes (p : InMemoryProvider) now request : validateRequest request = Ok tt →
  let key := resourceKey (rq_Authority request) (rq_Resource request) in
  match Acquire None now request p with
  | Err e => errorsIs e ErrLeaseHeld = true ∧ ∃ st, fp_leases p !! key = Some st ∧ now < ls_expiresAt st
  | Ok (lease, p') => (∀ st, fp_leases p !! key = Some st → ls_expiresAt st ≤ now) ∧
      (∀ t, holds p' lease t = true ↔ t < now + rq_TTL request) ∧
      (∀ key', key' ≠ key → fp_leases p' !! key' = fp_leases p !! key' ∧ counterOf p' key' = counterOf p key')
  end.
Proof.
  intros Hv key. destruct (Acquire None now request p) as [[lease p']|e] eqn:A.
  - apply Acquire_Ok in A as (-> & -> & _ & Hx). fold key in Hx |- *. split; [done|]. split.
    + intros t. unfold holds, keyOf. cbn [ml_authority ml_resource fp_leases]. fold key. rewrite lookup_insert_eq. cbn.
      rewrite !bool_decide_eq_true_2 by done. apply bool_decide_eq_true.
    + intros key' N. rewrite counterOf_insert, bool_decide_eq_false_2 by done. cbn. by rewrite lookup_insert_ne.
  - unfold Acquire in A. rewrite Hv in A. fold key in A. cbn [ctxErr mbind result_bind] in A.
    destruct (fp_leases p !! key) as [st|]; [|done]. destruct (timeAfter _ _) eqn:E; [|done]. injection A as <-.
    split; [done|]. exists st. split; [done|]. by apply bool_decide_eq_true in E.
Qed.
Lemma Acquire_excludes_witness : ∃ e, Acquire None 120 (demoRequest "w3") (demoProvider 2 "w2" 150) = Err e ∧ errorsIs e ErrLeaseHeld = true.
Proof.
  pose proof (Acquire_excludes (demoProvider 2 "w2" 150) 120 (demoRequest "w3") ltac:(reflexivity)) as H. cbv zeta in H.
  destruct (Acquire _ _ _ _) as [[lease p']|e] eqn:A; [vm_compute in A; discriminate A|]. exists e. split; [reflexivity|]. apply H.
Defined.

(** ** Resource keys

    Joining with a zero byte separates authority from resource only when the authority
    has no zero byte, which [validateRequest] does not ask for. *)
Definition zeroFree (s : string) : Prop := ascii_of_nat 0 ∉ list_ascii_of_string s.
Lemma resourceKey_inj a r a' r' : zeroFree a → zeroFree a' → resourceKey a r = resourceKey a' r' → a = a' ∧ r = r'.
Proof.
  unfold zeroFree, resourceKey. revert a'. induction a as [|c a IH]; intros [|c' a'] N N' E; cbn in *.
  - by injection E.
  - injection E as <- E. set_solver.
  - injection E as -> E. set_solver.
  - injection E as <- E. destruct (IH a') as [-> ->]; set_solver.
Qed.
Lemma resourceKey_aliases : ∃ a r a' r', (a, r) ≠ (a', r') ∧ resourceKey a r = resourceKey a' r' ∧
  (∀ holder, holder ≠ "" → validateRequest (mkRequest a r holder 1) = Ok tt ∧ validateRequest (mkRequest a' r' holder 1) = Ok tt).
Proof.
  exists (String "a" (String (ascii_of_nat 0) "b")), "c", "a", (String "b" (String (ascii_of_nat 0) "c")).
  split; [done|]. split; [done|]. intros holder N. unfold validateRequest.
  cbn [rq_Authority rq_Resource rq_Holder rq_TTL]. rewrite (bool_decide_eq_false_2 (holder = "")) by done. split; reflexivity.
Qed.
