(* ===== verification/Ledger.v ===== *)
(** * The execution ledger

    [schema/ledger/contracts.go] and [schema/execution_ledger.go]: durable execution
    records, their artifacts, recovery leases, and the in-memory ledger. Every method
    holds the mutex for its whole body. [ctx] is [ctx.Err()], each [now] one call of
    the clock, and [token i] the result of the [i]-th call of [executionLeaseToken] in
    an operation. A method that fails leaves the ledger as it was, except
    [LeaseExecutions], which may fail after it has leased some executions and so
    returns the ledger in both cases. *)

From S2P Require Import Prelude GoText Sha256 Json Workflow Identity.
From Stdlib Require Import ZArith String.
Local Open Scope list_scope.
Local Open Scope Z_scope.

(** ** schema/ledger *)
Inductive ExecutionState : Type :=
  | ExecutionAdmitting
  | ExecutionAccepted
  | ExecutionRunning
  | ExecutionCompleted
  | ExecutionFailed
  | ExecutionBlockedUnknown
  | ExecutionBlockedFence
  | ExecutionBlockedDependency
  | ExecutionBlockedCompensation
  | ExecutionOther (text : string).   (* any other string; [ExecutionOther ""] is the empty one *)
#[global] Instance ExecutionState_eq_dec : EqDecision ExecutionState.
Proof. solve_decision. Defined.

Definition IsTerminalExecutionState (state : ExecutionState) : bool :=
  match state with
  | ExecutionCompleted | ExecutionFailed | ExecutionBlockedUnknown | ExecutionBlockedFence
  | ExecutionBlockedDependency | ExecutionBlockedCompensation => true
  | _ => false
  end.

Record ExecutionArtifact : Type := mkArtifact {
  ar_GenerationDigest : string;
  ar_IRDigest : string;
  ar_IRBytes : string;
  ar_Environment : string;
  ar_ExecutorManifest : string;
  ar_FunctionManifest : string;
  ar_SourceDigest : string;
  ar_CompilerMetadata : string;
  ar_CreatedAt : Time }.

Record ExecutionPlanRecord : Type := mkPlanRecord {
  pr_ExecutionID : string;
  pr_PlanID : string;
  pr_SagaID : string;
  pr_Ordinal : Z;
  pr_State : string }.

Record ExecutionRecord : Type := mkExecution {
  er_ExecutionID : string;
  er_AdmissionIdentity : string;
  er_RequestHash : string;
  er_Ruleset : string;
  er_Version : string;
  er_TenantNamespace : string;
  er_MergePolicy : string;
  er_GenerationDigest : string;
  er_EffectiveFacts : string;
  er_State : ExecutionState;
  er_Revision : Z;
  er_RecoveryOwner : string;
  er_RecoveryToken : string;
  er_RecoveryDeadline : Time;
  er_LastError : string;
  er_CreatedAt : Time;
  er_UpdatedAt : Time;
  er_Plans : list ExecutionPlanRecord }.

Record FactApplication : Type := mkFactApplication {
  fa_ExecutionID : string;
  fa_FactEventID : string;
  fa_MergePolicy : string;
  fa_Facts : string;
  fa_AppliedRevision : Z }.

Record DurableAdmission : Type := mkAdmission {
  da_Artifact : ExecutionArtifact;
  da_Execution : ExecutionRecord;
  da_FactApplication : FactApplication;
  da_Plans : list ExecutionPlanRecord;
  da_Sagas : list CreateSagaRequest;
  da_InitialSteps : list (EnqueueStepRequest json) }.

Record ExecutionLease : Type := mkExecutionLease {
  el_ExecutionID : string;
  el_Owner : string;
  el_Token : string;
  el_Deadline : Time;
  el_Revision : Z }.

#[global] Instance eta_ExecutionArtifact : Eta ExecutionArtifact := λ r,
  mkArtifact (ar_GenerationDigest r) (ar_IRDigest r) (ar_IRBytes r) (ar_Environment r) (ar_ExecutorManifest r)
    (ar_FunctionManifest r) (ar_SourceDigest r) (ar_CompilerMetadata r) (ar_CreatedAt r).
#[global] Instance eta_ExecutionPlanRecord : Eta ExecutionPlanRecord := λ r,
  mkPlanRecord (pr_ExecutionID r) (pr_PlanID r) (pr_SagaID r) (pr_Ordinal r) (pr_State r).
#[global] Instance eta_ExecutionRecord : Eta ExecutionRecord := λ r,
  mkExecution (er_ExecutionID r) (er_AdmissionIdentity r) (er_RequestHash r) (er_Ruleset r) (er_Version r)
    (er_TenantNamespace r) (er_MergePolicy r) (er_GenerationDigest r) (er_EffectiveFacts r) (er_State r)
    (er_Revision r) (er_RecoveryOwner r) (er_RecoveryToken r) (er_RecoveryDeadline r) (er_LastError r)
    (er_CreatedAt r) (er_UpdatedAt r) (er_Plans r).
#[global] Instance eta_ExecutionLease : Eta ExecutionLease := λ r,
  mkExecutionLease (el_ExecutionID r) (el_Owner r) (el_Token r) (el_Deadline r) (el_Revision r).

(** ** Validation *)
Definition validateExecutionArtifact (artifact : ExecutionArtifact) : result unit :=
  failIf (existsb isBlank [ar_GenerationDigest artifact; ar_IRDigest artifact; ar_SourceDigest artifact])
    (errorf "artifact field is required") ;;
  failIf (bool_decide (ar_IRBytes artifact = "") || negb (Valid (ar_Environment artifact))
          || negb (Valid (ar_ExecutorManifest artifact)) || negb (Valid (ar_FunctionManifest artifact))
          || negb (Valid (ar_CompilerMetadata artifact)))
    (errorf "artifact bytes and canonical JSON manifests are required").

Fixpoint validatePlans (executionID : string) (index : Z) (plans : list ExecutionPlanRecord) : result unit :=
  match plans with
  | [] => Ok tt
  | plan :: plans =>
      failIf (bool_decide (pr_ExecutionID plan ≠ executionID) || bool_decide (pr_Ordinal plan ≠ index)
              || bool_decide (pr_PlanID plan = "")
              || bool_decide (pr_SagaID plan ≠ StableSagaID executionID (pr_PlanID plan)))
        (errorf "execution plan is invalid") ;;
      validatePlans executionID (index + 1) plans
  end.

Definition validateDurableAdmission (admission : DurableAdmission) : result unit :=
  validateExecutionArtifact (da_Artifact admission) ;;
  let record := da_Execution admission in
  failIf (existsb isBlank [er_ExecutionID record; er_AdmissionIdentity record; er_RequestHash record;
                           er_GenerationDigest record; er_TenantNamespace record; er_Ruleset record; er_Version record])
    (errorf "execution field is required") ;;
  failIf (bool_decide (er_GenerationDigest record ≠ ar_GenerationDigest (da_Artifact admission))
          || negb (Valid (er_EffectiveFacts record)))
    (errorf "execution artifact or effective facts are invalid") ;;
  let facts := da_FactApplication admission in
  failIf (bool_decide (fa_ExecutionID facts ≠ er_ExecutionID record) || bool_decide (fa_FactEventID facts = "")
          || negb (Valid (fa_Facts facts))) (errorf "fact application is invalid") ;;
  validatePlans (er_ExecutionID record) 0 (da_Plans admission).

Definition sameExecutionArtifact (left right : ExecutionArtifact) : bool :=
  bool_decide (ar_GenerationDigest left = ar_GenerationDigest right)
  && bool_decide (ar_IRDigest left = ar_IRDigest right)
  && bool_decide (ar_IRBytes left = ar_IRBytes right)
  && jsonSemanticallyEqual (ar_Environment left) (ar_Environment right)
  && jsonSemanticallyEqual (ar_ExecutorManifest left) (ar_ExecutorManifest right)
  && jsonSemanticallyEqual (ar_FunctionManifest left) (ar_FunctionManifest right)
  && bool_decide (ar_SourceDigest left = ar_SourceDigest right)
  && jsonSemanticallyEqual (ar_CompilerMetadata left) (ar_CompilerMetadata right).

Definition executionPlanDisposition (state : ExecutionState) : string :=
  match state with
  | ExecutionCompleted => "completed"
  | ExecutionRunning => "running"
  | ExecutionFailed => "failed"
  | ExecutionBlockedUnknown | ExecutionBlockedFence | ExecutionBlockedDependency
  | ExecutionBlockedCompensation => "blocked"
  | _ => "selected"
  end.

(** ** The ledger *)
Record InMemoryExecutionLedger : Type := mkLedger {
  lg_artifacts : gmap string ExecutionArtifact;
  lg_executions : gmap string ExecutionRecord;
  lg_byAdmission : gmap string string;
  lg_facts : gmap string (gmap string FactApplication) }.
#[global] Instance eta_InMemoryExecutionLedger : Eta InMemoryExecutionLedger := λ r,
  mkLedger (lg_artifacts r) (lg_executions r) (lg_byAdmission r) (lg_facts r).

Definition NewInMemoryExecutionLedger : InMemoryExecutionLedger := mkLedger ∅ ∅ ∅ ∅.

Definition putExecution (id : string) (record : ExecutionRecord) (store : InMemoryExecutionLedger)
    : InMemoryExecutionLedger :=
  store <| lg_executions := <[id := record]> (lg_executions store) |>.

Definition PutArtifact (ctx : option error) (now : Time) (artifact : ExecutionArtifact)
    (store : InMemoryExecutionLedger) : result InMemoryExecutionLedger :=
  ctxErr ctx ;;
  validateExecutionArtifact artifact ;;
  match lg_artifacts store !! ar_GenerationDigest artifact with
  | Some existing =>
      if sameExecutionArtifact existing artifact then Ok store
      else Err (wrapf ErrIdentityConflict "generation artifact")
  | None =>
      Ok (store <| lg_artifacts := <[ar_GenerationDigest artifact := artifact <| ar_CreatedAt := now |>]>
                                     (lg_artifacts store) |>)
  end.

Definition GetArtifact (ctx : option error) (digest : string) (store : InMemoryExecutionLedger)
    : result ExecutionArtifact :=
  ctxErr ctx ;; ofOption (lg_artifacts store !! digest) (wrapf ErrArtifactNotFound "execution artifact not found").

(** [store.byAdmission[identity]]: a missing entry reads as the empty string. *)
Definition admissionID (store : InMemoryExecutionLedger) (identity : string) : string :=
  default "" (lg_byAdmission store !! identity).

(** The boolean result says whether the execution was created by this call. *)
Definition AdmitExecution (ctx : option error) (now : Time) (admission : DurableAdmission)
    (store : InMemoryExecutionLedger) : result (ExecutionRecord * bool * InMemoryExecutionLedger) :=
  ctxErr ctx ;;
  validateDurableAdmission admission ;;
  let execution := da_Execution admission in
  let existingID := admissionID store (er_AdmissionIdentity execution) in
  if bool_decide (existingID ≠ "") then
    match lg_executions store !! existingID with
    | None => Err (errorf "runtime error: invalid memory address or nil pointer dereference")
    | Some existing =>
        failIf (bool_decide (er_RequestHash existing ≠ er_RequestHash execution)
                || bool_decide (er_ExecutionID existing ≠ er_ExecutionID execution))
          (wrapf ErrIdentityConflict "admission identity") ;;
        Ok (existing, false, store)
    end
  else
  match lg_executions store !! er_ExecutionID execution with
  | Some existing =>
      failIf (bool_decide (er_AdmissionIdentity existing ≠ er_AdmissionIdentity execution)
              || bool_decide (er_RequestHash existing ≠ er_RequestHash execution))
        (wrapf ErrIdentityConflict "execution") ;;
      Ok (existing, false, store)
  | None =>
      match lg_artifacts store !! ar_GenerationDigest (da_Artifact admission) with
      | None => Err (wrapf ErrIdentityConflict "generation artifact")
      | Some artifact =>
          failIf (negb (sameExecutionArtifact artifact (da_Artifact admission)))
            (wrapf ErrIdentityConflict "generation artifact") ;;
          let record := execution <| er_State := ExecutionAccepted |> <| er_Revision := 1 |>
            <| er_CreatedAt := now |> <| er_UpdatedAt := now |> <| er_Plans := da_Plans admission |> in
          let facts := da_FactApplication admission in
          Ok (record, true,
              mkLedger (lg_artifacts store)
                (<[er_ExecutionID record := record]> (lg_executions store))
                (<[er_AdmissionIdentity record := er_ExecutionID record]> (lg_byAdmission store))
                (<[er_ExecutionID record := {[ fa_FactEventID facts := facts ]}]> (lg_facts store)))
      end
  end.

Definition GetExecution (ctx : option error) (id : string) (store : InMemoryExecutionLedger) : result ExecutionRecord :=
  ctxErr ctx ;; ofOption (lg_executions store !! id) (wrapf ErrExecutionNotFound "execution not found").
Definition GetExecutionByAdmission (ctx : option error) (identity : string) (store : InMemoryExecutionLedger)
    : result ExecutionRecord :=
  ctxErr ctx ;;
  let id := admissionID store identity in
  if bool_decide (id = "") then Err (wrapf ErrExecutionNotFound "admission")
  else ofOption (lg_executions store !! id) (wrapf ErrExecutionNotFound "admission").

(** [for index := range record.Plans { record.Plans[index].State = disposition }] *)
Definition disposePlans (state : ExecutionState) (plans : list ExecutionPlanRecord) : list ExecutionPlanRecord :=
  (λ plan, plan <| pr_State := executionPlanDisposition state |>) <$> plans.

Definition SetExecutionState (ctx : option error) (now : Time) (id : string) (revision : Z) (state : ExecutionState)
    (message : string) (store : InMemoryExecutionLedger) : result (ExecutionRecord * InMemoryExecutionLedger) :=
  ctxErr ctx ;;
  record ← ofOption (lg_executions store !! id) (wrapf ErrExecutionNotFound "execution not found");
  failIf (bool_decide (er_Revision record ≠ revision) || IsTerminalExecutionState (er_State record)
          || bool_decide (er_RecoveryToken record ≠ "")) (wrapf ErrOptimisticConflict "optimistic conflict") ;;
  let record := record <| er_State := state |> <| er_LastError := message |>
    <| er_Plans := disposePlans state (er_Plans record) |>
    <| er_Revision := u64_inc (er_Revision record) |> <| er_UpdatedAt := now |> in
  Ok (record, putExecution id record store).

(** ** Recovery leases *)

(** May recovery lease this execution now? *)
Definition leasable (now : Time) (record : ExecutionRecord) : bool :=
  negb (IsTerminalExecutionState (er_State record))
  && (bool_decide (er_RecoveryToken record = "") || negb (timeAfter (er_RecoveryDeadline record) now)).

(** Least recently updated first, then by identifier. *)
Definition leaseBefore (a b : string * ExecutionRecord) : bool :=
  if bool_decide (er_UpdatedAt a.2 ≠ er_UpdatedAt b.2) then bool_decide (er_UpdatedAt a.2 < er_UpdatedAt b.2)
  else strLt a.1 b.1.
Definition leaseLe (a b : string * ExecutionRecord) : Prop := leaseBefore b a = false.
#[global] Instance leaseLe_dec a b : Decision (leaseLe a b).
Proof. unfold leaseLe. apply _. Defined.
Definition leaseCandidates (now : Time) (store : InMemoryExecutionLedger) : list (string * ExecutionRecord) :=
  merge_sort leaseLe (List.filter (λ p, leasable now p.2) (map_to_list (lg_executions store))).

(** The loop that leases the chosen executions. *)
Fixpoint leaseAll (owner : string) (duration : Duration) (now : Time) (token : nat → result string) (i : nat)
    (ids : list (string * ExecutionRecord)) (store : InMemoryExecutionLedger)
    : result (list ExecutionLease) * InMemoryExecutionLedger :=
  match ids with
  | [] => (Ok [], store)
  | (id, record) :: ids =>
      match token i with
      | Err e => (Err e, store)
      | Ok tok =>
          let record := record <| er_RecoveryOwner := owner |> <| er_RecoveryToken := tok |>
            <| er_RecoveryDeadline := timeAdd now duration |>
            <| er_Revision := u64_inc (er_Revision record) |> <| er_UpdatedAt := now |> in
          let lease := mkExecutionLease id owner tok (er_RecoveryDeadline record) (er_Revision record) in
          let '(leases, store) := leaseAll owner duration now token (S i) ids (putExecution id record store) in
          (cons lease <$> leases, store)
      end
  end.

Definition LeaseExecutions (ctx : option error) (now : Time) (token : nat → result string) (owner : string)
    (limit : Z) (duration : Duration) (store : InMemoryExecutionLedger)
    : result (list ExecutionLease) * InMemoryExecutionLedger :=
  match ctx with
  | Some e => (Err e, store)
  | None =>
      if isBlank owner || bool_decide (limit ≤ 0) || bool_decide (duration ≤ 0)
      then (Err (errorf "recovery owner, positive limit, and lease duration are required"), store)
      else leaseAll owner duration now token 0 (take (Z.to_nat limit) (leaseCandidates now store)) store
  end.

Definition RenewExecutionLease (ctx : option error) (now : Time) (lease : ExecutionLease) (duration : Duration)
    (store : InMemoryExecutionLedger) : result (ExecutionLease * InMemoryExecutionLedger) :=
  ctxErr ctx ;;
  failIf (bool_decide (duration ≤ 0)) (errorf "positive lease duration is required") ;;
  match lg_executions store !! el_ExecutionID lease with
  | None => Err (wrapf ErrStaleExecutionLease "stale execution recovery lease")
  | Some record =>
      failIf (bool_decide (er_RecoveryOwner record ≠ el_Owner lease) || bool_decide (er_RecoveryToken record ≠ el_Token lease)
              || bool_decide (er_Revision record ≠ el_Revision lease) || negb (timeAfter (er_RecoveryDeadline record) now)
              || IsTerminalExecutionState (er_State record)) (wrapf ErrStaleExecutionLease "stale execution recovery lease") ;;
      let deadline := timeAdd now duration in
      let record := if timeAfter deadline (er_RecoveryDeadline record)
                    then record <| er_RecoveryDeadline := deadline |> else record in
      Ok (lease <| el_Deadline := er_RecoveryDeadline record |>, putExecution (el_ExecutionID lease) record store)
  end.

Definition FinishExecutionLease (ctx : option error) (checkNow now : Time) (lease : ExecutionLease)
    (state : ExecutionState) (message : string) (store : InMemoryExecutionLedger) : result InMemoryExecutionLedger :=
  ctxErr ctx ;;
  record ← ofOption (lg_executions store !! el_ExecutionID lease) (wrapf ErrExecutionNotFound "execution not found");
  failIf (bool_decide (er_RecoveryOwner record ≠ el_Owner lease) || bool_decide (er_RecoveryToken record ≠ el_Token lease)
          || bool_decide (er_Revision record ≠ el_Revision lease) || negb (timeAfter (er_RecoveryDeadline record) checkNow))
    (wrapf ErrStaleExecutionLease "stale execution recovery lease") ;;
  let record := if bool_decide (state ≠ ExecutionOther "")
                then record <| er_State := state |> <| er_Plans := disposePlans state (er_Plans record) |> else record in
  let record := record <| er_LastError := message |> <| er_RecoveryOwner := "" |> <| er_RecoveryToken := "" |>
    <| er_RecoveryDeadline := zeroTime |> <| er_Revision := u64_inc (er_Revision record) |> <| er_UpdatedAt := now |> in
  Ok (putExecution (el_ExecutionID lease) record store).
