(* ===== verification/LedgerProps.v ===== *)
(** * What the execution ledger guarantees

    The ledger invariant over runs, and the properties admission, state changes and
    recovery rely on. A run admits executions that carry no recovery lease, reads a
    clock that is not before the zero time, and draws non-empty lease tokens. *)

From S2P Require Import Prelude GoText Sha256 Json Workflow Identity Ledger.
From Stdlib Require Import ZArith String.
Local Open Scope list_scope.
Local Open Scope Z_scope.

(** ** Runs *)
Definition freshAdmission (adm : DurableAdmission) : Prop :=
  er_RecoveryOwner (da_Execution adm) = "" ∧ er_RecoveryToken (da_Execution adm) = "" ∧
  er_RecoveryDeadline (da_Execution adm) = zeroTime.

Inductive ledger_step : InMemoryExecutionLedger → InMemoryExecutionLedger → Prop :=
  | ls_artifact ctx now a l l' : PutArtifact ctx now a l = Ok l' → ledger_step l l'
  | ls_admit ctx now adm l r c l' : freshAdmission adm → AdmitExecution ctx now adm l = Ok (r, c, l') → ledger_step l l'
  | ls_state ctx now id rev st msg l r l' : SetExecutionState ctx now id rev st msg l = Ok (r, l') → ledger_step l l'
  | ls_lease ctx now token owner limit dur l r l' : (∀ i t, token i = Ok t → t ≠ "") →
      LeaseExecutions ctx now token owner limit dur l = (r, l') → ledger_step l l'
  | ls_renew ctx now lease dur l lease' l' : zeroTime ≤ now → RenewExecutionLease ctx now lease dur l = Ok (lease', l') → ledger_step l l'
  | ls_finish ctx n1 n2 lease st msg l l' : zeroTime ≤ n1 → FinishExecutionLease ctx n1 n2 lease st msg l = Ok l' → ledger_step l l'.
Definition ledger_reachable : InMemoryExecutionLedger → Prop := rtc ledger_step NewInMemoryExecutionLedger.

(** What identifies an execution. *)
Definition er_core (r : ExecutionRecord) :=
  (er_ExecutionID r, er_AdmissionIdentity r, er_RequestHash r, er_Ruleset r, er_Version r, er_TenantNamespace r,
   er_MergePolicy r, er_GenerationDigest r, er_EffectiveFacts r, er_CreatedAt r, pr_PlanID <$> er_Plans r).
Lemma disposePlans_ids st plans : pr_PlanID <$> disposePlans st plans = pr_PlanID <$> plans.
Proof. unfold disposePlans. rewrite <-list_fmap_compose. by apply list_fmap_ext. Qed.

(** ** The invariant *)
Record record_ok (r : ExecutionRecord) : Prop := {
  ro_free : er_RecoveryToken r = "" → er_RecoveryDeadline r = zeroTime;
  ro_terminal : IsTerminalExecutionState (er_State r) = true → er_RecoveryToken r = "" }.
Record ledger_inv (l : InMemoryExecutionLedger) : Prop := {
  li_execution id r : lg_executions l !! id = Some r →
    er_ExecutionID r = id ∧ id ≠ "" ∧ lg_byAdmission l !! er_AdmissionIdentity r = Some id;
  li_admission a id : lg_byAdmission l !! a = Some id → ∃ r, lg_executions l !! id = Some r ∧ er_AdmissionIdentity r = a;
  li_record id r : lg_executions l !! id = Some r → record_ok r }.

(** An update of one record that keeps its identity. *)
Lemma inv_putExecution l id r r' : ledger_inv l → lg_executions l !! id = Some r → er_core r' = er_core r → record_ok r' →
  ledger_inv (putExecution id r' l).
Proof.
  intros [I1 I2 I3] L C Ok. injection C as C1 C2 _ _ _ _ _ _ _ _ _. split; cbn.
  - intros id1 r1 [[<- <-]|[_ L1]]%lookup_insert_Some; [|by apply I1]. rewrite C1, C2. by apply I1.
  - intros a id1 A. destruct (I2 _ _ A) as (r1 & L1 & E1). destruct (decide (id1 = id)) as [->|N].
    + exists r'. rewrite lookup_insert_eq. simplify_eq. done.
    + exists r1. by rewrite lookup_insert_ne.
  - intros id1 r1 [[<- <-]|[_ L1]]%lookup_insert_Some; [done|by eapply I3].
Qed.

(** Which records a loop of leases touches. *)
Lemma leaseAll_spec owner dur now token ids : ∀ i l res l', NoDup ids.*1 →
  (∀ id r, (id, r) ∈ ids → lg_executions l !! id = Some r) → leaseAll owner dur now token i ids l = (res, l') →
  lg_byAdmission l' = lg_byAdmission l ∧ lg_artifacts l' = lg_artifacts l ∧
  (∀ id r, lg_executions l !! id = Some r → lg_executions l' !! id = Some r ∨
     ∃ j tok, (id, r) ∈ ids ∧ token j = Ok tok ∧ lg_executions l' !! id = Some (r <| er_RecoveryOwner := owner |>
       <| er_RecoveryToken := tok |> <| er_RecoveryDeadline := timeAdd now dur |> <| er_Revision := u64_inc (er_Revision r) |>
       <| er_UpdatedAt := now |>)) ∧
  (∀ id, lg_executions l !! id = None → lg_executions l' !! id = None) ∧
  (∀ id, id ∉ ids.*1 → lg_executions l' !! id = lg_executions l !! id) ∧
  (∀ leases, res = Ok leases → el_ExecutionID <$> leases = ids.*1).
Proof.
  induction ids as [|[id r] ids IH]; intros i l res l' Hn Hl; cbn [leaseAll].
  { intros [= <- <-]. repeat split; auto. by intros leases [= <-]. }
  destruct (token i) as [tok|e] eqn:Ht; [|intros [= <- <-]; repeat split; auto; done].
  set (r1 := r <| er_RecoveryOwner := owner |> <| er_RecoveryToken := tok |> <| er_RecoveryDeadline := timeAdd now dur |>
               <| er_Revision := u64_inc (er_Revision r) |> <| er_UpdatedAt := now |>).
  destruct (leaseAll _ _ _ _ _ _ _) as [res1 l1] eqn:E. intros [= <- <-]. apply NoDup_cons in Hn as [Hk Hn].
  assert (Hne : ∀ id1 x, (id1, x) ∈ ids → id1 ≠ id) by (intros id1 x X ->; apply Hk, list_elem_of_fmap; by exists (id, x)).
  destruct (IH (S i) (putExecution id r1 l) res1 l1 Hn) as (A1 & A2 & A3 & A4 & A5 & A6); [|exact E|].
  { intros id1 x X. cbn. rewrite lookup_insert_ne by (symmetry; eauto). apply Hl, elem_of_cons. by right. }
  split; [done|]. split; [done|]. split; [|split; [|split]].
  - intros id1 x L. destruct (decide (id1 = id)) as [->|N].
    + right. assert (x = r) as -> by (assert (lg_executions l !! id = Some r) by (apply Hl, elem_of_cons; by left); congruence).
      exists i, tok. split; [apply elem_of_cons; by left|]. split; [done|]. rewrite A5 by done. cbn. by rewrite lookup_insert_eq.
    + destruct (A3 id1 x) as [?|(j & t & X & T & L')]; [cbn; by rewrite lookup_insert_ne|by left|].
      right. exists j, t. split; [apply elem_of_cons; by right|done].
  - intros id1 N. apply A4. cbn. destruct (decide (id1 = id)) as [->|]; [|by rewrite lookup_insert_ne].
    assert (lg_executions l !! id = Some r) by (apply Hl, elem_of_cons; by left). congruence.
  - intros id1 [N1 N2]%not_elem_of_cons. rewrite A5 by done. cbn. by rewrite lookup_insert_ne.
  - intros leases. destruct res1 as [ls|]; cbn; [|done]. intros [= <-]. cbn. f_equal. by apply A6.
Qed.

Lemma candidates_elem now l id r : (id, r) ∈ leaseCandidates now l ↔ lg_executions l !! id = Some r ∧ leasable now r = true.
Proof.
  unfold leaseCandidates. rewrite merge_sort_Permutation, list_elem_of_In, List.filter_In, <-list_elem_of_In, elem_of_map_to_list. done.
Qed.
Lemma candidates_NoDup now l : NoDup (leaseCandidates now l).*1.
Proof.
  unfold leaseCandidates. rewrite merge_sort_Permutation. apply NoDup_map_filter, NoDup_fst_map_to_list.
Qed.

(** ** What ledger operations never undo *)
Record ledger_extends (l l' : InMemoryExecutionLedger) : Prop := {
  le_record id r : lg_executions l !! id = Some r → ∃ r', lg_executions l' !! id = Some r' ∧ er_core r' = er_core r ∧
    (IsTerminalExecutionState (er_State r) = true → r' = r);
  le_artifact k a : lg_artifacts l !! k = Some a → lg_artifacts l' !! k = Some a;
  le_admission a id : lg_byAdmission l !! a = Some id → lg_byAdmission l' !! a = Some id }.
Lemma ledger_extends_refl l : ledger_extends l l.
Proof. split; eauto. Qed.
Lemma ledger_extends_trans l1 l2 l3 : ledger_extends l1 l2 → ledger_extends l2 l3 → ledger_extends l1 l3.
Proof.
  intros [A1 A2 A3] [B1 B2 B3]. split; [|auto..]. intros id r L. destruct (A1 _ _ L) as (r2 & L2 & C2 & T2).
  destruct (B1 _ _ L2) as (r3 & L3 & C3 & T3). exists r3. split; [done|]. split; [congruence|]. intros T.
  rewrite (T2 T) in *. auto.
Qed.
#[export] Instance ledger_extends_preorder : PreOrder ledger_extends.
Proof. split; [exact ledger_extends_refl|exact ledger_extends_trans]. Qed.

Lemma extends_putExecution l id r r' : lg_executions l !! id = Some r → er_core r' = er_core r →
  (IsTerminalExecutionState (er_State r) = true → r' = r) → ledger_extends l (putExecution id r' l).
Proof.
  intros L C T. split; [|done..]. intros id1 r1 L1. cbn. destruct (decide (id1 = id)) as [->|N].
  - exists r'. rewrite lookup_insert_eq. assert (r1 = r) as -> by congruence. done.
  - exists r1. by rewrite lookup_insert_ne.
Qed.

Lemma AdmitExecution_cases ctx now adm l r c l' : AdmitExecution ctx now adm l = Ok (r, c, l') →
  validateDurableAdmission adm = Ok tt ∧
  ((c = false ∧ l' = l ∧ ∃ id, lg_executions l !! id = Some r ∧ er_RequestHash r = er_RequestHash (da_Execution adm) ∧
      (id = admissionID l (er_AdmissionIdentity (da_Execution adm)) ∧ id ≠ "" ∧ er_ExecutionID r = er_ExecutionID (da_Execution adm) ∨
       id = er_ExecutionID (da_Execution adm) ∧ er_AdmissionIdentity r = er_AdmissionIdentity (da_Execution adm))) ∨
   (c = true ∧ admissionID l (er_AdmissionIdentity (da_Execution adm)) = "" ∧
      lg_executions l !! er_ExecutionID (da_Execution adm) = None ∧ lg_artifacts l' = lg_artifacts l ∧
      r = (da_Execution adm) <| er_State := ExecutionAccepted |> <| er_Revision := 1 |> <| er_CreatedAt := now |>
            <| er_UpdatedAt := now |> <| er_Plans := da_Plans adm |> ∧
      lg_executions l' = <[er_ExecutionID r := r]> (lg_executions l) ∧
      lg_byAdmission l' = <[er_AdmissionIdentity r := er_ExecutionID r]> (lg_byAdmission l))).
Proof.
  intros H. unfold AdmitExecution in H. apply bind_Ok in H as ([] & _ & H). apply bind_Ok in H as ([] & V & H). split; [done|].
  destruct (bool_decide (admissionID l _ ≠ "")) eqn:B; bool_to_prop.
  - left. destruct (lg_executions l !! _) as [e|] eqn:L; [|done]. inv_res. bool_to_prop.
    repeat match goal with H : ¬ _ ≠ _ |- _ => apply dec_stable in H end. split; [done|]. split; [done|]. eexists. split; [exact L|]. auto.
  - apply dec_stable in B. destruct (lg_executions l !! er_ExecutionID (da_Execution adm)) as [e|] eqn:L.
    + left. inv_res. bool_to_prop. repeat match goal with H : ¬ _ ≠ _ |- _ => apply dec_stable in H end.
      split; [done|]. split; [done|]. eexists. split; [exact L|]. auto.
    + right. destruct (lg_artifacts l !! _) as [a|]; [|done]. inv_res. done.
Qed.
Lemma validated_nonblank adm : validateDurableAdmission adm = Ok tt →
  er_ExecutionID (da_Execution adm) ≠ "" ∧ er_AdmissionIdentity (da_Execution adm) ≠ "".
Proof.
  intros H. unfold validateDurableAdmission in H. apply bind_Ok in H as ([] & _ & H). apply bind_Ok in H as ([] & B%failIf_Ok & _).
  cbn [existsb] in B. bool_to_prop. unfold isBlank in *. bool_to_prop. split; intros E; rewrite E in *; by cbn in *.
Qed.

Lemma admissionID_Some l a id : admissionID l a = id → id ≠ "" → lg_byAdmission l !! a = Some id.
Proof. unfold admissionID. destruct (lg_byAdmission l !! a); cbn; congruence. Qed.
Lemma admissionID_empty l a : ledger_inv l → admissionID l a = "" → lg_byAdmission l !! a = None.
Proof.
  intros [I1 I2 _] E. unfold admissionID in E. destruct (lg_byAdmission l !! a) as [id|] eqn:A; [|done]. cbn in E. subst.
  destruct (I2 _ _ A) as (r & L & _). by apply I1 in L as (_ & ? & _).
Qed.

Lemma admit_step adm now ctx l r c l' : ledger_inv l → freshAdmission adm → AdmitExecution ctx now adm l = Ok (r, c, l') →
  ledger_inv l' ∧ ledger_extends l l'.
Proof.
  intros Hi (F1 & F2 & F3) H. apply AdmitExecution_cases in H as (V & [(-> & -> & _)|(-> & Ea & Le & Ar & Er & Lx & Ly)]); [done|].
  destruct (validated_nonblank _ V) as [N1 N2]. apply (admissionID_empty _ _ Hi) in Ea. pose proof Hi as [I1 I2 I3].
  assert (E1 : er_ExecutionID r = er_ExecutionID (da_Execution adm)) by (by rewrite Er).
  assert (E2 : er_AdmissionIdentity r = er_AdmissionIdentity (da_Execution adm)) by (by rewrite Er). rewrite E1, E2 in *. split; split; rewrite ?Lx, ?Ly, ?Ar.
  - intros id x [[<- <-]|[N L]]%lookup_insert_Some.
    + rewrite E2, lookup_insert_eq. auto.
    + destruct (I1 _ _ L) as (? & ? & B). split; [done|]. split; [done|]. rewrite lookup_insert_ne; [done|]. congruence.
  - intros a id [[<- <-]|[N B]]%lookup_insert_Some.
    + exists r. by rewrite lookup_insert_eq.
    + destruct (I2 _ _ B) as (x & L & E). exists x. rewrite lookup_insert_ne; [done|congruence].
  - intros id x [[<- <-]|[N L]]%lookup_insert_Some; [|by eapply I3]. rewrite Er. split; cbn; [done|done].
  - intros id x L. exists x. rewrite lookup_insert_ne; [done|congruence].
  - auto.
  - intros a id B. rewrite lookup_insert_ne; [done|congruence].
Qed.

Lemma leasable_facts now r : leasable now r = true → IsTerminalExecutionState (er_State r) = false ∧
  (er_RecoveryToken r = "" ∨ er_RecoveryDeadline r ≤ now).
Proof.
  unfold leasable, timeAfter. rewrite andb_true_iff, orb_true_iff, !negb_true_iff, bool_decide_eq_true, bool_decide_eq_false.
  intros [? [?|?]]; split; auto. right. lia.
Qed.
Lemma lease_step token owner limit dur now ctx l res l' : ledger_inv l → (∀ i t, token i = Ok t → t ≠ "") →
  LeaseExecutions ctx now token owner limit dur l = (res, l') → ledger_inv l' ∧ ledger_extends l l'.
Proof.
  intros Hi Ht H. unfold LeaseExecutions in H. destruct ctx; [by injection H as <- <-|]. destruct (_ || _); [by injection H as <- <-|].
  set (ids := take _ _) in H. assert (Hids : ∀ id r, (id, r) ∈ ids → lg_executions l !! id = Some r ∧ leasable now r = true).
  { intros id r X. apply candidates_elem. eapply elem_of_take_sublist; exact X. }
  apply leaseAll_spec in H as (A1 & A2 & A3 & A4 & _); [| |intros id r X; by apply Hids].
  2:{ unfold ids. rewrite fmap_take. apply NoDup_take_sublist, candidates_NoDup. }
  assert (Hback : ∀ id r', lg_executions l' !! id = Some r' → ∃ r, lg_executions l !! id = Some r ∧ er_core r' = er_core r ∧
     (IsTerminalExecutionState (er_State r) = true → r' = r) ∧ record_ok r').
  { intros id r' L'. destruct (lg_executions l !! id) as [r|] eqn:L; [|by rewrite (A4 _ L) in L']. exists r. split; [done|].
    destruct (A3 _ _ L) as [L1|(j & tok & X & Tj & L1)]; rewrite L1 in L'; injection L' as <-.
    - repeat split; try done; by apply (li_record _ Hi _ _ L).
    - apply Hids in X as [_ X]. apply leasable_facts in X as [NT _]. split; [done|]. split; [by rewrite NT|].
      split; cbn; [intros E; by destruct (Ht _ _ Tj)|by rewrite NT]. }
  pose proof Hi as [I1 I2 I3]. split; split; rewrite ?A1, ?A2; auto.
  - intros id r' L'. destruct (Hback _ _ L') as (r & L & C & _). injection C as -> -> _ _ _ _ _ _ _ _ _. by apply I1.
  - intros a id B. destruct (I2 _ _ B) as (r & L & E). destruct (lg_executions l' !! id) as [r'|] eqn:L'.
    + exists r'. split; [done|]. destruct (Hback _ _ L') as (r0 & L0 & C & _). rewrite L in L0. injection L0 as <-. by injection C as _ -> _ _ _ _ _ _ _ _ _.
    + destruct (A3 _ _ L) as [X|(j & tok & _ & _ & X)]; congruence.
  - intros id r' L'. by destruct (Hback _ _ L') as (r & _ & _ & _ & ?).
  - intros id r L. destruct (lg_executions l' !! id) as [r'|] eqn:L'.
    + exists r'. destruct (Hback _ _ L') as (r0 & L0 & C & T & _). rewrite L in L0. injection L0 as <-. done.
    + destruct (A3 _ _ L) as [X|(j & tok & _ & _ & X)]; congruence.
Qed.

Lemma SetExecutionState_Ok ctx now id rev st msg l r' l' : SetExecutionState ctx now id rev st msg l = Ok (r', l') →
  ∃ r, lg_executions l !! id = Some r ∧ er_Revision r = rev ∧ IsTerminalExecutionState (er_State r) = false ∧
    er_RecoveryToken r = "" ∧ l' = putExecution id r' l ∧
    r' = r <| er_State := st |> <| er_LastError := msg |> <| er_Plans := disposePlans st (er_Plans r) |>
           <| er_Revision := u64_inc (er_Revision r) |> <| er_UpdatedAt := now |>.
Proof.
  unfold SetExecutionState. intros H. apply bind_Ok in H as ([] & _ & H). apply bind_Ok in H as (r & L%ofOption_Ok & H). inv_res. bool_to_prop.
  repeat match goal with H : ¬ _ ≠ _ |- _ => apply dec_stable in H end. exists r. done.
Qed.
(** The handle names the lease the record carries, and the lease has not run out. *)
Definition leaseCurrent (l : InMemoryExecutionLedger) (lease : ExecutionLease) (now : Time) : Prop :=
  ∃ r, lg_executions l !! el_ExecutionID lease = Some r ∧ er_RecoveryOwner r = el_Owner lease ∧
    er_RecoveryToken r = el_Token lease ∧ er_Revision r = el_Revision lease ∧ now < er_RecoveryDeadline r.
Lemma RenewExecutionLease_Ok ctx now lease dur l lease' l' : RenewExecutionLease ctx now lease dur l = Ok (lease', l') →
  ∃ r d, leaseCurrent l lease now ∧ lg_executions l !! el_ExecutionID lease = Some r ∧
    IsTerminalExecutionState (er_State r) = false ∧ er_RecoveryDeadline r ≤ d ∧ now < d ∧
    l' = putExecution (el_ExecutionID lease) (r <| er_RecoveryDeadline := d |>) l ∧ lease' = lease <| el_Deadline := d |>.
Proof.
  unfold RenewExecutionLease. intros H. apply bind_Ok in H as ([] & _ & H). apply bind_Ok in H as ([] & D%failIf_Ok & H).
  destruct (lg_executions l !! _) as [r|] eqn:L; [|done]. inv_res. bool_to_prop.
  repeat match goal with H : ¬ _ ≠ _ |- _ => apply dec_stable in H end.
  match goal with H : timeAfter (er_RecoveryDeadline r) now = true |- _ => apply bool_decide_eq_true in H; rename H into T end.
  exists r, (Z.max (er_RecoveryDeadline r) (timeAdd now dur)). split; [exists r; auto|]. split; [done|]. split; [done|].
  split; [lia|]. split; [lia|]. unfold timeAfter. destruct (bool_decide _) eqn:B; bool_to_prop; cbn.
  - rewrite Z.max_r by lia. done.
  - rewrite Z.max_l by lia. split; [|done]. f_equal. by destruct r.
Qed.
Lemma FinishExecutionLease_Ok ctx n1 n2 lease st msg l l' : FinishExecutionLease ctx n1 n2 lease st msg l = Ok l' →
  leaseCurrent l lease n1 ∧ ∃ r r', lg_executions l !! el_ExecutionID lease = Some r ∧ l' = putExecution (el_ExecutionID lease) r' l ∧
    er_core r' = er_core r ∧ er_RecoveryToken r' = "" ∧ er_RecoveryDeadline r' = zeroTime ∧ er_RecoveryOwner r' = "" ∧
    er_Revision r' = u64_inc (er_Revision r) ∧ er_LastError r' = msg ∧ er_UpdatedAt r' = n2 ∧
    er_State r' = (if bool_decide (st = ExecutionOther "") then er_State r else st) ∧
    er_Plans r' = (if bool_decide (st = ExecutionOther "") then er_Plans r else disposePlans st (er_Plans r)).
Proof.
  unfold FinishExecutionLease. intros H. apply bind_Ok in H as ([] & _ & H). apply bind_Ok in H as (r & L%ofOption_Ok & H). inv_res. bool_to_prop.
  repeat match goal with H : ¬ _ ≠ _ |- _ => apply dec_stable in H end.
  match goal with H : timeAfter (er_RecoveryDeadline r) n1 = true |- _ => apply bool_decide_eq_true in H; rename H into T end.
  split; [exists r; auto|]. eexists r, _. split; [done|]. split; [reflexivity|]. rewrite bool_decide_not.
  destruct (bool_decide (st = ExecutionOther "")); unfold er_core; cbn; by rewrite ?disposePlans_ids.
Qed.

Lemma ledger_step_inv l l' : ledger_step l l' → ledger_inv l → ledger_inv l' ∧ ledger_extends l l'.
Proof.
  intros H Hi. destruct H as [ctx now a l l' H|ctx now adm l r c l' F H|ctx now id rev st msg l r l' H|ctx now token owner limit dur l r l' Ht H|
    ctx now lease dur l lease' l' N H|ctx n1 n2 lease st msg l l' N H].
  - unfold PutArtifact in H. inv_res. destruct (lg_artifacts l !! _) eqn:L; inv_res; [done|]. split; [by destruct Hi|]. split; eauto.
    intros k x X. cbn. rewrite lookup_insert_ne; [done|congruence].
  - by eapply admit_step.
  - apply SetExecutionState_Ok in H as (r0 & L & _ & NT & Tk & -> & ->). pose proof (li_record _ Hi _ _ L) as [R1 R2]. split.
    + eapply inv_putExecution; [done|done|unfold er_core; cbn; by rewrite disposePlans_ids|]. split; cbn; auto.
    + eapply extends_putExecution; [done|unfold er_core; cbn; by rewrite disposePlans_ids|]. by rewrite NT.
  - by eapply lease_step.
  - apply RenewExecutionLease_Ok in H as (r & d & (r0 & L0 & _ & Tk & _ & Dl) & L & NT & D & _ & -> & ->).
    rewrite L in L0. injection L0 as <-. pose proof (li_record _ Hi _ _ L) as [R1 R2]. split.
    + eapply inv_putExecution; eauto. split; cbn; [|by rewrite NT]. intros E. rewrite (R1 E) in Dl. unfold zeroTime in *. lia.
    + eapply extends_putExecution; eauto. by rewrite NT.
  - apply FinishExecutionLease_Ok in H as ((r0 & L0 & _ & Tk & _ & Dl) & r & r' & L & -> & C & E1 & E2 & _).
    rewrite L in L0. injection L0 as <-. pose proof (li_record _ Hi _ _ L) as [R1 R2]. split.
    + eapply inv_putExecution; eauto. split; auto.
    + eapply extends_putExecution; eauto. intros T. rewrite (R1 (R2 T)) in Dl. exfalso. unfold zeroTime in *. lia.
Qed.
Lemma ledger_run l l' : ledger_inv l → rtc ledger_step l l' → ledger_inv l' ∧ ledger_extends l l'.
Proof.
  intros Hi H. induction H as [l|l1 l2 l3 S1 _ IH]; [done|]. destruct (ledger_step_inv _ _ S1 Hi) as [Hi2 X].
  destruct (IH Hi2) as [? ?]. split; [done|]. by etrans.
Qed.
Lemma ledger_inv_reachable l : ledger_reachable l → ledger_inv l.
Proof. intros H. apply (ledger_run NewInMemoryExecutionLedger); [by split|done]. Qed.

(** ** A concrete run *)
Definition demoArtifact : ExecutionArtifact := mkArtifact "gen" "ir" "bytes" "{}" "{}" "[]" "src" "null" zeroTime.
Definition demoPlan : ExecutionPlanRecord := Eval vm_compute in mkPlanRecord "exec" "plan" (StableSagaID "exec" "plan") 0 "selected".
Definition demoAdmission (requestHash : string) : DurableAdmission :=
  mkAdmission demoArtifact
    (mkExecution "exec" "adm" requestHash "rules" "v1" "tenant" "" "gen" "{}" ExecutionAdmitting 0 "" "" zeroTime "" zeroTime zeroTime [])
    (mkFactApplication "exec" "event" "" "{}" 0) [demoPlan] [] [].
Definition ledgerOf (r : result InMemoryExecutionLedger) : InMemoryExecutionLedger :=
  match r with Ok l => l | Err _ => NewInMemoryExecutionLedger end.
Definition withArtifact := Eval vm_compute in ledgerOf (PutArtifact None 1 demoArtifact NewInMemoryExecutionLedger).
Definition admitted := Eval vm_compute in ledgerOf (snd <$> AdmitExecution None 2 (demoAdmission "h") withArtifact).
Definition admittedRecord : ExecutionRecord := Eval vm_compute in
  match AdmitExecution None 2 (demoAdmission "h") withArtifact with Ok (r, _, _) => r | Err _ => da_Execution (demoAdmission "h") end.
Definition leased := Eval vm_compute in snd (LeaseExecutions None 10 (λ _, Ok "token") "worker" 5 100 admitted).
Definition demoLease : ExecutionLease := Eval vm_compute in mkExecutionLease "exec" "worker" "token" 110 2.
Definition finished := Eval vm_compute in ledgerOf (FinishExecutionLease None 20 20 demoLease ExecutionCompleted "" leased).

Lemma admit_demo : AdmitExecution None 2 (demoAdmission "h") withArtifact = Ok (admittedRecord, true, admitted).
Proof. vm_cast_no_check (eq_refl (Ok (admittedRecord, true, admitted))). Qed.
Lemma withArtifact_reachable : ledger_reachable withArtifact.
Proof. eapply rtc_once, (ls_artifact None 1 demoArtifact). vm_cast_no_check (eq_refl (Ok withArtifact)). Qed.
Lemma admitted_reachable : ledger_reachable admitted.
Proof. eapply rtc_r; [apply withArtifact_reachable|]. eapply (ls_admit None 2 (demoAdmission "h")); [done|apply admit_demo]. Qed.
Lemma leased_reachable : ledger_reachable leased.
Proof.
  eapply rtc_r; [apply admitted_reachable|]. eapply (ls_lease None 10 (λ _, Ok "token") "worker" 5 100 _ (Ok [demoLease])).
  - by intros i t [= <-].
  - vm_compute. reflexivity.
Qed.
Lemma finished_reachable : ledger_reachable finished.
Proof.
  eapply rtc_r; [apply leased_reachable|]. eapply (ls_finish None 20 20 demoLease ExecutionCompleted ""); [done|]. vm_compute. reflexivity.
Qed.

(** ** Admission *)
Lemma admitted_lookup ctx now adm l r c l' : ledger_inv l → freshAdmission adm → AdmitExecution ctx now adm l = Ok (r, c, l') →
  lg_executions l' !! er_ExecutionID (da_Execution adm) = Some r ∧ er_RequestHash r = er_RequestHash (da_Execution adm) ∧
  er_AdmissionIdentity r = er_AdmissionIdentity (da_Execution adm) ∧ er_ExecutionID r = er_ExecutionID (da_Execution adm).
Proof.
  intros Hi _ H. apply AdmitExecution_cases in H as (V & [(-> & -> & id & L & Eh & Hid)|(-> & _ & _ & _ & Er & Lx & _)]).
  - destruct (li_execution _ Hi _ _ L) as (Ei & Ni & Ba). destruct Hid as [(E1 & N & E2)|[E1 E2]].
    + assert (B := admissionID_Some _ _ _ (eq_sym E1) N). destruct (li_admission _ Hi _ _ B) as (r' & L' & E').
      rewrite L in L'. injection L' as <-. rewrite <-E2, Ei. done.
    + subst id. done.
  - rewrite Lx, Er. cbn. by rewrite lookup_insert_eq.
Qed.

(** Admission is idempotent and exclusive. Once an admission has been accepted, then after any run of
    the ledger every valid admission with the same admission identity creates nothing: the same request
    hash and execution ID return the existing execution and leave the ledger alone, anything else is an
    identity conflict. *)
Theorem admission_is_idempotent (l l1 l2 : InMemoryExecutionLedger) ctx now now' adm adm' r c : ledger_reachable l →
  freshAdmission adm → AdmitExecution ctx now adm l = Ok (r, c, l1) → rtc ledger_step l1 l2 →
  er_AdmissionIdentity (da_Execution adm') = er_AdmissionIdentity (da_Execution adm) → validateDurableAdmission adm' = Ok tt →
  if bool_decide (er_RequestHash (da_Execution adm') = er_RequestHash (da_Execution adm)
                  ∧ er_ExecutionID (da_Execution adm') = er_ExecutionID (da_Execution adm))
  then ∃ r', AdmitExecution None now' adm' l2 = Ok (r', false, l2) ∧ er_core r' = er_core r
  else ∃ e, AdmitExecution None now' adm' l2 = Err e ∧ errorsIs e ErrIdentityConflict = true.
Proof.
  intros Hi%ledger_inv_reachable F H Hr Ea V. destruct (admitted_lookup _ _ _ _ _ _ _ Hi F H) as (L & Eh & Ead & Ex).
  destruct (admit_step _ _ _ _ _ _ _ Hi F H) as [Hi1 _]. destruct (ledger_run _ _ Hi1 Hr) as [Hi2 X].
  destruct (le_record _ _ X _ _ L) as (r2 & L2 & C & _).
  assert (er_RequestHash r2 = er_RequestHash r ∧ er_ExecutionID r2 = er_ExecutionID r ∧ er_AdmissionIdentity r2 = er_AdmissionIdentity r) as (C1 & C2 & C3).
  { by injection C as ? ? ? _ _ _ _ _ _ _ _. }
  destruct (li_execution _ Hi2 _ _ L2) as (_ & Nid & Ba). rewrite C3, Ead in Ba.
  unfold AdmitExecution. rewrite V, Ea. unfold admissionID. rewrite Ba. cbn [ctxErr mbind result_bind from_option id].
  rewrite (bool_decide_eq_true_2 (_ ≠ "")) by done. rewrite L2, C1, C2, Eh, Ex.
  destruct (bool_decide (_ ∧ _)) eqn:B; bool_to_prop.
  - destruct B as [-> ->]. rewrite !bool_decide_eq_false_2 by tauto. cbn. eauto.
  - match goal with |- context [failIf ?b _] => assert (b = true) as -> end; [|by eexists].
    apply not_false_iff_true. intros Z. bool_to_prop. repeat match goal with H : ¬ _ ≠ _ |- _ => apply dec_stable in H end. auto.
Qed.
Lemma admission_is_idempotent_witness :
  (∃ r', AdmitExecution None 99 (demoAdmission "h") finished = Ok (r', false, finished) ∧ er_core r' = er_core admittedRecord) ∧
  (∃ e, AdmitExecution None 99 (demoAdmission "other") finished = Err e ∧ errorsIs e ErrIdentityConflict = true).
Proof.
  assert (R : rtc ledger_step admitted finished).
  { eapply rtc_l; [|eapply rtc_once].
    - eapply (ls_lease None 10 (λ _, Ok "token") "worker" 5 100 _ (Ok [demoLease]) leased); [by intros i t [= <-]|vm_compute; reflexivity].
    - eapply (ls_finish None 20 20 demoLease ExecutionCompleted ""); [done|vm_compute; reflexivity]. }
  split.
  - exact (admission_is_idempotent withArtifact admitted finished None 2 99 (demoAdmission "h") (demoAdmission "h") admittedRecord true
      withArtifact_reachable ltac:(done) admit_demo R eq_refl ltac:(vm_cast_no_check (eq_refl (@Ok unit tt)))).
  - exact (admission_is_idempotent withArtifact admitted finished None 2 99 (demoAdmission "h") (demoAdmission "other") admittedRecord true
      withArtifact_reachable ltac:(done) admit_demo R eq_refl ltac:(vm_cast_no_check (eq_refl (@Ok unit tt)))).
Defined.

(** ** State changes *)

(** C39: Terminal executions never change: after any run of the ledger the record of an execution that was
    in a terminal state is exactly the record it was. *)
Theorem terminal_execution_is_final (l l' : InMemoryExecutionLedger) id r : ledger_reachable l → rtc ledger_step l l' →
  lg_executions l !! id = Some r → IsTerminalExecutionState (er_State r) = true → lg_executions l' !! id = Some r.
Proof.
  intros Hi%ledger_inv_reachable Hr L T. destruct (ledger_run _ _ Hi Hr) as [_ X].
  destruct (le_record _ _ X _ _ L) as (r' & L' & _ & E). by rewrite E in L'.
Qed.
Definition finishedRecord : ExecutionRecord := Eval vm_compute in default admittedRecord (lg_executions finished !! "exec").
Definition releasedLedger := Eval vm_compute in snd (LeaseExecutions None 500 (λ _, Ok "token") "worker" 5 100 finished).
Lemma terminal_execution_is_final_witness : lg_executions releasedLedger !! "exec" = Some finishedRecord.
Proof.
  refine (terminal_execution_is_final finished releasedLedger "exec" finishedRecord finished_reachable (rtc_once _ _ _) eq_refl eq_refl).
  eapply (ls_lease None 500 (λ _, Ok "token") "worker" 5 100 _ (Ok [])); [by intros i t [= <-]|vm_compute; reflexivity].
Defined.

Lemma revision_conflict now id rev st msg l r : lg_executions l !! id = Some r → er_Revision r ≠ rev →
  ∃ e, SetExecutionState None now id rev st msg l = Err e ∧ errorsIs e ErrOptimisticConflict = true.
Proof.
  intros L N. unfold SetExecutionState. rewrite L. cbn [ctxErr ofOption mbind result_bind]. rewrite (bool_decide_eq_true_2 (_ ≠ rev)) by done.
  by eexists.
Qed.

(** State changes are compare-and-swap. With a live context, SetExecutionState succeeds exactly on an
    existing, non-terminal, unleased execution whose revision is the caller's, and afterwards every
    further call with that revision is refused as an optimistic conflict. *)
Theorem SetExecutionState_is_cas (l : InMemoryExecutionLedger) now id rev st msg r :
  lg_executions l !! id = Some r →
  if bool_decide (er_Revision r = rev) && negb (IsTerminalExecutionState (er_State r)) && bool_decide (er_RecoveryToken r = "")
  then ∃ r' l', SetExecutionState None now id rev st msg l = Ok (r', l') ∧ er_State r' = st ∧ er_core r' = er_core r ∧
         lg_executions l' = <[id := r']> (lg_executions l) ∧ Forall (λ p, pr_State p = executionPlanDisposition st) (er_Plans r') ∧
         ∀ now' st' msg', ∃ e, SetExecutionState None now' id rev st' msg' l' = Err e ∧ errorsIs e ErrOptimisticConflict = true
  else ∃ e, SetExecutionState None now id rev st msg l = Err e ∧ errorsIs e ErrOptimisticConflict = true.
Proof.
  intros L. unfold SetExecutionState at 1 3. rewrite L. cbn [ctxErr ofOption mbind result_bind].
  rewrite !bool_decide_not. destruct (bool_decide (er_Revision r = rev)) eqn:B1; cbn [negb andb orb]; [|by eexists].
  destruct (IsTerminalExecutionState (er_State r)); cbn [negb andb orb]; [by eexists|].
  destruct (bool_decide (er_RecoveryToken r = "")) eqn:B2; cbn [negb andb orb]; [|by eexists]. bool_to_prop.
  eexists _, _. split; [reflexivity|]. split; [done|]. split; [unfold er_core; cbn; by rewrite disposePlans_ids|]. split; [done|]. split.
  - apply Forall_fmap, Forall_true. done.
  - intros now' st' msg'. eapply revision_conflict; [apply lookup_insert_eq|]. rewrite <-B1. apply u64_inc_ne.
Qed.
Lemma SetExecutionState_is_cas_witness : ∃ r' l', SetExecutionState None 5 "exec" 1 ExecutionRunning "" admitted = Ok (r', l') ∧
  er_State r' = ExecutionRunning ∧ er_core r' = er_core admittedRecord ∧ lg_executions l' = <["exec" := r']> (lg_executions admitted) ∧
  Forall (λ p, pr_State p = "running") (er_Plans r') ∧
  ∀ now' st' msg', ∃ e, SetExecutionState None now' "exec" 1 st' msg' l' = Err e ∧ errorsIs e ErrOptimisticConflict = true.
Proof. exact (SetExecutionState_is_cas admitted 5 "exec" 1 ExecutionRunning "" admittedRecord eq_refl). Defined.

(** ** Recovery leases *)

(** A recovery lease excludes everyone else. While an execution carries an unexpired lease, nobody
    else can lease it, change its state, renew or finish it: LeaseExecutions leaves its record alone and
    does not return it, SetExecutionState reports a conflict, and a handle with another token is stale. *)
Theorem execution_lease_is_exclusive (l : InMemoryExecutionLedger) id r now : lg_executions l !! id = Some r →
  er_RecoveryToken r ≠ "" → now < er_RecoveryDeadline r →
  (∀ token owner limit dur res l', LeaseExecutions None now token owner limit dur l = (res, l') →
     lg_executions l' !! id = Some r ∧ ∀ leases, res = Ok leases → id ∉ (el_ExecutionID <$> leases)) ∧
  (∀ rev st msg, ∃ e, SetExecutionState None now id rev st msg l = Err e ∧ errorsIs e ErrOptimisticConflict = true) ∧
  (∀ lease n2 dur st msg, el_ExecutionID lease = id → el_Token lease ≠ er_RecoveryToken r → 0 < dur →
     (∃ e, RenewExecutionLease None now lease dur l = Err e ∧ errorsIs e ErrStaleExecutionLease = true) ∧
     (∃ e, FinishExecutionLease None now n2 lease st msg l = Err e ∧ errorsIs e ErrStaleExecutionLease = true)).
Proof.
  intros L Tk D. split; [|split].
  - intros token owner limit dur res l' H. unfold LeaseExecutions in H. destruct (_ || _).
    { injection H as <- <-. split; [done|]. by intros leases. }
    set (ids := take _ _) in H. assert (Hids : ∀ id1 r1, (id1, r1) ∈ ids → lg_executions l !! id1 = Some r1 ∧ leasable now r1 = true).
    { intros id1 r1 X. apply candidates_elem. eapply elem_of_take_sublist; exact X. }
    assert (Hid : id ∉ ids.*1).
    { intros ([id1 r1] & -> & X)%list_elem_of_fmap. cbn in L. apply Hids in X as [L1 X]. simplify_eq.
      apply leasable_facts in X as [_ [X|X]]; [done|lia]. }
    apply leaseAll_spec in H as (_ & _ & _ & _ & A5 & A6); [| |intros; by apply Hids].
    2:{ unfold ids. rewrite fmap_take. apply NoDup_take_sublist, candidates_NoDup. }
    split; [by rewrite A5|]. intros leases E. by rewrite (A6 _ E).
  - intros rev st msg. unfold SetExecutionState. rewrite L. cbn [ctxErr ofOption mbind result_bind].
    rewrite (bool_decide_eq_true_2 (er_RecoveryToken r ≠ "")), orb_true_r by done. by eexists.
  - intros lease n2 dur st msg E N Hd. unfold RenewExecutionLease, FinishExecutionLease. rewrite E, L.
    rewrite (bool_decide_eq_false_2 (dur ≤ 0)) by lia. cbn [ctxErr failIf ofOption mbind result_bind].
    rewrite (bool_decide_eq_true_2 (er_RecoveryToken r ≠ el_Token lease)), orb_true_r by congruence. split; by eexists.
Qed.
Definition leasedRecord : ExecutionRecord := Eval vm_compute in default admittedRecord (lg_executions leased !! "exec").
Lemma execution_lease_is_exclusive_witness : ∃ e, SetExecutionState None 50 "exec" 2 ExecutionFailed "" leased = Err e ∧
  errorsIs e ErrOptimisticConflict = true.
Proof.
  apply (execution_lease_is_exclusive leased "exec" leasedRecord 50 ltac:(vm_compute; reflexivity) ltac:(discriminate) ltac:(reflexivity)).
Defined.

Definition leaseKey (p : string * ExecutionRecord) : Z * string := (er_UpdatedAt p.2, p.1).
Definition leaseLt := lexLt (λ a b : Z, bool_decide (a < b)) strLt.
Lemma leaseLt_strict : strict_total leaseLt.
Proof. apply lexLt_strict; auto using Zlt_strict, strLt_strict. Qed.
#[export] Instance leaseLe_total : Total leaseLe.
Proof. apply (leOf_total leaseKey leaseLt leaseLt_strict). Qed.
#[export] Instance leaseLe_trans : Transitive leaseLe.
Proof. apply (leOf_trans leaseKey leaseLt leaseLt_strict). Qed.

Lemma sorted_take_before {A} (R : A → A → Prop) n l x y : StronglySorted R l → x ∈ take n l → y ∈ l → y ∉ take n l → R x y.
Proof.
  intros H. revert n. induction H as [|a l Hs IH Ha]; intros n Hx Hy Ny; [by apply elem_of_nil in Hy|].
  destruct n as [|n]; cbn in *; [by apply elem_of_nil in Hx|]. apply not_elem_of_cons in Ny as [N1 N2].
  apply elem_of_cons in Hy as [->|Hy]; [done|]. apply elem_of_cons in Hx as [->|Hx].
  - rewrite Forall_forall in Ha. auto.
  - by eapply IH.
Qed.
Lemma leaseAll_total owner dur now token ids : (∀ i, ∃ t, token i = Ok t) → ∀ i l,
  ∃ leases l', leaseAll owner dur now token i ids l = (Ok leases, l').
Proof.
  intros Ht. induction ids as [|[id r] ids IH]; intros i l; cbn [leaseAll]; [eauto|].
  destruct (Ht i) as [t ->]. destruct (IH (S i) (putExecution id (r <| er_RecoveryOwner := owner |> <| er_RecoveryToken := t |>
    <| er_RecoveryDeadline := timeAdd now dur |> <| er_Revision := u64_inc (er_Revision r) |> <| er_UpdatedAt := now |>) l)) as (ls & l' & E).
  rewrite E. cbn. eauto.
Qed.

(** Recovery is fair. A valid LeaseExecutions call whose tokens can be drawn returns leases for
    distinct executions, min(limit, available) of them, each free and non-terminal when leased, and no
    execution left waiting was updated before one that was leased (ties by identifier). *)
Theorem LeaseExecutions_takes_oldest (l : InMemoryExecutionLedger) now token owner limit dur :
  isBlank owner = false → 0 < limit → 0 < dur → (∀ i, ∃ t, token i = Ok t) →
  ∃ leases l', LeaseExecutions None now token owner limit dur l = (Ok leases, l') ∧
    NoDup (el_ExecutionID <$> leases) ∧
    List.length leases = Nat.min (Z.to_nat limit) (List.length (List.filter (λ p, leasable now p.2) (map_to_list (lg_executions l)))) ∧
    (∀ id, id ∈ (el_ExecutionID <$> leases) → ∃ r, lg_executions l !! id = Some r ∧ leasable now r = true ∧
       ∀ id' r', lg_executions l !! id' = Some r' → leasable now r' = true → id' ∉ (el_ExecutionID <$> leases) →
         leaseBefore (id', r') (id, r) = false).
Proof.
  intros Ho Hl Hd Ht. unfold LeaseExecutions. rewrite Ho, !bool_decide_eq_false_2 by lia. cbn [orb].
  set (ids := take _ _). destruct (leaseAll_total owner dur now token ids Ht 0 l) as (leases & l' & E). exists leases, l'. split; [done|].
  assert (Hn : NoDup ids.*1) by (unfold ids; rewrite fmap_take; apply NoDup_take_sublist, candidates_NoDup).
  assert (Hids : ∀ id r, (id, r) ∈ ids → lg_executions l !! id = Some r ∧ leasable now r = true).
  { intros id r X. apply candidates_elem. eapply elem_of_take_sublist; exact X. }
  apply leaseAll_spec in E as (_ & _ & _ & _ & _ & A); [|done|intros; by apply Hids]. specialize (A _ eq_refl).
  split; [by rewrite A|]. split.
  { rewrite <-(length_fmap el_ExecutionID leases), A, length_fmap. unfold ids. rewrite length_take. f_equal.
    unfold leaseCandidates. by rewrite merge_sort_Permutation. }
  rewrite A. intros id ([id1 r] & -> & X)%list_elem_of_fmap. destruct (Hids _ _ X) as [L F]. exists r. split; [done|]. split; [done|].
  intros id' r' L' F' N. assert (Hs : StronglySorted leaseLe (leaseCandidates now l)) by (apply StronglySorted_merge_sort; apply _).
  refine (sorted_take_before leaseLe _ _ (id1, r) (id', r') Hs X _ _); [by apply candidates_elem|].
  intros Y. apply N, list_elem_of_fmap. by exists (id', r').
Qed.
Lemma LeaseExecutions_takes_oldest_witness : ∃ leases l', LeaseExecutions None 10 (λ _, Ok "token") "worker" 5 100 admitted = (Ok leases, l') ∧
  List.length leases = 1%nat.
Proof.
  destruct (LeaseExecutions_takes_oldest admitted 10 (λ _, Ok "token") "worker" 5 100 ltac:(vm_compute; reflexivity) ltac:(reflexivity)
    ltac:(reflexivity) ltac:(eauto)) as (leases & l' & E & _ & N & _). exists leases, l'. split; [exact E|]. rewrite N. vm_compute. reflexivity.
Defined.
