(* ===== verification/Ir.v ===== *)
(** * The checked IR: data

    The messages of [effectus/v1/ir.proto] as the checker sees them, and the
    declarations of [ir/environment.go].

    [Check] works on a [proto.Clone], in which an element of a repeated field and
    the message of a set oneof are never nil; only an absent singular message
    field is. So a [Literal], [Expression] or [Value] has one constructor for nil,
    one for a oneof that is not set, and one for each alternative. A proto enum is
    the integer on the wire. A [double] is a [spec_float] (binary64). *)

From S2P Require Import Prelude GoText.
From Stdlib Require Import ZArith Ascii String.
From Stdlib Require Export SpecFloat.
Local Open Scope list_scope.
Local Open Scope Z_scope.

#[global] Instance spec_float_eq_dec : EqDecision spec_float.
Proof. solve_decision. Defined.

Set Warnings "-register-all".

(** ** Values and expressions *)
Inductive Literal : Type :=
  | LitNil
  | LitUnset
  | LitNull (null : Z)
  | LitBool (b : bool)
  | LitInt (i : Z)
  | LitDouble (d : spec_float)
  | LitString (s : string)
  | LitBytes (s : string)
  | LitList (values : list Literal)
  | LitObject (fields : list (string * Literal)).
Definition NULL_VALUE_NULL : Z := 1.

Inductive UnaryOperator : Type := OpNot | OpNegate | OpUnaryOther (n : Z).
Inductive BinaryOperator : Type :=
  | OpEqual | OpNotEqual | OpGreater | OpGreaterEqual | OpLess | OpLessEqual
  | OpAnd | OpOr | OpIn | OpContains
  | OpAdd | OpSubtract | OpMultiply | OpDivide | OpModulo
  | OpMatches | OpStartsWith | OpEndsWith
  | OpBinaryOther (n : Z).
#[global] Instance UnaryOperator_eq_dec : EqDecision UnaryOperator.
Proof. solve_decision. Defined.
#[global] Instance BinaryOperator_eq_dec : EqDecision BinaryOperator.
Proof. solve_decision. Defined.

Inductive Expression : Type :=
  | ExprNil
  | ExprUnset
  | ExprLiteral (l : Literal)
  | ExprFactPath (path : string)
  | ExprUnary (op : UnaryOperator) (operand : Expression)
  | ExprBinary (op : BinaryOperator) (left right : Expression)
  | ExprCall (function : string) (arguments : list Expression).

Inductive Value : Type :=
  | ValueNil
  | ValueUnset
  | ValueLiteral (l : Literal)
  | ValueFactPath (path : string)
  | ValueResultSlot (slot : Z).

(** Induction that reaches the elements of the nested lists. *)
Section LiteralInd.
  Context (P : Literal → Prop).
  Hypotheses (Hnil : P LitNil) (Hunset : P LitUnset) (Hnull : ∀ z, P (LitNull z)) (Hbool : ∀ b, P (LitBool b))
    (Hint : ∀ i, P (LitInt i)) (Hdouble : ∀ d, P (LitDouble d)) (Hstr : ∀ s, P (LitString s))
    (Hbytes : ∀ s, P (LitBytes s)) (Hlist : ∀ l, Forall P l → P (LitList l))
    (Hobj : ∀ l, Forall (λ f, P f.2) l → P (LitObject l)).
Fixpoint Literal_nested_ind (l : Literal) : P l :=
    match l with
    | LitNil => Hnil | LitUnset => Hunset | LitNull z => Hnull z | LitBool b => Hbool b | LitInt i => Hint i
    | LitDouble d => Hdouble d | LitString s => Hstr s | LitBytes s => Hbytes s
    | LitList vs => Hlist vs ((fix go vs := match vs return Forall P vs with
        | [] => Forall_nil_2 _ | v :: vs => Forall_cons_2 _ _ _ (Literal_nested_ind v) (go vs) end) vs)
    | LitObject fs => Hobj fs ((fix go fs := match fs return Forall (λ f, P f.2) fs with
        | [] => Forall_nil_2 _ | (n, v) :: fs => Forall_cons_2 (λ f, P f.2) (n, v) fs (Literal_nested_ind v) (go fs) end) fs)
    end.
End LiteralInd.

Section ExpressionInd.
  Context (P : Expression → Prop).
  Hypotheses (Hnil : P ExprNil) (Hunset : P ExprUnset) (Hlit : ∀ l, P (ExprLiteral l)) (Hfact : ∀ p, P (ExprFactPath p))
    (Hun : ∀ op e, P e → P (ExprUnary op e)) (Hbin : ∀ op l r, P l → P r → P (ExprBinary op l r))
    (Hcall : ∀ f args, Forall P args → P (ExprCall f args)).
Fixpoint Expression_nested_ind (e : Expression) : P e :=
    match e with
    | ExprNil => Hnil | ExprUnset => Hunset | ExprLiteral l => Hlit l | ExprFactPath p => Hfact p
    | ExprUnary op e => Hun op e (Expression_nested_ind e)
    | ExprBinary op l r => Hbin op l r (Expression_nested_ind l) (Expression_nested_ind r)
    | ExprCall f args => Hcall f args ((fix go es := match es return Forall P es with
        | [] => Forall_nil_2 _ | e :: es => Forall_cons_2 _ _ _ (Expression_nested_ind e) (go es) end) args)
    end.
End ExpressionInd.

(** ** Steps, plans and artifacts *)
Record CheckedRetryPolicy : Type := mkCheckedRetry {
  cr_MaxAttempts : Z; cr_InitialBackoffMillis : Z; cr_MaxBackoffMillis : Z }.
#[global] Instance CheckedRetryPolicy_eq_dec : EqDecision CheckedRetryPolicy.
Proof. solve_decision. Defined.
Record CompensationContract : Type := mkCompensation {
  cc_InverseVerb : string; cc_InverseContractHash : string }.
#[global] Instance CompensationContract_eq_dec : EqDecision CompensationContract.
Proof. solve_decision. Defined.

Record Argument : Type := mkArgument { arg_Name : string; arg_Value : Value }.

Definition IDEMPOTENCY_POLICY_UNSPECIFIED : Z := 0.
Definition IDEMPOTENCY_POLICY_NONE : Z := 1.
Definition IDEMPOTENCY_POLICY_KEY_REQUIRED : Z := 2.
Definition IDEMPOTENCY_POLICY_SINK_GUARANTEED : Z := 3.
Definition FENCING_REQUIREMENT_UNSPECIFIED : Z := 0.
Definition FENCING_REQUIREMENT_NONE : Z := 1.
Definition FENCING_REQUIREMENT_REQUIRED : Z := 2.

Record Step : Type := mkIrStep {
  sp_Id : string;
  sp_Ordinal : Z;
  sp_Verb : string;
  sp_ContractHash : string;
  sp_Arguments : list Argument;
  sp_ResultSlot : option Z;
  sp_Compensation : option CompensationContract;
  sp_RetryPolicy : option CheckedRetryPolicy;
  sp_IdempotencyPolicy : Z;
  sp_FencingRequirement : Z }.
#[global] Instance eta_IrStep : Eta Step := λ r,
  mkIrStep (sp_Id r) (sp_Ordinal r) (sp_Verb r) (sp_ContractHash r) (sp_Arguments r) (sp_ResultSlot r)
    (sp_Compensation r) (sp_RetryPolicy r) (sp_IdempotencyPolicy r) (sp_FencingRequirement r).

Definition SOURCE_DIALECT_LIST : Z := 1.
Definition SOURCE_DIALECT_FLOW : Z := 2.
Definition EXECUTION_POLICY_DURABLE_FAIL_FAST : Z := 1.
Definition EXECUTION_POLICY_DURABLE_COMPENSATING : Z := 2.

(** [pl_Predicate] is the expression of the predicate message; a missing message
    and a message without an expression are both [ExprNil], as [checkPlan] treats
    them alike. *)
Record Plan : Type := mkPlan {
  pl_Id : string;
  pl_SourceDialect : Z;
  pl_SourceOrder : Z;
  pl_Priority : Z;
  pl_Predicate : Expression;
  pl_ExecutionPolicy : Z;
  pl_Steps : list Step }.
#[global] Instance eta_Plan : Eta Plan := λ r,
  mkPlan (pl_Id r) (pl_SourceDialect r) (pl_SourceOrder r) (pl_Priority r) (pl_Predicate r)
    (pl_ExecutionPolicy r) (pl_Steps r).

Record CompilerMetadata : Type := mkCompiler { cm_Name : string; cm_Version : string; cm_BuildDigest : string }.

Record RuleArtifact : Type := mkRuleArtifact {
  ra_FormatVersion : Z;
  ra_Compiler : option CompilerMetadata;
  ra_EnvironmentDigest : string;
  ra_Plans : list Plan }.
#[global] Instance eta_RuleArtifact : Eta RuleArtifact := λ r,
  mkRuleArtifact (ra_FormatVersion r) (ra_Compiler r) (ra_EnvironmentDigest r) (ra_Plans r).

(** ** Declarations ([ir/environment.go])

    A nil and an empty map are the same to the sources, so maps are finite maps;
    a nil [RequiredArgs] means every argument is required and is [None]. *)
Record RetryPolicy : Type := mkRetryPolicy {
  rp_MaxAttempts : Z; rp_InitialBackoffMillis : Z; rp_MaxBackoffMillis : Z }.
#[global] Instance eta_RetryPolicy : Eta RetryPolicy := λ r,
  mkRetryPolicy (rp_MaxAttempts r) (rp_InitialBackoffMillis r) (rp_MaxBackoffMillis r).
#[global] Instance RetryPolicy_eq_dec : EqDecision RetryPolicy.
Proof. solve_decision. Defined.

Definition IdempotencyNone : string := "none".
Definition IdempotencyKeyRequired : string := "key_required".
Definition IdempotencySinkGuaranteed : string := "sink_guaranteed".

Record VerbContract : Type := mkVerb {
  vc_Arguments : gmap string string;
  vc_RequiredArgs : option (list string);
  vc_ResultType : string;
  vc_InverseVerb : string;
  vc_RetryPolicy : RetryPolicy;
  vc_IdempotencyPolicy : string;
  vc_FencingRequired : bool }.
#[global] Instance eta_VerbContract : Eta VerbContract := λ r,
  mkVerb (vc_Arguments r) (vc_RequiredArgs r) (vc_ResultType r) (vc_InverseVerb r) (vc_RetryPolicy r)
    (vc_IdempotencyPolicy r) (vc_FencingRequired r).

Record FunctionContract : Type := mkFunction {
  fc_ArgumentTypes : list string;
  fc_ReturnType : string;
  fc_Pure : bool;
  fc_Total : bool }.
#[global] Instance eta_FunctionContract : Eta FunctionContract := λ r,
  mkFunction (fc_ArgumentTypes r) (fc_ReturnType r) (fc_Pure r) (fc_Total r).

Definition TypeKindObject : string := "object".
Definition TypeKindList : string := "list".
Definition TypeKindMap : string := "map".

Record TypeDefinition : Type := mkTypeDef {
  td_Kind : string;
  td_ElementType : string;
  td_Fields : gmap string string;
  td_RequiredFields : list string }.
#[global] Instance eta_TypeDefinition : Eta TypeDefinition := λ r,
  mkTypeDef (td_Kind r) (td_ElementType r) (td_Fields r) (td_RequiredFields r).

Record Environment : Type := mkEnvironment {
  env_Facts : gmap string string;
  env_Verbs : gmap string VerbContract;
  env_Functions : gmap string FunctionContract;
  env_Types : gmap string TypeDefinition }.
#[global] Instance eta_Environment : Eta Environment := λ r,
  mkEnvironment (env_Facts r) (env_Verbs r) (env_Functions r) (env_Types r).
