(* ===== verification/Types.v ===== *)
(** * Types of the checked IR ([ir/types.go])

    [typeRef] has one constructor per [typeKind] of the source that is ever built
    ([typeInvalid] is the zero value and never is). A map of fields is an
    association list in which the first entry of a name counts; the loops over such
    a map do not depend on its order.

    The recursions bounded by [depth > 64] are fixpoints on [65 - depth]: fuel 0 is
    exactly the refused depth 65, so no run is cut short that the source continues. *)

From S2P Require Import Prelude GoText Ir.
From Stdlib Require Import ZArith Ascii String.
Local Open Scope list_scope.
Local Open Scope Z_scope.

Set Warnings "-register-all".
Inductive typeRef : Type :=
  | TBool | TInt | TFloat | TString | TBytes | TNull | TVoid
  | TList (name : string) (element : typeRef)
  | TMap (name : string) (element : typeRef)
  | TObject (name : string) (fields : list (string * typeRef))
  | TNamed (name : string).

(** [fields[name]] *)
Fixpoint fieldOf {A} (fields : list (string * A)) (name : string) : option A :=
  match fields with
  | [] => None
  | (n, t) :: fields => if bool_decide (n = name) then Some t else fieldOf fields name
  end.
(** [fields[name] = t] *)
Fixpoint setField {A} (fields : list (string * A)) (name : string) (t : A) : list (string * A) :=
  match fields with
  | [] => [(name, t)]
  | (n, t') :: fields => if bool_decide (n = name) then (n, t) :: fields else (n, t') :: setField fields name t
  end.

Definition genericInner (name constructor : string) : option string :=
  let trimmed := TrimSpace name in
  let prefix := constructor +:+ "<" in
  if bool_decide (strlen trimmed ≤ strlen prefix)
     || negb (equalFoldASCII (slice trimmed 0 (String.length prefix)) prefix)
     || negb (HasSuffix trimmed ">")
  then None
  else
    let inner := TrimSpace (slice trimmed (String.length prefix) (String.length trimmed - 1)) in
    if bool_decide (inner = "") then None else Some inner.

(** The switch on [strings.ToLower(name)]: a scalar type, a refused name, or neither. *)
Definition scalarType (name : string) (allowVoid : bool) : option (result typeRef) :=
  let lower := ToLower name in
  if bool_decide (lower ∈ ["bool"; "boolean"]) then Some (Ok TBool)
  else if bool_decide (lower ∈ ["int"; "integer"]) then Some (Ok TInt)
  else if bool_decide (lower ∈ ["float"; "double"; "number"]) then Some (Ok TFloat)
  else if bool_decide (lower = "string") then Some (Ok TString)
  else if bool_decide (lower = "bytes") then Some (Ok TBytes)
  else if bool_decide (lower = "null") then Some (Ok TNull)
  else if bool_decide (lower = "void") then
    Some (if allowVoid then Ok TVoid else Err (errorf "void is not valid here"))
  else if bool_decide (lower ∈ ["any"; "unknown"; "object"; "list"; "map"]) then
    Some (Err (errorf "open type is forbidden in checked IR"))
  else None.

Section TypeChecker.
  Context (types : gmap string TypeDefinition).

Fixpoint parseDepth (fuel : nat) (name : string) (allowVoid : bool) : result typeRef :=
  match fuel with
  | O => Err (errorf "type depth limit exceeded")
  | S fuel =>
      let name := TrimSpace name in
      if bool_decide (name = "") then Err (errorf "type name is empty") else
      match scalarType name allowVoid with
      | Some r => r
      | None =>
          if HasPrefix name "[]" then
            element ← parseDepth fuel (TrimSpace (slice name 2 (String.length name))) false;
            Ok (TList "" element)
          else match genericInner name "list" with
          | Some inner => element ← parseDepth fuel inner false; Ok (TList "" element)
          | None =>
              match genericInner name "map" with
              | Some inner => element ← parseDepth fuel inner false; Ok (TMap "" element)
              | None =>
                  if bool_decide (is_Some (types !! name)) then Ok (TNamed name)
                  else Err (errorf "unknown type")
              end
          end
      end
  end.
Definition parse (name : string) (allowVoid : bool) : result typeRef := parseDepth 65 name allowVoid.

(** [resolve]: a named type is replaced by its definition, one level deep. Every
    caller passes a fresh [seen] and the body never recurses, so its cycle test
    cannot fire and is left out. *)
Definition resolve (ref : typeRef) : result typeRef :=
  match ref with
  | TNamed name =>
      definition ← ofOption (types !! name) (errorf "unknown type");
      if bool_decide (td_Kind definition = TypeKindList) then
        element ← parse (td_ElementType definition) false; Ok (TList name element)
      else if bool_decide (td_Kind definition = TypeKindMap) then
        element ← parse (td_ElementType definition) false; Ok (TMap name element)
      else if bool_decide (td_Kind definition = TypeKindObject) then
        fields ← mapR (λ f : string * string, t ← parse f.2 false; Ok (f.1, t))
                   (map_to_list (td_Fields definition));
        Ok (TObject name fields)
      else Err (errorf "unsupported type kind")
  | _ => Ok ref
  end.

Definition requiredFieldsOf (name : string) : list string :=
  match types !! name with Some definition => td_RequiredFields definition | None => [] end.
Definition requiredObjectFields (name : string) (fields : list (string * typeRef)) : list string :=
  if bool_decide (name ≠ "") then requiredFieldsOf name else fields.*1.

Definition sameNamed (actual expected : typeRef) : bool :=
  match actual, expected with TNamed a, TNamed e => bool_decide (a = e) | _, _ => false end.

(** [assignableDepth] at depth [65 - fuel]. The loop over the fields of a Go map
    visits each name once, with the value the map holds for it. *)
Fixpoint assignableDepth (fuel : nat) (actual expected : typeRef) : bool :=
  match fuel with
  | O => false
  | S fuel =>
      if sameNamed actual expected then true else
      match resolve actual, resolve expected with
      | Ok actual, Ok expected =>
          match actual, expected with
          | TInt, TFloat => true
          | TList _ a, TList _ e => assignableDepth fuel a e
          | TMap _ a, TMap _ e => assignableDepth fuel a e
          | TObject an afs, TObject en efs =>
              forallb (λ f : string * typeRef,
                         match fieldOf efs f.1 with
                         | Some expectedField => assignableDepth fuel f.2 expectedField
                         | None => false
                         end) afs
              && forallb (λ name, bool_decide (name ∈ requiredObjectFields an afs))
                   (requiredObjectFields en efs)
          | TBool, TBool | TInt, TInt | TFloat, TFloat | TString, TString | TBytes, TBytes | TNull, TNull => true
          | _, _ => false
          end
      | _, _ => false
      end
  end.
Definition assignable (actual expected : typeRef) : bool := assignableDepth 65 actual expected.

(** One element of the loop of [literalType]: [first] is the common type so far,
    [None] before the first element. *)
Definition joinElement (first : option typeRef) (current : typeRef) : result typeRef :=
  match first with
  | None => Ok current
  | Some first =>
      if assignable current first then Ok first
      else if assignable first current then Ok current
      else Err (errorf "list literal contains incompatible element types")
  end.

Fixpoint literalType (literal : Literal) (depth : Z) {struct literal} : result typeRef :=
  if bool_decide (depth > 64) then Err (errorf "invalid literal") else
  match literal with
  | LitNil => Err (errorf "invalid literal")
  | LitUnset => Err (errorf "literal kind is not set")
  | LitNull n => failIf (bool_decide (n ≠ NULL_VALUE_NULL)) (errorf "invalid null literal") ;; Ok TNull
  | LitBool _ => Ok TBool
  | LitInt _ => Ok TInt
  | LitDouble _ => Ok TFloat
  | LitString _ => Ok TString
  | LitBytes _ => Ok TBytes
  | LitList values =>
      element ← (fix go first l := match l with
                  | [] => Ok first
                  | v :: l => current ← literalType v (depth + 1);
                              first ← joinElement first current; go (Some first) l
                  end) None values;
      ofOption element (errorf "empty list literal has no closed element type") ≫= λ element,
      Ok (TList "" element)
  | LitObject fs =>
      fields ← (fix go fields l := match l with
                 | [] => Ok fields
                 | (name, v) :: l => fieldType ← literalType v (depth + 1);
                                     go (setField fields name fieldType) l
                 end) [] fs;
      Ok (TObject "" fields)
  end.

(** Structural collections are checked against their closed expected type. *)
Fixpoint literalAssignable (literal : Literal) (expected : typeRef) : result unit :=
  resolved ← resolve expected;
  let mismatch := Err (errorf "literal type is incompatible") in
  match resolved with
  | TObject name fields =>
      match literal with
      | LitObject fs =>
          (fix go l := match l with
           | [] => Ok tt
           | (field, v) :: l =>
               match fieldOf fields field with
               | None => Err (errorf "unexpected object field")
               | Some fieldExpected => literalAssignable v fieldExpected ;; go l
               end
           end) fs ;;
          failIf (negb (forallb (λ required, bool_decide (required ∈ fs.*1)) (requiredFieldsOf name)))
            (errorf "missing required object field")
      | _ => mismatch
      end
  | TList _ element =>
      match literal with
      | LitList vs => (fix go l := match l with
                       | [] => Ok tt
                       | v :: l => literalAssignable v element ;; go l
                       end) vs
      | _ => mismatch
      end
  | TMap _ element =>
      match literal with
      | LitObject fs => (fix go (l : list (string * Literal)) := match l with
                         | [] => Ok tt
                         | (_, v) :: l => literalAssignable v element ;; go l
                         end) fs
      | _ => mismatch
      end
  | _ =>
      actual ← literalType literal 0;
      if assignable actual expected then Ok tt else mismatch
  end.
End TypeChecker.

Fixpoint describe (ref : typeRef) : string :=
  match ref with
  | TBool => "bool" | TInt => "int" | TFloat => "float" | TString => "string" | TBytes => "bytes"
  | TNull => "null" | TVoid => "void"
  | TList name element => if bool_decide (name ≠ "") then name else "list<" +:+ describe element +:+ ">"
  | TMap name element => if bool_decide (name ≠ "") then name else "map<" +:+ describe element +:+ ">"
  | TObject name _ => if bool_decide (name ≠ "") then name else "object"
  | TNamed name => if bool_decide (name ≠ "") then name else "<invalid>"
  end.

Definition isNumeric (ref : typeRef) : bool :=
  match ref with TInt | TFloat => true | _ => false end.

(** The bounded recursions are reasoned about through their lemmas. *)
#[global] Arguments parse : simpl never.
#[global] Arguments assignable : simpl never.
#[global] Arguments scalarType : simpl never.
#[global] Arguments genericInner : simpl never.
Strategy 1000 [parseDepth assignableDepth parse assignable resolve].
