(* ===== verification/Env.v ===== *)
(** * Environments ([ir/environment.go])

    Normalization and validation of the declarations an artifact is checked
    against, and the digests that identify them. *)

From S2P Require Import Prelude GoText Sha256 Json Ir Types.
From Stdlib Require Import ZArith Ascii String.
From stdpp Require Import pretty.
Local Open Scope list_scope.
Local Open Scope Z_scope.

Definition FormatVersion : Z := 1.

Definition isReservedTypeName (name : string) : bool :=
  bool_decide (ToLower (TrimSpace name) ∈
    ["bool"; "boolean"; "int"; "integer"; "float"; "double"; "number"; "string"; "bytes"; "null"; "void";
     "any"; "unknown"; "object"; "list"; "map"]).

(** [for k, v := range m { if err := f(k, v); err != nil { return err } }] *)
Definition eachR {V} (f : string → V → result unit) (m : gmap string V) : result unit :=
  mapR (λ p : string * V, f p.1 p.2) (map_to_list m) ;; Ok tt.
(** [for _, x := range l { if err := f(x); err != nil { return err } }] *)
Definition allR {A} (f : A → result unit) (l : list A) : result unit := mapR f l ;; Ok tt.

(** A name that is blank or carries surrounding whitespace is refused. *)
Definition badName (name : string) : bool :=
  bool_decide (TrimSpace name = "") || bool_decide (TrimSpace name ≠ name).

(** The loop that refuses duplicate and undeclared entries of a sorted list. *)
Definition checkDeclared (l : list string) (declared : gmap string string) : result unit :=
  failIf (negb (bool_decide (NoDup l))) (errorf "duplicate required name") ;;
  failIf (negb (forallb (λ name, bool_decide (is_Some (declared !! name))) l))
    (errorf "required name is not declared").

Definition maxBackoffMillis : Z := (2 ^ 63 - 1) / Millisecond.

(** The defaults of an unset attempt count and of an unset idempotency policy. *)
Definition defaultRetry (retry : RetryPolicy) : RetryPolicy :=
  if bool_decide (rp_MaxAttempts retry = 0) then retry <| rp_MaxAttempts := 1 |> else retry.
Definition defaultIdempotency (policy : string) : string :=
  if bool_decide (policy = "") then IdempotencyNone else policy.

Definition normalizeVerbContract (contract : VerbContract) : result VerbContract :=
  eachR (λ name _, failIf (badName name) (errorf "invalid argument name")) (vc_Arguments contract) ;;
  let arguments := TrimSpace <$> vc_Arguments contract in
  let required := sortedStrings (default ((map_to_list arguments).*1) (vc_RequiredArgs contract)) in
  checkDeclared required arguments ;;
  let retry := defaultRetry (vc_RetryPolicy contract) in
  failIf (bool_decide (rp_MaxBackoffMillis retry ≠ 0)
          && bool_decide (rp_MaxBackoffMillis retry < rp_InitialBackoffMillis retry))
    (errorf "retry initial backoff exceeds maximum backoff") ;;
  failIf (bool_decide (maxBackoffMillis < rp_InitialBackoffMillis retry)
          || bool_decide (maxBackoffMillis < rp_MaxBackoffMillis retry))
    (errorf "retry backoff exceeds supported duration") ;;
  let policy := defaultIdempotency (vc_IdempotencyPolicy contract) in
  failIf (negb (bool_decide (policy ∈ [IdempotencyNone; IdempotencyKeyRequired; IdempotencySinkGuaranteed])))
    (errorf "invalid idempotency policy") ;;
  Ok (mkVerb arguments (Some required) (TrimSpace (vc_ResultType contract)) (TrimSpace (vc_InverseVerb contract))
        retry policy (vc_FencingRequired contract)).

(** The first loop of [normalizeEnvironment] on one definition. *)
Definition normalizeTypeDefinition (definition : TypeDefinition) : TypeDefinition :=
  mkTypeDef (ToLower (TrimSpace (td_Kind definition))) (TrimSpace (td_ElementType definition))
    (td_Fields definition) (sortedStrings (td_RequiredFields definition)).
Definition normalizeFunctionContract (contract : FunctionContract) : FunctionContract :=
  mkFunction (TrimSpace <$> fc_ArgumentTypes contract) (TrimSpace (fc_ReturnType contract))
    (fc_Pure contract) (fc_Total contract).

Definition checkTypeName (name : string) : result unit :=
  failIf (badName name) (errorf "type name is empty or has leading or trailing whitespace") ;;
  failIf (isReservedTypeName name) (errorf "type shadows a built-in type").

(** The trimming half of [normalizeEnvironment]: every name is checked and every
    contract normalized. *)
Definition trimEnvironment (environment : Environment) : result Environment :=
  eachR (λ name _, checkTypeName name) (env_Types environment) ;;
  eachR (λ path _, failIf (badName path) (errorf "fact path is empty or has leading or trailing whitespace"))
    (env_Facts environment) ;;
  verbs ← mapR (λ p : string * VerbContract,
                  failIf (badName p.1) (errorf "verb name is empty or has leading or trailing whitespace") ;;
                  contract ← normalizeVerbContract p.2; Ok (p.1, contract))
            (map_to_list (env_Verbs environment));
  eachR (λ name _, failIf (badName name) (errorf "function name is empty or has leading or trailing whitespace"))
    (env_Functions environment) ;;
  Ok (mkEnvironment (TrimSpace <$> env_Facts environment) (list_to_map verbs)
        (normalizeFunctionContract <$> env_Functions environment)
        (normalizeTypeDefinition <$> env_Types environment)).

(** The validating half: every declared type name parses in the trimmed environment. *)
Definition parses (types : gmap string TypeDefinition) (allowVoid : bool) (name : string) : result unit :=
  parse types name allowVoid ;; Ok tt.

Definition checkTypeDefinition (types : gmap string TypeDefinition) (definition : TypeDefinition) : result unit :=
  if bool_decide (td_Kind definition = TypeKindObject) then
    failIf (bool_decide (td_ElementType definition ≠ "")) (errorf "object cannot have an element type") ;;
    checkDeclared (td_RequiredFields definition) (td_Fields definition) ;;
    eachR (λ field typeName,
             failIf (badName field) (errorf "field name is empty or has leading or trailing whitespace") ;;
             parses types false typeName) (td_Fields definition)
  else if bool_decide (td_Kind definition = TypeKindList) || bool_decide (td_Kind definition = TypeKindMap) then
    failIf (bool_decide (td_Fields definition ≠ ∅) || bool_decide (td_RequiredFields definition ≠ []))
      (errorf "collection cannot declare fields") ;;
    parses types false (td_ElementType definition)
  else Err (errorf "unsupported kind").

Definition checkVerbTypes (types : gmap string TypeDefinition) (contract : VerbContract) : result unit :=
  eachR (λ argument typeName,
           failIf (isBlank argument) (errorf "empty argument name") ;; parses types false typeName)
    (vc_Arguments contract) ;;
  parses types true (vc_ResultType contract).

Definition checkFunctionTypes (types : gmap string TypeDefinition) (contract : FunctionContract) : result unit :=
  allR (parses types false) (fc_ArgumentTypes contract) ;;
  parses types false (fc_ReturnType contract).

Definition validateEnvironment (out : Environment) : result unit :=
  let types := env_Types out in
  eachR (λ _, checkTypeDefinition types) types ;;
  eachR (λ _, parses types false) (env_Facts out) ;;
  eachR (λ _, checkVerbTypes types) (env_Verbs out) ;;
  eachR (λ _, checkFunctionTypes types) (env_Functions out).

Definition normalizeEnvironment (environment : Environment) : result Environment :=
  out ← trimEnvironment environment;
  validateEnvironment out ;;
  Ok out.

(** ** Digests

    [json.Marshal] of the structs: fields in declaration order under their tags,
    [omitempty] fields left out when empty, map keys sorted. *)
Definition intJSON (z : Z) : json := JNum (pretty z).
Definition mapOf {V} (f : V → json) (m : gmap string V) : json := mapJSON (Some (f <$> m)).
Definition omitEmpty (absent : bool) (key : string) (v : json) : list (string * json) :=
  if absent then [] else [(key, v)].
Definition stringsJSON (l : list string) : json := JArr (JStr <$> l).

Definition retryJSON (r : RetryPolicy) : json :=
  JObj [("max_attempts", intJSON (rp_MaxAttempts r));
        ("initial_backoff_millis", intJSON (rp_InitialBackoffMillis r));
        ("max_backoff_millis", intJSON (rp_MaxBackoffMillis r))].
Definition verbJSON (c : VerbContract) : json :=
  JObj ([("arguments", mapOf JStr (vc_Arguments c));
         ("required_args", match vc_RequiredArgs c with None => JNull | Some l => stringsJSON l end);
         ("result_type", JStr (vc_ResultType c))]
        ++ omitEmpty (bool_decide (vc_InverseVerb c = "")) "inverse_verb" (JStr (vc_InverseVerb c))
        ++ [("retry_policy", retryJSON (vc_RetryPolicy c));
            ("idempotency_policy", JStr (vc_IdempotencyPolicy c));
            ("fencing_required", JBool (vc_FencingRequired c))]).
Definition functionJSON (c : FunctionContract) : json :=
  JObj [("argument_types", stringsJSON (fc_ArgumentTypes c)); ("return_type", JStr (fc_ReturnType c));
        ("pure", JBool (fc_Pure c)); ("total", JBool (fc_Total c))].
Definition typeJSON (d : TypeDefinition) : json :=
  JObj ([("kind", JStr (td_Kind d))]
        ++ omitEmpty (bool_decide (td_ElementType d = "")) "element_type" (JStr (td_ElementType d))
        ++ omitEmpty (bool_decide (td_Fields d = ∅)) "fields" (mapOf JStr (td_Fields d))
        ++ omitEmpty (bool_decide (td_RequiredFields d = [])) "required_fields" (stringsJSON (td_RequiredFields d))).
Definition environmentJSON (e : Environment) : json :=
  JObj [("facts", mapOf JStr (env_Facts e)); ("verbs", mapOf verbJSON (env_Verbs e));
        ("functions", mapOf functionJSON (env_Functions e)); ("types", mapOf typeJSON (env_Types e))].

Definition ContractHash (contract : VerbContract) : result string :=
  normalized ← normalizeVerbContract contract;
  data ← ofOption (Marshal (verbJSON normalized)) (errorf "marshal verb contract");
  Ok (sha256hex (bytes data)).

Definition EnvironmentDigest (environment : Environment) : result string :=
  normalized ← normalizeEnvironment environment;
  data ← ofOption (Marshal (environmentJSON normalized)) (errorf "marshal environment");
  Ok (sha256hex (bytes data)).
