(* ===== verification/EnvProps.v ===== *)
(** * Normalized environments

    Normalization is a projection: a normalized environment is left alone by a second
    pass, so its digest and its contract hashes identify it. *)

From S2P Require Import Prelude GoText Sha256 Json Ir Types Env.
From Stdlib Require Import ZArith Ascii String.
Local Open Scope list_scope.
Local Open Scope Z_scope.

Lemma eachR_Ok {V} (f : string → V → result unit) (m : gmap string V) u :
  eachR f m = Ok u ↔ ∀ k v, m !! k = Some v → f k v = Ok tt.
Proof.
  unfold eachR. destruct u. split.
  - intros (l & H & _)%bind_Ok k v Hk. apply mapR_Forall2 in H. apply elem_of_map_to_list in Hk.
    apply list_elem_of_lookup in Hk as [i Hi]. destruct (Forall2_lookup_l _ _ _ _ _ H Hi) as (r & _ & Hr). cbn in Hr. by destruct r.
  - intros H. apply bind_Ok. exists (replicate (List.length (map_to_list m)) tt). split; [|done]. apply mapR_Forall2.
    apply Forall2_same_length_lookup_2; [by rewrite length_replicate|]. intros i [k v] r Hi Hr. destruct r. apply H.
    apply elem_of_map_to_list. by eapply list_elem_of_lookup_2.
Qed.
Lemma allR_Ok {A} (f : A → result unit) l u : allR f l = Ok u ↔ Forall (λ x, f x = Ok tt) l.
Proof.
  unfold allR. destruct u. split.
  - intros (r & H & _)%bind_Ok. apply mapR_Forall2 in H. induction H as [|x [] l l' Hx _ IH]; by constructor.
  - intros H. apply bind_Ok. exists (replicate (List.length l) tt). split; [|done]. apply mapR_Forall2.
    induction H; cbn; by constructor.
Qed.

Lemma checkDeclared_fmap {f : string → string} l m u :
  checkDeclared l (f <$> m) = Ok u → checkDeclared l (f <$> (f <$> m)) = Ok u.
Proof.
  unfold checkDeclared. intros H. inv_res. apply bind_Ok. exists tt. split; [by apply failIf_Ok|]. apply failIf_Ok.
  match goal with E : negb (forallb _ _) = false |- _ => rename E into E0 end. apply negb_false_iff. apply negb_false_iff in E0.
  rewrite forallb_forall in E0 |- *. intros x Hx. specialize (E0 x Hx). apply bool_decide_eq_true in E0. apply bool_decide_eq_true.
  rewrite !lookup_fmap in *. destruct (m !! x); [by eexists|by destruct E0].
Qed.
Lemma TrimSpace_fmap_idemp (m : gmap string string) : TrimSpace <$> (TrimSpace <$> m) = TrimSpace <$> m.
Proof. apply map_eq. intros k. rewrite !lookup_fmap. destruct (m !! k); cbn; [|done]. by rewrite TrimSpace_idemp. Qed.

Lemma defaultRetry_idem r : defaultRetry (defaultRetry r) = defaultRetry r.
Proof. unfold defaultRetry at 2 3. destruct (bool_decide (rp_MaxAttempts r = 0)) eqn:H; [reflexivity|]. unfold defaultRetry. by rewrite H. Qed.
Lemma defaultIdempotency_idem p : defaultIdempotency (defaultIdempotency p) = defaultIdempotency p.
Proof. unfold defaultIdempotency at 2 3. destruct (bool_decide (p = "")) eqn:H; [reflexivity|]. unfold defaultIdempotency. by rewrite H. Qed.

Lemma normalizeVerbContract_idem c c' : normalizeVerbContract c = Ok c' → normalizeVerbContract c' = Ok c'.
Proof.
  unfold normalizeVerbContract. intros H. apply bind_Ok in H as ([] & Ha & H). apply bind_Ok in H as ([] & Hd & H).
  apply bind_Ok in H as ([] & H1 & H). apply bind_Ok in H as ([] & H2 & H). apply bind_Ok in H as ([] & H3 & H).
  apply failIf_Ok in H1, H2, H3. injection H as <-.
  cbn [vc_Arguments vc_RequiredArgs vc_ResultType vc_InverseVerb vc_RetryPolicy vc_IdempotencyPolicy vc_FencingRequired from_option id].
  assert (eachR (λ name _, failIf (badName name) (errorf "invalid argument name")) (TrimSpace <$> vc_Arguments c) = Ok tt) as ->.
  { rewrite eachR_Ok in Ha |- *. intros k v Hk. rewrite lookup_fmap in Hk. destruct (vc_Arguments c !! k) eqn:E; [|done]. eauto. }
  cbn [mbind result_bind]. rewrite TrimSpace_fmap_idemp, sortedStrings_idemp, Hd. cbn [mbind result_bind].
  rewrite defaultRetry_idem, defaultIdempotency_idem, H1, H2, H3. cbn. by rewrite !TrimSpace_idemp.
Qed.

Definition verbOf (p : string * VerbContract) : result (string * VerbContract) :=
  failIf (badName p.1) (errorf "verb name is empty or has leading or trailing whitespace") ;;
  contract ← normalizeVerbContract p.2; Ok (p.1, contract).

Lemma verbOf_idem p p' : verbOf p = Ok p' → verbOf p' = Ok p' ∧ p'.1 = p.1.
Proof.
  unfold verbOf. intros H. apply bind_Ok in H as ([] & Hn & H). apply bind_Ok in H as (c & Hc & H). simplify_eq. cbn.
  apply failIf_Ok in Hn. rewrite Hn, (normalizeVerbContract_idem _ _ Hc). done.
Qed.
Lemma mapR_id {A} (f : A → result A) l : Forall (λ x, f x = Ok x) l → mapR f l = Ok l.
Proof. induction 1 as [|x l Hx _ IH]; [done|]. cbn. by rewrite Hx, IH. Qed.
Lemma verbs_idem (m : gmap string VerbContract) l : mapR verbOf (map_to_list m) = Ok l →
  mapR verbOf (map_to_list (list_to_map (M := gmap string VerbContract) l)) = Ok (map_to_list (list_to_map (M := gmap string VerbContract) l)).
Proof.
  intros H. apply mapR_Forall2 in H. apply mapR_id, Forall_forall. intros [k c] Hk. apply elem_of_map_to_list in Hk.
  apply elem_of_list_to_map_2 in Hk. apply list_elem_of_lookup in Hk as [i Hi].
  destruct (Forall2_lookup_r _ _ _ _ _ H Hi) as (p & _ & Hp). exact (proj1 (verbOf_idem _ _ Hp)).
Qed.

Lemma normalizeTypeDefinition_idem types d u : checkTypeDefinition types (normalizeTypeDefinition d) = Ok u →
  normalizeTypeDefinition (normalizeTypeDefinition d) = normalizeTypeDefinition d.
Proof.
  unfold normalizeTypeDefinition. cbn. intros H. rewrite TrimSpace_idemp, sortedStrings_idemp.
  assert (ToLower (TrimSpace (td_Kind d)) ∈ [TypeKindObject; TypeKindList; TypeKindMap]) as Hk.
  { unfold checkTypeDefinition in H. cbn in H. repeat case_bool_decide; try done; set_solver. }
  repeat (apply elem_of_cons in Hk as [Hk|Hk]); [..|by apply elem_of_nil in Hk]; rewrite Hk; reflexivity.
Qed.
Lemma fmap_idem {A} (f : A → A) (m : gmap string A) :
  (∀ k x, m !! k = Some x → f (f x) = f x) → f <$> (f <$> m) = f <$> m.
Proof. intros H. apply map_eq. intros k. rewrite !lookup_fmap. destruct (m !! k) eqn:E; cbn; [|done]. by erewrite H. Qed.
Lemma eachR_names {V W} (g : V → W) (f : string → result unit) (m : gmap string V) :
  eachR (λ k _, f k) m = Ok tt → eachR (λ k _, f k) (g <$> m) = Ok tt.
Proof.
  rewrite !eachR_Ok. intros H k v Hk. rewrite lookup_fmap in Hk. destruct (m !! k) eqn:E; [|done]. eauto.
Qed.

Lemma normalizeEnvironment_idem e e' : normalizeEnvironment e = Ok e' → normalizeEnvironment e' = Ok e'.
Proof.
  unfold normalizeEnvironment. intros H. apply bind_Ok in H as (out & Ht & H). apply bind_Ok in H as ([] & Hv & H). simplify_eq.
  enough (trimEnvironment e' = Ok e') as -> by (cbn; by rewrite Hv).
  unfold trimEnvironment in Ht. fold verbOf in Ht. apply bind_Ok in Ht as ([] & H1 & Ht). apply bind_Ok in Ht as ([] & H2 & Ht).
  apply bind_Ok in Ht as (verbs & H3 & Ht). apply bind_Ok in Ht as ([] & H4 & Ht). simplify_eq.
  unfold trimEnvironment. fold verbOf. cbn [env_Types env_Facts env_Verbs env_Functions].
  rewrite (eachR_names _ (λ name, checkTypeName name) _ H1). cbn [mbind result_bind]. rewrite (eachR_names _ (λ path, failIf _ _) _ H2). cbn [mbind result_bind].
  change (mapR verbOf (map_to_list (env_Verbs e)) = Ok verbs) in H3. change (λ p : string * VerbContract, _) with verbOf.
  rewrite (verbs_idem _ _ H3). cbn [mbind result_bind]. rewrite (eachR_names _ (λ name, failIf _ _) _ H4). cbn [mbind result_bind].
  rewrite TrimSpace_fmap_idemp, list_to_map_to_list.
  rewrite (fmap_idem normalizeFunctionContract), (fmap_idem normalizeTypeDefinition); [done| |].
  - intros k d Hk. unfold validateEnvironment in Hv. apply bind_Ok in Hv as ([] & Hv & _). rewrite eachR_Ok in Hv.
    cbn in Hv. eapply normalizeTypeDefinition_idem, (Hv k). rewrite lookup_fmap, Hk. done.
  - intros k c Hk. unfold normalizeFunctionContract. cbn. rewrite TrimSpace_idemp. f_equal. rewrite <-list_fmap_compose.
    apply list_fmap_ext. intros i x _. apply TrimSpace_idemp.
Qed.

(** Normalization is a projection that the identities see through. A normalized
    environment is accepted unchanged, and an environment and its normal form have the
    same digest; a verb contract and its normal form have the same hash. An artifact
    compiled against one is accepted against the other. *)
Theorem normalization_is_stable environment normal contract contract' :
  normalizeEnvironment environment = Ok normal → normalizeVerbContract contract = Ok contract' →
  normalizeEnvironment normal = Ok normal ∧ EnvironmentDigest normal = EnvironmentDigest environment ∧
  ContractHash contract' = ContractHash contract.
Proof.
  intros He Hc. split; [by eapply normalizeEnvironment_idem|]. unfold EnvironmentDigest, ContractHash.
  by rewrite He, Hc, (normalizeEnvironment_idem _ _ He), (normalizeVerbContract_idem _ _ Hc).
Qed.
Definition paddedVerb : VerbContract :=
  mkVerb {["to" := " string "]} None " string" "" (mkRetryPolicy 0 0 0) "" false.
Definition trimmedVerb : VerbContract :=
  mkVerb {["to" := "string"]} (Some ["to"]) "string" "" (mkRetryPolicy 1 0 0) IdempotencyNone false.
Definition paddedEnvironment : Environment := mkEnvironment {["total" := " int"]} {["ship" := paddedVerb]} ∅ ∅.
Definition trimmedEnvironment : Environment := mkEnvironment {["total" := "int"]} {["ship" := trimmedVerb]} ∅ ∅.
Lemma normalization_is_stable_witness :
  EnvironmentDigest trimmedEnvironment = EnvironmentDigest paddedEnvironment ∧ ContractHash trimmedVerb = ContractHash paddedVerb.
Proof.
  exact (proj2 (normalization_is_stable paddedEnvironment trimmedEnvironment paddedVerb trimmedVerb
    ltac:(vm_compute; reflexivity) ltac:(vm_compute; reflexivity))).
Defined.
