(* ===== verification/Check.v ===== *)
(** * The artifact checker ([ir/check.go])

    [artifactChecker] is a state passed explicitly: what the methods mutate is
    [checkState], and a method is a [checkM], a state transformer that may fail. The
    checker also fills defaults into the cloned artifact, so the methods on steps,
    plans and artifacts return the updated message. The counter [*nodes] of one
    predicate is the field [ck_predicateNodes], which [checkPlan] resets.

    Protobuf itself is not modelled: the encoded size, the presence of unknown
    fields and the deterministic encoding are arguments of [Check]. *)

From S2P Require Import Prelude GoText Sha256 Json Ir Types Env.
From Stdlib Require Import ZArith NArith Ascii String.
Local Open Scope list_scope.
Local Open Scope Z_scope.

(** ** Errors *)
Definition invalid (text : string) : error := wrapf ErrInvalidArtifact text.
Definition contextualInvalid (location : string) (e : error) : error :=
  mkError (ErrInvalidArtifact :: err_is e) (location +:+ ": " +:+ err_text e).
Definition limitError (name : string) : error := wrapf ErrLimitExceeded name.

(** ** Limits *)
Record Limits : Type := mkLimits {
  MaxArtifactBytes : Z;
  MaxPlans : Z;
  MaxSteps : Z;
  MaxStepsPerPlan : Z;
  MaxArgumentsPerStep : Z;
  MaxPredicateNodes : Z;
  MaxLiteralNodes : Z;
  MaxDepth : Z;
  MaxStringBytes : Z;
  MaxBytesValue : Z;
  MaxCollectionItems : Z;
  MaxObjectFields : Z;
  MaxTotalStringBytes : Z }.

Definition ValidationDefaults : Limits :=
  mkLimits (Z.shiftl 4 20) 1000 10000 1000 128 1024 10000 64 (Z.shiftl 1 20) (Z.shiftl 1 20) 10000 1024
    (Z.shiftl 4 20).

(** One iteration of the loop of [withDefaults]. *)
Definition limitOr (field default : Z) : result Z :=
  failIf (bool_decide (field < 0)) (invalid "limit must not be negative") ;;
  Ok (if bool_decide (field = 0) then default else field).

Definition withDefaults (l : Limits) : result Limits :=
  let d := ValidationDefaults in
  artifactBytes ← limitOr (MaxArtifactBytes l) (MaxArtifactBytes d);
  plans ← limitOr (MaxPlans l) (MaxPlans d);
  steps ← limitOr (MaxSteps l) (MaxSteps d);
  stepsPerPlan ← limitOr (MaxStepsPerPlan l) (MaxStepsPerPlan d);
  arguments ← limitOr (MaxArgumentsPerStep l) (MaxArgumentsPerStep d);
  predicateNodes ← limitOr (MaxPredicateNodes l) (MaxPredicateNodes d);
  literalNodes ← limitOr (MaxLiteralNodes l) (MaxLiteralNodes d);
  depth ← limitOr (MaxDepth l) (MaxDepth d);
  stringBytes ← limitOr (MaxStringBytes l) (MaxStringBytes d);
  bytesValue ← limitOr (MaxBytesValue l) (MaxBytesValue d);
  items ← limitOr (MaxCollectionItems l) (MaxCollectionItems d);
  fields ← limitOr (MaxObjectFields l) (MaxObjectFields d);
  total ← limitOr (MaxTotalStringBytes l) (MaxTotalStringBytes d);
  Ok (mkLimits artifactBytes plans steps stepsPerPlan arguments predicateNodes literalNodes depth stringBytes
        bytesValue items fields total).

(** ** The checker's state *)
Record checkState : Type := mkCheckState {
  ck_planIDs : gset string;
  ck_stepIDs : gset string;
  ck_sourceOrders : gset (Z * Z);  (* dialect and source order *)
  ck_stepCount : Z;
  ck_literalNodes : Z;
  ck_stringBytes : Z;
  ck_predicateNodes : Z }.
#[global] Instance eta_checkState : Eta checkState := λ r,
  mkCheckState (ck_planIDs r) (ck_stepIDs r) (ck_sourceOrders r) (ck_stepCount r) (ck_literalNodes r)
    (ck_stringBytes r) (ck_predicateNodes r).
Definition initialCheck : checkState := mkCheckState ∅ ∅ ∅ 0 0 0 0.

Definition checkM (A : Type) : Type := checkState → result (A * checkState).
#[global] Instance checkM_ret : MRet checkM := λ A a s, Ok (a, s).
#[global] Instance checkM_bind : MBind checkM := λ A B f m s,
  match m s with Ok (a, s') => f a s' | Err e => Err e end.
Definition throw {A} (e : error) : checkM A := λ _, Err e.
Definition lift {A} (r : result A) : checkM A := λ s, match r with Ok a => Ok (a, s) | Err e => Err e end.
Definition guardM (b : bool) (e : error) : checkM unit := lift (failIf b e).
Definition modifyM (f : checkState → checkState) : checkM unit := λ s, Ok (tt, f s).
Definition getM {A} (f : checkState → A) : checkM A := λ s, Ok (f s, s).
(** [return contextualInvalid(location, err)] *)
Definition inContext {A} (location : string) (m : checkM A) : checkM A := λ s,
  match m s with Ok r => Ok r | Err e => Err (contextualInvalid location e) end.
(** [if err != nil { return invalid(...) }] *)
Definition orInvalid {A} (text : string) (r : result A) : checkM A := λ s,
  match r with Ok a => Ok (a, s) | Err _ => Err (invalid text) end.

Definition addStringBytes (n : Z) (s : checkState) : checkState :=
  s <| ck_stringBytes := ck_stringBytes s + n |>.
Definition countLiteral (s : checkState) : checkState := s <| ck_literalNodes := ck_literalNodes s + 1 |>.
Definition countNode (s : checkState) : checkState := s <| ck_predicateNodes := ck_predicateNodes s + 1 |>.

(** [hex.DecodeString] *)
Fixpoint hexDecode (l : list ascii) : option (list ascii) :=
  match l with
  | [] => Some []
  | a :: b :: l =>
      x ← hexVal a; y ← hexVal b; r ← hexDecode l; Some (ascii_of_N (16 * x + y) :: r)
  | [_] => None
  end.
Definition checkDigest (digest : string) : result unit :=
  failIf (bool_decide (strlen digest ≠ 64)) (invalid "must be a lowercase SHA-256 digest") ;;
  match hexDecode (bytes digest) with
  | Some decoded => failIf (bool_decide (hexEncode decoded ≠ digest)) (invalid "must be a lowercase SHA-256 digest")
  | None => Err (invalid "must be a lowercase SHA-256 digest")
  end.

Section ArtifactChecker.
  Context (environment : Environment) (limits : Limits).
  #[local] Abbreviation types := (env_Types environment).

(** ** Text and literals *)
Definition text (value : string) (required : bool) : checkM unit :=
  guardM (required && isBlank value) (invalid "is empty") ;;
  guardM (required && bool_decide (value ≠ TrimSpace value)) (invalid "has leading or trailing whitespace") ;;
  guardM (negb (ValidUTF8 value)) (invalid "is not valid UTF-8") ;;
  guardM (bool_decide (MaxStringBytes limits < strlen value)) (limitError "bytes") ;;
  modifyM (addStringBytes (strlen value)) ;;
  total ← getM ck_stringBytes;
  guardM (bool_decide (MaxTotalStringBytes limits < total)) (limitError "total string bytes").

(** [math.IsNaN] or [math.IsInf] *)
Definition notFinite (d : spec_float) : bool :=
  match d with S754_nan | S754_infinity _ => true | _ => false end.

Fixpoint checkLiteralStructure (literal : Literal) (depth : Z) : checkM unit :=
  match literal with
  | LitNil => throw (errorf "literal is nil")
  | _ =>
      guardM (bool_decide (MaxDepth limits < depth)) (limitError "literal depth") ;;
      modifyM countLiteral ;;
      nodes ← getM ck_literalNodes;
      guardM (bool_decide (MaxLiteralNodes limits < nodes)) (limitError "literal nodes") ;;
      match literal with
      | LitNil | LitUnset => throw (errorf "literal kind is not set")
      | LitNull n => guardM (bool_decide (n ≠ NULL_VALUE_NULL)) (errorf "null enum is unspecified")
      | LitBool _ | LitInt _ => mret tt
      | LitDouble d => guardM (notFinite d) (errorf "double must be finite")
      | LitString s => text s false
      | LitBytes s => guardM (bool_decide (MaxBytesValue limits < strlen s)) (limitError "literal bytes")
      | LitList values =>
          guardM (bool_decide (MaxCollectionItems limits < Z.of_nat (List.length values))) (limitError "list items") ;;
          (fix go l := match l with
           | [] => mret tt
           | v :: l => checkLiteralStructure v (depth + 1) ;; go l
           end) values
      | LitObject fields =>
          guardM (bool_decide (MaxObjectFields limits < Z.of_nat (List.length fields))) (limitError "object fields") ;;
          (fix go (previous : option string) l := match l with
           | [] => mret tt
           | (name, v) :: l =>
               text name true ;;
               guardM (match previous with Some p => negb (strLt p name) | None => false end)
                 (errorf "object fields are not uniquely ordered by name") ;;
               checkLiteralStructure v (depth + 1) ;;
               go (Some name) l
           end) None fields
      end
  end.

(** ** Predicates *)

(** The type of a binary expression, from the types of its operands. *)
Definition binaryType (op : BinaryOperator) (left right : typeRef) : result typeRef :=
  let compatible := assignable types left right || assignable types right left in
  let isString t := match t with TString => true | _ => false end in
  let isBool t := match t with TBool => true | _ => false end in
  let isInt t := match t with TInt => true | _ => false end in
  let isFloat t := match t with TFloat => true | _ => false end in
  let arithmetic :=
    failIf (negb (isNumeric left) || negb (isNumeric right)) (errorf "arithmetic operands must be numeric") ;;
    failIf (bool_decide (op = OpModulo) && (negb (isInt left) || negb (isInt right)))
      (errorf "modulo operands must be int") ;;
    Ok (if isFloat left || isFloat right || bool_decide (op = OpDivide) then TFloat else TInt) in
  match op with
  | OpEqual | OpNotEqual =>
      failIf (negb compatible) (errorf "equality operands are incompatible") ;; Ok TBool
  | OpGreater | OpGreaterEqual | OpLess | OpLessEqual =>
      failIf (negb (compatible && ((isNumeric left && isNumeric right) || (isString left && isString right))))
        (errorf "comparison operands must be compatible numbers or strings") ;; Ok TBool
  | OpAnd | OpOr =>
      failIf (negb (isBool left) || negb (isBool right)) (errorf "logical operands must be bool") ;; Ok TBool
  | OpIn =>
      match resolve types right with
      | Ok (TList _ element) =>
          failIf (negb (assignable types left element)) (errorf "in requires a value and a compatible list") ;; Ok TBool
      | _ => Err (errorf "in requires a value and a compatible list")
      end
  | OpContains =>
      resolved ← resolve types left;
      failIf (negb ((isString resolved && isString right)
                    || match resolved with TList _ element => assignable types right element | _ => false end))
        (errorf "contains requires string/string or list/element operands") ;; Ok TBool
  | OpAdd => if isString left && isString right then Ok TString else arithmetic
  | OpSubtract | OpMultiply | OpDivide | OpModulo => arithmetic
  | OpMatches | OpStartsWith | OpEndsWith =>
      failIf (negb (isString left) || negb (isString right)) (errorf "string operator operands must be string") ;;
      Ok TBool
  | OpBinaryOther _ => Err (errorf "invalid binary operator")
  end.

Definition unaryType (op : UnaryOperator) (operand : typeRef) : result typeRef :=
  match op with
  | OpNot => match operand with TBool => Ok TBool | _ => Err (errorf "not operand must be bool") end
  | OpNegate => if isNumeric operand then Ok operand else Err (errorf "negate operand must be numeric")
  | OpUnaryOther _ => Err (errorf "invalid unary operator")
  end.

(** The guards of [checkCall] before its arguments. *)
Definition callContract (function : string) (count : nat) : result FunctionContract :=
  contract ← ofOption (env_Functions environment !! function) (errorf "unknown function");
  failIf (negb (fc_Pure contract) || negb (fc_Total contract)) (errorf "function is not declared pure and total") ;;
  failIf (bool_decide (count ≠ List.length (fc_ArgumentTypes contract))) (errorf "function has a wrong number of arguments") ;;
  Ok contract.

(** The test on one argument of a call. *)
Definition acceptsArgument (actual : typeRef) (typeName : string) : bool :=
  match parse types typeName false with Ok expected => assignable types actual expected | Err _ => false end.

Fixpoint checkExpression (expression : Expression) (depth : Z) : checkM typeRef :=
  match expression with
  | ExprNil => throw (errorf "expression is nil")
  | _ =>
      guardM (bool_decide (MaxDepth limits < depth)) (limitError "predicate depth") ;;
      modifyM countNode ;;
      nodes ← getM ck_predicateNodes;
      guardM (bool_decide (MaxPredicateNodes limits < nodes)) (limitError "predicate nodes") ;;
      match expression with
      | ExprNil | ExprUnset => throw (errorf "expression kind is not set")
      | ExprLiteral literal =>
          checkLiteralStructure literal depth ;; lift (literalType types literal depth)
      | ExprFactPath path =>
          text path true ;;
          typeName ← lift (ofOption (env_Facts environment !! path) (errorf "unknown fact"));
          lift (parse types typeName false)
      | ExprUnary op operand =>
          operandType ← checkExpression operand (depth + 1);
          lift (unaryType op operandType)
      | ExprBinary op l r =>
          leftType ← checkExpression l (depth + 1);
          rightType ← checkExpression r (depth + 1);
          lift (binaryType op leftType rightType)
      | ExprCall function arguments =>
          text function true ;;
          contract ← lift (callContract function (List.length arguments));
          (fix go l typeNames := match l, typeNames with
           | e :: l, typeName :: typeNames =>
               actual ← checkExpression e (depth + 1);
               guardM (negb (acceptsArgument actual typeName)) (errorf "function argument is incompatible") ;;
               go l typeNames
           | _, _ => mret tt
           end) arguments (fc_ArgumentTypes contract) ;;
          lift (parse types (fc_ReturnType contract) false)
      end
  end.

(** ** Steps *)
Definition checkValue (value : Value) (expected : typeRef) (slots : list typeRef) : checkM unit :=
  match value with
  | ValueNil => throw (invalid "value is nil")
  | ValueUnset => throw (invalid "value kind is not set")
  | ValueLiteral literal =>
      inContext "literal" (checkLiteralStructure literal 1) ;;
      orInvalid "literal type" (literalAssignable types literal expected)
  | ValueFactPath path =>
      text path true ;;
      typeName ← lift (ofOption (env_Facts environment !! path) (invalid "references unknown fact"));
      guardM (negb (match parse types typeName false with
                    | Ok actual => assignable types actual expected
                    | Err _ => false
                    end)) (invalid "fact type is incompatible")
  | ValueResultSlot slot =>
      match slots !! Z.to_nat slot with
      | None => throw (invalid "references non-preceding result slot")
      | Some actual => guardM (negb (assignable types actual expected)) (invalid "result slot type is incompatible")
      end
  end.

Definition expectedRetry (contract : VerbContract) : CheckedRetryPolicy :=
  let r := vc_RetryPolicy contract in
  mkCheckedRetry (rp_MaxAttempts r) (rp_InitialBackoffMillis r) (rp_MaxBackoffMillis r).
Definition expectedIdempotency (contract : VerbContract) : Z :=
  if bool_decide (vc_IdempotencyPolicy contract = IdempotencyKeyRequired) then IDEMPOTENCY_POLICY_KEY_REQUIRED
  else if bool_decide (vc_IdempotencyPolicy contract = IdempotencySinkGuaranteed)
  then IDEMPOTENCY_POLICY_SINK_GUARANTEED
  else IDEMPOTENCY_POLICY_NONE.
Definition expectedFencing (contract : VerbContract) : Z :=
  if vc_FencingRequired contract then FENCING_REQUIREMENT_REQUIRED else FENCING_REQUIREMENT_NONE.

(** A field left unset takes the contract's value; a set field must equal it. *)
Definition freezeOption {A} `{EqDecision A} (field : option A) (expected : A) : result (option A) :=
  match field with
  | None => Ok (Some expected)
  | Some v => failIf (bool_decide (v ≠ expected)) (invalid "policy does not match the verb") ;; Ok field
  end.
Definition freezeEnum (field expected : Z) : result Z :=
  if bool_decide (field = 0) then Ok expected
  else failIf (bool_decide (field ≠ expected)) (invalid "policy does not match the verb") ;; Ok field.

Definition freezeCompensation (step : Step) (contract : VerbContract) (executionPolicy : Z)
    : result (option CompensationContract) :=
  if bool_decide (vc_InverseVerb contract = "") then
    failIf (bool_decide (is_Some (sp_Compensation step))) (invalid "has compensation but the verb has no inverse") ;;
    Ok (sp_Compensation step)
  else
    inverse ← ofOption (env_Verbs environment !! vc_InverseVerb contract) (invalid "references unknown inverse");
    inverseHash ← match ContractHash inverse with
                  | Ok h => Ok h
                  | Err _ => Err (invalid "inverse contract")
                  end;
    let expected := mkCompensation (vc_InverseVerb contract) inverseHash in
    match sp_Compensation step with
    | None => Ok (if bool_decide (executionPolicy = EXECUTION_POLICY_DURABLE_COMPENSATING)
                  then Some expected else None)
    | Some c => failIf (bool_decide (cc_InverseVerb c ≠ vc_InverseVerb contract)
                        || bool_decide (cc_InverseContractHash c ≠ inverseHash))
                  (invalid "compensation does not match the verb") ;; Ok (Some c)
    end.

Definition checkStepPolicies (step : Step) (contract : VerbContract) (executionPolicy : Z) : result Step :=
  retry ← freezeOption (sp_RetryPolicy step) (expectedRetry contract);
  let step := step <| sp_RetryPolicy := retry |> in
  idempotency ← freezeEnum (sp_IdempotencyPolicy step) (expectedIdempotency contract);
  let step := step <| sp_IdempotencyPolicy := idempotency |> in
  fencing ← freezeEnum (sp_FencingRequirement step) (expectedFencing contract);
  let step := step <| sp_FencingRequirement := fencing |> in
  compensation ← freezeCompensation step contract executionPolicy;
  Ok (step <| sp_Compensation := compensation |>).

(** The loop over the arguments of a step. *)
Fixpoint checkArguments (contract : VerbContract) (slots : list typeRef) (previousName : option string)
    (arguments : list Argument) : checkM unit :=
  match arguments with
  | [] => mret tt
  | argument :: arguments =>
      text (arg_Name argument) true ;;
      guardM (match previousName with Some p => negb (strLt p (arg_Name argument)) | None => false end)
        (invalid "arguments are not uniquely ordered by name") ;;
      expectedTypeName ← lift (ofOption (vc_Arguments contract !! arg_Name argument) (invalid "is not declared by the verb"));
      expectedType ← orInvalid "argument type" (parse types expectedTypeName false);
      checkValue (arg_Value argument) expectedType slots ;;
      checkArguments contract slots (Some (arg_Name argument)) arguments
  end.

Definition u32 (z : Z) : Z := z `mod` 2 ^ 32.

(** The result slot a step binds: dense, and never for a void verb. *)
Definition bindSlot (slot : option Z) (resultType : typeRef) (slots : list typeRef) : result (list typeRef) :=
  match slot with
  | None => Ok slots
  | Some n =>
      failIf (match resultType with TVoid => true | _ => false end) (invalid "binds a void result") ;;
      failIf (bool_decide (n ≠ u32 (Z.of_nat (List.length slots)))) (invalid "result_slot is not dense") ;;
      Ok (slots ++ [resultType])
  end.

Definition checkStep (index : nat) (step : Step) (slots : list typeRef) (executionPolicy : Z)
    : checkM (Step * list typeRef) :=
  guardM (bool_decide (sp_Ordinal step ≠ u32 (Z.of_nat index))) (invalid "ordinal") ;;
  text (sp_Id step) true ;;
  stepIDs ← getM ck_stepIDs;
  guardM (bool_decide (sp_Id step ∈ stepIDs)) (invalid "duplicate step id") ;;
  modifyM (λ s, s <| ck_stepIDs := {[sp_Id step]} ∪ ck_stepIDs s |>) ;;
  text (sp_Verb step) true ;;
  contract ← lift (ofOption (env_Verbs environment !! sp_Verb step) (invalid "references unknown verb"));
  expectedHash ← orInvalid "contract" (ContractHash contract);
  guardM (bool_decide (sp_ContractHash step ≠ expectedHash)) (invalid "contract_hash does not match the verb") ;;
  text (sp_ContractHash step) true ;;
  step ← lift (checkStepPolicies step contract executionPolicy);
  guardM (bool_decide (MaxArgumentsPerStep limits < Z.of_nat (List.length (sp_Arguments step))))
    (limitError "arguments") ;;
  checkArguments contract slots None (sp_Arguments step) ;;
  guardM (negb (forallb (λ required, bool_decide (required ∈ arg_Name <$> sp_Arguments step))
                  (default [] (vc_RequiredArgs contract)))) (invalid "is missing a required argument") ;;
  resultType ← orInvalid "result type" (parse types (vc_ResultType contract) true);
  slots ← lift (bindSlot (sp_ResultSlot step) resultType slots);
  mret (step, slots).

(** ** Plans *)
Fixpoint checkSteps (index : nat) (steps : list Step) (slots : list typeRef) (executionPolicy : Z)
    : checkM (list Step) :=
  match steps with
  | [] => mret []
  | step :: steps =>
      '(step, slots) ← checkStep index step slots executionPolicy;
      steps ← checkSteps (S index) steps slots executionPolicy;
      mret (step :: steps)
  end.

Definition checkPlan (plan : Plan) : checkM Plan :=
  text (pl_Id plan) true ;;
  planIDs ← getM ck_planIDs;
  guardM (bool_decide (pl_Id plan ∈ planIDs)) (invalid "duplicate plan id") ;;
  modifyM (λ s, s <| ck_planIDs := {[pl_Id plan]} ∪ ck_planIDs s |>) ;;
  guardM (negb (bool_decide (pl_SourceDialect plan ∈ [SOURCE_DIALECT_LIST; SOURCE_DIALECT_FLOW])))
    (invalid "invalid source_dialect") ;;
  orders ← getM ck_sourceOrders;
  let order := (pl_SourceDialect plan, pl_SourceOrder plan) in
  guardM (bool_decide (order ∈ orders)) (invalid "duplicates source_order") ;;
  modifyM (λ s, s <| ck_sourceOrders := {[order]} ∪ ck_sourceOrders s |>) ;;
  guardM (negb (bool_decide (pl_ExecutionPolicy plan ∈
                  [EXECUTION_POLICY_DURABLE_FAIL_FAST; EXECUTION_POLICY_DURABLE_COMPENSATING])))
    (invalid "invalid execution_policy") ;;
  guardM (match pl_Predicate plan with ExprNil => true | _ => false end) (invalid "predicate is required") ;;
  modifyM (λ s, s <| ck_predicateNodes := 0 |>) ;;
  predicateType ← inContext "predicate" (checkExpression (pl_Predicate plan) 1);
  guardM (match predicateType with TBool => false | _ => true end) (invalid "predicate is not bool") ;;
  let count := Z.of_nat (List.length (pl_Steps plan)) in
  guardM (bool_decide (MaxStepsPerPlan limits < count)) (limitError "plan steps") ;;
  modifyM (λ s, s <| ck_stepCount := ck_stepCount s + count |>) ;;
  stepCount ← getM ck_stepCount;
  guardM (bool_decide (MaxSteps limits < stepCount)) (limitError "steps") ;;
  steps ← checkSteps 0 (pl_Steps plan) [] (pl_ExecutionPolicy plan);
  mret (plan <| pl_Steps := steps |>).

Definition comparePlans (left right : Plan) : Z :=
  if bool_decide (pl_SourceDialect left ≠ pl_SourceDialect right)
  then pl_SourceDialect left - pl_SourceDialect right
  else if bool_decide (pl_Priority left ≠ pl_Priority right)
  then if bool_decide (pl_Priority right < pl_Priority left) then -1 else 1
  else if bool_decide (pl_SourceOrder left ≠ pl_SourceOrder right)
  then if bool_decide (pl_SourceOrder left < pl_SourceOrder right) then -1 else 1
  else strCompare (pl_Id left) (pl_Id right).

Fixpoint checkPlans (previous : option Plan) (plans : list Plan) : checkM (list Plan) :=
  match plans with
  | [] => mret []
  | plan :: plans =>
      guardM (match previous with Some p => bool_decide (0 ≤ comparePlans p plan) | None => false end)
        (invalid "plans are not in canonical dialect, priority, and source order") ;;
      plan ← checkPlan plan;
      plans ← checkPlans (Some plan) plans;
      mret (plan :: plans)
  end.

Definition check (artifact : RuleArtifact) : checkM RuleArtifact :=
  guardM (bool_decide (ra_FormatVersion artifact ≠ FormatVersion)) (invalid "format_version") ;;
  compiler ← lift (ofOption (ra_Compiler artifact) (invalid "compiler metadata is required"));
  text (cm_Name compiler) true ;;
  text (cm_Version compiler) true ;;
  lift (checkDigest (cm_BuildDigest compiler)) ;;
  text (cm_BuildDigest compiler) true ;;
  expected ← orInvalid "environment digest" (EnvironmentDigest environment);
  guardM (bool_decide (ra_EnvironmentDigest artifact ≠ expected))
    (invalid "environment_digest does not match the supplied environment") ;;
  text (ra_EnvironmentDigest artifact) true ;;
  guardM (bool_decide (MaxPlans limits < Z.of_nat (List.length (ra_Plans artifact)))) (limitError "plans") ;;
  plans ← checkPlans None (ra_Plans artifact);
  mret (artifact <| ra_Plans := plans |>).
End ArtifactChecker.

(** [CanonicalPlanOrder]: a stable sort by [comparePlans]. *)
Definition planLe (a b : Plan) : Prop := comparePlans b a >= 0.
#[global] Instance planLe_dec a b : Decision (planLe a b).
Proof. unfold planLe. apply _. Defined.
Definition CanonicalPlanOrder (plans : list Plan) : list Plan := merge_sort planLe plans.

(** ** Entry points

    [Checked] holds the encoding of the checked clone; [Check] also returns the
    clone itself, the artifact that [CloneArtifact] decodes. *)
Record Checked : Type := mkChecked {
  wire : string;
  digest : string;
  planCount : Z;
  stepCount : Z;
  artifactLen : Z }.

Section Protobuf.
  (** [proto.Size], the test of [rejectUnknownFields], and the deterministic
      encoding and decoding of an artifact. *)
  Context (protoSize : RuleArtifact → Z) (unknownFields : RuleArtifact → bool)
    (protoMarshal : RuleArtifact → option string) (protoUnmarshal : string → option RuleArtifact).

Definition Check (artifact : option RuleArtifact) (environment : Environment) (limits : Limits)
    : result (Checked * RuleArtifact) :=
  limits ← withDefaults limits;
  artifact ← ofOption artifact (invalid "artifact is nil");
  failIf (bool_decide (MaxArtifactBytes limits < protoSize artifact)) (limitError "artifact bytes") ;;
  failIf (unknownFields artifact) (invalid "protobuf contains unknown fields") ;;
  environment ← match normalizeEnvironment environment with
                | Ok e => Ok e
                | Err _ => Err (invalid "environment")
                end;
  '(clone, state) ← check environment limits artifact initialCheck;
  wire ← ofOption (protoMarshal clone) (invalid "encode canonical protobuf");
  failIf (bool_decide (MaxArtifactBytes limits < strlen wire)) (limitError "artifact bytes") ;;
  Ok (mkChecked wire (sha256hex (bytes wire)) (Z.of_nat (List.length (ra_Plans clone)))
        (ck_stepCount state) (strlen wire), clone).

Definition Parse (data : string) (environment : Environment) (limits : Limits)
    : result (Checked * RuleArtifact) :=
  limits ← withDefaults limits;
  failIf (bool_decide (MaxArtifactBytes limits < strlen data)) (limitError "artifact bytes") ;;
  artifact ← ofOption (protoUnmarshal data) (invalid "decode protobuf");
  Check (Some artifact) environment limits.
End Protobuf.
