(* ===== verification/Value.v ===== *)
(** * Runtime values and their normalization ([ir/value.go])

    [any] is a Go [interface{}] value by its dynamic type. A signed integer of any
    width is [AInt], an unsigned one [AUint]; a [float32] converts to [float64]
    exactly and is [AFloat] like one; [ANumber] is a [json.Number], a valid JSON
    number as the decoder produces it; [AList] is a [[]any] and [AMap] a
    [map[string]any], listed by strictly increasing key. Other dynamic types are
    [AOther]. *)

From S2P Require Import Prelude GoText Json Ir Types Env.
From Stdlib Require Import ZArith NArith QArith Ascii String.
Local Open Scope list_scope.
Local Open Scope Z_scope.

Set Warnings "-register-all".
Inductive any : Type :=
  | ANil
  | ABool (b : bool)
  | AInt (i : Z)
  | AUint (u : Z)
  | AFloat (f : spec_float)
  | ANumber (text : string)
  | AString (s : string)
  | ABytes (s : string)
  | AList (items : list any)
  | AMap (entries : list (string * any))
  | AOther.

(** [m[k] = v] on entries kept by increasing key. *)
Fixpoint mapPut {A} (k : string) (v : A) (entries : list (string * A)) : list (string * A) :=
  match entries with
  | [] => [(k, v)]
  | (k', v') :: rest =>
      if bool_decide (k = k') then (k, v) :: rest
      else if strLt k k' then (k, v) :: entries
      else (k', v') :: mapPut k v rest
  end.

(** ** base64.StdEncoding *)
Definition b64Char (n : N) : ascii :=
  if bool_decide (n < 26)%N then ascii_of_N (65 + n)
  else if bool_decide (n < 52)%N then ascii_of_N (71 + n)
  else if bool_decide (n < 62)%N then ascii_of_N (n - 4)
  else if bool_decide (n = 62)%N then "+"%char else "/"%char.
Definition b64Val (a : ascii) : option N :=
  if byteIn 65 90 a then Some (byteN a - 65)%N
  else if byteIn 97 122 a then Some (byteN a - 71)%N
  else if byteIn 48 57 a then Some (byteN a + 4)%N
  else if byteIs 43 a then Some 62%N
  else if byteIs 47 a then Some 63%N else None.

Fixpoint b64Encode (l : list ascii) : list ascii :=
  match l with
  | [] => []
  | [a] => let n := (byteN a * 65536)%N in
           [b64Char (n / 262144); b64Char (n / 4096 mod 64); "="%char; "="%char]
  | [a; b] => let n := (byteN a * 65536 + byteN b * 256)%N in
              [b64Char (n / 262144); b64Char (n / 4096 mod 64); b64Char (n / 64 mod 64); "="%char]
  | a :: b :: c :: l =>
      let n := (byteN a * 65536 + byteN b * 256 + byteN c)%N in
      b64Char (n / 262144) :: b64Char (n / 4096 mod 64) :: b64Char (n / 64 mod 64) :: b64Char (n mod 64)
        :: b64Encode l
  end.
Definition EncodeToString (s : string) : string := ofBytes (b64Encode (bytes s)).

(** The strict decoder, on input without the line breaks it skips: padding is
    required and the unused bits of the last quantum are zero. *)
Fixpoint b64Decode (l : list ascii) : option (list ascii) :=
  match l with
  | [] => Some []
  | a :: b :: c :: d :: rest =>
      x ← b64Val a; y ← b64Val b;
      if byteIs 61 c then
        if byteIs 61 d && bool_decide (rest = []) && bool_decide (y mod 16 = 0)%N
        then Some [ascii_of_N (x * 4 + y / 16)] else None
      else
        z ← b64Val c;
        if byteIs 61 d then
          if bool_decide (rest = []) && bool_decide (z mod 4 = 0)%N
          then Some [ascii_of_N (x * 4 + y / 16); ascii_of_N (y mod 16 * 16 + z / 4)] else None
        else
          w ← b64Val d; tail ← b64Decode rest;
          Some (ascii_of_N (x * 4 + y / 16) :: ascii_of_N (y mod 16 * 16 + z / 4)
                  :: ascii_of_N (z mod 4 * 64 + w) :: tail)
  | _ => None
  end%N.
Definition DecodeString (s : string) : option string :=
  ofBytes <$> b64Decode (List.filter (λ a, negb (byteIs 10 a || byteIs 13 a)) (bytes s)).

(** ** Numbers *)

(** binary64 arithmetic, round to nearest even. *)
Definition fadd : spec_float → spec_float → spec_float := SFadd 53 1024.
Definition fsub : spec_float → spec_float → spec_float := SFsub 53 1024.
Definition fmul : spec_float → spec_float → spec_float := SFmul 53 1024.
Definition fdiv : spec_float → spec_float → spec_float := SFdiv 53 1024.
Definition isFinite (f : spec_float) : bool :=
  match f with S754_nan | S754_infinity _ => false | _ => true end.
(** [float64(z)] *)
Definition floatOfZ (z : Z) : spec_float := binary_normalize 53 1024 z 0 false.
(** The exact value of a finite float: [big.Rat.SetFloat64]. *)
Definition ratOfFloat (f : spec_float) : option Q :=
  match f with
  | S754_zero _ => Some (0 # 1)%Q
  | S754_finite s m e =>
      let m := (if s then - Zpos m else Zpos m) in
      Some (if bool_decide (0 ≤ e) then (m * 2 ^ e) # 1 else m # Z.to_pos (2 ^ (- e)))%Q
  | _ => None
  end.
(** A rational that is an integer, as that integer. *)
Definition intOfRat (q : Q) : option Z :=
  if bool_decide (Qnum q mod Zpos (Qden q) = 0) then Some (Qnum q / Zpos (Qden q)) else None.

(** The value of a run of decimal digits. *)
Definition digitsValue (l : list ascii) : Z :=
  fold_left (λ n a, 10 * n + (Z.of_N (byteN a) - 48)) l 0.
Definition isMinus (a : ascii) : bool := byteIs 45 a.

(** The parts of a JSON number: its sign, its digits with the point removed, the power
    of ten they are scaled by, and the exponent as written (0 when there is none). *)
Record decimal : Type := mkDecimal {
  dec_negative : bool; dec_digits : Z; dec_exponent : Z; dec_written : Z }.
Definition exponentValue (l : list ascii) : Z :=
  match l with
  | _ :: a :: digits =>
      if isMinus a then - digitsValue digits
      else if byteIs 43 a then digitsValue digits else digitsValue (a :: digits)
  | _ => 0
  end.
Definition parseDecimal (text : string) : option decimal :=
  let l := bytes text in
  let '(negative, l) := match l with a :: r => if isMinus a then (true, r) else (false, l) | [] => (false, l) end in
  '(int, l) ← scanInt l;
  '(frac, l) ← scanFrac l;
  '(exp, l) ← scanExp l;
  match l with
  | [] => let frac := drop 1 frac in
          Some (mkDecimal negative (digitsValue (int ++ frac))
                  (exponentValue exp - Z.of_nat (List.length frac)) (exponentValue exp))
  | _ :: _ => None
  end.
Definition ratOfDecimal (d : decimal) : Q :=
  let m := if dec_negative d then - dec_digits d else dec_digits d in
  if bool_decide (0 ≤ dec_exponent d) then (m * 10 ^ dec_exponent d # 1)%Q
  else (m # Z.to_pos (10 ^ (- dec_exponent d)))%Q.

(** [json.Number.Float64]: correctly rounded, an error when out of range. *)
Definition Float64 (text : string) : option spec_float :=
  d ← parseDecimal text;
  let f :=
    if bool_decide (dec_digits d = 0) then S754_zero (dec_negative d)
    else let q := ratOfDecimal d in
         match Qnum q with
         | Z0 => S754_zero (dec_negative d)
         | Zpos m => fdiv (S754_finite false m 0) (S754_finite false (Qden q) 0)
         | Zneg m => fdiv (S754_finite true m 0) (S754_finite false (Qden q) 0)
         end in
  if isFinite f then Some f else None.

(** Bounds the exponent before the exact rational is built. *)
Definition exactJSONNumber (text : string) : result Q :=
  failIf (bool_decide (1024 < strlen text) || negb (Valid text)) (errorf "invalid JSON number") ;;
  d ← ofOption (parseDecimal text) (errorf "invalid JSON number");
  failIf (bool_decide (dec_written d < -400) || bool_decide (400 < dec_written d))
    (errorf "number exponent out of range") ;;
  Ok (ratOfDecimal d).

(** ** Normalization *)
Definition normalizeInt (value : any) : option Z :=
  match value with
  | ANumber text =>
      match exactJSONNumber text with
      | Ok q => z ← intOfRat q; if isInt64 z then Some z else None
      | Err _ => None
      end
  | AInt i => Some i
  | AUint u => if bool_decide (u ≤ MaxInt64) then Some u else None
  | AFloat f => z ← (ratOfFloat f ≫= intOfRat); if isInt64 z then Some z else None
  | _ => None
  end.

Definition normalizeFloat (value : any) : option spec_float :=
  f ← match value with
      | ANumber text => match exactJSONNumber text with Ok _ => Float64 text | Err _ => None end
      | AInt i => Some (floatOfZ i)
      | AUint u => Some (floatOfZ u)
      | AFloat f => Some f
      | _ => None
      end;
  if isFinite f then Some f else None.

(** The scalar branches of [normalizeValue]. *)
Definition normalizeScalar (resolved : typeRef) (value : any) : result any :=
  let mismatch := Err (errorf "value does not match its type") in
  match resolved with
  | TNull => match value with ANil => Ok ANil | _ => mismatch end
  | TBool => match value with ABool b => Ok (ABool b) | _ => mismatch end
  | TString => match value with
               | AString s => if ValidUTF8 s then Ok (AString s) else mismatch
               | _ => mismatch
               end
  | TBytes => match value with
              | ABytes s => Ok (AString (EncodeToString s))
              | AString s =>
                  match DecodeString s with
                  | Some decoded =>
                      failIf (bool_decide (EncodeToString decoded ≠ s)) (errorf "bytes must be canonical padded base64") ;;
                      Ok (AString s)
                  | None => Err (errorf "bytes must be canonical padded base64")
                  end
              | _ => mismatch
              end
  | TInt => match normalizeInt value with Some i => Ok (AInt i) | None => mismatch end
  | TFloat => match normalizeFloat value with Some f => Ok (AFloat f) | None => mismatch end
  | _ => mismatch
  end.

(** The loops of [normalizeValue]: in order, threading the node counter. *)
Definition mapNodes {A B} (f : A → Z → result (B * Z)) : list A → Z → result (list B * Z) :=
  fix go l nodes := match l with
  | [] => Ok ([], nodes)
  | a :: l => '(b, nodes) ← f a nodes; '(l, nodes) ← go l nodes; Ok (b :: l, nodes)
  end.

Section NormalizeValue.
  Context (types : gmap string TypeDefinition).

(** Entry of [normalizeValue]: count the node, test the bounds, resolve the type. *)
Definition enterNode (ref : typeRef) (depth nodes : Z) : result typeRef :=
  failIf (bool_decide (64 < depth) || bool_decide (10000 < nodes)) (errorf "value depth or node limit exceeded") ;;
  resolve types ref.

(** [normalizeValue] on an element of a [[]byte] given for a list. *)
Definition normalizeByteItem (ref : typeRef) (a : ascii) (depth nodes : Z) : result (any * Z) :=
  let nodes := nodes + 1 in
  resolved ← enterNode ref depth nodes;
  v ← normalizeScalar resolved (AUint (Z.of_N (byteN a)));
  Ok (v, nodes).

Definition tooMany {A} (l : list A) : result unit :=
  failIf (bool_decide (10000 < Z.of_nat (List.length l))) (errorf "item limit exceeded").

(** Threads [*nodes] and returns it beside the normalized copy. *)
Fixpoint normalizeValue (ref : typeRef) (value : any) (depth nodes : Z) : result (any * Z) :=
  let nodes := nodes + 1 in
  resolved ← enterNode ref depth nodes;
  match resolved, value with
  | TList _ element, AList items =>
      tooMany items ;;
      '(items, nodes) ← mapNodes (λ v nodes, normalizeValue element v (depth + 1) nodes) items nodes;
      Ok (AList items, nodes)
  | TList _ element, ABytes s =>
      tooMany (bytes s) ;;
      '(items, nodes) ← mapNodes (λ a nodes, normalizeByteItem element a (depth + 1) nodes) (bytes s) nodes;
      Ok (AList items, nodes)
  | TMap _ element, AMap entries =>
      tooMany entries ;;
      '(entries, nodes) ← mapNodes (λ p nodes,
          failIf (negb (ValidUTF8 p.1)) (errorf "field name is not valid UTF-8") ;;
          '(v, nodes) ← normalizeValue element p.2 (depth + 1) nodes;
          Ok ((p.1, v), nodes)) entries nodes;
      Ok (AMap entries, nodes)
  | TObject typeName fields, AMap entries =>
      tooMany entries ;;
      '(entries, nodes) ← mapNodes (λ p nodes,
          failIf (negb (ValidUTF8 p.1)) (errorf "field name is not valid UTF-8") ;;
          match fieldOf fields p.1 with
          | None => Err (errorf "unknown field")
          | Some expected =>
              '(v, nodes) ← normalizeValue expected p.2 (depth + 1) nodes;
              Ok ((p.1, v), nodes)
          end) entries nodes;
      failIf (negb (forallb (λ required, bool_decide (required ∈ entries.*1)) (requiredFieldsOf types typeName)))
        (errorf "missing required field") ;;
      Ok (AMap entries, nodes)
  | _, _ => v ← normalizeScalar resolved value; Ok (v, nodes)
  end.
End NormalizeValue.

Definition NormalizeValue (environment : Environment) (typeName : string) (value : any) : result any :=
  environment ← match normalizeEnvironment environment with Ok e => Ok e | Err _ => Err (errorf "environment") end;
  ref ← parse (env_Types environment) typeName false;
  '(v, _) ← normalizeValue (env_Types environment) ref value 0 0;
  Ok v.
