(* ===== verification/Eval.v ===== *)
(** * Evaluating checked predicates ([runtime/checked_workflow.go])

    The expression evaluator, the literal and argument resolver, and the lookup of
    facts by path. [regexp.MatchString] is an argument of the evaluator. *)

From S2P Require Import Prelude GoText Json Ir Types Env Value.
From Stdlib Require Import ZArith NArith QArith Ascii String.
Local Open Scope list_scope.
Local Open Scope Z_scope.

(** ** Numbers *)
Definition emptyEnvironment : Environment := mkEnvironment ∅ ∅ ∅ ∅.

Definition checkedInteger (value : any) : option Z :=
  match value with
  | AInt i => Some i
  | AUint u => if bool_decide (u ≤ MaxInt64) then Some u else None
  | ANumber _ =>
      match NormalizeValue emptyEnvironment "int" value with Ok (AInt i) => Some i | _ => None end
  | _ => None
  end.

Definition checkedFloat (value : any) : option spec_float :=
  match checkedInteger value with
  | Some integer => Some (floatOfZ integer)
  | None =>
      match value with
      | AFloat f => if isFinite f then Some f else None
      | ANumber text => Float64 text
      | _ => None
      end
  end.

Definition checkedRational (value : any) : option Q :=
  match checkedInteger value with
  | Some integer => Some (integer # 1)%Q
  | None => checkedFloat value ≫= ratOfFloat
  end.

(** [big.Rat.Cmp] *)
Definition ratCmp (a b : Q) : Z :=
  match (a ?= b)%Q with Lt => -1 | Eq => 0 | Gt => 1 end.

Definition checkedIntResult (value : Z) : result any :=
  if isInt64 value then Ok (AInt value) else Err (errorf "integer arithmetic overflow").
Definition checkedFloatResult (value : spec_float) : result any :=
  if isFinite value then Ok (AFloat value) else Err (errorf "floating arithmetic overflow").

(** [leftFloat == 0] *)
Definition isFloatZero (f : spec_float) : bool := match f with S754_zero _ => true | _ => false end.

Definition floatArithmetic (operator : BinaryOperator) (l r : any) : result any :=
  match checkedFloat l, checkedFloat r with
  | Some leftFloat, Some rightFloat =>
      match operator with
      | OpAdd => checkedFloatResult (fadd leftFloat rightFloat)
      | OpSubtract => checkedFloatResult (fsub leftFloat rightFloat)
      | OpMultiply => checkedFloatResult (fmul leftFloat rightFloat)
      | OpDivide =>
          if isFloatZero rightFloat then Err (errorf "division by zero")
          else checkedFloatResult (fdiv leftFloat rightFloat)
      | _ => Err (errorf "modulo requires integer operands")
      end
  | _, _ => Err (errorf "arithmetic operands must be numeric")
  end.

Definition checkedArithmetic (operator : BinaryOperator) (l r : any) : result any :=
  match checkedInteger l, checkedInteger r with
  | Some leftInt, Some rightInt =>
      match operator with
      | OpAdd => checkedIntResult (leftInt + rightInt)
      | OpSubtract => checkedIntResult (leftInt - rightInt)
      | OpMultiply => checkedIntResult (leftInt * rightInt)
      | OpModulo =>
          if bool_decide (rightInt = 0) then Err (errorf "modulo by zero") else Ok (AInt (Z.rem leftInt rightInt))
      | _ => floatArithmetic operator l r
      end
  | _, _ => floatArithmetic operator l r
  end.

(** ** Equality and order *)

(** [reflect.DeepEqual] on the values [checkedEqual] leaves to it: those that are
    neither numbers nor both lists or both maps. Floats that reach it are not finite. *)
Definition deepEqual (l r : any) : bool :=
  match l, r with
  | ANil, ANil => true
  | ABool a, ABool b => bool_decide (a = b)
  | AInt a, AInt b | AUint a, AUint b => bool_decide (a = b)
  | AFloat (S754_infinity a), AFloat (S754_infinity b) => bool_decide (a = b)
  | ANumber a, ANumber b | AString a, AString b | ABytes a, ABytes b => bool_decide (a = b)
  | _, _ => false
  end.

Fixpoint checkedEqual (l r : any) : bool :=
  match checkedRational l with
  | Some ql => match checkedRational r with
               | Some qr => bool_decide (ratCmp ql qr = 0)
               | None => false
               end
  | None =>
      match l with
      | AList ls =>
          match r with
          | AList rs =>
              bool_decide (List.length ls = List.length rs)
              && (fix go ls rs := match ls, rs with
                  | l :: ls, r :: rs => checkedEqual l r && go ls rs
                  | _, _ => true
                  end) ls rs
          | _ => false
          end
      | AMap ls =>
          match r with
          | AMap rs =>
              bool_decide (List.length ls = List.length rs)
              && (fix go (ls : list (string * any)) := match ls with
                  | [] => true
                  | (key, value) :: ls =>
                      match fieldOf rs key with
                      | Some other => checkedEqual value other && go ls
                      | None => false
                      end
                  end) ls
          | _ => false
          end
      | _ => deepEqual l r
      end
  end.

Definition checkedContains (container item : any) : result bool :=
  match container with
  | AString text =>
      match item with
      | AString value => Ok (Contains text value)
      | _ => Err (errorf "string contains requires string")
      end
  | AList items => Ok (existsb (λ x, checkedEqual x item) items)
  | ABytes s => Ok (existsb (λ a, checkedEqual (AUint (Z.of_N (byteN a))) item) (bytes s))
  | _ => Err (errorf "contains operand is not a collection")
  end.

Definition compareCheckedValues (l r : any) : result Z :=
  match l with
  | AString leftString =>
      match r with
      | AString rightString => Ok (strCompare leftString rightString)
      | _ => Err (errorf "comparison operands differ")
      end
  | _ =>
      match checkedRational l, checkedRational r with
      | Some leftNumber, Some rightNumber => Ok (ratCmp leftNumber rightNumber)
      | _, _ => Err (errorf "comparison operands must be numeric or string")
      end
  end.

(** ** Facts *)

(** [lookupWorkflowFact]'s walk: the segments between dots, a trailing empty one dropped. *)
Fixpoint segmentsFrom (current : list ascii) (l : list ascii) : list string :=
  match l with
  | [] => match current with [] => [] | _ => [ofBytes (rev current)] end
  | a :: l => if byteIs 46 a then ofBytes (rev current) :: segmentsFrom [] l else segmentsFrom (a :: current) l
  end.
Definition segments (path : string) : list string := segmentsFrom [] (bytes path).
Fixpoint walk (current : any) (path : list string) : option any :=
  match path with
  | [] => Some current
  | name :: path =>
      match current with
      | AMap entries => fieldOf entries name ≫= λ next, walk next path
      | _ => None
      end
  end.
Definition lookupWorkflowFact (facts : list (string * any)) (path : string) : option any :=
  match fieldOf facts path with
  | Some value => Some value
  | None => walk (AMap facts) (segments path)
  end.

(** [orderedWorkflowFactKeys]: keys without a dot first, then by name. *)
Definition dotted (key : string) : bool := Contains key ".".
Definition factKeyBefore (l r : string) : bool :=
  if bool_decide (dotted l ≠ dotted r) then negb (dotted l) else strLt l r.
Definition factKeyLe {A} (l r : string * A) : Prop := factKeyBefore r.1 l.1 = false.
#[global] Instance factKeyLe_dec {A} (l r : string * A) : Decision (factKeyLe l r).
Proof. unfold factKeyLe. apply _. Defined.
Definition orderedWorkflowFactKeys {A} (object : list (string * A)) : list (string * A) :=
  merge_sort factKeyLe object.

Definition joinPath (prefix key : string) : string :=
  if bool_decide (prefix ≠ "") then prefix +:+ "." +:+ key else key.

(** The assignments [flattenWorkflowFact] makes to its target, in order, as a
    function of the prefix. *)
Fixpoint flattenAssignments (value : any) : string → list (string * any) :=
  match value with
  | AMap entries =>
      let children := (fix go (l : list (string * any)) := match l with
                       | [] => []
                       | (key, child) :: l => (key, (child, flattenAssignments child)) :: go l
                       end) entries in
      λ prefix, orderedWorkflowFactKeys children ≫= λ c : string * (any * (string → list (string * any))),
        (joinPath prefix c.1, c.2.1) :: c.2.2 (joinPath prefix c.1)
  | _ => λ _, []
  end.
Definition assignAll (target : list (string * any)) (assignments : list (string * any)) : list (string * any) :=
  fold_left (λ t a, mapPut a.1 a.2 t) assignments target.
Definition flattenWorkflowFact (target : list (string * any)) (prefix : string) (value : any)
    : list (string * any) := assignAll target (flattenAssignments value prefix).

Definition mergeWorkflowFactOverrides (target overrides : list (string * any)) : list (string * any) :=
  fold_left (λ target o, flattenWorkflowFact (mapPut o.1 o.2 target) o.1 o.2)
    (orderedWorkflowFactKeys overrides) target.

(** ** Literals and arguments *)
Fixpoint checkedLiteralValue (literal : Literal) : result any :=
  match literal with
  | LitNil => Err (errorf "literal is nil")
  | LitUnset => Err (errorf "literal kind is not set")
  | LitNull _ => Ok ANil
  | LitBool b => Ok (ABool b)
  | LitInt i => Ok (AInt i)
  | LitDouble d => Ok (AFloat d)
  | LitString s => Ok (AString s)
  | LitBytes s => Ok (AString (EncodeToString s))
  | LitList values =>
      items ← (fix go l := match l with
                | [] => Ok []
                | v :: l => v ← checkedLiteralValue v; l ← go l; Ok (v :: l)
                end) values;
      Ok (AList items)
  | LitObject fields =>
      entries ← (fix go object l := match l with
                  | [] => Ok object
                  | (name, v) :: l => resolved ← checkedLiteralValue v; go (mapPut name resolved object) l
                  end) [] fields;
      Ok (AMap entries)
  end.

Definition missingFact : error := wrapf ErrInvalidExecuteRequest "fact is missing".

Definition resolveCheckedWorkflowValue (value : Value) (facts : list (string * any)) (slots : list any)
    : result any :=
  match value with
  | ValueNil => Err (errorf "value is nil")
  | ValueUnset => Err (errorf "value kind is not set")
  | ValueLiteral literal => checkedLiteralValue literal
  | ValueFactPath path => ofOption (lookupWorkflowFact facts path) missingFact
  | ValueResultSlot slot => ofOption (slots !! Z.to_nat slot) (errorf "result slot is unavailable")
  end.

(** ** Expressions *)
Section Evaluator.
  (** [regexp.MatchString(pattern, text)] *)
  Context (matchString : string → string → result bool).

Definition evaluateCheckedBinary (operator : BinaryOperator) (l r : any) : result any :=
  match operator with
  | OpEqual => Ok (ABool (checkedEqual l r))
  | OpNotEqual => Ok (ABool (negb (checkedEqual l r)))
  | OpAnd => match l, r with
             | ABool a, ABool b => Ok (ABool (a && b))
             | _, _ => Err (errorf "logical operands must be bool")
             end
  | OpOr => match l, r with
            | ABool a, ABool b => Ok (ABool (a || b))
            | _, _ => Err (errorf "logical operands must be bool")
            end
  | OpGreater => comparison ← compareCheckedValues l r; Ok (ABool (bool_decide (0 < comparison)))
  | OpGreaterEqual => comparison ← compareCheckedValues l r; Ok (ABool (bool_decide (0 ≤ comparison)))
  | OpLess => comparison ← compareCheckedValues l r; Ok (ABool (bool_decide (comparison < 0)))
  | OpLessEqual => comparison ← compareCheckedValues l r; Ok (ABool (bool_decide (comparison ≤ 0)))
  | OpContains => b ← checkedContains l r; Ok (ABool b)
  | OpIn => b ← checkedContains r l; Ok (ABool b)
  | OpStartsWith | OpEndsWith | OpMatches =>
      match l, r with
      | AString leftString, AString rightString =>
          match operator with
          | OpStartsWith => Ok (ABool (HasPrefix leftString rightString))
          | OpEndsWith => Ok (ABool (HasSuffix leftString rightString))
          | _ => b ← matchString rightString leftString; Ok (ABool b)
          end
      | _, _ => Err (errorf "string operands are required")
      end
  | OpAdd =>
      match l with
      | AString leftString =>
          match r with
          | AString rightString => Ok (AString (leftString +:+ rightString))
          | _ => Err (errorf "string add requires string operands")
          end
      | _ => checkedArithmetic operator l r
      end
  | OpSubtract | OpMultiply | OpDivide | OpModulo => checkedArithmetic operator l r
  | OpBinaryOther _ => Err (errorf "unsupported binary operator")
  end.

Definition evaluateCheckedUnary (operator : UnaryOperator) (value : any) : result any :=
  match operator with
  | OpNot => match value with ABool b => Ok (ABool (negb b)) | _ => Err (errorf "not operand is not a bool") end
  | OpNegate =>
      match checkedInteger value with
      | Some integer =>
          if bool_decide (integer = MinInt64) then Err (errorf "integer negation overflow") else Ok (AInt (- integer))
      | None =>
          match checkedFloat value with
          | Some floating => Ok (AFloat (SFopp floating))
          | None => Err (errorf "negate operand is not numeric")
          end
      end
  | OpUnaryOther _ => Err (errorf "unsupported unary operator")
  end.

(** Short-circuits of the logical operators. *)
Definition shortCircuit (operator : BinaryOperator) (l : any) : option any :=
  match operator, l with
  | OpAnd, ABool false => Some (ABool false)
  | OpOr, ABool true => Some (ABool true)
  | _, _ => None
  end.

Fixpoint evaluateCheckedExpression (expression : Expression) (facts : list (string * any)) : result any :=
  match expression with
  | ExprNil => Err (errorf "expression is nil")
  | ExprUnset => Err (errorf "expression kind is not set")
  | ExprLiteral literal => checkedLiteralValue literal
  | ExprFactPath path => ofOption (lookupWorkflowFact facts path) missingFact
  | ExprUnary operator operand =>
      value ← evaluateCheckedExpression operand facts; evaluateCheckedUnary operator value
  | ExprBinary operator l r =>
      left ← evaluateCheckedExpression l facts;
      match shortCircuit operator left with
      | Some result => Ok result
      | None =>
          right ← evaluateCheckedExpression r facts;
          evaluateCheckedBinary operator left right
      end
  | ExprCall _ _ => Err (errorf "function calls are not available in an immutable source generation")
  end.

Definition evaluateCheckedPredicate (expression : Expression) (facts : list (string * any)) : result bool :=
  value ← evaluateCheckedExpression expression facts;
  match value with ABool b => Ok b | _ => Err (errorf "predicate is not a bool") end.
End Evaluator.
