(* ===== verification/Admission.v ===== *)
(** * Admission of facts ([runtime/durable_admission.go], [runtime/engine.go])

    How caller-supplied facts become the effective facts of an execution, how the plans
    it runs are selected, and the durable admission record that is built from them.

    [formatFloat] is the text [encoding/json] prints for a finite float64, and
    [matchString] is [regexp.MatchString]. *)

From S2P Require Import Prelude GoText Sha256 Json Workflow Identity Ledger Ir Types Env Value Eval.
From Stdlib Require Import ZArith NArith Ascii String.
From stdpp Require Import pretty.
Local Open Scope list_scope.
Local Open Scope Z_scope.

(** A decoded JSON value, numbers kept as [json.Number]. *)
Fixpoint ofJSON (j : json) : any :=
  match j with
  | JNull => ANil
  | JBool b => ABool b
  | JNum s => ANumber s
  | JStr s => AString s
  | JArr items => AList (ofJSON <$> items)
  | JObj fields => AMap ((λ f, (f.1, ofJSON f.2)) <$> fields)
  | JUnsupported => AOther
  end.

Definition decodeCheckedWorkflowResult (raw : string) : result any :=
  if bool_decide (raw = "") then Ok ANil
  else ofJSON <$> ofOption (Decode raw) (errorf "decode result").

Record AdmissionRequest : Type := mkAdmissionRequest {
  ad_ExecutionID : string;
  ad_AdmissionID : string;
  ad_TenantNamespace : string;
  ad_Ruleset : string;
  ad_Version : string;
  ad_Facts : list (string * any);
  ad_MergePolicy : string;
  ad_ExpectedGenerationDigest : string }.

(** What admission reads of a generation: its normalized declarations, the plans of its
    checked artifact, the digest of the artifact, and its durable form. *)
Record Generation : Type := mkGeneration {
  gn_environment : Environment;
  gn_plans : list Plan;
  gn_checkedDigest : string;
  gn_artifact : result ExecutionArtifact }.

Section Admission.
  Context (formatFloat : spec_float → string) (matchString : string → string → result bool).

(** The tree [json.Marshal] walks. *)
Fixpoint toJSON (v : any) : json :=
  match v with
  | ANil => JNull
  | ABool b => JBool b
  | AInt i => JNum (pretty i)
  | AUint u => JNum (pretty u)
  | AFloat f => if isFinite f then JNum (formatFloat f) else JUnsupported
  | ANumber s => JNum s
  | AString s => JStr s
  | ABytes s => JStr (EncodeToString s)
  | AList items => JArr (toJSON <$> items)
  | AMap entries => JObj ((λ e, (e.1, toJSON e.2)) <$> entries)
  | AOther => JUnsupported
  end.

(** [normalizeAdmissionValueDepth]: an owned copy of JSON values only. A scalar is what
    its encoding decodes to. *)
Fixpoint normalizeAdmissionValueDepth (value : any) (depth nodes : Z) : result (any * Z) :=
  let nodes := nodes + 1 in
  failIf (bool_decide (64 < depth) || bool_decide (10000 < nodes))
    (errorf "admission value depth or node limit exceeded") ;;
  match value with
  | ANil => Ok (ANil, nodes)
  | ABytes s => Ok (AString (EncodeToString s), nodes)
  | AMap entries =>
      tooMany entries ;;
      '(entries, nodes) ← mapNodes (λ p nodes,
          '(v, nodes) ← normalizeAdmissionValueDepth p.2 (depth + 1) nodes; Ok ((p.1, v), nodes)) entries nodes;
      Ok (AMap entries, nodes)
  | AList items =>
      tooMany items ;;
      '(items, nodes) ← mapNodes (λ v nodes, normalizeAdmissionValueDepth v (depth + 1) nodes) items nodes;
      Ok (AList items, nodes)
  | AOther => Err (errorf "unsupported value type")
  | _ =>
      data ← ofOption (Marshal (toJSON value)) (errorf "marshal admission value");
      out ← ofOption (Decode data) (errorf "decode admission value");
      Ok (ofJSON out, nodes)
  end.
Definition normalizeAdmissionValue (value : any) : result any :=
  '(v, _) ← normalizeAdmissionValueDepth value 0 0; Ok v.
Definition canonicalJSONValue (value : any) : result string :=
  normalized ← normalizeAdmissionValue value;
  ofOption (Marshal (toJSON normalized)) (errorf "marshal admission value").

(** Decoding into a [map[string]any]: null is the nil map. *)
Definition decodeExecutionFacts (data : string) : result (list (string * any)) :=
  match Decode data with
  | Some (JObj fields) => Ok ((λ f, (f.1, ofJSON f.2)) <$> fields)
  | Some JNull => Ok []
  | _ => Err (errorf "decode frozen execution facts")
  end.

(** The raw facts are embedded as the tree they were printed from. *)
Definition admissionHash (a : AdmissionRequest) : result string :=
  facts ← normalizeAdmissionValue (AMap (ad_Facts a));
  data ← ofOption (Marshal (JObj [("namespace", JStr (ad_TenantNamespace a)); ("ruleset", JStr (ad_Ruleset a));
                                  ("version", JStr (ad_Version a)); ("merge_policy", JStr (ad_MergePolicy a));
                                  ("facts", toJSON facts)])) (errorf "marshal admission");
  Ok (sha256hex (bytes data)).

(** [validateAdmissionFactTypes]: every declared fact that is present is replaced by its
    normal form, in path order. *)
Definition validateFact (environment : Environment) (facts : list (string * any)) (path : string)
    : result (list (string * any)) :=
  match lookupWorkflowFact facts path with
  | None => Ok facts
  | Some value =>
      match NormalizeValue environment (default "" (env_Facts environment !! path)) value with
      | Ok normalized => Ok (mapPut path normalized facts)
      | Err _ => Err (errorf "fact does not have its declared type")
      end
  end.
Definition validateAdmissionFactTypes (environment : Environment) (facts : list (string * any))
    : result (list (string * any)) :=
  foldR (validateFact environment) (sortedKeys (env_Facts environment)) facts.

Definition normalizedWorkflowFacts (environment : Environment) (facts : list (string * any))
    : result (list (string * any)) :=
  copy ← validateAdmissionFactTypes environment facts;
  wire ← canonicalJSONValue (AMap copy);
  owned ← decodeExecutionFacts wire;
  let effective := mergeWorkflowFactOverrides [] owned in
  validateAdmissionFactTypes environment effective.

(** ** The admission record *)

(** The arguments of a step: [arguments[argument.Name] = value]. *)
Definition stepArguments (step : Step) (facts : list (string * any)) (slots : list any)
    : result (list (string * any)) :=
  foldR (λ arguments argument,
           value ← resolveCheckedWorkflowValue (arg_Value argument) facts slots;
           Ok (mapPut (arg_Name argument) value arguments)) (sp_Arguments step) [].

Definition argumentMap (arguments : list (string * any)) : gmap string json :=
  list_to_map ((λ a, (a.1, toJSON a.2)) <$> arguments).

Definition durableInitialStep (plan : Plan) (step : Step) (facts : list (string * any)) (sagaID : string)
    : result (EnqueueStepRequest json) :=
  arguments ← stepArguments step facts [];
  let arguments := Some (argumentMap arguments) in
  let compensation := if bool_decide (pl_ExecutionPolicy plan = EXECUTION_POLICY_DURABLE_COMPENSATING)
                      then sp_Compensation step else None in
  Ok (mkEnqueue sagaID (sp_Id step) 1 (sp_Verb step) (sp_ContractHash step) arguments
        (match compensation with Some c => cc_InverseVerb c | None => "" end)
        (match compensation with Some c => cc_InverseContractHash c | None => "" end)
        (match compensation with Some _ => arguments | None => None end)
        (if bool_decide (sp_FencingRequirement step = FENCING_REQUIREMENT_REQUIRED)
         then [mkRequirement "checked-contract" (sp_Verb step)] else [])).

(** What the loop over the plans has collected. *)
Record admitted : Type := mkAdmitted {
  am_Plans : list ExecutionPlanRecord;
  am_Sagas : list CreateSagaRequest;
  am_InitialSteps : list (EnqueueStepRequest json) }.

Definition admitPlan (ctx : option error) (generation : Generation) (admission : AdmissionRequest)
    (facts : list (string * any)) (acc : admitted) (plan : Plan) : result admitted :=
  ctxErr ctx ;;
  matches ← evaluateCheckedPredicate matchString (pl_Predicate plan) facts;
  if negb matches then Ok acc else
  let sagaID := StableSagaID (ad_ExecutionID admission) (pl_Id plan) in
  let record := mkPlanRecord (ad_ExecutionID admission) (pl_Id plan) sagaID
                  (Z.of_nat (List.length (am_Plans acc))) "selected" in
  let saga := mkCreateSaga (ad_TenantNamespace admission) sagaID (ad_ExecutionID admission) (pl_Id plan)
                (gn_checkedDigest generation) true false in
  initial ← match pl_Steps plan with
            | [] => Ok []
            | step :: _ => request ← durableInitialStep plan step facts sagaID; Ok [request]
            end;
  Ok (mkAdmitted (am_Plans acc ++ [record]) (am_Sagas acc ++ [saga]) (am_InitialSteps acc ++ initial)).

Definition buildDurableAdmission (ctx : option error) (generation : option Generation) (admission : AdmissionRequest)
    (requestHash : string) : result (DurableAdmission * list string * list (string * any)) :=
  generation ← ofOption generation (errorf "checked generation is required");
  artifact ← gn_artifact generation;
  effectiveFacts ← normalizedWorkflowFacts (gn_environment generation) (ad_Facts admission);
  let mergePolicy := if bool_decide (ad_MergePolicy admission = "") then "merge" else ad_MergePolicy admission in
  failIf (negb (bool_decide (mergePolicy ∈ ["merge"; "replace"]))) (errorf "unsupported fact merge policy") ;;
  '(factsJSON, _) ← CanonicalJSON (toJSON (AMap effectiveFacts));
  inputFactsJSON ← canonicalJSONValue (AMap (ad_Facts admission));
  let identity := if bool_decide (ad_AdmissionID admission = "") then ad_ExecutionID admission
                  else ad_AdmissionID admission in
  let record := mkExecution (ad_ExecutionID admission) identity requestHash (ad_Ruleset admission)
    (ad_Version admission) (ad_TenantNamespace admission) mergePolicy (ar_GenerationDigest artifact) factsJSON
    (ExecutionOther "") 0 "" "" zeroTime "" zeroTime zeroTime [] in
  plans ← foldR (admitPlan ctx generation admission effectiveFacts) (gn_plans generation) (mkAdmitted [] [] []);
  Ok (mkAdmission artifact record
        (mkFactApplication (ad_ExecutionID admission) identity mergePolicy inputFactsJSON 1)
        (am_Plans plans) (am_Sagas plans) (am_InitialSteps plans),
      pr_PlanID <$> am_Plans plans, effectiveFacts).
End Admission.
