(* ===== verification/CheckLemmas.v ===== *)
(** * Reasoning about the checker

    Inversion of the checker's monad, the base64 round trip, and the pure properties a
    literal has once [checkLiteralStructure] has accepted it. *)

From S2P Require Import Prelude GoText Sha256 Json Ir Types Env Check Value Eval.
From Stdlib Require Import ZArith NArith Ascii String Lia.
Local Open Scope list_scope.
Local Open Scope Z_scope.

(** ** Inversion *)
Lemma checkM_bind_Ok {A B} (m : checkM A) (f : A → checkM B) s r :
  (m ≫= f) s = Ok r ↔ ∃ a s', m s = Ok (a, s') ∧ f a s' = Ok r.
Proof. unfold mbind, checkM_bind. destruct (m s) as [[a s']|]; naive_solver. Qed.
Lemma guardM_Ok b e s r : guardM b e s = Ok r ↔ b = false ∧ r = (tt, s).
Proof. unfold guardM, lift. destruct b; cbn; naive_solver. Qed.
Lemma lift_Ok {A} (x : result A) s r : lift x s = Ok r ↔ ∃ a, x = Ok a ∧ r = (a, s).
Proof. unfold lift. destruct x; naive_solver. Qed.
Lemma orInvalid_Ok {A} t (x : result A) s r : orInvalid t x s = Ok r ↔ ∃ a, x = Ok a ∧ r = (a, s).
Proof. unfold orInvalid. destruct x; naive_solver. Qed.
Lemma inContext_Ok {A} t (m : checkM A) s r : inContext t m s = Ok r ↔ m s = Ok r.
Proof. unfold inContext. destruct (m s); naive_solver. Qed.
Lemma mret_Ok {A} (a : A) s r : (mret a : checkM A) s = Ok r ↔ r = (a, s).
Proof. unfold mret, checkM_ret. naive_solver. Qed.

Ltac split_pair H := first [injection H as ? ? | subst].
(** [inv_check] decomposes successful runs of the checker. *)
Ltac inv_check_step :=
  match goal with
  | H : (_ ≫= _) _ = Ok _ |- _ => apply checkM_bind_Ok in H as (? & ? & ? & H)
  | H : guardM _ _ _ = Ok _ |- _ => apply guardM_Ok in H as [? H]; split_pair H
  | H : lift _ _ = Ok _ |- _ => apply lift_Ok in H as (? & ? & H); split_pair H
  | H : orInvalid _ _ _ = Ok _ |- _ => apply orInvalid_Ok in H as (? & ? & H); split_pair H
  | H : inContext _ _ _ = Ok _ |- _ => apply inContext_Ok in H
  | H : modifyM _ _ = Ok _ |- _ => unfold modifyM in H; split_pair H
  | H : getM _ _ = Ok _ |- _ => unfold getM in H; split_pair H
  | H : mret _ _ = Ok _ |- _ => apply mret_Ok in H; split_pair H
  | H : throw _ _ = Ok _ |- _ => discriminate H
  | u : unit |- _ => destruct u
  end.
Ltac inv_check := repeat (inv_check_step; subst).

(** [run_check] replays a run of the checker whose steps are in the context. *)
Ltac run_check_step :=
  first
    [ eassumption
    | reflexivity
    | apply guardM_Ok; split; [eassumption|reflexivity]
    | apply lift_Ok; eexists; split; [eassumption|reflexivity]
    | apply orInvalid_Ok; eexists; split; [eassumption|reflexivity]
    | apply inContext_Ok; eassumption ].
Ltac run_check := repeat (apply checkM_bind_Ok; eexists _, _; split; [run_check_step|]); try run_check_step.

(** ** base64 *)
Lemma b64Val_Char n : (n < 64)%N → b64Val (b64Char n) = Some n.
Proof.
  intros H. assert (n ∈ (N.of_nat <$> seq 0 64)) as Hin.
  { apply list_elem_of_fmap. exists (N.to_nat n). split; [lia|]. apply elem_of_seq. lia. }
  revert Hin. clear H. cbn. intros H.
  repeat (apply elem_of_cons in H as [->|H]; [vm_compute; reflexivity|]). by apply elem_of_nil in H.
Qed.
Lemma b64Char_plain n : (n < 64)%N →
  byteIs 61 (b64Char n) = false ∧ byteIs 10 (b64Char n) = false ∧ byteIs 13 (b64Char n) = false.
Proof.
  intros H. pose proof (b64Val_Char n H) as V. unfold b64Val in V.
  repeat split; apply not_true_is_false; unfold byteIs; rewrite bool_decide_eq_true; intros E;
    unfold byteIn, byteIs in V; rewrite !E in V; vm_compute in V; discriminate.
Qed.

Lemma ascii_of_byteN a n : n = byteN a → ascii_of_N n = a.
Proof. intros ->. apply ascii_N_embedding. Qed.

Ltac solve_div := zify; Z.to_euclidean_division_equations; lia.

(** The encoder writes no line break, so the decoder skips nothing. *)
Lemma b64Encode_plain l : Forall (λ a, negb (byteIs 10 a || byteIs 13 a) = true) (b64Encode l).
Proof.
  assert (∀ n, (n < 64)%N → negb (byteIs 10 (b64Char n) || byteIs 13 (b64Char n)) = true) as Hc.
  { intros n Hn. destruct (b64Char_plain n Hn) as (_ & -> & ->). done. }
  induction l as [| a | a b | a b c l IH _ _] using ascii_list_ind3; [by apply Forall_nil_2|..];
    cbn -[N.div N.modulo N.mul N.add]; pose proof (byteN_lt a) as Ha.
  - rewrite !Forall_cons. split_and!; [apply Hc; solve_div..|done|done|by apply Forall_nil_2].
  - pose proof (byteN_lt b) as Hb. rewrite !Forall_cons. split_and!; [apply Hc; solve_div..|done|by apply Forall_nil_2].
  - pose proof (byteN_lt b) as Hb. pose proof (byteN_lt c) as Hc'. rewrite !Forall_cons.
    split_and!; [apply Hc; solve_div..|done].
Qed.

Section Quantum.
  Context (x y : N) (Hx : (x < 64)%N) (Hy : (y < 64)%N).
Lemma b64Decode_2 : (y mod 16 = 0)%N →
    b64Decode [b64Char x; b64Char y; "="%char; "="%char] = Some [ascii_of_N (x * 4 + y / 16)].
Proof. intros H. cbn -[N.div N.modulo N.mul N.add]. rewrite !b64Val_Char by done. cbn -[N.div N.modulo N.mul N.add]. by rewrite H. Qed.
  Context (z : N) (Hz : (z < 64)%N).
Lemma b64Decode_3 : (z mod 4 = 0)%N →
    b64Decode [b64Char x; b64Char y; b64Char z; "="%char]
    = Some [ascii_of_N (x * 4 + y / 16); ascii_of_N (y mod 16 * 16 + z / 4)].
Proof.
    intros H. cbn -[N.div N.modulo N.mul N.add byteIs]. rewrite !b64Val_Char by done. cbn -[N.div N.modulo N.mul N.add byteIs].
    destruct (b64Char_plain z Hz) as (-> & _ & _). rewrite H. done.
  Qed.
  Context (w : N) (Hw : (w < 64)%N).
Lemma b64Decode_4 r :
    b64Decode (b64Char x :: b64Char y :: b64Char z :: b64Char w :: r)
    = tail ← b64Decode r;
      Some (ascii_of_N (x * 4 + y / 16) :: ascii_of_N (y mod 16 * 16 + z / 4) :: ascii_of_N (z mod 4 * 64 + w) :: tail).
Proof.
    cbn -[N.div N.modulo N.mul N.add byteIs]. rewrite !b64Val_Char by done. cbn -[N.div N.modulo N.mul N.add byteIs].
    destruct (b64Char_plain z Hz) as (-> & _ & _), (b64Char_plain w Hw) as (-> & _ & _). done.
  Qed.
End Quantum.

Lemma b64Decode_Encode l : b64Decode (b64Encode l) = Some l.
Proof.
  induction l as [| a | a b | a b c l IH _ _] using ascii_list_ind3; [done|..];
    cbn -[N.div N.modulo N.mul N.add b64Decode]; pose proof (byteN_lt a) as Ha.
  - rewrite b64Decode_2 by solve_div. do 2 f_equal. apply ascii_of_byteN. solve_div.
  - pose proof (byteN_lt b) as Hb. rewrite b64Decode_3 by solve_div.
    repeat f_equal; apply ascii_of_byteN; solve_div.
  - pose proof (byteN_lt b) as Hb. pose proof (byteN_lt c) as Hc. rewrite b64Decode_4 by solve_div. rewrite IH. cbn [mbind option_bind].
    repeat f_equal; apply ascii_of_byteN; solve_div.
Qed.

Lemma filter_all {A} (f : A → bool) l : Forall (λ x, f x = true) l → List.filter f l = l.
Proof. induction 1 as [|x l Hx _ IH]; cbn; [done|]. by rewrite Hx, IH. Qed.

Lemma Decode_EncodeToString s : DecodeString (EncodeToString s) = Some s.
Proof.
  unfold DecodeString, EncodeToString. rewrite bytes_ofBytes, filter_all by apply b64Encode_plain.
  rewrite b64Decode_Encode. cbn. by rewrite ofBytes_bytes.
Qed.

(** ** Accepted literals *)

(** The integers of a literal are in the range of the wire type [sint64]. *)
Fixpoint intsInRange (l : Literal) : bool :=
  match l with
  | LitInt i => isInt64 i
  | LitList values => forallb intsInRange values
  | LitObject fields => forallb (λ f, intsInRange f.2) fields
  | _ => true
  end.

(** Strictly increasing names. *)
Fixpoint ascending (previous : option string) (names : list string) : bool :=
  match names with
  | [] => true
  | name :: names =>
      match previous with Some p => strLt p name | None => true end && ascending (Some name) names
  end.

Fixpoint wfLiteral (l : Literal) : bool :=
  match l with
  | LitNil | LitUnset => false
  | LitNull n => bool_decide (n = NULL_VALUE_NULL)
  | LitBool _ | LitBytes _ => true
  | LitInt i => isInt64 i
  | LitDouble d => isFinite d
  | LitString s => ValidUTF8 s
  | LitList values => forallb wfLiteral values
  | LitObject fields =>
      ascending None fields.*1 && forallb (λ f, ValidUTF8 f.1 && wfLiteral f.2) fields
  end.

Lemma text_valid limits value required s r : text limits value required s = Ok r → ValidUTF8 value = true.
Proof. unfold text. intros H. inv_check. by apply negb_false_iff in H3. Qed.

Lemma checkLiteralStructure_wf limits l depth s r :
  checkLiteralStructure limits l depth s = Ok r → intsInRange l = true → wfLiteral l = true.
Proof.
  revert depth s r.
  induction l as [| | n | b | i | d | str | str | l IH | l IH] using Literal_nested_ind; intros depth s r H R;
    cbn [checkLiteralStructure] in H; inv_check; cbn [wfLiteral]; try done.
  - match goal with E : bool_decide (n ≠ _) = false |- _ => rename E into N end. apply bool_decide_eq_false in N.
    apply bool_decide_eq_true. by destruct (decide (n = NULL_VALUE_NULL)).
  - by destruct d.
  - by eapply text_valid.
  - cbn in R. match type of H with ?go _ ?s0 = _ => revert R; generalize dependent s0 end.
    clear -IH. induction IH as [|v l Hv _ IHl]; cbn; [done|]. intros s0 Hs R. apply andb_true_iff in R as [R1 R2].
    apply checkM_bind_Ok in Hs as (? & s1 & H1 & H2). rewrite (Hv _ _ _ H1 R1). cbn. eauto.
  - cbn in R. match type of H with ?go _ _ ?s0 = _ => revert R; generalize dependent s0 end. generalize (@None string).
    clear -IH. induction IH as [|[name v] l Hv _ IHl]; cbn; [done|]. intros previous s0 Hs R. apply andb_true_iff in R as [R1 R2].
    inv_check. cbn in Hv.
    match goal with E : text _ _ _ _ = _, E' : checkLiteralStructure _ _ _ _ = _ |- _ =>
      apply text_valid in E; rewrite E, (Hv _ _ _ E' R1) end.
    match goal with E : _ = Ok r, M : match previous with _ => _ end = false |- _ =>
      specialize (IHl _ _ E R2); destruct previous; cbn in M |- *; rewrite ?(proj1 (negb_false_iff _) M) end; done.
Qed.
