(* ===== verification/Typing.v ===== *)
(** * What it means for a value to have a type

    [conforms v t] is the meaning of the types of [ir/types.go], independent of the
    code that checks them: the shape a run-time value of type [t] has. An integer
    counts as a float. The theorems say that the checker's judgements are sound for
    it: assignability is inclusion of types ([assignable_conforms]) and a literal the
    checker accepts evaluates to a value of the type ([literalType_conforms],
    [literalAssignable_conforms]). *)

From S2P Require Import Prelude GoText Json Ir Types Env Check Value Eval CheckLemmas.
From Stdlib Require Import ZArith NArith Ascii String.
Local Open Scope list_scope.
Local Open Scope Z_scope.

Definition canonicalBase64 (s : string) : bool :=
  match DecodeString s with Some d => bool_decide (EncodeToString d = s) | None => false end.

Definition scalarConforms (v : any) (t : typeRef) : bool :=
  match t, v with
  | TBool, ABool _ => true
  | TInt, AInt i => isInt64 i
  | TFloat, AInt i => isInt64 i
  | TFloat, AFloat f => isFinite f
  | TString, AString s => ValidUTF8 s
  | TBytes, AString s => canonicalBase64 s
  | TNull, ANil => true
  | _, _ => false
  end.

Section Conforms.
  Context (types : gmap string TypeDefinition).

Fixpoint conforms (v : any) (t : typeRef) : bool :=
  match resolve types t with
  | Err _ => false
  | Ok (TList _ element) =>
      match v with AList items => forallb (λ x, conforms x element) items | _ => false end
  | Ok (TMap _ element) =>
      match v with
      | AMap entries => forallb (λ p, ValidUTF8 p.1 && conforms p.2 element) entries
      | _ => false
      end
  | Ok (TObject name fields) =>
      match v with
      | AMap entries =>
          forallb (λ p, ValidUTF8 p.1 &&
                        match fieldOf fields p.1 with Some t => conforms p.2 t | None => false end) entries
          && forallb (λ r, bool_decide (r ∈ entries.*1)) (requiredObjectFields types name fields)
      | _ => false
      end
  | Ok t => scalarConforms v t
  end.

(** The shape of a value of a type, one level deep. *)
Definition shape (v : any) (t : typeRef) : Prop :=
  match t with
  | TList _ element => ∃ items, v = AList items ∧ Forall (λ x, conforms x element = true) items
  | TMap _ element =>
      ∃ entries, v = AMap entries ∧ Forall (λ p, ValidUTF8 p.1 = true ∧ conforms p.2 element = true) entries
  | TObject name fields =>
      ∃ entries, v = AMap entries ∧
        Forall (λ p, ValidUTF8 p.1 = true ∧ ∃ t, fieldOf fields p.1 = Some t ∧ conforms p.2 t = true) entries ∧
        Forall (λ r, r ∈ entries.*1) (requiredObjectFields types name fields)
  | _ => scalarConforms v t = true
  end.

Lemma forallb_Forall {A} (f : A → bool) l : forallb f l = true ↔ Forall (λ x, f x = true) l.
Proof. rewrite forallb_forall, Forall_forall. by setoid_rewrite list_elem_of_In. Qed.

Lemma conforms_shape v t : conforms v t = true ↔ ∃ r, resolve types t = Ok r ∧ shape v r.
Proof.
  split.
  - destruct v; cbn; (destruct (resolve types t) as [r|] eqn:E; [|done]); intros H; exists r; (split; [done|]);
      destruct r; cbn in *; try done; eauto.
    + eexists. split; [done|]. by apply forallb_Forall.
    + eexists. split; [done|]. apply forallb_Forall in H. eapply Forall_impl; [exact H|].
      intros p Hp. by apply andb_true_iff in Hp.
    + apply andb_true_iff in H as [H1 H2]. eexists. split; [done|]. split.
      * apply forallb_Forall in H1. eapply Forall_impl; [exact H1|]. intros p Hp. apply andb_true_iff in Hp as [? Hp].
        destruct (fieldOf fields p.1); [|done]. eauto.
      * apply forallb_Forall in H2. eapply Forall_impl; [exact H2|]. intros x Hx. by apply bool_decide_eq_true in Hx.
  - intros (r & E & H). destruct r; cbn in H;
      try (destruct v; cbn; rewrite E; exact H).
    + destruct H as (items & -> & H). cbn. rewrite E. by apply forallb_Forall.
    + destruct H as (entries & -> & H). cbn. rewrite E. apply forallb_Forall. eapply Forall_impl; [exact H|].
      intros p [-> ->]. done.
    + destruct H as (entries & -> & H1 & H2). cbn. rewrite E. apply andb_true_iff. split; apply forallb_Forall.
      * eapply Forall_impl; [exact H1|]. intros p (-> & t' & -> & ->). done.
      * eapply Forall_impl; [exact H2|]. intros x Hx. by apply bool_decide_eq_true.
Qed.

(** ** Resolution *)
Lemma resolve_not_named t r : resolve types t = Ok r → ∀ n, r ≠ TNamed n.
Proof.
  destruct t; cbn; try (intros [= <-]; congruence).
  intros H. inv_res. repeat case_bool_decide; inv_res; congruence.
Qed.
Lemma resolve_resolved t r : resolve types t = Ok r → resolve types r = Ok r.
Proof. intros H. pose proof (resolve_not_named _ _ H). destruct r; try done. by destruct (H0 name). Qed.
Lemma conforms_resolve v t r : resolve types t = Ok r → conforms v r = conforms v t.
Proof.
  intros H. pose proof (resolve_resolved _ _ H) as H'. apply eq_true_iff_eq. rewrite !conforms_shape, H, H'. done.
Qed.

Lemma fieldOf_elem {A} (l : list (string * A)) n t : fieldOf l n = Some t → (n, t) ∈ l.
Proof.
  induction l as [|[n' t'] l IH]; cbn; [done|]. case_bool_decide; intros; simplify_eq; set_solver.
Qed.

(** ** Assignability is inclusion *)
Lemma assignableDepth_conforms fuel actual expected v :
  assignableDepth types fuel actual expected = true → conforms v actual = true → conforms v expected = true.
Proof.
  revert actual expected v. induction fuel as [|fuel IH]; intros actual expected v; [done|]. cbn.
  destruct (sameNamed actual expected) eqn:Hs.
  { destruct actual, expected; try done. cbn in Hs. apply bool_decide_eq_true in Hs as ->. done. }
  destruct (resolve types actual) as [a|] eqn:Ea; [|done]. destruct (resolve types expected) as [e|] eqn:Ee; [|done].
  intros H Hv. apply conforms_shape in Hv as (a' & Ea' & Hv). rewrite Ea in Ea'. simplify_eq.
  apply conforms_shape. exists e. split; [done|].
  destruct a', e; try done; cbn in *.
  - by destruct v.
  - destruct Hv as (items & -> & Hv). exists items. split; [done|]. eapply Forall_impl; [exact Hv|]. eauto.
  - destruct Hv as (entries & -> & Hv). exists entries. split; [done|]. eapply Forall_impl; [exact Hv|].
    cbn. intros p [? ?]. eauto.
  - apply andb_true_iff in H as [H1 H2]. destruct Hv as (entries & -> & Hv & Hr). exists entries. split; [done|]. split.
    + eapply Forall_impl; [exact Hv|]. cbn. intros p (? & t & Ht & Hp). split; [done|].
      pose proof (forallb_elem _ _ _ H1 (fieldOf_elem _ _ _ Ht)) as Hf. cbn in Hf.
      destruct (fieldOf fields0 p.1) as [t'|]; [|done]. eauto.
    + apply Forall_forall. intros r Hin. pose proof (forallb_elem _ _ _ H2 Hin) as Hb. apply bool_decide_eq_true in Hb.
      rewrite Forall_forall in Hr. auto.
Qed.
Lemma assignable_conforms actual expected v :
  assignable types actual expected = true → conforms v actual = true → conforms v expected = true.
Proof. apply assignableDepth_conforms. Qed.

(** ** Literals *)

(** Inserting names in increasing order appends them. *)
Lemma ascending_lt p names : ascending (Some p) names = true → Forall (λ n, strLt p n = true) names.
Proof.
  revert p. induction names as [|n names IH]; intros p; cbn; [constructor|].
  intros [H1 H2]%andb_true_iff. constructor; [done|]. eapply Forall_impl; [exact (IH n H2)|].
  cbn. intros x Hx. by eapply strLt_trans.
Qed.
Lemma ascending_weaken o names : ascending o names = true → ascending None names = true.
Proof. destruct names; cbn; [done|]. by intros [_ ->]%andb_true_iff. Qed.
Lemma mapPut_append {A} k (v : A) l : Forall (λ n, strLt n k = true) l.*1 → mapPut k v l = l ++ [(k, v)].
Proof.
  induction l as [|[k' v'] l IH]; cbn; [done|]. intros [H1 H2]%Forall_cons.
  rewrite bool_decide_eq_false_2 by (intros ->; by rewrite strLt_irrefl in H1). rewrite (strLt_asymm _ _ H1), IH; done.
Qed.
Lemma setField_append {A} k (v : A) l : k ∉ l.*1 → setField l k v = l ++ [(k, v)].
Proof.
  induction l as [|[k' v'] l IH]; cbn; [done|]. intros [H1 H2]%not_elem_of_cons.
  rewrite bool_decide_eq_false_2 by congruence. by rewrite IH.
Qed.

(** [checkedLiteralValue] and [literalType] on collections, without their loops. *)
Lemma literalValue_list vs :
  checkedLiteralValue (LitList vs) = items ← mapR checkedLiteralValue vs; Ok (AList items).
Proof.
  cbn. f_equal. induction vs as [|v vs IH]; [done|]. cbn. destruct (checkedLiteralValue v); cbn; [|done]. by rewrite IH.
Qed.
Lemma literalValue_object fs : ascending None fs.*1 = true →
  checkedLiteralValue (LitObject fs)
  = entries ← mapR (λ f : string * Literal, v ← checkedLiteralValue f.2; Ok (f.1, v)) fs; Ok (AMap entries).
Proof.
  intros Ha. cbn.
  enough (∀ acc, (∀ n, n ∈ fs.*1 → Forall (λ k, strLt k n = true) acc.*1) →
    (fix go object l := match l with
      | [] => Ok object
      | (name, v) :: l => resolved ← checkedLiteralValue v; go (mapPut name resolved object) l
      end) acc fs
    = entries ← mapR (λ f : string * Literal, v ← checkedLiteralValue f.2; Ok (f.1, v)) fs; Ok (acc ++ entries)) as ->.
  { destruct (mapR _ fs); done. } { intros n _. constructor. }
  revert Ha. induction fs as [|[n v] fs IH]; intros Ha acc Hacc; cbn; [by rewrite app_nil_r|].
  destruct (checkedLiteralValue v) as [x|]; cbn; [|done].
  rewrite mapPut_append by (apply Hacc; set_solver). cbn in Ha. pose proof (ascending_lt _ _ Ha) as Hlt.
  rewrite IH; [|by eapply ascending_weaken|].
  - destruct (mapR _ fs); cbn; [|done]. by rewrite <-app_assoc.
  - intros m Hm. rewrite fmap_app. apply Forall_app. split; [apply Hacc; set_solver|]. cbn. constructor; [|constructor].
    rewrite Forall_forall in Hlt. auto.
Qed.
Lemma literalType_object fs depth : bool_decide (depth > 64) = false → ascending None fs.*1 = true →
  literalType types (LitObject fs) depth
  = fields ← mapR (λ f : string * Literal, t ← literalType types f.2 (depth + 1); Ok (f.1, t)) fs; Ok (TObject "" fields).
Proof.
  intros Hd Ha. cbn [literalType]. rewrite Hd. clear Hd.
  enough (∀ acc, (∀ n, n ∈ fs.*1 → n ∉ acc.*1) →
    (fix go fields l := match l with
      | [] => Ok fields
      | (name, v) :: l => fieldType ← literalType types v (depth + 1); go (setField fields name fieldType) l
      end) acc fs
    = fields ← mapR (λ f : string * Literal, t ← literalType types f.2 (depth + 1); Ok (f.1, t)) fs; Ok (acc ++ fields)) as ->.
  { destruct (mapR _ fs); done. } { intros n _. set_solver. }
  revert Ha. induction fs as [|[n v] fs IH]; intros Ha acc Hacc; cbn; [by rewrite app_nil_r|].
  destruct (literalType types v (depth + 1)) as [x|]; cbn; [|done].
  rewrite setField_append by (apply Hacc; set_solver). cbn in Ha. pose proof (ascending_lt _ _ Ha) as Hlt.
  rewrite IH; [|by eapply ascending_weaken|].
  - destruct (mapR _ fs); cbn; [|done]. by rewrite <-app_assoc.
  - intros m Hm. rewrite fmap_app. cbn. rewrite Forall_forall in Hlt. specialize (Hlt m Hm).
    apply not_elem_of_app. split; [apply Hacc; set_solver|]. apply not_elem_of_cons. split; [|set_solver].
    intros ->. by rewrite strLt_irrefl in Hlt.
Qed.

Lemma mapR_Ok_cons {A B} (f : A → result B) a b l l' :
  f a = Ok b → mapR f l = Ok l' → mapR f (a :: l) = Ok (b :: l').
Proof. intros H1 H2. cbn. by rewrite H1, H2. Qed.

Definition joins (o : option typeRef) (items : list any) : Prop :=
  match o with None => items = [] | Some t => Forall (λ v, conforms v t = true) items end.

Lemma joinElement_conforms o items t t' v :
  joins o items → joinElement types o t = Ok t' → conforms v t = true → joins (Some t') (items ++ [v]).
Proof.
  intros Hj He Hv. destruct o as [first|]; cbn in *.
  - destruct (assignable types t first) eqn:E1; [|destruct (assignable types first t) eqn:E2; [|done]]; simplify_eq.
    + apply Forall_app. split; [done|]. constructor; [by eapply assignable_conforms|constructor].
    + apply Forall_app. split; [|by constructor]. eapply Forall_impl; [exact Hj|]. intros x ?. by eapply assignable_conforms.
  - simplify_eq. by constructor.
Qed.

Lemma literalType_conforms l depth t :
  wfLiteral l = true → literalType types l depth = Ok t → ∃ v, checkedLiteralValue l = Ok v ∧ conforms v t = true.
Proof.
  revert depth t.
  induction l as [| | n | b | i | d | str | str | l IH | l IH] using Literal_nested_ind; intros depth t W H;
    (destruct (bool_decide (depth > 64)) eqn:Hd; [cbn in H; by rewrite Hd in H|]); try done.
  1-6: cbn in H; rewrite Hd in H; inv_res; eexists; split; [reflexivity|]; try done.
  - cbn. unfold canonicalBase64. rewrite Decode_EncodeToString. by apply bool_decide_eq_true.
  - rewrite literalValue_list. cbn [literalType] in H. rewrite Hd in H. apply bind_Ok in H as (o & H & Ht).
    apply bind_Ok in Ht as (e & He & Ht). simplify_eq.
    enough (∃ items, mapR checkedLiteralValue l = Ok items ∧ joins o ([] ++ items)) as (items & -> & Hj).
    { eexists. split; [reflexivity|]. destruct o; [|done]. cbn in He. simplify_eq. cbn. by apply forallb_Forall. }
    cbn in W. apply forallb_Forall in W. revert H. assert (joins None []) as J by done. revert J.
    generalize (@nil any) at 1 2. generalize (@None typeRef). clear He Hd.
    induction l as [|v l IHl]; intros o0 done0 J H.
    + simplify_eq. exists []. split; [done|]. by rewrite app_nil_r.
    + apply Forall_cons in IH as [Hv IH]. apply Forall_cons in W as [Wv W].
      apply bind_Ok in H as (tv & Hc & H). apply bind_Ok in H as (tj & Hj & H).
      destruct (Hv _ _ Wv Hc) as (x & Ex & Cx). pose proof (joinElement_conforms _ _ _ _ _ J Hj Cx) as J'.
      destruct (IHl IH W _ _ J' H) as (items & Ei & Ji). exists (x :: items). split; [by apply mapR_Ok_cons|].
      by rewrite <-app_assoc in Ji.
  - cbn in W. apply andb_true_iff in W as [Ha W]. rewrite literalValue_object by done. rewrite literalType_object in H by done.
    apply bind_Ok in H as (fields & H & Ht). simplify_eq.
    apply forallb_Forall in W. apply mapR_Forall2 in H.
    enough (∃ entries, mapR (λ f : string * Literal, v ← checkedLiteralValue f.2; Ok (f.1, v)) l = Ok entries ∧
      entries.*1 = l.*1 ∧ fields.*1 = l.*1 ∧
      Forall2 (λ e f, ValidUTF8 e.1 = true ∧ e.1 = f.1 ∧ conforms e.2 f.2 = true) entries fields) as (entries & -> & E1 & E2 & F).
    { eexists. split; [reflexivity|]. apply conforms_shape. eexists. split; [reflexivity|]. eexists. split; [reflexivity|].
      split; [|change (requiredObjectFields types "" fields) with (fields.*1); rewrite E2, <-E1; by apply Forall_forall].
      rewrite <-E2 in Ha. clear -F Ha. induction F as [|[en ev] [fn ft] entries fields (V & N & C) F IH]; [constructor|].
      cbn in *. subst fn. pose proof (ascending_lt _ _ Ha) as Hlt. constructor.
      - split; [done|]. rewrite bool_decide_eq_true_2 by done. eauto.
      - eapply Forall_impl; [exact (IH (ascending_weaken _ _ Ha))|]. intros [n' v'] (? & t' & Ht' & ?). split; [done|].
        exists t'. split; [|done]. cbn. rewrite bool_decide_eq_false_2; [done|]. intros <-. cbn in Ht'. apply fieldOf_elem in Ht'.
        rewrite Forall_forall in Hlt. specialize (Hlt en). rewrite strLt_irrefl in Hlt.
        assert (en ∈ fields.*1) as Hin by (apply list_elem_of_fmap; by eexists (_, _)). by apply Hlt in Hin. }
    clear Ha. induction H as [|[n v] [n' t] l fields Hf H IHl]; [exists []; by repeat constructor|].
    apply Forall_cons in IH as [Hv IH]. apply Forall_cons in W as [Wv W]. cbn in *. apply andb_true_iff in Wv as [Wn Wv].
    inv_res. destruct (Hv _ _ Wv ltac:(eassumption)) as (x & Ex & Cx). destruct (IHl IH W) as (entries & Ee & E1 & E2 & F).
    rewrite Ex. cbn. rewrite Ee. cbn. eexists. split; [reflexivity|]. cbn. split_and!; [by f_equal..|]. by constructor.
Qed.

(** What [parse] builds: collections without a name and named types, never an inline object. *)
Fixpoint parsed (t : typeRef) : bool :=
  match t with
  | TList name element | TMap name element => bool_decide (name = "") && parsed element
  | TObject _ _ => false
  | TNamed name => bool_decide (name ≠ "")
  | _ => true
  end.

Lemma parseDepth_parsed fuel name allowVoid t : parseDepth types fuel name allowVoid = Ok t → parsed t = true.
Proof.
  revert name allowVoid t. induction fuel as [|fuel IH]; intros name allowVoid t; cbn; [done|].
  case_bool_decide as Hn; [done|]. destruct (scalarType (TrimSpace name) allowVoid) as [r|] eqn:Es.
  { intros ->. unfold scalarType in Es. repeat case_bool_decide; simplify_eq; try done. by destruct allowVoid; simplify_eq. }
  assert (∀ inner r C, (∀ e, C e = TList "" e) ∨ (∀ e, C e = TMap "" e) →
    (element ← parseDepth types fuel inner false; Ok (C element)) = Ok r → parsed r = true) as Hc.
  { intros inner r C HC (e & He & E)%bind_Ok. simplify_eq. apply IH in He. destruct HC as [-> | ->]; exact He. }
  destruct (HasPrefix (TrimSpace name) "[]"); [apply Hc; auto|].
  destruct (genericInner (TrimSpace name) "list"); [apply Hc; auto|].
  destruct (genericInner (TrimSpace name) "map"); [apply Hc; auto|].
  case_bool_decide; intros; simplify_eq. cbn. by apply bool_decide_eq_true.
Qed.
Lemma parse_parsed name allowVoid t : parse types name allowVoid = Ok t → parsed t = true.
Proof. apply parseDepth_parsed. Qed.

Lemma resolve_parsed t r : parsed t = true → resolve types t = Ok r →
  match r with
  | TList _ element | TMap _ element => parsed element = true
  | TObject name fields => name ≠ "" ∧ Forall (λ f, parsed f.2 = true) fields
  | _ => True
  end.
Proof.
  destruct t; cbn; intros P H; simplify_eq; try done; try by (apply andb_true_iff in P as [_ ?]).
  apply bool_decide_eq_true in P. inv_res.
  repeat case_bool_decide; inv_res; [by eapply parse_parsed..|]. split; [done|].
  match goal with E : mapR _ _ = Ok _ |- _ => apply mapR_Forall2 in E; clear -E; induction E as [|f [n t] l l' Hf _ IH] end;
    [constructor|]. inv_res. constructor; [|done]. by eapply parse_parsed.
Qed.

Lemma fieldOf_Forall {A} (P : string * A → Prop) l n t : Forall P l → fieldOf l n = Some t → P (n, t).
Proof. intros H E%fieldOf_elem. rewrite Forall_forall in H. auto. Qed.

Lemma literalAssignable_conforms l t : wfLiteral l = true → parsed t = true →
  literalAssignable types l t = Ok tt → ∃ v, checkedLiteralValue l = Ok v ∧ conforms v t = true.
Proof.
  revert t. induction l as [| | n | b | i | d | str | str | l IH | l IH] using Literal_nested_ind; intros t W P H;
    cbn [literalAssignable] in H; apply bind_Ok in H as (r & Hr & H); pose proof (resolve_parsed _ _ P Hr) as Pr.
  all: try (destruct r; try done; apply bind_Ok in H as (a & Ha & H); destruct (assignable types a t) eqn:E; [|done];
            destruct (literalType_conforms _ _ _ W Ha) as (v & Ev & Cv); exists v; split; [exact Ev|by eapply assignable_conforms]).
  all: destruct r; try done;
    try (apply bind_Ok in H as (a & Ha & H); destruct (assignable types a t) eqn:E; [|done];
         destruct (literalType_conforms _ _ _ W Ha) as (v & Ev & Cv); exists v; split; [exact Ev|by eapply assignable_conforms]).
  - rewrite literalValue_list. cbn in W. apply forallb_Forall in W.
    enough (∃ items, mapR checkedLiteralValue l = Ok items ∧ Forall (λ x, conforms x r = true) items) as (items & -> & F).
    { eexists. split; [reflexivity|]. apply conforms_shape. eexists. split; [exact Hr|]. by eexists. }
    clear Hr. induction IH as [|v l Hv _ IHl]; [by exists []|]. apply Forall_cons in W as [Wv W].
    apply bind_Ok in H as ([] & H1 & H2). destruct (Hv _ Wv Pr H1) as (x & Ex & Cx). destruct (IHl W H2) as (items & Ei & F).
    exists (x :: items). split; [by apply mapR_Ok_cons|by constructor].
  - cbn in W. apply andb_true_iff in W as [Ha W]. rewrite literalValue_object by done. apply forallb_Forall in W.
    enough (∃ entries, mapR (λ f : string * Literal, v ← checkedLiteralValue f.2; Ok (f.1, v)) l = Ok entries ∧
      Forall (λ p, ValidUTF8 p.1 = true ∧ conforms p.2 r = true) entries) as (entries & -> & F).
    { eexists. split; [reflexivity|]. apply conforms_shape. eexists. split; [exact Hr|]. by eexists. }
    clear Hr Ha. induction IH as [|[n v] l Hv _ IHl]; [by exists []|]. apply Forall_cons in W as [Wv W]. cbn in *.
    apply andb_true_iff in Wv as [Wn Wv]. apply bind_Ok in H as ([] & H1 & H2).
    destruct (Hv _ Wv Pr H1) as (x & Ex & Cx). destruct (IHl W H2) as (entries & Ei & F). rewrite Ex. cbn. rewrite Ei. cbn.
    eexists. split; [reflexivity|by constructor].
  - cbn in W. apply andb_true_iff in W as [Ha W]. rewrite literalValue_object by done. apply forallb_Forall in W.
    apply bind_Ok in H as ([] & H & Hreq). apply failIf_Ok, negb_false_iff, forallb_Forall in Hreq. destruct Pr as [Pn Pf].
    enough (∃ entries, mapR (λ f : string * Literal, v ← checkedLiteralValue f.2; Ok (f.1, v)) l = Ok entries ∧ entries.*1 = l.*1 ∧
      Forall (λ p, ValidUTF8 p.1 = true ∧ ∃ t, fieldOf fields p.1 = Some t ∧ conforms p.2 t = true) entries) as (entries & -> & E1 & F).
    { eexists. split; [reflexivity|]. apply conforms_shape. eexists. split; [exact Hr|]. eexists. split; [reflexivity|]. split; [exact F|].
      unfold requiredObjectFields. rewrite bool_decide_eq_true_2, E1 by done. eapply Forall_impl; [exact Hreq|].
      intros x Hx. by apply bool_decide_eq_true in Hx. }
    clear Hr Ha Hreq. induction IH as [|[n v] l Hv _ IHl]; [by exists []|]. apply Forall_cons in W as [Wv W]. cbn in *.
    apply andb_true_iff in Wv as [Wn Wv]. destruct (fieldOf fields n) as [tn|] eqn:En; [|done]. apply bind_Ok in H as ([] & H1 & H2).
    pose proof (fieldOf_Forall _ _ _ _ Pf En) as Pt. cbn in Pt.
    destruct (Hv _ Wv Pt H1) as (x & Ex & Cx). destruct (IHl W H2) as (entries & Ei & E1 & F). rewrite Ex. cbn. rewrite Ei. cbn.
    eexists. split; [reflexivity|]. cbn. split; [by f_equal|]. constructor; [|done]. split; [done|]. eauto.
Qed.
End Conforms.
