(* ===== verification/EvalProps.v ===== *)
(** * Soundness of the checker for the evaluator

    A predicate the checker accepts never meets a type error at run time: evaluated on
    facts that have their declared types it yields a boolean, or fails for one of the
    reasons listed in [runtimeError]. [NormalizeValue], which gives facts their types, is
    treated last. *)

From S2P Require Import Prelude GoText Sha256 Json Ir Types Env EnvProps Check Value Eval CheckLemmas Typing.
From Stdlib Require Import ZArith NArith QArith Ascii String Lia.
Local Open Scope list_scope.
Local Open Scope Z_scope.

(** The integers of every literal of an expression are in range. *)
Fixpoint exprIntsInRange (e : Expression) : bool :=
  match e with
  | ExprLiteral l => intsInRange l
  | ExprUnary _ e => exprIntsInRange e
  | ExprBinary _ l r => exprIntsInRange l && exprIntsInRange r
  | ExprCall _ args => forallb exprIntsInRange args
  | _ => true
  end.

Section Soundness.
  Context (environment : Environment) (limits : Limits) (matchString : string → string → result bool).
  #[local] Abbreviation types := (env_Types environment).

(** Why a well-typed expression may still fail. *)
Inductive runtimeError : error → Prop :=
  | re_fact : runtimeError missingFact
  | re_integer : runtimeError (errorf "integer arithmetic overflow")
  | re_float : runtimeError (errorf "floating arithmetic overflow")
  | re_negation : runtimeError (errorf "integer negation overflow")
  | re_division : runtimeError (errorf "division by zero")
  | re_modulo : runtimeError (errorf "modulo by zero")
  | re_call : runtimeError (errorf "function calls are not available in an immutable source generation")
  | re_regexp pattern text e : matchString pattern text = Err e → runtimeError e.

(** Every declared fact that is present has its declared type. *)
Definition factsConform (facts : list (string * any)) : Prop :=
  ∀ path typeName t v, env_Facts environment !! path = Some typeName → parse types typeName false = Ok t →
    lookupWorkflowFact facts path = Some v → conforms types v t = true.

(** The outcome of evaluating an expression of type [t]. *)
Definition sound (r : result any) (t : typeRef) : Prop :=
  match r with Ok v => conforms types v t = true | Err e => runtimeError e end.

(** ** Values of scalar types *)
Lemma conforms_bool v : conforms types v TBool = true → ∃ b, v = ABool b.
Proof. destruct v; cbn; try done. eauto. Qed.
Lemma conforms_string v : conforms types v TString = true → ∃ s, v = AString s ∧ ValidUTF8 s = true.
Proof. destruct v; cbn; try done. eauto. Qed.
Lemma conforms_int v : conforms types v TInt = true → ∃ i, v = AInt i ∧ isInt64 i = true.
Proof. destruct v; cbn; try done. eauto. Qed.
Lemma conforms_numeric v t : isNumeric t = true → conforms types v t = true →
  (∃ i, v = AInt i ∧ isInt64 i = true) ∨ (t = TFloat ∧ ∃ f, v = AFloat f ∧ isFinite f = true).
Proof. destruct t; try done; destruct v; cbn; try done; eauto 10. Qed.
Lemma conforms_list v name element : resolve types v = Ok (TList name element) → ∀ x, conforms types x v = true → ∃ items, x = AList items.
Proof. intros R x (r & R' & S)%conforms_shape. rewrite R in R'. simplify_eq. destruct S as (? & -> & _). eauto. Qed.

Lemma ValidUTF8_app s t : ValidUTF8 s = true → ValidUTF8 t = true → ValidUTF8 (s +:+ t) = true.
Proof.
  unfold ValidUTF8. intros Hs Ht. rewrite bytes_app. rewrite <-(runes_bytes (bytes s)) at 1.
  rewrite runes_concat by done. rewrite forallb_app. by rewrite Hs, Ht.
Qed.

Lemma Zrem_int64 a b : isInt64 a = true → isInt64 b = true → b ≠ 0 → isInt64 (Z.rem a b) = true.
Proof.
  unfold isInt64. rewrite !bool_decide_eq_true. unfold MinInt64, MaxInt64. intros Ha Hb Hz.
  destruct (Z.le_ge_cases 0 a).
  - pose proof (Z.rem_nonneg a b Hz H). pose proof (Z.rem_le a b) as L.
    destruct (Z.le_ge_cases 0 b).
    + assert (Z.rem a b < b) by (apply Z.rem_bound_pos; lia). lia.
    + rewrite <-(Z.opp_involutive b), Z.rem_opp_r in * by lia. assert (Z.rem a (- b) < - b) by (apply Z.rem_bound_pos; lia). lia.
  - rewrite <-(Z.opp_involutive a), Z.rem_opp_l by lia.
    assert (0 <= Z.rem (- a) b <= - a).
    { split; [apply Z.rem_nonneg; lia|]. destruct (Z.le_ge_cases 0 b).
      - apply Z.rem_le; lia.
      - rewrite <-(Z.opp_involutive b), Z.rem_opp_r by lia. apply Z.rem_le; lia. }
    lia.
Qed.

(** ** Operators *)
Ltac solve_op := first [apply list_elem_of_here | apply list_elem_of_further; solve_op].

Lemma checkedIntResult_sound z t : isNumeric t = true → sound (checkedIntResult z) t.
Proof. intros T. unfold checkedIntResult. destruct (isInt64 z) eqn:E; [|constructor]. destruct t; try done; cbn; by rewrite E. Qed.
Lemma checkedFloatResult_sound f : sound (checkedFloatResult f) TFloat.
Proof. unfold checkedFloatResult. destruct (isFinite f) eqn:E; [|constructor]. exact E. Qed.

Lemma checkedFloat_numeric v t : isNumeric t = true → conforms types v t = true → ∃ f, checkedFloat v = Some f.
Proof.
  intros T H. destruct (conforms_numeric _ _ T H) as [(i & -> & _)|(_ & f & -> & Hf)]; cbn; [eauto|]. rewrite Hf. eauto.
Qed.
Lemma checkedRational_numeric v t : isNumeric t = true → conforms types v t = true → ∃ q, checkedRational v = Some q.
Proof.
  intros T H. destruct (conforms_numeric _ _ T H) as [(i & -> & _)|(_ & f & -> & Hf)]; cbn; [eauto|]. rewrite Hf. cbn.
  destruct f; try done; cbn; eauto.
Qed.

Lemma floatArithmetic_sound op lv rv lt rt : op ∈ [OpAdd; OpSubtract; OpMultiply; OpDivide] →
  isNumeric lt = true → isNumeric rt = true → conforms types lv lt = true → conforms types rv rt = true →
  sound (floatArithmetic op lv rv) TFloat.
Proof.
  intros Hop L R HL HR. unfold floatArithmetic.
  destruct (checkedFloat_numeric _ _ L HL) as [lf ->], (checkedFloat_numeric _ _ R HR) as [rf ->].
  repeat (apply elem_of_cons in Hop as [->|Hop]); [apply checkedFloatResult_sound..|  |by apply elem_of_nil in Hop].
  destruct (isFloatZero rf); [constructor|apply checkedFloatResult_sound].
Qed.

(** The type [checkBinary] gives an arithmetic expression. *)
Definition arithmeticType (op : BinaryOperator) (lt rt : typeRef) : typeRef :=
  match lt, rt with TInt, TInt => if bool_decide (op = OpDivide) then TFloat else TInt | _, _ => TFloat end.

Lemma checkedArithmetic_sound op lv rv lt rt : op ∈ [OpAdd; OpSubtract; OpMultiply; OpDivide] ∨ (op = OpModulo ∧ lt = TInt ∧ rt = TInt) →
  isNumeric lt = true → isNumeric rt = true → conforms types lv lt = true → conforms types rv rt = true →
  sound (checkedArithmetic op lv rv) (arithmeticType op lt rt).
Proof.
  intros Hop L R HL HR. destruct Hop as [Hop|(-> & -> & ->)].
  - pose proof (floatArithmetic_sound _ _ _ _ _ Hop L R HL HR) as F.
    destruct (conforms_numeric _ _ L HL) as [(i & -> & _)|(-> & f & -> & Hf)],
             (conforms_numeric _ _ R HR) as [(j & -> & _)|(-> & g & -> & Hg)]; unfold checkedArithmetic; cbn [checkedInteger].
    2-4: try destruct lt; try destruct rt; try done; exact F.
    repeat (apply elem_of_cons in Hop as [->|Hop]); [| | | |by apply elem_of_nil in Hop].
    1-3: apply checkedIntResult_sound; by destruct lt, rt.
    by destruct lt, rt.
  - apply conforms_int in HL as (i & -> & Hi), HR as (j & -> & Hj). cbn. case_bool_decide; [constructor|].
    cbn. by apply Zrem_int64.
Qed.

Lemma compare_sound lv rv lt rt :
  (isNumeric lt = true ∧ isNumeric rt = true) ∨ (lt = TString ∧ rt = TString) →
  conforms types lv lt = true → conforms types rv rt = true → ∃ z, compareCheckedValues lv rv = Ok z.
Proof.
  intros [[L R]|[-> ->]] HL HR.
  - destruct (checkedRational_numeric _ _ L HL) as [q Eq], (checkedRational_numeric _ _ R HR) as [q' Eq'].
    unfold compareCheckedValues. rewrite Eq, Eq'. destruct (conforms_numeric _ _ L HL) as [(i & -> & _)|(_ & f & -> & _)]; eauto.
  - apply conforms_string in HL as (s & -> & _), HR as (s' & -> & _). cbn. eauto.
Qed.

Lemma unary_sound op v t t' : unaryType op t = Ok t' → conforms types v t = true →
  sound (evaluateCheckedUnary op v) t'.
Proof.
  destruct op; cbn; [| |done].
  - destruct t; try done. intros [= <-] [b ->]%conforms_bool. done.
  - destruct (isNumeric t) eqn:T; [|done]. intros [= <-] H. destruct (conforms_numeric _ _ T H) as [(i & -> & Hi)|(-> & f & -> & Hf)]; cbn.
    + case_bool_decide as Hm; [constructor|]. cbn.
      assert (isInt64 (- i) = true) as Hn.
      { revert Hi Hm. unfold isInt64. rewrite !bool_decide_eq_true. unfold MinInt64, MaxInt64. lia. }
      destruct t; try done; cbn; by rewrite Hn.
    + rewrite Hf. cbn. by destruct f.
Qed.

Lemma strings_sound op lv rv lt rt t : op ∈ [OpMatches; OpStartsWith; OpEndsWith] →
  binaryType environment op lt rt = Ok t → conforms types lv lt = true → conforms types rv rt = true →
  sound (evaluateCheckedBinary matchString op lv rv) t.
Proof.
  intros Hop Ht HL HR. assert (lt = TString ∧ rt = TString ∧ t = TBool) as (-> & -> & ->).
  { repeat (apply elem_of_cons in Hop as [->|Hop]); [..|by apply elem_of_nil in Hop]; destruct lt, rt; try done; lazy in Ht; by simplify_eq. }
  apply conforms_string in HL as (s & -> & _), HR as (s' & -> & _).
  repeat (apply elem_of_cons in Hop as [->|Hop]); [..|by apply elem_of_nil in Hop]; cbn; [|done..].
  destruct (matchString s' s) eqn:E; [done|]. by eapply re_regexp.
Qed.

Lemma arithmetic_sound op lv rv lt rt t : op ∈ [OpSubtract; OpMultiply; OpDivide; OpModulo] →
  binaryType environment op lt rt = Ok t → conforms types lv lt = true → conforms types rv rt = true →
  sound (evaluateCheckedBinary matchString op lv rv) t.
Proof.
  intros Hop Ht HL HR.
  assert (isNumeric lt = true ∧ isNumeric rt = true ∧ t = arithmeticType op lt rt ∧
          (op ∈ [OpAdd; OpSubtract; OpMultiply; OpDivide] ∨ (op = OpModulo ∧ lt = TInt ∧ rt = TInt))) as (L & R & -> & Ho).
  { repeat (apply elem_of_cons in Hop as [->|Hop]); [..|by apply elem_of_nil in Hop]; destruct lt, rt; try done; lazy in Ht; simplify_eq;
      (split_and!; [reflexivity..|]); first [by right | left; solve_op]. }
  pose proof (checkedArithmetic_sound _ _ _ _ _ Ho L R HL HR) as S.
  repeat (apply elem_of_cons in Hop as [->|Hop]); [..|by apply elem_of_nil in Hop]; exact S.
Qed.

Lemma add_sound lv rv lt rt t : binaryType environment OpAdd lt rt = Ok t →
  conforms types lv lt = true → conforms types rv rt = true → sound (evaluateCheckedBinary matchString OpAdd lv rv) t.
Proof.
  intros Ht HL HR.
  assert ((lt = TString ∧ rt = TString ∧ t = TString) ∨
          (isNumeric lt = true ∧ isNumeric rt = true ∧ t = arithmeticType OpAdd lt rt)) as [(-> & -> & ->)|(L & R & ->)].
  { destruct lt, rt; try done; lazy in Ht; simplify_eq; naive_solver. }
  - apply conforms_string in HL as (s & -> & Hs), HR as (s' & -> & Hs'). cbn. by apply ValidUTF8_app.
  - assert (OpAdd ∈ [OpAdd; OpSubtract; OpMultiply; OpDivide]) as Ho by set_solver.
    pose proof (checkedArithmetic_sound _ _ _ _ _ (or_introl Ho) L R HL HR) as S.
    destruct (conforms_numeric _ _ L HL) as [(i & -> & _)|(_ & f & -> & _)]; exact S.
Qed.

Lemma order_sound op lv rv lt rt t : op ∈ [OpGreater; OpGreaterEqual; OpLess; OpLessEqual] →
  binaryType environment op lt rt = Ok t → conforms types lv lt = true → conforms types rv rt = true →
  sound (evaluateCheckedBinary matchString op lv rv) t.
Proof.
  intros Hop Ht HL HR.
  assert (t = TBool ∧ ((isNumeric lt = true ∧ isNumeric rt = true) ∨ (lt = TString ∧ rt = TString))) as [-> C].
  { repeat (apply elem_of_cons in Hop as [->|Hop]); [..|by apply elem_of_nil in Hop]; cbn in Ht; inv_res;
      (split; [done|]); bool_to_prop; (match goal with E : _ || _ = true |- _ => apply orb_true_iff in E as [E|E] end; bool_to_prop; [by left|right]);
      by destruct lt, rt. }
  destruct (compare_sound _ _ _ _ C HL HR) as [z Ez].
  repeat (apply elem_of_cons in Hop as [->|Hop]); [..|by apply elem_of_nil in Hop]; cbn; rewrite Ez; done.
Qed.

Lemma logic_sound op lv rv lt rt t : op ∈ [OpAnd; OpOr] →
  binaryType environment op lt rt = Ok t → conforms types lv lt = true → conforms types rv rt = true →
  sound (evaluateCheckedBinary matchString op lv rv) t ∧ lt = TBool ∧ t = TBool.
Proof.
  intros Hop Ht HL HR. assert (lt = TBool ∧ rt = TBool ∧ t = TBool) as (-> & -> & ->).
  { repeat (apply elem_of_cons in Hop as [->|Hop]); [..|by apply elem_of_nil in Hop]; destruct lt, rt; try done; lazy in Ht; by simplify_eq. }
  apply conforms_bool in HL as [b ->], HR as [b' ->].
  repeat (apply elem_of_cons in Hop as [->|Hop]); [..|by apply elem_of_nil in Hop]; done.
Qed.

Lemma membership_sound op lv rv lt rt t : op ∈ [OpIn; OpContains] →
  binaryType environment op lt rt = Ok t → conforms types lv lt = true → conforms types rv rt = true →
  sound (evaluateCheckedBinary matchString op lv rv) t.
Proof.
  intros Hop Ht HL HR. repeat (apply elem_of_cons in Hop as [->|Hop]); [..|by apply elem_of_nil in Hop]; cbn in Ht.
  - destruct (resolve types rt) as [[]|] eqn:E; try done. inv_res. destruct (conforms_list _ _ _ E _ HR) as [items ->]. done.
  - apply bind_Ok in Ht as (x & E & Ht). inv_res. destruct x; cbn in *; bool_to_prop; try done.
    + assert (rt = TString) as -> by (by destruct rt).
      apply conforms_shape in HL as (r & Er & S). rewrite E in Er. simplify_eq. destruct lv; try done.
      apply conforms_string in HR as (s' & -> & _). done.
    + destruct (conforms_list _ _ _ E _ HL) as [items ->]. done.
Qed.

Lemma binary_sound op lv rv lt rt t : binaryType environment op lt rt = Ok t →
  conforms types lv lt = true → conforms types rv rt = true → sound (evaluateCheckedBinary matchString op lv rv) t.
Proof.
  intros Ht HL HR. destruct op;
    first [ eapply strings_sound; [|eassumption..]; solve_op
          | eapply arithmetic_sound; [|eassumption..]; solve_op
          | eapply order_sound; [|eassumption..]; solve_op
          | eapply membership_sound; [|eassumption..]; solve_op
          | refine (proj1 (logic_sound _ _ _ _ _ _ _ Ht HL HR)); solve_op
          | by eapply add_sound
          | idtac ].
  1-2: cbn in Ht; inv_res; done.
  done.
Qed.

Lemma expression_sound e depth s t s' facts : exprIntsInRange e = true → factsConform facts →
  checkExpression environment limits e depth s = Ok (t, s') →
  sound (evaluateCheckedExpression matchString e facts) t.
Proof.
  intros R F. revert depth s t s'.
  induction e as [| | l | p | op e IH | op l r IHl IHr | f args IH] using Expression_nested_ind; intros depth s t s' H;
    cbn [checkExpression] in H; inv_check; cbn in R.
  - match goal with E : checkLiteralStructure _ _ _ _ = _, E' : literalType _ _ _ = _ |- _ =>
      apply checkLiteralStructure_wf in E; [|done]; destruct (literalType_conforms _ _ _ _ E E') as (v & Ev & Cv) end.
    cbn. by rewrite Ev.
  - inv_res. cbn. destruct (lookupWorkflowFact facts p) as [v|] eqn:Ev; [|constructor]. cbn. by eapply F.
  - match goal with E : checkExpression _ _ _ _ _ = _ |- _ => specialize (IH R _ _ _ _ E) end. cbn.
    destruct (evaluateCheckedExpression matchString e facts); [|exact IH]. cbn. by eapply unary_sound.
  - apply andb_true_iff in R as [Rl Rr].
    match goal with E : checkExpression _ _ l _ _ = _, E' : checkExpression _ _ r _ _ = _ |- _ =>
      specialize (IHl Rl _ _ _ _ E); specialize (IHr Rr _ _ _ _ E') end.
    cbn. destruct (evaluateCheckedExpression matchString l facts) as [lv|]; [|exact IHl]. cbn in IHl |- *.
    destruct (shortCircuit op lv) as [res|] eqn:Sc.
    + unfold shortCircuit in Sc. destruct op; try done; (destruct lv as [|[]| | | | | | | | |]; try done); simplify_eq;
        match goal with E : binaryType _ _ _ _ = Ok _ |- _ => cbn in E; inv_res; done end.
    + destruct (evaluateCheckedExpression matchString r facts) as [rv|]; [|exact IHr]. cbn. by eapply binary_sound.
  - cbn. constructor.
Qed.
End Soundness.

(** ** Normalized values

    [NormalizeValue] returns a value of the requested type, and returns an already
    normalized value unchanged. *)

(** Induction that reaches the elements of nested values. *)
Section AnyInd.
  Context (P : any → Prop).
  Hypotheses (Hnil : P ANil) (Hbool : ∀ b, P (ABool b)) (Hint : ∀ i, P (AInt i)) (Huint : ∀ u, P (AUint u))
    (Hfloat : ∀ f, P (AFloat f)) (Hnum : ∀ s, P (ANumber s)) (Hstr : ∀ s, P (AString s)) (Hbytes : ∀ s, P (ABytes s))
    (Hlist : ∀ l, Forall P l → P (AList l)) (Hmap : ∀ l, Forall (λ e, P e.2) l → P (AMap l)) (Hother : P AOther).
Fixpoint any_nested_ind (v : any) : P v :=
    match v with
    | ANil => Hnil | ABool b => Hbool b | AInt i => Hint i | AUint u => Huint u | AFloat f => Hfloat f
    | ANumber s => Hnum s | AString s => Hstr s | ABytes s => Hbytes s | AOther => Hother
    | AList l => Hlist l ((fix go l := match l return Forall P l with
        | [] => Forall_nil_2 _ | v :: l => Forall_cons_2 _ _ _ (any_nested_ind v) (go l) end) l)
    | AMap l => Hmap l ((fix go l := match l return Forall (λ e, P e.2) l with
        | [] => Forall_nil_2 _ | (k, v) :: l => Forall_cons_2 (λ e, P e.2) (k, v) l (any_nested_ind v) (go l) end) l)
    end.
End AnyInd.

(** The integers of a value are in the range of their Go types. *)
Fixpoint goValue (v : any) : bool :=
  match v with
  | AInt i => isInt64 i
  | AUint u => bool_decide (0 ≤ u < 2 ^ 64)
  | AList items => forallb goValue items
  | AMap entries => forallb (λ e, goValue e.2) entries
  | _ => true
  end.

Lemma normalizeInt_range v i : goValue v = true → normalizeInt v = Some i → isInt64 i = true.
Proof.
  destruct v; cbn; try done; intros G H.
  - by simplify_eq.
  - case_bool_decide; [|done]. simplify_eq. apply bool_decide_eq_true in G. unfold isInt64. apply bool_decide_eq_true.
    unfold MinInt64, MaxInt64 in *. lia.
  - destruct (ratOfFloat f ≫= intOfRat) as [z|]; cbn in H; [|done]. destruct (isInt64 z) eqn:E; [by simplify_eq|done].
  - destruct (exactJSONNumber text) as [q|]; [|done]. destruct (intOfRat q) as [z|]; cbn in H; [|done].
    destruct (isInt64 z) eqn:E; [by simplify_eq|done].
Qed.
Lemma normalizeFloat_finite v f : normalizeFloat v = Some f → isFinite f = true.
Proof.
  unfold normalizeFloat. intros (g & _ & H)%bind_Some. destruct (isFinite g) eqn:E; [by simplify_eq|done].
Qed.

(** A scalar result: not a collection, of the type, and its own normal form. *)
Lemma normalizeScalar_spec r v v' : goValue v = true → normalizeScalar r v = Ok v' →
  scalarConforms v' r = true ∧ normalizeScalar r v' = Ok v' ∧
  match v' with AList _ | AMap _ | ABytes _ => False | _ => True end.
Proof.
  intros G H. destruct r; cbn in H; try done.
  - destruct v; try done. by simplify_eq.
  - destruct (normalizeInt v) as [i|] eqn:E; [|done]. simplify_eq. cbn. rewrite (normalizeInt_range _ _ G E). done.
  - destruct (normalizeFloat v) as [f|] eqn:E; [|done]. simplify_eq. pose proof (normalizeFloat_finite _ _ E) as F.
    cbn. by rewrite F.
  - destruct v; try done. destruct (ValidUTF8 s) eqn:E; [|done]. simplify_eq. cbn. by rewrite E.
  - destruct v; try done.
    + destruct (DecodeString s) as [d|] eqn:E; [|done]. inv_res. cbn. unfold canonicalBase64. rewrite E. bool_to_prop.
      match goal with N : ¬ _ |- _ => apply dec_stable in N; rewrite N end. rewrite bool_decide_eq_true_2, bool_decide_eq_false_2 by naive_solver. done.
    + simplify_eq. cbn. unfold canonicalBase64. rewrite Decode_EncodeToString. rewrite bool_decide_eq_true_2, bool_decide_eq_false_2 by naive_solver. done.
  - destruct v; try done. by simplify_eq.
Qed.

(** A loop that succeeds on every element, and whose results are fixed points of the
    element function, is reproduced by a second pass over its results. *)
Lemma mapNodes_ind {A B} (f : A → Z → result (B * Z)) (g : B → Z → result (B * Z)) (Q : A → B → Prop) l n l' n' :
  (∀ a, a ∈ l → ∀ n b n', f a n = Ok (b, n') → Q a b ∧ g b n = Ok (b, n')) →
  mapNodes f l n = Ok (l', n') → Forall2 Q l l' ∧ mapNodes g l' n = Ok (l', n').
Proof.
  revert n l' n'. induction l as [|a l IH]; intros n l' n' H E; cbn in E; [by simplify_eq|].
  apply bind_Ok in E as ([b n1] & Ea & E). apply bind_Ok in E as ([bs n2] & Eb & E). simplify_eq.
  destruct (H a ltac:(set_solver) _ _ _ Ea) as [Qa Ga].
  destruct (IH _ _ _ ltac:(intros; apply H; set_solver) Eb) as [F Gb]. split; [by constructor|].
  cbn. rewrite Ga. cbn. by rewrite Gb.
Qed.

Section Normalize.
  Context (types : gmap string TypeDefinition).

(** What a successful normalization establishes of its result. *)
Definition normal (ref : typeRef) (depth nodes : Z) (v' : any) (nodes' : Z) : Prop :=
  conforms types v' ref = true ∧ normalizeValue types ref v' depth nodes = Ok (v', nodes').

Lemma enterNode_resolve ref depth nodes r : enterNode types ref depth nodes = Ok r → resolve types ref = Ok r.
Proof. unfold enterNode. intros H. by inv_res. Qed.

Lemma scalar_normal ref r v v' depth nodes : goValue v = true →
  enterNode types ref depth (nodes + 1) = Ok r → normalizeScalar r v = Ok v' → normal ref depth nodes v' (nodes + 1).
Proof.
  intros G E H. destruct (normalizeScalar_spec _ _ _ G H) as (C & N & S). pose proof (enterNode_resolve _ _ _ _ E) as R.
  split.
  - apply conforms_shape. exists r. split; [done|]. destruct r; try done; by destruct v'.
  - destruct v'; try done; cbn; rewrite E; cbn; (destruct r; try done); cbn in N |- *; by rewrite N.
Qed.

Lemma tooMany_length {A B} (l : list A) (l' : list B) : List.length l = List.length l' → tooMany l = tooMany l'.
Proof. unfold tooMany. by intros ->. Qed.

Lemma Forall2_right {A B} (Q : B → Prop) (l : list A) l' : Forall2 (λ _ b, Q b) l l' → Forall Q l'.
Proof. induction 1; by constructor. Qed.

(** A list, whatever it was built from. *)
Lemma list_normal {A} (f : A → Z → result (any * Z)) ref name element depth nodes l l' nodes' :
  enterNode types ref depth (nodes + 1) = Ok (TList name element) → tooMany l = Ok tt →
  (∀ a, a ∈ l → ∀ n b n', f a n = Ok (b, n') → normal element (depth + 1) n b n') →
  mapNodes f l (nodes + 1) = Ok (l', nodes') → normal ref depth nodes (AList l') nodes'.
Proof.
  intros E Hlen Hf Hl.
  eapply (mapNodes_ind _ (λ v nodes, normalizeValue types element v (depth + 1) nodes) (λ _ v, conforms types v element = true))
    in Hl as [F Hl']; [|exact Hf].
  split.
  - apply conforms_shape. eexists. split; [by eapply enterNode_resolve|]. eexists. split; [done|]. by eapply Forall2_right.
  - cbn [normalizeValue]. rewrite E. cbn [mbind result_bind]. rewrite <-(tooMany_length l) by (by apply Forall2_length in F).
    rewrite Hlen. cbn [mbind result_bind]. by rewrite Hl'.
Qed.

Definition entryNormal (expected : string → option typeRef) (depth : Z) (v : any) : Prop :=
  ∀ name t n b n', expected name = Some t → normalizeValue types t v depth n = Ok (b, n') → normal t depth n b n'.

Lemma map_normal ref name element depth nodes l l' nodes' :
  enterNode types ref depth (nodes + 1) = Ok (TMap name element) →
  Forall (λ e, entryNormal (λ _, Some element) (depth + 1) e.2) l →
  normalizeValue types ref (AMap l) depth nodes = Ok (AMap l', nodes') → normal ref depth nodes (AMap l') nodes'.
Proof.
  intros E IH H. cbn [normalizeValue] in H. rewrite E in H. cbn [mbind result_bind] in H.
  apply bind_Ok in H as ([] & Hlen & H). apply bind_Ok in H as ([items nodes1] & Hl & H). simplify_eq. rewrite Forall_forall in IH.
  match type of Hl with mapNodes ?f _ _ = _ =>
    eapply (mapNodes_ind f f (λ _ p, ValidUTF8 p.1 = true ∧ conforms types p.2 element = true)) in Hl as [F Hl'] end.
  2: { intros a Ha n b n' Hb. apply bind_Ok in Hb as ([] & Hu & Hb). apply bind_Ok in Hb as ([x nx] & Hx & Hb). simplify_eq. cbn.
       destruct (IH a Ha "" _ _ _ _ eq_refl Hx) as [C N]. rewrite Hu. cbn. rewrite N. apply failIf_Ok, negb_false_iff in Hu. done. }
  split.
  - apply conforms_shape. eexists. split; [by eapply enterNode_resolve|]. eexists. split; [done|]. by eapply Forall2_right.
  - cbn [normalizeValue]. rewrite E. cbn [mbind result_bind]. rewrite <-(tooMany_length l) by (by apply Forall2_length in F).
    rewrite Hlen. cbn [mbind result_bind]. by rewrite Hl'.
Qed.

Lemma object_normal ref name fields depth nodes l l' nodes' : name ≠ "" →
  enterNode types ref depth (nodes + 1) = Ok (TObject name fields) →
  Forall (λ e, entryNormal (fieldOf fields) (depth + 1) e.2) l →
  normalizeValue types ref (AMap l) depth nodes = Ok (AMap l', nodes') → normal ref depth nodes (AMap l') nodes'.
Proof.
  intros Hne E IH H. cbn [normalizeValue] in H. rewrite E in H. cbn [mbind result_bind] in H.
  apply bind_Ok in H as ([] & Hlen & H). apply bind_Ok in H as ([items nodes1] & Hl & H).
  apply bind_Ok in H as ([] & Hreq & H). simplify_eq. rewrite Forall_forall in IH.
  match type of Hl with mapNodes ?f _ _ = _ =>
    eapply (mapNodes_ind f f (λ _ p, ValidUTF8 p.1 = true ∧ ∃ t, fieldOf fields p.1 = Some t ∧ conforms types p.2 t = true)) in Hl as [F Hl'] end.
  2: { intros a Ha n b n' Hb. apply bind_Ok in Hb as ([] & Hu & Hb). destruct (fieldOf fields a.1) as [ta|] eqn:Et; [|done].
       apply bind_Ok in Hb as ([x nx] & Hx & Hb). simplify_eq. cbn.
       destruct (IH a Ha _ _ _ _ _ Et Hx) as [C N]. rewrite Hu. cbn. rewrite Et, N. apply failIf_Ok, negb_false_iff in Hu. eauto. }
  split.
  - apply conforms_shape. eexists. split; [by eapply enterNode_resolve|]. eexists. split; [done|]. split; [by eapply Forall2_right|].
    unfold requiredObjectFields. rewrite bool_decide_eq_true_2 by done. apply failIf_Ok, negb_false_iff, forallb_Forall in Hreq.
    eapply Forall_impl; [exact Hreq|]. intros x Hx. by apply bool_decide_eq_true in Hx.
  - cbn [normalizeValue]. rewrite E. cbn [mbind result_bind]. rewrite <-(tooMany_length l) by (by apply Forall2_length in F).
    rewrite Hlen. cbn [mbind result_bind]. rewrite Hl'. cbn [mbind result_bind]. by rewrite Hreq.
Qed.

Lemma normalizeValue_normal ref v depth nodes v' nodes' : goValue v = true → parsed ref = true →
  normalizeValue types ref v depth nodes = Ok (v', nodes') → normal ref depth nodes v' nodes'.
Proof.
  revert ref depth nodes v' nodes'.
  induction v as [|b|i|u|f|s|s|s|l IH|l IH|] using any_nested_ind; intros ref depth nodes v' nodes' G P H0;
    pose proof H0 as H; cbn [normalizeValue] in H; apply bind_Ok in H as (r & E & H); pose proof (enterNode_resolve _ _ _ _ E) as R;
    pose proof (resolve_parsed types _ _ P R) as Pr.
  all: assert (∀ w, goValue w = true → (x ← normalizeScalar r w; Ok (x, nodes + 1)) = Ok (v', nodes') → normal ref depth nodes v' nodes') as Hs
    by (intros w Gw Hw; apply bind_Ok in Hw as (x & N & Hw); simplify_eq; by eapply scalar_normal).
  all: try (by (destruct r; eapply Hs; [|exact H])).
  all: destruct r; try (by (eapply Hs; [|exact H])); clear Hs.
  - apply bind_Ok in H as ([] & Hlen & H). apply bind_Ok in H as ([items nodes1] & Hl & H). simplify_eq.
    eapply list_normal; [exact E|exact Hlen| |exact Hl]. intros a _ n b n' Hb. unfold normalizeByteItem in Hb.
    apply bind_Ok in Hb as (ra & Ea & Hb). apply bind_Ok in Hb as (x & Nx & Hb). simplify_eq. eapply scalar_normal; [|exact Ea|exact Nx].
    cbn. apply bool_decide_eq_true. pose proof (byteN_lt a). lia.
  - apply bind_Ok in H as ([] & Hlen & H). apply bind_Ok in H as ([items nodes1] & Hl & H). simplify_eq.
    cbn in G. apply forallb_Forall in G. rewrite Forall_forall in IH, G.
    eapply list_normal; [exact E|exact Hlen| |exact Hl]. intros a Ha n b n' Hb. exact (IH a Ha _ _ _ _ _ (G a Ha) Pr Hb).
  - apply bind_Ok in H as ([] & _ & H). apply bind_Ok in H as ([items nodes1] & _ & H). simplify_eq.
    cbn in G. apply forallb_Forall in G. rewrite Forall_forall in IH, G.
    eapply map_normal; [exact E| |exact H0]. apply Forall_forall. intros a Ha m t n b n' [= <-] Hb. exact (IH a Ha _ _ _ _ _ (G a Ha) Pr Hb).
  - apply bind_Ok in H as ([] & _ & H). apply bind_Ok in H as ([items nodes1] & _ & H). apply bind_Ok in H as ([] & _ & H). simplify_eq.
    cbn in G. apply forallb_Forall in G. rewrite Forall_forall in IH, G. destruct Pr as [Pn Pf].
    eapply object_normal; [exact Pn|exact E| |exact H0]. apply Forall_forall. intros a Ha m t n b n' Et Hb.
    exact (IH a Ha _ _ _ _ _ (G a Ha) (fieldOf_Forall _ _ _ _ Pf Et) Hb).
Qed.
End Normalize.

Lemma NormalizeValue_Ok environment typeName v v' :
  NormalizeValue environment typeName v = Ok v' ↔
  ∃ e t n, normalizeEnvironment environment = Ok e ∧ parse (env_Types e) typeName false = Ok t ∧
    normalizeValue (env_Types e) t v 0 0 = Ok (v', n).
Proof.
  unfold NormalizeValue. split.
  - intros H. apply bind_Ok in H as (e & He & H). apply bind_Ok in H as (t & Ht & H). apply bind_Ok in H as ([x n] & Hx & H).
    injection H as <-. exists e, t, n. destruct (normalizeEnvironment environment); [|done]. injection He as ->. done.
  - intros (e & t & n & He & Ht & Hx). rewrite He. apply bind_Ok. exists e. split; [done|]. apply bind_Ok. exists t. split; [done|].
    apply bind_Ok. by exists (v', n).
Qed.

Lemma NormalizeValue_conforms environment typeName v v' : goValue v = true →
  NormalizeValue environment typeName v = Ok v' →
  ∃ e t, normalizeEnvironment environment = Ok e ∧ parse (env_Types e) typeName false = Ok t ∧
    conforms (env_Types e) v' t = true ∧ NormalizeValue environment typeName v' = Ok v'.
Proof.
  intros G (e & t & n & He & Ht & Hx)%NormalizeValue_Ok.
  destruct (normalizeValue_normal _ _ _ _ _ _ _ G (parse_parsed _ _ _ _ Ht) Hx) as [C N].
  exists e, t. split_and!; [done..|]. apply NormalizeValue_Ok. by exists e, t, n.
Qed.

(** Normalization at the boundary is sound and stable. Whatever value a caller supplies for a declared type, a
    normalized value has that type (a bounded integer, a finite float, canonical base64, a closed object with all of its
    required fields, and so on through lists and maps), and normalizing it again returns it unchanged. *)
Theorem normalized_values_conform (environment : Environment) (typeName : string) (v v' : any) :
  goValue v = true → NormalizeValue environment typeName v = Ok v' →
  NormalizeValue environment typeName v' = Ok v' ∧
  ∃ e t, normalizeEnvironment environment = Ok e ∧ parse (env_Types e) typeName false = Ok t ∧
    conforms (env_Types e) v' t = true.
Proof.
  intros G H. destruct (NormalizeValue_conforms _ _ _ _ G H) as (e & t & He & Ht & C & N). split; [done|]. by exists e, t.
Qed.

Definition orderTypes : gmap string TypeDefinition :=
  <["Order" := mkTypeDef "object" "" (<["id" := "int"]> (<["tags" := "list<string>"]> (<["total" := "float"]> ∅))) ["id"]]> ∅.
Definition orderEnvironment : Environment := mkEnvironment ∅ ∅ ∅ orderTypes.
Definition orderInput : any :=
  AMap [("id", ANumber "12e1"); ("tags", AList [AString "new"]); ("total", ANumber "2.5")].
Definition orderOutput : any :=
  AMap [("id", AInt 120); ("tags", AList [AString "new"]); ("total", AFloat (S754_finite false 5629499534213120 (-51)))].

Lemma normalized_values_conform_witness :
  NormalizeValue orderEnvironment "[]Order" (AList [orderInput]) = Ok (AList [orderOutput]) ∧
  NormalizeValue orderEnvironment "[]Order" (AList [orderOutput]) = Ok (AList [orderOutput]).
Proof.
  assert (NormalizeValue orderEnvironment "[]Order" (AList [orderInput]) = Ok (AList [orderOutput])) as H by (vm_compute; reflexivity).
  split; [exact H|]. exact (proj1 (normalized_values_conform orderEnvironment "[]Order" (AList [orderInput]) (AList [orderOutput]) eq_refl H)).
Defined.
