(* ===== verification/CheckInv.v ===== *)
(** * What an accepted artifact looks like

    Inversion of the checker, from the artifact down to the arguments of a step, and the
    fact that checking an accepted artifact again changes nothing. *)

From S2P Require Import Prelude GoText Json Ir Types Env EnvProps Check Value Eval CheckLemmas Typing.
From Stdlib Require Import ZArith NArith Ascii String Lia.
Local Open Scope list_scope.
Local Open Scope Z_scope.

Section Inversion.
  Context (environment : Environment) (limits : Limits).
  #[local] Abbreviation types := (env_Types environment).

(** ** Steps *)

(** What [checkStep] has established of the step it returns. *)
Record stepAccepted (index : nat) (slots : list typeRef) (policy : Z) (step : Step) (slots' : list typeRef)
    (contract : VerbContract) : Prop := {
  sa_ordinal : sp_Ordinal step = u32 (Z.of_nat index);
  sa_verb : env_Verbs environment !! sp_Verb step = Some contract;
  sa_hash : ContractHash contract = Ok (sp_ContractHash step);
  sa_retry : sp_RetryPolicy step = Some (expectedRetry contract);
  sa_idempotency : sp_IdempotencyPolicy step = expectedIdempotency contract;
  sa_fencing : sp_FencingRequirement step = expectedFencing contract;
  sa_compensation : freezeCompensation environment step contract policy = Ok (sp_Compensation step);
  sa_count : Z.of_nat (List.length (sp_Arguments step)) ≤ MaxArgumentsPerStep limits;
  sa_required : Forall (λ r, r ∈ arg_Name <$> sp_Arguments step) (default [] (vc_RequiredArgs contract));
  sa_arguments : ∃ s s', checkArguments environment limits contract slots None (sp_Arguments step) s = Ok (tt, s');
  sa_slots : ∃ t, parse types (vc_ResultType contract) true = Ok t ∧ bindSlot (sp_ResultSlot step) t slots = Ok slots' }.

Lemma freezeOption_Ok {A} `{EqDecision A} (f r : option A) e : freezeOption f e = Ok r → r = Some e.
Proof. destruct f; cbn; intros H; [|by simplify_eq]. inv_res. bool_to_prop. f_equal. by apply dec_stable. Qed.
Lemma freezeEnum_Ok f e r : freezeEnum f e = Ok r → r = e.
Proof. unfold freezeEnum. case_bool_decide; intros; [by simplify_eq|]. inv_res. bool_to_prop. by apply dec_stable. Qed.
Lemma freezeOption_Some {A} `{EqDecision A} (e : A) : freezeOption (Some e) e = Ok (Some e).
Proof. cbn. by rewrite bool_decide_eq_false_2 by naive_solver. Qed.
Lemma freezeEnum_same e : freezeEnum e e = Ok e.
Proof. unfold freezeEnum. case_bool_decide; [done|]. by rewrite bool_decide_eq_false_2 by naive_solver. Qed.

(** The compensation a step may carry, and that it is frozen. *)
Lemma freezeCompensation_Ok step contract policy c : freezeCompensation environment step contract policy = Ok c →
  freezeCompensation environment (step <| sp_Compensation := c |>) contract policy = Ok c.
Proof.
  unfold freezeCompensation. destruct step; cbn. case_bool_decide as B; intros H; inv_res; cbn.
  - match goal with E : bool_decide _ = false |- _ => by rewrite E end.
  - match goal with E : env_Verbs _ !! _ = Some _ |- _ => rewrite E end. cbn.
    destruct (ContractHash _) as [h|]; [|done]. inv_res. cbn. destruct sp_Compensation; [inv_res|].
    + match goal with E : _ || _ = false |- _ => by rewrite E end.
    + inv_res. case_bool_decide; cbn; [|done]. by rewrite !bool_decide_eq_false_2 by naive_solver.
Qed.

Lemma freezeCompensation_ext step step' contract policy : sp_Compensation step = sp_Compensation step' →
  freezeCompensation environment step contract policy = freezeCompensation environment step' contract policy.
Proof. unfold freezeCompensation. by intros ->. Qed.

(** The fields [checkStepPolicies] leaves alone. *)
Definition sameBody (step step' : Step) : Prop :=
  sp_Id step' = sp_Id step ∧ sp_Ordinal step' = sp_Ordinal step ∧ sp_Verb step' = sp_Verb step ∧
  sp_ContractHash step' = sp_ContractHash step ∧ sp_Arguments step' = sp_Arguments step ∧ sp_ResultSlot step' = sp_ResultSlot step.

Lemma checkStepPolicies_Ok step contract policy step' : checkStepPolicies environment step contract policy = Ok step' →
  sameBody step step' ∧ sp_RetryPolicy step' = Some (expectedRetry contract) ∧
  sp_IdempotencyPolicy step' = expectedIdempotency contract ∧ sp_FencingRequirement step' = expectedFencing contract ∧
  freezeCompensation environment step' contract policy = Ok (sp_Compensation step').
Proof.
  unfold checkStepPolicies. intros H. apply bind_Ok in H as (r & Hr & H). apply bind_Ok in H as (i & Hi & H).
  apply bind_Ok in H as (f & Hf & H). apply bind_Ok in H as (c & Hc & H). injection H as <-.
  apply freezeOption_Ok in Hr as ->. apply freezeEnum_Ok in Hi as ->, Hf as ->. apply freezeCompensation_Ok in Hc.
  destruct step. cbn in *. repeat split; done.
Qed.

Lemma checkStepPolicies_idem step contract policy step' : checkStepPolicies environment step contract policy = Ok step' →
  checkStepPolicies environment step' contract policy = Ok step'.
Proof.
  intros (_ & Hr & Hi & Hf & Hc)%checkStepPolicies_Ok. unfold checkStepPolicies. rewrite Hr, freezeOption_Some. cbn [mbind result_bind].
  destruct step'. cbn in *. subst. rewrite freezeEnum_same. cbn. rewrite freezeEnum_same. cbn. 
  erewrite freezeCompensation_ext; [rewrite Hc|done]. done.
Qed.

Lemma checkStep_accepted index step slots policy s step' slots' s' :
  checkStep environment limits index step slots policy s = Ok ((step', slots'), s') →
  sameBody step step' ∧ ∃ contract, stepAccepted index slots policy step' slots' contract.
Proof.
  unfold checkStep. intros H. inv_check. inv_res. bool_to_prop.
  match goal with E : checkStepPolicies _ _ _ _ = Ok _ |- _ => apply checkStepPolicies_Ok in E as ((B1 & B2 & B3 & B4 & B5 & B6) & P1 & P2 & P3 & P4) end.
  split; [done|]. eexists. split; try done; rewrite ?B1, ?B2, ?B3, ?B4, ?B5, ?B6.
  - by apply dec_stable.
  - done.
  - match goal with N : ¬ (sp_ContractHash step ≠ _) |- _ => apply dec_stable in N; by rewrite N end.
  - rewrite <-B5. lia.
  - apply Forall_forall. intros r Hr. match goal with F : forallb _ _ = true |- _ => pose proof (forallb_elem _ _ _ F Hr) as G end.
    apply bool_decide_eq_true in G. by rewrite <-B5.
  - rewrite <-B5. eauto.
  - rewrite <-B6. eauto.
Qed.

(** ** Running the checker on its own output *)
Lemma checkStep_again index step slots policy s step' slots' s' :
  checkStep environment limits index step slots policy s = Ok ((step', slots'), s') →
  checkStep environment limits index step' slots policy s = Ok ((step', slots'), s').
Proof.
  unfold checkStep. intros H. inv_check.
  match goal with E : checkStepPolicies _ _ _ _ = Ok _ |- _ =>
    pose proof (checkStepPolicies_Ok _ _ _ _ E) as ((B1 & B2 & B3 & B4 & B5 & B6) & _); apply checkStepPolicies_idem in E end.
  rewrite B1, B2, B3, B4. run_check.
Qed.

Lemma checkSteps_again index steps slots policy s steps' s' :
  checkSteps environment limits index steps slots policy s = Ok (steps', s') →
  checkSteps environment limits index steps' slots policy s = Ok (steps', s').
Proof.
  revert index slots s steps' s'. induction steps as [|step steps IH]; intros index slots s steps' s' H; cbn in H.
  - by inv_check.
  - inv_check. destruct x as [step1 slots1]. inv_check.
    match goal with E : checkStep _ _ _ _ _ _ _ = _, E' : checkSteps _ _ _ _ _ _ _ = _ |- _ =>
      apply checkStep_again in E; apply IH in E' end.
    cbn. run_check.
Qed.
Lemma checkSteps_length index steps slots policy s steps' s' :
  checkSteps environment limits index steps slots policy s = Ok (steps', s') → List.length steps' = List.length steps.
Proof.
  revert index slots s steps' s'. induction steps as [|step steps IH]; intros index slots s steps' s' H; cbn in H; inv_check; [done|].
  destruct x as [step1 slots1]. inv_check. cbn. f_equal. by eapply IH.
Qed.

Lemma checkPlan_again plan s plan' s' :
  checkPlan environment limits plan s = Ok (plan', s') → checkPlan environment limits plan' s = Ok (plan', s').
Proof.
  unfold checkPlan. intros H. inv_check. destruct plan. cbn in *.
  match goal with E : checkSteps _ _ _ _ _ _ _ = _ |- _ => pose proof (checkSteps_length _ _ _ _ _ _ _ E) as L; apply checkSteps_again in E end.
  rewrite L. run_check.
Qed.

Lemma checkPlan_keeps plan s plan' s' : checkPlan environment limits plan s = Ok (plan', s') →
  ∃ steps, plan' = plan <| pl_Steps := steps |>.
Proof. unfold checkPlan. intros H. inv_check. eauto. Qed.
Lemma comparePlans_keeps p plan steps : comparePlans p (plan <| pl_Steps := steps |>) = comparePlans p plan.
Proof. by destruct plan. Qed.

Lemma checkPlans_again previous plans s plans' s' :
  checkPlans environment limits previous plans s = Ok (plans', s') →
  checkPlans environment limits previous plans' s = Ok (plans', s').
Proof.
  revert previous s plans' s'. induction plans as [|plan plans IH]; intros previous s plans' s' H; cbn in H.
  - by inv_check.
  - inv_check. match goal with E : checkPlan _ _ _ _ = _, E' : checkPlans _ _ _ _ _ = _ |- _ =>
      pose proof (checkPlan_keeps _ _ _ _ E) as [steps K]; apply checkPlan_again in E; apply IH in E' end.
    cbn. subst. apply checkM_bind_Ok. eexists _, _. split.
    { apply guardM_Ok. split; [|reflexivity]. destruct previous; [by rewrite comparePlans_keeps|done]. }
    run_check.
Qed.
Lemma checkPlans_length previous plans s plans' s' :
  checkPlans environment limits previous plans s = Ok (plans', s') → List.length plans' = List.length plans.
Proof.
  revert previous s plans' s'. induction plans as [|plan plans IH]; intros previous s plans' s' H; cbn in H; inv_check; [done|].
  cbn. f_equal. by eapply IH.
Qed.

Lemma check_again artifact s artifact' s' :
  check environment limits artifact s = Ok (artifact', s') → check environment limits artifact' s = Ok (artifact', s').
Proof.
  unfold check. intros H. inv_check. destruct artifact. cbn in *.
  match goal with E : checkPlans _ _ _ _ _ = _ |- _ => pose proof (checkPlans_length _ _ _ _ _ E) as L; apply checkPlans_again in E end.
  rewrite L. run_check.
Qed.

End Inversion.

(** ** Limits *)
Lemma limitOr_Ok field d r : limitOr field d = Ok r → 0 < d → 0 < r ∧ (0 < field → r = field).
Proof. unfold limitOr. intros H Hd. inv_res. bool_to_prop. case_bool_decide; lia. Qed.
Lemma limitOr_pos field d : 0 < field → limitOr field d = Ok field.
Proof. intros H. unfold limitOr. rewrite bool_decide_eq_false_2 by lia. cbn. by rewrite bool_decide_eq_false_2 by lia. Qed.
Lemma withDefaults_idem l l' : withDefaults l = Ok l' → withDefaults l' = Ok l'.
Proof.
  unfold withDefaults. intros H. repeat (apply bind_Ok in H as (? & ?%limitOr_Ok & H); [|reflexivity]). injection H as <-. cbn.
  repeat (rewrite limitOr_pos by tauto; cbn [mbind result_bind]). done.
Qed.
