(* ===== verification/ArtifactDemo.v ===== *)
(** * A rule artifact

    A small environment and a two-step compensating plan over it, checked by evaluation.
    The witnesses of the theorems about artifacts are stated on it. *)

From S2P Require Import Prelude GoText Sha256 Json Ir Types Env Check.
From Stdlib Require Import ZArith Ascii String.
Local Open Scope list_scope.
Local Open Scope Z_scope.

Definition shipVerb : VerbContract :=
  mkVerb {["to" := "string"]} None "string" "unship" (mkRetryPolicy 3 100 1000) IdempotencyKeyRequired false.
Definition unshipVerb : VerbContract :=
  mkVerb {["to" := "string"]} None "void" "" (mkRetryPolicy 0 0 0) IdempotencyNone false.
Definition notifyVerb : VerbContract :=
  mkVerb {["text" := "string"; "ticket" := "string"]} (Some ["text"]) "void" "" (mkRetryPolicy 0 0 0) "" true.
Definition shopEnvironment : Environment :=
  mkEnvironment {["customer.name" := "string"; "order.total" := "int"]}
    {["ship" := shipVerb; "unship" := unshipVerb; "notify" := notifyVerb]} ∅ ∅.
(** As [Check] normalizes it. *)
Definition shopNormal : Environment :=
  match normalizeEnvironment shopEnvironment with Ok e => e | Err _ => shopEnvironment end.
Definition hashOf (verb : string) : string :=
  match env_Verbs shopNormal !! verb with
  | Some c => match ContractHash c with Ok h => h | Err _ => "" end
  | None => ""
  end.
Definition shopDigest : string := Eval vm_compute in match EnvironmentDigest shopNormal with Ok d => d | Err _ => "" end.
Definition shipHash : string := Eval vm_compute in hashOf "ship".
Definition notifyHash : string := Eval vm_compute in hashOf "notify".

Definition shipStep : Step :=
  mkIrStep "ship-1" 0 "ship" shipHash [mkArgument "to" (ValueFactPath "customer.name")] (Some 0) None None 0 0.
Definition notifyStep : Step :=
  mkIrStep "notify-1" 1 "notify" notifyHash
    [mkArgument "text" (ValueLiteral (LitString "sent")); mkArgument "ticket" (ValueResultSlot 0)] None None None 0 0.
Definition largeOrder : Expression := ExprBinary OpGreater (ExprFactPath "order.total") (ExprLiteral (LitInt 100)).
Definition shipPlan : Plan :=
  mkPlan "ship-large" SOURCE_DIALECT_LIST 0 5 largeOrder EXECUTION_POLICY_DURABLE_COMPENSATING [shipStep; notifyStep].
Definition auditPlan : Plan :=
  mkPlan "audit" SOURCE_DIALECT_LIST 1 1 (ExprLiteral (LitBool true)) EXECUTION_POLICY_DURABLE_FAIL_FAST [].
Definition shopArtifact : RuleArtifact :=
  mkRuleArtifact FormatVersion (Some (mkCompiler "effectusc" "1.0.0" shopDigest)) shopDigest [shipPlan; auditPlan].

(** A stand-in for the wire format: one artifact, one encoding. *)
Definition shopSize (_ : RuleArtifact) : Z := 4.
Definition shopKnown (_ : RuleArtifact) : bool := false.
Definition shopMarshal (_ : RuleArtifact) : option string := Some "wire".
Definition noLimits : Limits := mkLimits 0 0 0 0 0 0 0 0 0 0 0 0 0.
Definition shopChecked : result (Checked * RuleArtifact) :=
  Eval vm_compute in Check shopSize shopKnown shopMarshal (Some shopArtifact) shopEnvironment noLimits.
Definition shopHandle : Checked := match shopChecked with Ok r => r.1 | Err _ => mkChecked "" "" 0 0 0 end.
Definition shopClone : RuleArtifact := match shopChecked with Ok r => r.2 | Err _ => shopArtifact end.
Definition shopUnmarshal (_ : string) : option RuleArtifact := Some shopClone.

Example shopChecked_Ok :
  Check shopSize shopKnown shopMarshal (Some shopArtifact) shopEnvironment noLimits = Ok (shopHandle, shopClone).
Proof. vm_compute. reflexivity. Qed.
Example shopClone_compensates : (sp_Compensation <$> (ra_Plans shopClone ≫= pl_Steps)) = [Some (mkCompensation "unship" (hashOf "unship")); None].
Proof. vm_compute. reflexivity. Qed.
