(* ===== verification/ArtifactProps.v ===== *)
(** * What acceptance of an artifact means

    The promises [Check] makes to the rest of the program about an artifact it has
    accepted: it is canonically ordered, its identifiers are unique, it is within the
    limits, its steps carry the policies of their verbs, and checking its canonical
    encoding gives the same result. *)

From S2P Require Import Prelude GoText Sha256 Json Ir Types Env EnvProps Check Value Eval CheckLemmas Typing CheckInv ArtifactDemo.
From Stdlib Require Import ZArith NArith Ascii String Lia.
Local Open Scope list_scope.
Local Open Scope Z_scope.

(** ** Framing

    [keeps f m]: a successful run of [m] leaves the part [f] of the checker's state as
    it was. *)
Definition keeps {A B} (f : checkState → B) (m : checkM A) : Prop := ∀ s a s', m s = Ok (a, s') → f s' = f s.

Create HintDb keeps.
Section Frame.
  Context {B : Type} (f : checkState → B).
Lemma keeps_bind {A C} (m : checkM A) (k : A → checkM C) : keeps f m → (∀ a, keeps f (k a)) → keeps f (m ≫= k).
Proof. intros Hm Hk s c s' H. inv_check. erewrite Hk by eassumption. by eapply Hm. Qed.
Lemma keeps_ret {A} (a : A) : keeps f (mret a).
Proof. intros s ? ? H. by inv_check. Qed.
Lemma keeps_throw {A} e : keeps f (throw e : checkM A).
Proof. intros s ? ? H. by inv_check. Qed.
Lemma keeps_guard b e : keeps f (guardM b e).
Proof. intros s ? ? H. by inv_check. Qed.
Lemma keeps_lift {A} (r : result A) : keeps f (lift r).
Proof. intros s ? ? H. by inv_check. Qed.
Lemma keeps_orInvalid {A} t (r : result A) : keeps f (orInvalid t r).
Proof. intros s ? ? H. by inv_check. Qed.
Lemma keeps_getM {A} (g : checkState → A) : keeps f (getM g).
Proof. intros s ? ? H. by inv_check. Qed.
Lemma keeps_inContext {A} t (m : checkM A) : keeps f m → keeps f (inContext t m).
Proof. intros Hm s ? ? H. inv_check. by eapply Hm. Qed.
Lemma keeps_modify g : (∀ s, f (g s) = f s) → keeps f (modifyM g).
Proof. intros Hg s ? ? H. by inv_check. Qed.
End Frame.
#[export] Hint Resolve keeps_ret keeps_throw keeps_guard keeps_lift keeps_orInvalid keeps_getM keeps_inContext : keeps.
Ltac frame :=
  repeat first
    [ solve [eauto with keeps]
    | apply keeps_bind; [|intros ?]
    | apply keeps_modify; reflexivity
    | apply keeps_inContext
    | match goal with |- keeps _ (match ?x with _ => _ end) => destruct x end ].

(** The part of the state that only plans and steps write. *)
Definition ck_ids (s : checkState) : gset string * gset string * gset (Z * Z) * Z :=
  (ck_planIDs s, ck_stepIDs s, ck_sourceOrders s, ck_stepCount s).
Definition ck_planPart (s : checkState) : gset string * gset (Z * Z) * Z := (ck_planIDs s, ck_sourceOrders s, ck_stepCount s).

Section Framing.
  Context (environment : Environment) (limits : Limits).

(** Texts and literals only write their counters. *)
Lemma text_frame {B} (f : checkState → B) value required :
  (∀ n s, f (addStringBytes n s) = f s) → keeps f (text limits value required).
Proof. intros Hf. unfold text. frame. apply keeps_modify. auto. Qed.
Lemma text_keeps value required : keeps ck_ids (text limits value required).
Proof. by apply text_frame. Qed.
#[local] Hint Resolve text_keeps text_frame : keeps.

Lemma checkLiteralStructure_frame {B} (f : checkState → B) l depth :
  (∀ n s, f (addStringBytes n s) = f s) → (∀ s, f (countLiteral s) = f s) → keeps f (checkLiteralStructure limits l depth).
Proof.
  intros Hb Hl. assert (keeps f (modifyM countLiteral)) by (apply keeps_modify; auto). revert depth.
  induction l as [| | n | b | i | d | str | str | l IH | l IH] using Literal_nested_ind; intros depth;
    cbn [checkLiteralStructure]; frame.
  - induction IH as [|v l Hv _ IHl]; frame.
  - generalize (@None string). induction IH as [|[name v] l Hv _ IHl]; intros previous; frame.
Qed.
Lemma checkLiteralStructure_keeps l depth : keeps ck_ids (checkLiteralStructure limits l depth).
Proof. by apply checkLiteralStructure_frame. Qed.
#[local] Hint Resolve checkLiteralStructure_keeps : keeps.

Lemma checkExpression_keeps e depth : keeps ck_ids (checkExpression environment limits e depth).
Proof.
  revert depth. induction e as [| | l | p | op e IH | op l r IHl IHr | fn args IH] using Expression_nested_ind; intros depth;
    cbn [checkExpression]; frame.
  match goal with c : FunctionContract |- _ => generalize (fc_ArgumentTypes c) end. induction IH as [|v l Hv _ IHl]; intros [|ty tys]; frame.
Qed.
#[local] Hint Resolve checkExpression_keeps : keeps.

Lemma checkValue_keeps v expected slots : keeps ck_ids (checkValue environment limits v expected slots).
Proof. unfold checkValue. frame. Qed.
#[local] Hint Resolve checkValue_keeps : keeps.
Lemma checkArguments_keeps contract slots previous l : keeps ck_ids (checkArguments environment limits contract slots previous l).
Proof. revert previous. induction l as [|a l IH]; intros previous; cbn [checkArguments]; frame. Qed.
End Framing.
#[export] Hint Resolve text_keeps checkLiteralStructure_keeps checkExpression_keeps checkValue_keeps checkArguments_keeps : keeps.

(** ** Identifiers and order *)

(** New names: distinct, and not among those already taken. *)
Definition freshNames `{Countable A} (l : list A) (taken : gset A) : Prop := NoDup l ∧ list_to_set l ## taken.
Lemma freshNames_nil `{Countable A} (taken : gset A) : freshNames [] taken.
Proof. split; [constructor|set_solver]. Qed.
Lemma freshNames_app `{Countable A} l1 l2 (taken : gset A) :
  freshNames l1 taken → freshNames l2 (list_to_set l1 ∪ taken) → freshNames (l1 ++ l2) taken.
Proof.
  intros [N1 D1] [N2 D2]. split; [|rewrite list_to_set_app; set_solver]. apply NoDup_app. split_and!; [done| |done].
  intros i Hi%(elem_of_list_to_set (C:=gset A)) Hi'%(elem_of_list_to_set (C:=gset A)). set_solver.
Qed.
Lemma freshNames_cons `{Countable A} i l (taken : gset A) :
  i ∉ taken → freshNames l ({[i]} ∪ taken) → freshNames (i :: l) taken.
Proof.
  intros Hi Hl. apply (freshNames_app [i]).
  - split; [apply NoDup_singleton|set_solver].
  - cbn. by rewrite union_empty_r_L.
Qed.

Section Identifiers.
  Context (environment : Environment) (limits : Limits).

(** [ck_ids] after a run that keeps it. *)
Lemma keeps_ids {A} (m : checkM A) s a s' : keeps ck_ids m → m s = Ok (a, s') →
  ck_planIDs s' = ck_planIDs s ∧ ck_stepIDs s' = ck_stepIDs s ∧ ck_sourceOrders s' = ck_sourceOrders s ∧ ck_stepCount s' = ck_stepCount s.
Proof. intros K H. specialize (K _ _ _ H). unfold ck_ids in K. by simplify_eq. Qed.

Ltac use_frame :=
  repeat match goal with
  | H : ?m ?s = Ok (_, ?s') |- _ =>
      apply keeps_ids in H; [destruct H as (? & ? & ? & ?) | solve [eauto with keeps]]
  end; cbn in *.

Lemma checkStep_ids index step slots policy s step' slots' s' :
  checkStep environment limits index step slots policy s = Ok ((step', slots'), s') →
  sp_Id step' = sp_Id step ∧ (sp_Id step ∉ ck_stepIDs s) ∧ ck_stepIDs s' = ({[sp_Id step]} ∪ ck_stepIDs s) ∧
  ck_planPart s' = ck_planPart s.
Proof.
  intros H. pose proof (checkStep_accepted _ _ _ _ _ _ _ _ _ _ H) as [(E & _) _]. split; [done|].
  unfold checkStep in H. inv_check. inv_res. use_frame. bool_to_prop. unfold ck_planPart.
  repeat match goal with E : ?f ?s' = ?f ?s |- _ => rewrite E in *; clear E end. 
  split_and!; done.
Qed.

Lemma checkSteps_ids index steps slots policy s steps' s' :
  checkSteps environment limits index steps slots policy s = Ok (steps', s') →
  freshNames (sp_Id <$> steps') (ck_stepIDs s) ∧
  ck_stepIDs s' = (list_to_set (sp_Id <$> steps') ∪ ck_stepIDs s) ∧ ck_planPart s' = ck_planPart s.
Proof.
  revert index slots s steps' s'. induction steps as [|step steps IH]; intros index slots s steps' s' H; cbn in H.
  - inv_check. cbn. split_and!; [apply freshNames_nil|by rewrite union_empty_l_L|done].
  - inv_check. destruct x as [step1 slots1]. inv_check.
    match goal with E : checkStep _ _ _ _ _ _ _ = _, E' : checkSteps _ _ _ _ _ _ _ = _ |- _ =>
      apply checkStep_ids in E as (E1 & E2 & E3 & E4); apply IH in E' as (F1 & F2 & F3) end.
    rewrite E3 in *. cbn. rewrite E1 in *. split_and!; [by apply freshNames_cons| |congruence].
    rewrite F2, union_assoc_L. f_equal. apply union_comm_L.
Qed.

Definition planSteps (plans : list Plan) : list Step := plans ≫= pl_Steps.
Definition planOrder (p : Plan) : Z * Z := (pl_SourceDialect p, pl_SourceOrder p).

Lemma checkPlan_ids plan s plan' s' : checkPlan environment limits plan s = Ok (plan', s') →
  (pl_Id plan' ∉ ck_planIDs s) ∧ ck_planIDs s' = ({[pl_Id plan']} ∪ ck_planIDs s) ∧
  (planOrder plan' ∉ ck_sourceOrders s) ∧ ck_sourceOrders s' = ({[planOrder plan']} ∪ ck_sourceOrders s) ∧
  freshNames (sp_Id <$> pl_Steps plan') (ck_stepIDs s) ∧
  ck_stepIDs s' = (list_to_set (sp_Id <$> pl_Steps plan') ∪ ck_stepIDs s) ∧
  ck_stepCount s' = ck_stepCount s + Z.of_nat (List.length (pl_Steps plan')) ∧ ck_stepCount s' ≤ MaxSteps limits.
Proof.
  unfold checkPlan. intros H. inv_check.
  match goal with E : checkSteps _ _ _ _ _ _ _ = _ |- _ =>
    pose proof (checkSteps_length _ _ _ _ _ _ _ _ _ E) as L; apply checkSteps_ids in E as (D & E & K) end.
  use_frame. bool_to_prop. unfold ck_planPart, planOrder in *. cbn in *. simplify_eq.
  repeat match goal with E : ?f ?s' = ?f ?s |- _ => rewrite E in *; clear E end. split_and!; try done. lia.
Qed.

(** Plans are accepted in strictly increasing order, with identifiers not seen before. *)
Lemma checkPlans_ids previous plans s plans' s' : checkPlans environment limits previous plans s = Ok (plans', s') →
  Sorted (λ p q, comparePlans p q < 0) (option_list previous ++ plans') ∧
  freshNames (pl_Id <$> plans') (ck_planIDs s) ∧ freshNames (planOrder <$> plans') (ck_sourceOrders s) ∧
  freshNames (sp_Id <$> planSteps plans') (ck_stepIDs s) ∧
  ck_stepCount s' = ck_stepCount s + Z.of_nat (List.length (planSteps plans')) ∧
  (ck_stepCount s ≤ MaxSteps limits → ck_stepCount s' ≤ MaxSteps limits).
Proof.
  revert previous s plans' s'. induction plans as [|plan plans IH]; intros previous s plans' s' H; cbn in H.
  - inv_check. cbn. split_and!; try apply freshNames_nil; [|lia|done]. destruct previous; cbn; repeat constructor.
  - inv_check.
    match goal with E : checkPlan _ _ _ _ = _, E' : checkPlans _ _ _ _ _ = _ |- _ =>
      pose proof (checkPlan_keeps _ _ _ _ _ _ E) as [steps K];
      apply checkPlan_ids in E as (E1 & E2 & E3 & E4 & E5 & E6 & E7 & E8);
      apply IH in E' as (F1 & F2 & F3 & F4 & F5 & F6) end.
    rewrite E2, E4, E6, E7 in *. cbn in F1. split_and!.
    + destruct previous as [p|]; [|done]. cbn. constructor; [done|]. constructor. rewrite K, comparePlans_keeps. bool_to_prop. by apply Z.nle_gt.
    + by apply freshNames_cons.
    + by apply freshNames_cons.
    + cbn. rewrite fmap_app. by apply freshNames_app.
    + rewrite F5. unfold planSteps. cbn. rewrite length_app. lia.
    + auto.
Qed.
End Identifiers.

(** ** The canonical order *)
Definition planKey (p : Plan) : Z * (Z * (Z * string)) := (pl_SourceDialect p, (- pl_Priority p, (pl_SourceOrder p, pl_Id p))).
Definition planLt := lexLt (λ a b : Z, bool_decide (a < b)) (lexLt (λ a b : Z, bool_decide (a < b)) (lexLt (λ a b : Z, bool_decide (a < b)) strLt)).
Lemma planLt_strict : strict_total planLt.
Proof. repeat apply lexLt_strict; auto using Zlt_strict, strLt_strict. Qed.
Lemma comparePlans_lt p q : comparePlans p q < 0 ↔ planLt (planKey p) (planKey q) = true.
Proof.
  unfold comparePlans, planLt, lexLt, planKey. cbn. case_bool_decide as B1.
  { rewrite bool_decide_eq_true. lia. }
  destruct (decide (pl_Priority p = pl_Priority q)) as [->|N].
  2: { rewrite !(bool_decide_eq_true_2 (_ ≠ _)) by lia. case_bool_decide; rewrite bool_decide_eq_true; lia. }
  rewrite (bool_decide_eq_false_2 (pl_Priority q ≠ _)), (bool_decide_eq_false_2 (- _ ≠ _)) by naive_solver. case_bool_decide as B2.
  { case_bool_decide; split; done || lia. }
  unfold strCompare, strLt, String.ltb. destruct (String.compare _ _); split; done || lia.
Qed.
Lemma planLe_leOf a b : planLe a b ↔ leOf planKey planLt a b.
Proof.
  unfold planLe, leOf. pose proof (comparePlans_lt b a) as H. destruct (planLt _ _); split; try done; naive_solver lia.
Qed.
#[export] Instance planLe_total : Total planLe.
Proof. intros a b. rewrite !planLe_leOf. apply (leOf_total planKey planLt planLt_strict). Qed.
#[export] Instance planLe_trans : Transitive planLe.
Proof. intros a b c. rewrite !planLe_leOf. apply (leOf_trans planKey planLt planLt_strict). Qed.
Lemma comparePlans_planLe p q : comparePlans p q < 0 → planLe p q.
Proof.
  rewrite comparePlans_lt, planLe_leOf. unfold leOf. intros H. destruct planLt_strict as [I T _].
  destruct (planLt (planKey q) (planKey p)) eqn:E; [|done]. pose proof (T _ _ _ H E) as C. by rewrite I in C.
Qed.

(** A list with strictly increasing plans is the canonical order of each of its rearrangements. *)
Lemma CanonicalPlanOrder_unique plans l : Sorted (λ p q, comparePlans p q < 0) plans → NoDup (pl_Id <$> plans) → l ≡ₚ plans →
  CanonicalPlanOrder l = plans.
Proof.
  intros Hs Hn Hp. assert (CanonicalPlanOrder l ≡ₚ plans) as P by (unfold CanonicalPlanOrder; by rewrite merge_sort_Permutation).
  apply (Sorted_unique_strong planLe); [|apply Sorted_merge_sort, _| |exact P].
  - intros x y Hx Hy Hxy Hyx. rewrite P in Hx. apply planLe_leOf in Hxy, Hyx. unfold leOf in *.
    destruct planLt_strict as [_ _ O]. destruct (O (planKey x) (planKey y)) as [?|[E|?]]; [congruence| |congruence].
    assert (pl_Id x = pl_Id y) as Ei by (unfold planKey in E; congruence).
    apply list_elem_of_lookup in Hx as [i Hi], Hy as [j Hj].
    assert (i = j); [|naive_solver]. eapply (NoDup_lookup (pl_Id <$> plans)); [done|by rewrite list_lookup_fmap, Hi|].
    rewrite list_lookup_fmap, Hj. cbn. congruence.
  - clear -Hs. induction Hs as [|p l _ IH Hp]; constructor; [done|]. destruct Hp; constructor. by apply comparePlans_planLe.
Qed.

(** ** Sizes *)
Fixpoint exprNodes (e : Expression) : Z :=
  match e with
  | ExprUnary _ e => 1 + exprNodes e
  | ExprBinary _ l r => 1 + exprNodes l + exprNodes r
  | ExprCall _ args => 1 + (fix go l := match l with [] => 0 | e :: l => exprNodes e + go l end) args
  | _ => 1
  end.
Fixpoint exprDepth (e : Expression) : Z :=
  match e with
  | ExprUnary _ e => 1 + exprDepth e
  | ExprBinary _ l r => 1 + Z.max (exprDepth l) (exprDepth r)
  | ExprCall _ args => 1 + (fix go l := match l with [] => 0 | e :: l => Z.max (exprDepth e) (go l) end) args
  | _ => 1
  end.

Lemma callContract_count environment fn n c : callContract environment fn n = Ok c → n = List.length (fc_ArgumentTypes c).
Proof. unfold callContract. intros H. inv_res. bool_to_prop. by apply dec_stable. Qed.

(** The counters of a predicate measure its size, and the limits bound it. *)
Lemma checkExpression_size environment limits e depth s t s' : checkExpression environment limits e depth s = Ok (t, s') →
  ck_predicateNodes s' = ck_predicateNodes s + exprNodes e ∧ ck_predicateNodes s' ≤ MaxPredicateNodes limits ∧
  depth + exprDepth e ≤ MaxDepth limits + 1.
Proof.
  revert depth s t s'.
  induction e as [| | l | p | op e IH | op l r IHl IHr | fn args IH] using Expression_nested_ind; intros depth s t s' H;
    cbn [checkExpression] in H; inv_check; bool_to_prop; cbn [exprNodes exprDepth] in *.
  - match goal with E : checkLiteralStructure _ _ _ _ = _ |- _ =>
      apply (checkLiteralStructure_frame limits ck_predicateNodes) in E; [|done..]; cbn in * end. lia.
  - match goal with E : text _ _ _ _ = _ |- _ => apply (text_frame limits ck_predicateNodes) in E; [|done]; cbn in * end. lia.
  - match goal with E : checkExpression _ _ _ _ _ = _ |- _ => apply IH in E; cbn in * end. lia.
  - match goal with E : checkExpression _ _ l _ _ = _, E' : checkExpression _ _ r _ _ = _ |- _ => apply IHl in E; apply IHr in E'; cbn in * end. lia.
  - match goal with E : text _ _ _ _ = _ |- _ => apply (text_frame limits ck_predicateNodes) in E; [|done]; cbn in E end.
    match goal with E : callContract _ _ _ = Ok _ |- _ => apply callContract_count in E; rename E into L end.
    match goal with E : _ args (fc_ArgumentTypes _) x8 = _ |- _ => rename E into G end.
    assert (ck_predicateNodes x8 ≤ MaxPredicateNodes limits) as B by lia. replace (ck_predicateNodes s) with (ck_predicateNodes x8 - 1) by lia.
    revert G L B. generalize (fc_ArgumentTypes x0) as tys. generalize x8 as s0. revert IH H3. clear. intros IH Hd.
    induction IH as [|v l Hv _ IHl]; intros s0 [|ty tys] G L B; cbn in L; try lia; inv_check; [simplify_eq; lia|].
    match goal with E : checkExpression _ _ v _ _ = _ |- _ => apply Hv in E; cbn in E end.
    match goal with E : _ l tys _ = _ |- _ => apply IHl in E; [|lia..] end. lia.
Qed.

(** ** Errors

    [classified m]: every failure of [m] wraps one of the two sentinels of the package. *)
Definition classifiedError (e : error) : bool := errorsIs e ErrInvalidArtifact || errorsIs e ErrLimitExceeded.
Definition classifiedR {A} (r : result A) : Prop := match r with Err e => classifiedError e = true | Ok _ => True end.
Definition classified {A} (m : checkM A) : Prop := ∀ s, classifiedR (m s).

Lemma classifiedR_bind {A B} (r : result A) (f : A → result B) : classifiedR r → (∀ a, classifiedR (f a)) → classifiedR (r ≫= f).
Proof. destruct r; cbn; auto. Qed.
Lemma classifiedR_failIf b e : classifiedError e = true → classifiedR (failIf b e).
Proof. by destruct b. Qed.
Lemma classifiedR_ofOption {A} (x : option A) e : classifiedError e = true → classifiedR (ofOption x e).
Proof. by destruct x. Qed.
Lemma classified_bind {A B} (m : checkM A) (f : A → checkM B) : classified m → (∀ a, classified (f a)) → classified (m ≫= f).
Proof. intros Hm Hf s. specialize (Hm s). unfold mbind, checkM_bind. destruct (m s) as [[a s']|]; [apply Hf|done]. Qed.
Lemma classified_lift {A} (r : result A) : classifiedR r → classified (lift r).
Proof. intros Hr s. unfold lift. by destruct r. Qed.
Lemma classified_ret {A} (a : A) : classified (mret a).
Proof. intros s. exact I. Qed.
Lemma classified_throw {A} e : classifiedError e = true → classified (throw e : checkM A).
Proof. intros He s. exact He. Qed.
Lemma classified_modify f : classified (modifyM f).
Proof. intros s. exact I. Qed.
Lemma classified_getM {A} (f : checkState → A) : classified (getM f).
Proof. intros s. exact I. Qed.
Lemma classified_orInvalid {A} t (r : result A) : classified (orInvalid t r).
Proof. intros s. unfold orInvalid. by destruct r. Qed.
Lemma classified_inContext {A} t (m : checkM A) : classified (inContext t m).
Proof. intros s. unfold inContext. by destruct (m s). Qed.
Lemma classified_guard b e : classifiedError e = true → classified (guardM b e).
Proof. intros He. by apply classified_lift, classifiedR_failIf. Qed.
Create HintDb classified.
#[export] Hint Resolve classified_ret classified_modify classified_getM classified_orInvalid classified_inContext : classified.
Ltac classify :=
  repeat first
    [ solve [auto with classified]
    | apply classified_bind; [|intros ?]
    | apply classified_guard; reflexivity
    | apply classified_throw; reflexivity
    | apply classified_lift
    | apply classifiedR_bind; [|intros ?]
    | apply classifiedR_failIf; reflexivity
    | apply classifiedR_ofOption; reflexivity
    | match goal with
      | |- classified (match ?x with _ => _ end) => destruct x
      | |- classifiedR (match ?x with _ => _ end) => destruct x
      | |- classifiedR (Ok _) => exact I
      | |- classifiedR (Err _) => reflexivity
      end ].

Section Classified.
  Context (environment : Environment) (limits : Limits).
Lemma text_classified v required : classified (text limits v required).
Proof. unfold text. classify. Qed.
#[local] Hint Resolve text_classified : classified.
Lemma checkValue_classified v t slots : classified (checkValue environment limits v t slots).
Proof. unfold checkValue. classify. Qed.
#[local] Hint Resolve checkValue_classified : classified.
Lemma checkArguments_classified c slots previous l : classified (checkArguments environment limits c slots previous l).
Proof. revert previous. induction l as [|a l IH]; intros previous; cbn [checkArguments]; classify. Qed.
#[local] Hint Resolve checkArguments_classified : classified.
Lemma checkStepPolicies_classified step c policy : classifiedR (checkStepPolicies environment step c policy).
Proof. unfold checkStepPolicies, freezeOption, freezeEnum, freezeCompensation. classify. Qed.
Lemma bindSlot_classified slot t slots : classifiedR (bindSlot slot t slots).
Proof. unfold bindSlot. classify. Qed.
#[local] Hint Resolve checkStepPolicies_classified bindSlot_classified : classified.
Lemma checkStep_classified i step slots policy : classified (checkStep environment limits i step slots policy).
Proof. unfold checkStep. classify. Qed.
#[local] Hint Resolve checkStep_classified : classified.
Lemma checkSteps_classified i steps slots policy : classified (checkSteps environment limits i steps slots policy).
Proof. revert i slots. induction steps as [|step steps IH]; intros i slots; cbn [checkSteps]; classify. Qed.
#[local] Hint Resolve checkSteps_classified : classified.
Lemma checkPlan_classified plan : classified (checkPlan environment limits plan).
Proof. unfold checkPlan. classify. Qed.
#[local] Hint Resolve checkPlan_classified : classified.
Lemma checkPlans_classified previous plans : classified (checkPlans environment limits previous plans).
Proof. revert previous. induction plans as [|plan plans IH]; intros previous; cbn [checkPlans]; classify. Qed.
#[local] Hint Resolve checkPlans_classified : classified.
Lemma checkDigest_classified d : classifiedR (checkDigest d).
Proof. unfold checkDigest. classify. Qed.
#[local] Hint Resolve checkDigest_classified : classified.
Lemma check_classified artifact s : classifiedR (check environment limits artifact s).
Proof. revert s. change (classified (check environment limits artifact)). unfold check. classify. Qed.
End Classified.
#[export] Hint Resolve check_classified : classified.
Lemma withDefaults_classified l : classifiedR (withDefaults l).
Proof. unfold withDefaults, limitOr. classify. Qed.

(** ** Accepted plans and steps

    Checking is idempotent, so every part of an accepted artifact is itself the result of
    a successful run of its method. *)
Section Parts.
  Context (environment : Environment) (limits : Limits).

Lemma checkPlans_elem previous plans s plans' s' plan : checkPlans environment limits previous plans s = Ok (plans', s') →
  plan ∈ plans' → ∃ s1 s2, checkPlan environment limits plan s1 = Ok (plan, s2).
Proof.
  revert previous s plans' s'. induction plans as [|q plans IH]; intros previous s plans' s' H Hin; cbn in H; inv_check.
  - by apply elem_of_nil in Hin.
  - apply elem_of_cons in Hin as [->|Hin]; [|by eapply IH]. eexists _, _. by eapply checkPlan_again.
Qed.
Lemma checkSteps_elem index steps slots policy s steps' s' i step : checkSteps environment limits index steps slots policy s = Ok (steps', s') →
  steps' !! i = Some step → ∃ slots1 slots2 s1 s2, checkStep environment limits (index + i) step slots1 policy s1 = Ok ((step, slots2), s2).
Proof.
  revert index slots s steps' s' i. induction steps as [|q steps IH]; intros index slots s steps' s' i H Hi; cbn in H; inv_check; [done|].
  destruct x as [step1 slots1]. inv_check. destruct i as [|i]; cbn in Hi.
  - simplify_eq. rewrite Nat.add_0_r. eexists _, _, _, _. by eapply checkStep_again.
  - rewrite <-Nat.add_succ_comm. by eapply IH.
Qed.
Lemma checkPlan_steps plan s plan' s' : checkPlan environment limits plan s = Ok (plan', s') →
  ∃ s1 s2, checkSteps environment limits 0 (pl_Steps plan) [] (pl_ExecutionPolicy plan) s1 = Ok (pl_Steps plan', s2).
Proof. unfold checkPlan. intros H. inv_check. eauto. Qed.
Lemma checkPlan_size plan s plan' s' : checkPlan environment limits plan s = Ok (plan', s') →
  Z.of_nat (List.length (pl_Steps plan)) ≤ MaxStepsPerPlan limits ∧
  exprNodes (pl_Predicate plan) ≤ MaxPredicateNodes limits ∧ exprDepth (pl_Predicate plan) ≤ MaxDepth limits.
Proof.
  unfold checkPlan. intros H. inv_check. bool_to_prop.
  match goal with E : checkExpression _ _ _ _ _ = _ |- _ => apply checkExpression_size in E; cbn in E end. lia.
Qed.
Lemma checkPlan_predicate plan s plan' s' : checkPlan environment limits plan s = Ok (plan', s') →
  ∃ s1 s2, checkExpression environment limits (pl_Predicate plan) 1 s1 = Ok (TBool, s2).
Proof.
  unfold checkPlan. intros H. inv_check.
  match goal with E : checkExpression _ _ _ _ _ = Ok (?t, _) |- _ => destruct t; try done; eauto end.
Qed.
End Parts.

Lemma withDefaults_pos l l' : withDefaults l = Ok l' → 0 < MaxSteps l' ∧ 0 < MaxDepth l' ∧ 0 < MaxLiteralNodes l'.
Proof.
  unfold withDefaults. intros H. repeat (apply bind_Ok in H as (? & ?%limitOr_Ok & H); [|reflexivity]). injection H as <-. cbn. tauto.
Qed.
Lemma freezeCompensation_none environment step contract policy :
  freezeCompensation environment step contract policy = Ok (sp_Compensation step) → vc_InverseVerb contract = "" →
  sp_Compensation step = None.
Proof. unfold freezeCompensation. intros H Hv. rewrite bool_decide_eq_true_2 in H by done. inv_res. bool_to_prop. destruct (sp_Compensation step); [|done]. exfalso. eauto. Qed.
Lemma freezeCompensation_some environment step contract :
  freezeCompensation environment step contract EXECUTION_POLICY_DURABLE_COMPENSATING = Ok (sp_Compensation step) → vc_InverseVerb contract ≠ "" →
  ∃ inverse h, env_Verbs environment !! vc_InverseVerb contract = Some inverse ∧ ContractHash inverse = Ok h ∧
    sp_Compensation step = Some (mkCompensation (vc_InverseVerb contract) h).
Proof.
  unfold freezeCompensation. intros H Hv. rewrite bool_decide_eq_false_2 in H by done. apply bind_Ok in H as (inverse & Hi & H).
  apply bind_Ok in H as (h & Hh & H). apply ofOption_Ok in Hi. exists inverse. destruct (ContractHash inverse) as [h'|]; [|done]. simplify_eq.
  exists h. split_and!; [done..|]. destruct (sp_Compensation step) as [[v h']|]; [|done].
  inv_res. cbn in *. bool_to_prop. repeat f_equal; by apply dec_stable.
Qed.

Section Accepted.
  Context (protoSize : RuleArtifact → Z) (unknownFields : RuleArtifact → bool) (protoMarshal : RuleArtifact → option string)
    (protoUnmarshal : string → option RuleArtifact).

Lemma Check_Ok artifact environment limits c clone :
  Check protoSize unknownFields protoMarshal artifact environment limits = Ok (c, clone) ↔
  ∃ l a e s w, withDefaults limits = Ok l ∧ artifact = Some a ∧ protoSize a ≤ MaxArtifactBytes l ∧ unknownFields a = false ∧
    normalizeEnvironment environment = Ok e ∧ check e l a initialCheck = Ok (clone, s) ∧
    protoMarshal clone = Some w ∧ strlen w ≤ MaxArtifactBytes l ∧
    c = mkChecked w (sha256hex (bytes w)) (Z.of_nat (List.length (ra_Plans clone))) (ck_stepCount s) (strlen w).
Proof.
  unfold Check. split.
  - intros H. apply bind_Ok in H as (l & Hl & H). apply bind_Ok in H as (a & Ha & H). apply bind_Ok in H as ([] & Hs & H).
    apply bind_Ok in H as ([] & Hu & H). apply bind_Ok in H as (e & He & H). apply bind_Ok in H as ([clone' s] & Hc & H).
    apply bind_Ok in H as (w & Hw & H). apply bind_Ok in H as ([] & Hb & H). injection H as <- <-.
    apply ofOption_Ok in Ha, Hw. apply failIf_Ok in Hs, Hu, Hb. bool_to_prop.
    destruct (normalizeEnvironment environment) as [e'|]; [|done]. simplify_eq. eexists _, _, _, _, _. repeat split; try done; lia.
  - intros (l & a & e & s & w & Hl & -> & Hs & Hu & He & Hc & Hw & Hb & ->).
    rewrite Hl. cbn [mbind result_bind ofOption]. rewrite (bool_decide_eq_false_2 (_ < protoSize _)) by lia. cbn [failIf mbind result_bind].
    rewrite Hu. cbn [failIf mbind result_bind]. rewrite He. cbn [mbind result_bind]. rewrite Hc. cbn [mbind result_bind]. rewrite Hw. cbn [ofOption mbind result_bind].
    by rewrite (bool_decide_eq_false_2 (_ < strlen _)) by lia.
Qed.

Lemma Check_reparse artifact environment limits c clone :
  Check protoSize unknownFields protoMarshal artifact environment limits = Ok (c, clone) →
  protoUnmarshal (wire c) = Some clone → protoSize clone = strlen (wire c) → unknownFields clone = false →
  Parse protoSize unknownFields protoMarshal protoUnmarshal (wire c) environment limits = Ok (c, clone).
Proof.
  intros (l & a & e & s & w & Hl & _ & _ & _ & He & Hc & Hw & Hb & Ec)%Check_Ok Hu Hz Hk. unfold Parse. rewrite Hl. cbn [mbind result_bind].
  rewrite Hu. cbn [ofOption]. replace (strlen (wire c)) with (strlen w) in * by (by subst c).
  rewrite bool_decide_eq_false_2 by lia. cbn [failIf mbind result_bind]. apply Check_Ok.
  exists l, clone, e, s, w. rewrite Hz. split_and!; eauto using withDefaults_idem, check_again.
Qed.

(** C36: checking is stable under the wire format. [Parse] on the canonical bytes of an
    accepted artifact, with the same environment and limits, succeeds with the same
    digest, counts and artifact: the defaults the first check filled in are accepted and
    left alone by the second. Of protobuf this uses that decoding the encoding of this
    artifact gives it back, that its size is the number of bytes encoded and that it has
    no unknown fields. *)
Theorem checked_artifacts_reparse artifact environment limits c clone :
  Check protoSize unknownFields protoMarshal artifact environment limits = Ok (c, clone) →
  protoUnmarshal (wire c) = Some clone → protoSize clone = strlen (wire c) → unknownFields clone = false →
  Parse protoSize unknownFields protoMarshal protoUnmarshal (wire c) environment limits = Ok (c, clone).
Proof. apply Check_reparse. Qed.

Lemma check_plans environment limits artifact s clone s' : check environment limits artifact s = Ok (clone, s') →
  Z.of_nat (List.length (ra_Plans clone)) ≤ MaxPlans limits ∧
  ∃ s1 plans, ck_ids s1 = ck_ids s ∧ checkPlans environment limits None plans s1 = Ok (ra_Plans clone, s').
Proof.
  unfold check. intros H. inv_check. cbn.
  match goal with E : checkPlans _ _ _ _ _ = _ |- _ => pose proof (checkPlans_length _ _ _ _ _ _ _ E) as L; rename E into P end.
  repeat match goal with E : text _ _ _ _ = _ |- _ => apply text_keeps in E end. bool_to_prop. rewrite L. split; [lia|].
  eexists _, _. split; [|done]. congruence.
Qed.

(** the plans of an accepted artifact are in canonical order, which is the order
    [CanonicalPlanOrder] gives to any rearrangement of them; plan identifiers, source
    positions and step identifiers are unique across the artifact; and the counts of the
    checked handle are those of the artifact. *)
Theorem accepted_plans_are_canonical artifact environment limits c clone :
  Check protoSize unknownFields protoMarshal artifact environment limits = Ok (c, clone) →
  (∀ plans, plans ≡ₚ ra_Plans clone → CanonicalPlanOrder plans = ra_Plans clone) ∧
  NoDup (pl_Id <$> ra_Plans clone) ∧ NoDup (planOrder <$> ra_Plans clone) ∧ NoDup (sp_Id <$> planSteps (ra_Plans clone)) ∧
  planCount c = Z.of_nat (List.length (ra_Plans clone)) ∧ stepCount c = Z.of_nat (List.length (planSteps (ra_Plans clone))).
Proof.
  intros (l & a & e & s & w & _ & _ & _ & _ & _ & Hc & _ & _ & ->)%Check_Ok.
  apply check_plans in Hc as (_ & s1 & plans0 & K & Hp). unfold ck_ids in K. cbn in K. simplify_eq.
  apply checkPlans_ids in Hp as (Hs & [Hn _] & [Ho _] & [Ht _] & Hk & _). cbn in Hs |- *.
  split_and!; try done; [|lia]. intros plans. by apply CanonicalPlanOrder_unique.
Qed.

(** Everything in an accepted artifact is within the limits it was checked under:
    its encoding, its plans, its steps in all and per plan, the arguments of each step,
    and the number of nodes and the nesting of each predicate. *)
Theorem accepted_artifacts_are_bounded artifact environment limits l c clone :
  Check protoSize unknownFields protoMarshal artifact environment limits = Ok (c, clone) → withDefaults limits = Ok l →
  artifactLen c ≤ MaxArtifactBytes l ∧ planCount c ≤ MaxPlans l ∧ stepCount c ≤ MaxSteps l ∧
  ∀ plan, plan ∈ ra_Plans clone →
    Z.of_nat (List.length (pl_Steps plan)) ≤ MaxStepsPerPlan l ∧
    exprNodes (pl_Predicate plan) ≤ MaxPredicateNodes l ∧ exprDepth (pl_Predicate plan) ≤ MaxDepth l ∧
    ∀ step, step ∈ pl_Steps plan → Z.of_nat (List.length (sp_Arguments step)) ≤ MaxArgumentsPerStep l.
Proof.
  intros (l' & a & e & s & w & Hl & _ & _ & _ & _ & Hc & _ & Hb & ->)%Check_Ok Hl'. rewrite Hl' in Hl. simplify_eq.
  destruct (withDefaults_pos _ _ Hl') as (Ps & _).
  apply check_plans in Hc as (Hn & s1 & plans0 & K & Hp). unfold ck_ids in K. cbn in K. simplify_eq. cbn.
  pose proof Hp as (_ & _ & _ & _ & _ & Hm)%checkPlans_ids. split_and!; [done..|apply Hm; lia|].
  intros plan Hin. eapply checkPlans_elem in Hp as (s2 & s3 & Hp); [|done]. pose proof (checkPlan_size _ _ _ _ _ _ Hp) as (S1 & S2 & S3).
  split_and!; try done. intros step (i & Hi)%list_elem_of_lookup. apply checkPlan_steps in Hp as (s4 & s5 & Hp).
  eapply checkSteps_elem in Hp as (sl1 & sl2 & s6 & s7 & Hp); [|done]. apply checkStep_accepted in Hp as [_ [contract A]]. apply A.
Qed.

(** C37: every step of an accepted plan is bound to a verb of the normalized environment:
    it carries the hash of the verb's contract, its ordinal is its position, it passes every
    required argument, and its retry, idempotency and fencing policies are the ones the
    verb declares, whether the compiler wrote them or left them unset. A step of a
    compensating plan whose verb has an inverse names that inverse and its hash, and a
    step whose verb has none names none. *)
Theorem accepted_steps_carry_their_contract artifact environment limits c clone e plan i step :
  Check protoSize unknownFields protoMarshal artifact environment limits = Ok (c, clone) →
  normalizeEnvironment environment = Ok e → plan ∈ ra_Plans clone → pl_Steps plan !! i = Some step →
  ∃ contract, env_Verbs e !! sp_Verb step = Some contract ∧ ContractHash contract = Ok (sp_ContractHash step) ∧
    sp_Ordinal step = u32 (Z.of_nat i) ∧
    (∀ name, name ∈ default [] (vc_RequiredArgs contract) → name ∈ arg_Name <$> sp_Arguments step) ∧
    sp_RetryPolicy step = Some (expectedRetry contract) ∧
    sp_IdempotencyPolicy step = expectedIdempotency contract ∧
    sp_FencingRequirement step = expectedFencing contract ∧
    (vc_InverseVerb contract = "" → sp_Compensation step = None) ∧
    (vc_InverseVerb contract ≠ "" → pl_ExecutionPolicy plan = EXECUTION_POLICY_DURABLE_COMPENSATING →
      ∃ inverse h, env_Verbs e !! vc_InverseVerb contract = Some inverse ∧ ContractHash inverse = Ok h ∧
        sp_Compensation step = Some (mkCompensation (vc_InverseVerb contract) h)).
Proof.
  intros (l & a & e' & s & w & _ & _ & _ & _ & He & Hc & _)%Check_Ok He' Hin Hi. rewrite He' in He. simplify_eq.
  apply check_plans in Hc as (_ & s1 & plans0 & _ & Hp). eapply checkPlans_elem in Hp as (s2 & s3 & Hp); [|done].
  apply checkPlan_steps in Hp as (s4 & s5 & Hp). eapply checkSteps_elem in Hp as (sl1 & sl2 & s6 & s7 & Hp); [|done].
  apply checkStep_accepted in Hp as [_ [contract []]]. exists contract. rewrite Forall_forall in sa_required.
  split_and!; try done.
  - intros Hv. by eapply freezeCompensation_none.
  - intros Hv Hpol. rewrite Hpol in *. by eapply freezeCompensation_some.
Qed.

Lemma Check_classified artifact environment limits : classifiedR (Check protoSize unknownFields protoMarshal artifact environment limits).
Proof.
  unfold Check. apply classifiedR_bind; [apply withDefaults_classified|intros l]. classify.
Qed.

(** Refusals are classified. When [Check] or [Parse] refuses, for whatever artifact,
    environment, limits and wire format, the error is recognised by [errors.Is] as an
    invalid artifact or as an exceeded limit, so a caller that switches on the two
    sentinels of the package never meets a third case. *)
Theorem refusals_are_classified artifact data environment limits :
  (∀ e, Check protoSize unknownFields protoMarshal artifact environment limits = Err e →
    errorsIs e ErrInvalidArtifact = true ∨ errorsIs e ErrLimitExceeded = true) ∧
  (∀ e, Parse protoSize unknownFields protoMarshal protoUnmarshal data environment limits = Err e →
    errorsIs e ErrInvalidArtifact = true ∨ errorsIs e ErrLimitExceeded = true).
Proof.
  split; intros e E; apply orb_true_iff.
  - pose proof (Check_classified artifact environment limits) as C. by rewrite E in C.
  - assert (classifiedR (Parse protoSize unknownFields protoMarshal protoUnmarshal data environment limits)) as C; [|by rewrite E in C].
    unfold Parse. apply classifiedR_bind; [apply withDefaults_classified|intros l]. classify.
Qed.
End Accepted.

(** ** Witnesses *)
Lemma checked_artifacts_reparse_witness :
  Parse shopSize shopKnown shopMarshal shopUnmarshal (wire shopHandle) shopEnvironment noLimits = Ok (shopHandle, shopClone).
Proof.
  apply (checked_artifacts_reparse shopSize shopKnown shopMarshal shopUnmarshal (Some shopArtifact) shopEnvironment noLimits
    shopHandle shopClone shopChecked_Ok); reflexivity.
Defined.
Lemma accepted_plans_are_canonical_witness : CanonicalPlanOrder (reverse (ra_Plans shopClone)) = ra_Plans shopClone.
Proof.
  apply (accepted_plans_are_canonical shopSize shopKnown shopMarshal (Some shopArtifact) shopEnvironment noLimits
    shopHandle shopClone shopChecked_Ok). apply reverse_Permutation.
Defined.
Lemma accepted_artifacts_are_bounded_witness : artifactLen shopHandle ≤ MaxArtifactBytes ValidationDefaults.
Proof.
  apply (accepted_artifacts_are_bounded shopSize shopKnown shopMarshal (Some shopArtifact) shopEnvironment noLimits ValidationDefaults
    shopHandle shopClone shopChecked_Ok). reflexivity.
Defined.
Definition shopStep : Step := default notifyStep (planSteps (ra_Plans shopClone) !! 0%nat).
Definition shopPlan : Plan := default auditPlan (ra_Plans shopClone !! 0%nat).
Lemma accepted_steps_carry_their_contract_witness :
  ∃ contract, env_Verbs shopNormal !! "ship" = Some contract ∧ sp_RetryPolicy shopStep = Some (expectedRetry contract).
Proof.
  destruct (accepted_steps_carry_their_contract shopSize shopKnown shopMarshal (Some shopArtifact) shopEnvironment noLimits
    shopHandle shopClone shopNormal shopPlan 0 shopStep shopChecked_Ok) as (contract & H & _ & _ & _ & R & _).
  - vm_compute. reflexivity.
  - apply (list_elem_of_lookup_2 _ 0). reflexivity.
  - reflexivity.
  - exists contract. exact (conj H R).
Defined.
