(* ===== verification/FactProps.v ===== *)
(** * Facts of an execution

    Explicit overrides win over flattened fields, and the effective facts an admission
    evaluates have the types the environment declares, so accepted predicates and step
    arguments never meet a value of the wrong type. *)

From S2P Require Import Prelude GoText Sha256 Json JsonProofs Ir Types Env EnvProps Check Value Eval Admission CheckLemmas Typing EvalProps CheckInv ArtifactDemo ArtifactProps.
From Stdlib Require Import ZArith NArith Ascii String Lia.
Local Open Scope list_scope.
Local Open Scope Z_scope.

(** ** Maps *)
Lemma fieldOf_mapPut {A} k (v : A) l k' : fieldOf (mapPut k v l) k' = if bool_decide (k = k') then Some v else fieldOf l k'.
Proof.
  induction l as [|[n t] l IH]; cbn; [done|]. destruct (decide (k = n)) as [->|N].
  - rewrite bool_decide_eq_true_2 by done. cbn. by case_bool_decide.
  - rewrite (bool_decide_eq_false_2 (k = n)) by done. destruct (strLt k n); cbn; [done|]. rewrite IH.
    repeat case_bool_decide; naive_solver.
Qed.
Lemma fieldOf_mapPut_eq {A} k (v : A) l : fieldOf (mapPut k v l) k = Some v.
Proof. rewrite fieldOf_mapPut. by rewrite bool_decide_eq_true_2. Qed.
Lemma fieldOf_mapPut_ne {A} k (v : A) l k' : k ≠ k' → fieldOf (mapPut k v l) k' = fieldOf l k'.
Proof. intros. rewrite fieldOf_mapPut. by rewrite bool_decide_eq_false_2. Qed.
Lemma mapPut_Forall {A} (P : string * A → Prop) k v l : P (k, v) → Forall P l → Forall P (mapPut k v l).
Proof. intros Hk. induction 1 as [|[n t] l Ht Hl IH]; cbn; [by repeat constructor|]. case_bool_decide; [by constructor|]. destruct (strLt k n); by repeat constructor. Qed.

(** ** Paths *)
Lemma segmentsFrom_head current l s rest : segmentsFrom current l = s :: rest → ∃ t, rev current ++ l = bytes s ++ t.
Proof.
  revert current. induction l as [|a l IH]; intros current; cbn.
  - destruct current as [|c current]; [done|]. intros [= <- <-]. exists []. by rewrite bytes_ofBytes, !app_nil_r.
  - destruct (byteIs 46 a).
    + intros [= <- <-]. exists (a :: l). by rewrite bytes_ofBytes.
    + intros H. apply IH in H as [t Ht]. exists t. rewrite <-Ht. cbn. by rewrite <-app_assoc.
Qed.
Lemma segments_head p s rest : segments p = s :: rest → ∃ t, p = s +:+ t.
Proof.
  intros [t H]%segmentsFrom_head. cbn in H. exists (ofBytes t). apply bytes_inj. by rewrite bytes_app, bytes_ofBytes.
Qed.
Lemma strLt_prefix s t : strLt (s +:+ t) s = false.
Proof.
  apply not_true_is_false. rewrite strLt_compare. induction s as [|a s IH]; [by destruct t|].
  change (String a s +:+ t) with (String a (s +:+ t)). cbn. unfold Ascii.compare. by rewrite N.compare_refl.
Qed.

(** ** Overrides

    Assigning in increasing key order keeps what was assigned explicitly. *)
Lemma flattenAssignments_map entries prefix k w : (k, w) ∈ flattenAssignments (AMap entries) prefix →
  ∃ key child, (key, child) ∈ entries ∧ (k = joinPath prefix key ∧ w = child ∨ (k, w) ∈ flattenAssignments child (joinPath prefix key)).
Proof.
  cbn. unfold orderedWorkflowFactKeys. intros ([key [child f]] & H & Hin)%list_elem_of_bind. rewrite merge_sort_Permutation in Hin.
  assert ((key, child) ∈ entries ∧ f = flattenAssignments child) as [He ->].
  { clear H. induction entries as [|[k' c'] l IH]; [by apply elem_of_nil in Hin|]. apply elem_of_cons in Hin as [Hin|Hin].
    - simplify_eq. split; [left|done].
    - destruct (IH Hin). split; [by right|done]. }
  cbn in H. exists key, child. split; [done|]. apply elem_of_cons in H as [H|H]; [|by right]. left. by simplify_eq.
Qed.

Lemma flattenAssignments_under v prefix k w : prefix ≠ "" → (k, w) ∈ flattenAssignments v prefix → ∃ x, k = prefix +:+ "." +:+ x.
Proof.
  revert prefix. induction v as [| | | | | | | |l IH|l IH|] using any_nested_ind; intros prefix Hp Hin; try by apply elem_of_nil in Hin.
  apply flattenAssignments_map in Hin as (key & child & He & H). rewrite Forall_forall in IH. specialize (IH _ He). cbn in IH.
  unfold joinPath in H. rewrite bool_decide_eq_true_2 in H by done. destruct H as [[-> ->]|H]; [eauto|].
  apply IH in H as [x ->]; [|by destruct prefix]. exists (key +:+ "." +:+ x). apply bytes_inj. by rewrite !bytes_app, <-!app_assoc.
Qed.

Lemma assignAll_other target l k : (∀ w, (k, w) ∉ l) → fieldOf (assignAll target l) k = fieldOf target k.
Proof.
  unfold assignAll. revert target. induction l as [|[k' w'] l IH]; intros target H; cbn; [done|].
  rewrite IH by (intros w Hw; apply (H w); by right). apply fieldOf_mapPut_ne. intros ->. apply (H w'). left.
Qed.

#[export] Instance factKeyLe_total {A} : Total (@factKeyLe A).
Proof.
  intros [k v] [k' v']. unfold factKeyLe, factKeyBefore. cbn. destruct (decide (dotted k = dotted k')) as [E|E].
  - rewrite E, !bool_decide_eq_false_2 by naive_solver. destruct (strLt_total k k') as [L|[->|L]].
    + left. by apply strLt_asymm.
    + left. apply strLt_irrefl.
    + right. by apply strLt_asymm.
  - rewrite !bool_decide_eq_true_2 by done. destruct (dotted k), (dotted k'); naive_solver.
Qed.
#[export] Instance factKeyLe_trans {A} : Transitive (@factKeyLe A).
Proof.
  intros [k1 v1] [k2 v2] [k3 v3]. unfold factKeyLe, factKeyBefore. cbn.
  destruct (dotted k1) eqn:D1, (dotted k2) eqn:D2, (dotted k3) eqn:D3; cbn; try done; apply (leOf_trans id strLt strLt_strict k1 k2 k3).
Qed.

Lemma containsB_app l p k : containsB (l ++ p ++ k) p = true.
Proof.
  induction l as [|a l IH]; cbn [app containsB].
  - destruct (p ++ k) eqn:E; cbn [containsB]; rewrite <-?E; apply orb_true_iff; left; apply prefixB_spec; eauto.
  - by rewrite IH, orb_true_r.
Qed.

(** A key never lies under a key that is processed after it. *)
Lemma factKeyLe_not_under {A} k (v : A) k' v' x : factKeyLe (k, v) (k', v') → k ≠ k' → k ≠ k' +:+ "." +:+ x.
Proof.
  unfold factKeyLe, factKeyBefore. cbn. intros H N ->.
  assert (dotted (k' +:+ "." +:+ x) = true) as E.
  { unfold dotted, Contains. rewrite !bytes_app. apply containsB_app. }
  rewrite E in H. destruct (dotted k'); vm_compute bool_decide in H; [|done].
  destruct (strLt_total k' (k' +:+ "." +:+ x)) as [L|[E'|L]]; [congruence|by apply N|]. by rewrite strLt_prefix in L.
Qed.

Lemma flattenWorkflowFact_keeps target prefix v k w : prefix ≠ "" → fieldOf target prefix = Some w →
  k = prefix → fieldOf (flattenWorkflowFact target prefix v) k = Some w.
Proof.
  intros Hp Hf ->. unfold flattenWorkflowFact. rewrite assignAll_other; [done|]. intros w' Hw.
  apply flattenAssignments_under in Hw as [x Hx]; [|done]. apply (f_equal (λ s, List.length (bytes s))) in Hx.
  rewrite !bytes_app, !length_app in Hx. cbn in Hx. lia.
Qed.
Lemma mergeWorkflowFactOverrides_keeps target l k v : StronglySorted factKeyLe ((k, v) :: l) → k ∉ l.*1 → fieldOf target k = Some v →
  fieldOf (fold_left (λ target o, flattenWorkflowFact (mapPut o.1 o.2 target) o.1 o.2) l target) k = Some v.
Proof.
  intros [_ Hk]%StronglySorted_inv. revert target. induction Hk as [|[k' v'] l Hle _ IH]; intros target Hin Hf; cbn [fold_left fst snd]; [done|].
  apply not_elem_of_cons in Hin as [Hne Hin]. cbn in Hne. apply IH; [done|]. unfold flattenWorkflowFact. rewrite assignAll_other.
  { by rewrite fieldOf_mapPut_ne. }
  intros w Hw. assert (k' ≠ "") as N.
  { intros ->. unfold factKeyLe, factKeyBefore in Hle. cbn in Hle, Hne. destruct (dotted k); [done|]. vm_compute bool_decide in Hle.
    destruct k; [done|discriminate]. }
  apply flattenAssignments_under in Hw as [x Hx]; [|done]. by eapply factKeyLe_not_under.
Qed.

(** explicit facts win. Merging overrides flattens the fields of every nested object
    into dotted paths, yet after the merge every non-empty path the caller gave explicitly has
    exactly the value given for it, whatever the other overrides expand to and in
    whatever order the caller's map is enumerated. *)
Theorem explicit_overrides_win target overrides k v :
  NoDup overrides.*1 → (k, v) ∈ overrides → k ≠ "" → fieldOf (mergeWorkflowFactOverrides target overrides) k = Some v.
Proof.
  intros Hn Hin Hk0. unfold mergeWorkflowFactOverrides, orderedWorkflowFactKeys.
  pose proof (merge_sort_Permutation factKeyLe overrides) as P. rewrite <-P in Hin. rewrite <-P in Hn.
  pose proof (StronglySorted_merge_sort factKeyLe overrides) as S. revert Hin Hn S. clear P. generalize (merge_sort factKeyLe overrides) as l.
  intros l. revert target. induction l as [|[k' v'] l IH]; intros target Hin Hn S; [by apply elem_of_nil in Hin|]. cbn [fold_left fst snd].
  apply NoDup_cons in Hn as [Hk Hn]. apply elem_of_cons in Hin as [[= -> ->]|Hin].
  - apply mergeWorkflowFactOverrides_keeps; [done..|]. apply flattenWorkflowFact_keeps; [done| |done]. apply fieldOf_mapPut_eq.
  - apply IH; [done..|]. by apply StronglySorted_inv in S as [S _].
Qed.
Lemma explicit_overrides_win_witness :
  fieldOf (mergeWorkflowFactOverrides [] [("a", AMap [("b", AInt 1)]); ("a.b", AInt 2)]) "a.b" = Some (AInt 2).
Proof.
  apply (explicit_overrides_win [] [("a", AMap [("b", AInt 1)]); ("a.b", AInt 2)] "a.b" (AInt 2)).
  - apply (bool_decide_unpack _). reflexivity.
  - right. left.
  - discriminate.
Defined.

(** ** Values in the range of their Go types *)
Lemma conforms_goValue types v t : conforms types v t = true → goValue v = true.
Proof.
  revert t. induction v as [| |i|u| | | | |l IH|l IH|] using any_nested_ind; intros t (r & _ & S)%conforms_shape; try done.
  - destruct r; cbn in S; try done; try (by destruct S as (? & ? & _)).
  - destruct r; cbn in S; try done; try (by destruct S as (? & ? & _)).
  - cbn. apply forallb_Forall. destruct r; cbn in S; try done; destruct S as (x & E & S); simplify_eq; try (by destruct S).
    rewrite Forall_forall in IH, S |- *. eauto.
  - cbn. apply forallb_Forall. destruct r; cbn in S; try done; destruct S as (x & E & S); simplify_eq.
    + rewrite Forall_forall in IH, S |- *. intros p Hp. eapply IH; [done|]. by apply S.
    + destruct S as [S _]. rewrite Forall_forall in IH, S |- *. intros p Hp. destruct (S p Hp) as (_ & t' & _ & C). by eapply IH.
Qed.
Lemma ofJSON_goValue j : goValue (ofJSON j) = true.
Proof.
  induction j as [| | | |items IH|fields IH|] using json_nested_ind; cbn; try done; apply forallb_Forall, Forall_fmap; done.
Qed.

Definition goFacts (facts : list (string * any)) : Prop := Forall (λ e, goValue e.2 = true) facts.
Lemma walk_goValue v path w : goValue v = true → walk v path = Some w → goValue w = true.
Proof.
  revert v. induction path as [|n path IH]; intros v G H; cbn in H; [by simplify_eq|]. destruct v; try done.
  apply bind_Some in H as (x & Hx & H). eapply IH; [|exact H]. cbn in G. apply forallb_Forall in G.
  by apply (fieldOf_Forall _ _ _ _ G Hx).
Qed.
Lemma lookup_goValue facts path v : goFacts facts → lookupWorkflowFact facts path = Some v → goValue v = true.
Proof.
  intros G. unfold lookupWorkflowFact. destruct (fieldOf facts path) eqn:E.
  - intros [= <-]. by apply (fieldOf_Forall _ _ _ _ G E).
  - apply walk_goValue. cbn. by apply forallb_Forall.
Qed.

(** ** Validation of the facts *)
Lemma sortedKeys_sorted {V} (m : gmap string V) : StronglySorted (λ p q, strLt q p = false) (sortedKeys m).
Proof.
  unfold sortedKeys. induction (sortedStrings_Sorted (map_to_list m).*1) as [|x l _ IH Hx]; constructor; [done|].
  eapply Forall_impl; [exact Hx|]. intros q H. apply not_true_is_false. rewrite strLt_le. intros [H' N]. by apply N, (anti_symm String.le).
Qed.
Lemma sortedKeys_NoDup {V} (m : gmap string V) : NoDup (sortedKeys m).
Proof. unfold sortedKeys. rewrite sortedStrings_Permutation. apply NoDup_fst_map_to_list. Qed.

Section Validation.
  Context (environment : Environment) (Hnormal : normalizeEnvironment environment = Ok environment).

Lemma lookup_put_later facts p q v : p ≠ q → strLt q p = false → lookupWorkflowFact facts p = None →
  lookupWorkflowFact (mapPut q v facts) p = None.
Proof.
  intros N L. unfold lookupWorkflowFact. rewrite fieldOf_mapPut_ne by done. destruct (fieldOf facts p); [done|].
  destruct (segments p) as [|s rest] eqn:E; [done|]. cbn. rewrite fieldOf_mapPut_ne; [done|]. intros ->.
  apply segments_head in E as [t ->]. destruct (strLt_total s (s +:+ t)) as [H|[H|H]]; [congruence| |by rewrite strLt_prefix in H].
  by symmetry in H.
Qed.

(** A validated path: absent, or present with its declared type. *)
Definition validated (facts : list (string * any)) (p : string) : Prop :=
  lookupWorkflowFact facts p = None ∨
  ∃ v typeName t, fieldOf facts p = Some v ∧ env_Facts environment !! p = Some typeName ∧
    parse (env_Types environment) typeName false = Ok t ∧ conforms (env_Types environment) v t = true.

Lemma validateFact_spec facts path facts' : is_Some (env_Facts environment !! path) → goFacts facts →
  validateFact environment facts path = Ok facts' →
  goFacts facts' ∧ validated facts' path ∧ ∀ p, p ≠ path → strLt path p = false → validated facts p → validated facts' p.
Proof.
  intros [typeName Ht] G. unfold validateFact. destruct (lookupWorkflowFact facts path) as [v|] eqn:E.
  - rewrite Ht. cbn [default]. destruct (NormalizeValue environment _ v) as [v'|] eqn:Hn; [|done]. intros [= <-].
    apply NormalizeValue_conforms in Hn as (e & t & He & Hp & C & _); [|by eapply lookup_goValue].
    rewrite Hnormal in He. simplify_eq. split_and!.
    + apply mapPut_Forall; [by eapply conforms_goValue|done].
    + right. exists v', typeName, t. split_and!; try done. apply fieldOf_mapPut_eq.
    + intros p N L [H|(w & tn & ty & Hf & R)]; [left; by apply lookup_put_later|right; exists w, tn, ty; rewrite fieldOf_mapPut_ne by done; done].
  - intros [= <-]. split_and!; [done|by left|done].
Qed.

(** The keys of the environment are visited in increasing order. *)
Lemma validateFacts_spec paths facts facts' : StronglySorted (λ p q, strLt q p = false) paths → NoDup paths →
  Forall (λ p, is_Some (env_Facts environment !! p)) paths → goFacts facts → foldR (validateFact environment) paths facts = Ok facts' →
  goFacts facts' ∧ Forall (validated facts') paths ∧
  ∀ p, p ∉ paths → Forall (λ q, strLt q p = false) paths → validated facts p → validated facts' p.
Proof.
  intros S N D. revert facts. induction S as [|p paths _ IH Hp]; intros facts G H; cbn in H; [by simplify_eq|].
  apply bind_Ok in H as (f1 & H1 & H). apply NoDup_cons in N as [Np N]. apply Forall_cons in D as [Dp D].
  destruct (validateFact_spec _ _ _ Dp G H1) as (G1 & V1 & K1). destruct (IH N D _ G1 H) as (G' & V' & K'). split_and!; [done|..].
  - constructor; [|done]. apply K'; [done| |done]. done.
  - intros q Nq Lq Vq. apply not_elem_of_cons in Nq as [Nq1 Nq2]. apply Forall_cons in Lq as [L1 L2]. apply K'; [done..|]. by apply K1.
Qed.

Lemma validateAdmissionFactTypes_conform facts facts' : goFacts facts → validateAdmissionFactTypes environment facts = Ok facts' →
  goFacts facts' ∧ factsConform environment facts'.
Proof.
  intros G H. destruct (validateFacts_spec (sortedKeys (env_Facts environment)) facts facts') as (G' & V & _); try done.
  - apply sortedKeys_sorted.
  - apply sortedKeys_NoDup.
  - apply Forall_forall. intros p Hp. by apply sortedKeys_elem.
  - split; [done|]. intros path typeName t v Hp Ht Hl. rewrite Forall_forall in V.
    destruct (V path) as [E|(w & tn & ty & Hf & Hp' & Ht' & C)]; [apply sortedKeys_elem; eauto|congruence|].
    unfold lookupWorkflowFact in Hl. rewrite Hf in Hl. simplify_eq. rewrite Ht in Ht'. by simplify_eq.
Qed.
End Validation.

(** ** The effective facts of an admission *)
Lemma flattenAssignments_go v prefix : goValue v = true → goFacts (flattenAssignments v prefix).
Proof.
  revert prefix. induction v as [| | | | | | | |l IH|l IH|] using any_nested_ind; intros prefix G; try apply Forall_nil_2.
  cbn in G. apply forallb_Forall in G. unfold goFacts. rewrite Forall_forall in IH, G |- *. intros [k w] Hin.
  apply flattenAssignments_map in Hin as (key & child & He & [[-> ->]|H]); [by apply (G _ He)|].
  pose proof (IH _ He (joinPath prefix key) (G _ He)) as F. unfold goFacts in F. rewrite Forall_forall in F. by apply (F _ H).
Qed.
Lemma mergeWorkflowFactOverrides_go target overrides : goFacts target → goFacts overrides →
  goFacts (mergeWorkflowFactOverrides target overrides).
Proof.
  intros Ht Ho. unfold mergeWorkflowFactOverrides, orderedWorkflowFactKeys.
  assert (goFacts (merge_sort factKeyLe overrides)) as Hs by (unfold goFacts; by rewrite merge_sort_Permutation).
  revert Hs. generalize (merge_sort factKeyLe overrides) as l. intros l Hl. clear Ho. revert target Ht.
  induction Hl as [|[k v] l Hv _ IH]; intros target Ht; cbn [fold_left fst snd]; [done|]. apply IH. unfold flattenWorkflowFact, assignAll.
  pose proof (flattenAssignments_go v k Hv) as F. assert (goFacts (mapPut k v target)) as P by (by apply mapPut_Forall).
  revert P. generalize (mapPut k v target) as t. induction F as [|[k' v'] l' Hv' _ IH']; intros t P; cbn; [done|]. apply IH'. by apply mapPut_Forall.
Qed.
Lemma decodeExecutionFacts_go data facts : decodeExecutionFacts data = Ok facts → goFacts facts.
Proof.
  unfold decodeExecutionFacts. destruct (Decode data) as [[]|]; intros H; simplify_eq; try apply Forall_nil_2.
  apply Forall_fmap, Forall_true. intros f. apply ofJSON_goValue.
Qed.

Lemma normalizedWorkflowFacts_conform formatFloat environment facts effective :
  normalizeEnvironment environment = Ok environment → normalizedWorkflowFacts formatFloat environment facts = Ok effective →
  factsConform environment effective.
Proof.
  intros Hn H. unfold normalizedWorkflowFacts in H. apply bind_Ok in H as (copy & _ & H). apply bind_Ok in H as (data & _ & H).
  apply bind_Ok in H as (owned & Ho & H). apply decodeExecutionFacts_go in Ho.
  eapply validateAdmissionFactTypes_conform; [done| |exact H]. apply mergeWorkflowFactOverrides_go; [apply Forall_nil_2|done].
Qed.

Section AdmittedFacts.
  Context (protoSize : RuleArtifact → Z) (unknownFields : RuleArtifact → bool) (protoMarshal : RuleArtifact → option string)
    (formatFloat : spec_float → string) (matchString : string → string → result bool).

(** C8: accepted predicates are safe to evaluate. Take any artifact the checker accepts
    and any facts a caller supplies for which admission computes effective facts: each
    predicate of the artifact evaluates to a boolean on them, or fails for one of the
    reasons a type system cannot exclude: a fact that is absent, arithmetic overflow,
    division by zero, an invalid regular expression, or a function call, which a source
    generation does not offer. It never meets a value of the wrong type. The integers of
    a literal are 64-bit in the wire format. *)
Theorem accepted_predicates_evaluate artifact environment limits c clone e facts effective plan :
  Check protoSize unknownFields protoMarshal artifact environment limits = Ok (c, clone) →
  normalizeEnvironment environment = Ok e → normalizedWorkflowFacts formatFloat e facts = Ok effective →
  plan ∈ ra_Plans clone → exprIntsInRange (pl_Predicate plan) = true →
  match evaluateCheckedPredicate matchString (pl_Predicate plan) effective with
  | Ok _ => True
  | Err err => runtimeError matchString err
  end.
Proof.
  intros (l & a & e' & s & w & _ & _ & _ & _ & He & Hc & _)%Check_Ok He' Hf Hin R. rewrite He' in He. simplify_eq.
  apply check_plans in Hc as (_ & s1 & plans0 & _ & Hp). eapply checkPlans_elem in Hp as (s2 & s3 & Hp); [|done].
  apply checkPlan_predicate in Hp as (s4 & s5 & Hp).
  apply normalizedWorkflowFacts_conform in Hf; [|by eapply normalizeEnvironment_idem].
  pose proof (expression_sound _ _ matchString _ _ _ _ _ _ R Hf Hp) as S. unfold evaluateCheckedPredicate.
  destruct (evaluateCheckedExpression matchString (pl_Predicate plan) effective) as [v|err]; cbn in S |- *; [|done].
  by apply conforms_bool in S as [b ->].
Qed.
End AdmittedFacts.

Definition noFloat (_ : spec_float) : string := "0".
Definition noRegexp (_ _ : string) : result bool := Err (errorf "invalid pattern").
Definition shopInput : list (string * any) := [("customer", AMap [("name", AString "Ada")]); ("order.total", AInt 150)].
Definition shopFacts : list (string * any) :=
  Eval vm_compute in match normalizedWorkflowFacts noFloat shopNormal shopInput with Ok f => f | Err _ => [] end.
Lemma shopFacts_Ok : normalizedWorkflowFacts noFloat shopNormal shopInput = Ok shopFacts.
Proof. vm_compute. reflexivity. Qed.
Lemma shopNormal_Ok : normalizeEnvironment shopEnvironment = Ok shopNormal.
Proof. vm_compute. reflexivity. Qed.
Lemma accepted_predicates_evaluate_witness :
  match evaluateCheckedPredicate noRegexp (pl_Predicate shopPlan) shopFacts with
  | Ok _ => True
  | Err err => runtimeError noRegexp err
  end.
Proof.
  apply (accepted_predicates_evaluate shopSize shopKnown shopMarshal noFloat noRegexp (Some shopArtifact) shopEnvironment noLimits
    shopHandle shopClone shopNormal shopInput shopFacts shopPlan shopChecked_Ok shopNormal_Ok shopFacts_Ok).
  - apply (list_elem_of_lookup_2 _ 0). reflexivity.
  - reflexivity.
Defined.
Example shopPlan_selected : evaluateCheckedPredicate noRegexp (pl_Predicate shopPlan) shopFacts = Ok true.
Proof. vm_compute. reflexivity. Qed.

(** ** Arguments of steps *)

(** The types of the result slots a list of steps binds. *)
Definition slotType (environment : Environment) (step : Step) : list typeRef :=
  match sp_ResultSlot step, env_Verbs environment !! sp_Verb step with
  | Some _, Some contract => match parse (env_Types environment) (vc_ResultType contract) true with Ok t => [t] | Err _ => [] end
  | _, _ => []
  end.
Definition slotTypes (environment : Environment) (steps : list Step) : list typeRef := steps ≫= slotType environment.
(** The literals of an argument are in the range of their wire format. *)
Definition valueIntsInRange (v : Value) : bool := match v with ValueLiteral l => intsInRange l | _ => true end.

Section Arguments.
  Context (environment : Environment) (limits : Limits).
  #[local] Abbreviation types := (env_Types environment).

Lemma checkStep_slotTypes index step slots policy s step' slots' s' :
  checkStep environment limits index step slots policy s = Ok ((step', slots'), s') → slots' = slots ++ slotType environment step'.
Proof.
  intros [_ [contract [_ V _ _ _ _ _ _ _ _ (t & Ht & Hb)]]]%checkStep_accepted. unfold slotType. rewrite V, Ht.
  unfold bindSlot in Hb. destruct (sp_ResultSlot step'); [|simplify_eq; by rewrite app_nil_r]. by inv_res.
Qed.
Lemma checkSteps_slots index steps slots policy s steps' s' i step : checkSteps environment limits index steps slots policy s = Ok (steps', s') →
  steps' !! i = Some step → ∃ slots2 s1 s2,
    checkStep environment limits (index + i) step (slots ++ slotTypes environment (take i steps')) policy s1 = Ok ((step, slots2), s2).
Proof.
  revert index slots s steps' s' i. induction steps as [|q steps IH]; intros index slots s steps' s' i H Hi; cbn in H; inv_check; [done|].
  destruct x as [step1 slots1]. inv_check. destruct i as [|i]; cbn in Hi.
  - simplify_eq. rewrite Nat.add_0_r. cbn. rewrite app_nil_r. eexists _, _, _. by eapply checkStep_again.
  - rewrite <-Nat.add_succ_comm. cbn. rewrite app_assoc.
    match goal with E : checkStep _ _ _ _ _ _ _ = _ |- _ => apply checkStep_slotTypes in E as <- end. by eapply (IH (S index) slots1 _ _ _ i).
Qed.

Lemma checkArguments_Ok contract slots previous args s s' : checkArguments environment limits contract slots previous args s = Ok (tt, s') →
  Forall (λ a, ∃ tn t s1 s2, vc_Arguments contract !! arg_Name a = Some tn ∧ parse types tn false = Ok t ∧
    checkValue environment limits (arg_Value a) t slots s1 = Ok (tt, s2)) args.
Proof.
  revert previous s. induction args as [|a args IH]; intros previous s H; cbn in H; inv_check; constructor; [|by eapply IH].
  inv_res. naive_solver.
Qed.

Lemma checkValue_sound v t slots s s' facts values : checkValue environment limits v t slots s = Ok (tt, s') →
  parsed t = true → valueIntsInRange v = true → factsConform environment facts →
  Forall2 (λ x t, conforms types x t = true) values slots →
  match resolveCheckedWorkflowValue v facts values with Ok x => conforms types x t = true | Err e => e = missingFact end.
Proof.
  intros H Pt R F S. destruct v; cbn in H; inv_check; cbn.
  - match goal with E : checkLiteralStructure _ _ _ _ = _, E' : literalAssignable _ _ _ = Ok _ |- _ =>
      apply checkLiteralStructure_wf in E; [|done]; destruct (literalAssignable_conforms _ _ _ E Pt E') as (v & -> & C) end. done.
  - inv_res. destruct (lookupWorkflowFact facts path) as [v|] eqn:E; cbn; [|done].
    match goal with E : negb match parse ?a ?b ?c with _ => _ end = false |- _ => apply negb_false_iff in E; destruct (parse a b c) eqn:P; [|done] end.
    eapply assignable_conforms; [eassumption|]. by eapply F.
  - destruct (slots !! Z.to_nat slot) as [t'|] eqn:E; [|done]. inv_check.
    match goal with E : negb _ = false |- _ => apply negb_false_iff in E; rename E into A end.
    destruct (Forall2_lookup_r _ _ _ _ _ S E) as (x & -> & C). cbn. by eapply assignable_conforms.
Qed.

(** A step's arguments resolve to values of the types its verb declares. *)
Lemma stepArguments_sound step contract slots s s' facts values :
  checkArguments environment limits contract slots None (sp_Arguments step) s = Ok (tt, s') →
  forallb (λ a, valueIntsInRange (arg_Value a)) (sp_Arguments step) = true → factsConform environment facts →
  Forall2 (λ x t, conforms types x t = true) values slots →
  match stepArguments step facts values with
  | Ok arguments =>
      (∀ a, a ∈ sp_Arguments step → is_Some (fieldOf arguments (arg_Name a))) ∧
      ∀ name v, fieldOf arguments name = Some v → ∃ tn t, vc_Arguments contract !! name = Some tn ∧
        parse types tn false = Ok t ∧ conforms types v t = true
  | Err e => e = missingFact
  end.
Proof.
  intros A%checkArguments_Ok R F S. unfold stepArguments. apply forallb_Forall in R.
  assert (∀ arguments : list (string * any), (∀ name v, fieldOf arguments name = Some v → ∃ tn t, vc_Arguments contract !! name = Some tn ∧
        parse types tn false = Ok t ∧ conforms types v t = true) →
    match foldR (λ arguments argument, value ← resolveCheckedWorkflowValue (arg_Value argument) facts values;
           Ok (mapPut (arg_Name argument) value arguments)) (sp_Arguments step) arguments with
    | Ok result => (∀ name, is_Some (fieldOf arguments name) → is_Some (fieldOf result name)) ∧
        (∀ a, a ∈ sp_Arguments step → is_Some (fieldOf result (arg_Name a))) ∧
        ∀ name v, fieldOf result name = Some v → ∃ tn t, vc_Arguments contract !! name = Some tn ∧
        parse types tn false = Ok t ∧ conforms types v t = true
    | Err e => e = missingFact
    end) as G.
  2: { specialize (G []). destruct (foldR _ _ _); [|by apply G]. destruct G as (_ & G); done. }
  induction (sp_Arguments step) as [|a args IH]; intros arguments Ha; cbn [foldR].
  { split_and!; [done| |done]. by intros a ?%elem_of_nil. }
  apply Forall_cons in A as [(tn & t & s1 & s2 & Hn & Ht & Hv) A]. apply Forall_cons in R as [Ra R].
  pose proof (checkValue_sound _ _ _ _ _ facts values Hv (parse_parsed _ _ _ _ Ht) Ra F S) as V.
  destruct (resolveCheckedWorkflowValue _ _ _) as [v|e]; cbn; [|done].
  specialize (IH A R (mapPut (arg_Name a) v arguments)). destruct (foldR _ args _) as [result|]; [|apply IH].
  - destruct IH as (I1 & I2 & I3).
    { intros name w. rewrite fieldOf_mapPut. case_bool_decide; [|apply Ha]. intros [= <-]. subst. eauto. }
    split_and!; [|intros b [->|Hb]%elem_of_cons; [|by apply I2]|done].
    + intros name Hs. apply I1. rewrite fieldOf_mapPut. by case_bool_decide.
    + apply I1. rewrite fieldOf_mapPut_eq. done.
  - intros name w. rewrite fieldOf_mapPut. case_bool_decide; [|apply Ha]. intros [= <-]. subst. eauto.
Qed.
End Arguments.

(** verbs receive what they declare. In an accepted artifact, take any step of any
    plan, effective facts an admission computed, and results of the earlier steps that
    have their verbs' result types. Then the step's arguments resolve, unless a fact they
    name is absent, to a map with every argument the step passes, hence every required one,
    in which each value has the type the verb declares for that argument. *)
Theorem accepted_steps_pass_typed_arguments protoSize unknownFields protoMarshal formatFloat artifact environment limits c clone e facts effective plan i step values :
  Check protoSize unknownFields protoMarshal artifact environment limits = Ok (c, clone) →
  normalizeEnvironment environment = Ok e → normalizedWorkflowFacts formatFloat e facts = Ok effective →
  plan ∈ ra_Plans clone → pl_Steps plan !! i = Some step →
  forallb (λ a, valueIntsInRange (arg_Value a)) (sp_Arguments step) = true →
  Forall2 (λ x t, conforms (env_Types e) x t = true) values (slotTypes e (take i (pl_Steps plan))) →
  ∃ contract, env_Verbs e !! sp_Verb step = Some contract ∧
    match stepArguments step effective values with
    | Ok arguments =>
        (∀ name, name ∈ default [] (vc_RequiredArgs contract) → is_Some (fieldOf arguments name)) ∧
        (∀ a, a ∈ sp_Arguments step → is_Some (fieldOf arguments (arg_Name a))) ∧
        ∀ name v, fieldOf arguments name = Some v → ∃ tn t, vc_Arguments contract !! name = Some tn ∧
          parse (env_Types e) tn false = Ok t ∧ conforms (env_Types e) v t = true
    | Err err => err = missingFact
    end.
Proof.
  intros (l & a & e' & s & w & _ & _ & _ & _ & He & Hc & _)%Check_Ok He' Hf Hin Hi R S. rewrite He' in He. simplify_eq.
  apply check_plans in Hc as (_ & s1 & plans0 & _ & Hp). eapply checkPlans_elem in Hp as (s2 & s3 & Hp); [|done].
  apply checkPlan_steps in Hp as (s4 & s5 & Hp). eapply checkSteps_slots in Hp as (sl & s6 & s7 & Hp); [|done]. cbn in Hp.
  apply checkStep_accepted in Hp as [_ [contract []]]. exists contract. split; [done|]. destruct sa_arguments as (s8 & s9 & A).
  apply normalizedWorkflowFacts_conform in Hf; [|by eapply normalizeEnvironment_idem].
  pose proof (stepArguments_sound _ _ _ _ _ _ _ _ _ A R Hf S) as G. destruct (stepArguments _ _ _); [|done].
  destruct G as [G1 G2]. split_and!; [|done..]. intros name Hn. rewrite Forall_forall in sa_required.
  apply sa_required, list_elem_of_fmap in Hn as (b & -> & Hb). auto.
Qed.
Definition shopNotify : Step := default shipStep (pl_Steps shopPlan !! 1%nat).
Lemma accepted_steps_pass_typed_arguments_witness : ∃ contract, env_Verbs shopNormal !! "notify" = Some contract ∧
  match stepArguments shopNotify shopFacts [AString "T-1"] with
  | Ok arguments =>
      (∀ name, name ∈ default [] (vc_RequiredArgs contract) → is_Some (fieldOf arguments name)) ∧
      (∀ a, a ∈ sp_Arguments shopNotify → is_Some (fieldOf arguments (arg_Name a))) ∧
      ∀ name v, fieldOf arguments name = Some v → ∃ tn t, vc_Arguments contract !! name = Some tn ∧
        parse (env_Types shopNormal) tn false = Ok t ∧ conforms (env_Types shopNormal) v t = true
  | Err err => err = missingFact
  end.
Proof.
  apply (accepted_steps_pass_typed_arguments shopSize shopKnown shopMarshal noFloat (Some shopArtifact) shopEnvironment noLimits
    shopHandle shopClone shopNormal shopInput shopFacts shopPlan 1 shopNotify [AString "T-1"] shopChecked_Ok shopNormal_Ok shopFacts_Ok).
  - apply (list_elem_of_lookup_2 _ 0). reflexivity.
  - reflexivity.
  - reflexivity.
  - replace (slotTypes shopNormal (take 1 (pl_Steps shopPlan))) with [TString] by (vm_compute; reflexivity).
    repeat constructor.
Defined.
