(* ===== verification/Dispatcher.v ===== *)
(** * The dispatcher ([schema/saga_dispatcher.go])

    One worker: it claims an intent, takes the fences the intent requires, persists the
    grants, calls the executor and records what the executor reported.

    Between any two calls of this worker other workers may use the same store and
    provider. The worker therefore runs against an [Oracle]: for the [n]-th call it makes,
    the oracle gives the clock readings, whether the context has ended, the random lease
    token, and what the other workers have done to the shared state in the meantime. The
    calls to the executor are kept in a log. Fencing providers are an interface. *)

From S2P Require Import Prelude GoText Json Workflow Identity Outbox Fencing Value Admission.
From Stdlib Require Import ZArith String Floats.SpecFloat.
From stdpp Require Import pretty.
Local Open Scope list_scope.
Local Open Scope Z_scope.

(** ** [invocation.Request] *)
Record Saga : Type := mkSagaMeta {
  sm_SagaID : string;
  sm_EffectID : string;
  sm_Attempt : Z;
  sm_Direction : Direction;
  sm_IdempotencyKey : string }.
Record Context : Type := mkContext {
  mc_RequestID : string;
  mc_ExecutionID : string;
  mc_Saga : Saga;
  mc_FencingGrants : list FencingGrant;
  mc_Deadline : Time }.
Record InvocationRequest : Type := mkInvocation {
  iv_Metadata : Context;
  iv_Verb : string;
  iv_Arguments : list (string * any);
  iv_ArgumentHash : string;
  iv_ContractHash : string }.

(** ** Interfaces *)

(** [fencing.Provider] and [fencing.Lease]: what is promised is that a lease is for the
    resource that was requested. *)
Class FencingProvider (P L : Type) : Type := {
  pv_Guarantee : P → Guarantee;
  pv_Acquire : option error → Time → Request → P → result (L * P);
  pv_Grant : L → FencingGrant;
  pv_Release : option error → L → P → result P;
  pv_Acquire_names ctx now request p lease p' : pv_Acquire ctx now request p = Ok (lease, p') →
    fg_Authority (pv_Grant lease) = rq_Authority request ∧ fg_Resource (pv_Grant lease) = rq_Resource request }.

#[export] Program Instance memoryProvider : FencingProvider InMemoryProvider memoryLease := {|
  pv_Guarantee := providerGuarantee; pv_Acquire := Acquire; pv_Grant := Grant; pv_Release := Release |}.
Next Obligation.
  intros ctx now request p lease p' H. unfold Acquire in H. inv_res. done.
Qed.

(** [invocation.Executor], and [UnknownOutcomeRetryPolicy] when it is implemented. The
    number of the call lets the destination answer differently each time. *)
Record Executor : Type := mkExecutor {
  ex_Invoke : nat → InMemoryOutboxStore → InvocationRequest → Outcome json;
  ex_RetryUnknownOutcome : option (InvocationRequest → bool) }.

Record DispatcherOptions : Type := mkOptions {
  do_Owner : string;
  do_RequestID : string;
  do_LeaseDuration : Duration;
  do_InvocationTimeout : Duration;
  do_MaxAttempts : Z;
  do_InitialBackoff : Duration;
  do_MaxBackoff : Duration;
  do_RequireDurableFencing : bool }.
#[global] Instance eta_DispatcherOptions : Eta DispatcherOptions := λ r,
  mkOptions (do_Owner r) (do_RequestID r) (do_LeaseDuration r) (do_InvocationTimeout r) (do_MaxAttempts r)
    (do_InitialBackoff r) (do_MaxBackoff r) (do_RequireDurableFencing r).

(** [NewDispatcher] fills in the defaults. *)
Definition NewDispatcher (executor : option Executor) (guarantee : option Guarantee) (options : DispatcherOptions)
    : result (Executor * DispatcherOptions) :=
  executor ← ofOption executor (errorf "outbox store and invocation-aware executor are required");
  failIf (bool_decide (do_Owner options = "")) (errorf "dispatcher owner is required") ;;
  failIf (bool_decide (do_LeaseDuration options < 0) || bool_decide (do_InvocationTimeout options < 0)
          || bool_decide (do_InitialBackoff options < 0) || bool_decide (do_MaxBackoff options < 0))
    (errorf "dispatcher durations must not be negative") ;;
  let options := if bool_decide (do_LeaseDuration options = 0)
                 then options <| do_LeaseDuration := 30 * Second |> else options in
  let options := if bool_decide (do_InvocationTimeout options = 0)
                 then options <| do_InvocationTimeout := do_LeaseDuration options - Z.quot (do_LeaseDuration options) 4 |>
                 else options in
  failIf (bool_decide (do_LeaseDuration options ≤ do_InvocationTimeout options))
    (errorf "invocation timeout must be shorter than the dispatch lease") ;;
  failIf (bool_decide (do_InvocationTimeout options ≤ 0)) (errorf "dispatcher lease duration is too short") ;;
  let options := if bool_decide (do_MaxAttempts options = 0) then options <| do_MaxAttempts := 8 |> else options in
  let options := if bool_decide (do_MaxBackoff options ≤ 0) then options <| do_MaxBackoff := Minute |> else options in
  let options := if bool_decide (do_InitialBackoff options ≤ 0)
                 then options <| do_InitialBackoff := Z.min Second (do_MaxBackoff options) |> else options in
  failIf (bool_decide (do_MaxBackoff options < do_InitialBackoff options))
    (errorf "initial backoff must not exceed maximum backoff") ;;
  failIf (do_RequireDurableFencing options
          && negb (match guarantee with Some GuaranteeDurableMonotonic => true | _ => false end))
    (errorf "durable fencing is required but the provider is not durable_monotonic") ;;
  Ok (executor, options).

(** ** Backoff *)

(** The code point of a rune as [range] yields it; an invalid byte is U+FFFD. *)
Definition runeValue (r : rune) : Z :=
  let n a := Z.of_N (byteN a) in
  match r with
  | R1 a => n a
  | R2 a b => Z.land (n a) 31 * 64 + Z.land (n b) 63
  | R3 a b c => Z.land (n a) 15 * 4096 + Z.land (n b) 63 * 64 + Z.land (n c) 63
  | R4 a b c d => Z.land (n a) 7 * 262144 + Z.land (n b) 63 * 4096 + Z.land (n c) 63 * 64 + Z.land (n d) 63
  | RBad _ => 65533
  end.
(** [math.Pow(2, float64(k))] for [0 <= k] *)
Definition pow2 (k : Z) : spec_float :=
  if bool_decide (k < 1024) then binary_normalize 53 1024 1 k false else S754_infinity false.
(** [time.Duration(f)] for a finite [f] in range: truncation. *)
Definition truncF (f : spec_float) : Z :=
  match f with
  | S754_finite s m e =>
      let v := if bool_decide (0 ≤ e) then Zpos m * 2 ^ e else Zpos m / 2 ^ (- e) in if s then - v else v
  | _ => 0
  end.
Definition jitterSeed (key : string) (attempt : Z) : Z :=
  u64 (fold_left (λ seed r, u64 (seed * 33 + runeValue r)) (runes (bytes key)) 0 + attempt * 11400714819323198485).
Definition backoff (options : DispatcherOptions) (dispatch : Dispatch) : Duration :=
  let maximum := floatOfZ (do_MaxBackoff options) in
  let value := fmul (floatOfZ (do_InitialBackoff options)) (pow2 (d_Attempt dispatch - 1)) in
  let value := if SFltb maximum value then maximum else value in
  let seed := jitterSeed (d_IdempotencyKey dispatch) (d_Attempt dispatch) in
  let jitter := fadd (binary_normalize 53 1024 3 (-2) false) (fdiv (floatOfZ (seed `mod` 5000)) (floatOfZ 10000)) in
  let value := fmul value jitter in
  if SFleb maximum value then do_MaxBackoff options else truncF value.

(** ** The worker *)
Section Dispatcher.
  Context {P L : Type} `{FencingProvider P L}.

(** Shared state, the number of calls made so far, and the log of external calls. *)
Record World : Type := mkWorld {
  w_calls : nat;
  w_store : InMemoryOutboxStore;
  w_provider : option P;  (* a nil provider is [None] *)
  w_invoked : list InvocationRequest }.

Record Oracle : Type := mkOracle {
  o_now : nat → nat → Time;  (* call, reading *)
  o_ctx : nat → option error;
  o_token : nat → result string;
  o_others : nat → InMemoryOutboxStore → InMemoryOutboxStore;
  o_otherFences : nat → P → P }.

  Context (o : Oracle) (executor : Executor) (options : DispatcherOptions).

Definition run (A : Type) : Type := World → A * World.
#[local] Instance run_ret : MRet run := λ A a w, (a, w).
#[local] Instance run_bind : MBind run := λ A B f m w, let '(a, w) := m w in f a w.

(** An atomic call on the store. *)
Definition onStore {A} (f : nat → InMemoryOutboxStore → result (A * InMemoryOutboxStore)) : run (result A) := λ w,
  let n := w_calls w in
  let store := o_others o n (w_store w) in
  match f n store with
  | Ok (a, store') => (Ok a, mkWorld (S n) store' (w_provider w) (w_invoked w))
  | Err e => (Err e, mkWorld (S n) store (w_provider w) (w_invoked w))
  end.
Definition readStore {A} (f : nat → InMemoryOutboxStore → result A) : run (result A) :=
  onStore (λ n store, a ← f n store; Ok (a, store)).
Definition writeStore (f : nat → InMemoryOutboxStore → result InMemoryOutboxStore) : run (result unit) :=
  onStore (λ n store, store ← f n store; Ok (tt, store)).
(** A call on the provider. *)
Definition onProvider {A} (f : nat → P → result (A * P)) : run (result A) := λ w,
  let n := w_calls w in
  match w_provider w with
  | None => (Err (errorf "dispatch requires fencing but no provider is configured"), w)
  | Some p =>
      let p := o_otherFences o n p in
      match f n p with
      | Ok (a, p') => (Ok a, mkWorld (S n) (w_store w) (Some p') (w_invoked w))
      | Err e => (Err e, mkWorld (S n) (w_store w) (Some p) (w_invoked w))
      end
  end.
(** [time.Now()] *)
Definition timeNow : run Time := λ w, (o_now o (w_calls w) 0, mkWorld (S (w_calls w)) (w_store w) (w_provider w) (w_invoked w)).
(** [ctx.Err()] *)
Definition contextErr : run (option error) := λ w,
  (o_ctx o (w_calls w), mkWorld (S (w_calls w)) (w_store w) (w_provider w) (w_invoked w)).
(** [executor.Invoke(ctx, request)] *)
Definition invoke (request : InvocationRequest) : run (Outcome json) := λ w,
  let n := w_calls w in
  let store := o_others o n (w_store w) in
  (ex_Invoke executor n store request, mkWorld (S n) store (w_provider w) (w_invoked w ++ [request])).

(** [releaseFences]: in reverse, errors ignored. *)
Fixpoint releaseReversed (leases : list L) : run unit :=
  match leases with
  | [] => mret tt
  | lease :: leases =>
      _ ← onProvider (λ n p, p ← pv_Release (o_ctx o n) lease p; Ok (tt, p));
      releaseReversed leases
  end.
Definition releaseFences (leases : list L) : run unit := releaseReversed (rev leases).

(** [fmt.Sprintf("%s/%d/%s", dispatch.ID, dispatch.Attempt, dispatch.LeaseToken)] *)
Definition holderOf (dispatch : Dispatch) : string :=
  d_ID dispatch +:+ "/" +:+ pretty (d_Attempt dispatch) +:+ "/" +:+ d_LeaseToken dispatch.

Fixpoint acquireLoop (holder : string) (requirements : list FencingRequirement) (leases : list L)
    (grants : list FencingGrant) : run (result (list L * list FencingGrant)) :=
  match requirements with
  | [] => mret (Ok (leases, grants))
  | requirement :: requirements =>
      acquired ← onProvider (λ n p, pv_Acquire (o_ctx o n) (o_now o n 0)
        (mkRequest (fr_Authority requirement) (fr_Resource requirement) holder (do_LeaseDuration options)) p);
      match acquired with
      | Err e => releaseFences leases ;; mret (Err e)
      | Ok lease => acquireLoop holder requirements (leases ++ [lease]) (grants ++ [pv_Grant lease])
      end
  end.
Definition acquireFences (dispatch : Dispatch) : run (result (list L * list FencingGrant)) := λ w,
  match d_Fencing dispatch, w_provider w with
  | [], _ => (Ok ([], []), w)
  | _, None => (Err (errorf "dispatch requires fencing but no provider is configured"), w)
  | _, Some p =>
      if do_RequireDurableFencing options
         && negb (match pv_Guarantee p with GuaranteeDurableMonotonic => true | _ => false end)
      then (Err (errorf "dispatch requires durable fencing"), w)
      else acquireLoop (holderOf dispatch) (sortRequirements (d_Fencing dispatch)) [] [] w
  end.

(** The calls on the store. *)
Definition complete (completion : Completion) : run (result unit) :=
  writeStore (λ n, CompleteDispatch (o_ctx o n) (o_now o n 0) (o_now o n 1) completion).
(** [errors.Join(err, next)] *)
Definition joinResult {A} (e : error) (next : result A) : error :=
  match next with Ok _ => e | Err e' => errorsJoin e e' end.
Definition completionOf (dispatch : Dispatch) (outcome : OutcomeClass) (result message : string) (next : Time)
    (exhausted : bool) (now : Time) : Completion :=
  mkCompletion (d_ID dispatch) (d_Attempt dispatch) (d_LeaseToken dispatch) outcome result message next exhausted now.

Definition completeUnknown (dispatch : Dispatch) (cause : error) : run (option error) :=
  now ← timeNow;
  r ← complete (completionOf dispatch OutcomeUnknown "" (err_text cause) zeroTime true now);
  mret (Some (joinResult cause r)).

Definition exhaustedCertain : string := "retry budget exhausted before invocation after known non-commit".
Definition exhaustedUncertain : string := "retry budget exhausted before invocation; prior effect remains uncertain".
Definition completeExhaustedClaim (dispatch : Dispatch) : run (option Dispatch * option error) :=
  attempts ← readStore (λ n, ListAttempts (o_ctx o n) (d_ID dispatch));
  match attempts with
  | Err e => mret (Some dispatch, Some e)
  | Ok attempts =>
      let known := priorAttemptsKnownNotCommitted attempts (d_Attempt dispatch) in
      now ← timeNow;
      r ← complete (completionOf dispatch
            (if known then OutcomeRetryableKnownNotCommitted else OutcomeUnknown) ""
            (if known then exhaustedCertain else exhaustedUncertain) zeroTime true now);
      match r with
      | Err e => mret (Some dispatch, Some e)
      | Ok _ =>
          d ← readStore (λ n, GetDispatch (o_ctx o n) (d_ID dispatch));
          mret (match d with Ok d => (Some d, None) | Err e => (None, Some e) end)
      end
  end.

(** Decoding the persisted arguments into a [map[string]any]. *)
Definition decodeArguments (data : string) : result (list (string * any)) :=
  match Decode data with
  | Some (JObj fields) => Ok ((λ f, (f.1, ofJSON f.2)) <$> fields)
  | Some JNull => Ok []
  | _ => Err (errorf "decode persisted arguments")
  end.

(** The completion of a valid outcome: [None] when the result of a success cannot be encoded. *)
Definition completionFor (dispatch : Dispatch) (request : InvocationRequest) (outcome : Outcome json) (now : Time)
    : option Completion :=
  let message := match oc_Err outcome with Some e => err_text e | None => "" end in
  match oc_Class outcome with
  | OutcomeSuccess =>
      match CanonicalJSON (oc_Result outcome) with
      | Ok (result, _) => Some (completionOf dispatch OutcomeSuccess result message zeroTime false now)
      | Err _ => None
      end
  | OutcomeRetryableKnownNotCommitted | OutcomeUnknown =>
      let exhausted := bool_decide (do_MaxAttempts options ≤ d_Attempt dispatch) in
      let exhausted :=
        if bool_decide (oc_Class outcome = OutcomeUnknown)
        then match ex_RetryUnknownOutcome executor with
             | Some policy => if policy request then exhausted else true
             | None => true
             end
        else exhausted in
      let next := if exhausted then zeroTime else timeAdd now (backoff options dispatch) in
      Some (completionOf dispatch (oc_Class outcome) "" message next exhausted now)
  | class => Some (completionOf dispatch class "" message zeroTime false now)
  end.

(** After the executor has answered. *)
Definition recordOutcome (dispatch : Dispatch) (request : InvocationRequest) (outcome : Outcome json)
    : run (option Dispatch * option error) :=
  match ValidateOutcome outcome with
  | Err _ => e ← completeUnknown dispatch (errorf "invalid invocation outcome"); mret (Some dispatch, e)
  | Ok _ =>
      now ← timeNow;
      match completionFor dispatch request outcome now with
      | None => e ← completeUnknown dispatch (errorf "successful result is not serializable"); mret (Some dispatch, e)
      | Some completion =>
          r ← complete completion;
          match r with
          | Err e => mret (Some dispatch, Some e)
          | Ok _ =>
              d ← readStore (λ n, GetDispatch (o_ctx o n) (d_ID dispatch));
              mret (match d with Ok d => (Some d, None) | Err e => (None, Some e) end)
          end
      end
  end.

(** With the grants persisted: the external call. *)
Definition callExecutor (dispatch : Dispatch) (grants : list FencingGrant) (leaseDeadline : Time)
    : run (option Dispatch * option error) :=
  match decodeArguments (d_Arguments dispatch) with
  | Err e => e ← completeUnknown dispatch e; mret (Some dispatch, e)
  | Ok arguments =>
      saga ← readStore (λ n, GetSaga (o_ctx o n) (d_SagaID dispatch));
      match saga with
      | Err e => mret (Some dispatch, Some e)
      | Ok saga =>
          now ← timeNow;
          let deadline := timeAdd now (do_InvocationTimeout options) in
          let leaseSafeDeadline := timeAdd leaseDeadline (Z.quot (- do_LeaseDuration options) 10) in
          let deadline := if bool_decide (leaseSafeDeadline < deadline) then leaseSafeDeadline else deadline in
          if negb (timeAfter deadline now)
          then mret (Some dispatch, Some (errorf "dispatch lease has insufficient time for external invocation"))
          else
          let request := mkInvocation
            (mkContext (do_RequestID options) (sg_ExecutionID saga)
               (mkSagaMeta (d_SagaID dispatch) (d_EffectID dispatch) (d_Attempt dispatch) (d_Direction dispatch)
                  (d_IdempotencyKey dispatch)) grants deadline)
            (d_Verb dispatch) arguments (d_ArgumentHash dispatch) (d_ContractHash dispatch) in
          ended ← contextErr;
          match ended with
          | Some e => mret (Some dispatch, Some e)
          | None => outcome ← invoke request; recordOutcome dispatch request outcome
          end
      end
  end.

(** What follows a claim within the retry budget. *)
Definition dispatchClaimed (dispatch : Dispatch) (leaseDeadline : Time) : run (option Dispatch * option error) :=
  fences ← acquireFences dispatch;
  match fences with
  | Err e =>
      now ← timeNow;
      let exhausted := bool_decide (do_MaxAttempts options ≤ d_Attempt dispatch) in
      let next := if exhausted then zeroTime else timeAdd now (backoff options dispatch) in
      r ← complete (completionOf dispatch OutcomeRetryableKnownNotCommitted "" (err_text e) next exhausted now);
      mret (Some dispatch, Some (joinResult e r))
  | Ok (leases, grants) =>
      saved ← writeStore (λ n, SaveFencingGrants (o_ctx o n) (o_now o n 0) (o_now o n 1)
        (d_ID dispatch) (d_Attempt dispatch) (d_LeaseToken dispatch) grants);
      r ← match saved with
          | Err e => mret (Some dispatch, Some e)
          | Ok _ => callExecutor (dispatch <| d_FencingGrants := grants |>) grants leaseDeadline
          end;
      releaseFences leases ;; mret r
  end.

(** [Dispatcher.Dispatch]: the dispatch and the error it returns, either of which may be nil. *)
Definition DispatchTarget (targetDispatchID : string) : run (option Dispatch * option error) :=
  start ← timeNow;
  let leaseDeadline := timeAdd start (do_LeaseDuration options) in
  claimed ← onStore (λ n, ClaimDispatch (o_ctx o n) (o_now o n 0) (o_token o n)
    (mkClaim (do_Owner options) (do_LeaseDuration options) zeroTime targetDispatchID));
  match claimed with
  | Err e => mret (None, Some e)
  | Ok dispatch =>
      if bool_decide (do_MaxAttempts options < d_Attempt dispatch) then completeExhaustedClaim dispatch
      else dispatchClaimed dispatch leaseDeadline
  end.
Definition DispatchOne : run (option Dispatch * option error) := DispatchTarget "".
End Dispatcher.
