(* ===== verification/DispatcherProps.v ===== *)
(** * What a worker does with an intent

    Whatever the other workers, the clock, the contexts and the executor do, a worker
    calls out only for an intent it holds, after the claim and the fencing grants are
    durable, and within the retry budget. *)

From S2P Require Import Prelude GoText Sha256 Json Workflow Identity Outbox OutboxInv OutboxDyn OutboxOps OutboxClose OutboxGrowth OutboxDemo Fencing Value Admission Dispatcher.
From Stdlib Require Import ZArith String Lia.
Local Open Scope list_scope.
Local Open Scope Z_scope.

Create HintDb advances.

Section Worker.
  Context {P L : Type} `{FencingProvider P L}.
  Context (o : Oracle (P := P)) (executor : Executor) (options : DispatcherOptions).
  Context (Hothers : ∀ n s, rtc outbox_step s (o_others o n s)).
  #[local] Existing Instance run_ret.
  #[local] Existing Instance run_bind.
  #[local] Abbreviation World := (World (P := P)).

(** A part of the worker that only makes store operations. *)
Definition advances {A} (m : run A) : Prop := ∀ (w : World) a w', m w = (a, w') →
  rtc outbox_step (w_store w) (w_store w') ∧ w_invoked w' = w_invoked w.

Lemma advances_ret {A} (a : A) : advances (mret a).
Proof. intros w b w' [= <- <-]. done. Qed.
Lemma advances_bind {A B} (m : run A) (f : A → run B) : advances m → (∀ a, advances (f a)) → advances (m ≫= f).
Proof.
  intros Hm Hf w b w'. unfold mbind, run_bind. destruct (m w) as [a w1] eqn:E. intros E'.
  destruct (Hm _ _ _ E) as [S1 I1], (Hf _ _ _ _ E') as [S2 I2]. split; [by etrans|congruence].
Qed.
Lemma advances_onStore {A} (f : nat → InMemoryOutboxStore → result (A * InMemoryOutboxStore)) :
  (∀ n s a s', f n s = Ok (a, s') → rtc outbox_step s s') → advances (onStore o f).
Proof.
  intros Hf w a w' E. unfold onStore in E. pose proof (Hothers (w_calls w) (w_store w)) as S.
  destruct (f _ _) as [[b s]|e] eqn:F; simplify_eq; cbn; [|done]. split; [|done]. etrans; [exact S|by eapply Hf].
Qed.
Lemma advances_read {A} (f : nat → InMemoryOutboxStore → result A) : advances (readStore o f).
Proof. apply advances_onStore. intros n s a s' E. by inv_res. Qed.
Lemma advances_write (f : nat → InMemoryOutboxStore → result InMemoryOutboxStore) :
  (∀ n s s', f n s = Ok s' → outbox_step s s') → advances (writeStore o f).
Proof. intros Hf. apply advances_onStore. intros n s a s' E. inv_res. apply rtc_once. eauto. Qed.
Lemma advances_provider {A} (f : nat → P → result (A * P)) : advances (onProvider o f).
Proof.
  intros w a w' E. unfold onProvider in E. destruct (w_provider w); simplify_eq; [|done].
  destruct (f _ _) as [[b p']|]; by simplify_eq.
Qed.
Lemma advances_now : advances (timeNow o).
Proof. intros w a w' [= <- <-]. done. Qed.
Lemma advances_ctx : advances (contextErr o).
Proof. intros w a w' [= <- <-]. done. Qed.
Lemma advances_complete c : advances (complete o c).
Proof. apply advances_write. intros n s s' E. by eapply step_complete. Qed.

#[local] Hint Resolve advances_ret advances_read advances_provider advances_now advances_ctx advances_complete : advances.
Ltac advance :=
  repeat first
    [ solve [eauto with advances]
    | apply advances_bind; [|intros ?]
    | match goal with |- advances (match ?x with _ => _ end) => destruct x end ].

Lemma advances_release leases : advances (releaseFences o leases).
Proof. unfold releaseFences. induction (rev leases) as [|l ls IH]; cbn [releaseReversed]; advance. Qed.
#[local] Hint Resolve advances_release : advances.
Lemma advances_acquireLoop holder reqs leases grants : advances (acquireLoop o options holder reqs leases grants).
Proof. revert leases grants. induction reqs as [|r reqs IH]; intros leases grants; cbn [acquireLoop]; advance. Qed.
Lemma advances_acquire d : advances (acquireFences o options d).
Proof.
  intros w a w' E. unfold acquireFences in E. destruct (d_Fencing d); [by simplify_eq|]. destruct (w_provider w); [|by simplify_eq].
  destruct (_ && _); [by simplify_eq|]. by eapply advances_acquireLoop.
Qed.
Lemma advances_unknown d e : advances (completeUnknown o d e).
Proof. unfold completeUnknown. advance. Qed.
#[local] Hint Resolve advances_acquire advances_unknown : advances.
Lemma advances_exhausted d : advances (completeExhaustedClaim o d).
Proof. unfold completeExhaustedClaim. advance. Qed.
Lemma advances_record d rq out : advances (recordOutcome o executor options d rq out).
Proof. unfold recordOutcome. advance. Qed.

(** The durable record behind an external call: dispatch [d] of store [s] is in flight
    under the attempt of the request, with the very grants, identity, verb, arguments and
    contract the request carries, one grant for each fencing requirement, and with an
    attempt on record that names the same lease and grants. *)
Record authorizes (s : InMemoryOutboxStore) (d : Dispatch) (rq : InvocationRequest) : Prop := {
  au_stored : os_dispatches s !! d_ID d = Some d;
  au_inflight : d_State d = DispatchInFlight;
  au_saga : mc_Saga (iv_Metadata rq) = mkSagaMeta (d_SagaID d) (d_EffectID d) (d_Attempt d) (d_Direction d) (d_IdempotencyKey d);
  au_call : iv_Verb rq = d_Verb d ∧ iv_ArgumentHash rq = d_ArgumentHash d ∧ iv_ContractHash rq = d_ContractHash d ∧
    decodeArguments (d_Arguments d) = Ok (iv_Arguments rq);
  au_grants : mc_FencingGrants (iv_Metadata rq) = d_FencingGrants d ∧
    Forall2 (λ r g, fg_Authority g = fr_Authority r ∧ fg_Resource g = fr_Resource r) (d_Fencing d) (d_FencingGrants d);
  au_attempt : ∃ a, last (attemptsOf s (d_ID d)) = Some a ∧ at_LeaseOwner a = d_LeaseOwner d ∧ at_LeaseToken a = d_LeaseToken d ∧
    at_FencingGrants a = d_FencingGrants d ∧ at_CompletedAt a = zeroTime }.

Lemma SaveFencingGrants_Ok ctx ln un id att tok g s s' : SaveFencingGrants ctx ln un id att tok g s = Ok s' →
  ∃ d d', os_dispatches s !! id = Some d ∧ os_dispatches s' !! id = Some d' ∧ d_core d' = d_core d ∧
    d_State d' = DispatchInFlight ∧ d_Attempt d' = att ∧ d_LeaseToken d' = tok ∧ d_FencingGrants d' = g ∧
    Forall2 (λ r g, fg_Authority g = fr_Authority r ∧ fg_Resource g = fr_Resource r) (d_Fencing d') g.
Proof.
  unfold SaveFencingGrants. intros E. do 2 apply bind_Ok in E as ([] & _ & E). destruct (os_dispatches s !! id) as [d|] eqn:Ld; [|done].
  apply bind_Ok in E as ([] & E1%failIf_Ok & E). apply bind_Ok in E as ([] & E2%failIf_Ok & E).
  apply bind_Ok in E as ([] & E3%failIf_Ok & E). apply bind_Ok in E as ([] & _ & E). injection E as <-.
  apply negb_false_iff, currentLeaseAt_true in E1. apply bool_decide_eq_false, dec_stable in E2.
  eexists _, _. split; [done|]. cbn. rewrite lookup_insert_eq. split; [done|]. cbn. split_and!; try apply E1; try done.
  revert E2 E3. clear. generalize (d_Fencing d) as rs. intros rs. revert g. induction rs as [|r rs IH]; intros [|x g] E2 E3; try done; constructor.
  - cbn in E3. apply orb_false_iff in E3 as [[A B]%orb_false_iff _]. apply bool_decide_eq_false, dec_stable in A. apply bool_decide_eq_false, dec_stable in B. done.
  - apply IH; [by injection E2|]. cbn in E3. by apply orb_false_iff in E3 as [_ E3].
Qed.

(** ** External calls

    [callsOut Q m w]: run from [w], [m] makes store operations and at most one external
    call, and a call it makes satisfies [Q] at a store of the run before the call. *)
Definition callsOut {A} (Q : InMemoryOutboxStore → InvocationRequest → Prop) (m : run A) (w : World) : Prop :=
  ∀ a w', m w = (a, w') → rtc outbox_step (w_store w) (w_store w') ∧
    (w_invoked w' = w_invoked w ∨ ∃ rq s, w_invoked w' = w_invoked w ++ [rq] ∧ Q s rq ∧
      rtc outbox_step (w_store w) s ∧ rtc outbox_step s (w_store w')).

Lemma callsOut_advances {A} Q (m : run A) w : advances m → callsOut Q m w.
Proof. intros Hm a w' E. apply Hm in E as [? ?]. auto. Qed.
(** First only store operations. *)
Lemma callsOut_bind {A B} Q (m : run A) (f : A → run B) w : advances m →
  (∀ a w1, m w = (a, w1) → callsOut Q (f a) w1) → callsOut Q (m ≫= f) w.
Proof.
  intros Hm Hf b w'. unfold mbind, run_bind. destruct (m w) as [a w1] eqn:E. intros E'. pose proof (Hm _ _ _ E) as [S1 I1].
  destruct (Hf _ _ eq_refl _ _ E') as [S2 [I2|(rq & s & I2 & Hq & Sa & Sb)]]; (split; [by etrans|]); rewrite I1 in *; [by left|right].
  exists rq, s. split_and!; try done. by etrans.
Qed.
(** First the external call. *)
Lemma callsOut_then {A B} Q (m : run A) (f : A → run B) w : callsOut Q m w → (∀ a, advances (f a)) → callsOut Q (m ≫= f) w.
Proof.
  intros Hm Hf b w'. unfold mbind, run_bind. destruct (m w) as [a w1] eqn:E. intros E'. pose proof (Hf _ _ _ _ E') as [S2 I2].
  destruct (Hm _ _ E) as [S1 [I1|(rq & s & I1 & Hq & Sa & Sb)]]; (split; [etrans; [exact S1|exact S2]|]); rewrite I2; [by left|right].
  exists rq, s. split_and!; try done. etrans; [exact Sb|exact S2].
Qed.
Lemma callsOut_invoke (Q : InMemoryOutboxStore → InvocationRequest → Prop) rq w : Q (w_store w) rq → callsOut Q (invoke o executor rq) w.
Proof.
  intros Hq a w' E. unfold invoke in E. simplify_eq. cbn. pose proof (Hothers (w_calls w) (w_store w)) as S. split; [done|]. right.
  exists rq, (w_store w). done.
Qed.

(** What the request carries of the dispatch it is made for. *)
Definition requestFor (d : Dispatch) (grants : list FencingGrant) (rq : InvocationRequest) : Prop :=
  mc_Saga (iv_Metadata rq) = mkSagaMeta (d_SagaID d) (d_EffectID d) (d_Attempt d) (d_Direction d) (d_IdempotencyKey d) ∧
  (iv_Verb rq = d_Verb d ∧ iv_ArgumentHash rq = d_ArgumentHash d ∧ iv_ContractHash rq = d_ContractHash d ∧
    decodeArguments (d_Arguments d) = Ok (iv_Arguments rq)) ∧
  mc_FencingGrants (iv_Metadata rq) = grants.

Lemma callExecutor_calls d grants deadline w :
  callsOut (λ s rq, rtc outbox_step (w_store w) s ∧ requestFor d grants rq) (callExecutor o executor options d grants deadline) w.
Proof.
  unfold callExecutor. destruct (decodeArguments (d_Arguments d)) as [arguments|e] eqn:D.
  2: { apply callsOut_advances. advance. }
  apply callsOut_bind; [auto with advances|]. intros saga w1 E1. apply advances_read in E1 as [S1 _].
  destruct saga as [sg|e]; [|apply callsOut_advances; advance].
  apply callsOut_bind; [auto with advances|]. intros now w2 E2. apply advances_now in E2 as [S2 _].
  destruct (negb _); [apply callsOut_advances; advance|].
  apply callsOut_bind; [auto with advances|]. intros ended w3 E3. apply advances_ctx in E3 as [S3 _].
  destruct ended as [e|]; [apply callsOut_advances; advance|].
  apply callsOut_then; [|intros out; apply advances_record]. apply callsOut_invoke. split; [by repeat (etrans; [eassumption|])|]. done.
Qed.

Lemma claim_hits_target ctx now token copts s d s' : ClaimDispatch ctx now token copts s = Ok (d, s') → store_inv s →
  os_dispatches s' !! d_ID d = Some d ∧ (cl_TargetDispatchID copts ≠ "" → d_ID d = cl_TargetDispatchID copts).
Proof.
  intros (k & d0 & tok & L0 & El & _ & _ & -> & ->)%ClaimDispatch_Ok Hi. destruct (si_disp _ (inv_static _ Hi) _ _ L0) as (E & _). cbn. split.
  - rewrite E, lookup_insert_eq. done.
  - intros N. unfold eligible in El. destruct (_ && _) eqn:B; [done|]. apply andb_false_iff in B as [B|B]; apply bool_decide_eq_false, dec_stable in B; congruence.
Qed.
(** The claim as the store has it, and the saved grants. *)
Lemma saved_authorizes s0 s1 s2 d k ctx ln un grants rq : store_inv s0 → rtc outbox_step s0 s1 →
  os_dispatches s0 !! k = Some d → d_ID d = k →
  SaveFencingGrants ctx ln un (d_ID d) (d_Attempt d) (d_LeaseToken d) grants s1 = Ok s2 →
  requestFor (d <| d_FencingGrants := grants |>) grants rq →
  ∃ d', authorizes s2 d' rq ∧ d_ID d' = d_ID d ∧ d_Attempt d' = d_Attempt d.
Proof.
  intros Hi R L0 E Hs (Q1 & Q2 & Q3). destruct (rtc_inv_extends _ _ Hi R) as [Hi1 X]. destruct (ex_disp _ _ X _ _ L0) as (d1 & L1 & C1).
  pose proof (SaveFencingGrants_inv _ _ _ _ _ _ _ _ _ Hs Hi1) as Hi2.
  apply SaveFencingGrants_Ok in Hs as (d1' & d2 & L1' & L2 & C2 & St & At & Tk & Gr & F). rewrite E, L1 in L1'. simplify_eq.
  rewrite C1 in C2. unfold d_core in C2. simplify_eq. exists d2. split; [|split; congruence]. cbn in Q1, Q2.
  destruct (di_lease _ _ (inv_disp _ Hi2 _ _ L2) St) as (a & La & O & T & _ & G & _ & Z).
  split; [congruence..| |]; try (split_and!; congruence). exists a. rewrite C2. done.
Qed.

Lemma DispatchTarget_calls target w : store_inv (w_store w) →
  callsOut (λ s rq, ∃ s1 d, authorizes s1 d rq ∧ d_Attempt d ≤ do_MaxAttempts options ∧ (target ≠ "" → d_ID d = target) ∧
    rtc outbox_step (w_store w) s1 ∧ rtc outbox_step s1 s) (DispatchTarget o executor options target) w.
Proof.
  intros Hi. unfold DispatchTarget. apply callsOut_bind; [auto with advances|]. intros start w1 E1. apply advances_now in E1 as [S1 _].
  apply callsOut_bind; [apply advances_onStore; intros n s a s' X; apply rtc_once; by eapply step_claim|]. intros c w2 E2.
  unfold onStore in E2. destruct (ClaimDispatch _ _ _ _ _) as [[d s2]|e] eqn:Hc; simplify_eq; [|apply callsOut_advances; advance].
  case_bool_decide as B; [apply callsOut_advances, advances_exhausted|].
  assert (rtc outbox_step (w_store w) (o_others o (w_calls w1) (w_store w1))) as R1 by (etrans; [exact S1|apply Hothers]).
  assert (rtc outbox_step (w_store w) s2) as R2 by (eapply rtc_r; [exact R1|by eapply step_claim]).
  destruct (rtc_inv_extends _ _ Hi R2) as [Hi2 _]. pose proof (claim_hits_target _ _ _ _ _ _ _ Hc (proj1 (rtc_inv_extends _ _ Hi R1))) as [L2 T].
  unfold dispatchClaimed. apply callsOut_bind; [auto with advances|]. intros f w3 E3. apply advances_acquire in E3 as [S3 _]. cbn in S3.
  destruct f as [[leases grants]|e]; [|apply callsOut_advances; advance].
  apply callsOut_bind; [apply advances_write; intros n s s' X; by eapply step_grants|]. intros saved w4 E4.
  apply callsOut_then; [|intros; advance]. destruct saved as [u|e]; [|apply callsOut_advances; advance].
  unfold writeStore, onStore in E4. destruct (SaveFencingGrants _ _ _ _ _ _ _ _) as [s4|] eqn:Hs; simplify_eq/=.
  assert (rtc outbox_step s2 (o_others o (w_calls w3) (w_store w3))) as R3 by (etrans; [exact S3|apply Hothers]).
  intros a w' E. destruct (callExecutor_calls _ _ _ _ _ _ E) as [S5 [I5|(rq & s5 & I5 & [Hr Q] & Sa & Sb)]]; (split; [done|]); [by left|right].
  exists rq, s5. split_and!; [done| |done|done].
  destruct (saved_authorizes _ _ _ _ _ _ _ _ _ rq Hi2 R3 L2 eq_refl Hs Q) as (d' & A & Ei & Ea). exists s4, d'. cbn in *.
  split_and!; [done|lia|intros; rewrite Ei; auto| |done]. eapply rtc_r; [by etrans|]. by eapply step_grants.
Qed.
End Worker.

(** C9: a worker calls out only for durable intent. Whatever the other workers do with the
    store meanwhile, whatever the clocks, contexts and random tokens are, and for any
    fencing provider, one [Dispatch] makes at most one external call, and when it makes
    one there is a store of the run, before the call, in which the target dispatch is in
    flight under exactly the attempt, identity, arguments and fencing grants that the call
    carries, with one grant for each fencing requirement and the attempt on record; the
    attempt is within the retry budget; and for a forward effect every earlier effect of
    its saga has succeeded there. *)
Theorem invocations_follow_durable_intent {P L} `{FencingProvider P L} (o : Oracle (P := P)) executor options target (w : World (P := P)) r (w' : World (P := P)) :
  (∀ n s, rtc outbox_step s (o_others o n s)) → reachable (w_store w) →
  DispatchTarget o executor options target w = (r, w') →
  reachable (w_store w') ∧
  (w_invoked w' = w_invoked w ∨
   ∃ rq s d, w_invoked w' = w_invoked w ++ [rq] ∧ rtc outbox_step (w_store w) s ∧ rtc outbox_step s (w_store w') ∧
     authorizes s d rq ∧ d_Attempt d ≤ do_MaxAttempts options ∧ (target ≠ "" → d_ID d = target) ∧
     (d_Direction d = DirectionForward → ∀ k' d', os_dispatches s !! k' = Some d' → d_SagaID d' = d_SagaID d →
       d_Direction d' = DirectionForward → d_Sequence d' < d_Sequence d → d_State d' = DispatchSucceeded)).
Proof.
  intros Ho Hr E. destruct (DispatchTarget_calls o executor options Ho target w (reachable_inv _ Hr) _ _ E) as [S I]. split; [exact (transitivity (R := rtc outbox_step) Hr S)|].
  destruct I as [I|(rq & s & I & (s1 & d & A & B & T & R1 & R2) & Sa & Sb)]; [by left|right]. exists rq, s1, d.
  split_and!; try done; [exact (transitivity (R := rtc outbox_step) R2 Sb)|]. intros F k' d' L' E' F' Q.
  pose proof (inflight_earlier s1 (d_ID d) d (proj1 (rtc_inv_extends _ _ (reachable_inv _ Hr) R1)) (au_stored _ _ _ A) (au_inflight _ _ _ A)) as X.
  by eapply (X k' d').
Qed.

(** ** A run *)
Definition quietOracle (now : Time) : Oracle (P := InMemoryProvider) :=
  mkOracle (λ _ _, now) (λ _, None) (λ _, Ok "token") (λ _ s, s) (λ _ p, p).
Definition obligingExecutor : Executor := mkExecutor (λ _ _ _, mkOutcome OutcomeSuccess (JBool true) None) None.
Definition workerOptions : DispatcherOptions := mkOptions "worker" "request" 100 50 3 1 10 false.
Definition fencedStep : EnqueueStepRequest json :=
  mkEnqueue demoSaga "a" 1 "verb" "contract" (Some {[ "n" := JNum "1" ]}) "" "" None [mkRequirement "db" "orders"].
Definition fencedStore : InMemoryOutboxStore :=
  Eval vm_compute in match runOps [OpCreate 1 demoCreate; OpEnqueue 2 fencedStep] NewInMemoryOutboxStore with Ok s => s | Err _ => NewInMemoryOutboxStore end.
Lemma fencedStore_reachable : reachable fencedStore.
Proof.
  apply (runOps_reachable [OpCreate 1 demoCreate; OpEnqueue 2 fencedStep] NewInMemoryOutboxStore); [apply rtc_refl|].
  vm_cast_no_check (@eq_refl _ (Ok fencedStore)).
Qed.
Definition fencedWorld : World := mkWorld 0 fencedStore (Some NewInMemoryProvider) [].
Definition fencedRun := DispatchTarget (quietOracle 1000) obligingExecutor workerOptions "" fencedWorld.
Definition fencedAfter : World := Eval vm_compute in snd fencedRun.
Definition fencedReturn : option Dispatch * option error := Eval vm_compute in fst fencedRun.
Lemma fencedRun_eq : DispatchTarget (quietOracle 1000) obligingExecutor workerOptions "" fencedWorld = (fencedReturn, fencedAfter).
Proof. vm_cast_no_check (@eq_refl _ (fencedReturn, fencedAfter)). Qed.
Example fencedRun_calls : (λ rq, mc_FencingGrants (iv_Metadata rq)) <$> w_invoked fencedAfter = [[mkGrant "db" "orders" 1]].
Proof. reflexivity. Qed.
Example fencedRun_succeeds : (d_State <$> fencedReturn.1) = Some DispatchSucceeded.
Proof. reflexivity. Qed.
Lemma invocations_follow_durable_intent_witness : reachable (w_store fencedAfter).
Proof.
  exact (proj1 (invocations_follow_durable_intent (quietOracle 1000) obligingExecutor workerOptions "" fencedWorld fencedReturn fencedAfter
    (λ n s, rtc_refl _ s) fencedStore_reachable fencedRun_eq)).
Defined.
