(* ===== verification/CheckedEnqueue.v ===== *)
(** * Enqueueing checked steps ([schema/saga_checked.go])

    How a step of a checked plan becomes durable intent: the checked artifact supplies the
    identity, order, verb, contract and argument expressions; the caller supplies facts and
    the results of earlier steps. The package has its own copies of the literal, fact and
    value resolvers of the runtime; they are modelled separately. *)

From S2P Require Import Prelude GoText Sha256 Json Workflow Identity Outbox Ir Types Value Eval Admission Dispatcher.
From Stdlib Require Import ZArith String.
Local Open Scope list_scope.
Local Open Scope Z_scope.

(** [ir.Checked], as its clients use it: the digest and the artifact it decodes to. *)
Record CheckedPlans : Type := mkCheckedPlans { ch_Digest : string; ch_Plans : list Plan }.

Record CheckedEnqueueRequest : Type := mkCheckedEnqueue {
  ce_SagaID : string;
  ce_PlanID : string;
  ce_EffectID : string;
  ce_Facts : list (string * any);
  ce_ResultSlots : list any;
  ce_Arguments : option (list (string * any));
  ce_CompensationVerb : string;
  ce_CompensationContract : string;
  ce_CompensationArguments : option (list (string * any));
  ce_Fencing : list FencingRequirement }.

Fixpoint checkedSagaLiteral (literal : Literal) : result any :=
  match literal with
  | LitNil => Err (errorf "literal is nil")
  | LitNull _ => Ok ANil
  | LitBool b => Ok (ABool b)
  | LitInt i => Ok (AInt i)
  | LitDouble d => Ok (AFloat d)
  | LitString s => Ok (AString s)
  | LitBytes s => Ok (AString (EncodeToString s))
  | LitList values =>
      items ← (fix go l := match l with
                | [] => Ok []
                | v :: l => v ← checkedSagaLiteral v; l ← go l; Ok (v :: l)
                end) values;
      Ok (AList items)
  | LitObject fields =>
      entries ← (fix go object l := match l with
                  | [] => Ok object
                  | (name, v) :: l => resolved ← checkedSagaLiteral v; go (mapPut name resolved object) l
                  end) [] fields;
      Ok (AMap entries)
  | LitUnset => Err (errorf "literal kind is not set")
  end.

Definition lookupCheckedSagaFact (facts : list (string * any)) (path : string) : option any :=
  match fieldOf facts path with
  | Some value => Some value
  | None => walk (AMap facts) (segments path)
  end.

Definition resolveCheckedStepValue (value : Value) (facts : list (string * any)) (slots : list any) : result any :=
  match value with
  | ValueLiteral literal => checkedSagaLiteral literal
  | ValueFactPath path => ofOption (lookupCheckedSagaFact facts path) (errorf "fact is missing")
  | ValueResultSlot slot => ofOption (slots !! Z.to_nat slot) (errorf "result slot is unavailable")
  | ValueNil | ValueUnset => Err (errorf "value kind is not set")
  end.

Definition resolveCheckedStepArguments (step : Step) (facts : list (string * any)) (slots : list any)
    : result (list (string * any)) :=
  foldR (λ arguments argument,
           failIf (match arg_Value argument with ValueNil => true | _ => false end) (errorf "argument is incomplete") ;;
           value ← resolveCheckedStepValue (arg_Value argument) facts slots;
           Ok (mapPut (arg_Name argument) value arguments)) (sp_Arguments step) [].

Section CheckedEnqueue.
  Context (formatFloat : spec_float → string).
  #[local] Abbreviation argumentMap := (argumentMap formatFloat).

Definition hashOfArguments (arguments : list (string * any)) : result string :=
  '(_, hash) ← CanonicalJSON (toJSON formatFloat (AMap arguments)); Ok hash.
(** Arguments a caller supplies must be the resolved ones. *)
Definition sameArguments (expected : list (string * any)) (supplied : option (list (string * any))) (text : string)
    : result unit :=
  match supplied with
  | None => Ok tt
  | Some supplied =>
      expectedHash ← hashOfArguments expected;
      suppliedHash ← hashOfArguments supplied;
      failIf (bool_decide (expectedHash ≠ suppliedHash)) (wrapf ErrIdentityConflict text)
  end.

(** The inverse verb, its contract and its arguments, for a step of a plan. *)
Definition checkedCompensation (plan : Plan) (step : Step) (request : CheckedEnqueueRequest)
    (arguments : list (string * any)) : result (string * string * option (list (string * any))) :=
  let supplied := bool_decide (ce_CompensationVerb request ≠ "") || bool_decide (ce_CompensationContract request ≠ "")
                  || bool_decide (is_Some (ce_CompensationArguments request)) in
  if bool_decide (pl_ExecutionPolicy plan = EXECUTION_POLICY_DURABLE_FAIL_FAST) then
    failIf supplied (wrapf ErrIdentityConflict "fail-fast plan cannot enqueue compensation") ;;
    Ok ("", "", None)
  else
    match sp_Compensation step with
    | Some c =>
        failIf ((bool_decide (ce_CompensationVerb request ≠ "")
                 && bool_decide (ce_CompensationVerb request ≠ cc_InverseVerb c))
                || (bool_decide (ce_CompensationContract request ≠ "")
                    && bool_decide (ce_CompensationContract request ≠ cc_InverseContractHash c)))
          (wrapf ErrIdentityConflict "supplied compensation contradicts checked contract") ;;
        sameArguments arguments (ce_CompensationArguments request)
          "supplied compensation arguments contradict checked arguments" ;;
        Ok (cc_InverseVerb c, cc_InverseContractHash c, Some arguments)
    | None =>
        failIf supplied (wrapf ErrIdentityConflict "checked effect has no compensation") ;;
        Ok ("", "", None)
    end.

Definition checkedFencing (step : Step) (supplied : list FencingRequirement) : result (list FencingRequirement) :=
  if bool_decide (sp_FencingRequirement step = FENCING_REQUIREMENT_REQUIRED) then
    let required := [mkRequirement "checked-contract" (sp_Verb step)] in
    failIf (negb (bool_decide (supplied = [])) && negb (sameRequirements supplied required))
      (wrapf ErrIdentityConflict "supplied fencing contradicts checked contract") ;;
    Ok required
  else Ok supplied.

(** The request [EnqueueCheckedStep] builds for a step. *)
Definition checkedRequest (plan : Plan) (step : Step) (request : CheckedEnqueueRequest)
    : result (EnqueueStepRequest json * list (string * any)) :=
  arguments ← resolveCheckedStepArguments step (ce_Facts request) (ce_ResultSlots request);
  sameArguments arguments (ce_Arguments request) "supplied arguments contradict checked argument expressions" ;;
  '(verb, contract, compensationArguments) ← checkedCompensation plan step request arguments;
  fencing ← checkedFencing step (ce_Fencing request);
  Ok (mkEnqueue (ce_SagaID request) (sp_Id step) (sp_Ordinal step + 1) (sp_Verb step) (sp_ContractHash step)
        (Some (argumentMap arguments)) verb contract (argumentMap <$> compensationArguments) fencing, arguments).

(** The step the request names. *)
Definition findStep (plans : list Plan) (request : CheckedEnqueueRequest) : result (Plan * Step) :=
  plan ← ofOption (List.find (λ p, bool_decide (pl_Id p = ce_PlanID request)) plans) (errorf "checked plan not found");
  step ← ofOption (List.find (λ s, bool_decide (sp_Id s = ce_EffectID request)) (pl_Steps plan))
    (errorf "checked effect not found in plan");
  Ok (plan, step).

Section Worker.
  Context {P L : Type} `{FencingProvider P L} (o : Oracle (P := P)).
  #[local] Existing Instance run_ret.
  #[local] Existing Instance run_bind.

Definition enqueue (request : EnqueueStepRequest json) : run (result Dispatch) :=
  onStore o (λ n, EnqueueStep (o_ctx o n) (o_now o n 0) request).

Definition EnqueueCheckedStep (checked : CheckedPlans) (request : CheckedEnqueueRequest) : run (P := P) (result Dispatch) :=
  saga ← readStore o (λ n, GetSaga (o_ctx o n) (ce_SagaID request));
  match (saga ← saga;
         failIf (bool_decide (sg_PlanID saga ≠ ce_PlanID request) || bool_decide (sg_PlanDigest saga ≠ ch_Digest checked))
           (wrapf ErrIdentityConflict "saga checked plan provenance") ;;
         failIf (bool_decide (sg_SagaID saga ≠ StableSagaID (sg_ExecutionID saga) (sg_PlanID saga)))
           (wrapf ErrIdentityConflict "saga ID is not the stable execution/plan identity") ;;
         '(plan, step) ← findStep (ch_Plans checked) request;
         '(built, arguments) ← checkedRequest plan step request;
         Ok (plan, step, built, arguments)) with
  | Err e => mret (Err e)
  | Ok (plan, step, built, arguments) =>
      dispatch ← enqueue built;
      match dispatch, sp_Compensation step with
      | Err e, Some c =>
          if errorsIs e ErrIdentityConflict && bool_decide (pl_ExecutionPolicy plan = EXECUTION_POLICY_DURABLE_FAIL_FAST)
          then readStore o (λ n, replayExistingStep (o_ctx o n)
                 (built <| eq_CompensationVerb := cc_InverseVerb c |>
                        <| eq_CompensationContract := cc_InverseContractHash c |>
                        <| eq_CompensationArguments := Some (argumentMap arguments) |>))
          else mret dispatch
      | _, _ => mret dispatch
      end
  end.
End Worker.
End CheckedEnqueue.
