(* ===== verification/Driver.v ===== *)
(** * The checked workflow driver ([runtime/checked_workflow.go])

    An execution of a generation: its selected plans become sagas, the steps of each are
    enqueued and dispatched in order, results flow into later arguments, and a failed step
    ends the plan under its policy.

    The driver polls: a loop that waits for another worker has no bound of its own, so the
    two loops take a fuel and return [None] while they would still be running. *)

From S2P Require Import Prelude GoText Sha256 Json Workflow Identity Outbox Ir Types Env Check Value Eval Admission Dispatcher CheckedEnqueue.
From Stdlib Require Import ZArith String.
Local Open Scope list_scope.
Local Open Scope Z_scope.

(** What the driver reads of a generation. *)
Record SourceGeneration : Type := mkSource {
  sn_checked : CheckedPlans;
  sn_environment : Environment;
  sn_executors : gmap string (nat → InvocationRequest → Outcome json) }.

(** [fmt.Errorf("...: %w", err)] *)
Definition annotate (text : string) (e : error) : error := mkError (err_is e) (text +:+ err_text e).

(** The frozen inverse of an effect, and the contract the environment has for it. *)
Fixpoint inverseContract (generation : SourceGeneration) (effectID verb contractHash : string) (steps : list Step)
    : option (option VerbContract) :=
  match steps with
  | [] => None
  | step :: steps =>
      match sp_Compensation step with
      | Some c =>
          if bool_decide (sp_Id step ≠ effectID) || bool_decide (cc_InverseVerb c ≠ verb)
             || bool_decide (cc_InverseContractHash c ≠ contractHash)
          then inverseContract generation effectID verb contractHash steps
          else Some (match env_Verbs (sn_environment generation) !! verb with
                     | None => None
                     | Some contract =>
                         match ContractHash contract with
                         | Ok hash => if bool_decide (hash = contractHash) then Some contract else None
                         | Err _ => None
                         end
                     end)
      | None => inverseContract generation effectID verb contractHash steps
      end
  end.
Fixpoint compensationIn (generation : SourceGeneration) (planID effectID verb contractHash : string) (plans : list Plan)
    : option VerbContract :=
  match plans with
  | [] => None
  | plan :: plans =>
      if bool_decide (pl_Id plan ≠ planID) then compensationIn generation planID effectID verb contractHash plans
      else match inverseContract generation effectID verb contractHash (pl_Steps plan) with
           | Some r => r
           | None => compensationIn generation planID effectID verb contractHash plans
           end
  end.
Definition checkedCompensationContract (generation : SourceGeneration) (planID effectID verb contractHash : string)
    : option VerbContract :=
  if bool_decide (planID = "") then None
  else compensationIn generation planID effectID verb contractHash (ch_Plans (sn_checked generation)).

(** ** [checkedWorkflowInvocationExecutor] *)
Definition RetryUnknownOutcome (generation : SourceGeneration) (planID : string) (request : InvocationRequest) : bool :=
  let saga := mc_Saga (iv_Metadata request) in
  if bool_decide (planID = "") then false else
  match sm_Direction saga with
  | DirectionCompensation =>
      match checkedCompensationContract generation planID (sm_EffectID saga) (iv_Verb request) (iv_ContractHash request) with
      | Some contract => bool_decide (vc_IdempotencyPolicy contract = IdempotencySinkGuaranteed)
      | None => false
      end
  | DirectionForward =>
      match List.find (λ step, bool_decide (sp_Id step = sm_EffectID saga) && bool_decide (sp_Verb step = iv_Verb request)
                               && bool_decide (sp_ContractHash step = iv_ContractHash request))
              (List.filter (λ plan, bool_decide (pl_Id plan = planID)) (ch_Plans (sn_checked generation)) ≫= pl_Steps) with
      | Some step => bool_decide (sp_IdempotencyPolicy step = IDEMPOTENCY_POLICY_SINK_GUARANTEED)
      | None => false
      end
  end.

Definition refuse (e : error) : Outcome json := mkOutcome OutcomePermanentFailure JNull (Some e).
Definition Invoke (ctx : nat → option error) (generation : SourceGeneration) (planID : string) (n : nat)
    (store : InMemoryOutboxStore) (request : InvocationRequest) : Outcome json :=
  match GetSaga (ctx n) (sm_SagaID (mc_Saga (iv_Metadata request))) store with
  | Err e => mkOutcome OutcomeUnknown JNull (Some e)
  | Ok saga =>
      if bool_decide (sg_PlanDigest saga ≠ ch_Digest (sn_checked generation))
      then refuse (wrapf ErrIdentityConflict "identity conflict") else
      if bool_decide (planID ≠ "") && bool_decide (sg_PlanID saga ≠ planID)
      then refuse (wrapf ErrIdentityConflict "identity conflict") else
      let allowed :=
        match sm_Direction (mc_Saga (iv_Metadata request)) with
        | DirectionForward => true
        | DirectionCompensation =>
            match List.find (λ plan, bool_decide (pl_Id plan = sg_PlanID saga)) (ch_Plans (sn_checked generation)) with
            | Some plan => bool_decide (pl_ExecutionPolicy plan = EXECUTION_POLICY_DURABLE_COMPENSATING)
            | None => false
            end
        end in
      if negb allowed then refuse (wrapf ErrInvalidTransition "compensation is not enabled for checked plan") else
      match sn_executors generation !! iv_Verb request with
      | None => refuse (errorf "verb is unavailable")
      | Some resolved => resolved n request
      end
  end.
Definition checkedExecutor (ctx : nat → option error) (generation : SourceGeneration) (planID : string) : Executor :=
  mkExecutor (Invoke ctx generation planID) (Some (RetryUnknownOutcome generation planID)).

(** The dispatcher options of a step, from its frozen retry policy. *)
Definition stepOptions (options : DispatcherOptions) (step : Step) : DispatcherOptions :=
  match sp_RetryPolicy step with
  | None => options
  | Some policy => options <| do_MaxAttempts := cr_MaxAttempts policy |>
                           <| do_InitialBackoff := cr_InitialBackoffMillis policy * Millisecond |>
                           <| do_MaxBackoff := cr_MaxBackoffMillis policy * Millisecond |>
  end.
Definition inverseOptions (options : DispatcherOptions) (contract : VerbContract) : DispatcherOptions :=
  let attempts := rp_MaxAttempts (vc_RetryPolicy contract) in
  options <| do_MaxAttempts := if bool_decide (attempts = 0) then 1 else attempts |>
          <| do_InitialBackoff := rp_InitialBackoffMillis (vc_RetryPolicy contract) * Millisecond |>
          <| do_MaxBackoff := rp_MaxBackoffMillis (vc_RetryPolicy contract) * Millisecond |>.

(** An inverse dispatch that still has work to do. *)
Definition activeCompensation (d : Dispatch) : bool :=
  bool_decide (d_Direction d = DirectionCompensation)
  && match d_State d with DispatchQueued | DispatchRetryWait | DispatchInFlight => true | _ => false end.

Section Driver.
  Context {P L : Type} `{FencingProvider P L} (o : Oracle (P := P)) (formatFloat : spec_float → string)
    (matchString : string → string → result bool) (generation : SourceGeneration).
  #[local] Existing Instance run_ret.
  #[local] Existing Instance run_bind.
  #[local] Abbreviation run := (run (P := P)).

Definition newDispatcher (planID : string) (options : DispatcherOptions) : run (result (Executor * DispatcherOptions)) :=
  λ w, (NewDispatcher (Some (checkedExecutor (o_ctx o) generation planID)) (pv_Guarantee <$> w_provider w) options, w).

(** The timer of a polling loop, or the end of the context. *)
Definition sleep : run (option error) := contextErr o.

(** [dispatchCheckedWorkflowStep] *)
Fixpoint dispatchCheckedWorkflowStep (fuel : nat) (dispatcher : Executor * DispatcherOptions) (dispatchID : string)
    : run (option (result Dispatch)) :=
  match fuel with
  | O => mret None
  | S fuel =>
      current ← readStore o (λ n, GetDispatch (o_ctx o n) dispatchID);
      match current with
      | Err e => mret (Some (Err e))
      | Ok current =>
          match d_State current with
          | DispatchSucceeded => mret (Some (Ok current))
          | DispatchFailedPermanent | DispatchBlockedUnknown | DispatchBlockedFence | DispatchCanceled =>
              mret (Some (Err (errorf "durable dispatch entered terminal state")))
          | DispatchQueued | DispatchInFlight | DispatchRetryWait =>
              '(_, err) ← DispatchTarget o dispatcher.1 dispatcher.2 dispatchID;
              match err with
              | None => dispatchCheckedWorkflowStep fuel dispatcher dispatchID
              | Some e =>
                  if negb (errorsIs e ErrNoDispatch) then mret (Some (Err e)) else
                  _ ← timeNow o;
                  ended ← sleep;
                  match ended with
                  | Some e => mret (Some (Err e))
                  | None => dispatchCheckedWorkflowStep fuel dispatcher dispatchID
                  end
              end
          end
      end
  end.

(** One round of [driveCheckedCompensation]; [continue] is the next. *)
Definition compensationRound (continue : run (option (result unit))) (options : DispatcherOptions) (planID sagaID : string)
    : run (option (result unit)) :=
  saga ← readStore o (λ n, GetSaga (o_ctx o n) sagaID);
  match saga with
  | Err e => mret (Some (Err e))
  | Ok saga =>
      match sg_State saga with
      | SagaCompensated => mret (Some (Ok tt))
      | SagaBlockedUnknown | SagaBlockedFence | SagaBlockedDependency | SagaBlockedCompensation | SagaFailed =>
          mret (Some (Err (errorf "compensation entered a closed state")))
      | SagaRunning | SagaCompleted => mret (Some (Err (errorf "compensation expected compensating saga")))
      | SagaCompensating =>
          dispatches ← readStore o (λ n, ListDispatches (o_ctx o n) sagaID);
          match dispatches with
          | Err e => mret (Some (Err e))
          | Ok dispatches =>
              match List.find activeCompensation dispatches with
              | None =>
                  ended ← sleep;
                  match ended with
                  | Some e => mret (Some (Err e))
                  | None => continue
                  end
              | Some candidate =>
                  match checkedCompensationContract generation planID (d_EffectID candidate) (d_Verb candidate)
                          (d_ContractHash candidate) with
                  | None => mret (Some (Err (wrapf ErrIdentityConflict "compensation dispatch does not match checked plan")))
                  | Some contract =>
                      dispatcher ← newDispatcher planID (inverseOptions options contract);
                      match dispatcher with
                      | Err e => mret (Some (Err (annotate "create checked compensation dispatcher: " e)))
                      | Ok dispatcher =>
                          '(_, err) ← DispatchTarget o dispatcher.1 dispatcher.2 (d_ID candidate);
                          match err with
                          | Some e => if errorsIs e ErrNoDispatch then continue else mret (Some (Err e))
                          | None => continue
                          end
                      end
                  end
              end
          end
      end
  end.
Fixpoint driveCheckedCompensation (options : DispatcherOptions) (fuel : nat) (planID sagaID : string)
    : run (option (result unit)) :=
  match fuel with
  | O => mret None
  | S fuel => compensationRound (driveCheckedCompensation options fuel planID sagaID) options planID sagaID
  end.

(** After a step has failed: what the policy of the plan does, and the error returned. *)
Definition settleFailure (options : DispatcherOptions) (fuel : nat) (plan : Plan) (sagaID : string) (e : error) : run (option error) :=
  let e := annotate "plan step: " e in
  if bool_decide (pl_ExecutionPolicy plan = EXECUTION_POLICY_DURABLE_COMPENSATING) then
    compensated ← driveCheckedCompensation options fuel (pl_Id plan) sagaID;
    mret (match compensated with
          | None => None
          | Some (Err c) => Some (errorsJoin e c)
          | Some (Ok _) => Some e
          end)
  else
    saga ← readStore o (λ n, GetSaga (o_ctx o n) sagaID);
    match saga with
    | Err s => mret (Some (errorsJoin e s))
    | Ok saga =>
        match sg_State saga with
        | SagaCompensating =>
            r ← writeStore o (λ n, BlockSagaCompensation (o_ctx o n) (o_now o n 0) sagaID);
            mret (Some (match r with
                        | Ok _ => e
                        | Err b => if errorsIs b ErrActiveDispatchLease then errorsJoin e b
                                   else errorsJoin e (mkError (ErrDurableDisposition :: err_is b) (err_text b))
                        end))
        | SagaBlockedCompensation =>
            r ← writeStore o (λ n, FinalizeFailFastSaga (o_ctx o n) (o_now o n 0) sagaID);
            mret (Some (match r with
                        | Ok _ => e
                        | Err f => errorsJoin e (mkError (ErrDurableDisposition :: err_is f) (err_text f))
                        end))
        | _ => mret (Some e)
        end
    end.

(** The result slot a finished step fills. *)
Definition bindResult (step : Step) (completed : Dispatch) (slots : list any) : result (list any) :=
  match sp_ResultSlot step with
  | None => Ok slots
  | Some slot =>
      failIf (bool_decide (slot ≠ u32 (Z.of_nat (List.length slots)))) (errorf "non-dense result slot") ;;
      let blocked e := Err (mkError (ErrBlockedDependency :: err_is e) (err_text e)) in
      match decodeCheckedWorkflowResult (d_Result completed) with
      | Err e => blocked e
      | Ok decoded =>
          match NormalizeValue (sn_environment generation)
                  (match env_Verbs (sn_environment generation) !! sp_Verb step with Some c => vc_ResultType c | None => "" end)
                  decoded with
          | Err e => blocked e
          | Ok value => Ok (slots ++ [value])
          end
      end
  end.

(** The loop over the steps of a plan: [None] while running, else the error it ends with. *)
Fixpoint driveSteps (options : DispatcherOptions) (fuel : nat) (plan : Plan) (sagaID : string) (facts : list (string * any)) (slots : list any)
    (steps : list Step) : run (option (result unit)) :=
  match steps with
  | [] =>
      r ← writeStore o (λ n, CompleteSaga (o_ctx o n) (o_now o n 0) sagaID);
      mret (Some (match r with Ok _ => Ok tt | Err e => Err (annotate "complete checked workflow saga: " e) end))
  | step :: steps =>
      ended ← contextErr o;
      match ended with
      | Some e => mret (Some (Err e))
      | None =>
          dispatcher ← newDispatcher (pl_Id plan) (stepOptions options step);
          match dispatcher with
          | Err e => mret (Some (Err (annotate "create checked workflow dispatcher: " e)))
          | Ok dispatcher =>
              dispatch ← EnqueueCheckedStep formatFloat o (sn_checked generation)
                (mkCheckedEnqueue sagaID (pl_Id plan) (sp_Id step) facts slots None "" "" None []);
              match dispatch with
              | Err e => mret (Some (Err (annotate "enqueue plan step: " e)))
              | Ok dispatch =>
                  completed ← dispatchCheckedWorkflowStep fuel dispatcher (d_ID dispatch);
                  match completed with
                  | None => mret None
                  | Some (Err e) =>
                      settled ← settleFailure options fuel plan sagaID e;
                      mret (match settled with None => None | Some e => Some (Err e) end)
                  | Some (Ok completed) =>
                      match bindResult step completed slots with
                      | Err e => mret (Some (Err e))
                      | Ok slots => driveSteps options fuel plan sagaID facts slots steps
                      end
                  end
              end
          end
      end
  end.

(** The first loop: selection, sagas and first intents. *)
Definition admitSaga (namespace executionID : string) (facts : list (string * any)) (plan : Plan) : run (result unit) :=
  let sagaID := StableSagaID executionID (pl_Id plan) in
  created ← onStore o (λ n, CreateSaga false (o_ctx o n) (o_now o n 0)
    (mkCreateSaga namespace sagaID executionID (pl_Id plan) (ch_Digest (sn_checked generation)) true false));
  match created with
  | Err e => mret (Err (annotate "create checked workflow saga: " e))
  | Ok _ =>
      match pl_Steps plan with
      | [] =>
          r ← writeStore o (λ n, CompleteSaga (o_ctx o n) (o_now o n 0) sagaID);
          mret (match r with Ok _ => Ok tt | Err e => Err (annotate "complete empty checked workflow saga: " e) end)
      | step :: _ =>
          d ← EnqueueCheckedStep formatFloat o (sn_checked generation)
            (mkCheckedEnqueue sagaID (pl_Id plan) (sp_Id step) facts [] None "" "" None []);
          mret (match d with Ok _ => Ok tt | Err e => Err (annotate "enqueue plan first step: " e) end)
      end
  end.
Definition isSelected (selectedPlanIDs : option (gset string)) (facts : list (string * any)) (plan : Plan) : result bool :=
  match selectedPlanIDs with
  | Some ids => Ok (bool_decide (pl_Id plan ∈ ids))
  | None =>
      match evaluateCheckedPredicate matchString (pl_Predicate plan) facts with
      | Ok b => Ok b
      | Err e => Err (annotate "evaluate checked plan predicate: " e)
      end
  end.
Fixpoint selectPlans (namespace executionID : string) (facts : list (string * any)) (selectedPlanIDs : option (gset string))
    (plans selected : list Plan) : run (result (list Plan)) :=
  match plans with
  | [] => mret (Ok selected)
  | plan :: plans =>
      ended ← contextErr o;
      match ended with
      | Some e => mret (Err e)
      | None =>
          match isSelected selectedPlanIDs facts plan with
          | Err e => mret (Err e)
          | Ok false => selectPlans namespace executionID facts selectedPlanIDs plans selected
          | Ok true =>
              if negb (bool_decide (pl_ExecutionPolicy plan ∈
                         [EXECUTION_POLICY_DURABLE_FAIL_FAST; EXECUTION_POLICY_DURABLE_COMPENSATING]))
              then mret (Err (errorf "checked extension plan has unsupported execution policy")) else
              r ← admitSaga namespace executionID facts plan;
              match r with
              | Err e => mret (Err e)
              | Ok _ => selectPlans namespace executionID facts selectedPlanIDs plans (selected ++ [plan])
              end
          end
      end
  end.

(** The second loop: the selected plans, one after the other. *)
Fixpoint drivePlans (options : DispatcherOptions) (fuel : nat) (executionID : string) (facts : list (string * any)) (selected : list Plan)
    : run (option (result unit)) :=
  match selected with
  | [] => mret (Some (Ok tt))
  | plan :: selected =>
      r ← driveSteps options fuel plan (StableSagaID executionID (pl_Id plan)) facts [] (pl_Steps plan);
      match r with
      | Some (Ok _) => drivePlans options fuel executionID facts selected
      | r => mret r
      end
  end.

(** [executeCheckedWorkflow]: [None] while running; else its error, or the plans it has run. *)
Definition executeCheckedWorkflow (options : DispatcherOptions) (fuel : nat) (namespace executionID : string) (facts : list (string * any))
    (selectedPlanIDs : option (gset string)) (waitAccepted : bool) : run (option (result (list Plan))) :=
  match normalizedWorkflowFacts formatFloat (sn_environment generation) facts with
  | Err e => mret (Some (Err e))
  | Ok resolvedFacts =>
      let options := options <| do_RequestID := executionID |> in
      selected ← selectPlans namespace executionID resolvedFacts selectedPlanIDs (ch_Plans (sn_checked generation)) [];
      match selected with
      | Err e => mret (Some (Err e))
      | Ok selected =>
          if waitAccepted then mret (Some (Ok selected)) else
          r ← drivePlans options fuel executionID resolvedFacts selected;
          mret (match r with
                | None => None
                | Some (Err e) => Some (Err e)
                | Some (Ok _) => Some (Ok selected)
                end)
      end
  end.
End Driver.
