(* ===== verification/DriverProps.v ===== *)
(** * What a finished execution means

    The driver composed with the checked artifact, the dispatcher and the outbox: when it
    reports success, every selected plan is a completed saga with all of its effects, and
    the intent admission wrote for the first step is the intent the driver enqueues. *)

From S2P Require Import Prelude GoText Sha256 Json Workflow Identity Outbox OutboxInv OutboxDyn OutboxOps OutboxClose OutboxGrowth OutboxDemo OutboxClient OutboxRefine Fencing Ir Types Env Check Value Eval Admission CheckLemmas Typing ArtifactDemo ArtifactProps FactProps Dispatcher DispatcherProps CheckedEnqueue Driver.
From Stdlib Require Import ZArith String Lia.
Local Open Scope list_scope.
Local Open Scope Z_scope.

(** ** The two resolvers *)

(** The resolvers of [schema] and of [runtime] are the same function, apart from the error
    for an absent fact. *)
Lemma resolveCheckedStepValue_eq v facts slots x :
  resolveCheckedStepValue v facts slots = Ok x ↔ resolveCheckedWorkflowValue v facts slots = Ok x.
Proof.
  destruct v; cbn; try done. change (lookupCheckedSagaFact facts path) with (lookupWorkflowFact facts path).
  by rewrite !ofOption_Ok.
Qed.
Lemma resolveCheckedStepArguments_eq step facts slots args :
  resolveCheckedStepArguments step facts slots = Ok args ↔ stepArguments step facts slots = Ok args.
Proof.
  unfold resolveCheckedStepArguments, stepArguments. generalize (@nil (string * any)).
  induction (sp_Arguments step) as [|a l IH]; intros acc; cbn [foldR]; [done|]. split; intros E.
  - apply bind_Ok in E as (acc1 & E1 & E). apply bind_Ok in E1 as ([] & _ & E1). apply bind_Ok in E1 as (x & Ex & E1). simplify_eq.
    apply resolveCheckedStepValue_eq in Ex. rewrite Ex. cbn. by apply IH.
  - apply bind_Ok in E as (acc1 & E1 & E). apply bind_Ok in E1 as (x & Ex & E1). simplify_eq.
    assert (match arg_Value a with ValueNil => true | _ => false end = false) as -> by (by destruct (arg_Value a)).
    apply resolveCheckedStepValue_eq in Ex. cbn. rewrite Ex. cbn. by apply IH.
Qed.

(** C35: admission and execution agree on intent. For a plan with one of the two execution
    policies whose first step has ordinal 0, the durable step that admission writes for it
    is exactly the one the driver's first [EnqueueCheckedStep] asks for: neither side can
    resolve or refuse what the other does not, so the replay by the driver never meets an
    identity conflict. *)
Theorem admitted_intent_is_enqueued_intent formatFloat plan step facts sagaID request :
  pl_ExecutionPolicy plan ∈ [EXECUTION_POLICY_DURABLE_FAIL_FAST; EXECUTION_POLICY_DURABLE_COMPENSATING] → sp_Ordinal step = 0 →
  durableInitialStep formatFloat plan step facts sagaID = Ok request ↔
  ∃ arguments, checkedRequest formatFloat plan step
    (mkCheckedEnqueue sagaID (pl_Id plan) (sp_Id step) facts [] None "" "" None []) = Ok (request, arguments).
Proof.
  intros Hp Ho. unfold durableInitialStep, checkedRequest, checkedCompensation, checkedFencing. cbn [ce_SagaID ce_Facts ce_ResultSlots ce_Arguments
    ce_CompensationVerb ce_CompensationContract ce_CompensationArguments ce_Fencing sameArguments mbind result_bind failIf].
  destruct (stepArguments step facts []) as [args|e] eqn:E.
  - pose proof (proj2 (resolveCheckedStepArguments_eq step facts [] args) E) as E'. rewrite E'. cbn [mbind result_bind]. rewrite Ho.
    rewrite !elem_of_cons, elem_of_nil in Hp. destruct Hp as [->|[->|[]]].
    + rewrite (bool_decide_eq_false_2 (EXECUTION_POLICY_DURABLE_FAIL_FAST = EXECUTION_POLICY_DURABLE_COMPENSATING)) by done.
      rewrite (bool_decide_eq_true_2 (EXECUTION_POLICY_DURABLE_FAIL_FAST = _)) by done. cbn. case_bool_decide; cbn; (split; [intros [= <-]; by eexists|intros [x Ex]; exact (f_equal (fmap (M := result) fst) Ex)]).
    + rewrite (bool_decide_eq_false_2 (EXECUTION_POLICY_DURABLE_COMPENSATING = EXECUTION_POLICY_DURABLE_FAIL_FAST)) by done.
      rewrite (bool_decide_eq_true_2 (EXECUTION_POLICY_DURABLE_COMPENSATING = _)) by done. destruct (sp_Compensation step) as [c|]; cbn; case_bool_decide; cbn;
        (split; [intros [= <-]; by eexists|intros [x Ex]; exact (f_equal (fmap (M := result) fst) Ex)]).
  - destruct (resolveCheckedStepArguments step facts []) as [args|e'] eqn:E'; [apply resolveCheckedStepArguments_eq in E'; congruence|].
    cbn. split; [done|by intros [? ?]].
Qed.
Lemma admitted_intent_is_enqueued_intent_witness :
  ∃ request arguments, durableInitialStep noFloat shopPlan shopStep shopFacts "saga" = Ok request ∧
    checkedRequest noFloat shopPlan shopStep (mkCheckedEnqueue "saga" (pl_Id shopPlan) (sp_Id shopStep) shopFacts [] None "" "" None []) = Ok (request, arguments).
Proof.
  destruct (durableInitialStep noFloat shopPlan shopStep shopFacts "saga") as [request|e] eqn:E; [|vm_compute in E; discriminate E].
  destruct (proj1 (admitted_intent_is_enqueued_intent noFloat shopPlan shopStep shopFacts "saga" request
    ltac:(right; left) eq_refl) E) as [arguments H].
  exists request, arguments. exact (conj eq_refl H).
Defined.

(** ** Runs of the driver

    [spec m w Q]: a run of [m] from [w] only makes store operations (its own and those of
    other workers), and its result and the store it leaves satisfy [Q]. *)
Section Runs.
  Context {P L : Type} `{FencingProvider P L} (o : Oracle (P := P)) (Hothers : ∀ n s, rtc outbox_step s (o_others o n s)).
  #[local] Existing Instance run_ret.
  #[local] Existing Instance run_bind.
  #[local] Abbreviation run := (run (P := P)).
  #[local] Abbreviation World := (World (P := P)).

Definition spec {A} (m : run A) (w : World) (Q : A → InMemoryOutboxStore → Prop) : Prop :=
  store_inv (w_store w) → ∀ a w', m w = (a, w') → rtc outbox_step (w_store w) (w_store w') ∧ Q a (w_store w').

Lemma spec_ret {A} (a : A) w (Q : A → InMemoryOutboxStore → Prop) : Q a (w_store w) → spec (mret a) w Q.
Proof. intros Hq _ b w' [= <- <-]. done. Qed.
Lemma spec_bind {A B} (m : run A) (f : A → run B) w Q1 Q :
  spec m w Q1 →
  (∀ a w1, rtc outbox_step (w_store w) (w_store w1) → store_inv (w_store w1) ∧ Q1 a (w_store w1) → spec (f a) w1 Q) → spec (m ≫= f) w Q.
Proof.
  intros Hm Hf Hi b w' E. unfold mbind, run_bind in E. destruct (m w) as [a w1] eqn:E1. destruct (Hm Hi _ _ E1) as [R1 H1].
  destruct (rtc_inv_extends _ _ Hi R1) as [Hi1 _]. destruct (Hf a w1 R1 (conj Hi1 H1) Hi1 _ _ E) as [R2 H2]. split; [by etrans|done].
Qed.
Lemma spec_advances {A} (m : run A) w : advances m → spec m w (λ _ _, True).
Proof. intros Hm _ a w' E. by apply Hm in E as [? _]. Qed.
Lemma spec_mono {A} (m : run A) w (Q Q' : A → InMemoryOutboxStore → Prop) : spec m w Q → (∀ a s, Q a s → Q' a s) → spec m w Q'.
Proof. intros Hm HQ Hi a w' E. destruct (Hm Hi _ _ E). auto. Qed.
Lemma spec_read {A} (f : nat → InMemoryOutboxStore → result A) w : spec (readStore o f) w (λ r s, ∃ n, f n s = r).
Proof.
  intros _ a w' E. pose proof (advances_read o Hothers f _ _ _ E) as [R _]. split; [done|]. unfold readStore, onStore in E. exists (w_calls w).
  destruct (f _ _) as [b|e] eqn:F; cbn in E; simplify_eq; cbn; done.
Qed.
Lemma spec_onStore {A} (f : nat → InMemoryOutboxStore → result (A * InMemoryOutboxStore)) w : 
  (∀ n s a s', f n s = Ok (a, s') → outbox_step s s') →
  spec (onStore o f) w (λ r s, match r with Ok a => ∃ n s0, store_inv s0 ∧ f n s0 = Ok (a, s) | Err _ => True end).
Proof.
  intros Hf Hi a w' E. pose proof (advances_onStore o Hothers f (λ n s a s' X, rtc_once _ _ (Hf n s a s' X)) _ _ _ E) as [R _]. split; [done|].
  unfold onStore in E. destruct (f _ _) as [[b s]|e] eqn:F; simplify_eq; cbn; [|done].
  eexists _, _. split; [|exact F]. exact (proj1 (rtc_inv_extends _ _ Hi (Hothers _ _))).
Qed.
Lemma spec_write (f : nat → InMemoryOutboxStore → result InMemoryOutboxStore) w : (∀ n s s', f n s = Ok s' → outbox_step s s') →
  spec (writeStore o f) w (λ r s, match r with Ok _ => ∃ n s0, store_inv s0 ∧ f n s0 = Ok s | Err _ => True end).
Proof.
  intros Hf. eapply spec_mono; [apply spec_onStore|].
  - intros n s a s' E. inv_res. eauto.
  - intros [a|e] s; [|done]. intros (n & s0 & Hi & E). inv_res. eauto.
Qed.
Lemma spec_dispatch executor options target w : spec (DispatchTarget o executor options target) w (λ _ _, True).
Proof. intros Hi a w' E. destruct (DispatchTarget_calls o executor options Hothers target w Hi _ _ E) as [R _]. done. Qed.
End Runs.

(** ** Durable steps *)

(** The store has the step of a checked plan, as an effect of the saga. *)
Definition hasStep (s : InMemoryOutboxStore) (sagaID : string) (step : Step) : Prop :=
  ∃ st, stepAt s sagaID (sp_Id step) = Some st ∧ st_Verb st = sp_Verb step ∧ st_ContractHash st = sp_ContractHash step ∧
    st_Sequence st = sp_Ordinal step + 1.
Lemma hasStep_extends s s' sagaID step : extends s s' → hasStep s sagaID step → hasStep s' sagaID step.
Proof.
  intros X (st & Lst & H1 & H2 & H3). destruct (ex_step _ _ X _ _ _ Lst) as (st' & Lst' & C). exists st'. unfold st_core in C. simplify_eq.
  split_and!; congruence.
Qed.
Lemma hasStep_rtc s s' sagaID step : store_inv s → rtc outbox_step s s' → hasStep s sagaID step → hasStep s' sagaID step.
Proof. intros Hi R. apply hasStep_extends. by apply rtc_inv_extends in R as [_ X]. Qed.

Lemma normalizeEnqueue_verb req n : normalizeEnqueue req = Ok n →
  eq_Verb (ne_request n) = eq_Verb req ∧ eq_ContractHash (ne_request n) = eq_ContractHash req.
Proof.
  unfold normalizeEnqueue. intros H. do 3 (apply bind_Ok in H as ([] & _ & H)).
  apply bind_Ok in H as ([a h] & _ & H). apply bind_Ok in H as ([[r ca] ch] & Hr & H). inv_res. cbn.
  destruct (bool_decide (eq_CompensationVerb req ≠ "")); [|by inv_res].
  apply bind_Ok in Hr as ([] & _ & Hr). apply bind_Ok in Hr as ([ca' ch'] & _ & Hr). inv_res.
  by destruct (eq_CompensationArguments req).
Qed.
Lemma sameStep_fields st r a c : sameStep st r a c = true →
  st_Sequence st = eq_Sequence r ∧ st_Verb st = eq_Verb r ∧ st_ContractHash st = eq_ContractHash r.
Proof. unfold sameStep. rewrite !andb_true_iff, !bool_decide_eq_true. tauto. Qed.

(** What the request of a checked step says of the step. *)
Definition requests (req : EnqueueStepRequest json) (sagaID : string) (step : Step) : Prop :=
  eq_SagaID req = sagaID ∧ eq_EffectID req = sp_Id step ∧ eq_Sequence req = sp_Ordinal step + 1 ∧
  eq_Verb req = sp_Verb step ∧ eq_ContractHash req = sp_ContractHash step.
Lemma requests_hasStep req n s sagaID step st : normalizeEnqueue req = Ok n → requests req sagaID step →
  stepAt s (eq_SagaID (ne_request n)) (eq_EffectID (ne_request n)) = Some st →
  sameStep st (ne_request n) (ne_argumentHash n) (ne_compensationHash n) = true → hasStep s sagaID step.
Proof.
  intros Hn (R1 & R2 & R3 & R4 & R5) Lst (S1 & S2 & S3)%sameStep_fields.
  destruct (normalizeEnqueue_identity _ _ Hn) as (N1 & N2 & N3), (normalizeEnqueue_verb _ _ Hn) as (N4 & N5).
  exists st. rewrite N1, N2, R1, R2 in Lst. split_and!; congruence.
Qed.
Lemma replay_hasStep ctx req s d sagaID step : replayExistingStep ctx req s = Ok d → requests req sagaID step → hasStep s sagaID step.
Proof.
  unfold replayExistingStep. intros E R. apply bind_Ok in E as ([] & _ & E). apply bind_Ok in E as (n & Hn & E).
  apply bind_Ok in E as (sg & _ & E). destruct (os_dispatches s !! _); [|done]. destruct (stepsOf s _ !! _) as [st|] eqn:Lst; [|done].
  destruct (sameStep _ _ _ _) eqn:Es; [|done]. by eapply requests_hasStep.
Qed.
Lemma checkedRequest_requests formatFloat plan step request built arguments :
  checkedRequest formatFloat plan step request = Ok (built, arguments) → requests built (ce_SagaID request) step.
Proof.
  unfold checkedRequest. intros E. apply bind_Ok in E as (args & _ & E). apply bind_Ok in E as ([] & _ & E).
  apply bind_Ok in E as ([[v c] ca] & _ & E). apply bind_Ok in E as (f & _ & E). by simplify_eq.
Qed.
Lemma find_unique {A} (key : A → string) l x : NoDup (key <$> l) → x ∈ l → List.find (λ y, bool_decide (key y = key x)) l = Some x.
Proof.
  induction l as [|y l IH]; cbn; [by intros _ ?%elem_of_nil|]. intros [Hy Hn]%NoDup_cons [->|Hin]%elem_of_cons.
  - by rewrite bool_decide_eq_true_2.
  - rewrite bool_decide_eq_false_2; [auto|]. intros E. apply Hy. rewrite E. apply list_elem_of_fmap. eauto.
Qed.

Section Enqueue.
  Context {P L : Type} `{FencingProvider P L} (o : Oracle (P := P)) (Hothers : ∀ n s, rtc outbox_step s (o_others o n s)).
  Context (formatFloat : spec_float → string) (checked : CheckedPlans).
  Context (Hplans : NoDup (pl_Id <$> ch_Plans checked)) (Hsteps : ∀ p, p ∈ ch_Plans checked → NoDup (sp_Id <$> pl_Steps p)).

Lemma spec_EnqueueCheckedStep request plan step w : plan ∈ ch_Plans checked → step ∈ pl_Steps plan →
  ce_PlanID request = pl_Id plan → ce_EffectID request = sp_Id step →
  spec (EnqueueCheckedStep formatFloat o checked request) w (λ r s, match r with Ok _ => hasStep s (ce_SagaID request) step | Err _ => True end).
Proof.
  intros Hp Hs E1 E2. unfold EnqueueCheckedStep. eapply spec_bind; [by apply spec_read|]. intros saga w1 R1 _.
  match goal with |- spec (match ?x with _ => _ end) _ _ => destruct x as [[[[plan' step'] built] arguments]|e] eqn:E; [|by apply spec_ret] end.
  apply bind_Ok in E as (sg & _ & E). do 2 apply bind_Ok in E as ([] & _ & E). apply bind_Ok in E as ([plan1 step1] & Ef & E).
  apply bind_Ok in E as ([built1 args1] & Eb & E). simplify_eq.
  assert (plan' = plan ∧ step' = step) as [-> ->].
  { unfold findStep in Ef. apply bind_Ok in Ef as (p & Ep%ofOption_Ok & Ef). apply bind_Ok in Ef as (t & Et%ofOption_Ok & Ef). simplify_eq.
    rewrite E1, (find_unique pl_Id) in Ep by done. simplify_eq. rewrite E2, (find_unique sp_Id) in Et by auto. by simplify_eq. }
  pose proof (checkedRequest_requests _ _ _ _ _ _ Eb) as Rq. eapply spec_bind.
  { unfold enqueue. apply spec_onStore; [done|]. intros n s a s' X. by eapply step_enqueue. }
  cbn. intros d w2 R2 [_ Hd].
  assert (match d with Ok _ => hasStep (w_store w2) (ce_SagaID request) step | Err _ => True end) as Hk.
  { destruct d as [d|]; [|done]. destruct Hd as (n & s0 & Hi0 & X). apply EnqueueStep_Ok in X as (nn & sg1 & st & Hn & _ & Lst & Es & _); [|done].
    by eapply requests_hasStep. }
  destruct d as [d|e], (sp_Compensation step) as [c|]; try by apply spec_ret.
  destruct (_ && _); [|by apply spec_ret]. eapply spec_mono; [by apply spec_read|]. cbn. intros [d|] s; [|done]. intros [n X].
  eapply replay_hasStep; [exact X|]. destruct Rq as (?&?&?&?&?). by destruct built.
Qed.
End Enqueue.

(** ** The driver *)
Definition completed (s : InMemoryOutboxStore) (sagaID : string) : Prop :=
  ∃ sg, os_sagas s !! sagaID = Some sg ∧ sg_State sg = SagaCompleted.
Lemma completed_rtc s s' sagaID : store_inv s → rtc outbox_step s s' → completed s sagaID → completed s' sagaID.
Proof.
  intros Hi R. induction R as [|s1 s2 s3 S1 _ IH]; [done|]. intros (sg & Ls & Es). apply IH; [by eapply outbox_step_inv|].
  destruct (ex_saga _ _ (outbox_step_extends _ _ Hi S1) _ _ Ls) as (sg2 & L2 & _). exists sg2. split; [done|].
  rewrite <-Es. eapply (final_state (sg_State sg)); [auto|]. by eapply (outbox_step_moves _ _ Hi S1).
Qed.
Lemma CompleteSaga_completed ctx now sagaID s s' : CompleteSaga ctx now sagaID s = Ok s' → completed s' sagaID.
Proof.
  unfold CompleteSaga. intros E. apply bind_Ok in E as ([] & _ & E). apply bind_Ok in E as (sg & Lsg%ofOption_Ok & E).
  case_bool_decide; [simplify_eq; by exists sg|]. inv_res. unfold completed, finishSaga, putSaga. cbn. rewrite lookup_insert_eq. by eexists.
Qed.

(** The saga of a plan, with the identity the driver gave it. *)
Definition sagaOf (s : InMemoryOutboxStore) (namespace executionID digest : string) (plan : Plan) : Prop :=
  ∃ sg, os_sagas s !! StableSagaID executionID (pl_Id plan) = Some sg ∧ sg_Namespace sg = namespace ∧
    sg_ExecutionID sg = executionID ∧ sg_PlanID sg = pl_Id plan ∧ sg_PlanDigest sg = digest.
Lemma sagaOf_rtc s s' ns eid dg plan : store_inv s → rtc outbox_step s s' → sagaOf s ns eid dg plan → sagaOf s' ns eid dg plan.
Proof.
  intros Hi R (sg & Ls & Es). apply rtc_inv_extends in R as [_ X]; [|done]. destruct (ex_saga _ _ X _ _ Ls) as (sg' & L' & C). exists sg'.
  split; [done|]. unfold sg_core in C. simplify_eq. naive_solver congruence.
Qed.
Lemma CreateSaga_sagaOf tb ctx now ns eid dg plan s sg s' :
  CreateSaga tb ctx now (mkCreateSaga ns (StableSagaID eid (pl_Id plan)) eid (pl_Id plan) dg true false) s = Ok (sg, s') → sagaOf s' ns eid dg plan.
Proof.
  unfold CreateSaga. intros E. do 2 apply bind_Ok in E as ([] & _ & E). cbn [cs_SagaID cs_Namespace cs_ExecutionID cs_PlanID cs_PlanDigest cs_Serial] in E.
  destruct (os_sagas s !! _) as [ex|] eqn:Ls.
  - inv_res. exists sg. split; [done|]. rewrite !orb_false_iff, !bool_decide_eq_false in *.
    repeat match goal with X : _ ∧ _ |- _ => destruct X end. split_and!; by apply dec_stable.
  - simplify_eq. eexists. cbn. rewrite lookup_insert_eq. done.
Qed.

Section Driven.
  Context {P L : Type} `{FencingProvider P L} (o : Oracle (P := P)) (Hothers : ∀ n s, rtc outbox_step s (o_others o n s)).
  Context (formatFloat : spec_float → string) (matchString : string → string → result bool) (generation : SourceGeneration).
  #[local] Abbreviation plans := (ch_Plans (sn_checked generation)).
  Context (Hplans : NoDup (pl_Id <$> plans)) (Hsteps : ∀ p, p ∈ plans → NoDup (sp_Id <$> pl_Steps p)).
  #[local] Existing Instance run_ret.
  #[local] Existing Instance run_bind.
  #[local] Abbreviation run := (run (P := P)).

Lemma spec_rtc {A} (m : run A) w (Q Q' : A → InMemoryOutboxStore → Prop) : spec m w Q →
  (∀ a s, store_inv (w_store w) → rtc outbox_step (w_store w) s → Q a s → Q' a s) → spec m w Q'.
Proof. intros Hm HQ Hi a w' E. destruct (Hm Hi _ _ E). eauto. Qed.
Lemma spec_true {A} (a : A) w : spec (P := P) (mret a) w (λ _ _, True).
Proof. by apply spec_ret. Qed.
Lemma spec_then {A B} (m : run A) (f : A → run B) w : spec m w (λ _ _, True) → (∀ a w1, spec (f a) w1 (λ _ _, True)) → spec (m ≫= f) w (λ _ _, True).
Proof. intros Hm Hf. eapply spec_bind; [exact Hm|]. auto. Qed.
Lemma spec_any {A} (m : run A) w Q : spec m w Q → spec m w (λ _ _, True).
Proof. intros Hm. by eapply spec_mono. Qed.

Lemma spec_reads {A} (f : nat → InMemoryOutboxStore → result A) w : spec (readStore o f) w (λ _ _, True).
Proof. eapply spec_any. by apply spec_read. Qed.
Lemma spec_timeNow w : spec (timeNow o) w (λ _ _, True).
Proof. apply spec_advances, advances_now. Qed.
Lemma spec_contextErr w : spec (contextErr o) w (λ _ _, True).
Proof. apply spec_advances, advances_ctx. Qed.
Lemma spec_newDispatcher planID options w : spec (newDispatcher o generation planID options) w (λ _ _, True).
Proof. intros _ a w' [= <- <-]. done. Qed.
Ltac any_run :=
  repeat match goal with
  | |- spec (match ?x with _ => _ end) _ _ => destruct x
  | |- spec (mret _) _ _ => apply spec_true
  | |- spec (readStore _ _) _ _ => apply spec_reads
  | |- spec (timeNow _) _ _ => apply spec_timeNow
  | |- spec (contextErr _) _ _ => apply spec_contextErr
  | |- spec (newDispatcher _ _ _ _) _ _ => apply spec_newDispatcher
  | |- spec (DispatchTarget _ _ _ _) _ _ => by apply spec_dispatch
  | Hc : ∀ w, spec ?m w _ |- spec ?m _ _ => apply Hc
  | |- spec (_ ≫= _) _ _ => apply spec_then; [|intros ? ?]
  end.

Lemma spec_dispatchStep fuel dispatcher id w : spec (dispatchCheckedWorkflowStep o fuel dispatcher id) w (λ _ _, True).
Proof. revert w. induction fuel as [|fuel IH]; intros w; cbn [dispatchCheckedWorkflowStep]; unfold sleep; any_run. Qed.
Lemma spec_compensationRound continue options planID sagaID w : (∀ w, spec continue w (λ _ _, True)) →
  spec (compensationRound o generation continue options planID sagaID) w (λ _ _, True).
Proof. intros Hc. unfold compensationRound, sleep. any_run. Qed.
Lemma spec_compensation options fuel planID sagaID w : spec (driveCheckedCompensation o generation options fuel planID sagaID) w (λ _ _, True).
Proof. revert w. induction fuel as [|fuel IH]; intros w; [apply spec_true|]. by apply spec_compensationRound. Qed.
Lemma spec_settle options fuel plan sagaID e w : spec (settleFailure o generation options fuel plan sagaID e) w (λ _ _, True).
Proof.
  unfold settleFailure. destruct (bool_decide _).
  - apply spec_then; [apply spec_compensation|intros; apply spec_true].
  - any_run; eapply spec_any; apply spec_write; try done; intros n s s' X; [by eapply step_block|by eapply step_failfast].
Qed.

(** ** Success *)
Definition isDone (r : option (result unit)) : bool := match r with Some (Ok _) => true | _ => false end.

Lemma spec_driveSteps options fuel plan sagaID facts slots steps w : plan ∈ plans → (∀ step, step ∈ steps → step ∈ pl_Steps plan) →
  spec (driveSteps o formatFloat generation options fuel plan sagaID facts slots steps) w
    (λ r s, isDone r = true → completed s sagaID ∧ ∀ step, step ∈ steps → hasStep s sagaID step).
Proof.
  intros Hp. revert slots w. induction steps as [|step steps IH]; intros slots w Hs; cbn [driveSteps].
  - eapply spec_bind; [apply spec_write; [done|intros n s s' X; by eapply step_complete_saga]|]. intros r w1 _ [_ Hr]. apply spec_ret.
    destruct r; [|done]. destruct Hr as (n & s0 & _ & X). intros _. split; [by eapply CompleteSaga_completed|]. by intros step ?%elem_of_nil.
  - eapply spec_bind; [apply spec_contextErr|]. intros ended w1 _ _. destruct ended; [by apply spec_ret|].
    eapply spec_bind; [apply spec_newDispatcher|]. intros dispatcher w2 _ _. destruct dispatcher as [dispatcher|]; [|by apply spec_ret].
    eapply spec_bind; [apply (spec_EnqueueCheckedStep o Hothers _ _ Hplans Hsteps _ plan step); [done|apply Hs; left|done|done]|].
    intros dispatch w3 _ [Hi3 Hd]. cbn in Hd. destruct dispatch as [dispatch|]; [|by apply spec_ret].
    eapply spec_bind; [apply spec_dispatchStep|]. intros completed w4 R4 _.
    destruct completed as [[completed|e]|]; [| |by apply spec_ret].
    2: { eapply spec_bind; [apply spec_settle|]. intros [e'|] w5 _ _; by apply spec_ret. }
    destruct (bindResult generation step completed slots) as [slots'|]; [|by apply spec_ret].
    eapply spec_rtc; [apply IH; intros; apply Hs; by right|]. cbn. intros r s Hi5 R5 Hr Hdone. destruct (Hr Hdone) as [Hc Hall]. split; [done|].
    intros step' [->|Hin]%elem_of_cons; [|auto]. eapply hasStep_rtc; [exact Hi5|exact R5|]. exact (hasStep_rtc _ _ _ _ Hi3 R4 Hd).
Qed.

Lemma spec_drivePlans options fuel executionID facts selected w : (∀ plan, plan ∈ selected → plan ∈ plans) →
  spec (drivePlans o formatFloat generation options fuel executionID facts selected) w
    (λ r s, isDone r = true → ∀ plan, plan ∈ selected → completed s (StableSagaID executionID (pl_Id plan)) ∧
      ∀ step, step ∈ pl_Steps plan → hasStep s (StableSagaID executionID (pl_Id plan)) step).
Proof.
  revert w. induction selected as [|plan selected IH]; intros w Hin; cbn [drivePlans].
  - apply spec_ret. by intros _ plan ?%elem_of_nil.
  - eapply spec_bind; [apply spec_driveSteps; [apply Hin; left|done]|]. intros r w1 _ [Hi1 Hr]. cbn in Hr.
    destruct r as [[u|e]|]; [| |by apply spec_ret].
    2: by apply spec_ret.
    destruct (Hr eq_refl) as [Hc Hs]. eapply spec_rtc; [apply IH; intros; apply Hin; by right|]. cbn. intros r s Hi R Hr' Hd p [->|Hp]%elem_of_cons; [|auto].
    split; [by eapply completed_rtc|]. intros step Hst. eapply hasStep_rtc; eauto.
Qed.

Lemma spec_admitSaga namespace executionID facts plan w : plan ∈ plans →
  spec (admitSaga o formatFloat generation namespace executionID facts plan) w
    (λ r s, isOk r = true → sagaOf s namespace executionID (ch_Digest (sn_checked generation)) plan).
Proof.
  intros Hp. unfold admitSaga. eapply spec_bind; [apply spec_onStore; [done|intros n s a s' X; by eapply step_create]|].
  cbn. intros created w1 _ [Hi1 Hc]. destruct created as [sg|]; [|by apply spec_ret]. destruct Hc as (n & s0 & _ & Hc%CreateSaga_sagaOf).
  eapply spec_rtc with (Q := λ _ _, True).
  - destruct (pl_Steps plan) as [|step steps] eqn:Es.
    + apply spec_then; [|intros; apply spec_true]. eapply spec_any. apply spec_write; [done|]. intros m s s' X. by eapply step_complete_saga.
    + apply spec_then; [|intros; apply spec_true]. eapply spec_any.
      apply (spec_EnqueueCheckedStep o Hothers _ _ Hplans Hsteps _ plan step); [done|rewrite Es; left|done|done].
  - cbn. intros r s Hi R _ _. by eapply sagaOf_rtc.
Qed.

Definition selects (ids : option (gset string)) (facts : list (string * any)) (plan : Plan) : bool :=
  match isSelected matchString ids facts plan with Ok b => b | Err _ => false end.
Lemma spec_selectPlans namespace executionID facts ids rest acc w : store_inv (w_store w) → (∀ plan, plan ∈ acc ++ rest → plan ∈ plans) →
  spec (selectPlans o formatFloat matchString generation namespace executionID facts ids rest acc) w
    (λ r s, ∀ selected, r = Ok selected → selected = acc ++ List.filter (selects ids facts) rest ∧
      ((∀ plan, plan ∈ acc → sagaOf (w_store w) namespace executionID (ch_Digest (sn_checked generation)) plan) →
       ∀ plan, plan ∈ selected → sagaOf s namespace executionID (ch_Digest (sn_checked generation)) plan)).
Proof.
  revert acc w. induction rest as [|plan rest IH]; intros acc w Hi0 Hin; cbn [selectPlans List.filter].
  - apply spec_ret. intros selected [= <-]. by rewrite app_nil_r.
  - eapply spec_bind; [apply spec_contextErr|]. intros ended w1 R1 [Hi1 _]. destruct ended; [by apply spec_ret|].
    unfold selects at 1. destruct (isSelected matchString ids facts plan) as [[]|e]; [| |by apply spec_ret].
    + destruct (negb _); [by apply spec_ret|]. eapply spec_bind; [apply spec_admitSaga, Hin, elem_of_app; right; left|].
      intros r w2 R2 [Hi2 Hr]. destruct r as [u|e]; [|by apply spec_ret]. specialize (Hr eq_refl).
      eapply spec_mono; [apply (IH (acc ++ [plan])); [done|rewrite <-app_assoc; exact Hin]|]. cbn. intros r s Hx selected E.
      destruct (Hx _ E) as [-> Hall]. rewrite <-app_assoc. split; [done|]. intros Hacc p Hp. apply Hall; [|by rewrite <-app_assoc].
      intros q [Hq|[->|?%elem_of_nil]%elem_of_cons]%elem_of_app; [|done|done].
      apply (sagaOf_rtc (w_store w1)); [done..|]. apply (sagaOf_rtc (w_store w)); [done..|]. auto.
    + eapply spec_mono; [apply (IH acc); [done|]; intros q Hq; apply Hin; set_solver|]. cbn. intros r s Hx selected E. destruct (Hx _ E) as [-> Hall].
      split; [done|]. intros Hacc. apply Hall. intros q Hq. apply (sagaOf_rtc (w_store w)); [done..|]. auto.
Qed.
End Driven.

(** The forward effect of a step, durably succeeded. *)
Definition effectDone (s : InMemoryOutboxStore) (sagaID : string) (step : Step) : Prop :=
  ∃ k d, os_dispatches s !! k = Some d ∧ d_SagaID d = sagaID ∧ d_EffectID d = sp_Id step ∧ d_Direction d = DirectionForward ∧
    d_Verb d = sp_Verb step ∧ d_ContractHash d = sp_ContractHash step ∧ d_Sequence d = sp_Ordinal step + 1 ∧ d_State d = DispatchSucceeded.
Lemma completed_effect s sagaID step : store_inv s → completed s sagaID → hasStep s sagaID step → effectDone s sagaID step.
Proof.
  intros Hi (sg & Lsg & Es) (st & Lst & V & C & Q). destruct (si_fwd _ (inv_static _ Hi) _ _ _ Lst) as (k & d & Ld & E1 & E2 & E3).
  destruct (si_disp _ (inv_static _ Hi) _ _ Ld) as (_ & _ & sg' & st' & _ & Lst' & Ca & _). rewrite E1, E2, Lst in Lst'. simplify_eq.
  unfold carries in Ca. rewrite E3 in Ca. destruct Ca as (A1 & _ & A2 & A3 & _).
  exists k, d. split_and!; try done; try congruence. by eapply (z_completed _ _ _ (inv_state _ Hi _ _ Lsg) k d Es).
Qed.

(** Everything a finished run has done for a plan. *)
Definition workflowDone (s : InMemoryOutboxStore) (namespace executionID digest : string) (plan : Plan) : Prop :=
  let sagaID := StableSagaID executionID (pl_Id plan) in
  sagaOf s namespace executionID digest plan ∧ completed s sagaID ∧ ∀ step, step ∈ pl_Steps plan → effectDone s sagaID step.

Lemma spec_executeCheckedWorkflow {P L} `{FencingProvider P L} (o : Oracle (P := P)) formatFloat matchString generation options fuel
    namespace executionID facts ids waitAccepted (w : World (P := P)) :
  (∀ n s, rtc outbox_step s (o_others o n s)) →
  NoDup (pl_Id <$> ch_Plans (sn_checked generation)) → (∀ p, p ∈ ch_Plans (sn_checked generation) → NoDup (sp_Id <$> pl_Steps p)) →
  spec (executeCheckedWorkflow o formatFloat matchString generation options fuel namespace executionID facts ids waitAccepted) w
    (λ r s, ∀ selected, r = Some (Ok selected) → waitAccepted = false →
      (∃ effective, normalizedWorkflowFacts formatFloat (sn_environment generation) facts = Ok effective ∧
         selected = List.filter (selects matchString ids effective) (ch_Plans (sn_checked generation))) ∧
      ∀ plan, plan ∈ selected → workflowDone s namespace executionID (ch_Digest (sn_checked generation)) plan).
Proof.
  intros Ho Hp Hs Hi a w' E. unfold executeCheckedWorkflow in E.
  destruct (normalizedWorkflowFacts _ _ _) as [effective|]; [|unfold mret, run_ret in E; by simplify_eq]. cbv zeta in E. unfold mbind, run_bind in E.
  destruct (selectPlans _ _ _ _ _ _ _ _ _ _ w) as [r w1] eqn:E1.
  pose proof (spec_selectPlans o Ho formatFloat matchString generation Hp Hs namespace executionID effective ids (ch_Plans (sn_checked generation)) [] w
    Hi ltac:(done) Hi _ _ E1) as [R1 H1]. unfold mret, run_ret in E. destruct r as [sel|]; [|by simplify_eq]. destruct (H1 _ eq_refl) as [-> H1']. clear H1. cbn [app] in *.
  destruct waitAccepted; [by simplify_eq|].
  destruct (drivePlans _ _ _ _ _ _ _ _ w1) as [r w2] eqn:E2. destruct (rtc_inv_extends _ _ Hi R1) as [Hi1 _].
  pose proof (spec_drivePlans o Ho formatFloat generation Hp Hs _ fuel executionID effective (List.filter (selects matchString ids effective) (ch_Plans (sn_checked generation))) w1
    ltac:(intros p Hin; apply list_elem_of_In, List.filter_In in Hin as [Hin _]; by apply list_elem_of_In) Hi1 _ _ E2) as [R2 H2].
  simplify_eq. split; [exact (transitivity R1 R2)|]. intros selected Es _. destruct r as [[u|e]|]; simplify_eq. split; [eauto|]. intros plan Hin.
  destruct (H2 eq_refl _ Hin) as [Hc Hst]. destruct (rtc_inv_extends _ _ Hi1 R2) as [Hi2 _]. split_and!; [|done|].
  - eapply sagaOf_rtc; [exact Hi1|exact R2|]. apply H1'; [by intros p ?%elem_of_nil|done].
  - intros step Hstep. apply completed_effect; auto.
Qed.

(** C3: success means everything was done. When the driver reports success for an
    execution, whatever other workers did to the store meanwhile and whatever the clocks,
    contexts and executors did, then exactly the plans that were selected (by the admission,
    or by their predicates on the effective facts) have been run, each is a saga of this
    execution under the digest of the checked artifact, the saga is completed, and every
    step of the plan is a forward effect with the verb, the contract and the position of
    the step whose dispatch has succeeded. Plan and step identifiers are unique in an
    accepted artifact. *)
Theorem executed_workflow_is_complete {P L} `{FencingProvider P L} (o : Oracle (P := P)) formatFloat matchString generation options fuel
    namespace executionID facts ids (w : World (P := P)) selected (w' : World (P := P)) :
  (∀ n s, rtc outbox_step s (o_others o n s)) → reachable (w_store w) →
  NoDup (pl_Id <$> ch_Plans (sn_checked generation)) → (∀ p, p ∈ ch_Plans (sn_checked generation) → NoDup (sp_Id <$> pl_Steps p)) →
  executeCheckedWorkflow o formatFloat matchString generation options fuel namespace executionID facts ids false w = (Some (Ok selected), w') →
  (∃ effective, normalizedWorkflowFacts formatFloat (sn_environment generation) facts = Ok effective ∧
     selected = List.filter (selects matchString ids effective) (ch_Plans (sn_checked generation))) ∧
  ∀ plan, plan ∈ selected →
    let sagaID := StableSagaID executionID (pl_Id plan) in
    sagaOf (w_store w') namespace executionID (ch_Digest (sn_checked generation)) plan ∧ completed (w_store w') sagaID ∧
    ∀ step, step ∈ pl_Steps plan → effectDone (w_store w') sagaID step.
Proof.
  intros Ho Hr%reachable_inv Hp Hs E. by apply (spec_executeCheckedWorkflow o formatFloat matchString generation options fuel namespace executionID
    facts ids false w Ho Hp Hs Hr _ _ E).
Qed.

(** ** A run of the driver *)
Definition answer (j : json) (_ : nat) (_ : InvocationRequest) : Outcome json := mkOutcome OutcomeSuccess j None.
Definition shopGeneration : SourceGeneration :=
  mkSource (mkCheckedPlans (digest shopHandle) (ra_Plans shopClone)) shopNormal
    {["ship" := answer (JStr "T-1"); "notify" := answer JNull; "unship" := answer JNull]}.
Definition shopOptions : DispatcherOptions := mkOptions "worker" "" 1000 500 3 1 10 false.
Definition shopWorld : World (P := InMemoryProvider) := mkWorld 0 NewInMemoryOutboxStore (Some NewInMemoryProvider) [].
Definition shopRun := executeCheckedWorkflow (quietOracle 1000) noFloat noRegexp shopGeneration shopOptions 5 "ns" "exec" shopInput None false shopWorld.
Definition shopAfter : World (P := InMemoryProvider) := Eval vm_compute in snd shopRun.
Lemma shopRun_Ok : executeCheckedWorkflow (quietOracle 1000) noFloat noRegexp shopGeneration shopOptions 5 "ns" "exec" shopInput None false shopWorld
  = (Some (Ok (ra_Plans shopClone)), shopAfter).
Proof. vm_cast_no_check (@eq_refl _ (Some (Ok (ra_Plans shopClone)), shopAfter)). Qed.
Example shopRun_calls : (λ rq, (iv_Verb rq, iv_Arguments rq)) <$> w_invoked shopAfter =
  [("ship", [("to", AString "Ada")]); ("notify", [("text", AString "sent"); ("ticket", AString "T-1")])].
Proof. reflexivity. Qed.
Lemma executed_workflow_is_complete_witness : Forall (λ plan,
    sagaOf (w_store shopAfter) "ns" "exec" (digest shopHandle) plan ∧ completed (w_store shopAfter) (StableSagaID "exec" (pl_Id plan)) ∧
    ∀ step, step ∈ pl_Steps plan → effectDone (w_store shopAfter) (StableSagaID "exec" (pl_Id plan)) step) (ra_Plans shopClone).
Proof.
  apply Forall_forall. refine (proj2 (executed_workflow_is_complete (quietOracle 1000) noFloat noRegexp shopGeneration shopOptions 5 "ns" "exec" shopInput None shopWorld
    (ra_Plans shopClone) shopAfter (λ n s, rtc_refl _ s) (rtc_refl _ _) _ _ shopRun_Ok)).
  - apply (bool_decide_unpack _). reflexivity.
  - cbn. intros p [->|[->|?%elem_of_nil]%elem_of_cons]%elem_of_cons; [| |done]; apply (bool_decide_unpack _); reflexivity.
Defined.
