(* ===== verification/Lifetime.v ===== *)
(** * Lifetimes inside an engine ([runtime/engine_lifetime.go])

    Many callers use one engine. A call of [Execute] enters the gate of its execution and
    waits for its permit; a call that runs an older generation shares the resolution of
    that generation with the other calls that need it; [Close] waits for the calls that are
    under way and then closes what the engine owns.

    The critical sections under [engine.mu] are functions on the shared state
    [Lifetimes]; pointers are locations in its heaps, so that a caller keeps using the gate
    or entry it found. What a caller is doing is its [callState], and [lifetime_step]
    interleaves the callers at every operation on shared state. *)

From S2P Require Import Prelude.
From Stdlib Require Import ZArith String.
Local Open Scope list_scope.
Local Open Scope Z_scope.

Definition loc : Type := positive.

(** [permit] is the buffered channel of capacity one: is it full? *)
Record executionGate : Type := mkGate { gt_permit : bool; gt_users : Z }.
(** [hg_ready]: has [ready] been closed? *)
Record historicalGeneration : Type := mkHistorical {
  hg_ready : bool;
  hg_generation : option loc;
  hg_err : option error;
  hg_users : Z }.
(** What lifetimes depend on in a generation; a closer is the result of its [Close]. *)
Record GenerationObject : Type := mkGenerationObject {
  go_checked : bool;
  go_digest : string;
  go_closers : list (option (option error));
  go_closed : bool;
  go_closeErr : option error }.

Inductive closePhase : Type := NotClosing | WaitingForCalls | Retired.

(** Where a call of [Execute] is with a generation of an older digest. *)
Inductive generationUse : Type :=
  | NoGeneration
  | Resolving (digest : string) (entry : loc)     (* the leader, before [close(entry.ready)] *)
  | WaitingReady (digest : string) (entry : loc)  (* in the select *)
  | Using (digest : string) (entry : loc) (generation : loc)
  | Releasing (digest : string) (entry : loc)
  | ClosingLast (generation : loc).               (* the last user, after the critical section *)

Inductive callState : Type :=
  | Outside
  | WaitingPermit (id : string) (gate : loc)
  | Running (id : string) (gate : loc) (use : generationUse)
  | Leaving (id : string) (gate : loc)            (* no permit held, before [release] *)
  | Finishing.                                    (* before [engine.active.Done()] *)

Record Lifetimes : Type := mkLifetimes {
  lt_executions : gmap string loc;
  lt_historical : gmap string loc;
  lt_active : Z;
  lt_started : bool;
  lt_closed : bool;
  lt_once : closePhase;
  lt_closeErr : option error;
  lt_gates : gmap loc executionGate;
  lt_entries : gmap loc historicalGeneration;
  lt_generations : gmap loc GenerationObject;
  lt_closeLog : list loc;     (* the calls of [Generation.Close] *)
  lt_calls : gmap nat callState }.
#[global] Instance eta_executionGate : Eta executionGate := λ r, mkGate (gt_permit r) (gt_users r).
#[global] Instance eta_historicalGeneration : Eta historicalGeneration := λ r,
  mkHistorical (hg_ready r) (hg_generation r) (hg_err r) (hg_users r).
#[global] Instance eta_GenerationObject : Eta GenerationObject := λ r,
  mkGenerationObject (go_checked r) (go_digest r) (go_closers r) (go_closed r) (go_closeErr r).
#[global] Instance eta_Lifetimes : Eta Lifetimes := λ r,
  mkLifetimes (lt_executions r) (lt_historical r) (lt_active r) (lt_started r) (lt_closed r) (lt_once r) (lt_closeErr r)
    (lt_gates r) (lt_entries r) (lt_generations r) (lt_closeLog r) (lt_calls r).

Definition callAt (m : gmap nat callState) (t : nat) : callState := default Outside (m !! t).
Definition moveTo (t : nat) (c : callState) (e : Lifetimes) : Lifetimes := e <| lt_calls := <[t := c]> (lt_calls e) |>.

(** ** Gates *)

(** The critical section of [beginExecution]; [new] is where a gate would be allocated. *)
Definition beginExecution (new : loc) (id : string) (e : Lifetimes) : result (loc * Lifetimes) :=
  failIf (lt_closed e) (errorf "engine is closed") ;;
  let e := e <| lt_started := true |> <| lt_active := lt_active e + 1 |> in
  let '(gate, e) := match lt_executions e !! id with
                    | Some gate => (gate, e)
                    | None => (new, e <| lt_gates := <[new := mkGate false 0]> (lt_gates e) |>
                                      <| lt_executions := <[id := new]> (lt_executions e) |>)
                    end in
  Ok (gate, e <| lt_gates := alter (λ g, g <| gt_users := gt_users g + 1 |>) gate (lt_gates e) |>).

(** The critical section of [release]. *)
Definition releaseExecution (id : string) (gate : loc) (e : Lifetimes) : Lifetimes :=
  match lt_gates e !! gate with
  | None => e
  | Some g =>
      let users := gt_users g - 1 in
      e <| lt_gates := <[gate := g <| gt_users := users |>]> (lt_gates e) |>
        <| lt_executions := if bool_decide (users = 0) then delete id (lt_executions e) else lt_executions e |>
  end.
(** [gate.permit <- struct{}{}] and [<-gate.permit] *)
Definition setPermit (gate : loc) (full : bool) (e : Lifetimes) : Lifetimes :=
  e <| lt_gates := alter (λ g, g <| gt_permit := full |>) gate (lt_gates e) |>.

(** ** Generations *)

(** [Generation.Close]: closers in reverse, the first error is kept. *)
Definition closeGeneration (g : GenerationObject) : GenerationObject :=
  if go_closed g then g else
  let failures := rev (go_closers g) ≫= (λ c, match c with Some (Some err) => [err] | _ => [] end) in
  g <| go_closeErr := match go_closeErr g with Some err => Some err | None => head failures end |> <| go_closed := true |>.

Definition recordCloseError (err : option error) (e : Lifetimes) : Lifetimes :=
  match err, lt_closeErr e with
  | Some err, None => e <| lt_closeErr := Some err |>
  | _, _ => e
  end.
(** [engine.recordCloseError(generation.Close())] *)
Definition closeAndRecord (l : loc) (e : Lifetimes) : Lifetimes :=
  let e := e <| lt_generations := alter closeGeneration l (lt_generations e) |> <| lt_closeLog := lt_closeLog e ++ [l] |> in
  recordCloseError (lt_generations e !! l ≫= go_closeErr) e.

(** The critical section of [acquireHistorical]: the entry, and whether this call leads. *)
Definition enterHistorical (new : loc) (digest : string) (e : Lifetimes) : loc * bool * Lifetimes :=
  let '(entry, leader, e) :=
    match lt_historical e !! digest with
    | Some entry => (entry, false, e)
    | None => (new, true, e <| lt_entries := <[new := mkHistorical false None None 0]> (lt_entries e) |>
                            <| lt_historical := <[digest := new]> (lt_historical e) |>)
    end in
  (entry, leader, e <| lt_entries := alter (λ h, h <| hg_users := hg_users h + 1 |>) entry (lt_entries e) |>).

(** What the leader makes of the answer of the resolver, a generation and an error either
    of which may be nil; [active] is [engine.generation]. *)
Definition checkResolved (digest : string) (generation : option GenerationObject) (err : option error) : option error :=
  match err with
  | Some err => Some err
  | None =>
      match generation with
      | Some g => if negb (go_checked g) || go_closed g || bool_decide (go_digest g ≠ digest)
                  then Some (errorf "resolved generation does not match the pinned executable artifact") else None
      | None => Some (errorf "resolved generation does not match the pinned executable artifact")
      end
  end.
Definition settleEntry (entry : loc) (generation : option loc) (err : option error) (e : Lifetimes) : Lifetimes :=
  e <| lt_entries := alter (λ h, h <| hg_generation := generation |> <| hg_err := err |> <| hg_ready := true |>) entry
                       (lt_entries e) |>.
Definition settleHistorical (active : loc) (digest : string) (entry : loc) (generation : option loc) (err : option error)
    (e : Lifetimes) : Lifetimes :=
  let err := checkResolved digest (generation ≫= λ l, lt_generations e !! l) err in
  match err, generation with
  | Some _, Some l => if bool_decide (l = active) then settleEntry entry generation err e
                      else settleEntry entry None err (closeAndRecord l e)
  | _, _ => settleEntry entry generation err e
  end.

(** The critical section of [releaseHistorical], and the generation the last user closes. *)
Definition releaseHistorical (active : loc) (digest : string) (entry : loc) (e : Lifetimes) : option loc * Lifetimes :=
  match lt_entries e !! entry with
  | None => (None, e)
  | Some h =>
      let users := hg_users h - 1 in
      let last := bool_decide (users = 0) in
      (match hg_generation h with
       | Some l => if last && negb (bool_decide (l = active)) then Some l else None
       | None => None
       end,
       e <| lt_entries := <[entry := h <| hg_users := users |>]> (lt_entries e) |>
         <| lt_historical := if last then delete digest (lt_historical e) else lt_historical e |>)
  end.
Definition afterRelease (last : option loc) : generationUse :=
  match last with Some l => ClosingLast l | None => NoGeneration end.

(** ** Interleavings *)
Section Steps.
  Context (active : loc).

Definition startLifetimes (generation : GenerationObject) : Lifetimes :=
  mkLifetimes ∅ ∅ 0 false false NotClosing None ∅ ∅ {[active := generation]} [] ∅.

(** Every operation of a call [t] on shared state, and those of [Close]. A resolver hands
    over a generation that nobody else has ([ls_resolved]), or the active one. *)
Inductive lifetime_step : Lifetimes → Lifetimes → Prop :=
  | ls_begin t new id e gate e' : callAt (lt_calls e) t = Outside → lt_gates e !! new = None →
      beginExecution new id e = Ok (gate, e') → lifetime_step e (moveTo t (WaitingPermit id gate) e')
  | ls_permit t id gate e g : callAt (lt_calls e) t = WaitingPermit id gate → lt_gates e !! gate = Some g → gt_permit g = false →
      lifetime_step e (moveTo t (Running id gate NoGeneration) (setPermit gate true e))
  | ls_abandon t id gate e : callAt (lt_calls e) t = WaitingPermit id gate → lifetime_step e (moveTo t (Leaving id gate) e)
  | ls_enter t id gate new digest e entry leader e' : callAt (lt_calls e) t = Running id gate NoGeneration → lt_entries e !! new = None →
      enterHistorical new digest e = (entry, leader, e') →
      lifetime_step e (moveTo t (Running id gate ((if leader then Resolving else WaitingReady) digest entry)) e')
  | ls_unresolved t id gate digest entry generation err e : callAt (lt_calls e) t = Running id gate (Resolving digest entry) →
      generation ∈ [None; Some active] →
      lifetime_step e (moveTo t (Running id gate (WaitingReady digest entry)) (settleHistorical active digest entry generation err e))
  | ls_resolved t id gate digest entry new object err e : callAt (lt_calls e) t = Running id gate (Resolving digest entry) →
      lt_generations e !! new = None →
      lifetime_step e (moveTo t (Running id gate (WaitingReady digest entry))
        (settleHistorical active digest entry (Some new) err (e <| lt_generations := <[new := object]> (lt_generations e) |>)))
  | ls_use t id gate digest entry h g e : callAt (lt_calls e) t = Running id gate (WaitingReady digest entry) →
      lt_entries e !! entry = Some h → hg_ready h = true → hg_err h = None → hg_generation h = Some g →
      lifetime_step e (moveTo t (Running id gate (Using digest entry g)) e)
  | ls_give_up t id gate digest entry e : callAt (lt_calls e) t = Running id gate (WaitingReady digest entry) →
      lifetime_step e (moveTo t (Running id gate (Releasing digest entry)) e)
  | ls_used t id gate digest entry g e : callAt (lt_calls e) t = Running id gate (Using digest entry g) →
      lifetime_step e (moveTo t (Running id gate (Releasing digest entry)) e)
  | ls_release t id gate digest entry last e e' : callAt (lt_calls e) t = Running id gate (Releasing digest entry) →
      releaseHistorical active digest entry e = (last, e') → lifetime_step e (moveTo t (Running id gate (afterRelease last)) e')
  | ls_close_last t id gate g e : callAt (lt_calls e) t = Running id gate (ClosingLast g) →
      lifetime_step e (moveTo t (Running id gate NoGeneration) (closeAndRecord g e))
  | ls_drain t id gate e : callAt (lt_calls e) t = Running id gate NoGeneration →
      lifetime_step e (moveTo t (Leaving id gate) (setPermit gate false e))
  | ls_leave t id gate e : callAt (lt_calls e) t = Leaving id gate → lifetime_step e (moveTo t Finishing (releaseExecution id gate e))
  | ls_done t e : callAt (lt_calls e) t = Finishing → lifetime_step e (moveTo t Outside (e <| lt_active := lt_active e - 1 |>))
  | ls_closing e : lt_once e = NotClosing → lifetime_step e (e <| lt_closed := true |> <| lt_once := WaitingForCalls |>)
  | ls_closed e : lt_once e = WaitingForCalls → lt_active e = 0 → lifetime_step e ((closeAndRecord active e) <| lt_once := Retired |>).

Definition lifetime_reachable (generation : GenerationObject) : Lifetimes → Prop := rtc lifetime_step (startLifetimes generation).
End Steps.

(** ** Counting calls *)
Definition countCalls (f : callState → bool) (m : gmap nat callState) : Z :=
  Z.of_nat (size (filter (λ p : nat * callState, f p.2 = true) m)).
Lemma countCalls_move f m t c : f Outside = false →
  countCalls f (<[t := c]> m) = countCalls f m + Z.b2z (f c) - Z.b2z (f (callAt m t)).
Proof.
  intros Ho. unfold countCalls, callAt. set (P := λ p : nat * callState, f p.2 = true).
  assert (Hd : Z.of_nat (size (filter P m)) = Z.of_nat (size (filter P (delete t m))) + Z.b2z (f (default Outside (m !! t)))).
  { destruct (m !! t) as [c0|] eqn:E; cbn.
    - rewrite <-(insert_delete_id m t c0 E) at 1. destruct (f c0) eqn:F; cbn.
      + rewrite map_filter_insert_True by done. rewrite map_size_insert_None; [lia|]. apply map_lookup_filter_None. left. apply lookup_delete_eq.
      + rewrite map_filter_insert_False by (unfold P; cbn; congruence). rewrite delete_delete_eq. lia.
    - rewrite delete_id by done. rewrite Ho. cbn. lia. }
  assert (Hi : Z.of_nat (size (filter P (<[t:=c]> m))) = Z.of_nat (size (filter P (delete t m))) + Z.b2z (f c)).
  { rewrite <-insert_delete_eq. destruct (f c) eqn:F; cbn.
    - rewrite map_filter_insert_True by done. rewrite map_size_insert_None; [lia|]. apply map_lookup_filter_None. left. apply lookup_delete_eq.
    - rewrite map_filter_insert_False by (unfold P; cbn; congruence). rewrite delete_delete_eq. lia. }
  lia.
Qed.
Lemma countCalls_nonneg f m : 0 ≤ countCalls f m.
Proof. unfold countCalls. lia. Qed.
Lemma countCalls_pos f m t : f Outside = false → f (callAt m t) = true → 0 < countCalls f m.
Proof.
  intros Ho Hf. unfold countCalls, callAt in *. destruct (m !! t) as [c|] eqn:E; cbn in Hf; [|congruence].
  enough (size (filter (λ p : nat * callState, f p.2 = true) m) ≠ 0%nat) by lia. intros Z0%map_size_empty_inv.
  assert (filter (λ p : nat * callState, f p.2 = true) m !! t = Some c) as L by (by apply map_lookup_filter_Some).
  by rewrite Z0, lookup_empty in L.
Qed.
Lemma countCalls_zero f m t : countCalls f m = 0 → f Outside = false → f (callAt m t) = false.
Proof. intros Z0 Ho. destruct (f (callAt m t)) eqn:F; [|done]. pose proof (countCalls_pos f m t Ho F). lia. Qed.
Lemma countCalls_some f m : 0 < countCalls f m → ∃ t, f (callAt m t) = true.
Proof.
  unfold countCalls. intros Hp. destruct (map_choose (filter (λ p : nat * callState, f p.2 = true) m)) as (t & c & L).
  { intros E. rewrite E, map_size_empty in Hp. lia. }
  apply map_lookup_filter_Some in L as [L F]. exists t. unfold callAt. by rewrite L.
Qed.
Lemma countCalls_none f m : (∀ t, f (callAt m t) = false) → countCalls f m = 0.
Proof.
  intros Hf. pose proof (countCalls_nonneg f m). destruct (decide (0 < countCalls f m)) as [[t Ht]%countCalls_some|]; [|lia].
  by rewrite Hf in Ht.
Qed.
(** A count of one identifies the call. *)
Lemma countCalls_one f m t1 t2 : f Outside = false → countCalls f m = 1 → f (callAt m t1) = true → f (callAt m t2) = true → t1 = t2.
Proof.
  intros Ho H1 F1 F2. destruct (decide (t1 = t2)) as [|N]; [done|]. exfalso.
  pose proof (countCalls_move f m t1 Outside Ho) as E. rewrite F1, Ho in E. cbn in E.
  assert (f (callAt (<[t1 := Outside]> m) t2) = true) as F2'. { unfold callAt. by rewrite lookup_insert_ne. }
  pose proof (countCalls_pos _ _ _ Ho F2'). lia.
Qed.
Lemma callAt_move m t c t' : callAt (<[t := c]> m) t' = if bool_decide (t' = t) then c else callAt m t'.
Proof. unfold callAt. case_bool_decide; subst; [by rewrite lookup_insert_eq|by rewrite lookup_insert_ne]. Qed.
