(* ===== verification/LifetimeProps.v ===== *)
(** * Nothing is used after it is closed, and nothing is kept

    At any interleaving of calls, resolutions and [Close]: one call per execution, no gate
    or resolution outlives its users, no call uses a generation that has been closed, and
    every generation the engine was handed is closed exactly once. *)

From S2P Require Import Prelude Lifetime.
From Stdlib Require Import ZArith String.
Local Open Scope list_scope.
Local Open Scope Z_scope.

(** ** Counted tables

    Gates and resolutions are the same pattern: a map of names to objects that count the
    calls that hold them, from which the last one removes the name. *)
Section Table.
  Context (held : callState → option (string * loc)) (Hout : held Outside = None).

Definition holds (l : loc) (c : callState) : bool := bool_decide (snd <$> held c = Some l).
Record table_inv (names : gmap string loc) (users : gmap loc Z) (m : gmap nat callState) : Prop := {
  tb_used n l : names !! n = Some l → ∃ u, users !! l = Some u ∧ 0 < u;
  tb_count l u : users !! l = Some u → u = countCalls (holds l) m;
  tb_known l : users !! l = None → countCalls (holds l) m = 0;
  tb_named t n l : held (callAt m t) = Some (n, l) → names !! n = Some l;
  tb_inj n n' l : names !! n = Some l → names !! n' = Some l → n = n' }.

Lemma holds_Outside l : holds l Outside = false.
Proof. unfold holds. by rewrite Hout. Qed.
Lemma holds_other l c : held c = None → holds l c = false.
Proof. unfold holds. by intros ->. Qed.
Lemma holds_held l l' n c : held c = Some (n, l') → holds l c = bool_decide (l' = l).
Proof. unfold holds. intros ->. cbn. apply bool_decide_ext. naive_solver. Qed.

Lemma table_keep names users m t c : table_inv names users m → held c = held (callAt m t) → table_inv names users (<[t := c]> m).
Proof.
  intros [I1 I2 I3 I4 I5] E. assert (∀ l, countCalls (holds l) (<[t := c]> m) = countCalls (holds l) m) as C.
  { intros l. rewrite countCalls_move by apply holds_Outside. unfold holds. rewrite E. lia. }
  split; [done|..|done]; intros *; rewrite ?C; eauto. rewrite callAt_move. case_bool_decide; subst; [rewrite E|]; eauto.
Qed.
Lemma table_join names users m t c n l u : table_inv names users m → held (callAt m t) = None → held c = Some (n, l) →
  names !! n = Some l → users !! l = Some u → table_inv names (<[l := u + 1]> users) (<[t := c]> m).
Proof.
  intros [I1 I2 I3 I4 I5] E0 E1 N U.
  assert (∀ k, countCalls (holds k) (<[t := c]> m) = countCalls (holds k) m + Z.b2z (bool_decide (l = k))) as C.
  { intros k. rewrite countCalls_move by apply holds_Outside. rewrite (holds_other _ _ E0), (holds_held _ _ _ _ E1). cbn. lia. }
  split; [..|done].
  - intros n' l' H. destruct (I1 _ _ H) as (u' & U' & ?). destruct (decide (l' = l)) as [->|N'];
      [rewrite lookup_insert_eq; simplify_eq; eexists; split; [done|lia]|rewrite lookup_insert_ne by done; eauto].
  - intros k v. rewrite C. destruct (decide (k = l)) as [->|N']; [rewrite lookup_insert_eq|rewrite lookup_insert_ne by done].
    + intros [= <-]. rewrite bool_decide_eq_true_2 by done. cbn. rewrite (I2 _ _ U). lia.
    + intros H. rewrite bool_decide_eq_false_2 by done. cbn. rewrite (I2 _ _ H). lia.
  - intros k. rewrite C. intros [H N']%lookup_insert_None. rewrite bool_decide_eq_false_2 by done. cbn. rewrite (I3 _ H). lia.
  - intros t' n' l'. rewrite callAt_move. case_bool_decide; [rewrite E1; intros [= <- <-]; done|eauto].
Qed.
Lemma table_new names users m n l : table_inv names users m → names !! n = None → users !! l = None →
  ∀ t c, held (callAt m t) = None → held c = Some (n, l) →
  table_inv (<[n := l]> names) (<[l := 1]> users) (<[t := c]> m).
Proof.
  intros [I1 I2 I3 I4 I5] N U t c E0 E1.
  assert (∀ k, countCalls (holds k) (<[t := c]> m) = countCalls (holds k) m + Z.b2z (bool_decide (l = k))) as C.
  { intros k. rewrite countCalls_move by apply holds_Outside. rewrite (holds_other _ _ E0), (holds_held _ _ _ _ E1). cbn. lia. }
  assert (∀ n', names !! n' ≠ Some l) as Nl. { intros n' H. destruct (I1 _ _ H) as (u & ? & _). congruence. }
  split.
  - intros n' l'. rewrite lookup_insert_Some. intros [[<- <-]|[? H]]; [rewrite lookup_insert_eq; eexists; split; [done|lia]|].
    destruct (I1 _ _ H) as (u' & U' & ?). rewrite lookup_insert_ne by congruence. eauto.
  - intros k v. rewrite C. destruct (decide (k = l)) as [->|N']; [rewrite lookup_insert_eq|rewrite lookup_insert_ne by done].
    + intros [= <-]. rewrite bool_decide_eq_true_2 by done. cbn. rewrite (I3 _ U). lia.
    + intros H. rewrite bool_decide_eq_false_2 by done. cbn. rewrite (I2 _ _ H). lia.
  - intros k. rewrite C. intros [H N']%lookup_insert_None. rewrite bool_decide_eq_false_2 by done. cbn. rewrite (I3 _ H). lia.
  - intros t' n' l'. rewrite callAt_move. case_bool_decide; [rewrite E1; intros [= <- <-]; apply lookup_insert_eq|].
    intros H'%I4. rewrite lookup_insert_ne; [done|congruence].
  - intros n1 n2 l'. rewrite !lookup_insert_Some. intros [[-> ->]|[? H1]] [[-> Hl]|[? H2]]; subst; eauto; exfalso; by eapply Nl.
Qed.
Lemma table_leave names users m t c n l u : table_inv names users m → held (callAt m t) = Some (n, l) → held c = None →
  users !! l = Some u →
  table_inv (if bool_decide (u - 1 = 0) then delete n names else names) (<[l := u - 1]> users) (<[t := c]> m).
Proof.
  intros [I1 I2 I3 I4 I5] E0 E1 U. pose proof (I4 _ _ _ E0) as N.
  assert (∀ k, countCalls (holds k) (<[t := c]> m) = countCalls (holds k) m - Z.b2z (bool_decide (l = k))) as C.
  { intros k. rewrite countCalls_move by apply holds_Outside. rewrite (holds_other _ _ E1), (holds_held _ _ _ _ E0). cbn. lia. }
  assert (∀ n' k, (if bool_decide (u - 1 = 0) then delete n names else names) !! n' = Some k → names !! n' = Some k) as Sub.
  { intros n' k. case_bool_decide; [|done]. rewrite lookup_delete_Some. tauto. }
  split.
  - intros n' l' H. pose proof (Sub _ _ H) as H'. destruct (I1 _ _ H') as (u' & U' & ?). destruct (decide (l' = l)) as [->|N'].
    + rewrite lookup_insert_eq. assert (n' = n) as -> by eauto. simplify_eq. eexists. split; [done|]. case_bool_decide; [by rewrite lookup_delete_eq in H|lia].
    + rewrite lookup_insert_ne by done. eauto.
  - intros k v. rewrite C. destruct (decide (k = l)) as [->|N']; [rewrite lookup_insert_eq|rewrite lookup_insert_ne by done].
    + intros [= <-]. rewrite bool_decide_eq_true_2 by done. cbn. rewrite (I2 _ _ U). lia.
    + intros H. rewrite bool_decide_eq_false_2 by done. cbn. rewrite (I2 _ _ H). lia.
  - intros k. rewrite C. intros [H N']%lookup_insert_None. rewrite bool_decide_eq_false_2 by done. cbn. rewrite (I3 _ H). lia.
  - intros t' n' l' Ht. assert (holds l (callAt (<[t := c]> m) t') = true → 1 < u) as Hu.
    { intros F. pose proof (countCalls_pos _ _ _ (holds_Outside l) F) as Hp. rewrite C, bool_decide_eq_true_2, <-(I2 _ _ U) in Hp by done. cbn in Hp. lia. }
    rewrite callAt_move in Ht, Hu. case_bool_decide as Et; [congruence|]. pose proof (I4 _ _ _ Ht) as N'.
    rewrite (holds_held _ _ _ _ Ht) in Hu.
    destruct (decide (l' = l)) as [->|Nl]; [rewrite bool_decide_eq_false_2; [done|specialize (Hu ltac:(by apply bool_decide_eq_true)); lia]|].
    clear Hu. case_bool_decide; [rewrite lookup_delete_ne; [done|congruence]|done].
  - intros n1 n2 l' H1%Sub H2%Sub. eauto.
Qed.
End Table.

(** ** The invariant *)
Definition heldGate (c : callState) : option (string * loc) :=
  match c with
  | WaitingPermit id gate | Running id gate _ | Leaving id gate => Some (id, gate)
  | Outside | Finishing => None
  end.
Definition useOf (c : callState) : generationUse := match c with Running _ _ use => use | _ => NoGeneration end.
Definition heldEntry (c : callState) : option (string * loc) :=
  match useOf c with
  | Resolving d l | WaitingReady d l | Using d l _ | Releasing d l => Some (d, l)
  | NoGeneration | ClosingLast _ => None
  end.
Definition runsIn (l : loc) (c : callState) : bool := match c with Running _ gate _ => bool_decide (gate = l) | _ => false end.
Definition resolves (l : loc) (c : callState) : bool := match useOf c with Resolving _ entry => bool_decide (entry = l) | _ => false end.
Definition closes (g : loc) (c : callState) : bool := match useOf c with ClosingLast g' => bool_decide (g' = g) | _ => false end.
Definition inCall (c : callState) : bool := match c with Outside => false | _ => true end.
Definition isOpen (e : Lifetimes) (g : loc) : Prop := ∃ o, lt_generations e !! g = Some o ∧ go_closed o = false.

Record gate_inv (e : Lifetimes) : Prop := {
  gi_table : table_inv heldGate (lt_executions e) (fmap gt_users (lt_gates e)) (lt_calls e);
  gi_permit l g : lt_gates e !! l = Some g → Z.b2z (gt_permit g) = countCalls (runsIn l) (lt_calls e);
  gi_active : lt_active e = countCalls inCall (lt_calls e);
  gi_closing : lt_once e ≠ NotClosing → lt_closed e = true;
  gi_retired : lt_once e = Retired → lt_active e = 0 }.
Record entry_inv (e : Lifetimes) : Prop := {
  ei_table : table_inv heldEntry (lt_historical e) (fmap hg_users (lt_entries e)) (lt_calls e);
  ei_ready l h : lt_entries e !! l = Some h → Z.b2z (negb (hg_ready h)) = countCalls (resolves l) (lt_calls e) }.
Record owned_inv (active : loc) (e : Lifetimes) : Prop := {
  ow_unsettled l h : lt_entries e !! l = Some h → hg_ready h = false → hg_generation h = None;
  ow_known l h g : lt_entries e !! l = Some h → hg_generation h = Some g → is_Some (lt_generations e !! g);
  ow_unique l1 l2 h1 h2 g : lt_entries e !! l1 = Some h1 → lt_entries e !! l2 = Some h2 →
    hg_generation h1 = Some g → hg_generation h2 = Some g → g ≠ active → l1 = l2;
  ow_open l h g : lt_entries e !! l = Some h → hg_generation h = Some g → g ≠ active → 0 < hg_users h →
    isOpen e g ∧ (g ∉ lt_closeLog e) ∧ countCalls (closes g) (lt_calls e) = 0;
  ow_using t d l g : useOf (callAt (lt_calls e) t) = Using d l g → ∃ h, lt_entries e !! l = Some h ∧ hg_generation h = Some g;
  ow_closing t g : useOf (callAt (lt_calls e) t) = ClosingLast g →
    g ≠ active ∧ (g ∉ lt_closeLog e) ∧ is_Some (lt_generations e !! g);
  ow_closing_one g : countCalls (closes g) (lt_calls e) ≤ 1;
  ow_kept g : is_Some (lt_generations e !! g) → g ≠ active → g ∈ lt_closeLog e ∨ 0 < countCalls (closes g) (lt_calls e) ∨
    ∃ l h, lt_entries e !! l = Some h ∧ hg_generation h = Some g ∧ 0 < hg_users h;
  ow_log : NoDup (lt_closeLog e);
  ow_log_known g : g ∈ lt_closeLog e → is_Some (lt_generations e !! g);
  ow_active : active ∈ lt_closeLog e ↔ lt_once e = Retired;
  ow_active_open : active ∉ lt_closeLog e → isOpen e active }.

(** Only the bookkeeping of an error differs. *)
Lemma closeAndRecord_eq l e : ∃ err, closeAndRecord l e =
  e <| lt_generations := alter closeGeneration l (lt_generations e) |> <| lt_closeLog := lt_closeLog e ++ [l] |> <| lt_closeErr := err |>.
Proof. unfold closeAndRecord, recordCloseError. destruct e. cbn. destruct (alter _ _ _ !! l ≫= go_closeErr), lt_closeErr; eexists; reflexivity. Qed.

(** *** Gates *)

(** Steps that leave the gates and the calls in progress alone. *)
Lemma gate_frame e e' t c : gate_inv e → lt_executions e' = lt_executions e → lt_gates e' = lt_gates e → lt_active e' = lt_active e →
  lt_closed e' = lt_closed e → lt_once e' = lt_once e → lt_calls e' = <[t := c]> (lt_calls e) →
  (∃ id gate use use', callAt (lt_calls e) t = Running id gate use ∧ c = Running id gate use') → gate_inv e'.
Proof.
  intros [I1 I2 I3 I4 I5] E1 E2 E3 E4 E5 E6 (id & gate & use & use' & Ec & ->). split; rewrite ?E1, ?E2, ?E3, ?E4, ?E5, ?E6; auto.
  - apply table_keep; [done|done|by rewrite Ec].
  - intros l g L. rewrite countCalls_move, Ec by done. cbn. rewrite (I2 _ _ L). lia.
  - rewrite countCalls_move, Ec by done. cbn. lia.
Qed.
Lemma users_alter (f : executionGate → executionGate) (l : loc) (m : gmap loc executionGate) : (∀ g, gt_users (f g) = gt_users g) → gt_users <$> alter f l m = gt_users <$> m.
Proof.
  intros Hf. apply map_eq. intros k. rewrite !lookup_fmap. destruct (decide (k = l)) as [->|N].
  - rewrite lookup_alter_eq. destruct (m !! l); cbn; [by rewrite Hf|done].
  - by rewrite lookup_alter_ne.
Qed.
Lemma permit_moved e t c l full : (∀ k g, lt_gates e !! k = Some g → Z.b2z (gt_permit g) = countCalls (runsIn k) (lt_calls e)) →
  (∀ g, lt_gates e !! l = Some g → Z.b2z full = Z.b2z (gt_permit g) + Z.b2z (runsIn l c) - Z.b2z (runsIn l (callAt (lt_calls e) t))) →
  (∀ k, k ≠ l → runsIn k c = runsIn k (callAt (lt_calls e) t)) →
  ∀ k g, alter (λ g, g <| gt_permit := full |>) l (lt_gates e) !! k = Some g → Z.b2z (gt_permit g) = countCalls (runsIn k) (<[t := c]> (lt_calls e)).
Proof.
  intros I2 Hl Hk k g. rewrite countCalls_move by done. destruct (decide (k = l)) as [->|N].
  - rewrite lookup_alter_eq. destruct (lt_gates e !! l) as [g0|] eqn:L; [|done]. cbn. intros [= <-]. cbn. rewrite <-(I2 _ _ L), (Hl _ eq_refl). lia.
  - rewrite lookup_alter_ne by done. intros L. rewrite (I2 _ _ L), Hk by done. lia.
Qed.
Lemma unused_runsIn e l : table_inv heldGate (lt_executions e) (fmap gt_users (lt_gates e)) (lt_calls e) →
  (fmap gt_users (lt_gates e)) !! l = None → ∀ t, runsIn l (callAt (lt_calls e) t) = false.
Proof.
  intros I U t. pose proof (countCalls_zero _ _ t (tb_known _ _ _ _ I _ U) eq_refl) as Hh. unfold holds in Hh.
  destruct (callAt (lt_calls e) t); try done. cbn in *. rewrite bool_decide_eq_false in Hh. apply bool_decide_eq_false. congruence.
Qed.
Lemma begin_gates new id e gate e' : gate_inv e → lt_gates e !! new = None → beginExecution new id e = Ok (gate, e') →
  ∀ t, callAt (lt_calls e) t = Outside → gate_inv (moveTo t (WaitingPermit id gate) e').
Proof.
  intros [I1 I2 I3 I4 I5] Hn H t Ht. unfold beginExecution in H. apply bind_Ok in H as ([] & Hc%failIf_Ok & H).
  assert (lt_once e = NotClosing) as Ho. { destruct (lt_once e); [done|..]; rewrite I4 in Hc; done. }
  destruct (lt_executions e !! id) as [g|] eqn:L; cbn in H; rewrite L in H; simplify_eq; cbn.
  - destruct (tb_used _ _ _ _ I1 _ _ L) as (u & U & _). rewrite lookup_fmap in U. destruct (lt_gates e !! gate) as [g|] eqn:G; [|done].
    cbn in U. injection U as <-. unfold moveTo. split; cbn.
    + replace (gt_users <$> _) with (<[gate := gt_users g + 1]> (fmap gt_users (lt_gates e))).
      * eapply table_join; [done|done|by rewrite Ht|done|done|by rewrite lookup_fmap, G].
      * apply map_eq. intros k. destruct (decide (k = gate)) as [->|N]; rewrite ?lookup_insert_eq, ?lookup_insert_ne, !lookup_fmap by done;
          [by rewrite lookup_alter_eq, G|by rewrite lookup_alter_ne].
    + intros k g' Hk. rewrite countCalls_move, Ht by done. cbn. destruct (decide (k = gate)) as [->|N].
      * rewrite lookup_alter_eq, G in Hk. cbn in Hk. simplify_eq. cbn. rewrite (I2 _ _ G). lia.
      * rewrite lookup_alter_ne in Hk by done. rewrite (I2 _ _ Hk). lia.
    + rewrite countCalls_move, Ht by done. cbn. lia.
    + done.
    + congruence.
  - unfold moveTo. split; cbn.
    + replace (gt_users <$> _) with (<[gate := 1]> (fmap gt_users (lt_gates e))).
      * eapply table_new; [done|done|done|by rewrite lookup_fmap, Hn|by rewrite Ht|done].
      * apply map_eq. intros k. destruct (decide (k = gate)) as [->|N]; rewrite ?lookup_insert_eq, ?lookup_insert_ne, !lookup_fmap by done;
          [by rewrite lookup_alter_eq, lookup_insert_eq|by rewrite lookup_alter_ne, lookup_insert_ne].
    + intros k g' Hk. rewrite countCalls_move, Ht by done. cbn. destruct (decide (k = gate)) as [->|N].
      * rewrite lookup_alter_eq, lookup_insert_eq in Hk. cbn in Hk. simplify_eq. cbn.
        rewrite countCalls_none; [done|]. apply (unused_runsIn _ _ I1). by rewrite lookup_fmap, Hn.
      * rewrite lookup_alter_ne, lookup_insert_ne in Hk by done. rewrite (I2 _ _ Hk). lia.
    + rewrite countCalls_move, Ht by done. cbn. lia.
    + done.
    + congruence.
Qed.
Lemma permit_gates e t id gate g : gate_inv e → callAt (lt_calls e) t = WaitingPermit id gate → lt_gates e !! gate = Some g →
  gt_permit g = false → gate_inv (moveTo t (Running id gate NoGeneration) (setPermit gate true e)).
Proof.
  intros [I1 I2 I3 I4 I5] Ht G Hp. split; cbn; [|..|done|done].
  - rewrite users_alter by done. apply table_keep; [done|done|by rewrite Ht].
  - apply permit_moved; [done|..]; rewrite Ht; cbn.
    + intros g' L. simplify_eq. rewrite Hp, bool_decide_eq_true_2; done.
    + intros k N. by rewrite bool_decide_eq_false_2.
  - rewrite countCalls_move, Ht by done. cbn. lia.
Qed.
Lemma abandon_gates e t id gate : gate_inv e → callAt (lt_calls e) t = WaitingPermit id gate → gate_inv (moveTo t (Leaving id gate) e).
Proof.
  intros [I1 I2 I3 I4 I5] Ht. split; cbn; [|..|done|done].
  - apply table_keep; [done|done|by rewrite Ht].
  - intros l g L. rewrite countCalls_move, Ht by done. cbn. rewrite (I2 _ _ L). lia.
  - rewrite countCalls_move, Ht by done. cbn. lia.
Qed.
Lemma drain_gates e t id gate : gate_inv e → callAt (lt_calls e) t = Running id gate NoGeneration →
  gate_inv (moveTo t (Leaving id gate) (setPermit gate false e)).
Proof.
  intros [I1 I2 I3 I4 I5] Ht. split; cbn; [|..|done|done].
  - rewrite users_alter by done. apply table_keep; [done|done|by rewrite Ht].
  - apply permit_moved; [done|..]; rewrite Ht; cbn.
    + intros g L. rewrite bool_decide_eq_true_2 by done. pose proof (countCalls_pos (runsIn gate) (lt_calls e) t eq_refl) as Hp.
      rewrite Ht in Hp. cbn in Hp. rewrite bool_decide_eq_true_2, <-(I2 _ _ L) in Hp by done. specialize (Hp eq_refl). destruct (gt_permit g); cbn in *; lia.
    + intros k N. by rewrite bool_decide_eq_false_2.
  - rewrite countCalls_move, Ht by done. cbn. lia.
Qed.
Lemma leave_gates e t id gate : gate_inv e → callAt (lt_calls e) t = Leaving id gate → gate_inv (moveTo t Finishing (releaseExecution id gate e)).
Proof.
  intros [I1 I2 I3 I4 I5] Ht. unfold releaseExecution.
  pose proof (tb_named _ _ _ _ I1 t id gate ltac:(by rewrite Ht)) as N. destruct (tb_used _ _ _ _ I1 _ _ N) as (u & U & _).
  rewrite lookup_fmap in U. destruct (lt_gates e !! gate) as [g|] eqn:G; [|done]. cbn in U. injection U as <-.
  split; cbn; [|..|done|done].
  - rewrite fmap_insert. cbn. apply table_leave; [done|done|by rewrite Ht|done|by rewrite lookup_fmap, G].
  - intros l g' L. rewrite countCalls_move, Ht by done. cbn. destruct (decide (l = gate)) as [->|Nl].
    + rewrite lookup_insert_eq in L. simplify_eq. cbn. rewrite (I2 _ _ G). lia.
    + rewrite lookup_insert_ne in L by done. rewrite (I2 _ _ L). lia.
  - rewrite countCalls_move, Ht by done. cbn. lia.
Qed.
Lemma done_gates e t : gate_inv e → callAt (lt_calls e) t = Finishing → gate_inv (moveTo t Outside (e <| lt_active := lt_active e - 1 |>)).
Proof.
  intros [I1 I2 I3 I4 I5] Ht. split; cbn; [|..|done|].
  - apply table_keep; [done|done|by rewrite Ht].
  - intros l g L. rewrite countCalls_move, Ht by done. cbn. rewrite (I2 _ _ L). lia.
  - rewrite countCalls_move, Ht by done. cbn. lia.
  - intros Hr%I5. pose proof (countCalls_pos inCall (lt_calls e) t eq_refl ltac:(by rewrite Ht)). lia.
Qed.

(** *** Resolutions *)

(** Steps that keep the entries, and keep what the call holds of them. *)
Lemma entry_frame e e' t c : entry_inv e → lt_historical e' = lt_historical e → lt_entries e' = lt_entries e →
  lt_calls e' = <[t := c]> (lt_calls e) → heldEntry c = heldEntry (callAt (lt_calls e) t) →
  (∀ l, resolves l c = resolves l (callAt (lt_calls e) t)) → entry_inv e'.
Proof.
  intros [I1 I2] E1 E2 E3 Hh Hr. split; rewrite ?E1, ?E2, E3.
  - apply table_keep; done.
  - intros l h L. rewrite countCalls_move, Hr by done. rewrite (I2 _ _ L). lia.
Qed.
Lemma entry_users_alter f (l : loc) (m : gmap loc historicalGeneration) : (∀ h, hg_users (f h) = hg_users h) →
  fmap hg_users (alter f l m) = fmap hg_users m.
Proof.
  intros Hf. apply map_eq. intros k. rewrite !lookup_fmap. destruct (decide (k = l)) as [->|N].
  - rewrite lookup_alter_eq. destruct (m !! l); cbn; [by rewrite Hf|done].
  - by rewrite lookup_alter_ne.
Qed.
Lemma unused_resolves e l : table_inv heldEntry (lt_historical e) (fmap hg_users (lt_entries e)) (lt_calls e) →
  (fmap hg_users (lt_entries e)) !! l = None → ∀ t, resolves l (callAt (lt_calls e) t) = false.
Proof.
  intros I U t. pose proof (countCalls_zero _ _ t (tb_known _ _ _ _ I _ U) eq_refl) as Hh. unfold holds, heldEntry in Hh. unfold resolves.
  destruct (useOf (callAt (lt_calls e) t)); try done. cbn in *. rewrite bool_decide_eq_false in Hh. apply bool_decide_eq_false. congruence.
Qed.
Lemma enter_entries e t id gate new digest entry leader e' : entry_inv e → callAt (lt_calls e) t = Running id gate NoGeneration →
  lt_entries e !! new = None → enterHistorical new digest e = (entry, leader, e') →
  entry_inv (moveTo t (Running id gate ((if leader then Resolving else WaitingReady) digest entry)) e').
Proof.
  intros [I1 I2] Ht Hn H. unfold enterHistorical in H. destruct (lt_historical e !! digest) as [l|] eqn:L; simplify_eq; cbn.
  - destruct (tb_used _ _ _ _ I1 _ _ L) as (u & U & _). rewrite lookup_fmap in U. destruct (lt_entries e !! entry) as [h|] eqn:G; [|done].
    cbn in U. injection U as <-. split; cbn.
    + replace (fmap hg_users (alter _ _ _)) with (<[entry := hg_users h + 1]> (fmap hg_users (lt_entries e))).
      * eapply table_join; [done|done|by rewrite Ht|done|done|by rewrite lookup_fmap, G].
      * apply map_eq. intros k. destruct (decide (k = entry)) as [->|N]; rewrite ?lookup_insert_eq, ?lookup_insert_ne, !lookup_fmap by done;
          [by rewrite lookup_alter_eq, G|by rewrite lookup_alter_ne].
    + intros k h' Hk. rewrite countCalls_move, Ht by done. cbn. destruct (decide (k = entry)) as [->|N].
      * rewrite lookup_alter_eq, G in Hk. cbn in Hk. simplify_eq. cbn. rewrite (I2 _ _ G). lia.
      * rewrite lookup_alter_ne in Hk by done. rewrite (I2 _ _ Hk). lia.
  - split; cbn.
    + replace (fmap hg_users (alter _ _ _)) with (<[entry := 1]> (fmap hg_users (lt_entries e))).
      * eapply table_new; [done|done|done|by rewrite lookup_fmap, Hn|by rewrite Ht|done].
      * apply map_eq. intros k. destruct (decide (k = entry)) as [->|N]; rewrite ?lookup_insert_eq, ?lookup_insert_ne, !lookup_fmap by done;
          [by rewrite lookup_alter_eq, lookup_insert_eq|by rewrite lookup_alter_ne, lookup_insert_ne].
    + intros k h' Hk. rewrite countCalls_move, Ht by done. cbn. destruct (decide (k = entry)) as [->|N].
      * rewrite lookup_alter_eq, lookup_insert_eq in Hk. cbn in Hk. simplify_eq. cbn. rewrite bool_decide_eq_true_2 by done.
        rewrite countCalls_none; [done|]. apply (unused_resolves _ _ I1). by rewrite lookup_fmap, Hn.
      * rewrite bool_decide_eq_false_2 by done. rewrite lookup_alter_ne, lookup_insert_ne in Hk by done. rewrite (I2 _ _ Hk). cbn. lia.
Qed.

(** The generation a settled entry keeps, and whether the answer was closed instead. *)
Lemma settle_cases active digest entry generation err e :
  let failed := checkResolved digest (generation ≫= λ l, lt_generations e !! l) err in
  (failed = None ∧ settleHistorical active digest entry generation err e = settleEntry entry generation None e) ∨
  (failed ≠ None ∧ (generation = None ∨ generation = Some active) ∧
     settleHistorical active digest entry generation err e = settleEntry entry generation failed e) ∨
  (failed ≠ None ∧ ∃ l, generation = Some l ∧ l ≠ active ∧
     settleHistorical active digest entry generation err e = settleEntry entry None failed (closeAndRecord l e)).
Proof.
  cbv zeta. unfold settleHistorical. destruct (checkResolved _ _ _) as [x|]; [|by left; destruct generation]. right.
  destruct generation as [l|]; [|by left; eauto]. case_bool_decide; subst; [left|right]; eauto.
Qed.
Definition settleTo (generation : option loc) (err : option error) (h : historicalGeneration) : historicalGeneration :=
  h <| hg_generation := generation |> <| hg_err := err |> <| hg_ready := true |>.
Lemma settle_entries e t id gate digest entry : entry_inv e → callAt (lt_calls e) t = Running id gate (Resolving digest entry) →
  ∀ e' g err, lt_historical e' = lt_historical e → lt_calls e' = lt_calls e → lt_entries e' = alter (settleTo g err) entry (lt_entries e) →
  entry_inv (moveTo t (Running id gate (WaitingReady digest entry)) e').
Proof.
  intros [I1 I2] Ht e' g err E1 E2 E3. split; cbn; rewrite ?E1, ?E2, E3.
  - rewrite entry_users_alter by done. apply table_keep; [done|done|by rewrite Ht].
  - intros l h L. rewrite countCalls_move, Ht by done. cbn. destruct (decide (l = entry)) as [->|N].
    + rewrite lookup_alter_eq in L. destruct (lt_entries e !! entry) as [h0|] eqn:L0; [|done]. cbn in L. simplify_eq. cbn.
      rewrite bool_decide_eq_true_2 by done. pose proof (countCalls_pos (resolves entry) (lt_calls e) t eq_refl) as Hp.
      rewrite Ht in Hp. cbn in Hp. rewrite bool_decide_eq_true_2, <-(I2 _ _ L0) in Hp by done. specialize (Hp eq_refl).
      rewrite <-(I2 _ _ L0). destruct (hg_ready h0); cbn in *; lia.
    + rewrite bool_decide_eq_false_2 by done. rewrite lookup_alter_ne in L by done. rewrite (I2 _ _ L). cbn. lia.
Qed.
Lemma resolving_entry e t id gate digest entry : entry_inv e → callAt (lt_calls e) t = Running id gate (Resolving digest entry) →
  ∃ h, lt_entries e !! entry = Some h ∧ hg_ready h = false ∧ 0 < hg_users h.
Proof.
  intros [I1 I2] Ht. pose proof (tb_named _ _ _ _ I1 t digest entry ltac:(by rewrite Ht)) as N.
  destruct (tb_used _ _ _ _ I1 _ _ N) as (u & U & Hu). rewrite lookup_fmap in U. destruct (lt_entries e !! entry) as [h|] eqn:L; [|done].
  cbn in U. simplify_eq. exists h. split; [done|]. split; [|done]. pose proof (countCalls_pos (resolves entry) (lt_calls e) t eq_refl) as Hp.
  rewrite Ht in Hp. cbn in Hp. rewrite bool_decide_eq_true_2, <-(I2 _ _ L) in Hp by done. specialize (Hp eq_refl). by destruct (hg_ready h).
Qed.
Lemma release_entries active e t id gate digest entry last e' : entry_inv e → callAt (lt_calls e) t = Running id gate (Releasing digest entry) →
  releaseHistorical active digest entry e = (last, e') → entry_inv (moveTo t (Running id gate (afterRelease last)) e').
Proof.
  intros [I1 I2] Ht H. pose proof (tb_named _ _ _ _ I1 t digest entry ltac:(by rewrite Ht)) as N.
  destruct (tb_used _ _ _ _ I1 _ _ N) as (u & U & Hu). rewrite lookup_fmap in U. unfold releaseHistorical in H.
  destruct (lt_entries e !! entry) as [h|] eqn:L; [|done]. cbn in U. simplify_eq. split; cbn.
  - rewrite fmap_insert. cbn. apply table_leave; [done|done|by rewrite Ht| |by rewrite lookup_fmap, L].
    unfold heldEntry. cbn. by repeat case_match; simplify_eq.
  - intros l h' L'. rewrite countCalls_move, Ht by done. replace (resolves l (Running id gate _)) with false by (unfold resolves; cbn; by repeat case_match).
    cbn. destruct (decide (l = entry)) as [->|Nl].
    + rewrite lookup_insert_eq in L'. simplify_eq. cbn. rewrite (I2 _ _ L). lia.
    + rewrite lookup_insert_ne in L' by done. rewrite (I2 _ _ L'). lia.
Qed.

(** *** Generations *)

(** Two views of the entries that agree on the generations to close and on which entries are in use. *)
Definition sameEntries (active : loc) (m m' : gmap loc historicalGeneration) : Prop :=
  (∀ l h', m' !! l = Some h' → hg_generation h' = None ∨ (hg_generation h' = Some active ∧ hg_ready h' = true) ∨
     ∃ h, m !! l = Some h ∧ hg_generation h = hg_generation h' ∧ hg_ready h = hg_ready h' ∧ (0 < hg_users h' → 0 < hg_users h)) ∧
  (∀ l h, m !! l = Some h → ∃ h', m' !! l = Some h' ∧ (hg_generation h = None ∨ hg_generation h' = hg_generation h) ∧
     (hg_generation h ≠ None → hg_generation h ≠ Some active → 0 < hg_users h → 0 < hg_users h')).
#[export] Instance sameEntries_refl active : Reflexive (sameEntries active).
Proof. intros m. split; [intros l h L; right; right|intros l h L]; eauto 10. Qed.
Lemma active_known active e : owned_inv active e → is_Some (lt_generations e !! active).
Proof.
  intros Ho. destruct (decide (active ∈ lt_closeLog e)) as [?|N]; [by apply (ow_log_known _ _ Ho)|].
  destruct (ow_active_open _ _ Ho N) as (o & -> & _). eauto.
Qed.

(** Steps that close nothing and move no call onto or off a generation. *)
Lemma owned_frame active e e' t c : owned_inv active e → sameEntries active (lt_entries e) (lt_entries e') →
  lt_generations e' = lt_generations e → lt_closeLog e' = lt_closeLog e → lt_once e' = lt_once e → lt_calls e' = <[t := c]> (lt_calls e) →
  (∀ g, closes g c = closes g (callAt (lt_calls e) t)) →
  (∀ d l g, useOf c = Using d l g → ∃ h, lt_entries e !! l = Some h ∧ hg_generation h = Some g) →
  (∀ g, useOf c ≠ ClosingLast g) → owned_inv active e'.
Proof.
  intros Ho [S1 S2] E2 E3 E4 E5 Hc Hu Hn. pose proof (active_known _ _ Ho) as Ka. destruct Ho as [I1 I2 I3 I4 I5 I6 I7 I8 I9 I10 I11 I12].
  assert (∀ g, countCalls (closes g) (lt_calls e') = countCalls (closes g) (lt_calls e)) as C.
  { intros g. rewrite E5, countCalls_move, Hc by done. lia. }
  assert (∀ g, isOpen e' g ↔ isOpen e g) as Op. { intros g. unfold isOpen. by rewrite E2. }
  assert (∀ l h' g, lt_entries e' !! l = Some h' → hg_generation h' = Some g → (g = active ∧ hg_ready h' = true) ∨
    ∃ h, lt_entries e !! l = Some h ∧ hg_generation h = Some g ∧ hg_ready h = hg_ready h' ∧ (0 < hg_users h' → 0 < hg_users h)) as S3.
  { intros l h' g L G. destruct (S1 _ _ L) as [?|[[? ?]|(h & ? & ? & ? & ?)]]; [congruence|left; split; congruence|].
    right. exists h. split_and!; congruence || done. }
  assert (∀ l g, (∃ h, lt_entries e !! l = Some h ∧ hg_generation h = Some g) → ∃ h, lt_entries e' !! l = Some h ∧ hg_generation h = Some g) as S4.
  { intros l g (h & L & G). destruct (S2 _ _ L) as (h' & L' & G' & _). exists h'. split; [done|]. destruct G'; congruence. }
  split; rewrite ?E2, ?E3, ?E4; intros *; rewrite ?C, ?Op; eauto.
  - intros L R. destruct (hg_generation h) as [g|] eqn:G; [|done]. destruct (S3 _ _ _ L G) as [[_ ?]|(h0 & L0 & G0 & R0 & _)]; [congruence|].
    rewrite <-G0. apply (I1 _ _ L0). congruence.
  - intros L G. destruct (S3 _ _ _ L G) as [[-> _]|(h0 & L0 & G0 & _)]; eauto.
  - intros L1 L2 G1 G2 N. destruct (S3 _ _ _ L1 G1) as [[? _]|(h1' & ? & ? & _)], (S3 _ _ _ L2 G2) as [[? _]|(h2' & ? & ? & _)]; eauto; done.
  - intros L G N U. destruct (S3 _ _ _ L G) as [[? _]|(h0 & L0 & G0 & _ & U0)]; [done|eauto].
  - rewrite E5, callAt_move. case_bool_decide; eauto.
  - rewrite E5, callAt_move. case_bool_decide; [by intros ?%Hn|eauto].
  - intros K N. destruct (I8 _ K N) as [?|[?|(l & h & L & G & U)]]; [auto..|]. destruct (S2 _ _ L) as (h' & L' & G' & U').
    right. right. exists l, h'. split_and!; [done|destruct G'; congruence|apply U'; congruence].
Qed.
Lemma enter_owned active e t id gate new digest entry leader e' : entry_inv e → owned_inv active e →
  callAt (lt_calls e) t = Running id gate NoGeneration → lt_entries e !! new = None → enterHistorical new digest e = (entry, leader, e') →
  owned_inv active (moveTo t (Running id gate ((if leader then Resolving else WaitingReady) digest entry)) e').
Proof.
  intros [I1 _] Ho Ht Hn H.
  assert (lt_generations e' = lt_generations e ∧ lt_closeLog e' = lt_closeLog e ∧ lt_once e' = lt_once e ∧ lt_calls e' = lt_calls e ∧
    sameEntries active (lt_entries e) (lt_entries e')) as (E1 & E2 & E3 & E4 & Hs).
  { unfold enterHistorical in H. destruct (lt_historical e !! digest) as [l|] eqn:L; simplify_eq; cbn; split_and!; try done.
    - destruct (tb_used _ _ _ _ I1 _ _ L) as (u & U & Hu). rewrite lookup_fmap in U. destruct (lt_entries e !! entry) as [h0|] eqn:L0; [|done].
      cbn in U. simplify_eq. split.
      + intros l h'. rewrite lookup_alter_Some. intros [(-> & h & L1 & ->)|[_ L1]]; right; right; simplify_eq; eauto 10.
      + intros l h Lh. destruct (decide (l = entry)) as [->|N]; [rewrite lookup_alter_eq|rewrite lookup_alter_ne by done; eauto].
        simplify_eq. rewrite L0. cbn. eexists. split_and!; [done|by right|]. cbn. lia.
    - split.
      + intros l h'. rewrite lookup_alter_Some. intros [(-> & h & L1 & ->)|[N L1]].
        * rewrite lookup_insert_eq in L1. simplify_eq. by left.
        * rewrite lookup_insert_ne in L1 by done. right. right. eauto 10.
      + intros l h Lh. rewrite lookup_alter_ne, lookup_insert_ne by congruence. eauto 10. }
  eapply owned_frame; [exact Ho|exact Hs|done|done|done|cbn; by rewrite E4|..]; rewrite ?Ht; by destruct leader.
Qed.
Lemma settle_same active m entry h g err : m !! entry = Some h → hg_generation h = None → g = None ∨ g = Some active →
  sameEntries active m (alter (settleTo g err) entry m).
Proof.
  intros L G Hg. split.
  - intros l h'. rewrite lookup_alter_Some. intros [(-> & h0 & L0 & ->)|[_ L0]]; [cbn; destruct Hg as [-> | ->]; auto|right; right; eauto 10].
  - intros l h0 L0. destruct (decide (l = entry)) as [->|N]; [rewrite lookup_alter_eq, L|rewrite lookup_alter_ne by done; eauto 10].
    simplify_eq. cbn. eexists. split_and!; [done|by left|done].
Qed.
Lemma unresolved_owned active e t id gate digest entry generation err : entry_inv e → owned_inv active e →
  callAt (lt_calls e) t = Running id gate (Resolving digest entry) → generation ∈ [None; Some active] →
  owned_inv active (moveTo t (Running id gate (WaitingReady digest entry)) (settleHistorical active digest entry generation err e)).
Proof.
  intros He Ho Ht Hg. destruct (resolving_entry _ _ _ _ _ _ He Ht) as (h & L & R & _). pose proof (ow_unsettled _ _ Ho _ _ L R) as G.
  assert (∃ err', settleHistorical active digest entry generation err e = settleEntry entry generation err' e) as [err' ->].
  { destruct (settle_cases active digest entry generation err e) as [(_ & E)|[(_ & _ & E)|(_ & l & E & N & _)]]; eauto.
    exfalso. subst. rewrite !elem_of_cons, elem_of_nil in Hg. naive_solver. }
  eapply owned_frame; [exact Ho| |done|done|done|done|..]; rewrite ?Ht; [|done..]. cbn. eapply settle_same; [done|done|].
  rewrite !elem_of_cons, elem_of_nil in Hg. naive_solver.
Qed.

(** A generation nobody has seen yet. *)
Lemma fresh_generation active e g : owned_inv active e → lt_generations e !! g = None →
  g ≠ active ∧ (g ∉ lt_closeLog e) ∧ countCalls (closes g) (lt_calls e) = 0 ∧
  ∀ l h, lt_entries e !! l = Some h → hg_generation h ≠ Some g.
Proof.
  intros Ho N. split_and!.
  - intros ->. destruct (active_known _ _ Ho). congruence.
  - intros K%(ow_log_known _ _ Ho). destruct K. congruence.
  - apply countCalls_none. intros t. unfold closes. destruct (useOf _) as [| | | | |g'] eqn:U; try done. apply bool_decide_eq_false. intros ->.
    destruct (ow_closing _ _ Ho _ _ U) as (_ & _ & K). destruct K. congruence.
  - intros l h L G. destruct (ow_known _ _ Ho _ _ _ L G). congruence.
Qed.
Lemma known_insert (m : gmap loc GenerationObject) new o g : is_Some (m !! g) → is_Some (<[new := o]> m !! g).
Proof. intros K. destruct (decide (g = new)) as [->|N]; [rewrite lookup_insert_eq; eauto|by rewrite lookup_insert_ne]. Qed.
Lemma isOpen_insert e e' g new o : isOpen e g → g ≠ new → lt_generations e' = <[new := o]> (lt_generations e) → isOpen e' g.
Proof. intros (o' & L & Hc) N E. exists o'. by rewrite E, lookup_insert_ne. Qed.

(** An unusable answer is closed at once. *)
Lemma owned_discard active e e' new o : owned_inv active e → lt_generations e !! new = None →
  lt_generations e' = <[new := o]> (lt_generations e) → lt_closeLog e' = lt_closeLog e ++ [new] →
  lt_entries e' = lt_entries e → lt_once e' = lt_once e → lt_calls e' = lt_calls e → owned_inv active e'.
Proof.
  intros Ho Hn E1 E2 E3 E4 E5. destruct (fresh_generation _ _ _ Ho Hn) as (Na & Nl & Nc & Ne). destruct Ho as [I1 I2 I3 I4 I5 I6 I7 I8 I9 I10 I11 I12].
  assert (∀ g, g ∈ lt_closeLog e' ↔ g ∈ lt_closeLog e ∨ g = new) as Lg. { intros g. rewrite E2, elem_of_app, list_elem_of_singleton. done. }
  split; rewrite ?E1, ?E3, ?E4, ?E5; intros *; rewrite ?Lg; eauto.
  - intros L G. apply known_insert. eauto.
  - intros L G N U. destruct (I4 _ _ _ L G N U) as (H1 & H2 & H3). assert (g ≠ new) by (intros ->; by eapply Ne). split_and!; [|tauto|done].
    by eapply isOpen_insert.
  - intros U. destruct (I6 _ _ U) as (H1 & H2 & H3). assert (g ≠ new) by (intros ->; destruct H3; congruence). split_and!; [done|tauto|by apply known_insert].
  - intros K N. destruct (decide (g = new)) as [->|N']; [by left; right|]. rewrite lookup_insert_ne in K by done. destruct (I8 _ K N) as [?|[?|?]]; auto.
  - rewrite E2. apply NoDup_app. split_and!; [done| |apply NoDup_singleton]. intros x Hx ->%list_elem_of_singleton. done.
  - intros [K| ->]; [apply known_insert; eauto|rewrite lookup_insert_eq; eauto].
  - rewrite <-I11. naive_solver.
  - intros N. eapply isOpen_insert; [apply I12; tauto|done|done].
Qed.
(** A usable answer belongs to the entry. *)
Lemma owned_adopt active e e' entry h err new o : owned_inv active e → lt_generations e !! new = None → go_closed o = false →
  lt_entries e !! entry = Some h → hg_generation h = None → 0 < hg_users h →
  lt_generations e' = <[new := o]> (lt_generations e) → lt_entries e' = alter (settleTo (Some new) err) entry (lt_entries e) →
  lt_closeLog e' = lt_closeLog e → lt_once e' = lt_once e → lt_calls e' = lt_calls e → owned_inv active e'.
Proof.
  intros Ho Hn Hc L0 G0 U0 E1 E3 E2 E4 E5. destruct (fresh_generation _ _ _ Ho Hn) as (Na & Nl & Nc & Ne). destruct Ho as [I1 I2 I3 I4 I5 I6 I7 I8 I9 I10 I11 I12].
  assert (∀ l h', lt_entries e' !! l = Some h' → (l = entry ∧ h' = settleTo (Some new) err h) ∨ (l ≠ entry ∧ lt_entries e !! l = Some h')) as S1.
  { intros l h'. rewrite E3, lookup_alter_Some. intros [(-> & h0 & ? & ->)|[? ?]]; [left; simplify_eq|right]; auto. }
  assert (∀ l h', lt_entries e !! l = Some h' → l ≠ entry → lt_entries e' !! l = Some h') as S2. { intros l h' Hl N. by rewrite E3, lookup_alter_ne. }
  assert (∀ l h' g, lt_entries e !! l = Some h' → hg_generation h' = Some g → l ≠ entry) as S3. { intros l h' g Hl Hg ->. congruence. }
  split; rewrite ?E1, ?E2, ?E4, ?E5; intros *; eauto.
  - intros [(-> & ->)|[? Hl]]%S1; [done|eauto].
  - intros [(-> & ->)|[? Hl]]%S1; cbn; [intros [= <-]; rewrite lookup_insert_eq; eauto|intros G; apply known_insert; eauto].
  - intros [(-> & ->)|[? Hl1]]%S1 [(-> & ->)|[? Hl2]]%S1; cbn; [done|intros [= <-] G; by destruct (Ne _ _ Hl2)|intros G [= <-]; by destruct (Ne _ _ Hl1)|eauto].
  - intros [(-> & ->)|[? Hl]]%S1; cbn.
    + intros [= <-] _ _. split_and!; [|done..]. exists o. by rewrite E1, lookup_insert_eq.
    + intros G N U. destruct (I4 _ _ _ Hl G N U) as (H1 & H2 & H3). split_and!; [|done..]. eapply isOpen_insert; [done| |done]. intros ->. by eapply Ne.
  - intros U. destruct (I5 _ _ _ _ U) as (h' & Hl & Hg). eauto.
  - intros U. destruct (I6 _ _ U) as (H1 & H2 & H3). split_and!; [done..|by apply known_insert].
  - intros K N. destruct (decide (g = new)) as [->|N'].
    + right. right. exists entry, (settleTo (Some new) err h). split_and!; [|done..]. by rewrite E3, lookup_alter_eq, L0.
    + rewrite lookup_insert_ne in K by done. destruct (I8 _ K N) as [?|[?|(l & h' & Hl & Hg & Hu)]]; [auto..|]. right. right. eauto 10.
  - intros K. apply known_insert. eauto.
  - intros N. eapply isOpen_insert; [apply I12; tauto|done|done].
Qed.
Lemma resolved_owned active e t id gate digest entry new object err : entry_inv e → owned_inv active e →
  callAt (lt_calls e) t = Running id gate (Resolving digest entry) → lt_generations e !! new = None →
  owned_inv active (moveTo t (Running id gate (WaitingReady digest entry))
    (settleHistorical active digest entry (Some new) err (e <| lt_generations := <[new := object]> (lt_generations e) |>))).
Proof.
  intros He Ho Ht Hn. destruct (resolving_entry _ _ _ _ _ _ He Ht) as (h & L & R & Hu). pose proof (ow_unsettled _ _ Ho _ _ L R) as G.
  destruct (fresh_generation _ _ _ Ho Hn) as (Na & _).
  set (e1 := moveTo t (Running id gate (WaitingReady digest entry)) e).
  assert (owned_inv active e1) as Ho1. { eapply owned_frame; [exact Ho|reflexivity|done|done|done|done|..]; rewrite ?Ht; done. }
  destruct (settle_cases active digest entry (Some new) err (e <| lt_generations := <[new := object]> (lt_generations e) |>))
    as [[F E]|[(_ & [?|?] & _)|(F & l & [= <-] & _ & E)]]; [|by simplify_eq..|]; rewrite E; clear E.
  - cbn in F. rewrite lookup_insert_eq in F. cbn in F. unfold checkResolved in F. destruct err; [done|]. destruct (negb _ || go_closed object || _) eqn:B; [done|].
    rewrite !orb_false_iff in B. eapply (owned_adopt active e1 _ entry h None new object); try done. by destruct B as [[_ ?] _].
  - destruct (closeAndRecord_eq new (e <| lt_generations := <[new := object]> (lt_generations e) |>)) as [x ->].
    set (e2 := settleEntry entry None (checkResolved digest (Some new ≫= λ l, lt_generations (e <| lt_generations := <[new := object]> (lt_generations e) |>) !! l) err) e1).
    assert (owned_inv active e2) as Ho2.
    { eapply (owned_frame active e1 e2 t); [exact Ho1|eapply settle_same; [done|done|by left]|done|done|done|..].
      - cbn. by rewrite insert_insert_eq.
      - cbn. by rewrite callAt_move, bool_decide_eq_true_2.
      - done.
      - done. }
    eapply (owned_discard active e2 _ new (closeGeneration object)); try done. cbn. by rewrite alter_insert_eq.
Qed.

(** The last user takes the generation out of its entry. *)
Lemma owned_take active e e' t c entry h g : owned_inv active e → lt_entries e !! entry = Some h → hg_generation h = Some g → g ≠ active →
  0 < hg_users h → lt_entries e' = <[entry := h <| hg_users := 0 |>]> (lt_entries e) → lt_generations e' = lt_generations e →
  lt_closeLog e' = lt_closeLog e → lt_once e' = lt_once e → lt_calls e' = <[t := c]> (lt_calls e) →
  (∀ g, closes g (callAt (lt_calls e) t) = false) → useOf c = ClosingLast g → owned_inv active e'.
Proof.
  intros Ho L0 G0 N0 U0 E1 E2 E3 E4 E5 Hc Hg. destruct (ow_open _ _ Ho _ _ _ L0 G0 N0 U0) as (Q1 & Q2 & Q3). destruct Ho as [I1 I2 I3 I4 I5 I6 I7 I8 I9 I10 I11 I12].
  assert (∀ k, countCalls (closes k) (lt_calls e') = countCalls (closes k) (lt_calls e) + Z.b2z (bool_decide (g = k))) as C.
  { intros k. rewrite E5, countCalls_move, Hc by done. unfold closes at 2. rewrite Hg. cbn. lia. }
  assert (∀ k, isOpen e' k ↔ isOpen e k) as Op. { intros k. unfold isOpen. by rewrite E2. }
  assert (∀ l h', lt_entries e' !! l = Some h' → ∃ h, lt_entries e !! l = Some h ∧ hg_generation h = hg_generation h' ∧ hg_ready h = hg_ready h' ∧
    (0 < hg_users h' → l ≠ entry ∧ 0 < hg_users h)) as S1.
  { intros l h'. rewrite E1, lookup_insert_Some. intros [[<- <-]|[Nl Hl]]; eexists; (split_and!; [done|done|done|]); [done|auto]. }
  split; rewrite ?E2, ?E3, ?E4; intros *; rewrite ?C, ?Op; eauto.
  - intros (h1 & L1 & <- & <- & _)%S1. eauto.
  - intros (h1 & L1 & <- & _ & _)%S1. eauto.
  - intros (k1 & L1 & <- & _)%S1 (k2 & L2 & <- & _)%S1. eauto.
  - intros (h1 & L1 & <- & _ & U1)%S1 G N [Nl U]%U1. destruct (I4 _ _ _ L1 G N U) as (H1 & H2 & H3). split_and!; [done..|]. rewrite H3.
    rewrite bool_decide_eq_false_2; [done|]. intros <-. destruct Nl. by eapply I3.
  - rewrite E5, callAt_move. case_bool_decide; [congruence|]. intros (h1 & L1 & G1)%I5. rewrite E1. destruct (decide (l = entry)) as [->|Nl];
      [rewrite lookup_insert_eq; eexists; split; [done|cbn; congruence]|rewrite lookup_insert_ne by done; eauto].
  - rewrite E5, callAt_move. case_bool_decide; [|eauto]. rewrite Hg. intros [= <-]. split_and!; [done..|eauto].
  - case_bool_decide; cbn; [subst; lia|]. pose proof (I7 g0). lia.
  - intros K N. case_bool_decide as Eg; cbn; [right; left; pose proof (countCalls_nonneg (closes g0) (lt_calls e)); lia|].
    destruct (I8 _ K N) as [?|[?|(l & h1 & L1 & G1 & U1)]]; [auto|right; left; lia|]. right. right. exists l, h1. split_and!; [|done..].
    rewrite E1, lookup_insert_ne; [done|]. intros <-. congruence.
Qed.
Lemma release_owned active e t id gate digest entry last e' : entry_inv e → owned_inv active e →
  callAt (lt_calls e) t = Running id gate (Releasing digest entry) → releaseHistorical active digest entry e = (last, e') →
  owned_inv active (moveTo t (Running id gate (afterRelease last)) e').
Proof.
  intros [I1 _] Ho Ht H. pose proof (tb_named _ _ _ _ I1 t digest entry ltac:(by rewrite Ht)) as N.
  destruct (tb_used _ _ _ _ I1 _ _ N) as (u & U & Hu). rewrite lookup_fmap in U. unfold releaseHistorical in H.
  destruct (lt_entries e !! entry) as [h|] eqn:L; [|done]. cbn in U. simplify_eq.
  destruct (decide (hg_users h - 1 = 0 ∧ hg_generation h ≠ None ∧ hg_generation h ≠ Some active)) as [(Hz & G1 & G2)|Hn].
  - destruct (hg_generation h) as [g|] eqn:G; [|done]. rewrite bool_decide_eq_true_2, bool_decide_eq_false_2 by (done || congruence). cbn [andb negb afterRelease].
    eapply (owned_take active e _ t _ entry h g); try done; [congruence|cbn; by rewrite Hz|by rewrite Ht].
  - assert (sameEntries active (lt_entries e) (<[entry := h <| hg_users := hg_users h - 1 |>]> (lt_entries e))) as Hs.
    { split.
      - intros l k. rewrite lookup_insert_Some. intros [[<- <-]|[_ Lk]]; [|right; right; eauto 10]. right. right. exists h. split_and!; [done..|]. intros _. lia.
      - intros l k Lk. destruct (decide (l = entry)) as [->|Nl]; [rewrite lookup_insert_eq|rewrite lookup_insert_ne by done; eauto 10]. simplify_eq.
        eexists. split_and!; [done|by right|]. cbn. intros ? ?. destruct (decide (hg_users h - 1 = 0)); [tauto|lia]. }
    assert (match hg_generation h with Some l => if bool_decide (hg_users h - 1 = 0) && negb (bool_decide (l = active)) then Some l else None | None => None end = None) as ->.
    { destruct (hg_generation h) as [g|]; [|done]. destruct (_ && _) eqn:B; [|done]. apply andb_true_iff in B as [B1%bool_decide_eq_true B2%negb_true_iff].
      rewrite bool_decide_eq_false in B2. destruct Hn. split_and!; congruence. }
    cbn [afterRelease]. eapply owned_frame; [exact Ho|exact Hs|done|done|done|done|..]; rewrite ?Ht; done.
Qed.

(** A generation that nothing refers to any more is closed. *)
Lemma close_last_owned active e t id gate g : owned_inv active e → callAt (lt_calls e) t = Running id gate (ClosingLast g) →
  owned_inv active (moveTo t (Running id gate NoGeneration) (closeAndRecord g e)).
Proof.
  intros Ho Ht. destruct (closeAndRecord_eq g e) as [x ->]. destruct (ow_closing _ _ Ho t g ltac:(by rewrite Ht)) as (Na & Nl & K).
  assert (∀ k, countCalls (closes k) (<[t := Running id gate NoGeneration]> (lt_calls e)) = countCalls (closes k) (lt_calls e) - Z.b2z (bool_decide (g = k))) as C.
  { intros k. rewrite countCalls_move, Ht by done. cbn. lia. }
  assert (countCalls (closes g) (lt_calls e) = 1) as One.
  { pose proof (ow_closing_one _ _ Ho g). pose proof (countCalls_pos (closes g) (lt_calls e) t eq_refl) as Hp. rewrite Ht in Hp. cbn in Hp.
    rewrite bool_decide_eq_true_2 in Hp by done. specialize (Hp eq_refl). lia. }
  destruct Ho as [I1 I2 I3 I4 I5 I6 I7 I8 I9 I10 I11 I12].
  assert (∀ k, is_Some (alter closeGeneration g (lt_generations e) !! k) ↔ is_Some (lt_generations e !! k)) as Kn. { intros k. apply lookup_alter_is_Some. }
  assert (∀ k, k ≠ g → isOpen e k → isOpen (moveTo t (Running id gate NoGeneration) (e <| lt_generations := alter closeGeneration g (lt_generations e) |>
    <| lt_closeLog := lt_closeLog e ++ [g] |> <| lt_closeErr := x |>)) k) as Op.
  { intros k N (o & Lo & Co). exists o. cbn. by rewrite lookup_alter_ne. }
  assert (∀ k, k ∈ lt_closeLog e ++ [g] ↔ k ∈ lt_closeLog e ∨ k = g) as Lg. { intros k. by rewrite elem_of_app, list_elem_of_singleton. }
  assert (∀ t' u, useOf (callAt (<[t := Running id gate NoGeneration]> (lt_calls e)) t') = u → u ≠ NoGeneration →
    t' ≠ t ∧ useOf (callAt (lt_calls e) t') = u) as Cu. { intros t' u. rewrite callAt_move. case_bool_decide; [by intros <-|done]. }
  split; cbn [moveTo lt_entries lt_generations lt_closeLog lt_once lt_calls setter]; intros *; rewrite ?Kn, ?Lg, ?C; eauto.
  - intros L G N U. destruct (I4 _ _ _ L G N U) as (H1 & H2 & H3). assert (g0 ≠ g) by (intros ->; lia). split_and!; [by apply Op|tauto|].
    rewrite H3, bool_decide_eq_false_2 by done. done.
  - intros [_ Hu]%Cu; [eauto|done].
  - intros [Nt Hu]%Cu; [|done]. destruct (I6 _ _ Hu) as (H1 & H2 & H3). split_and!; [done| |done]. intros [?| ->]; [done|].
    destruct Nt. eapply (countCalls_one (closes g) (lt_calls e)); [done|done|unfold closes; by rewrite Hu, bool_decide_eq_true_2|unfold closes; rewrite Ht; by apply bool_decide_eq_true].
  - pose proof (I7 g0). destruct (bool_decide _); cbn; lia.
  - intros Kg N. destruct (decide (g0 = g)) as [->|N']; [auto|]. rewrite bool_decide_eq_false_2 by done. destruct (I8 _ Kg N) as [?|[?|?]]; [auto| |auto]. right. left. cbn. lia.
  - apply NoDup_app. split_and!; [done| |apply NoDup_singleton]. intros y Hy ->%list_elem_of_singleton. done.
  - intros [?| ->]; eauto.
  - rewrite <-I11. naive_solver.
  - intros N. apply Op; [done|]. apply I12. tauto.
Qed.
Lemma retire_owned active e : gate_inv e → entry_inv e → owned_inv active e → lt_once e = WaitingForCalls → lt_active e = 0 →
  owned_inv active ((closeAndRecord active e) <| lt_once := Retired |>).
Proof.
  intros Hg [J1 _] Ho Hw Ha. destruct (closeAndRecord_eq active e) as [x ->]. rewrite (gi_active _ Hg) in Ha.
  assert (∀ t, callAt (lt_calls e) t = Outside) as Hout.
  { intros t. pose proof (countCalls_zero inCall (lt_calls e) t Ha eq_refl) as Hi. by destruct (callAt (lt_calls e) t). }
  assert (∀ l h, lt_entries e !! l = Some h → ¬ 0 < hg_users h) as Hu.
  { intros l h L. rewrite (tb_count _ _ _ _ J1 l (hg_users h)) by (by rewrite lookup_fmap, L). rewrite countCalls_none; [done|].
    intros t. by rewrite Hout. }
  destruct Ho as [I1 I2 I3 I4 I5 I6 I7 I8 I9 I10 I11 I12].
  assert (∀ k, is_Some (alter closeGeneration active (lt_generations e) !! k) ↔ is_Some (lt_generations e !! k)) as Kn. { intros k. apply lookup_alter_is_Some. }
  assert (∀ k, k ∈ lt_closeLog e ++ [active] ↔ k ∈ lt_closeLog e ∨ k = active) as Lg. { intros k. by rewrite elem_of_app, list_elem_of_singleton. }
  assert (active ∉ lt_closeLog e) as Na. { rewrite I11. congruence. }
  split; cbn; intros *; rewrite ?Kn, ?Lg; eauto.
  - intros L _ _ U. by destruct (Hu _ _ L).
  - by rewrite Hout.
  - intros Kg N. destruct (I8 _ Kg N) as [?|[?|?]]; auto.
  - apply NoDup_app. split_and!; [done| |apply NoDup_singleton]. intros y Hy ->%list_elem_of_singleton. done.
  - intros [?| ->]; [eauto|]. destruct (I12 Na) as (o & -> & _). eauto.
  - split; [done|auto].
  - intros N. tauto.
Qed.

(** *** All together *)
Record lifetime_inv (active : loc) (e : Lifetimes) : Prop := {
  lv_gate : gate_inv e;
  lv_entry : entry_inv e;
  lv_owned : owned_inv active e }.
Lemma start_inv active generation : go_closed generation = false → lifetime_inv active (startLifetimes active generation).
Proof.
  intros Hc. split; split; cbn; try done; intros *; rewrite ?lookup_empty; try done.
  - intros [o [<- _]%lookup_singleton_Some] N. done.
  - apply NoDup_nil_2.
  - by intros ?%elem_of_nil.
  - split; [by intros ?%elem_of_nil|done].
  - intros _. exists generation. split; [apply lookup_singleton_eq|done].
Qed.

(** A step of a call that touches neither gates nor entries nor generations. *)
Ltac frame_entry I Ht := eapply (entry_frame _ _ _ _ I); [done|done|done|rewrite ?Ht; done|rewrite ?Ht; done].
Ltac frame_owned I Ht := eapply (owned_frame _ _ _ _ _ I); [reflexivity|done|done|done|done|rewrite ?Ht; done..].
Ltac frame_gate I Ht := eapply (gate_frame _ _ _ _ I); [done|done|done|done|done|done|rewrite Ht; eauto 10].
Lemma lifetime_step_inv active e e' : lifetime_step active e e' → lifetime_inv active e → lifetime_inv active e'.
Proof.
  intros H [Hg He Ho]. destruct H as [t new id e gate e' Ht Hn H|t id gate e g Ht L Hp|t id gate e Ht|
    t id gate new digest e entry leader e' Ht Hn H|t id gate digest entry generation err e Ht Hgen|
    t id gate digest entry new object err e Ht Hn|t id gate digest entry h g e Ht L R Er G|t id gate digest entry e Ht|
    t id gate digest entry g e Ht|t id gate digest entry last e e' Ht H|t id gate g e Ht|t id gate e Ht|t id gate e Ht|t e Ht|e Hw|e Hw Ha].
  - assert (lt_historical e' = lt_historical e ∧ lt_entries e' = lt_entries e ∧ lt_calls e' = lt_calls e ∧ lt_generations e' = lt_generations e ∧
      lt_closeLog e' = lt_closeLog e ∧ lt_once e' = lt_once e) as (E1 & E2 & E3 & E4 & E5 & E6).
    { unfold beginExecution in H. apply bind_Ok in H as ([] & _ & H). destruct (lt_executions e !! id) eqn:L; cbn in H; rewrite L in H; by simplify_eq. }
    split; [by eapply begin_gates| |].
    + eapply (entry_frame e _ t); [done|done|done|cbn; by rewrite E3|by rewrite Ht|by rewrite Ht].
    + eapply (owned_frame active e _ t); [done|cbn; by rewrite E2|done|done|done|cbn; by rewrite E3|by rewrite Ht|done..].
  - split; [by eapply permit_gates|frame_entry He Ht|frame_owned Ho Ht].
  - split; [by eapply abandon_gates|frame_entry He Ht|frame_owned Ho Ht].
  - split; [|by eapply enter_entries|by eapply enter_owned].
    assert (lt_executions e' = lt_executions e ∧ lt_gates e' = lt_gates e ∧ lt_active e' = lt_active e ∧ lt_closed e' = lt_closed e ∧ lt_once e' = lt_once e ∧
      lt_calls e' = lt_calls e) as (E1 & E2 & E3 & E4 & E5 & E6).
    { unfold enterHistorical in H. destruct (lt_historical e !! digest) eqn:L; by simplify_eq. }
    eapply (gate_frame e _ t); [done|done|done|done|done|done|cbn; by rewrite E6|eauto 10].
  - assert (∃ g' err' e1, settleHistorical active digest entry generation err e = settleEntry entry g' err' e1 ∧ (e1 = e ∨ ∃ l, e1 = closeAndRecord l e))
      as (g' & err' & e1 & E & Hd). { destruct (settle_cases active digest entry generation err e) as [(_ & E)|[(_ & _ & E)|(_ & l & _ & _ & E)]]; eauto 10. }
    split; [| |by eapply unresolved_owned]; rewrite E; destruct Hd as [->|[l ->]]; try destruct (closeAndRecord_eq l e) as [x ->].
    + frame_gate Hg Ht.
    + frame_gate Hg Ht.
    + by eapply (settle_entries e).
    + by eapply (settle_entries e).
  - set (e0 := e <| lt_generations := <[new := object]> (lt_generations e) |>).
    assert (∃ g' err' e1, settleHistorical active digest entry (Some new) err e0 = settleEntry entry g' err' e1 ∧ (e1 = e0 ∨ ∃ l, e1 = closeAndRecord l e0))
      as (g' & err' & e1 & E & Hd). { destruct (settle_cases active digest entry (Some new) err e0) as [(_ & E)|[(_ & _ & E)|(_ & l & _ & _ & E)]]; eauto 10. }
    split; [| |by eapply resolved_owned]; rewrite E; destruct Hd as [->|[l ->]]; try destruct (closeAndRecord_eq l e0) as [x ->].
    + frame_gate Hg Ht.
    + frame_gate Hg Ht.
    + by eapply (settle_entries e).
    + by eapply (settle_entries e).
  - split; [frame_gate Hg Ht|frame_entry He Ht|]. eapply (owned_frame _ _ _ _ _ Ho); [reflexivity|done|done|done|done|by rewrite Ht| |done].
    intros d l g' [= <- <- <-]. eauto.
  - split; [frame_gate Hg Ht|frame_entry He Ht|frame_owned Ho Ht].
  - split; [frame_gate Hg Ht|frame_entry He Ht|frame_owned Ho Ht].
  - split; [|by eapply release_entries|by eapply release_owned]. unfold releaseHistorical in H. destruct (lt_entries e !! entry); simplify_eq; frame_gate Hg Ht.
  - split; [| |by eapply close_last_owned]; destruct (closeAndRecord_eq g e) as [x ->]; [frame_gate Hg Ht|frame_entry He Ht].
  - split; [by eapply drain_gates|frame_entry He Ht|frame_owned Ho Ht].
  - split; [by eapply leave_gates| |]; unfold releaseExecution; destruct (lt_gates e !! gate); [frame_entry He Ht|frame_entry He Ht|frame_owned Ho Ht|frame_owned Ho Ht].
  - split; [by eapply done_gates|frame_entry He Ht|frame_owned Ho Ht].
  - destruct Hg as [G1 G2 G3 G4 G5], He as [E1 E2], Ho as [I1 I2 I3 I4 I5 I6 I7 I8 I9 I10 I11 I12]. split; split; cbn; try done.
    rewrite I11, Hw. done.
  - split; [| |by apply retire_owned]; destruct (closeAndRecord_eq active e) as [x ->].
    + destruct Hg as [G1 G2 G3 G4 G5]. split; cbn; try done. intros _. apply G4. congruence.
    + destruct He as [E1 E2]. by split.
Qed.
Lemma lifetime_reachable_inv active generation e : go_closed generation = false → lifetime_reachable active generation e → lifetime_inv active e.
Proof.
  intros Hc H. pose proof (start_inv active generation Hc) as Hs. unfold lifetime_reachable in H.
  induction H as [|e1 e2 e3 S1 _ IH]; [done|]. apply IH. by eapply lifetime_step_inv.
Qed.

(** ** What callers rely on *)

(** C29: At any interleaving at most one call of [Execute] is past the gate of an execution,
    whichever gate object it entered; no call starts once [Close] has begun, and when
    [Close] has retired the engine no call is under way. *)
Theorem one_call_per_execution active generation e : go_closed generation = false → lifetime_reachable active generation e →
  (∀ t1 t2 id gate1 gate2 use1 use2, callAt (lt_calls e) t1 = Running id gate1 use1 → callAt (lt_calls e) t2 = Running id gate2 use2 → t1 = t2) ∧
  (lt_once e ≠ NotClosing → ∀ new id, ∃ err, beginExecution new id e = Err err) ∧
  (lt_once e = Retired → ∀ t, callAt (lt_calls e) t = Outside).
Proof.
  intros Hc [Hg _ _]%lifetime_reachable_inv; [|done]. split_and!.
  - intros t1 t2 id g1 g2 u1 u2 H1 H2. destruct Hg as [G1 G2 _ _ _].
    pose proof (tb_named _ _ _ _ G1 t1 id g1 ltac:(by rewrite H1)) as N1. pose proof (tb_named _ _ _ _ G1 t2 id g2 ltac:(by rewrite H2)) as N2. assert (g1 = g2) as -> by congruence.
    destruct (tb_used _ _ _ _ G1 _ _ N1) as (u & U & _). rewrite lookup_fmap in U. destruct (lt_gates e !! g2) as [g|] eqn:L; [|done].
    assert (runsIn g2 (callAt (lt_calls e) t1) = true) as R1 by (rewrite H1; by apply bool_decide_eq_true).
    assert (runsIn g2 (callAt (lt_calls e) t2) = true) as R2 by (rewrite H2; by apply bool_decide_eq_true).
    eapply (countCalls_one (runsIn g2)); [done| |exact R1|exact R2]. pose proof (countCalls_pos _ _ _ eq_refl R1). rewrite <-(G2 _ _ L) in *.
    destruct (gt_permit g); cbn in *; lia.
  - intros Hn new id. unfold beginExecution. rewrite (gi_closing _ Hg Hn). cbn. eauto.
  - intros Hr t. pose proof (gi_retired _ Hg Hr) as Ha. rewrite (gi_active _ Hg) in Ha.
    pose proof (countCalls_zero inCall _ t Ha eq_refl) as Hi. by destruct (callAt (lt_calls e) t).
Qed.

(** C7: A call never runs on a closed generation; no generation is closed twice; and when no
    call is under way the engine keeps no gate and no resolution, and every generation
    a resolver handed it has been closed. *)
Theorem generations_are_closed_once active generation e : go_closed generation = false → lifetime_reachable active generation e →
  (∀ t id gate d entry g, callAt (lt_calls e) t = Running id gate (Using d entry g) → isOpen e g) ∧
  NoDup (lt_closeLog e) ∧
  ((∀ t, callAt (lt_calls e) t = Outside) → lt_executions e = ∅ ∧ lt_historical e = ∅ ∧
     ∀ g, is_Some (lt_generations e !! g) → g ≠ active → g ∈ lt_closeLog e).
Proof.
  intros Hc [Hg He Ho]%lifetime_reachable_inv; [|done]. destruct He as [E1 _]. split_and!; [|apply Ho|].
  - intros t id gate d entry g Ht. destruct (ow_using _ _ Ho t d entry g ltac:(by rewrite Ht)) as (h & L & G). destruct (decide (g = active)) as [->|N].
    + apply (ow_active_open _ _ Ho). rewrite (ow_active _ _ Ho). intros Hr%(gi_retired _ Hg). rewrite (gi_active _ Hg) in Hr.
      pose proof (countCalls_zero inCall _ t Hr eq_refl) as Hi. by rewrite Ht in Hi.
    + eapply (ow_open _ _ Ho); [done|done|done|]. rewrite (tb_count _ _ _ _ E1 entry (hg_users h)) by (by rewrite lookup_fmap, L).
      eapply (countCalls_pos _ _ t); [done|]. rewrite Ht. by apply bool_decide_eq_true.
  - intros Hout. assert (∀ f, f Outside = false → countCalls f (lt_calls e) = 0) as Z0. { intros f Hf. apply countCalls_none. intros t. by rewrite Hout. }
    split_and!.
    + apply map_empty. intros n. destruct (lt_executions e !! n) as [l|] eqn:L; [|done]. destruct (tb_used _ _ _ _ (gi_table _ Hg) _ _ L) as (u & U & P).
      rewrite (tb_count _ _ _ _ (gi_table _ Hg) _ _ U), Z0 in P by done. lia.
    + apply map_empty. intros n. destruct (lt_historical e !! n) as [l|] eqn:L; [|done]. destruct (tb_used _ _ _ _ E1 _ _ L) as (u & U & P).
      rewrite (tb_count _ _ _ _ E1 _ _ U), Z0 in P by done. lia.
    + intros g K N. destruct (ow_kept _ _ Ho _ K N) as [?|[P|(l & h & L & _ & P)]]; [done|by rewrite Z0 in P|].
      rewrite (tb_count _ _ _ _ E1 l (hg_users h)), Z0 in P by (done || by rewrite lookup_fmap, L). lia.
Qed.

(** ** A run

    Two calls need the same older generation: one resolves it, both use it, the second to
    leave closes it, and a third call waits for the first at the gate of its execution. *)
Definition demoActive : GenerationObject := mkGenerationObject true "now" [] false None.
Definition demoOld : GenerationObject := mkGenerationObject true "old" [Some None] false None.
Inductive action : Type :=
  | DoBegin (t : nat) (new : loc) (id : string) | DoPermit (t : nat) | DoEnter (t : nat) (new : loc) (digest : string)
  | DoResolve (t : nat) (new : loc) (object : GenerationObject) | DoUse (t : nat) | DoUsed (t : nat) | DoRelease (t : nat)
  | DoClose (t : nat) | DoDrain (t : nat) | DoLeave (t : nat) | DoDone (t : nat).
Definition perform (active : loc) (e : Lifetimes) (a : action) : result Lifetimes :=
  let no := Err (errorf "not enabled") in
  match a with
  | DoBegin t new id =>
      match callAt (lt_calls e) t, lt_gates e !! new with
      | Outside, None => '(gate, e) ← beginExecution new id e; Ok (moveTo t (WaitingPermit id gate) e)
      | _, _ => no
      end
  | DoPermit t =>
      match callAt (lt_calls e) t with
      | WaitingPermit id gate =>
          match lt_gates e !! gate with
          | Some (mkGate false _) => Ok (moveTo t (Running id gate NoGeneration) (setPermit gate true e))
          | _ => no
          end
      | _ => no
      end
  | DoEnter t new digest =>
      match callAt (lt_calls e) t, lt_entries e !! new with
      | Running id gate NoGeneration, None =>
          let '(entry, leader, e) := enterHistorical new digest e in
          Ok (moveTo t (Running id gate ((if leader then Resolving else WaitingReady) digest entry)) e)
      | _, _ => no
      end
  | DoResolve t new object =>
      match callAt (lt_calls e) t, lt_generations e !! new with
      | Running id gate (Resolving digest entry), None =>
          Ok (moveTo t (Running id gate (WaitingReady digest entry))
                (settleHistorical active digest entry (Some new) None (e <| lt_generations := <[new := object]> (lt_generations e) |>)))
      | _, _ => no
      end
  | DoUse t =>
      match callAt (lt_calls e) t with
      | Running id gate (WaitingReady digest entry) =>
          match lt_entries e !! entry with
          | Some (mkHistorical true (Some g) None _) => Ok (moveTo t (Running id gate (Using digest entry g)) e)
          | _ => no
          end
      | _ => no
      end
  | DoUsed t =>
      match callAt (lt_calls e) t with
      | Running id gate (Using digest entry _) => Ok (moveTo t (Running id gate (Releasing digest entry)) e)
      | _ => no
      end
  | DoRelease t =>
      match callAt (lt_calls e) t with
      | Running id gate (Releasing digest entry) =>
          let '(last, e) := releaseHistorical active digest entry e in Ok (moveTo t (Running id gate (afterRelease last)) e)
      | _ => no
      end
  | DoClose t =>
      match callAt (lt_calls e) t with
      | Running id gate (ClosingLast g) => Ok (moveTo t (Running id gate NoGeneration) (closeAndRecord g e))
      | _ => no
      end
  | DoDrain t =>
      match callAt (lt_calls e) t with
      | Running id gate NoGeneration => Ok (moveTo t (Leaving id gate) (setPermit gate false e))
      | _ => no
      end
  | DoLeave t =>
      match callAt (lt_calls e) t with
      | Leaving id gate => Ok (moveTo t Finishing (releaseExecution id gate e))
      | _ => no
      end
  | DoDone t =>
      match callAt (lt_calls e) t with
      | Finishing => Ok (moveTo t Outside (e <| lt_active := lt_active e - 1 |>))
      | _ => no
      end
  end.
Lemma perform_step active e a e' : perform active e a = Ok e' → lifetime_step active e e'.
Proof.
  destruct a; cbn; intros H; repeat case_match; simplify_eq; try (by econstructor; eauto).
  - apply bind_Ok in H as ([gate e1] & H & [= <-]). by econstructor.
  - by eapply (ls_enter _ _ _ _ _ _ _ _ true).
  - by eapply (ls_enter _ _ _ _ _ _ _ _ false).
Qed.
Lemma perform_reachable active generation l e' : foldR (perform active) l (startLifetimes active generation) = Ok e' → lifetime_reachable active generation e'.
Proof.
  intros H. refine (foldR_ind (lifetime_reachable active generation) _ _ _ _ _ _ H); [|apply rtc_refl].
  intros e a e2 _ Hr Hp. eapply rtc_r; [done|]. by eapply perform_step.
Qed.
Definition shared : list action :=
  ([DoBegin 1 1%positive "a"; DoBegin 2 2%positive "b"; DoBegin 3 3%positive "a"; DoPermit 1; DoPermit 2; DoEnter 1 1%positive "old";
    DoEnter 2 2%positive "old"; DoResolve 1 2%positive demoOld; DoUse 2; DoUse 1])%nat.
Definition finishAll : list action :=
  ([DoUsed 1; DoRelease 1; DoDrain 1; DoPermit 3; DoUsed 2; DoLeave 1; DoRelease 2; DoClose 2; DoDrain 3; DoDrain 2; DoLeave 2;
   DoLeave 3; DoDone 1; DoDone 3; DoDone 2])%nat.
Definition lifetimesOf (l : list action) : Lifetimes :=
  match foldR (perform 1%positive) l (startLifetimes 1%positive demoActive) with Ok e => e | Err _ => startLifetimes 1%positive demoActive end.
Definition sharing : Lifetimes := Eval vm_compute in lifetimesOf shared.
Definition finishedAll : Lifetimes := Eval vm_compute in lifetimesOf (shared ++ finishAll).
Lemma sharing_reachable : lifetime_reachable 1%positive demoActive sharing.
Proof. apply (perform_reachable _ _ shared). vm_compute. reflexivity. Qed.
Lemma finishedAll_reachable : lifetime_reachable 1%positive demoActive finishedAll.
Proof. apply (perform_reachable _ _ (shared ++ finishAll)). vm_compute. reflexivity. Qed.
Lemma one_call_per_execution_witness : callAt (lt_calls sharing) 1%nat = Running "a" 1%positive (Using "old" 1%positive 2%positive) ∧ callAt (lt_calls sharing) 3%nat = WaitingPermit "a" 1%positive ∧
  ∀ t gate use, callAt (lt_calls sharing) t = Running "a" gate use → t = 1%nat.
Proof.
  split; [vm_compute; reflexivity|]. split; [vm_compute; reflexivity|]. intros t gate use H.
  exact (proj1 (one_call_per_execution 1%positive demoActive sharing eq_refl sharing_reachable) t 1%nat "a" gate 1%positive use (Using "old" 1%positive 2%positive) H eq_refl).
Defined.
Lemma generations_are_closed_once_witness : isOpen sharing 2%positive ∧ lt_closeLog finishedAll = [2%positive] ∧ lt_executions finishedAll = ∅.
Proof.
  split; [|split; [vm_compute; reflexivity|]].
  - exact (proj1 (generations_are_closed_once 1%positive demoActive sharing eq_refl sharing_reachable) 2%nat "b" 2%positive "old" 1%positive 2%positive eq_refl).
  - refine (proj1 (proj2 (proj2 (generations_are_closed_once 1%positive demoActive finishedAll eq_refl finishedAll_reachable)) _)).
    intros t. unfold callAt. destruct (decide (t = 1%nat)) as [->|N1]; [reflexivity|]. destruct (decide (t = 2%nat)) as [->|N2]; [reflexivity|].
    destruct (decide (t = 3%nat)) as [->|N3]; [reflexivity|]. destruct (lt_calls finishedAll !! t) eqn:E; [|done]. exfalso.
    apply elem_of_dom_2 in E. revert E. replace (dom (lt_calls finishedAll)) with ({[1%nat; 2%nat; 3%nat]} : gset nat) by (vm_compute; reflexivity). set_solver.
Defined.
