(* ===== verification/EngineState.v ===== *)
(** * Execution records as the engine holds them ([runtime/engine_state.go])

    One call of [Execute] against a shared ledger. The engine runs in the setting of the
    dispatcher: before each of its calls other engines and workers may have changed the
    ledger, the store and the fences, and clocks and contexts are readings of the oracle.
    The local record of the execution ([engineExecution]) is passed explicitly. *)

From S2P Require Import Prelude GoText Sha256 Json Workflow Identity Outbox Ledger Ir Types Env Check Value Eval Admission Dispatcher CheckedEnqueue Driver.
From Stdlib Require Import ZArith String.
Local Open Scope list_scope.
Local Open Scope Z_scope.

(** ** Data *)
Definition stateText (s : ExecutionState) : string :=
  match s with
  | ExecutionAdmitting => "admitting"
  | ExecutionAccepted => "accepted"
  | ExecutionRunning => "running"
  | ExecutionCompleted => "completed"
  | ExecutionFailed => "failed"
  | ExecutionBlockedUnknown => "blocked_unknown"
  | ExecutionBlockedFence => "blocked_fence"
  | ExecutionBlockedDependency => "blocked_dependency"
  | ExecutionBlockedCompensation => "blocked_compensation"
  | ExecutionOther text => text
  end.

Inductive WaitMode : Type := WaitAccepted | WaitTerminal | WaitOther (text : string).
#[global] Instance WaitMode_eq_dec : EqDecision WaitMode.
Proof. solve_decision. Defined.

Record ExecuteResult : Type := mkExecuteResult {
  rs_ExecutionID : string;
  rs_GenerationDigest : string;
  rs_State : string;
  rs_DurablyAccepted : bool;
  rs_Completed : bool }.
Definition noResult : ExecuteResult := mkExecuteResult "" "" "" false false.

(** A generation, as the engine uses it. *)
Record LoadedGeneration : Type := mkLoaded {
  ld_source : SourceGeneration;
  ld_ruleset : string;
  ld_version : string;
  ld_digest : string;
  ld_artifact : result ExecutionArtifact;   (* [executionArtifactForGeneration] *)
  ld_closed : bool }.

Record engineExecution : Type := mkEngineExecution {
  ee_record : ExecutionRecord;
  ee_facts : list (string * any);
  ee_selected : option (gset string);
  ee_generation : option LoadedGeneration }.
#[global] Instance eta_engineExecution : Eta engineExecution := λ r,
  mkEngineExecution (ee_record r) (ee_facts r) (ee_selected r) (ee_generation r).

Definition engineResult (record : ExecutionRecord) : ExecuteResult :=
  mkExecuteResult (er_ExecutionID record) (er_GenerationDigest record) (stateText (er_State record))
    (bool_decide (er_State record ≠ ExecutionAdmitting)) (bool_decide (er_State record = ExecutionCompleted)).
Definition engineFailureResult (execution : option engineExecution) : ExecuteResult :=
  match execution with None => noResult | Some x => engineResult (ee_record x) end.

(** [&TerminalExecutionError{State: state, Cause: cause}], by what [errors.Is] finds in it. *)
Definition TerminalExecutionError (state : ExecutionState) (cause : option error) : error :=
  mkError (ErrTerminalExecution :: (if bool_decide (state = ExecutionBlockedDependency) then [ErrBlockedDependency] else [])
             ++ match cause with Some e => err_is e | None => [] end)
    ("execution ended unsuccessfully: " +:+ stateText state +:+
     match cause with Some e => ": " +:+ err_text e | None => "" end).

Definition terminalExecutionResult (record : ExecutionRecord) (wait : WaitMode) (cause : option error)
    : ExecuteResult * option error :=
  if IsTerminalExecutionState (er_State record) then
    if bool_decide (wait = WaitAccepted) || bool_decide (er_State record = ExecutionCompleted)
    then (engineResult record, None)
    else
      let cause := match cause with
                   | Some e => Some e
                   | None => if bool_decide (er_LastError record ≠ "") then Some (errorf (er_LastError record)) else None
                   end in
      (engineResult record, Some (TerminalExecutionError (er_State record) cause))
  else (engineResult record, cause).

Definition adoptExecutionRecord (execution : engineExecution) (next : ExecutionRecord) : result engineExecution :=
  let old := ee_record execution in
  failIf (bool_decide (er_ExecutionID next ≠ er_ExecutionID old) || bool_decide (er_AdmissionIdentity next ≠ er_AdmissionIdentity old)
          || bool_decide (er_GenerationDigest next ≠ er_GenerationDigest old) || bool_decide (er_RequestHash next ≠ er_RequestHash old)
          || bool_decide (er_Ruleset next ≠ er_Ruleset old) || bool_decide (er_Version next ≠ er_Version old)
          || bool_decide (er_TenantNamespace next ≠ er_TenantNamespace old))
    (wrapf ErrIdentityConflict "durable execution identity changed") ;;
  failIf (bool_decide (er_Revision next < er_Revision old)) (wrapf ErrOptimisticConflict "durable revision moved backwards") ;;
  Ok (execution <| ee_record := next |>).

(** [fmt.Errorf("%w: %w", ErrDurableDisposition, err)] *)
Definition disposition (e : error) : error := mkError (ErrDurableDisposition :: err_is e) (err_text e).

(** ** The shared ledger *)
Section EngineState.
  Context {P L : Type} `{FencingProvider P L} (o : Oracle (P := P)).
  Context (otherEngines : nat → InMemoryExecutionLedger → InMemoryExecutionLedger).

Record EngineWorld : Type := mkEngineWorld { ew_world : World (P := P); ew_ledger : InMemoryExecutionLedger }.
Definition erun (A : Type) : Type := EngineWorld → A * EngineWorld.
#[local] Instance erun_ret : MRet erun := λ A a w, (a, w).
#[local] Instance erun_bind : MBind erun := λ A B f m w, let '(a, w) := m w in f a w.

(** A computation of the dispatcher or the driver. *)
Definition onWorld {A} (m : run (P := P) A) : erun A := λ w,
  let '(a, w') := m (ew_world w) in (a, mkEngineWorld w' (ew_ledger w)).
Definition tick (w : World (P := P)) : World (P := P) := mkWorld (S (w_calls w)) (w_store w) (w_provider w) (w_invoked w).
(** An atomic call on the ledger. *)
Definition onLedger {A} (f : nat → InMemoryExecutionLedger → result (A * InMemoryExecutionLedger)) : erun (result A) := λ w,
  let n := w_calls (ew_world w) in
  let ledger := otherEngines n (ew_ledger w) in
  match f n ledger with
  | Ok (a, ledger') => (Ok a, mkEngineWorld (tick (ew_world w)) ledger')
  | Err e => (Err e, mkEngineWorld (tick (ew_world w)) ledger)
  end.
Definition readLedger {A} (f : nat → InMemoryExecutionLedger → result A) : erun (result A) :=
  onLedger (λ n ledger, a ← f n ledger; Ok (a, ledger)).

Definition getExecution (id : string) : erun (result ExecutionRecord) := readLedger (λ n, GetExecution (o_ctx o n) id).

(** An execution and an error that may be nil. *)
Definition held : Type := engineExecution * option error.
Definition adopt (x : engineExecution) (next : ExecutionRecord) : held :=
  match adoptExecutionRecord x next with Ok x => (x, None) | Err e => (x, Some e) end.

Definition refreshExecution (x : engineExecution) (lease : option ExecutionLease) : erun held :=
  next ← getExecution (er_ExecutionID (ee_record x));
  match next with
  | Err e => mret (x, Some e)
  | Ok next =>
      match adoptExecutionRecord x next with
      | Err e => mret (x, Some e)
      | Ok x =>
          if IsTerminalExecutionState (er_State next) then mret (x, None) else
          match lease with
          | None => mret (x, if bool_decide (er_RecoveryToken next ≠ "")
                             then Some (wrapf ErrExecutionBusy "execution has a recovery owner") else None)
          | Some lease =>
              if bool_decide (el_ExecutionID lease ≠ er_ExecutionID next) || bool_decide (el_Owner lease ≠ er_RecoveryOwner next)
                 || bool_decide (el_Token lease = "") || bool_decide (el_Token lease ≠ er_RecoveryToken next)
                 || bool_decide (el_Revision lease ≠ er_Revision next)
              then mret (x, Some (disposition (wrapf ErrStaleExecutionLease "stale execution recovery lease")))
              else
              renewed ← onLedger (λ n, RenewExecutionLease (o_ctx o n) (o_now o n 0) lease Microsecond);
              match renewed with
              | Err e => mret (x, Some (disposition e))
              | Ok _ => ended ← onWorld (contextErr o); mret (x, ended)
              end
          end
      end
  end.

Definition contended (x : engineExecution) : option error :=
  if IsTerminalExecutionState (er_State (ee_record x)) then None
  else if bool_decide (er_RecoveryToken (ee_record x) ≠ "") then Some (wrapf ErrExecutionBusy "execution has a recovery owner")
  else Some (wrapf ErrOptimisticConflict "execution state remained contended").

(** The loop of [commitExecutionState] without a lease. *)
Fixpoint commitLoop (rounds : nat) (x : engineExecution) (state : ExecutionState) (message : string) : erun held :=
  match rounds with
  | O => mret (x, contended x)
  | S rounds =>
      if IsTerminalExecutionState (er_State (ee_record x)) then mret (x, None) else
      if bool_decide (er_RecoveryToken (ee_record x) ≠ "")
      then mret (x, Some (wrapf ErrExecutionBusy "execution has a recovery owner")) else
      updated ← onLedger (λ n, SetExecutionState (o_ctx o n) (o_now o n 0) (er_ExecutionID (ee_record x))
                                 (er_Revision (ee_record x)) state message);
      match updated with
      | Ok updated => mret (adopt x updated)
      | Err e =>
          if negb (errorsIs e ErrOptimisticConflict) then mret (x, Some e) else
          current ← getExecution (er_ExecutionID (ee_record x));
          match current with
          | Err e => mret (x, Some e)
          | Ok current =>
              match adoptExecutionRecord x current with
              | Err e => mret (x, Some e)
              | Ok x => commitLoop rounds x state message
              end
          end
      end
  end.

Definition commitExecutionState (x : engineExecution) (state : ExecutionState) (message : string) (lease : option ExecutionLease)
    : erun held :=
  match lease with
  | None => commitLoop 3 x state message
  | Some lease =>
      let next := if IsTerminalExecutionState state then state else ExecutionOther "" in
      finished ← onLedger (λ n ledger, ledger ← FinishExecutionLease (o_ctx o n) (o_now o n 0) (o_now o n 1) lease next message ledger;
                                       Ok (tt, ledger));
      match finished with
      | Err e =>
          if errorsIs e ErrStaleExecutionLease then
            current ← getExecution (er_ExecutionID (ee_record x));
            match current with
            | Ok current => if IsTerminalExecutionState (er_State current) then mret (adopt x current) else mret (x, Some (disposition e))
            | Err _ => mret (x, Some (disposition e))
            end
          else mret (x, Some (disposition e))
      | Ok _ =>
          updated ← getExecution (er_ExecutionID (ee_record x));
          match updated with
          | Err e => mret (x, Some (disposition e))
          | Ok updated => mret (adopt x updated)
          end
      end
  end.

(** ** The outcome of the sagas *)
Definition sagaOutcome (s : SagaState) : option (ExecutionState * Z) :=
  match s with
  | SagaBlockedUnknown => Some (ExecutionBlockedUnknown, 4)
  | SagaBlockedFence => Some (ExecutionBlockedFence, 3)
  | SagaBlockedDependency => Some (ExecutionBlockedDependency, 2)
  | SagaBlockedCompensation => Some (ExecutionBlockedCompensation, 1)
  | _ => None
  end.
Definition sagaFailed (s : SagaState) : bool := match s with SagaFailed | SagaCompensated => true | _ => false end.

(** The loop of [executionFailureState]: the worst blocked state so far with its rank, and
    whether a saga has failed. *)
Fixpoint failureLoop (blocked : ExecutionState * Z) (failed : bool) (plans : list ExecutionPlanRecord)
    : erun (result (ExecutionState * Z * bool)) :=
  match plans with
  | [] => mret (Ok (blocked, failed))
  | plan :: plans =>
      saga ← onWorld (readStore o (λ n, GetSaga (o_ctx o n) (pr_SagaID plan)));
      match saga with
      | Err e => mret (Err e)
      | Ok saga =>
          let failed := failed || sagaFailed (sg_State saga) in
          let '(candidate, rank) := default (ExecutionOther "", 0) (sagaOutcome (sg_State saga)) in
          failureLoop (if bool_decide (blocked.2 < rank) then (candidate, rank) else blocked) failed plans
      end
  end.
Definition executionFailureState (x : engineExecution) : erun (ExecutionState * option error) :=
  r ← failureLoop (ExecutionOther "", 0) false (er_Plans (ee_record x));
  mret (match r with
        | Err e => (er_State (ee_record x), Some e)
        | Ok (blocked, rank, failed) =>
            if bool_decide (0 < rank) then (blocked, None)
            else if (failed : bool) then (ExecutionFailed, None)
            else (er_State (ee_record x), None)
        end).

Definition failureStateRank (state : ExecutionState) : Z :=
  match state with
  | ExecutionBlockedUnknown => 5
  | ExecutionBlockedFence => 4
  | ExecutionBlockedDependency => 3
  | ExecutionBlockedCompensation => 2
  | ExecutionFailed => 1
  | _ => 0
  end.

Definition finalizeStoppedExecution (x : engineExecution) (desired : ExecutionState) : erun (ExecutionState * option error) :=
  finalized ← onWorld (writeStore o (λ n, FinalizeStoppedExecution (o_ctx o n) (o_now o n 0) (er_ExecutionID (ee_record x))));
  match finalized with
  | Err e => mret (er_State (ee_record x), Some e)
  | Ok _ =>
      '(observed, err) ← executionFailureState x;
      mret (match err with
            | Some e => (er_State (ee_record x), Some e)
            | None => if bool_decide (failureStateRank desired < failureStateRank observed) then (observed, None) else (desired, None)
            end)
  end.
End EngineState.
