(* ===== verification/Engine.v ===== *)
(** * The engine ([runtime/engine.go], [runtime/engine_identity.go])

    [Execute]: admission or resumption of an execution, the choice of its generation, the
    driver, and the durable disposition of what the driver reports. Waiting at the gate of
    an execution and sharing resolutions between calls are in [Lifetime]; here their
    outcome is the argument [begin] and the answer of the resolver. The observer is told
    the result and changes nothing.

    [decodeIdentity] and [decodeEnvironment] are [encoding/json] decoding of the function
    manifest and of the environment of a pinned artifact into their Go structs. *)

From S2P Require Import Prelude GoText Sha256 Json Workflow Identity Outbox Ledger Ir Types Env Check Value Eval Admission Dispatcher CheckedEnqueue Driver EngineState.
From Stdlib Require Import ZArith String.
Local Open Scope list_scope.
Local Open Scope Z_scope.

#[global] Instance eta_AdmissionRequest : Eta AdmissionRequest := λ r,
  mkAdmissionRequest (ad_ExecutionID r) (ad_AdmissionID r) (ad_TenantNamespace r) (ad_Ruleset r) (ad_Version r) (ad_Facts r)
    (ad_MergePolicy r) (ad_ExpectedGenerationDigest r).

Definition prepareAdmission (input : AdmissionRequest) : result AdmissionRequest :=
  let owned := mkAdmissionRequest (TrimSpace (ad_ExecutionID input)) (TrimSpace (ad_AdmissionID input))
    (TrimSpace (ad_TenantNamespace input)) (TrimSpace (ad_Ruleset input)) (TrimSpace (ad_Version input)) (ad_Facts input)
    (TrimSpace (ad_MergePolicy input)) (ad_ExpectedGenerationDigest input) in
  failIf (bool_decide (ad_ExecutionID owned = "") || bool_decide (ad_TenantNamespace owned = ""))
    (wrapf ErrInvalidExecuteRequest "stable execution ID and tenant namespace are required") ;;
  let owned := if bool_decide (ad_MergePolicy owned = "") then owned <| ad_MergePolicy := "merge" |> else owned in
  failIf (bool_decide (ad_MergePolicy owned ≠ "merge") && bool_decide (ad_MergePolicy owned ≠ "replace"))
    (wrapf ErrInvalidExecuteRequest "unsupported fact merge policy") ;;
  Ok owned.

Definition admissionIdentity (admission : AdmissionRequest) : string :=
  if bool_decide (ad_AdmissionID admission ≠ "") then ad_AdmissionID admission else ad_ExecutionID admission.

(** Undeclared intermediate objects are redundant in the identity of an admission. *)
Definition redundantFact (environment : Environment) (fact : string * any) : bool :=
  match env_Facts environment !! fact.1, fact.2 with
  | None, AMap (_ :: _) => true
  | _, _ => false
  end.

Record ExecuteRequest : Type := mkExecuteRequest {
  xr_Admission : option AdmissionRequest;
  xr_ResumeExecutionID : string;
  xr_WaitMode : WaitMode;
  xr_RecoveryLease : option ExecutionLease }.
Definition invalidRequest (text : string) : error := wrapf ErrInvalidExecuteRequest text.

(** The checks of [Execute] before it enters the gate: the wait mode and the execution. *)
Definition checkRequest (request : ExecuteRequest) : result (WaitMode * string) :=
  let wait := if bool_decide (xr_WaitMode request = WaitOther "") then WaitTerminal else xr_WaitMode request in
  failIf (bool_decide (wait ≠ WaitAccepted) && bool_decide (wait ≠ WaitTerminal)) (invalidRequest "unknown wait mode") ;;
  let id := TrimSpace (xr_ResumeExecutionID request) in
  failIf (Bool.eqb (bool_decide (xr_Admission request = None)) (bool_decide (id = "")))
    (invalidRequest "set exactly one of admission or resume execution ID") ;;
  failIf (match xr_RecoveryLease request with
          | Some lease => bool_decide (xr_Admission request ≠ None) || bool_decide (wait ≠ WaitTerminal)
                          || bool_decide (el_ExecutionID lease ≠ id)
          | None => false
          end) (invalidRequest "recovery leases require terminal resume of the same execution") ;;
  Ok (wait, match xr_Admission request with Some a => TrimSpace (ad_ExecutionID a) | None => id end).

Definition selectedExecutionHasSteps (x : engineExecution) : bool :=
  match ee_generation x with
  | None => false
  | Some g => existsb (λ plan, bool_decide (pl_Id plan ∈ default ∅ (ee_selected x)) && bool_decide (pl_Steps plan ≠ []))
                (ch_Plans (sn_checked (ld_source g)))
  end.

(** [errors.Join] of errors that may be nil. *)
Fixpoint joinErrors (es : list (option error)) : option error :=
  match es with
  | [] => None
  | None :: es => joinErrors es
  | Some e :: es => Some (match joinErrors es with Some e' => errorsJoin e e' | None => e end)
  end.
Definition contextEnded (e : error) : bool := errorsIs e ErrCanceled || errorsIs e ErrDeadlineExceeded.

Section Engine.
  Context {P L : Type} `{FencingProvider P L} (o : Oracle (P := P)).
  Context (otherEngines : nat → InMemoryExecutionLedger → InMemoryExecutionLedger).
  Context (formatFloat : spec_float → string) (matchString : string → string → result bool).
  Context (decodeIdentity : string → result (string * string)) (decodeEnvironment : string → result Environment).

(** The fields of [Engine] that [Execute] reads. An atomic store admits an execution with
    its sagas and first intents in one transaction on ledger and outbox. *)
Record EngineConfig : Type := mkEngineConfig {
  en_generation : LoadedGeneration;
  en_workflow : bool;   (* is an outbox store configured? *)
  en_options : DispatcherOptions;
  en_resolver : option (nat → ExecutionArtifact → option LoadedGeneration * option error);
  en_atomic : option (nat → DurableAdmission → InMemoryExecutionLedger → InMemoryOutboxStore →
                      result (ExecutionRecord * bool * InMemoryExecutionLedger * InMemoryOutboxStore)) }.
  Context (engine : EngineConfig).
  #[local] Existing Instance erun_ret.
  #[local] Existing Instance erun_bind.
  #[local] Abbreviation erun := (erun (P := P)).
  #[local] Abbreviation onLedger := (onLedger (P := P) otherEngines).
  #[local] Abbreviation readLedger := (readLedger (P := P) otherEngines).
  #[local] Abbreviation commit := (commitExecutionState o otherEngines).

Definition semanticAdmissionHash (admission : AdmissionRequest) (environment : Environment) : result string :=
  match normalizedWorkflowFacts formatFloat environment (ad_Facts admission) with
  | Err e => Err (mkError (ErrInvalidExecuteRequest :: err_is e) (err_text e))
  | Ok facts =>
      admissionHash formatFloat (admission <| ad_Facts := List.filter (λ f, negb (redundantFact environment f)) facts |>)
  end.

Definition validateArtifactIdentity (record : ExecutionRecord) (artifact : ExecutionArtifact) : result unit :=
  match decodeIdentity (ar_FunctionManifest artifact) with
  | Err _ => Err (wrapf ErrGenerationMismatch "invalid pinned identity")
  | Ok (ruleset, version) =>
      failIf (bool_decide (ar_GenerationDigest artifact ≠ er_GenerationDigest record) || bool_decide (ruleset ≠ er_Ruleset record)
              || bool_decide (version ≠ er_Version record))
        (wrapf ErrGenerationMismatch "durable record labels do not match its pinned artifact")
  end.

(** The part of [matchReplay] after the pinned artifact has been read. *)
Definition matchPinned (admission : AdmissionRequest) (record : ExecutionRecord) (artifact : ExecutionArtifact) : result unit :=
  let blocked text := Err (wrapf ErrBlockedDependency text) in
  validateArtifactIdentity record artifact ;;
  match decodeEnvironment (ar_Environment artifact) with
  | Err e => blocked (err_text e)
  | Ok environment =>
      hash ← semanticAdmissionHash admission environment;
      if bool_decide (er_RequestHash record = hash) then Ok tt else
      match decodeExecutionFacts (er_EffectiveFacts record) with
      | Err e => blocked (err_text e)
      | Ok frozen =>
          match semanticAdmissionHash (admission <| ad_Facts := frozen |>) environment with
          | Err _ => blocked "invalid frozen facts"
          | Ok oldHash => failIf (bool_decide (hash ≠ oldHash)) (wrapf ErrIdentityConflict "admission identity")
          end
      end
  end.
Definition matchReplay (admission : AdmissionRequest) (record : ExecutionRecord) : erun (result unit) :=
  if bool_decide (ad_ExpectedGenerationDigest admission ≠ "")
     && bool_decide (ad_ExpectedGenerationDigest admission ≠ er_GenerationDigest record)
  then mret (Err (wrapf ErrGenerationMismatch "engine generation mismatch")) else
  if bool_decide (er_ExecutionID record ≠ ad_ExecutionID admission)
     || bool_decide (er_AdmissionIdentity record ≠ admissionIdentity admission)
     || bool_decide (er_TenantNamespace record ≠ ad_TenantNamespace admission)
     || bool_decide (er_Ruleset record ≠ ad_Ruleset admission) || bool_decide (er_Version record ≠ ad_Version admission)
  then mret (Err (wrapf ErrIdentityConflict "admission identity")) else
  let policy := if bool_decide (er_MergePolicy record = "") then "merge" else er_MergePolicy record in
  if bool_decide (policy ≠ ad_MergePolicy admission) then mret (Err (wrapf ErrIdentityConflict "identity conflict")) else
  artifact ← readLedger (λ n, GetArtifact (o_ctx o n) (er_GenerationDigest record));
  mret (match artifact with
        | Err e => if contextEnded e then Err e else Err (wrapf ErrBlockedDependency "read pinned artifact")
        | Ok artifact => matchPinned admission record artifact
        end).

(** An execution and an error, either of which may be nil. *)
Definition loaded : Type := option engineExecution * option error.
Definition bare (record : ExecutionRecord) : engineExecution := mkEngineExecution record [] None None.
Definition blockDependency (x : engineExecution) (cause : error) : loaded :=
  (Some x, Some (if contextEnded cause then cause else wrapf ErrBlockedDependency (err_text cause))).

(** [acquireHistorical], as the call that waits for the resolution sees it. *)
Definition acquireHistorical (artifact : ExecutionArtifact) : erun (result LoadedGeneration) := λ w,
  let n := w_calls (ew_world w) in
  let mismatch := errorf "resolved generation does not match the pinned executable artifact" in
  let answer := match en_resolver engine with
                | None => Err (errorf "no immutable artifact resolver is configured")
                | Some resolve =>
                    match resolve n artifact with
                    | (_, Some e) => Err e
                    | (None, None) => Err mismatch
                    | (Some g, None) =>
                        if ld_closed g || bool_decide (ld_digest g ≠ ar_GenerationDigest artifact) then Err mismatch else Ok g
                    end
                end in
  (match o_ctx o n with Some e => Err e | None => answer end, mkEngineWorld (tick (ew_world w)) (ew_ledger w)).

Definition withGeneration (record : ExecutionRecord) (facts : list (string * any)) (selected : option (gset string))
    (g : LoadedGeneration) : loaded :=
  if bool_decide (ld_ruleset g ≠ er_Ruleset record) || bool_decide (ld_version g ≠ er_Version record)
  then (Some (bare record), Some (wrapf ErrGenerationMismatch "engine generation mismatch"))
  else (Some (mkEngineExecution record facts selected (Some g)), None).
Definition loadExecutionRecord (record : ExecutionRecord) (resolve : bool) : erun loaded :=
  if negb resolve || IsTerminalExecutionState (er_State record) then mret (Some (bare record), None) else
  match decodeExecutionFacts (er_EffectiveFacts record) with
  | Err e => mret (None, Some e)
  | Ok facts =>
      let selected := Some (list_to_set (pr_PlanID <$> er_Plans record)) in
      let x := mkEngineExecution record facts selected None in
      if bool_decide (ld_digest (en_generation engine) = er_GenerationDigest record)
      then mret (withGeneration record facts selected (en_generation engine)) else
      artifact ← readLedger (λ n, GetArtifact (o_ctx o n) (er_GenerationDigest record));
      match artifact with
      | Err e => mret (blockDependency x e)
      | Ok artifact =>
          match validateArtifactIdentity record artifact with
          | Err e => mret (Some (bare record), Some e)
          | Ok _ =>
              g ← acquireHistorical artifact;
              mret (match g with
                    | Err e => blockDependency x e
                    | Ok g => withGeneration record facts selected g
                    end)
          end
      end
  end.
Definition loadExecution (id : string) (resolve : bool) : erun loaded :=
  record ← getExecution o otherEngines id;
  match record with
  | Err e => mret (None, Some (if errorsIs e ErrExecutionNotFound then wrapf ErrEngineExecutionNotFound "engine execution not found" else e))
  | Ok record => loadExecutionRecord record resolve
  end.

(** The execution, whether this call created it, whether it was admitted atomically, and the
    error. *)
Definition admission : Type := option engineExecution * bool * bool * option error.
Definition refused (e : error) : admission := (None, false, false, Some e).
(** A record that exists already: it must match, and is loaded. *)
Definition replay (request : AdmissionRequest) (record : ExecutionRecord) (atomic resolve : bool) : erun admission :=
  matched ← matchReplay request record;
  match matched with
  | Err e => mret (Some (bare record), false, atomic, Some e)
  | Ok _ => '(x, err) ← loadExecutionRecord record resolve; mret (x, false, atomic, err)
  end.

(** The write: one transaction when the store supports it, else artifact and record in turn. *)
Definition persistAdmission (durable : DurableAdmission) : erun (result (ExecutionRecord * bool)) :=
  match en_atomic engine with
  | Some admitAtomic => λ w,
      let n := w_calls (ew_world w) in
      let store := o_others o n (w_store (ew_world w)) in
      let ledger := otherEngines n (ew_ledger w) in
      let world s := mkWorld (S n) s (w_provider (ew_world w)) (w_invoked (ew_world w)) in
      match admitAtomic n durable ledger store with
      | Ok (record, created, ledger', store') => (Ok (record, created), mkEngineWorld (world store') ledger')
      | Err e => (Err e, mkEngineWorld (world store) ledger)
      end
  | None =>
      put ← onLedger (λ n ledger, ledger ← PutArtifact (o_ctx o n) (o_now o n 0) (da_Artifact durable) ledger; Ok (tt, ledger));
      match put with
      | Err e => mret (Err e)
      | Ok _ => onLedger (λ n, AdmitExecution (o_ctx o n) (o_now o n 0) durable)
      end
  end.

(** What an admission reads of the active generation. *)
Definition admissionGeneration (g : LoadedGeneration) : Generation :=
  mkGeneration (sn_environment (ld_source g)) (ch_Plans (sn_checked (ld_source g))) (ch_Digest (sn_checked (ld_source g))) (ld_artifact g).

Definition admitNew (request : AdmissionRequest) (resolve : bool) : erun admission :=
  let generation := en_generation engine in
  if negb (en_workflow engine) then mret (refused (errorf "checked durable workflow is not configured")) else
  if bool_decide (ad_Ruleset request ≠ ld_ruleset generation) || bool_decide (ad_Version request ≠ ld_version generation)
     || (bool_decide (ad_ExpectedGenerationDigest request ≠ "") && bool_decide (ad_ExpectedGenerationDigest request ≠ ld_digest generation))
  then mret (refused (wrapf ErrGenerationMismatch "engine generation mismatch")) else
  match semanticAdmissionHash request (sn_environment (ld_source generation)) with
  | Err e => mret (refused e)
  | Ok hash =>
      ctx ← onWorld (contextErr o);
      match buildDurableAdmission formatFloat matchString ctx (Some (admissionGeneration generation)) request hash with
      | Err e => mret (refused e)
      | Ok (durable, selected, facts) =>
          if bool_decide (ad_ExpectedGenerationDigest request ≠ "")
             && bool_decide (ad_ExpectedGenerationDigest request ≠ ar_GenerationDigest (da_Artifact durable))
          then mret (refused (wrapf ErrGenerationMismatch "engine generation mismatch")) else
          let atomic := bool_decide (is_Some (en_atomic engine)) in
          admitted ← persistAdmission durable;
          match admitted with
          | Err e =>
              if errorsIs e ErrIdentityConflict || errorsIs e PostgresConcurrency then
                existing ← readLedger (λ n, GetExecutionByAdmission (o_ctx o n) (er_AdmissionIdentity (da_Execution durable)));
                match existing with
                | Ok existing => replay request existing atomic resolve
                | Err _ => mret (None, false, atomic, Some (if errorsIs e ErrIdentityConflict then wrapf ErrIdentityConflict (err_text e) else e))
                end
              else mret (None, false, atomic, Some e)
          | Ok (record, false) => replay request record atomic resolve
          | Ok (record, true) =>
              mret (Some (mkEngineExecution record facts (Some (list_to_set selected)) (Some generation)), true, atomic, None)
          end
      end
  end.

Definition admitRequest (input : AdmissionRequest) (resolve : bool) : erun admission :=
  match prepareAdmission input with
  | Err e => mret (refused e)
  | Ok request =>
      existing ← readLedger (λ n, GetExecutionByAdmission (o_ctx o n) (admissionIdentity request));
      match existing with
      | Ok existing => replay request existing false resolve
      | Err e => if errorsIs e ErrExecutionNotFound then admitNew request resolve else mret (refused e)
      end
  end.

(** ** Execute *)
Definition outcome : Type := ExecuteResult * option error.
Definition disposeErr (err : error) (disposed : option error) (record : ExecutionRecord) (wait : WaitMode) : outcome :=
  match disposed with
  | Some d => (engineResult record, joinErrors [Some err; Some (if errorsIs d ErrActiveDispatchLease then d else disposition d)])
  | None => terminalExecutionResult record wait (Some err)
  end.
(** [persistExecutionState] of a stopped execution and what is reported. *)
Definition persistStopped (x : engineExecution) (state : ExecutionState) (err : error) (disposed : option error) (wait : WaitMode)
    (lease : option ExecutionLease) : erun outcome :=
  '(x, persist) ← commit x state (err_text err) lease;
  mret (match persist with
        | Some p => (engineResult (ee_record x), joinErrors [Some err; disposed; Some (disposition p)])
        | None => disposeErr err disposed (ee_record x) wait
        end).

(** The execution could not be loaded. *)
Definition executeUnloaded (x : option engineExecution) (err : error) (wait : WaitMode) (lease : option ExecutionLease) : erun outcome :=
  let block := negb (contextEnded err) && errorsIs err ErrBlockedDependency in
  let releaseLease := contextEnded err && bool_decide (lease ≠ None) in
  match x with
  | Some x =>
      if (block || releaseLease) && bool_decide (wait = WaitTerminal) && negb (IsTerminalExecutionState (er_State (ee_record x))) then
        '(state, disposed) ← if block then finalizeStoppedExecution o x ExecutionBlockedDependency else mret (er_State (ee_record x), None);
        persistStopped x state err disposed wait lease
      else mret (engineResult (ee_record x), Some err)
  | None => mret (engineFailureResult None, Some err)
  end.

(** The driver has stopped with an error. *)
Definition executeFailed (x : engineExecution) (err : error) (wait : WaitMode) (lease : option ExecutionLease) : erun outcome :=
  '(state, disposed) ← (if errorsIs err ErrBlockedDependency then mret (ExecutionBlockedDependency, None)
                        else executionFailureState o x);
  '(state, disposed) ← (if bool_decide (disposed = None) && IsTerminalExecutionState state
                        then finalizeStoppedExecution o x state else mret (state, disposed));
  let state := if bool_decide (disposed ≠ None) then er_State (ee_record x) else state in
  persistStopped x state err disposed wait lease.

(** The driver, for an execution this call may run: [None] while it is running. *)
Definition drive (fuel : nat) (x : engineExecution) (wait : WaitMode) (lease : option ExecutionLease) : erun (option outcome) :=
  match ee_generation x with
  | None => mret (Some (engineResult (ee_record x), Some (wrapf ErrBlockedDependency "generation")))
  | Some generation =>
      '(x, err) ← (if bool_decide (wait = WaitTerminal) && bool_decide (er_State (ee_record x) = ExecutionAccepted)
                      && bool_decide (lease = None)
                   then commit x ExecutionRunning "" None else mret (x, None));
      match err with
      | Some e => mret (Some (engineResult (ee_record x), Some e))
      | None =>
          if bool_decide (wait = WaitTerminal) && IsTerminalExecutionState (er_State (ee_record x))
          then mret (Some (terminalExecutionResult (ee_record x) wait None)) else
          ran ← onWorld (executeCheckedWorkflow o formatFloat matchString (ld_source generation) (en_options engine) fuel
                  (er_TenantNamespace (ee_record x)) (er_ExecutionID (ee_record x)) (ee_facts x) (ee_selected x)
                  (bool_decide (wait = WaitAccepted)));
          match ran with
          | None => mret None
          | Some (Err err) => r ← executeFailed x err wait lease; mret (Some r)
          | Some (Ok _) =>
              '(x, err) ← (if bool_decide (wait = WaitTerminal) then commit x ExecutionCompleted "" lease else mret (x, None));
              mret (Some (match err with
                          | Some e => (engineResult (ee_record x), Some e)
                          | None => terminalExecutionResult (ee_record x) wait None
                          end))
          end
      end
  end.

(** An execution that has been loaded or admitted. *)
Definition executeLoaded (fuel : nat) (x : engineExecution) (created atomic : bool) (wait : WaitMode) (lease : option ExecutionLease)
    : erun (option outcome) :=
  if IsTerminalExecutionState (er_State (ee_record x)) then mret (Some (terminalExecutionResult (ee_record x) wait None)) else
  if bool_decide (wait = WaitAccepted) && (negb created || atomic) then mret (Some (engineResult (ee_record x), None)) else
  '(x, err) ← refreshExecution o otherEngines x lease;
  match err with
  | Some e => mret (Some (engineResult (ee_record x), Some e))
  | None =>
      if IsTerminalExecutionState (er_State (ee_record x)) then mret (Some (terminalExecutionResult (ee_record x) wait None)) else
      if created && negb (selectedExecutionHasSteps x) then
        '(x, err) ← commit x ExecutionCompleted "" lease;
        mret (Some (match err with
                    | Some e => (engineResult (ee_record x), Some e)
                    | None => terminalExecutionResult (ee_record x) wait None
                    end))
      else drive fuel x wait lease
  end.

(** [begin] is the error [beginExecution] returns, if any. *)
Definition Execute (fuel : nat) (begin : option error) (request : ExecuteRequest) : erun (option outcome) :=
  match checkRequest request with
  | Err e => mret (Some (noResult, Some e))
  | Ok (wait, id) =>
      match begin with
      | Some e => mret (Some (noResult, Some e))
      | None =>
          let resolve := bool_decide (wait = WaitTerminal) in
          '(x, created, atomic, err) ←
            match xr_Admission request with
            | Some a => admitRequest a resolve
            | None => '(x, err) ← loadExecution id resolve; mret (x, false, false, err)
            end;
          match err, x with
          | Some err, _ => r ← executeUnloaded x err wait (xr_RecoveryLease request); mret (Some r)
          | None, Some x => executeLoaded fuel x created atomic wait (xr_RecoveryLease request)
          | None, None => mret (Some (noResult, None))   (* a loader without an error returns an execution *)
          end
      end
  end.
End Engine.
