(* ===== verification/EngineRuns.v ===== *)
(** * Runs of the engine

    The proof rules for computations of the engine: what one call does to the shared ledger
    and the shared store while other engines and workers use them, and what the local copy
    of the execution record is worth. *)

From S2P Require Import Prelude GoText Sha256 Json Workflow Identity Outbox OutboxInv OutboxDyn OutboxOps OutboxClose OutboxGrowth OutboxClient Ledger LedgerProps Ir Types Env Check Value Eval Admission Dispatcher DispatcherProps CheckedEnqueue Driver DriverProps EngineState Engine.
From Stdlib Require Import ZArith String.
Local Open Scope list_scope.
Local Open Scope Z_scope.

Definition planIDs (r : ExecutionRecord) : list string := pr_PlanID <$> er_Plans r.
Definition stateIn (T : ExecutionState → Prop) (id : string) (l : InMemoryExecutionLedger) : Prop :=
  ∃ r, lg_executions l !! id = Some r ∧ T (er_State r).

Section Runs.
  Context {P L : Type} `{FencingProvider P L} (o : Oracle (P := P)).
  Context (otherEngines : nat → InMemoryExecutionLedger → InMemoryExecutionLedger).
  #[local] Existing Instance erun_ret.
  #[local] Existing Instance erun_bind.
  #[local] Abbreviation erun := (erun (P := P)).
  #[local] Abbreviation EngineWorld := (EngineWorld (P := P)).

Definition storeIn (w : EngineWorld) : InMemoryOutboxStore := w_store (ew_world w).
(** Ledger and store operations lead from one world to the other. *)
Definition advance (w w' : EngineWorld) : Prop :=
  rtc ledger_step (ew_ledger w) (ew_ledger w') ∧ rtc outbox_step (storeIn w) (storeIn w').
#[export] Instance advance_preorder : PreOrder advance.
Proof. split; [done|]. intros w1 w2 w3 [A1 A2] [B1 B2]. split; [exact (transitivity A1 B1)|exact (transitivity A2 B2)]. Qed.
(** The worlds of a call that started in [base]. *)
  Context (base : EngineWorld).
Definition einv (w : EngineWorld) : Prop := ledger_inv (ew_ledger w) ∧ store_inv (storeIn w) ∧ advance base w.
Lemma advance_inv w w' : einv w → advance w w' → einv w'.
Proof.
  intros (I1 & I2 & B) A. split_and!; [by apply (ledger_run (ew_ledger w)), A|by apply (rtc_inv_extends (storeIn w)), A|by etrans].
Qed.

Lemma einv_self w : einv w → ledger_inv (ew_ledger w) ∧ store_inv (storeIn w) ∧ advance w w.
Proof. by intros (? & ? & _). Qed.

(** ** Records that were read *)

(** The ledger has, or had, this record. *)
Definition seen (w : EngineWorld) (r : ExecutionRecord) : Prop :=
  ∃ l, ledger_inv l ∧ rtc ledger_step l (ew_ledger w) ∧ lg_executions l !! er_ExecutionID r = Some r.
Lemma seen_advance w w' r : seen w r → advance w w' → seen w' r.
Proof. intros (l & I & R & Lr) [A _]. exists l. split; [done|]. split; [exact (transitivity R A)|done]. Qed.
Lemma seen_now w r : einv w → lg_executions (ew_ledger w) !! er_ExecutionID r = Some r → seen w r.
Proof. intros [I _] Lr. by exists (ew_ledger w). Qed.
Lemma seen_terminal w r : seen w r → IsTerminalExecutionState (er_State r) = true → lg_executions (ew_ledger w) !! er_ExecutionID r = Some r.
Proof.
  intros (l & I & R & Lr) T. destruct (ledger_run _ _ I R) as [_ X]. destruct (le_record _ _ X _ _ Lr) as (r' & L' & _ & E). by rewrite L', (E T).
Qed.
Lemma seen_core w r r' : seen w r → lg_executions (ew_ledger w) !! er_ExecutionID r = Some r' → er_core r' = er_core r.
Proof. intros (l & I & R & Lr) L'. destruct (ledger_run _ _ I R) as [_ X]. destruct (le_record _ _ X _ _ Lr) as (r2 & L2 & C & _). congruence. Qed.
Lemma core_planIDs r r' : er_core r' = er_core r → planIDs r' = planIDs r ∧ er_ExecutionID r' = er_ExecutionID r ∧
  er_GenerationDigest r' = er_GenerationDigest r ∧ er_TenantNamespace r' = er_TenantNamespace r.
Proof. unfold er_core, planIDs. intros E. by injection E. Qed.

(** ** Rules

    [T] is a set of states and [Z] what must hold once this call has moved the execution
    [id] into one of them; other engines do not move it there. *)
  Context (T : ExecutionState → Prop) (Z : EngineWorld → Prop) (id : string).
  Context (Hothers : ∀ n s, rtc outbox_step s (o_others o n s)) (Hledger : ∀ n l, rtc ledger_step l (otherEngines n l)).
  Context (HT : ∀ n l, stateIn T id (otherEngines n l) → stateIn T id l).
  Context (HZ : ∀ w w', einv w → advance w w' → Z w → Z w').

Definition justified (w w' : EngineWorld) : Prop := stateIn T id (ew_ledger w') → stateIn T id (ew_ledger w) ∨ Z w'.
Definition espec {A} (m : erun A) (w : EngineWorld) (Q : A → EngineWorld → Prop) : Prop :=
  einv w → ∀ a w', m w = (a, w') → advance w w' ∧ justified w w' ∧ Q a w'.

Lemma espec_ret {A} (a : A) w (Q : A → EngineWorld → Prop) : Q a w → espec (mret a) w Q.
Proof. intros Hq _ b w' [= <- <-]. split; [done|]. split; [by left|done]. Qed.
Lemma espec_bind {A B} (m : erun A) (f : A → erun B) w Q1 Q :
  espec m w Q1 → (∀ a w1, einv w1 → advance w w1 → Q1 a w1 → espec (f a) w1 Q) → espec (m ≫= f) w Q.
Proof.
  intros Hm Hf Hi b w' E. unfold mbind, erun_bind in E. destruct (m w) as [a w1] eqn:E1. destruct (Hm Hi _ _ E1) as (A1 & J1 & H1).
  pose proof (advance_inv _ _ Hi A1) as Hi1. destruct (Hf a w1 Hi1 A1 H1 Hi1 _ _ E) as (A2 & J2 & H2). split; [by etrans|]. split; [|done].
  intros [S|?]%J2; [|by right]. destruct (J1 S) as [?|Hz]; [by left|right]. by eapply HZ.
Qed.
Lemma espec_mono {A} (m : erun A) w (Q Q' : A → EngineWorld → Prop) : espec m w Q → (∀ a w', einv w' → advance w w' → Q a w' → Q' a w') → espec m w Q'.
Proof. intros Hm HQ Hi a w' E. destruct (Hm Hi _ _ E) as (A1 & J1 & H1). split_and!; [done..|]. eauto using advance_inv. Qed.
Lemma espec_inv {A} (m : erun A) w Q : (einv w → espec m w Q) → espec m w Q.
Proof. intros Hm Hi. by apply Hm. Qed.
Lemma espec_any {A} (m : erun A) w Q : espec m w Q → espec m w (λ _ _, True).
Proof. intros Hm. by eapply espec_mono. Qed.

Lemma espec_onWorld {A} (m : run (P := P) A) w Q : spec m (ew_world w) Q →
  espec (onWorld m) w (λ a w', Q a (storeIn w') ∧ ew_ledger w' = ew_ledger w).
Proof.
  intros Hm (I1 & I2 & _) a w' E. unfold onWorld in E. destruct (m (ew_world w)) as [b w1] eqn:E1. simplify_eq. destruct (Hm I2 _ _ E1) as [R H1].
  split; [by split|]. split; [by left|done].
Qed.
(** What a call on the ledger finds and leaves. *)
Definition ledgerCall {A} (f : nat → InMemoryExecutionLedger → result (A * InMemoryExecutionLedger)) (w : EngineWorld) (r : result A) (w' : EngineWorld) : Prop :=
  storeIn w' = storeIn w ∧ ∃ n l, n = w_calls (ew_world w) ∧ l = otherEngines n (ew_ledger w) ∧ rtc ledger_step (ew_ledger w) l ∧ ledger_inv l ∧
    match r with Ok a => f n l = Ok (a, ew_ledger w') | Err e => f n l = Err e ∧ ew_ledger w' = l end.
Lemma espec_onLedger {A} (f : nat → InMemoryExecutionLedger → result (A * InMemoryExecutionLedger)) w :
  (∀ n l a l', f n l = Ok (a, l') → rtc ledger_step l l') →
  (∀ n l a l', ledger_inv l → f n l = Ok (a, l') → stateIn T id l' → stateIn T id l ∨ Z w) →
  espec (onLedger otherEngines f) w (λ r w', ledgerCall f w r w').
Proof.
  intros Hf Hk Hi a w' E. unfold onLedger in E. set (l := otherEngines _ _) in E. assert (rtc ledger_step (ew_ledger w) l) as R by apply Hledger.
  destruct (ledger_run _ _ (proj1 Hi) R) as [Il _]. destruct (f _ l) as [[b l']|e] eqn:F; simplify_eq.
  - assert (advance w (mkEngineWorld (tick (ew_world w)) l')) as Adv. { split; [exact (transitivity R (Hf _ _ _ _ F))|done]. }
    split; [done|]. split; [|split; [done|eauto 10]]. intros S. destruct (Hk _ _ _ _ Il F S) as [S'|Hz]; [left; by eapply HT|right; by eapply HZ].
  - split; [by split|]. split; [intros S; left; by eapply HT|split; [done|eauto 10]].
Qed.
Lemma espec_readLedger {A} (f : nat → InMemoryExecutionLedger → result A) w :
  espec (readLedger otherEngines f) w (λ r w', storeIn w' = storeIn w ∧ ∃ n, f n (ew_ledger w') = r).
Proof.
  eapply espec_mono; [apply espec_onLedger|].
  - intros n l a l' E. inv_res. done.
  - intros n l a l' _ E. inv_res. by left.
  - intros r w' _ _ (E & n & l & _ & _ & _ & _ & F). split; [done|]. exists n. destruct r; [by inv_res|]. destruct F as [[?|(? & _ & ?)]%bind_Err ->]; done.
Qed.
Lemma espec_getExecution k w : espec (getExecution o otherEngines k) w (λ r w', storeIn w' = storeIn w ∧
  match r with Ok rec => lg_executions (ew_ledger w') !! k = Some rec ∧ er_ExecutionID rec = k ∧ seen w' rec | Err _ => True end).
Proof.
  eapply espec_mono; [apply espec_readLedger|]. intros r w' Hi _ [E [n F]]. split; [done|]. destruct r as [rec|]; [|done]. unfold GetExecution in F.
  apply bind_Ok in F as ([] & _ & Lr%ofOption_Ok). destruct (li_execution _ (proj1 Hi) _ _ Lr) as (Ek & _). split_and!; [done..|].
  apply seen_now; [done|]. by rewrite Ek.
Qed.
Lemma espec_contextErr w : espec (onWorld (contextErr o)) w (λ _ w', ew_ledger w' = ew_ledger w ∧ storeIn w' = storeIn w).
Proof.
  intros Hi a w' E. unfold onWorld, contextErr in E. simplify_eq. split; [by split|]. split; [by left|done].
Qed.

(** ** The engine's copy of an execution *)

(** Identifiers are unique in an accepted artifact, and the durable form of a generation
    carries its digest. *)
Definition loadedOk (g : LoadedGeneration) : Prop :=
  let plans := ch_Plans (sn_checked (ld_source g)) in
  NoDup (pl_Id <$> plans) ∧ (∀ p, p ∈ plans → NoDup (sp_Id <$> pl_Steps p)) ∧
  ∀ a, ld_artifact g = Ok a → ar_GenerationDigest a = ld_digest g.
  Context (provided : LoadedGeneration → Prop) (Hprovided : ∀ g, provided g → loadedOk g).
Record goodExecution (w : EngineWorld) (x : engineExecution) : Prop := {
  gx_id : er_ExecutionID (ee_record x) = id;
  gx_seen : seen w (ee_record x);
  gx_generation g : ee_generation x = Some g → provided g ∧ ee_selected x = Some (list_to_set (planIDs (ee_record x))) ∧
    ld_digest g = er_GenerationDigest (ee_record x) }.
Lemma good_advance w w' x : goodExecution w x → advance w w' → goodExecution w' x.
Proof. intros [G1 G2 G3] Adv. split; [done|by eapply seen_advance|done]. Qed.
Lemma good_adopt w x next x' : goodExecution w x → einv w → lg_executions (ew_ledger w) !! id = Some next → adoptExecutionRecord x next = Ok x' →
  goodExecution w x' ∧ x' = x <| ee_record := next |>.
Proof.
  intros [G1 G2 G3] Hi Ln E. unfold adoptExecutionRecord in E. apply bind_Ok in E as ([] & _ & E). apply bind_Ok in E as ([] & _ & E). simplify_eq.
  rewrite <-G1 in Ln. destruct (core_planIDs _ _ (seen_core _ _ _ G2 Ln)) as (C1 & C2 & C3 & _). split; [|done]. split; cbn.
  - congruence.
  - apply seen_now; [done|]. cbn. by rewrite C2.
  - intros g Hg. rewrite C1, C3. auto.
Qed.
(** What a commit returns. *)
Definition committed (x : engineExecution) (state : ExecutionState) (r : held) (w' : EngineWorld) : Prop :=
  goodExecution w' r.1 ∧ ee_generation r.1 = ee_generation x ∧ ee_facts r.1 = ee_facts x ∧
  (r.2 = None → IsTerminalExecutionState state = true → IsTerminalExecutionState (er_State (ee_record r.1)) = true).
Lemma committed_same x state e w : goodExecution w x → committed x state (x, Some e) w.
Proof. done. Qed.
Lemma committed_terminal x state w : goodExecution w x → IsTerminalExecutionState (er_State (ee_record x)) = true → committed x state (x, None) w.
Proof. done. Qed.
Lemma committed_adopt x state next w : goodExecution w x → einv w → lg_executions (ew_ledger w) !! id = Some next →
  (IsTerminalExecutionState state = true → IsTerminalExecutionState (er_State next) = true) → committed x state (adopt x next) w.
Proof.
  intros Hg Hi Ln Ht. unfold adopt. destruct (adoptExecutionRecord x next) as [x'|e] eqn:E; [|done].
  destruct (good_adopt _ _ _ _ Hg Hi Ln E) as [Hg' ->]. split_and!; [done..|]. intros _ Hs. by apply Ht.
Qed.

Lemma putExecution_keeps l k r r' w : lg_executions l !! k = Some r → (T (er_State r') → er_State r' = er_State r ∨ Z w) →
  stateIn T id (putExecution k r' l) → stateIn T id l ∨ Z w.
Proof.
  intros Lk Hs (rr & Lr & Tr). cbn in Lr. apply lookup_insert_Some in Lr as [[<- <-]|[N Lr]].
  - destruct (Hs Tr) as [E|?]; [left; exists r; split; [done|congruence]|by right].
  - left. by exists rr.
Qed.
Lemma espec_SetExecutionState k rev state message w : (T state → Z w) →
  espec (onLedger otherEngines (λ n, SetExecutionState (o_ctx o n) (o_now o n 0) k rev state message)) w
    (λ r w', storeIn w' = storeIn w ∧
       match r with Ok rec => lg_executions (ew_ledger w') !! k = Some rec ∧ er_State rec = state | Err _ => True end).
Proof.
  intros Hs. eapply espec_mono; [apply espec_onLedger|].
  - intros n l a l' E. by eapply rtc_once, ls_state.
  - intros n l a l' _ (r & Lr & _ & _ & _ & -> & ->)%SetExecutionState_Ok. eapply putExecution_keeps; [done|]. cbn. auto.
  - intros r w' _ _ (E & n & l & _ & _ & _ & _ & F). split; [done|]. destruct r as [rec|]; [|done].
    apply SetExecutionState_Ok in F as (r & Lr & _ & _ & _ & -> & ->). cbn. by rewrite lookup_insert_eq.
Qed.
Lemma espec_commitLoop rounds x state message w : (T state → Z w) → goodExecution w x →
  espec (commitLoop o otherEngines rounds x state message) w (committed x state).
Proof.
  revert x w. induction rounds as [|rounds IH]; intros x w Hs Hg; cbn [commitLoop].
  - apply espec_ret. unfold contended. destruct (IsTerminalExecutionState _) eqn:Et; [by apply committed_terminal|]. by destruct (bool_decide _).
  - apply espec_inv. intros Hi0. destruct (IsTerminalExecutionState _) eqn:Et; [apply espec_ret; by apply committed_terminal|].
    destruct (bool_decide _); [by apply espec_ret|]. rewrite (gx_id _ _ Hg). eapply espec_bind; [by apply espec_SetExecutionState|].
    intros r w1 Hi1 A1 [_ Hr]. pose proof (good_advance _ _ _ Hg A1) as Hg1. destruct r as [rec|e].
    + destruct Hr as [Lr Es]. apply espec_ret, committed_adopt; [done..|by rewrite Es].
    + destruct (negb _); [by apply espec_ret|]. eapply espec_bind; [apply espec_getExecution|]. intros current w2 Hi2 A2 [_ Hc].
      pose proof (good_advance _ _ _ Hg1 A2) as Hg2. destruct current as [current|]; [|by apply espec_ret]. destruct Hc as (Lc & _).
      destruct (adoptExecutionRecord x current) as [x'|] eqn:E; [|by apply espec_ret]. destruct (good_adopt _ _ _ _ Hg2 Hi2 Lc E) as [Hg' ->].
      eapply espec_mono; [apply IH; [|done]|by intros ? ? ? ? (?&?&?&?)].
      intros Ht. eapply HZ; [exact Hi0|exact (transitivity A1 A2)|by apply Hs].
Qed.

  Context (Hclock : ∀ n i, zeroTime ≤ o_now o n i).
Lemma espec_FinishExecutionLease lease state message w : (state ≠ ExecutionOther "" → T state → Z w) →
  espec (onLedger otherEngines (λ n ledger, ledger ← FinishExecutionLease (o_ctx o n) (o_now o n 0) (o_now o n 1) lease state message ledger; Ok (tt, ledger))) w
    (λ r w', storeIn w' = storeIn w ∧
       match r with
       | Ok _ => ∃ rec, lg_executions (ew_ledger w') !! el_ExecutionID lease = Some rec ∧ (state ≠ ExecutionOther "" → er_State rec = state)
       | Err _ => True
       end).
Proof.
  intros Hs. eapply espec_mono; [apply espec_onLedger|].
  - intros n l a l' (l1 & F & [= <- <-])%bind_Ok. eapply rtc_once, ls_finish; [apply Hclock|exact F].
  - intros n l a l' _ (l1 & F & [= <- <-])%bind_Ok. apply FinishExecutionLease_Ok in F as (_ & r & r' & Lr & -> & _ & _ & _ & _ & _ & _ & _ & Es & _).
    eapply putExecution_keeps; [done|]. rewrite Es. case_bool_decide; auto.
  - intros r w' _ _ (E & n & l & _ & _ & _ & _ & F). split; [done|]. destruct r as [rec|]; [|done]. apply bind_Ok in F as (l1 & F & [= <- <-]).
    apply FinishExecutionLease_Ok in F as (_ & r & r' & Lr & -> & _ & _ & _ & _ & _ & _ & _ & Es & _). exists r'. cbn. rewrite lookup_insert_eq. split; [done|].
    intros N. by rewrite Es, bool_decide_eq_false_2.
Qed.
Lemma espec_commit x state message lease w : (T state → Z w) → goodExecution w x →
  (∀ le, lease = Some le → el_ExecutionID le = id) →
  espec (commitExecutionState o otherEngines x state message lease) w (committed x state).
Proof.
  intros Hs Hg Hle. unfold commitExecutionState. destruct lease as [lease|]; [|by apply espec_commitLoop]. specialize (Hle _ eq_refl).
  set (next := if IsTerminalExecutionState state then state else ExecutionOther "").
  eapply espec_bind; [apply (espec_FinishExecutionLease lease next)|].
  { unfold next. by destruct (IsTerminalExecutionState state); auto. }
  intros r w1 Hi1 A1 [_ Hr]. pose proof (good_advance _ _ _ Hg A1) as Hg1. destruct r as [u|e].
  - rewrite (gx_id _ _ Hg). eapply espec_bind; [apply espec_getExecution|]. intros r2 w2 Hi2 A2 [_ H2]. pose proof (good_advance _ _ _ Hg1 A2) as Hg2.
    destruct r2 as [updated|]; [|by apply espec_ret]. destruct H2 as (Lu & _). apply espec_ret, committed_adopt; [done..|]. intros Ht.
    destruct Hr as (rec & Lrec & Es). rewrite Hle in Lrec. assert (er_State rec = state) as Est.
    { unfold next in Es. rewrite Ht in Es. apply Es. by intros ->. }
    destruct (ledger_run _ _ (proj1 Hi1) (proj1 A2)) as [_ X]. destruct (le_record _ _ X _ _ Lrec) as (r' & L' & _ & E'). rewrite Est in E'.
    specialize (E' Ht). congruence.
  - destruct (errorsIs e ErrStaleExecutionLease); [|by apply espec_ret]. rewrite (gx_id _ _ Hg). eapply espec_bind; [apply espec_getExecution|].
    intros r2 w2 Hi2 A2 [_ H2]. pose proof (good_advance _ _ _ Hg1 A2) as Hg2. destruct r2 as [current|]; [|by apply espec_ret]. destruct H2 as (Lc & _).
    destruct (IsTerminalExecutionState (er_State current)) eqn:Et; apply espec_ret; [by apply committed_adopt|done].
Qed.

(** ** Refreshing *)
Definition refreshed (x : engineExecution) (r : held) (w' : EngineWorld) : Prop :=
  goodExecution w' r.1 ∧ ee_generation r.1 = ee_generation x ∧ ee_facts r.1 = ee_facts x.
Lemma espec_RenewExecutionLease lease duration w :
  espec (onLedger otherEngines (λ n, RenewExecutionLease (o_ctx o n) (o_now o n 0) lease duration)) w
    (λ r w', storeIn w' = storeIn w ∧
       match r with Ok _ => ∃ l n, rtc ledger_step (ew_ledger w) l ∧ rtc ledger_step l (ew_ledger w') ∧ leaseCurrent l lease (o_now o n 0) | Err _ => True end).
Proof.
  eapply espec_mono; [apply espec_onLedger|].
  - intros n l a l' E. eapply rtc_once, ls_renew; [apply Hclock|exact E].
  - intros n l a l' _ (r & d & _ & Lr & _ & _ & _ & -> & _)%RenewExecutionLease_Ok. eapply putExecution_keeps; [done|]. auto.
  - intros r w' _ _ (E & n & l & _ & _ & R & _ & F). split; [done|]. destruct r as [le|]; [|done]. exists l, n. split; [done|]. split.
    + eapply rtc_once, ls_renew; [apply Hclock|exact F].
    + by apply RenewExecutionLease_Ok in F as (r & d & Hc & _).
Qed.
(** With no error the execution is terminal, or this call may act on it. *)
Definition authorized (lease : option ExecutionLease) (w' : EngineWorld) : Prop :=
  ∃ l, rtc ledger_step (ew_ledger base) l ∧ rtc ledger_step l (ew_ledger w') ∧ ∃ r, lg_executions l !! id = Some r ∧ IsTerminalExecutionState (er_State r) = false ∧
    match lease with None => er_RecoveryToken r = "" | Some le => ∃ n, leaseCurrent l le (o_now o n 0) end.
Lemma espec_refresh x lease w : goodExecution w x → (∀ le, lease = Some le → el_ExecutionID le = id) →
  espec (refreshExecution o otherEngines x lease) w (λ r w', refreshed x r w' ∧
    (r.2 = None → IsTerminalExecutionState (er_State (ee_record r.1)) = false → authorized lease w')).
Proof.
  intros Hg Hle. unfold refreshExecution. rewrite (gx_id _ _ Hg). eapply espec_bind; [apply espec_getExecution|]. intros r w1 Hi1 A1 [_ H1].
  pose proof (good_advance _ _ _ Hg A1) as Hg1. destruct r as [next|]; [|by apply espec_ret]. destruct H1 as (Ln & _).
  destruct (adoptExecutionRecord x next) as [x'|] eqn:E; [|by apply espec_ret]. destruct (good_adopt _ _ _ _ Hg1 Hi1 Ln E) as [Hg' ->].
  destruct (IsTerminalExecutionState (er_State next)) eqn:Et; [apply espec_ret; split; [done|]; cbn; congruence|].
  destruct lease as [lease|].
  - destruct (_ || _); [by apply espec_ret|]. eapply espec_bind; [apply espec_RenewExecutionLease|].
    intros r w2 Hi2 A2 [_ H2]. pose proof (good_advance _ _ _ Hg' A2) as Hg2. destruct r as [le|]; [|by apply espec_ret].
    destruct H2 as (l & n & R1 & R2 & Hc). eapply espec_bind; [apply espec_contextErr|]. intros ended w3 Hi3 A3 _. apply espec_ret. split.
    + split; [by eapply good_advance|done].
    + intros _ Et'. exists l. split; [exact (transitivity (proj1 (proj2 (proj2 Hi1))) R1)|]. split; [exact (transitivity R2 (proj1 A3))|].
      destruct Hc as (r & Lr & Hr). rewrite (Hle _ eq_refl) in Lr. exists r. split; [done|].
      assert (IsTerminalExecutionState (er_State r) = false) as Nt.
      { destruct (IsTerminalExecutionState (er_State r)) eqn:Tr; [|done].
        assert (ledger_inv l) as Il by (by apply (ledger_run (ew_ledger w1)); [apply Hi1|]). destruct (li_record _ Il _ _ Lr) as [Rf Rt].
        destruct Hr as (_ & _ & _ & Hd). specialize (Rf (Rt Tr)). pose proof (Hclock n 0). lia. }
      split; [done|]. exists n. exists r. rewrite (Hle _ eq_refl). done.
  - apply espec_ret. split; [done|]. cbn. intros Hb _. exists (ew_ledger w1). split; [apply Hi1|]. split; [done|]. exists next. split_and!; [done..|].
    destruct (bool_decide (er_RecoveryToken next ≠ "")) eqn:B; [done|]. apply bool_decide_eq_false in B. by apply dec_stable.
Qed.

(** ** Stopping *)

(** The work of the execution has been closed. *)
Definition stopped (w : EngineWorld) : Prop :=
  ∃ s, rtc outbox_step (storeIn base) s ∧ rtc outbox_step s (storeIn w) ∧ ∀ sid sg, os_sagas s !! sid = Some sg → sg_ExecutionID sg = id → closedSaga s sid.
Lemma stopped_advance w w' : stopped w → advance w w' → stopped w'.
Proof. intros (s & I & R & Hc) [_ A2]. exists s. split; [done|]. split; [exact (transitivity R A2)|done]. Qed.
Definition isFailure (st : ExecutionState) : Prop := IsTerminalExecutionState st = true ∧ st ≠ ExecutionCompleted.
Lemma espec_failureLoop blocked failed plans w : (0 < blocked.2 → isFailure blocked.1) →
  espec (failureLoop o blocked failed plans) w
    (λ r w', ew_ledger w' = ew_ledger w ∧ match r with Ok (st, rank, _) => 0 < rank → isFailure st | Err _ => True end).
Proof.
  revert blocked failed w. induction plans as [|plan plans IH]; intros blocked failed w Hb; cbn [failureLoop].
  - apply espec_ret. split; [done|]. by destruct blocked.
  - eapply espec_bind; [apply espec_onWorld, spec_read, Hothers|]. intros saga w1 _ _ [_ E1]. destruct saga as [saga|]; [|by apply espec_ret].
    destruct (default _ (sagaOutcome (sg_State saga))) as [candidate rank] eqn:Ec. eapply espec_mono; [apply IH|].
    + case_bool_decide; [|done]. cbn in *. intros Hpos. by destruct (sg_State saga); cbn in Ec; simplify_eq; cbn in *; try lia; split.
    + intros r w' _ _ [E2 Hr]. split; [congruence|done].
Qed.
Lemma espec_executionFailureState x w : espec (executionFailureState o x) w (λ r w', ew_ledger w' = ew_ledger w ∧
  (r.1 = er_State (ee_record x) ∨ (r.2 = None ∧ isFailure r.1))).
Proof.
  unfold executionFailureState. eapply espec_bind; [apply espec_failureLoop; cbn; lia|]. intros r w1 _ _ [E Hr]. apply espec_ret. split; [done|].
  destruct r as [[[blocked rank] failed]|]; [|by left]. case_bool_decide; [right; split; [done|auto]|]. destruct failed; [by right|by left].
Qed.
Lemma espec_finalize x desired w : er_ExecutionID (ee_record x) = id → espec (finalizeStoppedExecution o x desired) w
  (λ r w', ew_ledger w' = ew_ledger w ∧ (r.1 = er_State (ee_record x) ∨ (r.2 = None ∧ stopped w' ∧ (r.1 = desired ∨ isFailure r.1)))).
Proof.
  intros Ei. unfold finalizeStoppedExecution. rewrite Ei. eapply espec_bind.
  { apply espec_onWorld, spec_write; [apply Hothers|]. intros n s s' X. by eapply step_stop. }
  intros r w1 Hi1 A1 [Hr E1]. destruct r as [u|]; [|apply espec_ret; auto]. destruct Hr as (n & s0 & I0 & F).
  assert (stopped w1) as Hs. { exists (storeIn w1). split; [apply Hi1|]. split; [done|]. by eapply finalize_closed. }
  eapply espec_bind; [apply espec_executionFailureState|]. intros [observed err] w2 Hi2 A2 [E2 Ho]. apply espec_ret. split; [congruence|]. cbn in *.
  pose proof (stopped_advance _ _ Hs A2) as Hs2. destruct err as [e|]; [by left|]. case_bool_decide; cbn; [|auto].
  destruct Ho as [->|[_ ?]]; [by left|auto].
Qed.

(** ** Loading and admitting *)
  Context (formatFloat : spec_float → string) (matchString : string → string → result bool).
  Context (decodeIdentity : string → result (string * string)) (decodeEnvironment : string → result Environment).
  Context (engine : EngineConfig).
  Context (Hengine : provided (en_generation engine)).
  Context (Hresolver : ∀ f n a g, en_resolver engine = Some f → f n a = (Some g, None) → provided g).
  Context (Hatomic : ∀ f n d l s r c l' s', en_atomic engine = Some f → f n d l s = Ok (r, c, l', s') →
    ∃ l1 now1 now2, PutArtifact None now1 (da_Artifact d) l = Ok l1 ∧ AdmitExecution None now2 d l1 = Ok (r, c, l') ∧ rtc outbox_step s s').
  Context (HTn : ∀ st, IsTerminalExecutionState st = false → ¬ T st).

Definition loadedPost (r : loaded) (w' : EngineWorld) : Prop :=
  (∀ x, r.1 = Some x → goodExecution w' x) ∧ (r.2 = None → is_Some r.1).
Lemma good_bare w r : seen w r → er_ExecutionID r = id → goodExecution w (bare r).
Proof. by split. Qed.
Lemma withGeneration_post record facts g w : seen w record → er_ExecutionID record = id → provided g → ld_digest g = er_GenerationDigest record →
  loadedPost (withGeneration record facts (Some (list_to_set (pr_PlanID <$> er_Plans record))) g) w.
Proof.
  intros Hs Ei Hg Ed. unfold withGeneration. destruct (_ || _); split; cbn; try done; intros x [= <-]; [by apply good_bare|].
  split; [done|done|]. cbn. by intros g' [= <-].
Qed.
Lemma espec_acquire artifact w : espec (acquireHistorical o engine artifact) w
  (λ r w', ∀ g, r = Ok g → provided g ∧ ld_digest g = ar_GenerationDigest artifact).
Proof.
  intros Hi r w' E. unfold acquireHistorical in E. injection E as <- <-. split; [done|]. split; [by left|]. intros g.
  destruct (o_ctx o _); [done|]. destruct (en_resolver engine) as [f|] eqn:Ef; [|done]. destruct (f _ artifact) as [[g'|] [e|]] eqn:Eg; try done.
  destruct (ld_closed g' || _) eqn:B; [done|]. intros [= <-]. split; [by eapply Hresolver|]. apply orb_false_iff in B as [_ B].
  apply bool_decide_eq_false in B. by apply dec_stable.
Qed.
Lemma espec_loadRecord record resolve w : seen w record → er_ExecutionID record = id →
  espec (loadExecutionRecord o otherEngines decodeIdentity engine record resolve) w loadedPost.
Proof.
  intros Hs Ei. unfold loadExecutionRecord. destruct (_ || _).
  { apply espec_ret. split; [|done]. intros x [= <-]. by apply good_bare. }
  destruct (decodeExecutionFacts _) as [facts|]; [|by apply espec_ret]. cbv zeta. case_bool_decide as Ed.
  { apply espec_ret. by apply withGeneration_post. }
  assert (∀ w1 e, advance w w1 → loadedPost (blockDependency (mkEngineExecution record facts (Some (list_to_set (pr_PlanID <$> er_Plans record))) None) e) w1) as Hb.
  { intros w1 e A1. split; [|done]. cbn. intros x [= <-]. split; [done|by eapply seen_advance|done]. }
  eapply espec_bind; [apply espec_readLedger|]. intros artifact w1 Hi1 A1 _. destruct artifact as [artifact|]; [|apply espec_ret; auto].
  destruct (validateArtifactIdentity decodeIdentity record artifact) as [u|] eqn:Ev.
  2: { apply espec_ret. split; [|done]. intros x [= <-]. apply good_bare; [by eapply seen_advance|done]. }
  eapply espec_bind; [apply espec_acquire|]. intros g w2 Hi2 A2 Hg. apply espec_ret. destruct g as [g|e]; [|apply Hb; by etrans].
  destruct (Hg _ eq_refl) as [Hok Edig]. apply withGeneration_post; [eapply seen_advance; [exact Hs|by etrans]|done|done|].
  unfold validateArtifactIdentity in Ev. destruct (decodeIdentity _) as [[ruleset version]|]; [|done]. apply failIf_Ok in Ev.
  rewrite !orb_false_iff, !bool_decide_eq_false in Ev. destruct Ev as [[Ev%dec_stable _] _]. congruence.
Qed.
Lemma espec_load resolve w : espec (loadExecution o otherEngines decodeIdentity engine id resolve) w loadedPost.
Proof.
  unfold loadExecution. eapply espec_bind; [apply espec_getExecution|]. intros r w1 Hi1 A1 [_ Hr]. destruct r as [record|]; [|by apply espec_ret].
  destruct Hr as (_ & Ei & Hs). by apply espec_loadRecord.
Qed.

Definition admissionPost (r : admission) (w' : EngineWorld) : Prop :=
  let '(x, created, atomic, err) := r in
  (∀ x', x = Some x' → goodExecution w' x' ∨ ∃ e, err = Some e ∧ errorsIs e ErrBlockedDependency = false) ∧
  (err = None → ∃ x', x = Some x' ∧ goodExecution w' x' ∧ (created = true → is_Some (ee_generation x'))).
Lemma espec_matchReplay request record w : espec (matchReplay o otherEngines formatFloat decodeIdentity decodeEnvironment request record) w
  (λ r w', match r with
           | Ok _ => er_ExecutionID record = ad_ExecutionID request
           | Err e => er_ExecutionID record = ad_ExecutionID request ∨ errorsIs e ErrBlockedDependency = false
           end).
Proof.
  unfold matchReplay. destruct (_ && _); [apply espec_ret; by right|]. destruct (_ || _) eqn:B; [apply espec_ret; by right|].
  rewrite !orb_false_iff, !bool_decide_eq_false in B. destruct B as [[[[B%dec_stable _] _] _] _]. cbv zeta.
  destruct (bool_decide _); [apply espec_ret; by right|]. eapply espec_bind; [apply espec_readLedger|]. intros artifact w1 _ _ _. apply espec_ret.
  destruct artifact as [artifact|e]; [destruct (matchPinned _ _ _ _ _ _); auto|]. destruct (contextEnded e); auto.
Qed.
Lemma espec_replay request record atomic resolve w : seen w record → ad_ExecutionID request = id →
  espec (replay o otherEngines formatFloat decodeIdentity decodeEnvironment engine request record atomic resolve) w admissionPost.
Proof.
  intros Hs Ei. unfold replay. eapply espec_bind; [apply espec_matchReplay|]. intros r w1 Hi1 A1 Hr. pose proof (seen_advance _ _ _ Hs A1) as Hs1.
  destruct r as [u|e].
  - eapply espec_bind; [apply espec_loadRecord; [done|congruence]|]. intros [x err] w2 Hi2 A2 [H1 H2]. apply espec_ret. split; [auto|].
    intros Ee. destruct (H2 Ee) as [x' Ex]. exists x'. split_and!; [done|auto|done].
  - apply espec_ret. split; [|done]. intros x' [= <-]. destruct Hr as [Ee|]; [left; apply good_bare; [done|congruence]|eauto].
Qed.

Lemma PutArtifact_executions ctx now a l l' : PutArtifact ctx now a l = Ok l' → lg_executions l' = lg_executions l.
Proof. unfold PutArtifact. intros E. inv_res. destruct (lg_artifacts l !! _); inv_res; done. Qed.
Lemma AdmitExecution_keeps ctx now d l r c l' w : AdmitExecution ctx now d l = Ok (r, c, l') → stateIn T id l' → stateIn T id l ∨ Z w.
Proof.
  intros E (r' & Lr & Tr). left. apply AdmitExecution_cases in E as (_ & [(-> & -> & _)|(-> & _ & _ & _ & Er & Lx & _)]); [by exists r'|].
  rewrite Lx in Lr. apply lookup_insert_Some in Lr as [[<- <-]|[N Lr]]; [|by exists r']. rewrite Er in Tr. cbn in Tr. by destruct (HTn ExecutionAccepted eq_refl Tr).
Qed.
Lemma admitted_seen ctx now d l r c w : ledger_inv l → freshAdmission d → AdmitExecution ctx now d l = Ok (r, c, ew_ledger w) → seen w r.
Proof.
  intros Il Hf E. exists (ew_ledger w). destruct (admitted_lookup _ _ _ _ _ _ _ Il Hf E) as (Lr & _ & _ & Ei).
  split; [by apply (admit_step _ _ _ _ _ _ _ Il Hf E)|]. split; [done|]. by rewrite Ei.
Qed.
Lemma espec_persistAdmission d w : freshAdmission d → espec (persistAdmission o otherEngines engine d) w
  (λ r w', match r with
           | Ok (record, created) => seen w' record ∧ (created = true → record = (da_Execution d) <| er_State := ExecutionAccepted |>
               <| er_Revision := er_Revision record |> <| er_CreatedAt := er_CreatedAt record |> <| er_UpdatedAt := er_UpdatedAt record |> <| er_Plans := da_Plans d |>)
           | Err _ => True
           end).
Proof.
  intros Hf. unfold persistAdmission. destruct (en_atomic engine) as [f|] eqn:Ef.
  - intros Hi a w' E. set (l := otherEngines _ _) in E. set (s := o_others _ _ _) in E.
    assert (rtc ledger_step (ew_ledger w) l) as Rl by apply Hledger. assert (rtc outbox_step (storeIn w) s) as Rs by apply Hothers.
    destruct (ledger_run _ _ (proj1 Hi) Rl) as [Il _]. destruct (f _ d l s) as [[[[record created] l'] s']|e] eqn:F; simplify_eq.
    + destruct (Hatomic _ _ _ _ _ _ _ _ _ eq_refl F) as (l1 & n1 & n2 & F1 & F2 & R2).
      destruct (ledger_step_inv _ _ (ls_artifact _ _ _ _ _ F1) Il) as [Il1 _].
      split; [split; [|exact (transitivity Rs R2)]|]; [|split].
      * eapply (transitivity Rl), rtc_l; [by eapply ls_artifact|]. by eapply rtc_once, ls_admit.
      * intros S. destruct (AdmitExecution_keeps _ _ _ _ _ _ _ w F2 S) as [S'|Hz]; [left|right].
        -- eapply HT. fold l. unfold stateIn in *. by rewrite (PutArtifact_executions _ _ _ _ _ F1) in S'.
        -- eapply HZ; [exact Hi| |exact Hz]. split; [|exact (transitivity Rs R2)]. eapply (transitivity Rl), rtc_l; [by eapply ls_artifact|]. by eapply rtc_once, ls_admit.
      * split; [by eapply (admitted_seen None)|]. intros ->. by apply AdmitExecution_cases in F2 as (_ & [(? & _)|(_ & _ & _ & _ & -> & _)]).
    + split; [by split|]. split; [|done]. intros S. left. by eapply HT.
  - eapply espec_bind; [apply espec_onLedger|].
    + intros n l a l' (l1 & F & [= <- <-])%bind_Ok. by eapply rtc_once, ls_artifact.
    + intros n l a l' _ (l1 & F & [= <- <-])%bind_Ok S. left. unfold stateIn in *. by rewrite (PutArtifact_executions _ _ _ _ _ F) in S.
    + intros put w1 Hi1 A1 _. destruct put as [u|]; [|by apply espec_ret]. eapply espec_mono; [apply espec_onLedger|].
      * intros n l [r c] l' F. by eapply rtc_once, ls_admit.
      * intros n l [r c] l' _ F. by eapply AdmitExecution_keeps.
      * intros r w2 _ _ (_ & n & l & _ & _ & _ & Il & F). destruct r as [[record created]|]; [|done]. split; [by eapply admitted_seen|].
        intros ->. by apply AdmitExecution_cases in F as (_ & [(? & _)|(_ & _ & _ & _ & -> & _)]).
Qed.
Lemma build_durable ctx g request hash durable selected facts :
  buildDurableAdmission formatFloat matchString ctx (Some g) request hash = Ok (durable, selected, facts) →
  freshAdmission durable ∧ er_ExecutionID (da_Execution durable) = ad_ExecutionID request ∧
  er_GenerationDigest (da_Execution durable) = ar_GenerationDigest (da_Artifact durable) ∧
  gn_artifact g = Ok (da_Artifact durable) ∧ selected = pr_PlanID <$> da_Plans durable.
Proof.
  unfold buildDurableAdmission. cbn [ofOption mbind result_bind]. intros E. apply bind_Ok in E as (artifact & Ea & E). apply bind_Ok in E as (effective & _ & E).
  apply bind_Ok in E as ([] & _ & E). apply bind_Ok in E as ([factsJSON h] & _ & E). apply bind_Ok in E as (input & _ & E). apply bind_Ok in E as (plans & _ & E).
  simplify_eq. by rewrite Ea.
Qed.
(** A guard that returns without acting. *)
Ltac espec_refuse := match goal with |- espec (if ?b then _ else _) _ _ => destruct b; [by apply espec_ret|] end.
Lemma espec_admitNew request resolve w : ad_ExecutionID request = id →
  espec (admitNew o otherEngines formatFloat matchString decodeIdentity decodeEnvironment engine request resolve) w admissionPost.
Proof.
  intros Ei. unfold admitNew, refused. cbv zeta. do 2 espec_refuse. destruct (semanticAdmissionHash _ _ _) as [hash|]; [|by apply espec_ret].
  eapply espec_bind; [apply espec_contextErr|]. intros ctx w1 Hi1 A1 _. destruct (buildDurableAdmission _ _ _ _ _ _) as [[[durable selected] facts]|] eqn:Eb; [|by apply espec_ret].
  espec_refuse. apply build_durable in Eb as (Hf & E1 & E2 & E3 & E4).
  eapply espec_bind; [by apply espec_persistAdmission|]. intros r w2 Hi2 A2 Hr. destruct r as [[record created]|e].
  - destruct Hr as [Hs Hc]. destruct created; [|by apply espec_replay]. specialize (Hc eq_refl). apply espec_ret.
    assert (goodExecution w2 (mkEngineExecution record facts (Some (list_to_set selected)) (Some (en_generation engine)))) as Hg.
    { split; cbn; [rewrite Hc; cbn; congruence|done|]. intros g [= <-]. split; [done|]. unfold planIDs. rewrite Hc. cbn. split; [by rewrite E4|].
      rewrite E2. symmetry. by apply (Hprovided _ Hengine). }
    split; [intros x' [= <-]; by left|]. intros _. eexists. by split_and!.
  - destruct (_ || _); [|by apply espec_ret]. eapply espec_bind; [apply espec_readLedger|]. intros existing w3 Hi3 A3 [_ [n F]].
    destruct existing as [existing|]; [|by apply espec_ret]. apply espec_replay; [|done].
    unfold GetExecutionByAdmission in F. apply bind_Ok in F as ([] & _ & F). cbv zeta in F. destruct (bool_decide _); [done|]. apply ofOption_Ok in F.
    apply seen_now; [done|]. by destruct (li_execution _ (proj1 Hi3) _ _ F) as (-> & _).
Qed.
Lemma prepare_id input request : prepareAdmission input = Ok request → ad_ExecutionID request = TrimSpace (ad_ExecutionID input).
Proof.
  unfold prepareAdmission. cbv zeta. intros E. apply bind_Ok in E as ([] & _ & E). apply bind_Ok in E as ([] & _ & E). simplify_eq. by destruct (bool_decide _).
Qed.
Lemma espec_admit input resolve w : TrimSpace (ad_ExecutionID input) = id →
  espec (admitRequest o otherEngines formatFloat matchString decodeIdentity decodeEnvironment engine input resolve) w admissionPost.
Proof.
  intros Ei. unfold admitRequest, refused. destruct (prepareAdmission input) as [request|] eqn:Ep; [|by apply espec_ret]. apply prepare_id in Ep. rewrite Ei in Ep.
  eapply espec_bind; [apply espec_readLedger|]. intros existing w1 Hi1 A1 [_ [n F]]. destruct existing as [existing|e].
  - apply espec_replay; [|done]. unfold GetExecutionByAdmission in F. apply bind_Ok in F as ([] & _ & F). cbv zeta in F. destruct (bool_decide _); [done|].
    apply ofOption_Ok in F. apply seen_now; [done|]. by destruct (li_execution _ (proj1 Hi1) _ _ F) as (-> & _).
  - destruct (errorsIs e _); [by apply espec_admitNew|by apply espec_ret].
Qed.

(** ** Execute *)

(** Every effect of the selected plans is done. *)
Definition workDone (w : EngineWorld) : Prop :=
  ∃ g r, provided g ∧ seen w r ∧ er_ExecutionID r = id ∧ ld_digest g = er_GenerationDigest r ∧
    ∀ plan, plan ∈ ch_Plans (sn_checked (ld_source g)) → pl_Id plan ∈ planIDs r → pl_Steps plan ≠ [] →
      workflowDone (storeIn w) (er_TenantNamespace r) id (ch_Digest (sn_checked (ld_source g))) plan.
  Context (HA : ∀ w, workDone w → T ExecutionCompleted → Z w) (HB : ∀ w st, stopped w → st ≠ ExecutionCompleted → T st → Z w).

(** A call that waits for the end and reports no error: the execution is durably completed. *)
Definition reported (wait : WaitMode) (r : outcome) (w' : EngineWorld) : Prop :=
  wait = WaitTerminal → r.2 = None → ∃ rec, lg_executions (ew_ledger w') !! id = Some rec ∧ er_State rec = ExecutionCompleted ∧ r.1 = engineResult rec.
Lemma terminal_reported x wait cause w : goodExecution w x → (cause = None → IsTerminalExecutionState (er_State (ee_record x)) = true) →
  reported wait (terminalExecutionResult (ee_record x) wait cause) w.
Proof.
  intros [G1 G2 _] Hc. unfold terminalExecutionResult. destruct (IsTerminalExecutionState _) eqn:Et.
  - destruct (_ || _) eqn:B; [|done]. intros -> _. cbn in B. apply bool_decide_eq_true in B. exists (ee_record x). rewrite <-G1. split_and!; [|done|done].
    by apply seen_terminal.
  - intros _ Hn. cbn in Hn. by specialize (Hc Hn).
Qed.
Lemma espec_persistStopped x state err disposed wait lease w : (T state → Z w) → goodExecution w x → (∀ le, lease = Some le → el_ExecutionID le = id) →
  espec (persistStopped o otherEngines x state err disposed wait lease) w (reported wait).
Proof.
  intros Hs Hg Hle. unfold persistStopped. eapply espec_bind; [by apply espec_commit|]. intros [x' persist] w1 Hi1 A1 (Hg1 & _ & _ & _). apply espec_ret.
  destruct persist; [done|]. unfold disposeErr. destruct disposed; [done|]. by apply terminal_reported.
Qed.
Lemma espec_executeUnloaded x err wait lease w : (∀ le, lease = Some le → el_ExecutionID le = id) →
  (∀ x', x = Some x' → goodExecution w x' ∨ (errorsIs err ErrBlockedDependency = false ∧ lease = None)) →
  espec (executeUnloaded o otherEngines x err wait lease) w (reported wait).
Proof.
  intros Hle Hx. unfold executeUnloaded. destruct x as [x|]; [|by apply espec_ret]. destruct (_ && bool_decide _ && _) eqn:B; [|by apply espec_ret].
  apply andb_true_iff in B as [B Nt%negb_true_iff]. apply andb_true_iff in B as [B _]. destruct (Hx _ eq_refl) as [Hg|[Hn Hl]].
  2: { exfalso. rewrite Hn, Hl, andb_false_r in B. cbn in B. by rewrite andb_false_r in B. }
  destruct (negb (contextEnded err) && errorsIs err ErrBlockedDependency).
  - eapply espec_bind; [apply espec_finalize, (gx_id _ _ Hg)|]. intros [st disposed] w1 Hi1 A1 [_ Hst]. cbn in Hst.
    apply espec_persistStopped; [|by eapply good_advance|done]. intros Ts. destruct Hst as [->|(_ & Hs & Hd)]; [by destruct (HTn _ Nt)|].
    eapply HB; [done| |done]. by destruct Hd as [->|[_ ?]].
  - eapply espec_bind; [by apply (espec_ret _ _ (λ r w', r = (er_State (ee_record x), None) ∧ w' = w))|]. intros r w1 Hi1 A1 [-> ->].
    apply espec_persistStopped; [|done|done]. intros Ts. by destruct (HTn _ Nt).
Qed.
Lemma espec_executeFailed x err wait lease w : goodExecution w x → IsTerminalExecutionState (er_State (ee_record x)) = false →
  (∀ le, lease = Some le → el_ExecutionID le = id) → espec (executeFailed o otherEngines x err wait lease) w (reported wait).
Proof.
  intros Hg Nt Hle. unfold executeFailed.
  eapply (espec_bind _ _ _ (λ r w', r.1 = er_State (ee_record x) ∨ r.2 = None ∧ isFailure r.1)).
  { destruct (errorsIs err _); [apply espec_ret; by right|]. eapply espec_mono; [apply espec_executionFailureState|]. intros r w' _ _ [_ Hr]. auto. }
  intros [st1 d1] w1 Hi1 A1 H1. cbn in H1.
  eapply (espec_bind _ _ _ (λ r w', r.1 = er_State (ee_record x) ∨ r.2 ≠ None ∨ (stopped w' ∧ r.1 ≠ ExecutionCompleted))).
  { destruct (bool_decide _ && _) eqn:B.
    - eapply espec_mono; [apply espec_finalize, (gx_id _ _ Hg)|]. intros r w' _ _ [_ [E|(_ & Hs & Hd)]]; [by left|].
      apply andb_true_iff in B as [_ Et]. right. right. split; [done|]. destruct Hd as [->|[_ ?]]; [|done]. destruct H1 as [->|(_ & _ & ?)]; [congruence|done].
    - apply espec_ret. cbn. destruct H1 as [->|[-> [Et _]]]; [by left|]. rewrite bool_decide_eq_true_2 in B by done. cbn in B. congruence. }
  intros [st2 d2] w2 Hi2 A2 H2. cbn in H2. apply espec_persistStopped; [|eapply good_advance; [exact Hg|by etrans]|done]. intros Ts.
  case_bool_decide as Ed; [by destruct (HTn _ Nt)|]. destruct H2 as [->|[?|[Hs Hn]]]; [by destruct (HTn _ Nt)|done|]. by eapply HB.
Qed.
(** A successful run of the driver. *)
Lemma driven_workDone w x g : goodExecution w x → ee_generation x = Some g → ∀ s effective selected,
  selected = List.filter (selects matchString (ee_selected x) effective) (ch_Plans (sn_checked (ld_source g))) →
  (∀ plan, plan ∈ selected → workflowDone s (er_TenantNamespace (ee_record x)) (er_ExecutionID (ee_record x)) (ch_Digest (sn_checked (ld_source g))) plan) →
  ∀ w', advance w w' → storeIn w' = s → workDone w'.
Proof.
  intros Hg Eg s effective selected -> Hd w' Adv Es. destruct (gx_generation _ _ Hg _ Eg) as (Hok & Hsel & Edig).
  exists g, (ee_record x). split_and!; [done|eapply seen_advance; [apply (gx_seen _ _ Hg)|done]|apply (gx_id _ _ Hg)|done|].
  intros plan Hp Hin _. rewrite Es, <-(gx_id _ _ Hg). apply Hd. apply list_elem_of_In, List.filter_In. split; [by apply list_elem_of_In|].
  unfold selects, isSelected. rewrite Hsel. apply bool_decide_eq_true. by apply elem_of_list_to_set.
Qed.
Lemma espec_drive fuel x wait lease w : goodExecution w x → IsTerminalExecutionState (er_State (ee_record x)) = false →
  (∀ le, lease = Some le → el_ExecutionID le = id) →
  espec (drive o otherEngines formatFloat matchString engine fuel x wait lease) w (λ r w', ∀ out, r = Some out → reported wait out w').
Proof.
  intros Hg Nt Hle. unfold drive. destruct (ee_generation x) as [g|] eqn:Eg; [|apply espec_ret; by intros out [= <-]].
  eapply (espec_bind _ _ _ (λ r w', goodExecution w' r.1 ∧ ee_generation r.1 = Some g ∧ (wait ≠ WaitTerminal → IsTerminalExecutionState (er_State (ee_record r.1)) = false))).
  { destruct (_ && _ && _) eqn:B; [|by apply espec_ret]. apply andb_true_iff in B as [[->%bool_decide_eq_true _]%andb_true_iff _].
    eapply espec_mono; [apply espec_commit; [by intros ?%HTn|done|done]|]. intros r w' _ _ (H1 & H2 & _). split_and!; [done|congruence|done]. }
  intros [x1 err] w1 Hi1 A1 (Hg1 & Eg1 & Nt1). cbn in Hg1, Eg1, Nt1. destruct err as [e|]; [apply espec_ret; by intros out [= <-]|].
  destruct (_ && _) eqn:B.
  { apply andb_true_iff in B as [_ Et]. apply espec_ret. intros out [= <-]. by apply terminal_reported. }
  assert (IsTerminalExecutionState (er_State (ee_record x1)) = false) as Nt2. { case_bool_decide; [done|auto]. }
  destruct (gx_generation _ _ Hg1 _ Eg1) as ((Hp & Hst & _)%Hprovided & _).
  eapply espec_bind; [by apply espec_onWorld, spec_executeCheckedWorkflow|]. intros ran w2 Hi2 A2 [Hr _]. pose proof (good_advance _ _ _ Hg1 A2) as Hg2.
  destruct ran as [[selected|e]|].
  - destruct (decide (wait = WaitTerminal)) as [->|Nw].
    + destruct (Hr _ eq_refl ltac:(done)) as [(effective & _ & Esel) Hd]. rewrite bool_decide_eq_true_2 by done. eapply espec_bind; [apply espec_commit; [|done|done]|].
      * apply HA. eapply (driven_workDone w1 x1 g Hg1 Eg1 _ effective selected); [exact Esel|exact Hd|done|done].
      * intros [x3 err] w3 Hi3 A3 (Hg3 & _ & _ & Ht). apply espec_ret. intros out [= <-]. destruct err; [done|]. apply terminal_reported; [done|]. intros _. by apply Ht.
    + rewrite (bool_decide_eq_false_2 (wait = WaitTerminal)) by done. eapply espec_bind; [by apply (espec_ret _ _ (λ _ _, True))|]. intros [x3 err] w3 _ _ _.
      apply espec_ret. by intros out [= <-] ->.
  - eapply espec_bind; [apply espec_executeFailed; done|]. intros r w3 _ _ H3. apply espec_ret. by intros out [= <-].
  - by apply espec_ret.
Qed.
Lemma noSteps_workDone w x : goodExecution w x → is_Some (ee_generation x) → selectedExecutionHasSteps x = false → workDone w.
Proof.
  intros Hg [g Eg] Hn. destruct (gx_generation _ _ Hg _ Eg) as (Hok & Hsel & Edig). exists g, (ee_record x). split_and!; [done|apply Hg|apply Hg|done|].
  intros plan Hp Hin Hne. exfalso. unfold selectedExecutionHasSteps in Hn. rewrite Eg, Hsel in Hn. cbn in Hn.
  eapply not_true_iff_false; [exact Hn|]. apply existsb_exists. exists plan. split; [by apply list_elem_of_In|]. apply andb_true_iff.
  split; apply bool_decide_eq_true; [by apply elem_of_list_to_set|done].
Qed.
Lemma espec_executeLoaded fuel x created atomic wait lease w : goodExecution w x → (created = true → is_Some (ee_generation x)) →
  (∀ le, lease = Some le → el_ExecutionID le = id) →
  espec (executeLoaded o otherEngines formatFloat matchString engine fuel x created atomic wait lease) w (λ r w', ∀ out, r = Some out → reported wait out w').
Proof.
  intros Hg Hc Hle. unfold executeLoaded. destruct (IsTerminalExecutionState _) eqn:Et; [apply espec_ret; intros out [= <-]; by apply terminal_reported|].
  destruct (_ && _) eqn:B; [apply espec_ret; apply andb_true_iff in B as [->%bool_decide_eq_true _]; by intros out [= <-]|].
  eapply espec_bind; [by apply espec_refresh|]. intros [x1 err] w1 Hi1 A1 [(Hg1 & Eg1 & _) _]. cbn in Hg1, Eg1.
  destruct err; [apply espec_ret; by intros out [= <-]|].
  destruct (IsTerminalExecutionState (er_State (ee_record x1))) eqn:Et1; [apply espec_ret; intros out [= <-]; by apply terminal_reported|].
  destruct (created && _) eqn:Bc; [|by apply espec_drive]. apply andb_true_iff in Bc as [-> Bn%negb_true_iff].
  eapply espec_bind; [apply espec_commit; [|done|done]|].
  - apply HA. eapply noSteps_workDone; [done|rewrite Eg1; auto|done].
  - intros [x2 err] w2 Hi2 A2 (Hg2 & _ & _ & Ht). apply espec_ret. intros out [= <-]. destruct err; [done|]. apply terminal_reported; [done|]. intros _. by apply Ht.
Qed.
Lemma checkRequest_Ok request wait k : checkRequest request = Ok (wait, k) →
  (∀ le, xr_RecoveryLease request = Some le → xr_Admission request = None ∧ el_ExecutionID le = k) ∧
  match xr_Admission request with Some a => TrimSpace (ad_ExecutionID a) = k | None => True end.
Proof.
  unfold checkRequest. intros E. apply bind_Ok in E as ([] & _ & E). apply bind_Ok in E as ([] & _ & E). apply bind_Ok in E as ([] & F & E). simplify_eq.
  split; [|by destruct (xr_Admission request)]. intros le El. rewrite El in F. apply failIf_Ok in F. rewrite !orb_false_iff, !bool_decide_eq_false in F.
  destruct F as [[Fa%dec_stable _] Fe%dec_stable]. split; [done|]. by rewrite Fa.
Qed.
Lemma espec_Execute fuel begin request wait w : checkRequest request = Ok (wait, id) →
  espec (Execute o otherEngines formatFloat matchString decodeIdentity decodeEnvironment engine fuel begin request) w
    (λ r w', ∀ out, r = Some out → reported wait out w').
Proof.
  intros E. destruct (checkRequest_Ok _ _ _ E) as [Hle Hid]. unfold Execute. rewrite E. destruct begin; [apply espec_ret; by intros out [= <-]|].
  assert (∀ le, xr_RecoveryLease request = Some le → el_ExecutionID le = id) as Hle'. { intros le El. by apply Hle. }
  eapply (espec_bind _ _ _ (λ r w', let '(x, created, atomic, err) := r in
    (∀ x', x = Some x' → goodExecution w' x' ∨ (∃ e, err = Some e ∧ errorsIs e ErrBlockedDependency = false ∧ xr_RecoveryLease request = None)) ∧
    (err = None → ∃ x', x = Some x' ∧ goodExecution w' x' ∧ (created = true → is_Some (ee_generation x'))))).
  { destruct (xr_Admission request) as [a|] eqn:Ea.
    - eapply espec_mono; [by apply espec_admit|]. intros [[[x created] atomic] err] w' _ _ [H1 H2]. split; [|done]. intros x' Ex.
      destruct (H1 _ Ex) as [?|(e & ? & ?)]; [by left|]. right. exists e. split_and!; [done..|]. destruct (xr_RecoveryLease request) as [le|]; [|done].
      destruct (Hle _ eq_refl). done.
    - eapply espec_bind; [apply espec_load|]. intros [x err] w1 _ _ [H1 H2]. apply espec_ret. split; [intros x' Ex; left; auto|].
      intros Ee. destruct (H2 Ee) as [x' Ex]. exists x'. split_and!; [done|auto|done]. }
  intros [[[x created] atomic] err] w1 Hi1 A1 [H1 H2]. destruct err as [e|].
  - eapply espec_bind; [apply espec_executeUnloaded; [done|]|].
    + intros x' Ex. destruct (H1 _ Ex) as [?|(e' & [= <-] & ? & ?)]; auto.
    + intros r w2 _ _ H3. apply espec_ret. by intros out [= <-].
  - destruct (H2 eq_refl) as (x' & -> & Hg & Hc). by apply espec_executeLoaded.
Qed.
End Runs.
