(* ===== verification/EngineProps.v ===== *)
(** * What an execution's outcome means

    [Execute] against a shared ledger and a shared store: what a reported success, a
    recorded failure and an effect on the outside world imply. *)

From S2P Require Import Prelude GoText Sha256 Json Workflow Identity Outbox OutboxInv OutboxDyn OutboxOps OutboxClose OutboxGrowth OutboxDemo OutboxClient Fencing Ledger LedgerProps Ir Types Env Check Value Eval Admission ArtifactDemo ArtifactProps FactProps Dispatcher DispatcherProps CheckedEnqueue Driver DriverProps EngineState Engine EngineRuns.
From Stdlib Require Import ZArith String.
Local Open Scope list_scope.
Local Open Scope Z_scope.

(** ** Silent computations: those that call no executor. *)
Section Silent.
  Context {P L : Type} `{FencingProvider P L} (o : Oracle (P := P)).
  Context (otherEngines : nat → InMemoryExecutionLedger → InMemoryExecutionLedger).
  #[local] Existing Instance erun_ret.
  #[local] Existing Instance erun_bind.
  #[local] Abbreviation erun := (erun (P := P)).
  #[local] Abbreviation EngineWorld := (EngineWorld (P := P)).

Definition invokedIn (w : EngineWorld) : list InvocationRequest := w_invoked (ew_world w).
Definition silent {A} (m : erun A) : Prop := ∀ w a w', m w = (a, w') → invokedIn w' = invokedIn w.
Lemma silent_ret {A} (a : A) : silent (mret a).
Proof. by intros w b w' [= <- <-]. Qed.
Lemma silent_bind {A B} (m : erun A) (f : A → erun B) : silent m → (∀ a, silent (f a)) → silent (m ≫= f).
Proof. intros Hm Hf w b w' E. unfold mbind, erun_bind in E. destruct (m w) as [a w1] eqn:E1. rewrite (Hf _ _ _ _ E). by eapply Hm. Qed.
Lemma silent_onLedger {A} (f : nat → InMemoryExecutionLedger → result (A * InMemoryExecutionLedger)) : silent (onLedger otherEngines f).
Proof. intros w a w' E. unfold onLedger in E. destruct (f _ _) as [[b l]|e]; by simplify_eq. Qed.
Lemma silent_onStore {A} (f : nat → InMemoryOutboxStore → result (A * InMemoryOutboxStore)) : silent (onWorld (onStore o f)).
Proof. intros w a w' E. unfold onWorld, onStore in E. destruct (f _ _) as [[b s]|e]; by simplify_eq. Qed.
Lemma silent_contextErr : silent (onWorld (contextErr o)).
Proof. intros w a w' E. unfold onWorld, contextErr in E. by simplify_eq. Qed.

(** Computations built from calls on the ledger and the store. *)
Ltac silent_run :=
  repeat match goal with
  | |- silent (match ?x with _ => _ end) => destruct x
  | |- silent (let '(_, _) := ?x in _) => destruct x
  | |- silent (mret _) => apply silent_ret
  | |- silent (onLedger _ _) => apply silent_onLedger
  | |- silent (readLedger _ _) => apply silent_onLedger
  | |- silent (getExecution _ _ _) => apply silent_onLedger
  | |- silent (onWorld (onStore _ _)) => apply silent_onStore
  | |- silent (onWorld (readStore _ _)) => apply silent_onStore
  | |- silent (onWorld (writeStore _ _)) => apply silent_onStore
  | |- silent (onWorld (contextErr _)) => apply silent_contextErr
  | Hs : ∀ x : _, silent _ |- silent _ => apply Hs
  | |- silent (_ ≫= _) => apply silent_bind; [|intros ?]
  end.
Lemma silent_refresh x lease : silent (refreshExecution o otherEngines x lease).
Proof. unfold refreshExecution. silent_run. Qed.
Lemma silent_commitLoop rounds x state message : silent (commitLoop o otherEngines rounds x state message).
Proof. revert x. induction rounds as [|rounds IH]; intros x; cbn [commitLoop]; silent_run. Qed.
Lemma silent_commit x state message lease : silent (commitExecutionState o otherEngines x state message lease).
Proof. unfold commitExecutionState. destruct lease; [|apply silent_commitLoop]. silent_run. Qed.
Lemma silent_failureLoop blocked failed plans : silent (failureLoop o blocked failed plans).
Proof. revert blocked failed. induction plans as [|plan plans IH]; intros blocked failed; cbn [failureLoop]; silent_run. apply IH. Qed.
Lemma silent_failureState x : silent (executionFailureState o x).
Proof. unfold executionFailureState. apply silent_bind; [apply silent_failureLoop|]. intros r. apply silent_ret. Qed.
Lemma silent_finalize x desired : silent (finalizeStoppedExecution o x desired).
Proof. unfold finalizeStoppedExecution. apply silent_bind; [silent_run|]. intros r. destruct r; [|silent_run]. apply silent_bind; [apply silent_failureState|]. intros []. silent_run. Qed.

  Context (formatFloat : spec_float → string) (matchString : string → string → result bool).
  Context (decodeIdentity : string → result (string * string)) (decodeEnvironment : string → result Environment) (engine : EngineConfig).
Lemma silent_matchReplay request record : silent (matchReplay o otherEngines formatFloat decodeIdentity decodeEnvironment request record).
Proof. unfold matchReplay. cbv zeta. silent_run. Qed.
Lemma silent_acquire artifact : silent (acquireHistorical o engine artifact).
Proof. intros w a w' E. unfold acquireHistorical in E. by simplify_eq. Qed.
Lemma silent_loadRecord record resolve : silent (loadExecutionRecord o otherEngines decodeIdentity engine record resolve).
Proof. unfold loadExecutionRecord. cbv zeta. silent_run. apply silent_acquire. Qed.
Lemma silent_replay request record atomic resolve : silent (replay o otherEngines formatFloat decodeIdentity decodeEnvironment engine request record atomic resolve).
Proof. unfold replay. apply silent_bind; [apply silent_matchReplay|]. intros []; [|silent_run]. apply silent_bind; [apply silent_loadRecord|]. intros []. silent_run. Qed.
Lemma silent_persistAdmission d : silent (persistAdmission o otherEngines engine d).
Proof.
  unfold persistAdmission. destruct (en_atomic engine); [|silent_run]. intros w a w' E. destruct (r _ _ _ _) as [[[[? ?] ?] ?]|]; by simplify_eq.
Qed.
Lemma silent_admit input resolve : silent (admitRequest o otherEngines formatFloat matchString decodeIdentity decodeEnvironment engine input resolve).
Proof.
  unfold admitRequest. destruct (prepareAdmission input); [|silent_run]. apply silent_bind; [silent_run|]. intros existing. destruct existing; [apply silent_replay|].
  destruct (errorsIs _ _); [|silent_run]. unfold admitNew. cbv zeta. silent_run; try apply silent_persistAdmission; apply silent_replay.
Qed.
Lemma silent_load k resolve : silent (loadExecution o otherEngines decodeIdentity engine k resolve).
Proof. unfold loadExecution. apply silent_bind; [silent_run|]. intros []; [apply silent_loadRecord|silent_run]. Qed.
Lemma silent_persistStopped x state err disposed wait lease : silent (persistStopped o otherEngines x state err disposed wait lease).
Proof. unfold persistStopped. apply silent_bind; [apply silent_commit|]. intros []. silent_run. Qed.
Lemma silent_executeUnloaded x err wait lease : silent (executeUnloaded o otherEngines x err wait lease).
Proof.
  unfold executeUnloaded. destruct x as [x|]; [|silent_run]. destruct (_ && _ && _); [|silent_run]. apply silent_bind.
  - destruct (_ && _); [apply silent_finalize|silent_run].
  - intros []. apply silent_persistStopped.
Qed.
End Silent.

(** ** The setting

    Other workers and engines only use the operations of the store and the ledger, clocks are
    not before the zero time, generations come from accepted artifacts, and a store that
    admits atomically does what the two separate writes do. *)
Record sharedSetting {P} (o : Oracle (P := P)) (otherEngines : nat → InMemoryExecutionLedger → InMemoryExecutionLedger) (engine : EngineConfig) : Prop := {
  ss_workers n s : rtc outbox_step s (o_others o n s);
  ss_engines n l : rtc ledger_step l (otherEngines n l);
  ss_clock n i : zeroTime ≤ o_now o n i;
  ss_generation : loadedOk (en_generation engine);
  ss_resolver f n a g : en_resolver engine = Some f → f n a = (Some g, None) → loadedOk g;
  ss_atomic f n d l s r c l' s' : en_atomic engine = Some f → f n d l s = Ok (r, c, l', s') →
    ∃ l1 now1 now2, PutArtifact None now1 (da_Artifact d) l = Ok l1 ∧ AdmitExecution None now2 d l1 = Ok (r, c, l') ∧ rtc outbox_step s s' }.
(** The generations the engine works with: its own and those its resolver answers with. *)
Definition providedBy (engine : EngineConfig) (g : LoadedGeneration) : Prop :=
  g = en_generation engine ∨ ∃ f n a, en_resolver engine = Some f ∧ f n a = (Some g, None).
Lemma providedBy_ok {P} (o : Oracle (P := P)) otherEngines engine g : sharedSetting o otherEngines engine → providedBy engine g → loadedOk g.
Proof. intros [_ _ _ S4 S5 _] [->|(f & n & a & Ef & E)]; [done|by eapply S5]. Qed.
Lemma providedBy_resolver engine f n a g : en_resolver engine = Some f → f n a = (Some g, None) → providedBy engine g.
Proof. unfold providedBy. eauto 10. Qed.
(** Only this call moves the execution into a state of [T]. *)
Definition mine (T : ExecutionState → Prop) (id : string) (otherEngines : nat → InMemoryExecutionLedger → InMemoryExecutionLedger)
    (l : InMemoryExecutionLedger) : Prop :=
  (∀ n l, stateIn T id (otherEngines n l) → stateIn T id l) ∧ ¬ stateIn T id l.
Definition startsFrom {P} (w : EngineWorld (P := P)) : Prop := ledger_reachable (ew_ledger w) ∧ reachable (storeIn w).
Lemma starts_inv {P} (w : EngineWorld (P := P)) : startsFrom w → einv w w.
Proof. intros [H1 H2]. split_and!; [by apply ledger_inv_reachable|by apply reachable_inv|done]. Qed.

Lemma workDone_advance {P} base provided id (w w' : EngineWorld (P := P)) : einv base w → advance w w' →
  workDone id provided w → workDone id provided w'.
Proof.
  intros Hi Adv (g & r & H1 & H2 & H3 & H4 & H5). exists g, r. split_and!; [done|by eapply seen_advance|done|done|]. intros plan Hp Hin Hne.
  destruct (H5 plan Hp Hin Hne) as (S1 & S2 & S3), Hi as (_ & Hs & _), Adv as [_ R]. split_and!.
  - by eapply sagaOf_rtc.
  - by eapply completed_rtc.
  - intros step Hst. apply completed_effect; [by apply (rtc_inv_extends (storeIn w))|by eapply completed_rtc|]. eapply hasStep_rtc; [done|done|].
    destruct (S3 _ Hst) as (k & d & Ld & E1 & E2 & E3 & E4 & E5 & E6 & _). destruct (si_disp _ (inv_static _ Hs) _ _ Ld) as (_ & _ & sg & st & _ & Lst & Ca & _).
    unfold carries in Ca. rewrite E3 in Ca. destruct Ca as (C1 & _ & C2 & C3 & _). exists st. rewrite E1, E2 in Lst. split_and!; congruence.
Qed.

Section Outcomes.
  Context {P L : Type} `{FencingProvider P L} (o : Oracle (P := P)) (otherEngines : nat → InMemoryExecutionLedger → InMemoryExecutionLedger).
  Context (formatFloat : spec_float → string) (matchString : string → string → result bool).
  Context (decodeIdentity : string → result (string * string)) (decodeEnvironment : string → result Environment) (engine : EngineConfig).
  #[local] Abbreviation Execute := (Execute o otherEngines formatFloat matchString decodeIdentity decodeEnvironment engine).

Lemma execute_runs T Z id fuel begin request wait w r w' : sharedSetting o otherEngines engine → checkRequest request = Ok (wait, id) →
  (∀ n l, stateIn T id (otherEngines n l) → stateIn T id l) → (∀ st, IsTerminalExecutionState st = false → ¬ T st) →
  (∀ w' w2, einv w w' → advance w' w2 → Z w' → Z w2) →
  (∀ w', workDone id (providedBy engine) w' → T ExecutionCompleted → Z w') → (∀ w' st, stopped w id w' → st ≠ ExecutionCompleted → T st → Z w') →
  einv w w → Execute fuel begin request w = (r, w') → advance w w' ∧ (stateIn T id (ew_ledger w') → stateIn T id (ew_ledger w) ∨ Z w') ∧
    ∀ out, r = Some out → reported id wait out w'.
Proof.
  intros Ss Ec HT HTn HZ HA HB Hi E. pose proof Ss as [S1 S2 S3 _ _ S6].
  exact (espec_Execute o otherEngines w T Z id S1 S2 HT HZ (providedBy engine) (λ g, providedBy_ok o otherEngines engine g Ss) S3
    formatFloat matchString decodeIdentity decodeEnvironment engine (or_introl eq_refl) (providedBy_resolver engine) S6 HTn HA HB fuel begin request wait w Ec Hi _ _ E).
Qed.
Lemma executeLoaded_authority base id fuel x created atomic wait lease w r w' : sharedSetting o otherEngines engine → einv base w →
  goodExecution id (providedBy engine) w x →
  (created = true → is_Some (ee_generation x)) → (∀ le, lease = Some le → el_ExecutionID le = id) →
  executeLoaded o otherEngines formatFloat matchString engine fuel x created atomic wait lease w = (r, w') →
  invokedIn w' = invokedIn w ∨ authorized o base id lease w'.
Proof.
  intros Ss Hi Hg Hc Hle E. pose proof Ss as [S1 S2 S3 _ _ _]. unfold executeLoaded in E.
  pose proof (espec_refresh o otherEngines base (λ _, False) (λ _, True) id S2 ltac:(by intros ? ? (? & _ & ?)) ltac:(done) _ S3 x lease w Hg Hle Hi) as Hr.
  pose proof (silent_refresh o otherEngines x lease w) as Hsl.
  destruct (IsTerminalExecutionState _); [injection E as <- <-; by left|].
  destruct (_ && _); [injection E as <- <-; by left|]. unfold mbind, erun_bind in E.
  destruct (refreshExecution o otherEngines x lease w) as [[x1 err] w1] eqn:E1. destruct (Hr _ _ eq_refl) as (A1 & _ & (Hg1 & Eg1 & _) & Ha).
  cbn [fst snd] in Hg1, Eg1, Ha. pose proof (Hsl _ _ eq_refl) as Hin. destruct err as [e|]; [injection E as <- <-; by left|].
  destruct (IsTerminalExecutionState (er_State (ee_record x1))) eqn:Et; [injection E as <- <-; by left|].
  right. destruct (Ha eq_refl eq_refl) as (l & Il & Rl & Hl). exists l. split; [done|]. split; [|done]. apply (transitivity Rl).
  pose proof (advance_inv _ _ _ Hi A1) as Hi1.
  destruct (created && _) eqn:B.
  - destruct (commitExecutionState o otherEngines x1 ExecutionCompleted "" lease w1) as [[x2 err] w2] eqn:E2. unfold mret, erun_ret in E. simplify_eq.
    by apply (espec_commit o otherEngines base (λ _, False) (λ _, True) id S2 ltac:(by intros ? ? (? & _ & ?)) ltac:(done) _ S3
      x1 ExecutionCompleted "" lease w1 ltac:(done) Hg1 Hle Hi1 _ _ E2).
  - by apply (espec_drive o otherEngines base (λ _, False) (λ _, True) id S1 S2 ltac:(by intros ? ? (? & _ & ?)) ltac:(done)
      _ (λ g, providedBy_ok o otherEngines engine g Ss) S3 formatFloat matchString engine
      ltac:(by intros st _ ?) ltac:(done) ltac:(done) fuel x1 wait lease w1 Hg1 Et Hle Hi1 _ _ E).
Qed.
Lemma execute_authority id fuel begin request wait w r w' : sharedSetting o otherEngines engine → checkRequest request = Ok (wait, id) → einv w w →
  Execute fuel begin request w = (r, w') → invokedIn w' = invokedIn w ∨ authorized o w id (xr_RecoveryLease request) w'.
Proof.
  intros Ss Ec Hi E. pose proof Ss as [S1 S2 S3 S4 S5 S6]. destruct (checkRequest_Ok _ _ _ Ec) as [Hle Hid]. unfold Engine.Execute in E. rewrite Ec in E.
  destruct begin; [injection E as <- <-; by left|]. cbv zeta in E. unfold mbind, erun_bind in E.
  match type of E with (let '(a, w) := ?m w in _) = _ => destruct (m w) as [[[[x created] atomic] err] w1] eqn:E1 end.
  assert (invokedIn w1 = invokedIn w ∧ advance w w1 ∧ (err = None → ∃ x', x = Some x' ∧ goodExecution id (providedBy engine) w1 x' ∧ (created = true → is_Some (ee_generation x'))))
    as (Hs & A1 & Hx).
  { destruct (xr_Admission request) as [a|].
    - split; [by eapply silent_admit|]. pose proof (espec_admit o otherEngines w (λ _, False) (λ _, True) id S1 S2 ltac:(by intros ? ? (? & _ & ?)) ltac:(done)
        _ (λ g, providedBy_ok o otherEngines engine g Ss) formatFloat matchString decodeIdentity decodeEnvironment engine
        (or_introl eq_refl) (providedBy_resolver engine) S6 ltac:(by intros st _ ?) a _ w Hid Hi _ _ E1) as (A & _ & _ & Hx). done.
    - destruct (loadExecution o otherEngines decodeIdentity engine id (bool_decide (wait = WaitTerminal)) w) as [[y e] w2] eqn:E2.
      unfold mret, erun_ret in E1. simplify_eq. split; [by eapply silent_load|].
      pose proof (espec_load o otherEngines w (λ _, False) (λ _, True) id S2 ltac:(by intros ? ? (? & _ & ?)) ltac:(done)
        _ decodeIdentity engine (or_introl eq_refl) (providedBy_resolver engine) _ w Hi _ _ E2) as (A & _ & G1 & G2). cbn [fst snd] in G1, G2.
      split; [done|]. intros ->. destruct (G2 eq_refl) as [x' ->]. exists x'.
      split_and!; [done|auto|done]. }
  rewrite <-Hs. destruct err as [e|].
  - destruct (executeUnloaded o otherEngines x e wait (xr_RecoveryLease request) w1) as [out w2] eqn:E2. unfold mret, erun_ret in E. simplify_eq.
    left. by eapply silent_executeUnloaded.
  - destruct (Hx eq_refl) as (x' & -> & Hg & Hcr). eapply executeLoaded_authority; [done|by eapply advance_inv|done|done| |done]. intros le El. by apply Hle.
Qed.
End Outcomes.

(** C4: A reported success is durable and earned. When a call of [Execute] that waits for the
    end returns no error, the ledger says the execution is completed and the result is
    that record; and if it was not completed before and no other engine completed it, then
    for a generation of the record's digest, the engine's own or one its resolver answered
    with, every selected plan with steps is a completed
    saga of the execution whose every step has durably succeeded. *)
Theorem reported_success_is_earned {P L} `{FencingProvider P L} (o : Oracle (P := P)) otherEngines formatFloat matchString decodeIdentity
    decodeEnvironment engine fuel begin request id (w w' : EngineWorld (P := P)) res :
  sharedSetting o otherEngines engine → startsFrom w → checkRequest request = Ok (WaitTerminal, id) →
  Execute o otherEngines formatFloat matchString decodeIdentity decodeEnvironment engine fuel begin request w = (Some (res, None), w') →
  ∃ rec, lg_executions (ew_ledger w') !! id = Some rec ∧ er_State rec = ExecutionCompleted ∧ res = engineResult rec ∧
    (mine (eq ExecutionCompleted) id otherEngines (ew_ledger w) →
     ∃ g, providedBy engine g ∧ ld_digest g = er_GenerationDigest rec ∧
       ∀ plan, plan ∈ ch_Plans (sn_checked (ld_source g)) → pl_Id plan ∈ planIDs rec → pl_Steps plan ≠ [] →
         workflowDone (storeIn w') (er_TenantNamespace rec) id (ch_Digest (sn_checked (ld_source g))) plan).
Proof.
  intros Ss Hi%starts_inv Ec E.
  destruct (execute_runs _ _ _ _ _ _ _ (λ _, False) (λ _, True) id _ _ _ _ _ _ _ Ss Ec ltac:(by intros ? ? (? & _ & ?)) ltac:(by intros ? _ ?)
    ltac:(done) ltac:(done) ltac:(done) Hi E) as (_ & _ & Hr).
  destruct (Hr _ eq_refl eq_refl eq_refl) as (rec & Lr & Er & Eo). exists rec. split_and!; [done..|]. intros [Hm Hn].
  destruct (execute_runs _ _ _ _ _ _ _ (eq ExecutionCompleted) (workDone id (providedBy engine)) id _ _ _ _ _ _ _ Ss Ec Hm ltac:(by intros ? ? <-)
    (workDone_advance w _ id) ltac:(done) ltac:(by intros ? ? _ ? <-) Hi E) as (_ & Hj & _).
  destruct (Hj ltac:(by exists rec)) as [?|(g & r & Hp & Hs & Ei & Ed & Hd)]; [done|]. exists g. rewrite <-Ei in Lr.
  destruct (core_planIDs _ _ (seen_core _ _ _ Hs Lr)) as (C1 & _ & C3 & C4). rewrite C3, C4, C1. done.
Qed.


(** C27: Effects need authority. If a call of [Execute] called an executor at all, then at some
    point during the call the ledger had the execution, not terminal, and either the call
    carried a recovery lease that was the current one and had not run out, or it carried
    none and nobody held a recovery lease on the execution. *)
Theorem effects_need_authority {P L} `{FencingProvider P L} (o : Oracle (P := P)) otherEngines formatFloat matchString decodeIdentity
    decodeEnvironment engine fuel begin request wait id (w w' : EngineWorld (P := P)) r :
  sharedSetting o otherEngines engine → startsFrom w → checkRequest request = Ok (wait, id) →
  Execute o otherEngines formatFloat matchString decodeIdentity decodeEnvironment engine fuel begin request w = (r, w') →
  invokedIn w' ≠ invokedIn w →
  ∃ l rec, rtc ledger_step (ew_ledger w) l ∧ rtc ledger_step l (ew_ledger w') ∧ lg_executions l !! id = Some rec ∧ IsTerminalExecutionState (er_State rec) = false ∧
    match xr_RecoveryLease request with
    | None => er_RecoveryToken rec = ""
    | Some lease => ∃ n, leaseCurrent l lease (o_now o n 0)
    end.
Proof.
  intros Ss Hi%starts_inv Ec E Hn. destruct (execute_authority _ _ _ _ _ _ _ id _ _ _ _ _ _ _ Ss Ec Hi E) as [?|(l & R1 & R2 & rec & Lr & Nt & Ha)]; [done|].
  by exists l, rec.
Qed.

(** ** Runs *)
Definition shopArtifact : ExecutionArtifact := mkArtifact "generation" "ir" "bytes" "{}" "[]" "{}" "source" "{}" zeroTime.
Definition shopLoaded (executors : gmap string (nat → InvocationRequest → Outcome json)) : LoadedGeneration :=
  mkLoaded (mkSource (sn_checked shopGeneration) (sn_environment shopGeneration) executors) "shop" "v1" "generation" (Ok shopArtifact) false.
Definition shopEngine (executors : gmap string (nat → InvocationRequest → Outcome json)) : EngineConfig :=
  mkEngineConfig (shopLoaded executors) true shopOptions None None.
Definition shopRequest : ExecuteRequest :=
  mkExecuteRequest (Some (mkAdmissionRequest " exec" "" "tenant" "shop" "v1" shopInput "" "")) "" (WaitOther "") None.
Definition noIdentity (_ : string) : result (string * string) := Err (errorf "no identity").
Definition noEnvironment (_ : string) : result Environment := Err (errorf "no environment").
Definition quietEngines (_ : nat) (l : InMemoryExecutionLedger) : InMemoryExecutionLedger := l.
Definition freshWorld : EngineWorld (P := InMemoryProvider) := mkEngineWorld shopWorld NewInMemoryExecutionLedger.
#[local] Abbreviation shopExecute executors :=
  (Execute (quietOracle 1000) quietEngines noFloat noRegexp noIdentity noEnvironment (shopEngine executors) 9 None shopRequest freshWorld).

Lemma shop_setting executors : sharedSetting (quietOracle 1000) quietEngines (shopEngine executors).
Proof.
  split; try done. split_and!.
  - apply (bool_decide_unpack _). reflexivity.
  - cbn. intros p [->|[->|?%elem_of_nil]%elem_of_cons]%elem_of_cons; [| |done]; apply (bool_decide_unpack _); reflexivity.
  - by intros a [= <-].
Qed.
Lemma fresh_starts : startsFrom freshWorld.
Proof. split; apply rtc_refl. Qed.

Definition shopSuccess : EngineWorld (P := InMemoryProvider) := Eval vm_compute in snd (shopExecute (sn_executors shopGeneration)).
Definition shopCompleted : ExecuteResult := Eval vm_compute in
  match fst (shopExecute (sn_executors shopGeneration)) with Some (res, _) => res | None => noResult end.
Lemma shopSuccess_Ok : shopExecute (sn_executors shopGeneration) = (Some (shopCompleted, None), shopSuccess).
Proof. vm_cast_no_check (@eq_refl _ (Some (shopCompleted, @None error), shopSuccess)). Qed.
Example shop_completed : (rs_State shopCompleted, rs_Completed shopCompleted) = ("completed", true).
Proof. reflexivity. Qed.
Lemma mine_fresh T : mine T "exec" quietEngines (ew_ledger freshWorld).
Proof. split; [done|]. by intros (r & Lr & _). Qed.
Lemma reported_success_is_earned_witness :
  Forall (λ plan, pl_Steps plan ≠ [] → workflowDone (storeIn shopSuccess) "tenant" "exec" (ch_Digest (sn_checked shopGeneration)) plan)
    (ch_Plans (sn_checked shopGeneration)).
Proof.
  destruct (reported_success_is_earned (quietOracle 1000) quietEngines noFloat noRegexp noIdentity noEnvironment (shopEngine (sn_executors shopGeneration)) 9 None
    shopRequest "exec" freshWorld shopSuccess shopCompleted (shop_setting _) fresh_starts eq_refl shopSuccess_Ok) as (rec & Lr & _ & _ & Hd).
  destruct (Hd (mine_fresh _)) as (g & [->|(f & n & a & Ef & _)] & _ & Hp); [|discriminate Ef].
  assert (er_TenantNamespace rec = "tenant" ∧ planIDs rec = pl_Id <$> ch_Plans (sn_checked shopGeneration)) as (E1 & E2).
  { assert (lg_executions (ew_ledger shopSuccess) !! "exec" = Some rec) as Lr' by exact Lr. vm_compute in Lr'. injection Lr' as <-. vm_compute. split; reflexivity. }
  apply Forall_forall. intros plan H1 H2. rewrite <-E1. apply Hp; [exact H1| |done]. rewrite E2. apply list_elem_of_fmap. by exists plan.
Defined.
Lemma effects_need_authority_witness : ∃ l rec, rtc ledger_step (ew_ledger freshWorld) l ∧ rtc ledger_step l (ew_ledger shopSuccess) ∧ lg_executions l !! "exec" = Some rec ∧
  IsTerminalExecutionState (er_State rec) = false ∧ er_RecoveryToken rec = "".
Proof.
  exact (effects_need_authority (quietOracle 1000) quietEngines noFloat noRegexp noIdentity noEnvironment (shopEngine (sn_executors shopGeneration)) 9 None
    shopRequest WaitTerminal "exec" freshWorld shopSuccess _ (shop_setting _) fresh_starts eq_refl shopSuccess_Ok ltac:(discriminate)).
Defined.

(** The second effect fails for good: the first is undone and the execution has failed. *)
Definition failing : gmap string (nat → InvocationRequest → Outcome json) :=
  <["notify" := λ _ _, mkOutcome OutcomePermanentFailure JNull (Some (errorf "refused"))]> (sn_executors shopGeneration).
Definition shopFailure : EngineWorld (P := InMemoryProvider) := Eval vm_compute in snd (shopExecute failing).
Definition failedRecord : option ExecutionRecord := Eval vm_compute in lg_executions (ew_ledger shopFailure) !! "exec".
Example shop_failed : (er_State <$> failedRecord, iv_Verb <$> invokedIn shopFailure) = (Some ExecutionFailed, ["ship"; "notify"; "unship"]).
Proof. reflexivity. Qed.
