(* ===== verification/Recovery.v ===== *)
(** * Recovery ([runtime/recovery.go])

    A worker that leases interrupted executions one at a time and resumes each through
    [Execute]. While an execution runs, a goroutine renews its lease: the renewals are
    among the operations that the ledger sees between two calls of the engine, and the
    cancellation it may cause is what the context readings of the oracle report. The
    worker and the engine share one in-memory ledger, which supports renewal and keeps no
    statistics. Observations change nothing. *)

From S2P Require Import Prelude GoText Sha256 Json Workflow Identity Outbox OutboxInv OutboxDyn OutboxOps OutboxClose OutboxGrowth OutboxDemo OutboxClient.
From S2P Require Import Fencing Ledger LedgerProps Ir Types Env Check Value Eval Admission ArtifactDemo ArtifactProps FactProps Dispatcher DispatcherProps.
From S2P Require Import CheckedEnqueue Driver DriverProps EngineState Engine EngineRuns EngineProps.
From Stdlib Require Import ZArith String.
Local Open Scope list_scope.
Local Open Scope Z_scope.

Record RecoveryWorker : Type := mkRecovery {
  rw_Owner : string;
  rw_BatchSize : Z;
  rw_LeaseDuration : Duration;
  rw_PollInterval : Duration }.

(** Batch size, lease duration and poll interval. *)
Definition settings (worker : RecoveryWorker) : result (Z * Duration * Duration) :=
  failIf (bool_decide (TrimSpace (rw_Owner worker) = "")) (errorf "recovery worker owner is required") ;;
  failIf (bool_decide (rw_BatchSize worker < 0) || bool_decide (rw_LeaseDuration worker < 0) || bool_decide (rw_PollInterval worker < 0))
    (errorf "recovery sizes and durations must not be negative") ;;
  let batch := if bool_decide (rw_BatchSize worker = 0) then 32 else rw_BatchSize worker in
  let duration := if bool_decide (rw_LeaseDuration worker = 0) then 30 * Second else rw_LeaseDuration worker in
  failIf (bool_decide (duration < Microsecond)) (errorf "recovery lease must be at least one microsecond") ;;
  let interval := if bool_decide (rw_PollInterval worker = 0) then Second else rw_PollInterval worker in
  Ok (batch, duration, interval).

Section Recovery.
  Context {P L : Type} `{FencingProvider P L} (o : Oracle (P := P)).
  Context (otherEngines : nat → InMemoryExecutionLedger → InMemoryExecutionLedger).
  Context (formatFloat : spec_float → string) (matchString : string → string → result bool).
  Context (decodeIdentity : string → result (string * string)) (decodeEnvironment : string → result Environment).
  Context (engine : EngineConfig) (begin : nat → option error).
  #[local] Existing Instance erun_ret.
  #[local] Existing Instance erun_bind.
  #[local] Abbreviation erun := (erun (P := P)).

Definition lost (e : error) : error := mkError (errRecoveryLeaseLost :: err_is e) (err_text e).

(** The new deadline. [RenewExecutionLease] runs under a context that ends at [deadline]. *)
Definition renewRecoveryLease (lease : ExecutionLease) (duration : Duration) : erun (result Time) :=
  start ← onWorld (timeNow o);
  let nextDeadline := timeAdd start duration in
  renewed ← onLedger otherEngines (λ n, RenewExecutionLease (o_ctx o n) (o_now o n 0) lease duration);
  match renewed with
  | Err e => mret (Err (lost e))
  | Ok renewed =>
      ended ← onWorld (contextErr o);
      match ended with
      | Some e => mret (Err (lost e))
      | None =>
          now ← onWorld (timeNow o);
          mret (if bool_decide (el_ExecutionID renewed ≠ el_ExecutionID lease) || bool_decide (el_Owner renewed ≠ el_Owner lease)
                   || bool_decide (el_Token renewed ≠ el_Token lease) || bool_decide (el_Revision renewed ≠ el_Revision lease)
                   || negb (timeAfter nextDeadline now)
                then Err (wrapf errRecoveryLeaseLost "renewal changed lease identity or exceeded its duration")
                else Ok nextDeadline)
      end
  end.

(** [None] while the driver is running; [context.Cause] is a reading of the call's context. *)
Definition executeLease (fuel : nat) (lease : ExecutionLease) (duration : Duration) : erun (option outcome) :=
  renewed ← renewRecoveryLease lease duration;
  match renewed with
  | Err e => mret (Some (noResult, Some e))
  | Ok _ =>
      n ← (λ w, (w_calls (ew_world w), w));
      r ← Execute o otherEngines formatFloat matchString decodeIdentity decodeEnvironment engine fuel (begin n)
            (mkExecuteRequest None (el_ExecutionID lease) WaitTerminal (Some lease));
      cause ← onWorld (contextErr o);
      mret (match r with
            | None => None
            | Some (result, Some err) => Some (result, joinErrors [Some err; cause])
            | Some (result, None) => Some (result, None)
            end)
  end.

(** [worker.Store.LeaseExecutions(ctx, worker.Owner, 1, leaseDuration)] *)
Definition leaseNext (owner : string) (duration : Duration) : erun (result (list ExecutionLease)) := λ w,
  let n := w_calls (ew_world w) in
  let '(leases, ledger) := LeaseExecutions (o_ctx o n) (o_now o n 0) (λ _, o_token o n) owner 1 duration (otherEngines n (ew_ledger w)) in
  (leases, mkEngineWorld (tick (ew_world w)) ledger).

(** The loop of [RunOnce]: the number of executions processed and the error. *)
Fixpoint recoverLoop (fuel rounds : nat) (owner : string) (duration : Duration) (processed : Z) : erun (option (Z * option error)) :=
  match rounds with
  | O => mret (Some (processed, None))
  | S rounds =>
      ended ← onWorld (contextErr o);
      match ended with
      | Some e => mret (Some (processed, Some e))
      | None =>
          _ ← onWorld (timeNow o);
          leases ← leaseNext owner duration;
          match leases with
          | Err e => mret (Some (processed, Some (annotate "lease recovery execution: " e)))
          | Ok [] => mret (Some (processed, None))
          | Ok (_ :: _ :: _) => mret (Some (processed, Some (errorf "recovery lease store returned more executions than the limit")))
          | Ok [lease] =>
              r ← executeLease fuel lease duration;
              match r with
              | None => mret None
              | Some (_, executeErr) =>
                  let processed := processed + 1 in
                  let failedWith s := match executeErr with Some e => errorsIs e s | None => false end in
                  if failedWith errRecoveryLeaseLost then mret (Some (processed, None)) else
                  if failedWith ErrDurableDisposition then mret (Some (processed, executeErr)) else
                  if failedWith ErrActiveDispatchLease then mret (Some (processed, None)) else
                  recoverLoop fuel rounds owner duration processed
              end
          end
      end
  end.
Definition RunOnce (fuel : nat) (worker : RecoveryWorker) : erun (option (Z * option error)) :=
  match settings worker with
  | Err e => mret (Some (0, Some e))
  | Ok (batchSize, duration, _) => recoverLoop fuel (Z.to_nat batchSize) (rw_Owner worker) duration 0
  end.
(** [Run] for [polls] polls. *)
Fixpoint Run (fuel polls : nat) (worker : RecoveryWorker) : erun (option (option error)) :=
  match settings worker with
  | Err e => mret (Some (Some e))
  | Ok _ =>
      match polls with
      | O => mret None
      | S polls =>
          r ← RunOnce fuel worker;
          match r with
          | None => mret None
          | Some (_, Some e) =>
              ended ← onWorld (contextErr o);
              mret (Some (match ended with Some _ => None | None => Some e end))
          | Some (_, None) =>
              ended ← onWorld (contextErr o);
              match ended with
              | Some _ => mret (Some None)
              | None => Run fuel polls worker
              end
          end
      end
  end.
End Recovery.

(** ** What a recovery poll does

    A poll stays within its batch, only uses ledger and store operations, and comes back
    empty-handed without an error only when there was nothing to recover. *)

Section Recovered.
  Context {P L : Type} `{FencingProvider P L} (o : Oracle (P := P)) (otherEngines : nat → InMemoryExecutionLedger → InMemoryExecutionLedger).
  Context (formatFloat : spec_float → string) (matchString : string → string → result bool).
  Context (decodeIdentity : string → result (string * string)) (decodeEnvironment : string → result Environment) (engine : EngineConfig).
  Context (Hset : sharedSetting o otherEngines engine) (Htoken : ∀ n t, o_token o n = Ok t → t ≠ "").
  #[local] Existing Instance erun_ret.
  #[local] Existing Instance erun_bind.
  #[local] Abbreviation EngineWorld := (EngineWorld (P := P)).
  Context (base : EngineWorld).

(** [rspec m w Q]: the rule of [EngineRuns] with nothing to justify. *)
Definition rspec {A} (m : erun (P := P) A) (w : EngineWorld) (Q : A → EngineWorld → Prop) : Prop := espec base (λ _, False) (λ _, True) "" m w Q.
Lemma rspec_bind {A B} (m : erun A) (f : A → erun B) w Q1 Q :
  rspec m w Q1 → (∀ a w1, einv base w1 → advance w w1 → Q1 a w1 → rspec (f a) w1 Q) → rspec (m ≫= f) w Q.
Proof. intros Hm Hf. eapply espec_bind; [done|exact Hm|exact Hf]. Qed.
Lemma rspec_ret {A} (a : A) w (Q : A → EngineWorld → Prop) : Q a w → rspec (mret a) w Q.
Proof. apply espec_ret. Qed.
Lemma rspec_advance {A} (m : erun A) w (Q : A → EngineWorld → Prop) : (einv base w → ∀ a w', m w = (a, w') → advance w w' ∧ Q a w') → rspec m w Q.
Proof. intros Hm Hi a w' E. destruct (Hm Hi _ _ E) as [A1 H1]. split; [done|]. split; [by intros (? & _ & ?)|done]. Qed.

Lemma rspec_Execute fuel begin request w :
  rspec (Execute o otherEngines formatFloat matchString decodeIdentity decodeEnvironment engine fuel begin request) w (λ _ _, True).
Proof.
  apply rspec_advance. intros Hi r w' E. split; [|done]. destruct (checkRequest request) as [[wait k]|e] eqn:Ec.
  - by apply (execute_runs o otherEngines formatFloat matchString decodeIdentity decodeEnvironment engine (λ _, False) (λ _, True) k fuel begin request wait w r w'
      Hset Ec ltac:(by intros ? ? (? & _ & ?)) ltac:(by intros ? _ ?) ltac:(done) ltac:(done) ltac:(done) (einv_self _ _ Hi) E).
  - unfold Execute in E. rewrite Ec in E. by injection E as <- <-.
Qed.
Lemma rspec_tick {A} (f : World (P := P) → A) w : rspec (onWorld (λ v, (f v, tick v))) w (λ _ _, True).
Proof. apply rspec_advance. intros Hi a w' E. unfold onWorld in E. by injection E as <- <-. Qed.
Lemma rspec_renew lease duration w : rspec (renewRecoveryLease o otherEngines lease duration) w (λ _ _, True).
Proof.
  unfold renewRecoveryLease. eapply rspec_bind; [apply (rspec_tick (λ v, o_now o (w_calls v) 0))|]. intros start w1 _ _ _. cbv zeta.
  eapply rspec_bind; [eapply espec_RenewExecutionLease; [apply Hset|by intros ? ? (? & _ & ?)|done|apply Hset]|]. intros r w2 _ _ _.
  destruct r as [le|]; [|by apply rspec_ret]. eapply rspec_bind; [apply (rspec_tick (λ v, o_ctx o (w_calls v)))|]. intros ended w3 _ _ _.
  destruct ended; [by apply rspec_ret|]. eapply rspec_bind; [apply (rspec_tick (λ v, o_now o (w_calls v) 0))|]. intros now w4 _ _ _. by apply rspec_ret.
Qed.
Lemma rspec_executeLease begin fuel lease duration w :
  rspec (executeLease o otherEngines formatFloat matchString decodeIdentity decodeEnvironment engine begin fuel lease duration) w (λ _ _, True).
Proof.
  unfold executeLease. eapply rspec_bind; [apply rspec_renew|]. intros r w1 _ _ _. destruct r; [|by apply rspec_ret].
  eapply rspec_bind; [by apply (rspec_advance _ _ (λ _ _, True)); intros _ ? ? [= <- <-]|]. intros n w2 _ _ _.
  eapply rspec_bind; [apply rspec_Execute|]. intros out w3 _ _ _. eapply rspec_bind; [apply (rspec_tick (λ v, o_ctx o (w_calls v)))|].
  intros cause w4 _ _ _. by apply rspec_ret.
Qed.
(** Nothing in the ledger could be leased, by the clock of this worker. *)
Definition nothingToRecover (l : InMemoryExecutionLedger) : Prop := ∃ n, leaseCandidates (o_now o n 0) l = [].
Lemma rspec_leaseNext owner duration w : rspec (leaseNext o otherEngines owner duration) w
  (λ r w', r = Ok [] → ∃ l, rtc ledger_step (ew_ledger w) l ∧ rtc ledger_step l (ew_ledger w') ∧ nothingToRecover l).
Proof.
  apply rspec_advance. intros Hi r w' E. unfold leaseNext in E. set (n := w_calls _) in E. set (l := otherEngines n _) in E.
  assert (rtc ledger_step (ew_ledger w) l) as R by apply Hset. destruct (LeaseExecutions _ _ _ _ _ _ l) as [leases l'] eqn:El. injection E as <- <-.
  assert (ledger_step l l') as S by (eapply ls_lease; [|exact El]; intros i t; apply Htoken).
  split; [split; [eapply rtc_r; [exact R|exact S]|done]|]. intros ->. exists l. split; [done|]. split; [by apply rtc_once|].
  unfold LeaseExecutions in El. destruct (o_ctx o n); [done|]. destruct (_ || _); [done|]. exists n.
  destruct (leaseCandidates (o_now o n 0) l) as [|[k rec] rest] eqn:Ec; [done|]. change (Z.to_nat 1) with 1%nat in El. cbn [take leaseAll] in El.
  destruct (o_token o n) as [tok|]; [|done]. by injection El.
Qed.
Lemma rspec_recoverLoop begin fuel rounds owner duration processed w :
  rspec (recoverLoop o otherEngines formatFloat matchString decodeIdentity decodeEnvironment engine begin fuel rounds owner duration processed) w
    (λ r w', ∀ n err, r = Some (n, err) → processed ≤ n ≤ processed + Z.of_nat rounds ∧
      (n = processed → err = None → rounds ≠ 0%nat →
       ∃ l, rtc ledger_step (ew_ledger w) l ∧ rtc ledger_step l (ew_ledger w') ∧ nothingToRecover l)).
Proof.
  revert processed w. induction rounds as [|rounds IH]; intros processed w; cbn [recoverLoop].
  - apply rspec_ret. intros n err [= <- <-]. split; [lia|done].
  - eapply rspec_bind; [apply (rspec_tick (λ v, o_ctx o (w_calls v)))|]. intros ended w1 _ A1 _.
    destruct ended; [apply rspec_ret; intros n err [= <- <-]; split; [lia|done]|].
    eapply rspec_bind; [apply (rspec_tick (λ v, o_now o (w_calls v) 0))|]. intros now w2 _ A2 _.
    eapply rspec_bind; [apply rspec_leaseNext|]. intros leases w3 _ A3 Hl. destruct leases as [[|lease [|? ?]]|e].
    + apply rspec_ret. intros n err [= <- <-]. split; [lia|]. intros _ _ _. destruct (Hl eq_refl) as (l & R1 & R2 & Hn). exists l.
      split; [|done]. exact (transitivity (proj1 A1) (transitivity (proj1 A2) R1)).
    + eapply rspec_bind; [apply rspec_executeLease|]. intros r w4 _ A4 _. destruct r as [[res err]|]; [|by apply rspec_ret]. cbv zeta.
      assert (∀ e : option error, rspec (mret (M := EngineState.erun (P := P)) (Some (processed + 1, e))) w4 (λ r w', ∀ n (err : option error), r = Some (n, err) → processed ≤ n ≤ processed + Z.of_nat (S rounds) ∧
        (n = processed → err = None → S rounds ≠ 0%nat → ∃ l, rtc ledger_step (ew_ledger w) l ∧ rtc ledger_step l (ew_ledger w') ∧ nothingToRecover l))) as Hret.
      { intros e. apply rspec_ret. intros n err' [= <- <-]. split; lia. }
      repeat (match goal with |- rspec (if ?b then _ else _) _ _ => destruct b; [apply Hret|] end).
      eapply espec_mono; [apply IH|]. intros r w' _ _ Hr n err' E. destruct (Hr _ _ E) as [Hb _]. split; [lia|]. intros ->. lia.
    + apply rspec_ret. intros n err [= <- <-]. split; [lia|done].
    + apply rspec_ret. intros n err [= <- <-]. split; [lia|done].
Qed.
End Recovered.

(** C40: A poll is bounded and honest. [RunOnce] processes at most its batch; whatever other
    engines and workers do, ledger and store only ever advance by their operations; and a poll
    that processes nothing and reports no error met a moment at which no execution in
    the ledger could be leased. *)
Theorem recovery_poll_is_bounded {P L} `{FencingProvider P L} (o : Oracle (P := P)) otherEngines formatFloat matchString decodeIdentity
    decodeEnvironment engine begin fuel worker batch duration interval (w w' : EngineWorld (P := P)) processed err :
  sharedSetting o otherEngines engine → (∀ n t, o_token o n = Ok t → t ≠ "") → startsFrom w → settings worker = Ok (batch, duration, interval) →
  RunOnce o otherEngines formatFloat matchString decodeIdentity decodeEnvironment engine begin fuel worker w = (Some (processed, err), w') →
  0 ≤ processed ≤ batch ∧ advance w w' ∧
  (processed = 0 → err = None →
   ∃ l, rtc ledger_step (ew_ledger w) l ∧ rtc ledger_step l (ew_ledger w') ∧ nothingToRecover o l).
Proof.
  intros Ss Ht Hi%starts_inv Es E. unfold RunOnce in E. rewrite Es in E.
  assert (0 < batch) as Hb. { unfold settings in Es. do 2 apply bind_Ok in Es as ([] & ?%failIf_Ok & Es). apply bind_Ok in Es as ([] & _ & Es).
    rewrite !orb_false_iff, !bool_decide_eq_false in *. injection Es as <- _ _. case_bool_decide; lia. }
  destruct (rspec_recoverLoop o otherEngines formatFloat matchString decodeIdentity decodeEnvironment engine Ss Ht w begin fuel _ _ _ 0 w Hi _ _ E)
    as (A & _ & Hr). destruct (Hr _ _ eq_refl) as [B C]. split; [lia|]. split; [done|]. intros E0 En. apply C; [done|done|lia].
Qed.
Definition demoWorker : RecoveryWorker := mkRecovery "worker" 0 0 0.
Definition idleRun := RunOnce (quietOracle 1000) quietEngines noFloat noRegexp noIdentity noEnvironment (shopEngine failing) (λ _, None) 9 demoWorker freshWorld.
Lemma recovery_poll_is_bounded_witness : ∃ l, rtc ledger_step (ew_ledger freshWorld) l ∧ nothingToRecover (quietOracle 1000) l.
Proof.
  destruct (recovery_poll_is_bounded (quietOracle 1000) quietEngines noFloat noRegexp noIdentity noEnvironment (shopEngine failing) (λ _, None) 9 demoWorker
    32 (30 * Second) Second freshWorld (snd idleRun) 0 None (shop_setting _) ltac:(intros n t E; by injection E as <-) fresh_starts eq_refl
    ltac:(vm_compute; reflexivity)) as (_ & _ & H). destruct (H eq_refl eq_refl) as (l & R & _ & Hn). by exists l.
Defined.
