(* ===== verification/GoPath.v ===== *)
(** * Paths and quoted text

    The parts of [path], [path/filepath] (on a slash-separated system), [strconv] and
    [strings] that the front end and the source bundle use. *)

From S2P Require Import Prelude GoText Json.
From stdpp Require Import pretty.
From Stdlib Require Import ZArith NArith Ascii String.
Local Open Scope list_scope.

(** ** [path.Clean] and [path.Ext] *)
Fixpoint splitSlash (l : list ascii) : list (list ascii) :=
  match l with
  | [] => [[]]
  | a :: l =>
      if byteIs 47 a then [] :: splitSlash l
      else match splitSlash l with c :: cs => (a :: c) :: cs | [] => [[a]] end
  end.
Fixpoint joinSlash (cs : list (list ascii)) : list ascii :=
  match cs with
  | [] => []
  | [c] => c
  | c :: cs => c ++ chr 47 :: joinSlash cs
  end.
Definition dot : list ascii := [chr 46].
Definition dotdot : list ascii := [chr 46; chr 46].
(** One element of the path; [out] are the elements kept so far, the last one first. *)
Definition cleanElement (rooted : bool) (out : list (list ascii)) (c : list ascii) : list (list ascii) :=
  if bool_decide (c = []) || bool_decide (c = dot) then out
  else if bool_decide (c = dotdot) then
    match out with
    | last :: rest => if bool_decide (last = dotdot) then dotdot :: out else rest
    | [] => if rooted then [] else [dotdot]
    end
  else c :: out.
Definition Clean (path : string) : string :=
  let rooted := HasPrefix path "/" in
  let kept := rev (foldl (cleanElement rooted) [] (splitSlash (bytes path))) in
  match kept with
  | [] => if rooted then "/" else "."
  | _ => ofBytes ((if rooted then [chr 47] else []) ++ joinSlash kept)
  end.

Fixpoint extRev (l acc : list ascii) : list ascii :=
  match l with
  | [] => []
  | a :: l => if byteIs 47 a then [] else if byteIs 46 a then a :: acc else extRev l (a :: acc)
  end.
Definition Ext (path : string) : string := ofBytes (extRev (rev (bytes path)) []).

Example clean_examples : (Clean <$> [""; "a//b/./c/.."; "../x"; "/../a/"; "a/../.."; "./"]) = ["."; "a/b"; "../x"; "/a"; ".."; "."].
Proof. reflexivity. Qed.
Example ext_examples : (Ext <$> ["rules/a.eff"; "a.b/c"; "x.effx"; ".eff"; "a."]) = [".eff"; ""; ".effx"; ".eff"; "."].
Proof. reflexivity. Qed.

(** ** [strconv.Unquote] of a string in double or single quotes *)
Definition decodeRune (l : list ascii) : option (rune * list ascii) :=
  match runes l with
  | r :: _ => Some (r, drop (List.length (runeBytes r)) l)
  | [] => None
  end.
Definition hexNumber (l : list ascii) : option N := foldl (λ acc a, v ← acc; x ← hexVal a; Some (v * 16 + x)%N) (Some 0%N) l.
Definition octVal (a : ascii) : option N := if byteIn 48 55 a then Some (byteN a - 48)%N else None.
Definition validRune (v : N) : bool := bool_decide (v < 1114112)%N && negb (highSurrogate v || lowSurrogate v).

(** An escape with [n] hexadecimal digits; [\x] denotes a byte, [\u] and [\U] a rune. *)
Definition hexEscape (n : nat) (isByte : bool) (l : list ascii) : option (list ascii * list ascii) :=
  if bool_decide (List.length l < n)%nat then None else
  v ← hexNumber (take n l);
  if isByte then Some ([chr v], drop n l)
  else if validRune v then Some (encodeRune v, drop n l) else None.
Definition octalEscape (c : ascii) (l : list ascii) : option (list ascii * list ascii) :=
  match l with
  | a :: b :: l =>
      x ← octVal c; y ← octVal a; z ← octVal b;
      let v := (x * 64 + y * 8 + z)%N in
      if bool_decide (255 < v)%N then None else Some ([chr v], l)
  | _ => None
  end.
(** After the backslash. *)
Definition unquoteEscape (quote : ascii) (l : list ascii) : option (list ascii * list ascii) :=
  match l with
  | [] => None
  | c :: l =>
      if byteIs 97 c then Some ([chr 7], l) else if byteIs 98 c then Some ([chr 8], l)
      else if byteIs 102 c then Some ([chr 12], l) else if byteIs 110 c then Some ([chr 10], l)
      else if byteIs 114 c then Some ([chr 13], l) else if byteIs 116 c then Some ([chr 9], l)
      else if byteIs 118 c then Some ([chr 11], l)
      else if byteIs 120 c then hexEscape 2 true l
      else if byteIs 117 c then hexEscape 4 false l
      else if byteIs 85 c then hexEscape 8 false l
      else if byteIn 48 55 c then octalEscape c l
      else if byteIs 92 c then Some ([c], l)
      else if byteIs 39 c || byteIs 34 c then (if bool_decide (c = quote) then Some ([c], l) else None)
      else None
  end.
(** [UnquoteChar], with the bytes it appends. *)
Definition unquoteChar (quote : ascii) (l : list ascii) : option (list ascii * list ascii) :=
  match l with
  | [] => None
  | c :: rest =>
      if bool_decide (c = quote) then None
      else if negb (enc1 c) then
        '(r, rest) ← decodeRune l; Some (match r with RBad _ => replacement | _ => runeBytes r end, rest)
      else if byteIs 92 c then unquoteEscape quote rest
      else Some ([c], rest)
  end.
(** The loop over the characters; a single-quoted string has one. *)
Fixpoint unquoteLoop (fuel : nat) (quote : ascii) (l out : list ascii) : option (list ascii) :=
  match fuel, l with
  | S fuel, c :: rest =>
      if bool_decide (c = quote) then (if bool_decide (rest = []) then Some out else None)
      else if byteIs 10 c then None
      else '(text, rest) ← unquoteChar quote l;
           if byteIs 39 quote then
             (match rest with [q] => if bool_decide (q = quote) then Some (out ++ text) else None | _ => None end)
           else unquoteLoop fuel quote rest (out ++ text)
  | _, _ => None
  end.
Definition Unquote (s : string) : option string :=
  match bytes s with
  | quote :: l =>
      if byteIs 34 quote || byteIs 39 quote then ofBytes <$> unquoteLoop (S (List.length l)) quote l []
      else if byteIs 96 quote then
        (* a raw string: carriage returns are dropped *)
        match rev l with
        | close :: body =>
            if bool_decide (close = quote) && negb (existsb (byteIs 96) body)
            then Some (ofBytes (List.filter (λ a, negb (byteIs 13 a)) (rev body))) else None
        | [] => None
        end
      else None
  | [] => None
  end.
Definition dq : string := String (chr 34) EmptyString.
Example unquote_examples :
  (Unquote <$> [dq +:+ "a\tb" +:+ dq; "'x'"; "'xy'"; dq +:+ "\u00e9\x41\101" +:+ dq; dq +:+ "open"; "'\''"; "bare"])
  = [Some ("a" +:+ String (chr 9) "b"); Some "x"; None; Some (String (chr 195) (String (chr 169) "AA")); None; Some "'"; None].
Proof. reflexivity. Qed.

(** ** [strings.ReplaceAll] of line endings: CRLF, then CR, to LF *)
Fixpoint newlines (l : list ascii) : list ascii :=
  match l with
  | [] => []
  | a :: l =>
      if byteIs 13 a then chr 10 :: (match l with b :: l' => if byteIs 10 b then newlines l' else newlines l | [] => [] end)
      else a :: newlines l
  end.
(** [strings.TrimPrefix] *)
Definition TrimPrefix (s p : string) : string :=
  if HasPrefix s p then ofBytes (drop (String.length p) (bytes s)) else s.
(** [fmt.Sprintf("%06d", n)] of a number that is not negative *)
Definition pad6 (n : Z) : string :=
  let digits := pretty n in ofBytes (replicate (6 - String.length digits) (chr 48)) +:+ digits.
Example pad6_examples : (pad6 <$> [1; 123456; 1234567]%Z) = ["000001"; "123456"; "1234567"].
Proof. reflexivity. Qed.

(** ** Decimal numbers *)
Local Open Scope Z_scope.
Definition digitStep (n : Z) (a : ascii) : Z := 10 * n + (Z.of_N (byteN a) - 48).
Lemma pretty_N_char_spec n : (n < 10)%N → byteN (pretty_N_char n) = (48 + n)%N.
Proof.
  intros Hn. assert (n = 0 ∨ n = 1 ∨ n = 2 ∨ n = 3 ∨ n = 4 ∨ n = 5 ∨ n = 6 ∨ n = 7 ∨ n = 8 ∨ n = 9)%N as Hc by lia.
  by repeat (destruct Hc as [->|Hc]; [done|]); subst.
Qed.
Lemma pretty_go_digits x s : Forall (λ a, byteIn 48 57 a = true) (bytes s) → Forall (λ a, byteIn 48 57 a = true) (bytes (pretty_N_go x s)).
Proof.
  revert s. induction (N.lt_wf_0 x) as [x _ IH]; intros s Hs. destruct (decide (x = 0)%N) as [->|Hx]; [by rewrite pretty_N_go_0|].
  rewrite pretty_N_go_step by lia. apply IH; [apply N.div_lt; lia|]. cbn. constructor; [|done].
  apply byteIn_spec. rewrite pretty_N_char_spec by (apply N.mod_lt; lia). generalize (N.mod_lt x 10 ltac:(done)). generalize (x mod 10)%N. intros m Hm. clear -Hm. lia.
Qed.
Lemma pretty_go_value x s : foldl digitStep 0 (bytes (pretty_N_go x s)) = foldl digitStep (Z.of_N x) (bytes s).
Proof.
  revert s. induction (N.lt_wf_0 x) as [x _ IH]; intros s. destruct (decide (x = 0)%N) as [->|Hx]; [by rewrite pretty_N_go_0|].
  rewrite pretty_N_go_step by lia. rewrite IH by (apply N.div_lt; lia). cbn. f_equal. unfold digitStep.
  rewrite pretty_N_char_spec by (apply N.mod_lt; lia). rewrite (N.div_mod x 10) at 3 by lia. lia.
Qed.
Lemma pretty_nonneg_digits z : 0 ≤ z → Forall (λ a, byteIn 48 57 a = true) (bytes (pretty z)).
Proof.
  destruct z as [|p|p]; intros Hz; [by repeat constructor| |lia]. unfold pretty, pretty_Z, pretty, pretty_positive, pretty, pretty_N.
  rewrite decide_False by done. by apply pretty_go_digits.
Qed.
Lemma pretty_nonneg_value z : 0 ≤ z → foldl digitStep 0 (bytes (pretty z)) = z.
Proof.
  destruct z as [|p|p]; intros Hz; [done| |lia]. unfold pretty, pretty_Z, pretty, pretty_positive, pretty, pretty_N.
  rewrite decide_False by done. by rewrite pretty_go_value.
Qed.
Lemma zeros_value n l : foldl digitStep 0 (replicate n (chr 48) ++ l) = foldl digitStep 0 l.
Proof. induction n; [done|]. cbn [replicate app foldl]. by change (digitStep 0 (chr 48)) with 0. Qed.
Lemma pad6_inj a b : 0 ≤ a → 0 ≤ b → pad6 a = pad6 b → a = b.
Proof.
  intros Ha Hb E. assert (∀ z, 0 ≤ z → foldl digitStep 0 (bytes (pad6 z)) = z) as V.
  { intros z Hz. unfold pad6. rewrite bytes_app, bytes_ofBytes, zeros_value. by apply pretty_nonneg_value. }
  rewrite <-(V a Ha), <-(V b Hb). by rewrite E.
Qed.

(** A separator that neither prefix contains splits a list in one way. *)
Lemma separator_unique {A} (x : A) l l' r r' : x ∉ l → x ∉ l' → l ++ x :: r = l' ++ x :: r' → l = l' ∧ r = r'.
Proof.
  revert l'. induction l as [|a l IH]; intros [|a' l'] Hl Hl' H; cbn in H; [by simplify_eq|set_solver..|].
  injection H as <- H. destruct (IH l') as [-> ->]; set_solver.
Qed.
