(* ===== verification/SourceScan.v ===== *)
(** * Finding the [when] blocks of a source text ([compiler/checked.go])

    The parser does not keep the text of predicates; the front end finds it again in the
    bytes of the file. An index into the data is the rest of the data from that index. *)

From S2P Require Import Prelude GoText Json.
From Stdlib Require Import ZArith NArith Ascii String.
Local Open Scope list_scope.

Definition isSourceIdentStart (value : ascii) : bool :=
  byteIs 95 value || byteIn 97 122 value || byteIn 65 90 value.
Definition isSourceIdentPart (value : ascii) : bool :=
  isSourceIdentStart value || byteIn 48 57 value.
Definition isQuote (a : ascii) : bool := byteIs 34 a || byteIs 39 a.
(** [//] or [#] *)
Definition startsComment (data : list ascii) : bool :=
  match data with
  | a :: l => (byteIs 47 a && match l with b :: _ => byteIs 47 b | [] => false end) || byteIs 35 a
  | [] => false
  end.

(** After the opening quote. *)
Fixpoint skipQuotedFrom (quote : ascii) (data : list ascii) : list ascii :=
  match data with
  | [] => []
  | a :: l =>
      if byteIs 92 a then match l with [] => [] | _ :: l => skipQuotedFrom quote l end
      else if bool_decide (a = quote) then l else skipQuotedFrom quote l
  end.
Definition skipQuotedSource (data : list ascii) : list ascii :=
  match data with [] => [] | quote :: l => skipQuotedFrom quote l end.
Fixpoint skipSourceComment (data : list ascii) : list ascii :=
  match data with
  | [] => []
  | a :: l => if byteIs 10 a then data else skipSourceComment l
  end.
Definition isTrivia (a : ascii) : bool := byteIs 32 a || byteIs 9 a || byteIs 13 a || byteIs 10 a.
Fixpoint skipSourceTrivia (fuel : nat) (data : list ascii) : list ascii :=
  match fuel, data with
  | S fuel, a :: l =>
      if isTrivia a then skipSourceTrivia fuel l
      else if startsComment data then skipSourceTrivia fuel (skipSourceComment data)
      else data
  | _, _ => data
  end.

(** The identifier in front of the data, and the rest. *)
Fixpoint spanIdent (data : list ascii) : list ascii * list ascii :=
  match data with
  | [] => ([], [])
  | a :: l => if isSourceIdentPart a then let '(w, r) := spanIdent l in (a :: w, r) else ([], data)
  end.

(** The inner loop, to the brace that closes the block: [None] when there is none. *)
Fixpoint closeBlock (fuel : nat) (depth : nat) (cursor : list ascii) : option (list ascii) :=
  match fuel, cursor with
  | S fuel, a :: l =>
      if isQuote a then closeBlock fuel depth (skipQuotedSource cursor)
      else if startsComment cursor then closeBlock fuel depth (skipSourceComment cursor)
      else if byteIs 123 a then closeBlock fuel (S depth) l
      else if byteIs 125 a then (if bool_decide (depth = 1) then Some cursor else closeBlock fuel (pred depth) l)
      else closeBlock fuel depth l
  | _, _ => None
  end.

Definition whenWord : list ascii := bytes "when".
Fixpoint whenBlocks (fuel : nat) (data : list ascii) : result (list string) :=
  match fuel, data with
  | S fuel, a :: l =>
      if isQuote a then whenBlocks fuel (skipQuotedSource data)
      else if startsComment data then whenBlocks fuel (skipSourceComment data)
      else if negb (isSourceIdentStart a) then whenBlocks fuel l
      else
        let '(word, rest) := spanIdent data in
        if bool_decide (word ≠ whenWord) then whenBlocks fuel rest else
        match skipSourceTrivia (List.length rest) rest with
        | brace :: body =>
            if byteIs 123 brace then
              match closeBlock (S (List.length body)) 1 body with
              | None => Err (errorf "unterminated when block")
              | Some close =>
                  let expression := ofBytes (take (List.length body - List.length close) body) in
                  expressions ← whenBlocks fuel (tail close);
                  Ok (expression :: expressions)
              end
            else whenBlocks fuel rest
        | [] => whenBlocks fuel rest
        end
  | _, _ => Ok []
  end.
Definition extractWhenBlocks (data : string) : result (list string) :=
  whenBlocks (S (String.length data)) (bytes data).

Example scan_example :
  extractWhenBlocks "rule 'when {' priority 1 { when # {
   { a == '}' && {b} } then { when_ok() } when {} }" = Ok [" a == '}' && {b} "; ""].
Proof. reflexivity. Qed.
