(* ===== verification/SourceAst.v ===== *)
(** * Source files and their front end

    The syntax tree of [internal/language/ast], what its [PostProcess] methods do, and the
    front end of [compiler/frontend.go]. A pointer that may be nil is an option. The grammar
    is executed by the participle library: the parser is an argument. *)

From S2P Require Import Prelude GoText Json Ir GoPath SourceScan.
From Stdlib Require Import ZArith Ascii String.
Local Open Scope list_scope.
Local Open Scope Z_scope.

Set Warnings "-register-all".

(** ** Syntax *)
Record Position : Type := mkPosition { ps_Line : Z; ps_Column : Z }.

(** [Int], [Float], ... are pointers and [List], [Map] slices: each may be nil. *)
Inductive ALiteral : Type :=
  mkALiteral (str : option string) (int : option Z) (float : option spec_float) (truth : option bool)
    (items : option (list ALiteral)) (entries : option (list (option (string * ALiteral)))).
Definition al_String '(mkALiteral s _ _ _ _ _) : option string := s.
Definition al_Int '(mkALiteral _ i _ _ _ _) : option Z := i.
Definition al_Float '(mkALiteral _ _ f _ _ _) : option spec_float := f.
Definition al_Bool '(mkALiteral _ _ _ b _ _) : option bool := b.
Definition al_List '(mkALiteral _ _ _ _ l _) : option (list ALiteral) := l.
Definition al_Map '(mkALiteral _ _ _ _ _ m) : option (list (option (string * ALiteral))) := m.

Record ArgValue : Type := mkArgValue {
  av_VarRef : string;
  av_PathExpr : option string;
  av_Literal : option ALiteral }.
Record StepArg : Type := mkStepArg { sa_Name : string; sa_Value : option ArgValue }.
Record Effect : Type := mkEffect { ef_BindName : string; ef_Verb : string; ef_Args : list (option StepArg) }.
Record FlowStep : Type := mkFlowStep {
  fs_BindName : string; fs_Verb : string; fs_Args : list (option StepArg); fs_Arrow : string }.
Record WhenThenBlock : Type := mkWhenThen {
  wt_When : option string;                       (* [PredicateBlock.Expression] *)
  wt_Then : option (list (option Effect)) }.
Record Rule : Type := mkRule {
  ru_Pos : Position; ru_Name : string; ru_Priority : Z; ru_Blocks : list (option WhenThenBlock) }.
Record Flow : Type := mkFlow {
  fl_Pos : Position; fl_Name : string; fl_Priority : Z; fl_When : option string;
  fl_Steps : option (list (option FlowStep)) }.
Record File : Type := mkFile { fi_Rules : list (option Rule); fi_Flows : list (option Flow) }.
#[global] Instance eta_ArgValue : Eta ArgValue := λ r, mkArgValue (av_VarRef r) (av_PathExpr r) (av_Literal r).
#[global] Instance eta_StepArg : Eta StepArg := λ r, mkStepArg (sa_Name r) (sa_Value r).
#[global] Instance eta_Effect : Eta Effect := λ r, mkEffect (ef_BindName r) (ef_Verb r) (ef_Args r).
#[global] Instance eta_FlowStep : Eta FlowStep := λ r, mkFlowStep (fs_BindName r) (fs_Verb r) (fs_Args r) (fs_Arrow r).
#[global] Instance eta_WhenThen : Eta WhenThenBlock := λ r, mkWhenThen (wt_When r) (wt_Then r).
#[global] Instance eta_Rule : Eta Rule := λ r, mkRule (ru_Pos r) (ru_Name r) (ru_Priority r) (ru_Blocks r).
#[global] Instance eta_Flow : Eta Flow := λ r, mkFlow (fl_Pos r) (fl_Name r) (fl_Priority r) (fl_When r) (fl_Steps r).

(** ** [PostProcess] *)
Definition unquoteString (value : string) : string :=
  if bool_decide (value = "") then value else default value (Unquote value).

Fixpoint normalizeASTLiteral (literal : ALiteral) : ALiteral :=
  match literal with
  | mkALiteral str int float truth items entries =>
      mkALiteral (unquoteString <$> str) int float truth
        (match items with
         | Some values => Some ((fix go l := match l with [] => [] | v :: l => normalizeASTLiteral v :: go l end) values)
         | None => None
         end)
        (match entries with
         | Some entries =>
             Some ((fix go l := match l with
                    | [] => []
                    | Some (key, v) :: l => Some (key, normalizeASTLiteral v) :: go l
                    | None :: l => None :: go l
                    end) entries)
         | None => None
         end)
  end.
Definition normalizeArgument (a : StepArg) : StepArg :=
  a <| sa_Value := (λ v : ArgValue, v <| av_Literal := normalizeASTLiteral <$> av_Literal v |>) <$> sa_Value a |>.
Definition normalizeInvocationLiterals (arguments : list (option StepArg)) : list (option StepArg) :=
  option_map normalizeArgument <$> arguments.

(** A nil effect is dereferenced. *)
Definition nilDereference : error := errorf "invalid memory address or nil pointer dereference".
Definition normalizeEffect (effect : option Effect) : result (option Effect) :=
  match effect with
  | None => Err nilDereference
  | Some e => Ok (Some (e <| ef_Args := normalizeInvocationLiterals (ef_Args e) |>))
  end.
Definition normalizeBlock (block : option WhenThenBlock) : result (option WhenThenBlock) :=
  match block with
  | None => Ok None
  | Some b =>
      effects ← match wt_Then b with
                | None => Ok None
                | Some effects => effects ← mapR normalizeEffect effects; Ok (Some effects)
                end;
      Ok (Some (mkWhenThen (TrimSpace <$> wt_When b) effects))
  end.
Definition normalizeRule (rule : option Rule) : result (option Rule) :=
  match rule with
  | None => Ok None
  | Some r =>
      blocks ← mapR normalizeBlock (ru_Blocks r);
      Ok (Some (r <| ru_Name := unquoteString (ru_Name r) |> <| ru_Blocks := blocks |>))
  end.
Definition normalizeFlowStep (s : FlowStep) : FlowStep := s <| fs_Args := normalizeInvocationLiterals (fs_Args s) |>.
Definition normalizeFlow (flow : option Flow) : option Flow :=
  (λ f : Flow, f <| fl_Name := unquoteString (fl_Name f) |>
                 <| fl_When := TrimSpace <$> fl_When f |>
                 <| fl_Steps := (λ steps : list (option FlowStep), option_map normalizeFlowStep <$> steps) <$> fl_Steps f |>)
    <$> flow.
Definition normalizeCheckedSourceAST (file : File) : result File :=
  rules ← mapR normalizeRule (fi_Rules file);
  Ok (mkFile rules (normalizeFlow <$> fi_Flows file)).

(** ** Predicate text

    The blocks of the text are handed out in order: to the blocks of the rules, then to
    the flows. [None] when there are too few. *)
Definition moreBlocks : error := errorf "parsed AST contains more when blocks than source".
Definition takeExpression (expressions : list string) : result (string * list string) :=
  match expressions with
  | e :: expressions => Ok (TrimSpace e, expressions)
  | [] => Err moreBlocks
  end.
Fixpoint restoreBlocks (blocks : list (option WhenThenBlock)) (expressions : list string)
    : result (list (option WhenThenBlock) * list string) :=
  match blocks with
  | [] => Ok ([], expressions)
  | None :: blocks => '(bs, es) ← restoreBlocks blocks expressions; Ok (None :: bs, es)
  | Some b :: blocks =>
      '(e, expressions) ← takeExpression expressions;
      '(bs, es) ← restoreBlocks blocks expressions;
      Ok (Some (b <| wt_When := Some e |>) :: bs, es)
  end.
Fixpoint restoreRules (rules : list (option Rule)) (expressions : list string) : result (list (option Rule) * list string) :=
  match rules with
  | [] => Ok ([], expressions)
  | None :: rules => '(rs, es) ← restoreRules rules expressions; Ok (None :: rs, es)
  | Some r :: rules =>
      '(blocks, expressions) ← restoreBlocks (ru_Blocks r) expressions;
      '(rs, es) ← restoreRules rules expressions;
      Ok (Some (r <| ru_Blocks := blocks |>) :: rs, es)
  end.
Fixpoint restoreFlows (flows : list (option Flow)) (expressions : list string) : result (list (option Flow) * list string) :=
  match flows with
  | [] => Ok ([], expressions)
  | None :: flows => '(fs, es) ← restoreFlows flows expressions; Ok (None :: fs, es)
  | Some f :: flows =>
      '(e, expressions) ← takeExpression expressions;
      '(fs, es) ← restoreFlows flows expressions;
      Ok (Some (f <| fl_When := Some e |>) :: fs, es)
  end.
Definition restoreCheckedPredicateText (file : File) (data : string) : result File :=
  expressions ← extractWhenBlocks data;
  '(rules, expressions) ← restoreRules (fi_Rules file) expressions;
  '(flows, expressions) ← restoreFlows (fi_Flows file) expressions;
  failIf (bool_decide (expressions ≠ [])) (errorf "found more when blocks in source than in parsed AST") ;;
  Ok (mkFile rules flows).

(** ** Bindings of flows *)
Definition normalizeStepBinding (step : option FlowStep) : result (option FlowStep) :=
  match step with
  | None => Ok None
  | Some s =>
      if bool_decide (fs_Arrow s = "") then Ok step else
      failIf (bool_decide (fs_BindName s ≠ "")) (errorf "step cannot use both prefix and arrow bindings") ;;
      Ok (Some (s <| fs_BindName := fs_Arrow s |> <| fs_Arrow := "" |>))
  end.
Definition normalizeFlowBinding (flow : option Flow) : result (option Flow) :=
  match flow with
  | Some f =>
      match fl_Steps f with
      | Some steps => steps ← mapR normalizeStepBinding steps; Ok (Some (f <| fl_Steps := Some steps |>))
      | None => Ok flow
      end
  | None => Ok None
  end.
Definition normalizeFlowBindings (file : File) : result File :=
  flows ← mapR normalizeFlowBinding (fi_Flows file);
  Ok (mkFile (fi_Rules file) flows).

(** ** Sources *)
Record Source : Type := mkSourceFile { so_Path : string; so_Content : string }.
Definition normalizeSourcePath (path : string) : result string :=
  let path := TrimSpace path in
  failIf (bool_decide (path = "")) (errorf "compile checked: source path is empty") ;;
  let path := Clean path in
  failIf (bool_decide (path = ".") || HasPrefix path "../" || bool_decide (path = ".."))
    (errorf "compile checked: source path escapes its source root") ;;
  Ok path.

Record parsedSource : Type := mkParsed { pa_path : string; pa_file : File }.
Definition parsedLe (a b : parsedSource) : Prop := leOf pa_path strLt a b.
#[global] Instance parsedLe_dec a b : Decision (parsedLe a b).
Proof. unfold parsedLe, leOf. apply _. Defined.

Section FrontEnd.
  (** [parser.ParseBytes(path, data)] and the context at each source. *)
  Context (parseBytes : string → string → result File) (ctx : nat → option error).

Definition parseSource (path : string) (content : string) : result parsedSource :=
  let extension := Ext path in
  failIf (negb (bool_decide (extension ∈ [".eff"; ".effx"]))) (errorf "compile front end: source must use .eff or .effx") ;;
  file ← parseBytes path content;
  file ← restoreCheckedPredicateText file content;
  file ← normalizeCheckedSourceAST file;
  file ← normalizeFlowBindings file;
  failIf (bool_decide (extension = ".eff") && negb (bool_decide (List.length (fi_Flows file) = 0%nat)))
    (errorf "compile front end: source contains flow declarations") ;;
  failIf (bool_decide (extension = ".effx") && negb (bool_decide (List.length (fi_Rules file) = 0%nat)))
    (errorf "compile front end: source contains list rule declarations") ;;
  Ok (mkParsed path file).
Fixpoint parseLoop (i : nat) (seen : gset string) (sources : list Source) : result (list parsedSource) :=
  match sources with
  | [] => Ok []
  | source :: sources =>
      ctxErr (ctx i) ;;
      path ← normalizeSourcePath (so_Path source);
      failIf (bool_decide (path ∈ seen)) (errorf "compile front end: duplicate normalized source path") ;;
      parsed ← parseSource path (so_Content source);
      rest ← parseLoop (S i) ({[path]} ∪ seen) sources;
      Ok (parsed :: rest)
  end.
Definition parseSources (sources : list Source) : result (list parsedSource) :=
  ordered ← parseLoop 0 ∅ sources;
  Ok (merge_sort parsedLe ordered).
End FrontEnd.
