(* ===== verification/Compiler.v ===== *)
(** * The checked compiler ([compiler/checked.go])

    Lowering of parsed rules and flows to the checked IR. Predicates are parsed by the expr
    library: its parser is an argument and [Node] are the node types that the lowering
    distinguishes. *)

From S2P Require Import Prelude GoText Sha256 Json Ir Types Env Check GoPath SourceScan SourceAst.
From stdpp Require Import pretty.
From Stdlib Require Import ZArith Ascii String.
Local Open Scope list_scope.
Local Open Scope Z_scope.

Set Warnings "-register-all".

(** ** Predicates *)
Inductive Node : Type :=
  | NilNode
  | BoolNode (value : bool)
  | IntegerNode (value : Z)
  | FloatNode (value : spec_float)
  | StringNode (value : string)
  | ArrayNode (nodes : list Node)
  | IdentifierNode (value : string)
  | MemberNode (node property : Node) (optional method : bool)
  | UnaryNode (operator : string) (node : Node)
  | BinaryNode (operator : string) (left right : Node)
  | CallNode (callee : Node) (arguments : list Node)
  | BuiltinNode (name : string)
  | OtherNode.

Definition trueExpression : Expression := ExprLiteral (LitBool true).
Definition binaryExpression (operator : BinaryOperator) (left right : Expression) : Expression := ExprBinary operator left right.
Definition conjunction (expressions : list Expression) : Expression :=
  match expressions with
  | [] => trueExpression
  | first :: expressions => foldl (binaryExpression OpAnd) first expressions
  end.

(** The operator, and whether its result is negated. *)
Definition binaryOperators : list (string * (BinaryOperator * bool)) :=
  [("==", (OpEqual, false)); ("!=", (OpNotEqual, false)); (">", (OpGreater, false)); (">=", (OpGreaterEqual, false));
   ("<", (OpLess, false)); ("<=", (OpLessEqual, false)); ("&&", (OpAnd, false)); ("and", (OpAnd, false));
   ("||", (OpOr, false)); ("or", (OpOr, false)); ("in", (OpIn, false)); ("not in", (OpIn, true));
   ("contains", (OpContains, false)); ("not contains", (OpContains, true));
   ("+", (OpAdd, false)); ("-", (OpSubtract, false)); ("*", (OpMultiply, false)); ("/", (OpDivide, false)); ("%", (OpModulo, false));
   ("matches", (OpMatches, false)); ("not matches", (OpMatches, true));
   ("startsWith", (OpStartsWith, false)); ("not startsWith", (OpStartsWith, true));
   ("endsWith", (OpEndsWith, false)); ("not endsWith", (OpEndsWith, true))].
Definition lowerBinaryOperator (operator : string) : result (BinaryOperator * bool) :=
  match List.find (λ p, bool_decide (p.1 = operator)) binaryOperators with
  | Some p => Ok p.2
  | None => Err (errorf "unsupported binary operator")
  end.
Definition lowerUnaryOperator (operator : string) : result UnaryOperator :=
  if bool_decide (operator = "!") || bool_decide (operator = "not") then Ok OpNot
  else if bool_decide (operator = "-") then Ok OpNegate
  else Err (errorf "unsupported unary operator").
Definition lowerFunctionCall (name : string) : result Expression :=
  Err (errorf "predicate function is unavailable in immutable generations").

Fixpoint expressionFactPath (node : Node) : result string :=
  match node with
  | IdentifierNode value => Ok value
  | MemberNode node property optional method =>
      failIf (optional || method) (errorf "optional and method member access is unsupported") ;;
      base ← expressionFactPath node;
      match property with
      | StringNode value => Ok (base +:+ "." +:+ value)
      | IntegerNode value => Ok (base +:+ "[" +:+ pretty value +:+ "]")
      | _ => Err (errorf "dynamic fact member access is unsupported")
      end
  | _ => Err (errorf "expression is not a fact path")
  end.

Definition literalOf (expression : Expression) : result Literal :=
  match expression with
  | ExprLiteral literal => Ok literal
  | _ => Err (errorf "predicate array item is not a literal")
  end.

Fixpoint lowerExprNode (node : Node) : result Expression :=
  match node with
  | NilNode => Ok (ExprLiteral (LitNull NULL_VALUE_NULL))
  | BoolNode value => Ok (ExprLiteral (LitBool value))
  | IntegerNode value => Ok (ExprLiteral (LitInt value))
  | FloatNode value => Ok (ExprLiteral (LitDouble value))
  | StringNode value => Ok (ExprLiteral (LitString value))
  | ArrayNode nodes =>
      values ← (fix go l := match l with
                | [] => Ok []
                | item :: l =>
                    expression ← lowerExprNode item;
                    literal ← literalOf expression;
                    literals ← go l;
                    Ok (literal :: literals)
                end) nodes;
      Ok (ExprLiteral (LitList values))
  | IdentifierNode _ | MemberNode _ _ _ _ => path ← expressionFactPath node; Ok (ExprFactPath path)
  | UnaryNode operator operand =>
      operand ← lowerExprNode operand;
      operator ← lowerUnaryOperator operator;
      Ok (ExprUnary operator operand)
  | BinaryNode operator l r =>
      left ← lowerExprNode l;
      right ← lowerExprNode r;
      '(operator, negate) ← lowerBinaryOperator operator;
      let result := binaryExpression operator left right in
      Ok (if (negate : bool) then ExprUnary OpNot result else result)
  | CallNode callee _ =>
      match callee with
      | IdentifierNode name => lowerFunctionCall name
      | _ => Err (errorf "predicate method calls are unavailable in immutable generations")
      end
  | BuiltinNode name => lowerFunctionCall name
  | OtherNode => Err (errorf "unsupported predicate AST node")
  end.

(** ** Arguments *)
Definition literalKinds (literal : ALiteral) : nat :=
  let count b := if (b : bool) then 1%nat else 0%nat in
  (count (bool_decide (is_Some (al_String literal))) + count (bool_decide (is_Some (al_Int literal)))
   + count (bool_decide (is_Some (al_Float literal))) + count (bool_decide (is_Some (al_Bool literal)))
   + count (match al_List literal with Some _ => true | None => false end)
   + count (match al_Map literal with Some _ => true | None => false end))%nat.
Definition fieldLe (a b : string * Literal) : Prop := leOf fst strLt a b.
#[global] Instance fieldLe_dec a b : Decision (fieldLe a b).
Proof. unfold fieldLe, leOf. apply _. Defined.

Fixpoint lowerASTLiteral (literal : ALiteral) : result Literal :=
  failIf (bool_decide (literalKinds literal ≠ 1%nat)) (errorf "literal must contain exactly one value kind") ;;
  match literal with
  | mkALiteral (Some s) _ _ _ _ _ => Ok (LitString s)
  | mkALiteral _ (Some i) _ _ _ _ => Ok (LitInt i)
  | mkALiteral _ _ (Some f) _ _ _ =>
      failIf (notFinite f) (errorf "floating literal must be finite") ;; Ok (LitDouble f)
  | mkALiteral _ _ _ (Some b) _ _ => Ok (LitBool b)
  | mkALiteral _ _ _ _ (Some values) _ =>
      values ← (fix go l := match l with
                | [] => Ok []
                | v :: l => v ← lowerASTLiteral v; l ← go l; Ok (v :: l)
                end) values;
      Ok (LitList values)
  | mkALiteral _ _ _ _ _ (Some entries) =>
      fields ← (fix go (seen : gset string) l := match l with
                | [] => Ok []
                | None :: _ => Err (errorf "object contains an invalid field")
                | Some (key, v) :: l =>
                    failIf (isBlank key) (errorf "object contains an invalid field") ;;
                    failIf (bool_decide (key ∈ seen)) (errorf "object repeats field") ;;
                    v ← lowerASTLiteral v;
                    l ← go ({[key]} ∪ seen) l;
                    Ok ((key, v) :: l)
                end) ∅ entries;
      Ok (LitObject (merge_sort fieldLe fields))
  | mkALiteral None None None None None None => Err (errorf "literal must contain exactly one value kind")
  end.

Definition lowerArgumentValue (value : option ArgValue) (bindings : gmap string Z) : result Value :=
  match value with
  | None => Err (errorf "value is nil")
  | Some value =>
      let kindError := errorf "value must contain exactly one literal, fact path, or result reference" in
      match av_Literal value, av_PathExpr value, bool_decide (av_VarRef value = "") with
      | Some literal, None, true => literal ← lowerASTLiteral literal; Ok (ValueLiteral literal)
      | None, Some path, true =>
          let path := TrimSpace path in
          failIf (bool_decide (path = "")) (errorf "fact path is empty") ;;
          Ok (ValueFactPath path)
      | None, None, false =>
          let name := TrimPrefix (av_VarRef value) "$" in
          failIf (bool_decide (name = av_VarRef value) || bool_decide (name = "")) (errorf "invalid result reference") ;;
          slot ← ofOption (bindings !! name) (errorf "result binding is not available");
          Ok (ValueResultSlot slot)
      | _, _, _ => Err kindError
      end
  end.

Definition addArgument (byName : gmap string (option ArgValue)) (argument : option StepArg) : result (gmap string (option ArgValue)) :=
  match argument with
  | None => Err (errorf "argument is invalid")
  | Some a =>
      failIf (isBlank (sa_Name a)) (errorf "argument is invalid") ;;
      failIf (bool_decide (is_Some (byName !! sa_Name a))) (errorf "duplicate argument") ;;
      Ok (<[sa_Name a := sa_Value a]> byName)
  end.
Definition lowerArguments (arguments : list (option StepArg)) (bindings : gmap string Z) : result (list Argument) :=
  byName ← foldR addArgument arguments ∅;
  mapR (λ name, value ← lowerArgumentValue (default None (byName !! name)) bindings; Ok (mkArgument name value)) (sortedKeys byName).

(** ** Steps *)
Record sourceInvocation : Type := mkInvocationSource { si_verb : string; si_args : list (option StepArg); si_binding : string }.
Definition effectToInvocation (effect : option Effect) : sourceInvocation :=
  match effect with
  | None => mkInvocationSource "" [] ""
  | Some e => mkInvocationSource (ef_Verb e) (ef_Args e) (ef_BindName e)
  end.
Definition effectsToInvocations (effects : list (option Effect)) : list sourceInvocation := effectToInvocation <$> effects.

Section Lowering.
  Context (environment : Environment) (policy : Z).

(** The policies frozen into a step; a hash that fails leaves the compensation out. *)
Definition freezeStepPolicies (step : Step) (contract : VerbContract) : Step :=
  let retry := vc_RetryPolicy contract in
  let attempts := if bool_decide (rp_MaxAttempts retry = 0) then 1 else rp_MaxAttempts retry in
  let step := step <| sp_RetryPolicy := Some (mkCheckedRetry attempts (rp_InitialBackoffMillis retry) (rp_MaxBackoffMillis retry)) |>
    <| sp_IdempotencyPolicy :=
         if bool_decide (vc_IdempotencyPolicy contract = IdempotencyKeyRequired) then IDEMPOTENCY_POLICY_KEY_REQUIRED
         else if bool_decide (vc_IdempotencyPolicy contract = IdempotencySinkGuaranteed) then IDEMPOTENCY_POLICY_SINK_GUARANTEED
         else IDEMPOTENCY_POLICY_NONE |>
    <| sp_FencingRequirement := if vc_FencingRequired contract then FENCING_REQUIREMENT_REQUIRED else FENCING_REQUIREMENT_NONE |> in
  match env_Verbs environment !! vc_InverseVerb contract with
  | Some inverse =>
      if bool_decide (policy = EXECUTION_POLICY_DURABLE_COMPENSATING) && bool_decide (vc_InverseVerb contract ≠ "") then
        match ContractHash inverse with
        | Ok hash => step <| sp_Compensation := Some (mkCompensation (vc_InverseVerb contract) hash) |>
        | Err _ => step
        end
      else step
  | None => step
  end.

Definition equalStringMap (left right : gmap string string) : bool :=
  bool_decide (size left = size right)
  && forallb (λ p : string * string, bool_decide (default "" (right !! p.1) = p.2)) (map_to_list left).
(** [strings.Join(values, "\x00")] *)
Fixpoint joinNul (values : list string) : string :=
  match values with
  | [] => ""
  | [v] => v
  | v :: values => v +:+ String (chr 0) (joinNul values)
  end.
Definition equalStringSet (left right : list string) : bool :=
  bool_decide (joinNul (sortedStrings left) = joinNul (sortedStrings right)).
Definition validateCompensationContract (contract : VerbContract) : result unit :=
  failIf (bool_decide (vc_InverseVerb contract = "")) (errorf "compensating execution requires the verb to declare an inverse") ;;
  inverse ← ofOption (env_Verbs environment !! vc_InverseVerb contract) (errorf "verb references unknown inverse");
  failIf (negb (equalStringMap (vc_Arguments contract) (vc_Arguments inverse))
          || negb (equalStringSet (default [] (vc_RequiredArgs contract)) (default [] (vc_RequiredArgs inverse))))
    (errorf "inverse has an incompatible argument contract").

(** The result slot of a step, and the bindings after it. *)
Definition bindResultName (binding : string) (bindings : gmap string Z) : result (option Z * gmap string Z) :=
  if bool_decide (binding = "") then Ok (None, bindings) else
  let name := TrimSpace binding in
  failIf (bool_decide (name = "") || bool_decide (name ≠ binding)) (errorf "step has an invalid result binding") ;;
  failIf (bool_decide (is_Some (bindings !! name))) (errorf "step redefines result binding") ;;
  let slot := u32 (Z.of_nat (size bindings)) in
  Ok (Some slot, <[name := slot]> bindings).

Definition stepID (planID : string) (index : nat) : string := planID +:+ ".step." +:+ pad6 (Z.of_nat (S index)).
(** One round of [lowerInvocations]. *)
Definition lowerInvocation (planID : string) (index : nat) (invocation : sourceInvocation) (bindings : gmap string Z)
    : result (Step * gmap string Z) :=
  failIf (isBlank (si_verb invocation)) (errorf "step has an empty verb") ;;
  contract ← ofOption (env_Verbs environment !! si_verb invocation) (errorf "step references unknown verb");
  contractHash ← ContractHash contract;
  arguments ← lowerArguments (si_args invocation) bindings;
  let step := mkIrStep (stepID planID index) (u32 (Z.of_nat index)) (si_verb invocation) contractHash arguments None None None 0 0 in
  let step := freezeStepPolicies step contract in
  (if bool_decide (policy = EXECUTION_POLICY_DURABLE_COMPENSATING) then validateCompensationContract contract else Ok tt) ;;
  '(slot, bindings) ← bindResultName (si_binding invocation) bindings;
  Ok (step <| sp_ResultSlot := slot |>, bindings).
Fixpoint lowerInvocationsFrom (planID : string) (index : nat) (invocations : list sourceInvocation) (bindings : gmap string Z)
    : result (list Step) :=
  match invocations with
  | [] => Ok []
  | invocation :: invocations =>
      '(step, bindings) ← lowerInvocation planID index invocation bindings;
      steps ← lowerInvocationsFrom planID (S index) invocations bindings;
      Ok (step :: steps)
  end.
Definition lowerInvocations (planID : string) (invocations : list sourceInvocation) : result (list Step) :=
  lowerInvocationsFrom planID 0 invocations ∅.

(** ** Plans *)
  (** [exprparser.Parse] *)
  Context (parseExpression : string → result Node).
Definition lowerPredicate (expression : string) : result Expression :=
  match parseExpression expression with
  | Ok node => lowerExprNode node
  | Err e => Err (mkError (err_is e) ("parse expression: " +:+ err_text e))
  end.

(** [int32] of an [int] *)
Definition i32 (z : Z) : Z := (z + 2 ^ 31) `mod` 2 ^ 32 - 2 ^ 31.
Definition blankWhen (when : option string) : bool := match when with Some e => isBlank e | None => true end.

(** The predicates and the effects of the blocks of a rule, in order. *)
Fixpoint lowerBlocks (blocks : list (option WhenThenBlock)) : result (list Expression * list (option Effect)) :=
  match blocks with
  | [] => Ok ([], [])
  | None :: _ => Err (errorf "rule contains a nil when/then block")
  | Some b :: blocks =>
      predicate ← (if blankWhen (wt_When b) then Ok [] else e ← lowerPredicate (default "" (wt_When b)); Ok [e]);
      '(predicates, effects) ← lowerBlocks blocks;
      Ok (predicate ++ predicates, default [] (wt_Then b) ++ effects)
  end.
Definition badDeclaredName (name : string) : bool := isBlank name || bool_decide (name ≠ TrimSpace name).
Definition lowerListRule (rule : option Rule) (sourceOrder : Z) : result Plan :=
  match rule with
  | None => Err (errorf "invalid list rule name")
  | Some rule =>
      failIf (badDeclaredName (ru_Name rule)) (errorf "invalid list rule name") ;;
      '(predicates, effects) ← lowerBlocks (ru_Blocks rule);
      steps ← lowerInvocations (ru_Name rule) (effectsToInvocations effects);
      Ok (mkPlan (ru_Name rule) SOURCE_DIALECT_LIST sourceOrder (i32 (ru_Priority rule)) (conjunction predicates) policy steps)
  end.
Definition stepToInvocation (step : option FlowStep) : result sourceInvocation :=
  match step with
  | None => Err (errorf "flow contains a nil step")
  | Some s => Ok (mkInvocationSource (fs_Verb s) (fs_Args s) (fs_BindName s))
  end.
Definition lowerFlow (flow : option Flow) (sourceOrder : Z) : result Plan :=
  match flow with
  | None => Err (errorf "invalid flow name")
  | Some flow =>
      failIf (badDeclaredName (fl_Name flow)) (errorf "invalid flow name") ;;
      predicate ← (if blankWhen (fl_When flow) then Ok trueExpression else lowerPredicate (default "" (fl_When flow)));
      invocations ← mapR stepToInvocation (default [] (fl_Steps flow));
      steps ← lowerInvocations (fl_Name flow) invocations;
      Ok (mkPlan (fl_Name flow) SOURCE_DIALECT_FLOW sourceOrder (i32 (fl_Priority flow)) predicate policy steps)
  end.

(** ** Sources *)
Definition declarationBefore (a b : Position) : bool :=
  if bool_decide (ps_Line a ≠ ps_Line b) then bool_decide (ps_Line a < ps_Line b) else bool_decide (ps_Column a < ps_Column b).
Definition declaredLe {A} (pos : A → Position) (a b : A) : Prop := declarationBefore (pos b) (pos a) = false.
#[global] Instance declaredLe_dec {A} (pos : A → Position) a b : Decision (declaredLe pos a b).
Proof. unfold declaredLe. apply _. Defined.
(** A nil declaration is dereferenced by the comparison, and by the error that follows. *)
Definition declarations {A} (pos : A → Position) (l : list (option A)) : result (list A) :=
  l ← mapR (λ d, ofOption d nilDereference) l;
  Ok (merge_sort (declaredLe pos) l).
Fixpoint lowerAll {A} (lower : option A → Z → result Plan) (order : Z) (l : list A) : result (list Plan * Z) :=
  match l with
  | [] => Ok ([], order)
  | d :: l =>
      plan ← lower (Some d) order;
      '(plans, order) ← lowerAll lower (u32 (order + 1)) l;
      Ok (plan :: plans, order)
  end.
Definition lowerSource (source : parsedSource) (listOrder flowOrder : Z) : result (list Plan * Z * Z) :=
  let extension := Ext (pa_path source) in
  if bool_decide (extension = ".eff") then
    rules ← declarations ru_Pos (fi_Rules (pa_file source));
    '(plans, listOrder) ← lowerAll lowerListRule listOrder rules;
    Ok (plans, listOrder, flowOrder)
  else if bool_decide (extension = ".effx") then
    flows ← declarations fl_Pos (fi_Flows (pa_file source));
    '(plans, flowOrder) ← lowerAll lowerFlow flowOrder flows;
    Ok (plans, listOrder, flowOrder)
  else Ok ([], listOrder, flowOrder).
Fixpoint lowerSources (ctx : nat → option error) (i : nat) (sources : list parsedSource) (listOrder flowOrder : Z) : result (list Plan) :=
  match sources with
  | [] => Ok []
  | source :: sources =>
      ctxErr (ctx i) ;;
      '(plans, listOrder, flowOrder) ← lowerSource source listOrder flowOrder;
      rest ← lowerSources ctx (S i) sources listOrder flowOrder;
      Ok (plans ++ rest)
  end.
End Lowering.

(** ** [CompileChecked] *)
Record CompileOptions : Type := mkCompileOptions { co_ExecutionPolicy : Z; co_Limits : Limits }.
Definition checkedCompilerName : string := "effectusc".
Definition checkedCompilerVersion : string := "checked-ir-v1".
Definition compilerMetadata : CompilerMetadata :=
  mkCompiler checkedCompilerName checkedCompilerVersion
    (sha256hex (bytes checkedCompilerName ++ chr 0 :: bytes checkedCompilerVersion)).
Definition executionPolicy (options : CompileOptions) : result Z :=
  let policy := if bool_decide (co_ExecutionPolicy options = 0) then EXECUTION_POLICY_DURABLE_FAIL_FAST else co_ExecutionPolicy options in
  failIf (bool_decide (policy ≠ EXECUTION_POLICY_DURABLE_FAIL_FAST) && bool_decide (policy ≠ EXECUTION_POLICY_DURABLE_COMPENSATING))
    (errorf "compile checked: unsupported execution policy") ;;
  Ok policy.

Section Compile.
  Context (parseBytes : string → string → result File) (parseExpression : string → result Node).
  Context (protoSize : RuleArtifact → Z) (unknownFields : RuleArtifact → bool) (protoMarshal : RuleArtifact → option string).
  (** The context at each source, while parsing and while lowering. *)
  Context (parsing lowering : nat → option error).

(** The artifact handed to [ir.Check]. *)
Definition lowerBundle (sources : list Source) (environment : Environment) (options : CompileOptions) : result RuleArtifact :=
  policy ← executionPolicy options;
  ordered ← parseSources parseBytes parsing sources;
  plans ← lowerSources environment policy parseExpression lowering 0 ordered 0 0;
  environmentDigest ← EnvironmentDigest environment;
  Ok (mkRuleArtifact FormatVersion (Some compilerMetadata) environmentDigest (CanonicalPlanOrder plans)).
(** The sources and the environment are those of the bundle. *)
Definition CompileChecked (sources : list Source) (environment : Environment) (options : CompileOptions) : result (Checked * RuleArtifact) :=
  artifact ← lowerBundle sources environment options;
  Check protoSize unknownFields protoMarshal (Some artifact) environment (co_Limits options).
End Compile.
