(* ===== verification/ScanProps.v ===== *)
(** * The scanner of [when] blocks against a one-pass automaton

    [extractWhenBlocks] jumps over quoted text, comments and identifiers with nested loops.
    The reference below reads each byte once: a lexical mode classifies the byte, and a
    second state follows words and braces. Both find the same blocks in every text. *)

From S2P Require Import Prelude GoText Json SourceScan.
From Stdlib Require Import ZArith NArith Ascii String.
Local Open Scope list_scope.

(** ** The reference automaton *)
Inductive Class : Type := InCode | InQuotes | InComment.
Inductive Mode : Type := Code | Quote (quote : ascii) | Escape (quote : ascii) | Comment.

Fixpoint classify (mode : Mode) (data : list ascii) : list (Class * ascii) :=
  match data with
  | [] => []
  | a :: l =>
      match mode with
      | Code =>
          if isQuote a then (InQuotes, a) :: classify (Quote a) l
          else if startsComment data then (InComment, a) :: classify Comment l
          else (InCode, a) :: classify Code l
      | Quote q =>
          (InQuotes, a) :: classify (if byteIs 92 a then Escape q else if bool_decide (a = q) then Code else Quote q) l
      | Escape q => (InQuotes, a) :: classify (Quote q) l
      | Comment =>
          if byteIs 10 a then (InCode, a) :: classify Code l else (InComment, a) :: classify Comment l
      end
  end.

(** Outside of blocks, inside a word, after the word [when], and inside a block. *)
Inductive State : Type := Outside | Word (word : list ascii) | AfterWhen | Inside (depth : nat) (text : list ascii).

Definition outside (class : Class) (a : ascii) : State :=
  match class with
  | InCode => if isSourceIdentStart a then Word [a] else Outside
  | _ => Outside
  end.
Definition afterWhen (class : Class) (a : ascii) : State :=
  match class with
  | InComment => AfterWhen
  | InCode => if isTrivia a then AfterWhen else if byteIs 123 a then Inside 1 [] else outside class a
  | InQuotes => Outside
  end.
(** The next state, and the block that ends here. *)
Definition advance (state : State) (class : Class) (a : ascii) : State * option string :=
  match state with
  | Outside => (outside class a, None)
  | AfterWhen => (afterWhen class a, None)
  | Word w =>
      (match class with
       | InCode => if isSourceIdentPart a then Word (w ++ [a])
                   else if bool_decide (w = whenWord) then afterWhen class a else outside class a
       | _ => if bool_decide (w = whenWord) then afterWhen class a else outside class a
       end, None)
  | Inside depth text =>
      match class with
      | InCode =>
          if byteIs 123 a then (Inside (S depth) (text ++ [a]), None)
          else if byteIs 125 a then
            if bool_decide (depth = 1) then (Outside, Some (ofBytes text)) else (Inside (pred depth) (text ++ [a]), None)
          else (Inside depth (text ++ [a]), None)
      | _ => (Inside depth (text ++ [a]), None)
      end
  end.
Fixpoint scanBlocks (state : State) (l : list (Class * ascii)) : result (list string) :=
  match l with
  | [] => match state with Inside _ _ => Err (errorf "unterminated when block") | _ => Ok [] end
  | (class, a) :: l =>
      let '(state, block) := advance state class a in
      blocks ← scanBlocks state l;
      Ok (match block with Some b => b :: blocks | None => blocks end)
  end.

(** ** The loops of the scanner *)
#[local] Arguments startsComment : simpl never.
#[local] Arguments isQuote : simpl never.
#[local] Arguments isTrivia : simpl never.
#[local] Arguments byteIs : simpl never.
Lemma ok_id {A} (r : result A) : (x ← r; Ok x) = r.
Proof. by destruct r. Qed.

Lemma skipQuotedFrom_length q l : List.length (skipQuotedFrom q l) ≤ List.length l.
Proof.
  induction l as [l IH] using (induction_ltof1 _ (@List.length ascii)). unfold ltof in IH.
  destruct l as [|a l]; simpl; [done|].
  destruct (byteIs 92 a).
  - destruct l as [|b l]; simpl; [lia|]. specialize (IH l). simpl in IH. lia.
  - case_bool_decide; [lia|]. specialize (IH l). simpl in IH. lia.
Qed.
Lemma skipSourceComment_length l : List.length (skipSourceComment l) ≤ List.length l.
Proof. induction l as [|a l IH]; simpl; [done|]. destruct (byteIs 10 a); simpl; lia. Qed.

Definition mark (class : Class) (l : list ascii) : list (Class * ascii) := (λ a, (class, a)) <$> l.

(** Skipped text is one run of bytes of one class. *)
Lemma classify_quoted q l :
  ∃ p, l = p ++ skipQuotedFrom q l ∧ classify (Quote q) l = mark InQuotes p ++ classify Code (skipQuotedFrom q l).
Proof.
  induction l as [l IH] using (induction_ltof1 _ (@List.length ascii)). unfold ltof in IH.
  destruct l as [|a l]; [by exists []|]. simpl. destruct (byteIs 92 a).
  - destruct l as [|b l]; [by exists [a]|].
    destruct (IH l) as (p & Hl & Hc); [simpl; lia|]. exists (a :: b :: p). simpl. by rewrite <- Hl, Hc.
  - case_bool_decide; [by exists [a]|].
    destruct (IH l) as (p & Hl & Hc); [simpl; lia|]. exists (a :: p). simpl. by rewrite <- Hl, Hc.
Qed.
Lemma newline_code a l : byteIs 10 a = true → isQuote a = false ∧ startsComment (a :: l) = false.
Proof. unfold isQuote, startsComment, byteIs. rewrite bool_decide_eq_true. by intros ->. Qed.
Lemma classify_comment l :
  ∃ p, l = p ++ skipSourceComment l ∧ classify Comment l = mark InComment p ++ classify Code (skipSourceComment l).
Proof.
  induction l as [|a l (p & Hl & Hc)]; [by exists []|]. simpl. destruct (byteIs 10 a) eqn:Ha.
  - exists []. destruct (newline_code a l Ha) as [Hq Hs]. simpl. by rewrite Hq, Hs.
  - exists (a :: p). simpl. by rewrite <- Hl, Hc.
Qed.

Lemma scan_skip state class p l :
  (∀ a, advance state class a = (state, None)) → scanBlocks state (mark class p ++ l) = scanBlocks state l.
Proof. intros Hs. induction p as [|a p IH]; [done|]. simpl. by rewrite Hs, ok_id. Qed.
Lemma scan_inside depth text class p l :
  class ≠ InCode → scanBlocks (Inside depth text) (mark class p ++ l) = scanBlocks (Inside depth (text ++ p)) l.
Proof.
  intros Hc. revert text. induction p as [|a p IH]; intros text; simpl; [by rewrite app_nil_r|].
  destruct class; [done|..]; simpl; by rewrite ok_id, IH, <- app_assoc.
Qed.

(** The jumps of the scanner, from the first byte of quoted text or of a comment. *)
Definition jump (a : ascii) (l : list ascii) : list ascii :=
  if isQuote a then skipQuotedSource (a :: l) else skipSourceComment (a :: l).
Definition special (a : ascii) (l : list ascii) : bool := isQuote a || startsComment (a :: l).
Lemma comment_not_newline a l : startsComment (a :: l) = true → byteIs 10 a = false.
Proof.
  intros Hs. destruct (byteIs 10 a) eqn:Ha; [|done]. by destruct (newline_code a l Ha) as [_ Hf]; rewrite Hf in Hs.
Qed.
Lemma classify_special a l :
  special a l = true →
  ∃ p, a :: l = p ++ jump a l ∧ p ≠ [] ∧
    classify Code (a :: l) = mark (if isQuote a then InQuotes else InComment) p ++ classify Code (jump a l).
Proof.
  unfold special, jump. destruct (isQuote a) eqn:Hq; simpl orb.
  - intros _. destruct (classify_quoted a l) as (p & Hl & Hc). exists (a :: p).
    cbn [classify skipQuotedSource]. rewrite Hq, Hc. simpl. by rewrite <- Hl.
  - intros Hs. destruct (classify_comment l) as (p & Hl & Hc). exists (a :: p).
    cbn [classify skipSourceComment]. rewrite Hq, Hs, (comment_not_newline _ _ Hs), Hc. simpl. by rewrite <- Hl.
Qed.
Lemma jump_length a l : special a l = true → List.length (jump a l) ≤ List.length l.
Proof.
  intros Hs. destruct (classify_special a l Hs) as (p & Hl & Hp & _).
  apply (f_equal (@List.length ascii)) in Hl. rewrite length_app in Hl. destruct p; [done|]. simpl in Hl. lia.
Qed.
Lemma classify_plain a l : special a l = false → classify Code (a :: l) = (InCode, a) :: classify Code l.
Proof. unfold special. intros [Hq Hs]%orb_false_iff. cbn [classify]. by rewrite Hq, Hs. Qed.

(** ** Blocks *)
Lemma closeBlock_step fuel depth a l :
  closeBlock (S fuel) depth (a :: l) =
    if special a l then closeBlock fuel depth (jump a l)
    else if byteIs 123 a then closeBlock fuel (S depth) l
    else if byteIs 125 a then (if bool_decide (depth = 1) then Some (a :: l) else closeBlock fuel (pred depth) l)
    else closeBlock fuel depth l.
Proof. unfold special, jump. cbn [closeBlock]. by destruct (isQuote a), (startsComment (a :: l)). Qed.

Definition closes (text cursor : list ascii) (depth : nat) (close : option (list ascii)) : Prop :=
  match close with
  | None => scanBlocks (Inside depth text) (classify Code cursor) = Err (errorf "unterminated when block")
  | Some close =>
      ∃ p, cursor = p ++ close ∧ close ≠ [] ∧
        scanBlocks (Inside depth text) (classify Code cursor) =
          (blocks ← scanBlocks Outside (classify Code (tail close)); Ok (ofBytes (text ++ p) :: blocks))
  end.
Lemma closes_after depth depth' text p cursor cursor' close :
  cursor = p ++ cursor' →
  scanBlocks (Inside depth text) (classify Code cursor) = scanBlocks (Inside depth' (text ++ p)) (classify Code cursor') →
  closes (text ++ p) cursor' depth' close → closes text cursor depth close.
Proof.
  intros -> Hs. unfold closes. rewrite Hs. destruct close as [close|]; [|done].
  intros (p' & -> & Hne & ->). exists (p ++ p'). by rewrite !app_assoc.
Qed.
Lemma closeBlock_spec fuel text depth cursor :
  List.length cursor < fuel → closes text cursor depth (closeBlock fuel depth cursor).
Proof.
  revert text depth cursor. induction fuel as [|fuel IH]; intros text depth cursor Hf; [lia|].
  destruct cursor as [|a l]; [done|]. rewrite closeBlock_step. simpl in Hf.
  destruct (special a l) eqn:Hsp.
  { destruct (classify_special a l Hsp) as (p & Hl & _ & Hc). pose proof (jump_length a l Hsp).
    eapply (closes_after _ depth _ p); [exact Hl| |apply IH; lia].
    rewrite Hc. apply scan_inside. by destruct (isQuote a). }
  pose proof (classify_plain a l Hsp) as Hc.
  assert (∀ depth', scanBlocks (Inside depth text) (classify Code (a :: l)) = scanBlocks (Inside depth' (text ++ [a])) (classify Code l) →
    closes text (a :: l) depth (closeBlock fuel depth' l)) as Hnext.
  { intros depth' Hs. eapply (closes_after _ depth' _ [a]); [done|exact Hs|apply IH; lia]. }
  destruct (byteIs 123 a) eqn:Ho; [apply Hnext; rewrite Hc; simpl; by rewrite Ho, ok_id|].
  destruct (byteIs 125 a) eqn:Hcl; [|apply Hnext; rewrite Hc; simpl; by rewrite Ho, Hcl, ok_id].
  case_bool_decide as Hd; [|apply Hnext; rewrite Hc; simpl; by rewrite Ho, Hcl, bool_decide_eq_false_2, ?ok_id by done].
  exists []. split_and!; [done|done|]. rewrite Hc. simpl. by rewrite Ho, Hcl, bool_decide_eq_true_2, app_nil_r by done.
Qed.

(** ** Words *)
Lemma ident_plain a l : isSourceIdentPart a = true → special a l = false.
Proof.
  unfold special, isSourceIdentPart, isSourceIdentStart, isQuote, startsComment, byteIs, byteIn. intros H.
  repeat rewrite ?orb_true_iff, ?andb_true_iff, ?bool_decide_eq_true in H.
  rewrite !orb_false_iff, andb_false_iff, !bool_decide_eq_false. lia.
Qed.
Lemma start_part a : isSourceIdentStart a = true → isSourceIdentPart a = true.
Proof. unfold isSourceIdentPart. by intros ->. Qed.
Lemma spanIdent_split data w rest :
  spanIdent data = (w, rest) → data = w ++ rest ∧ (∀ v, scanBlocks (Word v) (classify Code data) = scanBlocks (Word (v ++ w)) (classify Code rest))
    ∧ match rest with a :: _ => isSourceIdentPart a = false | [] => True end.
Proof.
  revert w rest. induction data as [|a l IH]; simpl spanIdent; intros w rest.
  - intros [= <- <-]. split_and!; [done| |done]. intros v. by rewrite app_nil_r.
  - destruct (isSourceIdentPart a) eqn:Ha.
    + destruct (spanIdent l) as [w' rest'] eqn:Hs. intros [= <- <-].
      destruct (IH w' rest' eq_refl) as (-> & Hw & Hr). split_and!; [done| |done]. intros v.
      rewrite (classify_plain a _ (ident_plain a _ Ha)). simpl. rewrite Ha, ok_id, Hw. by rewrite <- app_assoc.
    + intros [= <- <-]. split_and!; [done| |done]. intros v. by rewrite app_nil_r.
Qed.
(** A word ends before a byte that is no part of an identifier. *)
Lemma scan_word_end w rest :
  match rest with a :: _ => isSourceIdentPart a = false | [] => True end →
  scanBlocks (Word w) (classify Code rest) = scanBlocks (if bool_decide (w = whenWord) then AfterWhen else Outside) (classify Code rest).
Proof.
  intros Hr. destruct rest as [|a l]; [by case_bool_decide|].
  destruct (special a l) eqn:Hsp.
  - unfold special in Hsp. cbn [classify]. destruct (isQuote a); [|simpl in Hsp; rewrite Hsp]; cbn; by case_bool_decide.
  - rewrite (classify_plain a l Hsp). cbn [scanBlocks advance]. rewrite Hr. by case_bool_decide.
Qed.

(** ** Trivia *)
Lemma skipSourceTrivia_step fuel a l :
  skipSourceTrivia (S fuel) (a :: l) =
    if isTrivia a then skipSourceTrivia fuel l
    else if startsComment (a :: l) then skipSourceTrivia fuel (jump a l) else a :: l.
Proof.
  cbn [skipSourceTrivia]. destruct (isTrivia a); [done|]. destruct (startsComment (a :: l)) eqn:Hs; [|done].
  unfold jump. destruct (isQuote a) eqn:Hq; [|done]. exfalso. revert Hq Hs. unfold isQuote, startsComment, byteIs.
  rewrite !orb_true_iff, andb_true_iff, !bool_decide_eq_true. lia.
Qed.
Lemma trivia_plain a l : isTrivia a = true → special a l = false ∧ isSourceIdentStart a = false.
Proof.
  unfold special, isTrivia, isSourceIdentStart, isQuote, startsComment, byteIs, byteIn. intros H.
  repeat rewrite ?orb_true_iff, ?bool_decide_eq_true in H.
  rewrite !orb_false_iff, !andb_false_iff, !bool_decide_eq_false. split; lia.
Qed.
Lemma brace_plain a l : byteIs 123 a = true → special a l = false ∧ isTrivia a = false.
Proof.
  unfold special, isTrivia, isQuote, startsComment, byteIs. rewrite bool_decide_eq_true. intros ->.
  split; reflexivity.
Qed.

(** After [when]: a block if a brace follows, else as outside. *)
Lemma scan_trivia fuel rest :
  List.length rest ≤ fuel →
  (∃ p, rest = p ++ skipSourceTrivia fuel rest) ∧
  scanBlocks AfterWhen (classify Code rest) =
    match skipSourceTrivia fuel rest with
    | brace :: body => if byteIs 123 brace then scanBlocks (Inside 1 []) (classify Code body) else scanBlocks Outside (classify Code rest)
    | [] => scanBlocks Outside (classify Code rest)
    end.
Proof.
  revert rest. induction fuel as [|fuel IH]; intros rest Hf.
  { destruct rest; [|simpl in Hf; lia]. split; [by exists []|done]. }
  destruct rest as [|a l]; [split; [by exists []|done]|]. rewrite skipSourceTrivia_step. simpl in Hf.
  destruct (isTrivia a) eqn:Ht.
  { destruct (IH l) as [[p Hp] Hs]; [lia|]. split; [exists (a :: p); simpl; by rewrite <- Hp|].
    destruct (trivia_plain a l Ht) as [Hsp Hi]. rewrite (classify_plain a l Hsp). simpl. by rewrite Ht, Hi, !ok_id. }
  destruct (startsComment (a :: l)) eqn:Hs.
  { assert (special a l = true) as Hsp by (unfold special; by rewrite Hs, orb_true_r).
    destruct (classify_special a l Hsp) as (p & Hl & _ & Hc). pose proof (jump_length a l Hsp).
    destruct (IH (jump a l)) as [[p' Hp'] Hr]; [lia|]. split; [exists (p ++ p'); by rewrite <- app_assoc, <- Hp'|].
    rewrite Hc. destruct (isQuote a) eqn:Hq.
    { exfalso. revert Hq Hs. unfold isQuote, startsComment, byteIs. rewrite !orb_true_iff, andb_true_iff, !bool_decide_eq_true. lia. }
    by rewrite !scan_skip. }
  split; [by exists []|]. destruct (byteIs 123 a) eqn:Hb.
  - destruct (brace_plain a l Hb) as [Hsp _]. rewrite (classify_plain a l Hsp). simpl. by rewrite Ht, Hb, ok_id.
  - cbn [classify]. rewrite Hs. destruct (isQuote a); cbn; [done|]. by rewrite Ht, Hb.
Qed.

(** ** The scanner *)
Lemma whenBlocks_scan fuel data :
  List.length data < fuel → whenBlocks fuel data = scanBlocks Outside (classify Code data).
Proof.
  revert data. induction fuel as [|fuel IH]; intros data Hf; [lia|].
  destruct data as [|a l]; [done|]. simpl in Hf.
  destruct (special a l) eqn:Hsp.
  { destruct (classify_special a l Hsp) as (p & _ & _ & Hc). pose proof (jump_length a l Hsp) as Hj.
    rewrite Hc, scan_skip by (intros b; by destruct (isQuote a)). rewrite <- IH by lia.
    unfold special in Hsp. unfold jump. cbn [whenBlocks]. destruct (isQuote a); [done|]. simpl in Hsp. by rewrite Hsp. }
  pose proof (classify_plain a l Hsp) as Hc. unfold special in Hsp. apply orb_false_iff in Hsp as [Hq Hs].
  cbn [whenBlocks]. rewrite Hq, Hs. destruct (isSourceIdentStart a) eqn:Hi; simpl negb; cbv iota.
  2: { rewrite Hc. simpl. rewrite Hi, ok_id. apply IH. lia. }
  assert (scanBlocks Outside (classify Code (a :: l)) = scanBlocks (Word []) (classify Code (a :: l))) as Hword.
  { rewrite Hc. simpl. by rewrite Hi, (start_part a Hi). }
  destruct (spanIdent (a :: l)) as [w rest] eqn:Hw. destruct (spanIdent_split _ _ _ Hw) as (Hd & Hscan & Hr).
  rewrite Hword, Hscan. simpl app. rewrite (scan_word_end w rest Hr).
  assert (List.length rest ≤ List.length l) as Hlen.
  { simpl in Hw. rewrite (start_part a Hi) in Hw. destruct (spanIdent l) as [w' r'] eqn:Hw'. injection Hw as <- <-.
    destruct (spanIdent_split _ _ _ Hw') as (-> & _). rewrite length_app. lia. }
  case_bool_decide as Hne; case_bool_decide as Heq; [by rewrite Heq in Hne|apply IH; lia| |by destruct Hne].
  destruct (scan_trivia (List.length rest) rest) as [[p Hp] ->]; [done|].
  destruct (skipSourceTrivia (List.length rest) rest) as [|brace body] eqn:Ht; [apply IH; lia|].
  destruct (byteIs 123 brace); [|apply IH; lia].
  pose proof (closeBlock_spec (S (List.length body)) [] 1 body ltac:(lia)) as Hcl. unfold closes in Hcl.
  destruct (closeBlock _ 1 body) as [close|]; [|by rewrite Hcl].
  destruct Hcl as (q & -> & Hne' & ->). rewrite IH.
  - do 2 f_equal. rewrite length_app, Nat.add_sub, take_app_length. done.
  - apply (f_equal (@List.length ascii)) in Hp. rewrite !length_app in Hp. simpl in Hp. rewrite length_app in Hp.
    destruct close; [done|]. simpl in *. lia.
Qed.

(** C12: the nested loops that find the predicates of a file in its text are the one-pass
    automaton: in every text, well formed or not, they find the same blocks in the same order,
    with the same bytes, or fail on the same texts, those that end inside a block. *)
Theorem extractWhenBlocks_one_pass (data : string) :
  extractWhenBlocks data = scanBlocks Outside (classify Code (bytes data)).
Proof. apply whenBlocks_scan. rewrite length_bytes. lia. Qed.
