(* ===== verification/CompilerProps.v ===== *)
(** * Correctness of the checked compiler

    The artifact that the compiler lowers is the artifact that the checker accepts: the
    checker fills nothing in, and what it refuses is in the source. *)

From S2P Require Import Prelude GoText Sha256 Json Ir Types Env EnvProps Check CheckLemmas CheckInv GoPath SourceScan.
From S2P Require Import SourceAst Compiler.
From stdpp Require Import pretty sorting.
From Stdlib Require Import ZArith Ascii String Lia.
Local Open Scope list_scope.
Local Open Scope Z_scope.

(** ** Contracts of the environment and of its normal form *)
Lemma ContractHash_normal c c' : normalizeVerbContract c = Ok c' → ContractHash c' = ContractHash c.
Proof. intros H. unfold ContractHash. by rewrite H, (normalizeVerbContract_idem _ _ H). Qed.

Lemma normalized_verb env normal v c :
  normalizeEnvironment env = Ok normal → env_Verbs env !! v = Some c →
  badName v = false ∧ ∃ c', env_Verbs normal !! v = Some c' ∧ normalizeVerbContract c = Ok c'.
Proof.
  unfold normalizeEnvironment, trimEnvironment. intros H Hv. inv_res. fold verbOf in *. cbn.
  match goal with M : mapR verbOf _ = Ok _ |- _ => apply mapR_Forall2 in M; rename M into Hm end.
  apply elem_of_map_to_list in Hv. apply list_elem_of_lookup in Hv as [i Hi].
  destruct (Forall2_lookup_l _ _ _ _ _ Hm Hi) as ([k c'] & Hl & Hk). unfold verbOf in Hk. cbn in Hk. inv_res.
  split; [done|]. exists c'. split; [|done]. apply elem_of_list_to_map; [|by eapply list_elem_of_lookup_2].
  match goal with |- NoDup ?l => replace l with (map_to_list (env_Verbs env)).*1; [apply NoDup_fst_map_to_list|] end.
  clear -Hm. induction Hm as [|p p' l l' Hp _ IH]; [done|]. rewrite !fmap_cons, IH. f_equal. symmetry. by apply (verbOf_idem p p').
Qed.

(** ** Policies *)
Lemma badName_trim v : badName v = false → TrimSpace v = v.
Proof. unfold badName. intros [_ H]%orb_false_iff. bool_to_prop. by apply dec_stable. Qed.

Section Frozen.
  Context (env normal : Environment) (policy : Z) (Henv : normalizeEnvironment env = Ok normal).

Lemma expected_retry c c' : normalizeVerbContract c = Ok c' →
  expectedRetry c' = mkCheckedRetry (if bool_decide (rp_MaxAttempts (vc_RetryPolicy c) = 0) then 1 else rp_MaxAttempts (vc_RetryPolicy c))
    (rp_InitialBackoffMillis (vc_RetryPolicy c)) (rp_MaxBackoffMillis (vc_RetryPolicy c)).
Proof. unfold normalizeVerbContract. intros H. inv_res. unfold expectedRetry, defaultRetry. cbn. by destruct (bool_decide (rp_MaxAttempts (vc_RetryPolicy c) = 0)). Qed.
Lemma expected_policies c c' : normalizeVerbContract c = Ok c' →
  expectedIdempotency c' = expectedIdempotency c ∧ expectedFencing c' = expectedFencing c ∧ vc_InverseVerb c' = TrimSpace (vc_InverseVerb c).
Proof.
  unfold normalizeVerbContract. intros H. inv_res. split_and!; [|done|done].
  unfold expectedIdempotency, defaultIdempotency. cbn. destruct (bool_decide (vc_IdempotencyPolicy c = "")) eqn:E; [|done]. by apply bool_decide_eq_true in E as ->.
Qed.

(** The fields that [freezeStepPolicies] sets. *)
Lemma freezeStepPolicies_fields step c c' : normalizeVerbContract c = Ok c' →
  let out := freezeStepPolicies env policy step c in
  sameBody step out ∧ sp_RetryPolicy out = Some (expectedRetry c') ∧ sp_IdempotencyPolicy out = expectedIdempotency c' ∧
  sp_FencingRequirement out = expectedFencing c'.
Proof.
  intros Hc. rewrite (expected_retry c c' Hc). destruct (expected_policies c c' Hc) as (-> & -> & _). cbn zeta.
  unfold freezeStepPolicies, sameBody. destruct step; cbn.
  destruct (env_Verbs env !! vc_InverseVerb c); [destruct (_ && _); [destruct (ContractHash _)|]|]; cbn; done.
Qed.
Lemma freezeStepPolicies_compensation step c : sp_Compensation step = None →
  sp_Compensation (freezeStepPolicies env policy step c) =
    match env_Verbs env !! vc_InverseVerb c with
    | Some inverse =>
        if bool_decide (policy = EXECUTION_POLICY_DURABLE_COMPENSATING) && bool_decide (vc_InverseVerb c ≠ "") then
          match ContractHash inverse with Ok h => Some (mkCompensation (vc_InverseVerb c) h) | Err _ => None end
        else None
    | None => None
    end.
Proof.
  intros Hn. unfold freezeStepPolicies. destruct step; cbn in *.
  destruct (env_Verbs env !! vc_InverseVerb c); [destruct (_ && _); [destruct (ContractHash _)|]|]; done.
Qed.
(** What the checker does to the compensation of a lowered step: nothing. *)
Lemma lowered_compensation step c c' v r : env_Verbs env !! v = Some c → normalizeVerbContract c = Ok c' →
  sp_Compensation step = None →
  (if bool_decide (policy = EXECUTION_POLICY_DURABLE_COMPENSATING) then validateCompensationContract env c else Ok tt) = Ok tt →
  let out := freezeStepPolicies env policy step c in
  freezeCompensation normal out c' policy = Ok r → r = sp_Compensation out.
Proof.
  intros Hv Hc Hn Hval. cbn zeta. destruct (expected_policies c c' Hc) as (_ & _ & Hi). unfold freezeCompensation. rewrite Hi.
  rewrite (freezeStepPolicies_compensation _ _ Hn). revert Hval. destruct (bool_decide (policy = _)); simpl andb; cbv iota.
  - unfold validateCompensationContract. intros Hval. inv_res. bool_to_prop.
    match goal with E : env_Verbs env !! _ = Some ?x |- _ => rename x into inverse; rename E into Hinv end.
    destruct (normalized_verb env normal _ _ Henv Hinv) as (Hb & inverse' & Hinv' & Hnorm).
    rewrite (badName_trim _ Hb), Hinv', Hinv. cbn. rewrite (ContractHash_normal _ _ Hnorm).
    rewrite (bool_decide_eq_true_2 (vc_InverseVerb c ≠ "")), bool_decide_eq_false_2 by done.
    destruct (ContractHash inverse) as [h|]; [|done]. cbn. intros Hf. by inv_res.
  - intros _. replace (match env_Verbs env !! vc_InverseVerb c with Some _ => None | None => None end) with (@None CompensationContract)
      by (by destruct (env_Verbs env !! vc_InverseVerb c)).
    intros H. case_bool_decide; inv_res; [done|]. destruct (ContractHash _); [|done]. by inv_res.
Qed.

(** ** Steps *)
Lemma checkStepPolicies_fixed step c step' :
  sp_RetryPolicy step = Some (expectedRetry c) → sp_IdempotencyPolicy step = expectedIdempotency c →
  sp_FencingRequirement step = expectedFencing c →
  (∀ r, freezeCompensation normal step c policy = Ok r → r = sp_Compensation step) →
  checkStepPolicies normal step c policy = Ok step' → step' = step.
Proof.
  intros Hr Hi Hf Hc H. unfold checkStepPolicies in H. rewrite Hr, freezeOption_Some in H. cbn [mbind result_bind] in H.
  destruct step; cbn in *. subst. rewrite freezeEnum_same in H. cbn in H. rewrite freezeEnum_same in H. cbn in H.
  apply bind_Ok in H as (r & H & [= <-]). erewrite freezeCompensation_ext in H; [apply Hc in H; by subst|done].
Qed.
(** What the lowering of an invocation yields, in terms of the normal environment. *)
Record stepLowered (planID : string) (index : nat) (invocation : sourceInvocation) (bindings bindings' : gmap string Z)
    (step : Step) (contract : VerbContract) : Prop := {
  lo_id : sp_Id step = stepID planID index;
  lo_ordinal : sp_Ordinal step = u32 (Z.of_nat index);
  lo_verb : sp_Verb step = si_verb invocation;
  lo_contract : env_Verbs normal !! sp_Verb step = Some contract;
  lo_hash : ContractHash contract = Ok (sp_ContractHash step);
  lo_retry : sp_RetryPolicy step = Some (expectedRetry contract);
  lo_idempotency : sp_IdempotencyPolicy step = expectedIdempotency contract;
  lo_fencing : sp_FencingRequirement step = expectedFencing contract;
  lo_compensation : ∀ r, freezeCompensation normal step contract policy = Ok r → r = sp_Compensation step;
  lo_arguments : lowerArguments (si_args invocation) bindings = Ok (sp_Arguments step);
  lo_slot : bindResultName (si_binding invocation) bindings = Ok (sp_ResultSlot step, bindings') }.

Lemma lowerInvocation_lowered planID index invocation bindings step bindings' :
  lowerInvocation env policy planID index invocation bindings = Ok (step, bindings') →
  ∃ contract, stepLowered planID index invocation bindings bindings' step contract.
Proof.
  unfold lowerInvocation. intros H. apply bind_Ok in H as ([] & Hb & H). apply bind_Ok in H as (c & Hv & H). apply ofOption_Ok in Hv.
  apply bind_Ok in H as (hash & Hh & H). apply bind_Ok in H as (arguments & Ha & H). cbn zeta in H.
  apply bind_Ok in H as ([] & Hval & H). apply bind_Ok in H as ([slot bindings1] & Hs & H). injection H as <- <-.
  destruct (normalized_verb env normal _ _ Henv Hv) as (_ & c' & Hv' & Hc). exists c'.
  pose proof (freezeStepPolicies_fields (mkIrStep (stepID planID index) (u32 (Z.of_nat index)) (si_verb invocation) hash arguments None None None 0 0)
    c c' Hc) as ((B1 & B2 & B3 & B4 & B5 & B6) & P1 & P2 & P3).
  pose proof (λ r, lowered_compensation (mkIrStep (stepID planID index) (u32 (Z.of_nat index)) (si_verb invocation) hash arguments None None None 0 0)
    c c' _ r Hv Hc eq_refl Hval) as P4.
  cbn zeta in P4. destruct (freezeStepPolicies _ _ _ _). cbn in *. subst.
  split; cbn; [done|done|done|done| |done|done|done|done|done|done]. by rewrite (ContractHash_normal _ _ Hc).
Qed.

(** A lowered step passes the checker unchanged. *)
Lemma checkStep_fixed planID index invocation bindings bindings' step contract limits i slots s step' slots' s' :
  stepLowered planID index invocation bindings bindings' step contract →
  checkStep normal limits i step slots policy s = Ok ((step', slots'), s') → step' = step.
Proof.
  intros L H. unfold checkStep in H. inv_check.
  match goal with E : ofOption _ _ = Ok _ |- _ => apply ofOption_Ok in E; rewrite (lo_contract _ _ _ _ _ _ _ L) in E; injection E as <- end.
  eapply checkStepPolicies_fixed; [apply L..|eassumption].
Qed.
Lemma checkSteps_fixed planID invocations limits index bindings steps slots s steps' s' :
  lowerInvocationsFrom env policy planID index invocations bindings = Ok steps →
  checkSteps normal limits index steps slots policy s = Ok (steps', s') → steps' = steps.
Proof.
  revert index bindings steps slots s steps' s'.
  induction invocations as [|invocation invocations IH]; cbn; intros index bindings steps slots s steps' s' Hl H.
  - injection Hl as <-. cbn in H. by inv_check.
  - apply bind_Ok in Hl as ([step bindings1] & (contract & L)%lowerInvocation_lowered & Hl). apply bind_Ok in Hl as (rest & Hl & [= <-]).
    cbn in H. inv_check. match goal with x : Step * _ |- _ => destruct x as [step1 slots1] end. inv_check.
    match goal with E : checkStep _ _ _ _ _ _ _ = _, E' : checkSteps _ _ _ _ _ _ _ = _ |- _ =>
      apply (checkStep_fixed _ _ _ _ _ _ _ _ _ _ _ _ _ _ L) in E; eapply IH in E'; [|exact Hl] end. by subst.
Qed.
Definition planLowered (plan : Plan) : Prop :=
  pl_ExecutionPolicy plan = policy ∧ ∃ invocations, lowerInvocations env policy (pl_Id plan) invocations = Ok (pl_Steps plan).
Lemma checkPlan_fixed plan limits s plan' s' :
  planLowered plan → checkPlan normal limits plan s = Ok (plan', s') → plan' = plan.
Proof.
  intros (Hp & invocations & Hl) H. unfold checkPlan in H. rewrite Hp in H. clear Hp. inv_check.
  match goal with E : checkSteps _ _ _ _ _ _ _ = _ |- _ => eapply checkSteps_fixed in E; [|exact Hl]; subst end. by destruct plan.
Qed.
Lemma checkPlans_fixed plans limits previous s plans' s' :
  Forall planLowered plans → checkPlans normal limits previous plans s = Ok (plans', s') → plans' = plans.
Proof.
  intros Hl. revert previous s plans' s'. induction Hl as [|plan plans Hp _ IH]; cbn; intros previous s plans' s' H; inv_check; [done|].
  match goal with E : checkPlan _ _ _ _ = _, E' : checkPlans _ _ _ _ _ = _ |- _ => apply checkPlan_fixed in E; [|done]; apply IH in E' end.
  by subst.
Qed.
Lemma check_fixed artifact limits s artifact' s' :
  Forall planLowered (ra_Plans artifact) → check normal limits artifact s = Ok (artifact', s') → artifact' = artifact.
Proof.
  intros Hl H. unfold check in H. inv_check.
  match goal with E : checkPlans _ _ _ _ _ = _ |- _ => apply checkPlans_fixed in E; [|done]; subst end. by destruct artifact.
Qed.

(** ** Every plan of a source is lowered *)
  Context (parseExpression : string → result Node).
Lemma lowerListRule_lowered rule order plan : lowerListRule env policy parseExpression rule order = Ok plan →
  planLowered plan ∧ pl_SourceDialect plan = SOURCE_DIALECT_LIST ∧ pl_SourceOrder plan = order.
Proof.
  unfold lowerListRule. destruct rule as [rule|]; [|done]. intros H. apply bind_Ok in H as ([] & _ & H).
  apply bind_Ok in H as ([predicates effects] & _ & H). apply bind_Ok in H as (steps & Hs & [= <-]). cbn. split_and!; [|done..]. split; eauto.
Qed.
Lemma lowerFlow_lowered flow order plan : lowerFlow env policy parseExpression flow order = Ok plan →
  planLowered plan ∧ pl_SourceDialect plan = SOURCE_DIALECT_FLOW ∧ pl_SourceOrder plan = order.
Proof.
  unfold lowerFlow. destruct flow as [flow|]; [|done]. intros H. apply bind_Ok in H as ([] & _ & H). apply bind_Ok in H as (p & _ & H).
  apply bind_Ok in H as (invocations & _ & H). apply bind_Ok in H as (steps & Hs & [= <-]). cbn. split_and!; [|done..]. split; eauto.
Qed.
Lemma lowerAll_Forall {A} (lower : option A → Z → result Plan) (P : Plan → Prop) order l plans order' :
  (∀ d o plan, lower d o = Ok plan → P plan) → lowerAll lower order l = Ok (plans, order') → Forall P plans.
Proof.
  intros HP. revert order plans. induction l as [|d l IH]; cbn; intros order plans H; [by simplify_eq|].
  apply bind_Ok in H as (plan & Hp & H). apply bind_Ok in H as ([plans1 order1] & Hl & [= <- <-]). eauto.
Qed.
Lemma lowerSource_lowered source lo fo plans lo' fo' :
  lowerSource env policy parseExpression source lo fo = Ok (plans, lo', fo') → Forall planLowered plans.
Proof.
  unfold lowerSource. intros H. repeat case_bool_decide; [| |by simplify_eq];
    apply bind_Ok in H as (ds & _ & H); apply bind_Ok in H as ([plans1 order1] & Hl & [= <- <- <-]);
    eapply lowerAll_Forall, Hl; intros d o plan Hp.
  - by apply lowerListRule_lowered in Hp as [? _].
  - by apply lowerFlow_lowered in Hp as [? _].
Qed.
Lemma lowerSources_lowered ctx i sources lo fo plans :
  lowerSources env policy parseExpression ctx i sources lo fo = Ok plans → Forall planLowered plans.
Proof.
  revert i lo fo plans. induction sources as [|source sources IH]; cbn; intros i lo fo plans H; [by simplify_eq|].
  apply bind_Ok in H as ([] & _ & H). apply bind_Ok in H as ([[plans1 lo1] fo1] & H1 & H). apply bind_Ok in H as (rest & H2 & [= <-]).
  apply Forall_app. split; [by eapply lowerSource_lowered|by eapply IH].
Qed.
End Frozen.

Section Compiled.
  Context (parseBytes : string → string → result File) (parseExpression : string → result Node).
  Context (protoSize : RuleArtifact → Z) (unknownFields : RuleArtifact → bool) (protoMarshal : RuleArtifact → option string).
  Context (parsing lowering : nat → option error).
  #[local] Abbreviation lowerBundle := (lowerBundle parseBytes parseExpression parsing lowering).
  #[local] Abbreviation CompileChecked := (CompileChecked parseBytes parseExpression protoSize unknownFields protoMarshal parsing lowering).

Lemma lowerBundle_lowered sources environment options artifact :
  lowerBundle sources environment options = Ok artifact →
  ∃ policy, executionPolicy options = Ok policy ∧ Forall (planLowered environment policy) (ra_Plans artifact).
Proof.
  unfold Compiler.lowerBundle. intros H. apply bind_Ok in H as (policy & Hp & H). apply bind_Ok in H as (ordered & _ & H).
  apply bind_Ok in H as (plans & Hl & H). apply bind_Ok in H as (d & _ & [= <-]). exists policy. split; [done|]. cbn.
  unfold CanonicalPlanOrder. rewrite merge_sort_Permutation. by eapply lowerSources_lowered.
Qed.
Lemma CompileChecked_fixed sources environment options checked artifact :
  CompileChecked sources environment options = Ok (checked, artifact) → lowerBundle sources environment options = Ok artifact.
Proof.
  unfold Compiler.CompileChecked, Check. intros H. apply bind_Ok in H as (lowered & Hl & H). rewrite Hl. f_equal.
  apply bind_Ok in H as (limits & _ & H). apply bind_Ok in H as (a & [= <-] & H).
  apply bind_Ok in H as ([] & _ & H). apply bind_Ok in H as ([] & _ & H). apply bind_Ok in H as (normal & Hn & H).
  destruct (normalizeEnvironment environment) as [n|] eqn:Henv; [|done]. injection Hn as ->.
  apply bind_Ok in H as ([clone state] & Hc & H). apply bind_Ok in H as (w & _ & H). apply bind_Ok in H as ([] & _ & [= <- <-]).
  destruct (lowerBundle_lowered _ _ _ _ Hl) as (policy & _ & Hp). symmetry. eapply check_fixed; eauto.
Qed.
End Compiled.

(** ** The order of the sources *)
Section Order.
  Context (parseBytes : string → string → result File).
Lemma NoDup_key_inj {A B} (key : A → B) l x y : NoDup (key <$> l) → x ∈ l → y ∈ l → key x = key y → x = y.
Proof.
  intros Hn (i & Hi)%list_elem_of_lookup (j & Hj)%list_elem_of_lookup E.
  assert (i = j) as ->; [|congruence]. eapply (NoDup_lookup (key <$> l)); [done|by rewrite list_lookup_fmap, Hi|].
  by rewrite list_lookup_fmap, Hj, E.
Qed.
Definition parseOne (source : Source) : result parsedSource :=
  path ← normalizeSourcePath (so_Path source); parseSource parseBytes path (so_Content source).
Lemma parseSource_path path content parsed : parseSource parseBytes path content = Ok parsed → pa_path parsed = path.
Proof. unfold parseSource. intros H. by inv_res. Qed.
Lemma parseLoop_spec i seen sources ordered :
  parseLoop parseBytes (λ _, None) i seen sources = Ok ordered ↔
  Forall2 (λ source parsed, parseOne source = Ok parsed) sources ordered ∧ NoDup (pa_path <$> ordered) ∧
  Forall (λ parsed, pa_path parsed ∉ seen) ordered.
Proof.
  revert i seen ordered. induction sources as [|source sources IH]; cbn; intros i seen ordered.
  - split; [intros [= <-]; split_and!; constructor|]. intros (H & _). by inversion H.
  - split.
    + intros H. apply bind_Ok in H as (path & Hp & H). apply bind_Ok in H as ([] & Hs & H). apply bind_Ok in H as (parsed & Ho & H).
      apply bind_Ok in H as (rest & Hr & [= <-]). apply IH in Hr as (Hf & Hn & Hseen). apply failIf_Ok in Hs. bool_to_prop.
      pose proof (parseSource_path _ _ _ Ho) as Hpath. rewrite Forall_forall in Hseen. split_and!.
      * constructor; [unfold parseOne; rewrite Hp; done|done].
      * cbn. apply NoDup_cons. split; [|done]. rewrite Hpath. intros (q & Hq & Hin)%list_elem_of_fmap.
        specialize (Hseen q Hin). rewrite <-Hq in Hseen. set_solver.
      * constructor; [by rewrite Hpath|]. apply Forall_forall. intros q Hq. specialize (Hseen q Hq). set_solver.
    + intros (Hf & Hn & Hseen). inversion Hf as [|? parsed ? rest Ho Hr]; subst. cbn in Hn. apply NoDup_cons in Hn as [Hn Hn'].
      apply Forall_cons in Hseen as [Hp Hseen]. unfold parseOne in Ho. apply bind_Ok in Ho as (path & Hpath & Ho). rewrite Hpath. cbn.
      pose proof (parseSource_path _ _ _ Ho) as <-. rewrite bool_decide_eq_false_2 by done. cbn. rewrite Ho. cbn.
      assert (parseLoop parseBytes (λ _, None) (S i) ({[pa_path parsed]} ∪ seen) sources = Ok rest) as ->; [|done].
      apply IH. split_and!; [done|done|]. rewrite Forall_forall in Hseen |- *. intros q Hq. specialize (Hseen q Hq).
      assert (pa_path q ≠ pa_path parsed); [|set_solver]. intros E. apply Hn. rewrite <-E. by apply list_elem_of_fmap_2.
Qed.
#[local] Instance parsedLe_total : Total parsedLe.
Proof. apply leOf_total, strLt_strict. Qed.
#[local] Instance parsedLe_trans : Transitive parsedLe.
Proof. apply leOf_trans, strLt_strict. Qed.
Lemma parseSources_permutation sources sources' ordered :
  sources ≡ₚ sources' → parseSources parseBytes (λ _, None) sources = Ok ordered →
  parseSources parseBytes (λ _, None) sources' = Ok ordered.
Proof.
  unfold parseSources. intros Hp H. apply bind_Ok in H as (l & (Hf & Hn & _)%parseLoop_spec & [= <-]).
  destruct (Permutation_Forall2 Hp Hf) as (l' & Hl & Hf').
  assert (parseLoop parseBytes (λ _, None) 0 ∅ sources' = Ok l') as ->.
  { apply parseLoop_spec. split_and!; [done|by rewrite <-Hl|]. apply Forall_forall. set_solver. }
  cbn. f_equal. apply (Sorted_unique_strong parsedLe); [|apply Sorted_merge_sort, _..|by rewrite !merge_sort_Permutation].
  intros a b Ha Hb Hab Hba. rewrite merge_sort_Permutation, <-Hl in Ha. rewrite merge_sort_Permutation in Hb.
  unfold parsedLe, leOf in Hab, Hba. destruct (strLt_total (pa_path a) (pa_path b)) as [E|[E|E]]; [congruence| |congruence].
  by apply (NoDup_key_inj pa_path l).
Qed.
Lemma lowerBundle_permutation parseExpression sources sources' environment options artifact :
  sources ≡ₚ sources' →
  Compiler.lowerBundle parseBytes parseExpression (λ _, None) (λ _, None) sources environment options = Ok artifact →
  Compiler.lowerBundle parseBytes parseExpression (λ _, None) (λ _, None) sources' environment options = Ok artifact.
Proof.
  unfold Compiler.lowerBundle. intros Hp H. apply bind_Ok in H as (policy & -> & H). apply bind_Ok in H as (ordered & Ho & H). cbn.
  by rewrite (parseSources_permutation _ _ _ Hp Ho).
Qed.
End Order.

(** C10: what is checked is what was lowered. When a bundle compiles, the artifact that was
    encoded and hashed is the one that the lowering built: the checker fills nothing in,
    although it works on the normal form of the environment and would supply the retry,
    idempotency, fencing and compensation policies that a step leaves out. Every plan has the
    policy of the options, and the sources give the same handle and the same artifact in
    every order. *)
Theorem compiled_artifact_is_the_lowered_one parseBytes parseExpression protoSize unknownFields protoMarshal
    sources environment options checked artifact :
  CompileChecked parseBytes parseExpression protoSize unknownFields protoMarshal (λ _, None) (λ _, None)
    sources environment options = Ok (checked, artifact) →
  lowerBundle parseBytes parseExpression (λ _, None) (λ _, None) sources environment options = Ok artifact ∧
  protoMarshal artifact = Some (wire checked) ∧ digest checked = sha256hex (bytes (wire checked)) ∧
  (∃ policy, executionPolicy options = Ok policy ∧ Forall (λ plan, pl_ExecutionPolicy plan = policy) (ra_Plans artifact)) ∧
  ∀ sources', sources ≡ₚ sources' →
    CompileChecked parseBytes parseExpression protoSize unknownFields protoMarshal (λ _, None) (λ _, None)
      sources' environment options = Ok (checked, artifact).
Proof.
  intros H. pose proof (CompileChecked_fixed _ _ _ _ _ _ _ _ _ _ _ _ H) as Hl. split; [done|].
  unfold CompileChecked in *. rewrite Hl in H. cbn in H.
  assert (protoMarshal artifact = Some (wire checked) ∧ digest checked = sha256hex (bytes (wire checked))) as [Hm Hd].
  { unfold Check in H. inv_res. match goal with x : RuleArtifact * checkState |- _ => destruct x end. inv_res. done. }
  split_and!; [done|done| |].
  - destruct (lowerBundle_lowered _ _ _ _ _ _ _ _ Hl) as (policy & Hp & Hf). exists policy. split; [done|].
    eapply Forall_impl; [exact Hf|]. by intros plan [? _].
  - intros sources' Hperm. by rewrite (lowerBundle_permutation parseBytes parseExpression _ _ _ _ _ Hperm Hl).
Qed.

(** A rule and a flow that both call [ship], read by parsers that know their two files. *)
Definition demoVerb : VerbContract := mkVerb {["id" := " string "]} None "string" "" (mkRetryPolicy 0 0 0) "" true.
Definition demoEnvironment : Environment := mkEnvironment {["total" := "int"]} {["ship" := demoVerb]} ∅ ∅.
Definition demoArgs : list (option StepArg) :=
  [Some (mkStepArg "id" (Some (mkArgValue "" None (Some (mkALiteral (Some "k") None None None None None)))))].
Definition demoParse (path _ : string) : result File :=
  if bool_decide (path = "a.eff") then
    Ok (mkFile [Some (mkRule (mkPosition 1 1) "r" 3 [Some (mkWhenThen None (Some [Some (mkEffect "" "ship" demoArgs)]))])] [])
  else Ok (mkFile [] [Some (mkFlow (mkPosition 1 1) "f" 1 None (Some [Some (mkFlowStep "x" "ship" demoArgs "")]))]).
Definition demoPredicate (_ : string) : result Node := Ok (BinaryNode ">" (IdentifierNode "total") (IntegerNode 7)).
Definition demoSources : list Source := [mkSourceFile "a.eff" "when { total > 7 }"; mkSourceFile "b.effx" "when { total > 7 }"].
Definition demoCompile (sources : list Source) : result (Checked * RuleArtifact) :=
  CompileChecked demoParse demoPredicate (λ _, 0) (λ _, false) (λ _, Some "wire") (λ _, None) (λ _, None)
    sources demoEnvironment (mkCompileOptions 0 ValidationDefaults).
Definition demoHandle : Checked * RuleArtifact :=
  match demoCompile demoSources with Ok r => r | Err _ => (mkChecked "" "" 0 0 0, mkRuleArtifact 0 None "" []) end.
Lemma compiled_artifact_is_the_lowered_one_witness :
  demoCompile (reverse demoSources) = Ok (demoHandle.1, demoHandle.2) ∧ List.length (ra_Plans demoHandle.2) = 2%nat.
Proof.
  split; [|vm_compute; reflexivity].
  refine (proj2 (proj2 (proj2 (proj2 (compiled_artifact_is_the_lowered_one demoParse demoPredicate (λ _, 0) (λ _, false) (λ _, Some "wire")
    demoSources demoEnvironment (mkCompileOptions 0 ValidationDefaults) demoHandle.1 demoHandle.2 _)))) (reverse demoSources) _).
  - vm_compute. reflexivity.
  - symmetry. apply reverse_Permutation.
Defined.
