(* ===== verification/PredicateProps.v ===== *)
(** * Predicates keep their meaning when they are lowered

    A reference interpreter of the parsed predicates works on the source operators by
    name. The checked expression of a rule or of a flow evaluates to what the interpreter
    says of its source. *)

From S2P Require Import Prelude GoText Json Ir Types Env Check Value Eval GoPath SourceScan SourceAst Compiler.
From stdpp Require Import pretty.
From Stdlib Require Import ZArith NArith Ascii String.
Local Open Scope list_scope.
Local Open Scope Z_scope.

Section Meaning.
  Context (matchString : string → string → result bool) (facts : list (string * any)).
  #[local] Abbreviation evaluate := (λ e, evaluateCheckedExpression matchString e facts).
  #[local] Abbreviation holds := (λ e, evaluateCheckedPredicate matchString e facts).

(** ** The interpreter *)
Definition notBool : error := errorf "not operand is not a bool".
Definition negation (v : any) : result any := match v with ABool b => Ok (ABool (negb b)) | _ => Err notBool end.
Definition strictOperator (operator : string) : option BinaryOperator :=
  match operator with
  | "==" => Some OpEqual | "!=" => Some OpNotEqual | ">" => Some OpGreater | ">=" => Some OpGreaterEqual
  | "<" => Some OpLess | "<=" => Some OpLessEqual | "in" => Some OpIn | "contains" => Some OpContains
  | "matches" => Some OpMatches | "startsWith" => Some OpStartsWith | "endsWith" => Some OpEndsWith
  | "+" => Some OpAdd | "-" => Some OpSubtract | "*" => Some OpMultiply | "/" => Some OpDivide | "%" => Some OpModulo
  | _ => None
  end.
Definition strict (operator : string) (l r : result any) : result any :=
  op ← ofOption (strictOperator operator) (errorf "unsupported binary operator");
  a ← l; b ← r; evaluateCheckedBinary matchString op a b.
Definition logicalAnd (l r : result any) : result any :=
  a ← l;
  match a with
  | ABool false => Ok (ABool false)
  | _ => b ← r; evaluateCheckedBinary matchString OpAnd a b
  end.
Definition logicalOr (l r : result any) : result any :=
  a ← l;
  match a with
  | ABool true => Ok (ABool true)
  | _ => b ← r; evaluateCheckedBinary matchString OpOr a b
  end.
(** [not] in front of [in], [contains], [matches], [startsWith] and [endsWith] negates them. *)
Definition binaryMeaning (operator : string) (l r : result any) : result any :=
  if bool_decide (operator = "&&") || bool_decide (operator = "and") then logicalAnd l r
  else if bool_decide (operator = "||") || bool_decide (operator = "or") then logicalOr l r
  else if HasPrefix operator "not " then v ← strict (TrimPrefix operator "not ") l r; negation v
  else strict operator l r.

Fixpoint meaning (node : Node) : result any :=
  match node with
  | NilNode => Ok ANil
  | BoolNode b => Ok (ABool b)
  | IntegerNode i => Ok (AInt i)
  | FloatNode f => Ok (AFloat f)
  | StringNode s => Ok (AString s)
  | ArrayNode nodes =>
      items ← (fix go l := match l with [] => Ok [] | n :: l => v ← meaning n; vs ← go l; Ok (v :: vs) end) nodes;
      Ok (AList items)
  | IdentifierNode _ | MemberNode _ _ _ _ =>
      path ← expressionFactPath node; ofOption (lookupWorkflowFact facts path) missingFact
  | UnaryNode operator operand =>
      v ← meaning operand;
      if bool_decide (operator = "-") then evaluateCheckedUnary OpNegate v else negation v
  | BinaryNode operator l r => binaryMeaning operator (meaning l) (meaning r)
  | CallNode _ _ | BuiltinNode _ | OtherNode => Err (errorf "not a predicate")
  end.

(** ** Nodes *)
Lemma evaluate_binary operator op negated l r :
  lowerBinaryOperator operator = Ok (op, negated) →
  evaluate (if (negated : bool) then ExprUnary OpNot (binaryExpression op l r) else binaryExpression op l r)
  = binaryMeaning operator (evaluate l) (evaluate r).
Proof.
  unfold lowerBinaryOperator, binaryExpression. 
  destruct (List.find _ _) as [p|] eqn:Hf; [|done]. intros [= Hp]. apply List.find_some in Hf as [Hin Heq].
  apply bool_decide_eq_true in Heq. subst operator. 
  repeat (destruct Hin as [<- | Hin]; [injection Hp as <- <-; cbn;
    destruct (evaluateCheckedExpression matchString l facts) as [a|]; cbn; [|done];
    try (destruct (evaluateCheckedExpression matchString r facts) as [b|]; cbn; [|by destruct a as [|[]| | | | | | | | |]]);
    by destruct a as [|[]| | | | | | | | |] |]).
  destruct Hin.
Qed.

Lemma literalOf_evaluate e literal : literalOf e = Ok literal → evaluate e = checkedLiteralValue literal.
Proof. destruct e; intros [= <-]. done. Qed.

Fixpoint lowerExprNode_meaning (node : Node) {struct node} : ∀ e, lowerExprNode node = Ok e → evaluate e = meaning node.
Proof.
  destruct node as [| | | | |nodes| | |operator operand|operator l r|callee args| |]; intros e H; cbn in H.
  1-5: by injection H as <-.
  - apply bind_Ok in H as (literals & H & [= <-]). cbn.
    match goal with |- (?x ≫= _) = (?y ≫= _) => enough (x = y) as -> by done end.
    revert literals H. induction nodes as [|n nodes IH]; intros literals H; [by injection H as <-|].
    apply bind_Ok in H as (e & He & H). apply bind_Ok in H as (lit & Hl & H). apply bind_Ok in H as (lits & Hr & [= <-]).
    cbn. rewrite <-(lowerExprNode_meaning _ _ He), (literalOf_evaluate _ _ Hl), (IH _ Hr). done.
  - by injection H as <-.
  - apply bind_Ok in H as (path & Hp & [= <-]). cbn [meaning evaluateCheckedExpression]. cbn [expressionFactPath]. rewrite Hp. done.
  - apply bind_Ok in H as (e' & He & H). apply bind_Ok in H as (op & Ho & [= <-]). cbn. rewrite (lowerExprNode_meaning _ _ He).
    unfold lowerUnaryOperator in Ho. destruct (meaning operand) as [v|]; [|done]. cbn.
    destruct (bool_decide (operator = "!") || bool_decide (operator = "not")) eqn:Hn.
    + injection Ho as <-. rewrite bool_decide_eq_false_2; [done|]. intros ->. done.
    + case_bool_decide; [|done]. by injection Ho as <-.
  - apply bind_Ok in H as (l' & Hl & H). apply bind_Ok in H as (r' & Hr & H). apply bind_Ok in H as ([op negated] & Ho & [= <-]).
    cbn [meaning]. rewrite <-(lowerExprNode_meaning _ _ Hl), <-(lowerExprNode_meaning _ _ Hr). by apply evaluate_binary.
  - by destruct callee.
  - done.
  - done.
Qed.

(** ** Conjunctions *)
(** The conjunction of predicates, from the one already joined. *)
Definition thenHold (ok : result bool) (rest : list Expression) : result bool :=
  foldl (λ ok e, b ← ok; if (b : bool) then holds e else Ok false) ok rest.
Lemma holds_and l r b :
  holds (binaryExpression OpAnd l r) = Ok b ↔ (ok ← holds l; if (ok : bool) then holds r else Ok false) = Ok b.
Proof.
  unfold evaluateCheckedPredicate, binaryExpression. cbn.
  destruct (evaluateCheckedExpression matchString l facts) as [a|]; cbn; [|done].
  destruct (evaluateCheckedExpression matchString r facts) as [c|]; cbn; destruct a as [|[]| | | | | | | | |]; cbn; try naive_solver;
    destruct c; cbn; naive_solver.
Qed.
Lemma holds_conjunction_from first rest b :
  holds (foldl (binaryExpression OpAnd) first rest) = Ok b ↔ thenHold (holds first) rest = Ok b.
Proof.
  unfold thenHold. revert b. induction rest as [|e rest IH] using rev_ind; intros b; cbn; [done|].
  rewrite !foldl_app. cbn [foldl]. rewrite holds_and, !bind_Ok. setoid_rewrite IH. done.
Qed.
Lemma thenHold_step ok rest :
  thenHold ok rest = (b ← ok; if (b : bool) then thenHold (Ok true) rest else Ok false).
Proof.
  unfold thenHold. revert ok. induction rest as [|e rest IH]; intros ok; cbn.
  - destruct ok as [[]|]; done.
  - rewrite IH. destruct ok as [[]|]; cbn; [|done..]. by rewrite (IH (evaluateCheckedPredicate _ _ _)).
Qed.
Lemma holds_conjunction l b : holds (conjunction l) = Ok b ↔ thenHold (Ok true) l = Ok b.
Proof. destruct l as [|first l]; [done|]. cbn [conjunction]. by rewrite holds_conjunction_from. Qed.

(** ** Rules and flows *)
  Context (parseExpression : string → result Node).
(** What a [when] text says of the facts: nothing when it is blank. *)
Definition whenHolds (when : option string) : result bool :=
  if blankWhen when then Ok true else
  node ← parseExpression (default "" when);
  v ← meaning node;
  match v with ABool b => Ok b | _ => Err (errorf "predicate is not a bool") end.
(** Every block in order, up to the first that fails. *)
Fixpoint blocksHold (blocks : list (option WhenThenBlock)) : result bool :=
  match blocks with
  | [] => Ok true
  | None :: _ => Err (errorf "nil block")
  | Some b :: blocks => ok ← whenHolds (wt_When b); if (ok : bool) then blocksHold blocks else Ok false
  end.

Lemma lowerPredicate_holds when e b : blankWhen when = false →
  lowerPredicate parseExpression (default "" when) = Ok e → holds e = Ok b ↔ whenHolds when = Ok b.
Proof.
  unfold lowerPredicate, whenHolds. intros ->. destruct (parseExpression _) as [node|]; [|done]. intros H. cbn.
  unfold evaluateCheckedPredicate. rewrite (lowerExprNode_meaning _ _ H). done.
Qed.

Lemma blocks_hold blocks predicates effects b :
  lowerBlocks parseExpression blocks = Ok (predicates, effects) →
  thenHold (Ok true) predicates = Ok b ↔ blocksHold blocks = Ok b.
Proof.
  revert predicates effects b. induction blocks as [|[block|] blocks IH]; cbn; intros predicates effects b H; [by simplify_eq| |done].
  apply bind_Ok in H as (p & Hp & H). apply bind_Ok in H as ([predicates1 effects1] & Hb & [= <- <-]).
  destruct (blankWhen (wt_When block)) eqn:Hblank.
  - injection Hp as <-. unfold whenHolds. rewrite Hblank. cbn. by eapply IH.
  - apply bind_Ok in Hp as (e & He & [= <-]). change ([e] ++ predicates1) with (e :: predicates1).
    change (thenHold (Ok true) (e :: predicates1)) with (thenHold (holds e) predicates1). rewrite thenHold_step, !bind_Ok.
    setoid_rewrite (lowerPredicate_holds _ _ _ Hblank He). split; intros ([] & H1 & H2); eexists; (split; [exact H1|]); [by eapply IH|done|by eapply IH|done].
Qed.
End Meaning.

(** C6: lowering keeps the meaning of predicates. The predicate of a compiled list rule
    evaluates to the verdict of its [when] blocks, read in order by an interpreter of the
    source operators, blank blocks left out and later blocks not read after one that is
    false; the predicate of a compiled flow evaluates to the verdict of its [when] block.
    The facts, the expression parser and the regexp matcher are arbitrary. *)
Theorem compiled_predicates_keep_their_meaning matchString facts parseExpression environment policy order verdict :
  (∀ rule plan, lowerListRule environment policy parseExpression (Some rule) order = Ok plan →
     evaluateCheckedPredicate matchString (pl_Predicate plan) facts = Ok verdict ↔
     blocksHold matchString facts parseExpression (ru_Blocks rule) = Ok verdict) ∧
  (∀ flow plan, lowerFlow environment policy parseExpression (Some flow) order = Ok plan →
     evaluateCheckedPredicate matchString (pl_Predicate plan) facts = Ok verdict ↔
     whenHolds matchString facts parseExpression (fl_When flow) = Ok verdict).
Proof.
  split.
  - intros rule plan H. unfold lowerListRule in H. apply bind_Ok in H as ([] & _ & H).
    apply bind_Ok in H as ([predicates effects] & Hb & H). apply bind_Ok in H as (steps & _ & [= <-]). cbn.
    etrans; [apply holds_conjunction|]. exact (blocks_hold _ _ _ _ _ _ _ Hb).
  - intros flow plan H. unfold lowerFlow in H. apply bind_Ok in H as ([] & _ & H). apply bind_Ok in H as (predicate & Hp & H).
    apply bind_Ok in H as (invocations & _ & H). apply bind_Ok in H as (steps & _ & [= <-]). cbn.
    destruct (blankWhen (fl_When flow)) eqn:Hblank; [|exact (lowerPredicate_holds _ _ _ _ _ _ Hblank Hp)].
    injection Hp as <-. unfold whenHolds. rewrite Hblank. done.
Qed.
(** A rule with a blank block and the predicate [total not in [7]]. *)
Definition notSeven : Node := BinaryNode "not in" (IdentifierNode "total") (ArrayNode [IntegerNode 7]).
Definition sampleBlocks : list (option WhenThenBlock) := [Some (mkWhenThen (Some " ") None); Some (mkWhenThen (Some "p") None)].
Lemma compiled_predicates_keep_their_meaning_witness :
  evaluateCheckedPredicate (λ _ _, Ok false) (ExprUnary OpNot (ExprBinary OpIn (ExprFactPath "total") (ExprLiteral (LitList [LitInt 7]))))
    [("total", AInt 9)] = Ok true.
Proof.
  refine (proj2 (proj1 (compiled_predicates_keep_their_meaning (λ _ _, Ok false) [("total", AInt 9)] (λ _, Ok notSeven)
    (mkEnvironment ∅ ∅ ∅ ∅) 1 0 true) (mkRule (mkPosition 1 1) "r" 0 sampleBlocks)
    (mkPlan "r" SOURCE_DIALECT_LIST 0 0
       (ExprUnary OpNot (ExprBinary OpIn (ExprFactPath "total") (ExprLiteral (LitList [LitInt 7])))) 1 []) _) _); vm_compute; reflexivity.
Defined.
