(* ===== verification/DataflowProps.v ===== *)
(** * Arguments and results of compiled steps

    The steps of a plan against the invocations of its source: which step a [$name]
    reference is resolved to, which slot a result is bound to, which arguments a step has. *)

From S2P Require Import Prelude GoText Sha256 Json Ir Types Env EnvProps Check CheckLemmas CheckInv GoPath SourceScan.
From S2P Require Import SourceAst Compiler CompilerProps.
From stdpp Require Import pretty.
From Stdlib Require Import ZArith Ascii String Lia.
Local Open Scope list_scope.
Local Open Scope Z_scope.

(** ** The reference *)
Definition binds (invocation : sourceInvocation) : bool := negb (bool_decide (si_binding invocation = "")).
(** The slot of the [i]th invocation: the number of results bound before it. *)
Definition slotOf (invocations : list sourceInvocation) (i : nat) : Z :=
  u32 (Z.of_nat (List.length (List.filter binds (take i invocations)))).

(** What an argument of the [i]th invocation stands for. *)
Inductive denotes (invocations : list sourceInvocation) (i : nat) : ArgValue → Value → Prop :=
  | denotes_literal l literal :
      lowerASTLiteral l = Ok literal → denotes invocations i (mkArgValue "" None (Some l)) (ValueLiteral literal)
  | denotes_path path :
      TrimSpace path ≠ "" → denotes invocations i (mkArgValue "" (Some path) None) (ValueFactPath (TrimSpace path))
  | denotes_result name j invocation :
      (j < i)%nat → invocations !! j = Some invocation → si_binding invocation = name → name ≠ "" →
      denotes invocations i (mkArgValue ("$" +:+ name) None None) (ValueResultSlot (slotOf invocations j)).

(** ** Argument lists *)
Lemma addArgument_fold arguments byName byName' :
  foldR addArgument arguments byName = Ok byName' →
  (∀ name value, byName' !! name = Some value ↔ byName !! name = Some value ∨ Some (mkStepArg name value) ∈ arguments) ∧
  None ∉ arguments.
Proof.
  revert byName. induction arguments as [|a arguments IH]; cbn; intros byName H.
  { injection H as <-. split; [|set_solver]. intros name value. rewrite elem_of_nil. naive_solver. }
  apply bind_Ok in H as (byName1 & Ha & H). destruct (IH _ H) as [Hm Hn]. unfold addArgument in Ha.
  destruct a as [[name0 value0]|]; [|done]. cbn in Ha. inv_res. bool_to_prop. split; [|set_solver].
  intros name value. rewrite Hm, elem_of_cons. destruct (decide (name = name0)) as [->|Hne].
  - rewrite lookup_insert_eq. split; [intros [[= ->]|?]; auto|]. intros [E|[[= ->]|?]]; auto. exfalso. eauto.
  - rewrite lookup_insert_ne by done. naive_solver.
Qed.
Lemma sortedKeys_strict {V} (m : gmap string V) : StronglySorted (λ p q, strLt p q = true) (sortedKeys m).
Proof.
  assert (NoDup (sortedKeys m)) as Hn by (unfold sortedKeys; rewrite sortedStrings_Permutation; apply NoDup_fst_map_to_list).
  revert Hn. unfold sortedKeys. induction (sortedStrings_Sorted (map_to_list m).*1) as [|x l _ IH Hx]; intros Hn; constructor.
  - apply IH. by apply NoDup_cons in Hn as [_ ?].
  - apply NoDup_cons in Hn as [Hn _]. rewrite Forall_forall in Hx |- *. intros q Hq. apply strLt_le. split; [by apply Hx|]. by intros ->.
Qed.
(** The arguments of a step are those of the invocation, in the order of their names. *)
Lemma lowerArguments_spec arguments bindings out :
  lowerArguments arguments bindings = Ok out →
  StronglySorted (λ p q, strLt p q = true) (arg_Name <$> out) ∧
  ∀ name v, mkArgument name v ∈ out ↔
    ∃ value, Some (mkStepArg name value) ∈ arguments ∧ lowerArgumentValue value bindings = Ok v.
Proof.
  unfold lowerArguments. intros H. apply bind_Ok in H as (byName & Hb & H). apply mapR_Forall2 in H.
  destruct (addArgument_fold _ _ _ Hb) as [Hm _].
  assert (arg_Name <$> out = sortedKeys byName) as Hnames.
  { clear -H. induction H as [|name a l out' Ha _ IH]; [done|]. apply bind_Ok in Ha as (v & _ & [= <-]). cbn. by rewrite IH. }
  split; [rewrite Hnames; apply sortedKeys_strict|]. intros name v. split.
  - intros Hin. apply list_elem_of_lookup in Hin as [i Hi]. destruct (Forall2_lookup_r _ _ _ _ _ H Hi) as (name' & Hk & Ha).
    apply bind_Ok in Ha as (v' & Hv & [= -> ->]). apply list_elem_of_lookup_2, sortedKeys_elem in Hk as [value Hval].
    rewrite Hval in Hv. exists value. split; [|done]. apply Hm in Hval as [?|?]; [set_solver|done].
  - intros (value & Hin & Hv). assert (byName !! name = Some value) as Hval by (apply Hm; auto).
    assert (name ∈ sortedKeys byName) as Hk by (apply sortedKeys_elem; eauto). apply list_elem_of_lookup in Hk as [i Hi].
    destruct (Forall2_lookup_l _ _ _ _ _ H Hi) as (a & Ha & Hl). rewrite Hval in Hl. cbn in Hl. rewrite Hv in Hl. injection Hl as <-.
    by eapply list_elem_of_lookup_2.
Qed.

(** ** Bindings *)
Lemma TrimPrefix_cons a s : TrimPrefix (String a s) (String a "") = s.
Proof.
  unfold TrimPrefix. assert (HasPrefix (String a s) (String a "") = true) as ->.
  { unfold HasPrefix. cbn. by rewrite bool_decide_eq_true_2. }
  change (drop _ _) with (bytes s). unfold bytes, ofBytes. apply string_of_list_ascii_of_string.
Qed.
Lemma TrimPrefix_dollar s name : TrimPrefix s "$" = name → name ≠ s → s = "$" +:+ name.
Proof.
  destruct s as [|a s]; [by intros <-|]. intros <- Hne. destruct (decide (a = "$"%char)) as [->|Ha].
  - by rewrite TrimPrefix_cons.
  - exfalso. apply Hne. unfold TrimPrefix. assert (HasPrefix (String a s) "$" = false) as ->; [|done].
    unfold HasPrefix. cbn. by rewrite bool_decide_eq_false_2.
Qed.

(** The bindings in force before the [i]th invocation. *)
Definition tracks (invocations : list sourceInvocation) (i : nat) (bindings : gmap string Z) : Prop :=
  size bindings = List.length (List.filter binds (take i invocations)) ∧
  ∀ name slot, bindings !! name = Some slot ↔
    ∃ j invocation, (j < i)%nat ∧ invocations !! j = Some invocation ∧ si_binding invocation = name ∧ name ≠ "" ∧ slot = slotOf invocations j.

Lemma lowerArgumentValue_denotes invocations i bindings value v :
  tracks invocations i bindings →
  lowerArgumentValue value bindings = Ok v ↔ ∃ argument, value = Some argument ∧ denotes invocations i argument v.
Proof.
  intros [_ Ht]. split.
  - destruct value as [[ref path literal]|]; cbn; [|done]. intros H. eexists. split; [done|].
    destruct literal as [l|], path as [p|]; try case_bool_decide as Hr; try done.
    + subst. inv_res. by constructor.
    + subst. inv_res. bool_to_prop. by constructor.
    + inv_res. match goal with E : _ || _ = false |- _ => apply orb_false_iff in E as [E1 E2] end. bool_to_prop.
      match goal with E : bindings !! _ = Some _ |- _ => apply Ht in E as (j & invocation & Hj & Hi & Hb & Hne & ->) end.
      rewrite (TrimPrefix_dollar ref _ eq_refl E1). by econstructor.
  - intros (argument & -> & Hd). destruct Hd as [l literal Hl|path Hp|name j invocation Hj Hi Hb Hne];
      unfold lowerArgumentValue; cbn [av_Literal av_PathExpr av_VarRef].
    + rewrite bool_decide_eq_true_2 by done. by rewrite Hl.
    + rewrite bool_decide_eq_true_2 by done. by rewrite bool_decide_eq_false_2.
    + rewrite (bool_decide_eq_false_2 ("$" +:+ name = "")) by done.
      change (TrimPrefix ("$" +:+ name) "$") with (TrimPrefix (String "$" name) "$"). rewrite TrimPrefix_cons.
      rewrite (bool_decide_eq_false_2 (name = "")) by done. rewrite (bool_decide_eq_false_2 (name = "$" +:+ name)); cbn.
      2: { change ("$" +:+ name) with (String "$" name). intros E. apply (f_equal String.length) in E. cbn in E. lia. } assert (bindings !! name = Some (slotOf invocations j)) as -> by (apply Ht; naive_solver). done.
Qed.

Lemma filter_take_S invocations i invocation : invocations !! i = Some invocation →
  List.length (List.filter binds (take (S i) invocations)) =
    (List.length (List.filter binds (take i invocations)) + if binds invocation then 1 else 0)%nat.
Proof. intros Hi. rewrite (take_S_r _ _ _ Hi), List.filter_app, length_app. cbn. by destruct (binds invocation). Qed.
Lemma bindResultName_tracks invocations i invocation bindings slot bindings' :
  tracks invocations i bindings → invocations !! i = Some invocation →
  bindResultName (si_binding invocation) bindings = Ok (slot, bindings') →
  tracks invocations (S i) bindings' ∧ slot = if binds invocation then Some (slotOf invocations i) else None.
Proof.
  intros [Hs Ht] Hi. unfold bindResultName, tracks. rewrite (filter_take_S _ _ _ Hi). unfold binds at 2 3.
  destruct (decide (si_binding invocation = "")) as [Hb|Hb].
  - rewrite bool_decide_eq_true_2 by done. intros [= <- <-]. split; [|done]. split; [cbn; lia|]. intros name s. rewrite Ht. split.
    + intros (j & inv & Hj & ?). exists j, inv. split; [lia|done].
    + intros (j & inv & Hj & Hji & Hn & Hne & ->). exists j, inv. split_and!; try done.
      destruct (decide (j = i)) as [->|]; [|lia]. rewrite Hi in Hji. injection Hji as <-. congruence.
  - rewrite bool_decide_eq_false_2 by done. intros H. cbn. inv_res.
    match goal with E : _ || _ = false |- _ => apply orb_false_iff in E as [E1 E2] end. bool_to_prop.
    apply dec_stable in E2. rewrite E2 in *. assert (u32 (Z.of_nat (size bindings)) = slotOf invocations i) as Hslot by (unfold slotOf; by rewrite Hs).
    rewrite Hslot. split; [|done]. assert (bindings !! si_binding invocation = None) as Hnone by (by apply eq_None_not_Some).
    split; [rewrite map_size_insert_None by done; lia|]. intros name s. rewrite lookup_insert_Some, Ht. split.
    + intros [[<- <-]|(Hne & j & inv & Hj & ?)]; [exists i, invocation|exists j, inv]; (split; [lia|done]).
    + intros (j & inv & Hj & Hji & <- & Hne & ->). destruct (decide (j = i)) as [->|].
      * rewrite Hi in Hji. injection Hji as <-. by left.
      * right. split; [|exists j, inv; split; [lia|done]]. intros Heq. apply (eq_None_not_Some (bindings !! si_binding invocation)); [done|].
        exists (slotOf invocations j). apply Ht. exists j, inv. split; [lia|]. by rewrite Heq.
Qed.

(** ** Step identifiers *)
Lemma pad6_no_dot n : (0 ≤ n) → chr 46 ∉ rev (bytes (pad6 n)).
Proof.
  intros Hn Hin. rewrite list_elem_of_In, <-in_rev, <-list_elem_of_In in Hin. unfold pad6 in Hin.
  rewrite bytes_app, bytes_ofBytes, elem_of_app in Hin. destruct Hin as [Hin|Hin].
  - apply elem_of_replicate in Hin as [Hin _]. done.
  - pose proof (pretty_nonneg_digits n Hn) as H. rewrite Forall_forall in H. specialize (H _ Hin). done.
Qed.
(** Two steps have the same identifier only at the same index of plans of one name. *)
Lemma stepID_inj p q i j : stepID p i = stepID q j → p = q ∧ i = j.
Proof.
  unfold stepID. intros H. apply (f_equal (λ s, rev (bytes s))) in H. rewrite !bytes_app, !rev_app_distr in H.
  change (rev (bytes ".step.")) with (chr 46 :: rev (bytes ".step")) in H. rewrite <-!app_assoc in H. cbn [app] in H.
  apply separator_unique in H as [H1 H2]; [|apply pad6_no_dot; lia..]. apply app_inv_head in H2.
  split; [apply bytes_inj; rewrite <-(rev_involutive (bytes p)), H2; apply rev_involutive|].
  apply (f_equal (@rev ascii)) in H1. rewrite !rev_involutive in H1. apply bytes_inj, pad6_inj in H1; lia.
Qed.

(** ** Steps *)
Lemma lowerInvocation_body environment policy planID index invocation bindings step bindings' :
  lowerInvocation environment policy planID index invocation bindings = Ok (step, bindings') →
  sp_Id step = stepID planID index ∧ sp_Ordinal step = u32 (Z.of_nat index) ∧ sp_Verb step = si_verb invocation ∧
  lowerArguments (si_args invocation) bindings = Ok (sp_Arguments step) ∧
  bindResultName (si_binding invocation) bindings = Ok (sp_ResultSlot step, bindings').
Proof.
  unfold lowerInvocation. intros H. apply bind_Ok in H as ([] & _ & H). apply bind_Ok in H as (c & _ & H).
  apply bind_Ok in H as (hash & Hh & H). apply bind_Ok in H as (arguments & Ha & H). cbn zeta in H.
  apply bind_Ok in H as ([] & _ & H). apply bind_Ok in H as ([slot bindings1] & Hs & H). injection H as <- <-.
  assert (∃ c', normalizeVerbContract c = Ok c') as [c' Hc] by (unfold ContractHash in Hh; inv_res; eauto).
  match goal with |- context [freezeStepPolicies _ _ ?s c] => pose proof (freezeStepPolicies_fields environment policy s c c' Hc) as (B & _) end.
  destruct (freezeStepPolicies _ _ _ _). unfold sameBody in B. cbn in *. destruct B as (-> & -> & -> & _ & -> & _). done.
Qed.

(** The [i]th step against the [i]th invocation. *)
Record follows (planID : string) (invocations : list sourceInvocation) (i : nat) (invocation : sourceInvocation) (step : Step) : Prop := {
  fo_id : sp_Id step = stepID planID i;
  fo_ordinal : sp_Ordinal step = u32 (Z.of_nat i);
  fo_verb : sp_Verb step = si_verb invocation;
  fo_slot : sp_ResultSlot step = if binds invocation then Some (slotOf invocations i) else None;
  fo_sorted : StronglySorted (λ p q, strLt p q = true) (arg_Name <$> sp_Arguments step);
  fo_arguments name v : mkArgument name v ∈ sp_Arguments step ↔
    ∃ argument, Some (mkStepArg name (Some argument)) ∈ si_args invocation ∧ denotes invocations i argument v }.

Lemma lowerInvocationsFrom_follows environment policy planID before rest bindings steps :
  tracks (before ++ rest) (List.length before) bindings →
  lowerInvocationsFrom environment policy planID (List.length before) rest bindings = Ok steps →
  List.length steps = List.length rest ∧
  ∀ i invocation step, rest !! i = Some invocation → steps !! i = Some step →
    follows planID (before ++ rest) (List.length before + i) invocation step.
Proof.
  revert before bindings steps. induction rest as [|invocation rest IH]; cbn; intros before bindings steps Ht H.
  { injection H as <-. split; [done|]. intros i ? ? Hi. by rewrite lookup_nil in Hi. }
  apply bind_Ok in H as ([step bindings1] & Hl & H). apply bind_Ok in H as (steps1 & Hr & [= <-]).
  destruct (lowerInvocation_body _ _ _ _ _ _ _ _ Hl) as (B1 & B2 & B3 & B4 & B5).
  assert ((before ++ invocation :: rest) !! List.length before = Some invocation) as Hat by (by apply list_lookup_middle).
  destruct (bindResultName_tracks _ _ _ _ _ _ Ht Hat B5) as [Ht' B6].
  replace (S (List.length before)) with (List.length (before ++ [invocation])) in Hr, Ht' by (rewrite length_app; cbn; lia).
  assert (before ++ invocation :: rest = (before ++ [invocation]) ++ rest) as E by (by rewrite <-app_assoc). rewrite E in Ht'.
  destruct (IH _ _ _ Ht' Hr) as [Hlen Hf]. split; [cbn; lia|]. intros [|i] inv st Hi Hs; cbn in Hi, Hs.
  - injection Hi as <-. injection Hs as <-. rewrite Nat.add_0_r. destruct (lowerArguments_spec _ _ _ B4) as [Hsort Harg].
    split; try done. intros name v. rewrite Harg. setoid_rewrite (lowerArgumentValue_denotes _ _ _ _ _ Ht). naive_solver.
  - rewrite E. replace (List.length before + S i)%nat with (List.length (before ++ [invocation]) + i)%nat by (rewrite length_app; cbn; lia).
    by apply Hf.
Qed.

(** C11: the steps of a plan follow its source. Step [i] calls the verb of the [i]th
    invocation under the identifier of the plan and that index; its arguments are the ones
    written there, once each and in the order of their names, a literal as itself, a path
    trimmed, and [$name] as the result slot of the earlier invocation that binds [name]; it
    binds a slot exactly when the invocation has a binding, and the slots are numbered by
    the bindings before them. Two steps have the same identifier only at the same index of
    plans with the same name. *)
Theorem compiled_steps_follow_the_source environment policy planID invocations steps :
  lowerInvocations environment policy planID invocations = Ok steps →
  List.length steps = List.length invocations ∧
  (∀ i invocation step, invocations !! i = Some invocation → steps !! i = Some step → follows planID invocations i invocation step) ∧
  (∀ planID' invocations' steps' i j step step', lowerInvocations environment policy planID' invocations' = Ok steps' →
     steps !! i = Some step → steps' !! j = Some step' → sp_Id step = sp_Id step' → planID = planID' ∧ i = j).
Proof.
  assert (∀ p invs, tracks ([] ++ invs) (List.length (A := p) []) ∅) as Ht.
  { intros p invs. split; [done|]. intros name slot. rewrite lookup_empty. split; [done|]. intros (j & ? & Hj & _). cbn in Hj. lia. }
  intros H. destruct (lowerInvocationsFrom_follows _ _ _ [] _ _ _ (Ht _ _) H) as [Hl Hf]. split_and!; [done|exact Hf|].
  intros planID' invocations' steps' i j step step' H' Hi Hj E.
  destruct (lowerInvocationsFrom_follows _ _ _ [] _ _ _ (Ht _ _) H') as [Hl' Hf'].
  assert (is_Some (invocations !! i)) as [v Hv] by (apply lookup_lt_is_Some; rewrite <-Hl; by eapply lookup_lt_Some).
  assert (is_Some (invocations' !! j)) as [v' Hv'] by (apply lookup_lt_is_Some; rewrite <-Hl'; by eapply lookup_lt_Some).
  rewrite (fo_id _ _ _ _ _ (Hf _ _ _ Hv Hi)), (fo_id _ _ _ _ _ (Hf' _ _ _ Hv' Hj)) in E. by apply stepID_inj in E.
Qed.

(** The witness: [x = reserve(); ship(id: $x)]. *)
Definition sampleVerb : VerbContract := mkVerb {["id" := "string"]} (Some []) "string" "" (mkRetryPolicy 0 0 0) "" false.
Definition sampleEnvironment : Environment := mkEnvironment ∅ {["reserve" := sampleVerb; "ship" := sampleVerb]} ∅ ∅.
Definition sampleInvocations : list sourceInvocation :=
  [mkInvocationSource "reserve" [] "x"; mkInvocationSource "ship" [Some (mkStepArg "id" (Some (mkArgValue "$x" None None)))] ""].
Definition sampleHash : string := match ContractHash sampleVerb with Ok h => h | Err _ => "" end.
Definition sampleSteps : list Step :=
  [mkIrStep "r.step.000001" 0 "reserve" sampleHash [] (Some 0) None (Some (mkCheckedRetry 1 0 0)) IDEMPOTENCY_POLICY_NONE FENCING_REQUIREMENT_NONE;
   mkIrStep "r.step.000002" 1 "ship" sampleHash [mkArgument "id" (ValueResultSlot 0)] None None (Some (mkCheckedRetry 1 0 0))
     IDEMPOTENCY_POLICY_NONE FENCING_REQUIREMENT_NONE].
Lemma compiled_steps_follow_the_source_witness :
  follows "r" sampleInvocations 1 (mkInvocationSource "ship" [Some (mkStepArg "id" (Some (mkArgValue "$x" None None)))] "")
    (mkIrStep "r.step.000002" 1 "ship" sampleHash [mkArgument "id" (ValueResultSlot 0)] None None (Some (mkCheckedRetry 1 0 0))
     IDEMPOTENCY_POLICY_NONE FENCING_REQUIREMENT_NONE).
Proof.
  refine (proj1 (proj2 (compiled_steps_follow_the_source sampleEnvironment EXECUTION_POLICY_DURABLE_FAIL_FAST "r" sampleInvocations sampleSteps _))
    1%nat _ _ _ _); [vm_compute; reflexivity|reflexivity|reflexivity].
Defined.
