(* ===== verification/Kafka.v ===== *)
(** * Kafka intake ([internal/daemon/kafka])

    One record at a time: the delivery identity, the attempts, the acknowledgement boundary
    that a handler must reach, poison records and the offset commit.

    What is outside (the handler, the broker, the poison ledger, the publisher and the
    context) answers as a function of the events so far, so every outcome and every order
    of outcomes is possible. The attempt tracker is an interface, [AttemptTracker]. *)

From S2P Require Import Prelude GoText Json Identity Value Admission EngineState Engine.
From stdpp Require Import pretty.
From Stdlib Require Import ZArith NArith Ascii String.
Local Open Scope list_scope.
Local Open Scope Z_scope.

(** Arithmetic on [int] and [int64]. *)
Definition i64 (z : Z) : Z := (z + 2 ^ 63) `mod` 2 ^ 64 - 2 ^ 63.

(** ** Configuration ([kafka.go]) *)
Definition AckAfterDurableAcceptance : string := "durable_acceptance".
Definition AckAfterCompletedProcessing : string := "completed_processing".
Definition PoisonHalt : string := "halt".
Definition PoisonSkip : string := "skip".
Definition PoisonDLQ : string := "dlq".
Definition DLQAtLeastOnceNonTransactional : string := "at_least_once_non_transactional".

Record Config : Type := mkConfig {
  cf_SourceID : string;
  cf_ClusterNamespace : string;
  cf_Brokers : list string;
  cf_Topic : string;
  cf_ConsumerGroup : string;
  cf_StartOffset : string;
  cf_AckContract : string;
  cf_MaxAttempts : Z;
  cf_InitialBackoff : Duration;
  cf_MaxBackoff : Duration;
  cf_CommitTimeout : Duration;
  cf_PoisonPolicy : string;
  cf_DLQTopic : string;
  cf_DLQDeliveryMode : string;
  cf_MinBytes : Z;
  cf_MaxBytes : Z;
  cf_HeartbeatInterval : Duration;
  cf_SessionTimeout : Duration;
  cf_RebalanceTimeout : Duration;
  cf_JoinGroupBackoff : Duration;
  cf_PartitionWatchInterval : Duration }.

(** [if field == "" { field = fallback }] and the same for numbers. *)
Definition orText (field fallback : string) : string := if bool_decide (field = "") then fallback else field.
Definition orNumber (field fallback : Z) : Z := if bool_decide (field = 0) then fallback else field.

(** The defaults, in the order in which they are filled in. *)
Definition configDefaults (c : Config) : Config :=
  mkConfig (cf_SourceID c) (orText (cf_ClusterNamespace c) (cf_SourceID c)) (cf_Brokers c) (cf_Topic c) (cf_ConsumerGroup c)
    (orText (cf_StartOffset c) "latest") (orText (cf_AckContract c) AckAfterCompletedProcessing) (orNumber (cf_MaxAttempts c) 3)
    (orNumber (cf_InitialBackoff c) Second) (orNumber (cf_MaxBackoff c) (30 * Second)) (orNumber (cf_CommitTimeout c) (10 * Second))
    (orText (cf_PoisonPolicy c) PoisonHalt) (cf_DLQTopic c) (cf_DLQDeliveryMode c)
    (orNumber (cf_MinBytes c) 1) (orNumber (cf_MaxBytes c) (10 * 2 ^ 20))
    (orNumber (cf_HeartbeatInterval c) (3 * Second)) (orNumber (cf_SessionTimeout c) (30 * Second))
    (orNumber (cf_RebalanceTimeout c) (30 * Second)) (orNumber (cf_JoinGroupBackoff c) (5 * Second))
    (orNumber (cf_PartitionWatchInterval c) (5 * Second)).
Definition normalizeConfig (config : option Config) : result Config :=
  config ← ofOption config (errorf "config is nil");
  let resolved := configDefaults config in
  failIf (bool_decide (cf_Brokers resolved = [])) (errorf "brokers list is empty") ;;
  failIf (existsb isBlank (cf_Brokers resolved)) (errorf "broker address is empty") ;;
  failIf (isBlank (cf_Topic resolved)) (errorf "topic is required") ;;
  failIf (isBlank (cf_ConsumerGroup resolved)) (errorf "consumer group is required") ;;
  failIf (isBlank (cf_SourceID resolved)) (errorf "source ID is required") ;;
  failIf (Contains (cf_ClusterNamespace resolved) "/") (errorf "cluster namespace must not contain '/'") ;;
  failIf (bool_decide (cf_StartOffset resolved ≠ "earliest") && bool_decide (cf_StartOffset resolved ≠ "latest"))
    (errorf "start offset must be earliest or latest") ;;
  failIf (bool_decide (cf_AckContract resolved ≠ AckAfterDurableAcceptance) && bool_decide (cf_AckContract resolved ≠ AckAfterCompletedProcessing))
    (errorf "unsupported acknowledgement contract") ;;
  failIf (bool_decide (cf_MaxAttempts resolved < 1)) (errorf "max attempts must be positive") ;;
  failIf (bool_decide (cf_CommitTimeout resolved < 0)) (errorf "commit timeout must not be negative") ;;
  failIf (bool_decide (cf_InitialBackoff resolved < 0) || bool_decide (cf_MaxBackoff resolved < cf_InitialBackoff resolved))
    (errorf "invalid retry backoff") ;;
  failIf (negb (bool_decide (cf_PoisonPolicy resolved ∈ [PoisonHalt; PoisonSkip; PoisonDLQ]))) (errorf "unsupported poison policy") ;;
  (if bool_decide (cf_PoisonPolicy resolved = PoisonDLQ) then
     failIf (isBlank (cf_DLQTopic resolved)) (errorf "DLQ topic is required for the dlq poison policy") ;;
     failIf (bool_decide (cf_DLQDeliveryMode resolved ≠ DLQAtLeastOnceNonTransactional)) (errorf "DLQ delivery mode must be explicit")
   else Ok tt) ;;
  failIf (bool_decide (cf_MinBytes resolved < 1) || bool_decide (cf_MaxBytes resolved < cf_MinBytes resolved))
    (errorf "invalid Kafka fetch byte limits") ;;
  Ok resolved.
Definition ValidateConfig (config : option Config) : result unit := normalizeConfig config ;; Ok tt.

(** ** Records and identities *)
Record Message : Type := mkMessage {
  ms_Topic : string;
  ms_Partition : Z;
  ms_Offset : Z;
  ms_HighWaterMark : Z;
  ms_Key : string;
  ms_Value : string;
  ms_Headers : list (string * string);
  ms_Time : Time }.
#[global] Instance eta_Message : Eta Message := λ r,
  mkMessage (ms_Topic r) (ms_Partition r) (ms_Offset r) (ms_HighWaterMark r) (ms_Key r) (ms_Value r) (ms_Headers r) (ms_Time r).
(** A copy with its own buffers: the same value. *)
Definition cloneHeaders (headers : list (string * string)) : list (string * string) := (λ h, (h.1, h.2)) <$> headers.
Definition cloneMessage (message : Message) : Message :=
  mkMessage (ms_Topic message) (ms_Partition message) (ms_Offset message) (ms_HighWaterMark message) (ms_Key message)
    (ms_Value message) (cloneHeaders (ms_Headers message)) (ms_Time message).

Definition DeliveryID (clusterNamespace : string) (message : Message) : string :=
  "kafka/" +:+ clusterNamespace +:+ "/" +:+ ms_Topic message +:+ "/" +:+ pretty (ms_Partition message) +:+ "/" +:+ pretty (ms_Offset message).

(** ** Backoff *)
(** The loop from [count], [rounds] being [attempt - count]; [Some] is an early return. *)
Fixpoint doubleDelay (rounds : nat) (maximum delay : Duration) : Duration + Duration :=
  match rounds with
  | O => inr delay
  | S rounds =>
      if bool_decide (delay < maximum) then
        if bool_decide (maximum `quot` 2 < delay) then inl maximum else doubleDelay rounds maximum (i64 (delay * 2))
      else inr delay
  end.
Definition retryDelay (initial maximum : Duration) (attempt : Z) : Duration :=
  match doubleDelay (Z.to_nat (attempt - 1)) maximum initial with
  | inl early => early
  | inr delay => if bool_decide (maximum < delay) then maximum else delay
  end.

(** ** Attempts *)
Record AttemptTracker (T : Type) : Type := mkTracker {
  Attempts : T → string → result Z;
  RecordFailure : T → string → result (Z * T);
  ClearAttempts : T → string → result T }.
Arguments Attempts {T}.
Arguments RecordFailure {T}.
Arguments ClearAttempts {T}.

Definition memoryAttemptTracker : Type := gmap string Z.
Definition newMemoryAttemptTracker : memoryAttemptTracker := ∅.
Definition memoryTracker : AttemptTracker memoryAttemptTracker := {|
  Attempts attempts deliveryID := Ok (default 0 (attempts !! deliveryID));
  RecordFailure attempts deliveryID :=
    let n := i64 (default 0 (attempts !! deliveryID) + 1) in Ok (n, <[deliveryID := n]> attempts);
  ClearAttempts attempts deliveryID := Ok (delete deliveryID attempts) |}.

(** The tracker on the table [effectus_kafka_deliveries] ([internal/daemon/kafka/postgres.go]);
    the columns that no code reads are left out. [now] and [fault] are the clock of the
    database and the error, if any, of a statement, as any functions of the table. *)
Record KafkaDeliveryRow : Type := mkKafkaDeliveryRow {
  kd_delivery_id : string;
  kd_failures : Z;
  kd_poison_acknowledged : bool;
  kd_updated_at : Time }.
#[global] Instance eta_KafkaDeliveryRow : Eta KafkaDeliveryRow := λ r,
  mkKafkaDeliveryRow (kd_delivery_id r) (kd_failures r) (kd_poison_acknowledged r) (kd_updated_at r).
Definition KafkaDeliveries : Type := gmap string KafkaDeliveryRow.
Definition NewPostgresAttemptTracker (db : option KafkaDeliveries) : result KafkaDeliveries :=
  ofOption db (errorf "PostgreSQL database is required for Kafka attempt tracking").
Definition countFailure (now : Time) (deliveryID : string) (row : option KafkaDeliveryRow) : KafkaDeliveryRow :=
  match row with
  | None => mkKafkaDeliveryRow deliveryID 1 false now
  | Some row => row <| kd_failures := kd_failures row + 1 |> <| kd_updated_at := now |>
  end.
Definition PostgresAttemptTracker (now : KafkaDeliveries → Time) (fault : KafkaDeliveries → option error) : AttemptTracker KafkaDeliveries := {|
  Attempts db deliveryID := ctxErr (fault db) ;; Ok (match (db : gmap string KafkaDeliveryRow) !! deliveryID with Some row => kd_failures row | None => 0 end);
  RecordFailure db deliveryID :=
    ctxErr (fault db) ;;
    let row := countFailure (now db) deliveryID ((db : gmap string KafkaDeliveryRow) !! deliveryID) in
    failIf (bool_decide (2 ^ 31 ≤ kd_failures row)) (errorf "integer out of range") ;;
    Ok (kd_failures row, <[deliveryID := row]> (db : gmap string KafkaDeliveryRow));
  ClearAttempts db deliveryID := ctxErr (fault db) ;; Ok (delete deliveryID (db : gmap string KafkaDeliveryRow)) |}.

(** ** Processing one record *)
Record Delivery : Type := mkDelivery { dv_ID : string; dv_Message : Message; dv_Attempt : Z }.
Record HandleResult : Type := mkHandleResult { hr_DurablyAccepted : bool; hr_Completed : bool }.
Record PoisonDisposition : Type := mkDisposition {
  pd_DeliveryID : string; pd_Policy : string; pd_Attempts : Z; pd_Error : string; pd_Message : Message }.

(** What has happened outside, newest last. *)
Inductive Event : Type :=
  | Handled (delivery : Delivery) (outcome : result HandleResult)
  | FailureCounted (deliveryID : string) (failures : Z)
  | PoisonRecorded (disposition : PoisonDisposition)
  | Published (message : Message)
  | Committed (topic : string) (partition offset : Z)
  | Cleared (deliveryID : string).

Record KafkaState (T : Type) : Type := mkKafkaState {
  ks_lastFetchedOffset : Z;
  ks_lastCommittedOffset : Z;
  ks_highWatermark : Z;
  ks_commitHealthy : bool;
  ks_unhealthy : option error;
  ks_tracker : T;
  ks_events : list Event }.
Arguments mkKafkaState {T}.
Arguments ks_lastFetchedOffset {T}.
Arguments ks_lastCommittedOffset {T}.
Arguments ks_highWatermark {T}.
Arguments ks_commitHealthy {T}.
Arguments ks_unhealthy {T}.
Arguments ks_tracker {T}.
Arguments ks_events {T}.
#[global] Instance eta_KafkaState T : Eta (KafkaState T) := λ r,
  mkKafkaState (ks_lastFetchedOffset r) (ks_lastCommittedOffset r) (ks_highWatermark r) (ks_commitHealthy r)
    (ks_unhealthy r) (ks_tracker r) (ks_events r).

(** A call on the source: it may fail, and changes the source either way. *)
Definition kafkaM (T A : Type) : Type := KafkaState T → result A * KafkaState T.
#[global] Instance kafkaM_ret T : MRet (kafkaM T) := λ A a k, (Ok a, k).
#[global] Instance kafkaM_bind T : MBind (kafkaM T) := λ A B f m k,
  match m k with (Ok a, k) => f a k | (Err e, k) => (Err e, k) end.

Section Processing.
  Context {T : Type} (tracker : AttemptTracker T) (config : Config).
  (** [Handler.Handle], [recordCommitter.Commit], [ctx.Err] and an interrupted wait. *)
  Context (handle : list Event → Delivery → result HandleResult) (commit : list Event → Message → option error)
    (ctxError interrupted : list Event → option error).
  (** The poison acknowledger, its optional lookup, and the DLQ publisher. *)
  Context (acknowledge : option (list Event → PoisonDisposition → option error))
    (acknowledged : option (list Event → string → result bool)) (publish : list Event → Message → option error).

Definition fail {A} (e : error) : kafkaM T A := λ k, (Err e, k).
Definition modify (f : KafkaState T → KafkaState T) : kafkaM T unit := λ k, (Ok tt, f k).
Definition record (event : Event) : kafkaM T unit := modify (λ k, k <| ks_events := ks_events k ++ [event] |>).
(** A call outside, answered by what has happened. *)
Definition ask {A} (f : list Event → A) : kafkaM T A := λ k, (Ok (f (ks_events k)), k).
Definition orFail (e : option error) : kafkaM T unit := match e with Some e => fail e | None => mret tt end.
Definition wrapped (prefix : string) (e : option error) : kafkaM T unit :=
  match e with Some e => fail (mkError (err_is e) (prefix +:+ err_text e)) | None => mret tt end.
Definition ofResult {A} (prefix : string) (r : result A) : kafkaM T A :=
  match r with Ok a => mret a | Err e => fail (mkError (err_is e) (prefix +:+ err_text e)) end.

Definition attemptsOf (deliveryID : string) : kafkaM T Z := λ k,
  ofResult "read Kafka delivery attempts: " (Attempts tracker (ks_tracker k) deliveryID) k.
Definition recordFailure (deliveryID : string) : kafkaM T Z := λ k,
  (('(n, t) ← ofResult "persist Kafka delivery failure: " (RecordFailure tracker (ks_tracker k) deliveryID);
    modify (λ k, k <| ks_tracker := t |>) ;; record (FailureCounted deliveryID n) ;; mret n) : kafkaM T Z) k.
Definition clearAttempts (prefix : string) (deliveryID : string) : kafkaM T unit := λ k,
  ((t ← ofResult prefix (ClearAttempts tracker (ks_tracker k) deliveryID);
    modify (λ k, k <| ks_tracker := t |>) ;; record (Cleared deliveryID)) : kafkaM T unit) k.
Definition markUnhealthy (e : error) : kafkaM T unit := modify (λ k, k <| ks_unhealthy := Some e |>).

Definition validateHandleResult (outcome : HandleResult) : result unit :=
  if bool_decide (cf_AckContract config = AckAfterDurableAcceptance) then
    failIf (negb (hr_DurablyAccepted outcome)) (errorf "handler returned before durable acceptance")
  else if bool_decide (cf_AckContract config = AckAfterCompletedProcessing) then
    failIf (negb (hr_Completed outcome)) (errorf "handler returned before completed processing")
  else Err (errorf "unsupported acknowledgement contract").

(** [generationCommitter.Commit] asks for the offset after the record. *)
Definition commitMessage (message : Message) : kafkaM T unit :=
  e ← ask (λ events, commit events message);
  match e with
  | Some e => modify (λ k, k <| ks_commitHealthy := false |>) ;; fail e
  | None =>
      record (Committed (ms_Topic message) (ms_Partition message) (i64 (ms_Offset message + 1))) ;;
      modify (λ k, k <| ks_lastCommittedOffset := i64 (ms_Offset message + 1) |> <| ks_commitHealthy := true |>)
  end.
(** [if err := k.commitMessage(...); err != nil { k.markUnhealthy(err); return err }] *)
Definition commitOrMark (message : Message) : kafkaM T unit := λ k,
  match commitMessage message k with
  | (Err e, k) => (markUnhealthy e ;; fail e) k
  | r => r
  end.

(** [fmt.Errorf("%w: %s after %d attempts: %v", ...)] *)
Definition poisonError (deliveryID : string) (cause : error) : error :=
  wrapf ErrPoisonMessage ("Kafka poison message halted consumption: " +:+ deliveryID +:+ " after " +:+ pretty (cf_MaxAttempts config)
    +:+ " attempts: " +:+ err_text cause).
Definition nilAcknowledger : error := errorf "nil pointer dereference".
Definition dlqMessage (message : Message) (deliveryID : string) (cause : error) : Message :=
  let dlqIdentity := deliveryID +:+ "/dlq" in
  mkMessage (cf_DLQTopic config) 0 0 0 dlqIdentity (ms_Value message)
    (cloneHeaders (ms_Headers message) ++ [("effectus-delivery-id", deliveryID); ("effectus-dlq-id", dlqIdentity);
      ("effectus-dlq-mode", cf_DLQDeliveryMode config); ("effectus-error", err_text cause)]) (ms_Time message).
(** A nil acknowledger is dereferenced by the skip policy and passed over by the DLQ policy. *)
Definition acknowledgePoison (absent : kafkaM T unit) (prefix : string) (disposition : PoisonDisposition) : kafkaM T unit :=
  match acknowledge with
  | None => absent
  | Some ack => e ← ask (λ events, ack events disposition); wrapped prefix e ;; record (PoisonRecorded disposition)
  end.
(** Whether the disposition of the record is already on file. *)
Definition poisonOnFile (deliveryID : string) : kafkaM T bool :=
  match acknowledged with
  | None => mret false
  | Some lookup => r ← ask (λ events, lookup events deliveryID); ofResult "read poison acknowledgement: " r
  end.
Definition handlePoison (message : Message) (deliveryID : string) (attempts : Z) (cause : error) : kafkaM T unit :=
  let disposition := mkDisposition deliveryID (cf_PoisonPolicy config) attempts (err_text cause) (cloneMessage message) in
  onFile ← poisonOnFile deliveryID;
  if (onFile : bool) then commitMessage message ;; clearAttempts "" deliveryID
  else
    (if bool_decide (cf_PoisonPolicy config = PoisonHalt) then
       let e := poisonError deliveryID cause in
       markUnhealthy e ;; fail e
     else if bool_decide (cf_PoisonPolicy config = PoisonSkip) then
       acknowledgePoison (fail nilAcknowledger) "acknowledge skipped poison record: " disposition
     else if bool_decide (cf_PoisonPolicy config = PoisonDLQ) then
       e ← ask (λ events, publish events (dlqMessage message deliveryID cause));
       wrapped "publish poison record to DLQ: " e ;;
       record (Published (dlqMessage message deliveryID cause)) ;;
       acknowledgePoison (mret tt) "acknowledge DLQ poison record: " disposition
     else fail (errorf "unsupported poison policy")) ;;
    commitOrMark message ;;
    clearAttempts "clear committed poison delivery attempts: " deliveryID.

(** [waitContext]: a positive delay may be interrupted. *)
Definition waitContext (delay : Duration) : kafkaM T unit :=
  if bool_decide (delay ≤ 0) then mret tt else e ← ask interrupted; orFail e.

(** One round of the loop: [None] when the record is done, else the failures so far. *)
Definition deliveryRound (message : Message) (deliveryID : string) (failures : Z) : kafkaM T (option Z) :=
  let delivery := mkDelivery deliveryID (cloneMessage message) (i64 (failures + 1)) in
  outcome ← ask (λ events, handle events delivery);
  record (Handled delivery outcome) ;;
  match (outcome ← outcome; validateHandleResult outcome) with
  | Ok _ =>
      commitOrMark message ;;
      clearAttempts "clear committed Kafka delivery attempts: " deliveryID ;;
      mret None
  | Err cause =>
      canceled ← ask ctxError;
      orFail canceled ;;
      failures ← recordFailure deliveryID;
      if bool_decide (cf_MaxAttempts config ≤ failures) then handlePoison message deliveryID failures cause ;; mret None
      else waitContext (retryDelay (cf_InitialBackoff config) (cf_MaxBackoff config) failures) ;; mret (Some failures)
  end.
(** [None]: out of fuel. *)
Fixpoint deliveryLoop (fuel : nat) (message : Message) (deliveryID : string) (failures : Z) : kafkaM T (option unit) :=
  match fuel with
  | O => mret None
  | S fuel =>
      again ← deliveryRound message deliveryID failures;
      match again with
      | None => mret (Some tt)
      | Some failures => deliveryLoop fuel message deliveryID failures
      end
  end.
Definition processMessage (fuel : nat) (message : Message) : kafkaM T (option unit) :=
  modify (λ k, k <| ks_lastFetchedOffset := ms_Offset message |> <| ks_highWatermark := ms_HighWaterMark message |>) ;;
  let deliveryID := DeliveryID (cf_ClusterNamespace config) message in
  failures ← attemptsOf deliveryID;
  deliveryLoop fuel message deliveryID failures.
End Processing.

(** ** Status *)
Record ConsumerStatus : Type := mkConsumerStatus {
  cs_LastFetchedOffset : Z; cs_LastCommittedOffset : Z; cs_HighWatermark : Z; cs_Lag : Z; cs_CommitHealthy : bool }.
Definition consumerStatus {T} (k : KafkaState T) : ConsumerStatus :=
  let lag := i64 (ks_highWatermark k - ks_lastCommittedOffset k) in
  mkConsumerStatus (ks_lastFetchedOffset k) (ks_lastCommittedOffset k) (ks_highWatermark k)
    (if bool_decide (lag < 0) then 0 else lag) (ks_commitHealthy k).

(** [run] before the consumer starts: which of the collaborators are not nil. *)
Definition runChecks (config : Config) (hasTracker hasAcknowledger hasPublisher : bool) : result unit :=
  failIf (negb hasTracker) (errorf "Kafka durable attempt tracker is required") ;;
  failIf (bool_decide (cf_PoisonPolicy config = PoisonSkip) && negb hasAcknowledger)
    (errorf "skip poison policy requires a durable poison acknowledger") ;;
  failIf (bool_decide (cf_PoisonPolicy config = PoisonDLQ) && negb hasPublisher)
    (errorf "dlq poison policy requires an acknowledged publisher").
(** [Ready]: the consumer loop is active, has a consumer that joined, and nothing fatal happened. *)
Definition ready {T} (k : KafkaState T) (runActive hasConsumer joined : bool) : option error :=
  match ks_unhealthy k with
  | Some e => Some e
  | None =>
      if negb runActive then Some (errorf "Kafka consumer is not running")
      else if negb hasConsumer then Some (errorf "Kafka consumer is initializing")
      else if negb joined then Some (errorf "Kafka consumer has not joined an active generation")
      else None
  end.

(** ** The consumer group ([consumer.go]) *)
Definition FirstOffset : Z := -2.
Definition LastOffset : Z := -1.
Definition startOffset (config : Config) : Z := if bool_decide (cf_StartOffset config = "earliest") then FirstOffset else LastOffset.

Record PartitionAssignment : Type := mkPartition { pt_ID : Z; pt_Offset : Z }.
Record topicAssignment : Type := mkTopicAssignment { ta_topic : string; ta_partition : PartitionAssignment }.
Definition assignmentLt (a b : topicAssignment) : bool :=
  if bool_decide (ta_topic a ≠ ta_topic b) then strLt (ta_topic a) (ta_topic b)
  else bool_decide (pt_ID (ta_partition a) < pt_ID (ta_partition b)).
Definition assignmentLe (a b : topicAssignment) : Prop := assignmentLt b a = false.
#[global] Instance assignmentLe_dec a b : Decision (assignmentLe a b).
Proof. unfold assignmentLe. apply _. Defined.
(** The map is read in some order, [topics]. *)
Definition orderedAssignments (topics : list (string * list PartitionAssignment)) : list topicAssignment :=
  merge_sort assignmentLe (topics ≫= λ t, mkTopicAssignment t.1 <$> t.2).

(** [generationCommitter.Commit]; [CommitOffsets] takes topic, partition and offset. *)
Definition generationCommit (ctx : option error) (CommitOffsets : string → Z → Z → option error) (message : Message) : option error :=
  match ctx with
  | Some e => Some e
  | None =>
      match CommitOffsets (ms_Topic message) (ms_Partition message) (i64 (ms_Offset message + 1)) with
      | Some e => Some (mkError (err_is e) ("commit Kafka offset " +:+ ms_Topic message +:+ "/" +:+ pretty (ms_Partition message)
                          +:+ "/" +:+ pretty (ms_Offset message) +:+ ": " +:+ err_text e))
      | None => None
      end
  end.
