(* ===== verification/KafkaHandler.v ===== *)
(** * Kafka records as execution requests ([internal/daemon/kafka/checked.go])

    The handler that decodes a record strictly and hands it to [Engine.Execute]. The strict
    decoding of [encoding/json] into the envelope keeps the members in order, since a later
    member overrides or extends an earlier one. *)

From S2P Require Import Prelude GoText Json Identity Value Admission EngineState Engine Kafka.
From Stdlib Require Import ZArith NArith Ascii String.
Local Open Scope list_scope.
Local Open Scope Z_scope.

(** ** Decoding *)
(** The key of a member folded as [bytes.EqualFold] sees it next to an ASCII name: the
    letters, U+017F which folds onto s and U+212A which folds onto k. *)
Fixpoint foldKey (l : list ascii) : list ascii :=
  match l with
  | [] => []
  | a :: l1 =>
      match l1 with
      | b :: l2 =>
          if byteIs 197 a && byteIs 191 b then chr 115 :: foldKey l2
          else match l2 with
               | c :: l3 => if byteIs 226 a && byteIs 132 b && byteIs 170 c then chr 107 :: foldKey l3 else lowerByte a :: foldKey l1
               | [] => lowerByte a :: foldKey l1
               end
      | [] => [lowerByte a]
      end
  end.
Definition isField (name key : string) : bool := bool_decide (foldKey (bytes key) = bytes name).

(** The members of an object, in order, after its opening brace. *)
Fixpoint orderedMembers (fuel : nat) (l : list ascii) : option (list (string * json) * list ascii) :=
  match fuel with
  | O => None
  | S fuel =>
      match skipWS l with
      | q :: l0 =>
          if byteIs 34 q then
            '(k, l1) ← scanString l0;
            match skipWS l1 with
            | c :: l2 =>
                if byteIs 58 c then
                  '(v, l3) ← parseValue (parseFuel l2) 1 l2;
                  match skipWS l3 with
                  | b :: l4 =>
                      if byteIs 125 b then Some ([(k, v)], l4)
                      else if byteIs 44 b then '(members, r) ← orderedMembers fuel l4; Some ((k, v) :: members, r)
                      else None
                  | [] => None
                  end
                else None
            | [] => None
            end
          else None
      | [] => None
      end
  end.
(** The first value of the input when it is an object or null. *)
Definition decodeMembers (l : list ascii) : option (list (string * json) * list ascii) :=
  match skipWS l with
  | a :: l1 =>
      if byteIs 123 a then
        match skipWS l1 with
        | b :: l2 => if byteIs 125 b then Some ([], l2) else orderedMembers (S (List.length l1)) l1
        | [] => None
        end
      else match parseValue (parseFuel l) 0 l with Some (JNull, r) => Some ([], r) | _ => None end
  | [] => None
  end.

Record Envelope : Type := mkEnvelope {
  ev_TenantNamespace : string;
  ev_Universe : string;
  ev_Facts : option (list (string * json)) }.
#[global] Instance eta_Envelope : Eta Envelope := λ r, mkEnvelope (ev_TenantNamespace r) (ev_Universe r) (ev_Facts r).
Definition decodeError : error := errorf "decode Kafka facts".
Definition stringMember (old : string) (v : json) : result string :=
  match v with JStr s => Ok s | JNull => Ok old | _ => Err decodeError end.
(** One member: an unknown one is refused, [received_at] is kept raw and not read. *)
Definition decodeMember (envelope : Envelope) (member : string * json) : result Envelope :=
  let '(key, v) := member in
  if isField "namespace" key then s ← stringMember (ev_TenantNamespace envelope) v; Ok (envelope <| ev_TenantNamespace := s |>)
  else if isField "universe" key then s ← stringMember (ev_Universe envelope) v; Ok (envelope <| ev_Universe := s |>)
  else if isField "received_at" key then Ok envelope
  else if isField "facts" key then
    match v with
    | JNull => Ok (envelope <| ev_Facts := None |>)
    | JObj fields =>
        Ok (envelope <| ev_Facts := Some (foldl (λ m f, objInsert f.1 f.2 m) (default [] (ev_Facts envelope)) fields) |>)
    | _ => Err decodeError
    end
  else Err decodeError.
Definition decodeEnvelope (value : string) : result Envelope :=
  '(members, rest) ← ofOption (decodeMembers (bytes value)) decodeError;
  envelope ← foldR decodeMember members (mkEnvelope "" "" None);
  failIf (negb (bool_decide (skipWS rest = []))) (errorf "decode Kafka facts: multiple JSON values") ;;
  Ok envelope.

(** ** The handler *)
Record EngineHandlerConfig : Type := mkHandlerConfig {
  hc_Ruleset : string; hc_Version : string; hc_DefaultTenant : string; hc_MaxMessageBytes : Z; hc_WaitMode : WaitMode }.
Definition WaitModeForAckContract (contract : string) : result WaitMode :=
  if bool_decide (contract = AckAfterDurableAcceptance) then Ok WaitAccepted
  else if bool_decide (contract = AckAfterCompletedProcessing) then Ok WaitTerminal
  else Err (errorf "unsupported acknowledgement contract").
Definition NewEngineHandler (config : EngineHandlerConfig) : result EngineHandlerConfig :=
  failIf (isBlank (hc_Ruleset config) || isBlank (hc_Version config)) (errorf "ruleset and version are required") ;;
  let tenant := orText (hc_DefaultTenant config) "default" in
  let bytes := if bool_decide (hc_MaxMessageBytes config ≤ 0) then 2 ^ 20 else hc_MaxMessageBytes config in
  let wait := if bool_decide (hc_WaitMode config = WaitOther "") then WaitAccepted else hc_WaitMode config in
  failIf (bool_decide (wait ≠ WaitAccepted) && bool_decide (wait ≠ WaitTerminal)) (errorf "unsupported Kafka wait mode") ;;
  Ok (mkHandlerConfig (hc_Ruleset config) (hc_Version config) tenant bytes wait).

(** The request of a record, which depends on its value and its identity alone. *)
Definition recordRequest (config : EngineHandlerConfig) (deliveryID value : string) : result ExecuteRequest :=
  failIf (bool_decide (hc_MaxMessageBytes config < strlen value)) (errorf "Kafka fact message exceeds the limit") ;;
  envelope ← decodeEnvelope value;
  let facts := default [] (ev_Facts envelope) in
  failIf (bool_decide (List.length facts = 0%nat)) (errorf "Kafka facts are required") ;;
  let tenant := orText (ev_TenantNamespace envelope) (hc_DefaultTenant config) in
  let executionID := StableExecutionID tenant deliveryID (hc_Ruleset config) (hc_Version config) in
  Ok (mkExecuteRequest
        (Some (mkAdmissionRequest executionID deliveryID tenant (hc_Ruleset config) (hc_Version config)
                 ((λ f, (f.1, ofJSON f.2)) <$> facts) "" ""))
        "" (hc_WaitMode config) None).
(** [engineHandler.Handle], the engine being its [Execute]. *)
Definition Handle (execute : ExecuteRequest → result ExecuteResult) (config : EngineHandlerConfig) (delivery : Delivery) : result HandleResult :=
  request ← recordRequest config (dv_ID delivery) (ms_Value (dv_Message delivery));
  outcome ← execute request;
  Ok (mkHandleResult (rs_DurablyAccepted outcome) (rs_Completed outcome)).

Definition sampleConfig : EngineHandlerConfig := mkHandlerConfig "orders" "v1" "default" 1048576 WaitTerminal.
Definition q (s : string) : string := String quote (s +:+ String quote "").
Example envelope_example :
  decodeEnvelope ("{" +:+ q "NameSpace" +:+ ":" +:+ q "t" +:+ "," +:+ q "facts" +:+ ":{" +:+ q "a" +:+ ":1}," +:+ q "facts" +:+ ":{" +:+ q "b" +:+ ":[2]}} ")
    = Ok (mkEnvelope "t" "" (Some [("a", JNum "1"); ("b", JArr [JNum "2"])]))
  ∧ isOk (decodeEnvelope ("{" +:+ q "x" +:+ ":1}")) = false ∧ isOk (decodeEnvelope "{} {}") = false ∧ isOk (decodeEnvelope "null") = true.
Proof. vm_compute. auto. Qed.
