(* ===== verification/KafkaProps.v ===== *)
(** * Correctness of the Kafka intake

    An offset is committed once per delivery, and only after the acknowledgement boundary
    or a durable disposition of a record that used up its attempts; the loop over attempts
    ends; identities of different records differ; the backoff is the capped doubling. *)

From S2P Require Import Prelude GoText Json Identity Value Admission EngineState Engine GoPath Kafka KafkaHandler.
From stdpp Require Import pretty.
From Stdlib Require Import ZArith NArith Ascii String Lia.
Local Open Scope list_scope.
Local Open Scope Z_scope.

(** ** Trackers *)

(** What a tracker promises: it counts the failures of each delivery. *)
Class CountsFailures {T} (tracker : AttemptTracker T) (count : T → string → Z) : Prop := {
  counts_attempts t id n : Attempts tracker t id = Ok n → n = count t id;
  counts_failure t id n t' : RecordFailure tracker t id = Ok (n, t') → 0 ≤ count t id < MaxInt64 →
    n = count t id + 1 ∧ ∀ id', count t' id' = if bool_decide (id' = id) then n else count t id';
  counts_clear t id t' : ClearAttempts tracker t id = Ok t' →
    ∀ id', count t' id' = if bool_decide (id' = id) then 0 else count t id' }.

Definition memoryCount (attempts : memoryAttemptTracker) (id : string) : Z := default 0 (attempts !! id).
Lemma i64_id z : - 2 ^ 63 ≤ z < 2 ^ 63 → i64 z = z.
Proof. intros H. unfold i64. rewrite Z.mod_small by lia. lia. Qed.
#[global] Instance memory_counts : CountsFailures memoryTracker memoryCount.
Proof.
  unfold memoryCount. split.
  - intros t id n [= <-]. done.
  - intros t id n t' H Hlt. cbn in H. injection H as <- <-. unfold MaxInt64 in *. rewrite i64_id by lia. split; [done|].
    intros id'. unfold memoryAttemptTracker in *. case_bool_decide as E; [subst; by rewrite lookup_insert_eq|by rewrite lookup_insert_ne].
  - intros t id t' H id'. cbn in H. injection H as <-. unfold memoryAttemptTracker in *.
    case_bool_decide as E; [subst; by rewrite lookup_delete_eq|by rewrite lookup_delete_ne].
Qed.

Definition deliveryCount (db : KafkaDeliveries) (id : string) : Z := match (db : gmap string KafkaDeliveryRow) !! id with Some row => kd_failures row | None => 0 end.
#[global] Instance postgres_counts now fault : CountsFailures (PostgresAttemptTracker now fault) deliveryCount.
Proof.
  unfold deliveryCount, KafkaDeliveries. split.
  - intros t id n (? & _ & H)%bind_Ok. injection H as <-. reflexivity.
  - intros t id n t' (? & _ & H)%bind_Ok _. cbv zeta in H. apply bind_Ok in H as (? & _ & H). injection H as <- <-. split; [destruct (t !! id); reflexivity|].
    intros id'. case_bool_decide as E; [subst; by rewrite lookup_insert_eq|by rewrite lookup_insert_ne].
  - intros t id t' (? & _ & H)%bind_Ok id'. injection H as <-. case_bool_decide as E; [subst; by rewrite lookup_delete_eq|by rewrite lookup_delete_ne].
Qed.

(** The first element of a kind splits a list in one way. *)
Lemma separated {A} (f : A → bool) pre pre' (x x' : A) post post' :
  f x = true → f x' = true → Forall (λ y, f y = false) post' →
  pre' ++ x' :: post' = pre ++ x :: post → Forall (λ y, f y = false) pre' → pre = pre' ∧ x :: post = x' :: post'.
Proof.
  intros Hx Hx' Hpost. revert pre. induction pre' as [|y pre' IH]; intros [|z pre] E Hp; cbn in E.
  - by injection E as -> ->.
  - injection E as -> ->. apply Forall_app in Hpost as [_ Hpost]. apply Forall_cons in Hpost as [Hpost _]. congruence.
  - injection E as -> _. apply Forall_cons in Hp as [Hp _]. congruence.
  - injection E as -> E. apply Forall_cons in Hp as [_ Hp]. destruct (IH pre E Hp) as [-> ?]. done.
Qed.

(** ** Runs of the monad *)
Lemma kafkaM_bind_inv {T A B} (m : kafkaM T A) (f : A → kafkaM T B) k r k' :
  (m ≫= f) k = (r, k') →
  (∃ a k1, m k = (Ok a, k1) ∧ f a k1 = (r, k')) ∨ (∃ e, m k = (Err e, k') ∧ r = Err e).
Proof.
  unfold mbind, kafkaM_bind. destruct (m k) as [[a|e] k1]; intros H; [left; eauto|right]. injection H as <- <-. eauto.
Qed.
Lemma kafkaM_bind_assoc {T A B C} (m : kafkaM T A) (f : A → kafkaM T B) (g : B → kafkaM T C) k :
  (m ≫= λ a, f a ≫= g) k = ((m ≫= f) ≫= g) k.
Proof. unfold mbind, kafkaM_bind. by destruct (m k) as [[a|e] k1]. Qed.
(** [run_inv H] splits a run of a sequence into the run that fails and the run that goes on. *)
Ltac run_inv H :=
  apply kafkaM_bind_inv in H as [(? & ? & ? & H)|(? & H & ->)].
(** Runs of the operations that cannot fail, by computation. *)
Ltac run_simp H :=
  unfold ask, record, modify, mret, kafkaM_ret in H; cbn in H; injection H as <- <-.

Section Delivered.
  Context {T : Type} (tracker : AttemptTracker T) (config : Config).
  Context (handle : list Event → Delivery → result HandleResult) (commit : list Event → Message → option error)
    (ctxError interrupted : list Event → option error).
  Context (acknowledge : option (list Event → PoisonDisposition → option error))
    (acknowledged : option (list Event → string → result bool)) (publish : list Event → Message → option error).
  Context (message : Message) (id : string).

Definition isCommit (e : Event) : bool := match e with Committed _ _ _ => true | _ => false end.
Definition isHandled (e : Event) : bool := match e with Handled _ _ => true | _ => false end.
Definition commitEvent : Event := Committed (ms_Topic message) (ms_Partition message) (i64 (ms_Offset message + 1)).

(** ** What justifies a commit *)

(** What the configured contract asks of the handler: the record is durably accepted, or its
    processing is complete; there is no third contract. *)
Definition reached (outcome : HandleResult) : Prop :=
  (cf_AckContract config = "durable_acceptance" ∧ hr_DurablyAccepted outcome = true) ∨
  (cf_AckContract config = "completed_processing" ∧ hr_Completed outcome = true).
Lemma validateHandleResult_reached outcome : validateHandleResult config outcome = Ok tt → reached outcome.
Proof.
  unfold validateHandleResult, reached. case_bool_decide as E1; [intros H%failIf_Ok; apply negb_false_iff in H; auto|].
  case_bool_decide as E2; [intros H%failIf_Ok; apply negb_false_iff in H; auto|done].
Qed.
(** The handler has just reached the boundary of the contract, for this record. *)
Definition atBoundary (pre : list Event) : Prop :=
  ∃ attempt outcome, last pre = Some (Handled (mkDelivery id (cloneMessage message) attempt) (Ok outcome)) ∧
    reached outcome.
(** The attempts are used up and the disposition of the record is durable. *)
Definition disposed (pre : list Event) : Prop :=
  (∃ cause n, PoisonRecorded (mkDisposition id (cf_PoisonPolicy config) n cause (cloneMessage message)) ∈ pre) ∨
  (∃ cause, Published (dlqMessage config message id cause) ∈ pre) ∨
  (∃ lookup events, acknowledged = Some lookup ∧ lookup events id = Ok true).
Definition usedUp (pre : list Event) : Prop := ∃ n, cf_MaxAttempts config ≤ n ∧ FailureCounted id n ∈ pre.
Definition justified (pre : list Event) : Prop := atBoundary pre ∨ (usedUp pre ∧ disposed pre).

(** The new events of a run end in the only commit, and in a clearing if it went well. *)
Definition ended (P : Event → Prop) (why : list Event → Prop) (ok : bool) (new : list Event) : Prop :=
  ∃ pre, new = pre ++ [commitEvent] ++ (if ok then [Cleared id] else []) ∧ Forall P pre ∧ why pre.
Definition notCommit (e : Event) : Prop := isCommit e = false.
Definition quiet (e : Event) : Prop := isCommit e = false ∧ isHandled e = false.
Definition emits (k k' : KafkaState T) (new : list Event) : Prop := ks_events k' = ks_events k ++ new.

Lemma emits_nil k k' : ks_events k' = ks_events k → emits k k' [].
Proof. unfold emits. intros ->. by rewrite app_nil_r. Qed.
Lemma emits_trans k1 k2 k3 l1 l2 : emits k1 k2 l1 → emits k2 k3 l2 → emits k1 k3 (l1 ++ l2).
Proof. unfold emits. intros H1 ->. by rewrite H1, app_assoc. Qed.

(** ** Operations *)
Lemma commitOrMark_run k r k' : commitOrMark commit message k = (r, k') →
  ks_tracker k' = ks_tracker k ∧ match r with Ok _ => emits k k' [commitEvent] | Err _ => emits k k' [] end.
Proof.
  unfold commitOrMark, commitMessage, mbind, kafkaM_bind, ask, record, modify, markUnhealthy, fail, emits.
  destruct (commit (ks_events k) message) as [e|]; cbn; intros H; injection H as <- <-; cbn; split; try done. by rewrite app_nil_r.
Qed.
Lemma commitMessage_run k r k' : commitMessage commit message k = (r, k') →
  ks_tracker k' = ks_tracker k ∧ match r with Ok _ => emits k k' [commitEvent] | Err _ => emits k k' [] end.
Proof.
  unfold commitMessage, mbind, kafkaM_bind, ask, record, modify, fail, emits.
  destruct (commit (ks_events k) message) as [e|]; cbn; intros H; injection H as <- <-; cbn; split; try done. by rewrite app_nil_r.
Qed.
Lemma clearAttempts_run prefix k r k' : clearAttempts tracker prefix id k = (r, k') →
  match r with
  | Ok _ => emits k k' [Cleared id] ∧ ClearAttempts tracker (ks_tracker k) id = Ok (ks_tracker k')
  | Err _ => k' = k
  end.
Proof.
  unfold clearAttempts, ofResult, mbind, kafkaM_bind, record, modify, fail, emits.
  destruct (ClearAttempts tracker (ks_tracker k) id) as [t|e]; cbn; intros H; injection H as <- <-; done.
Qed.
Lemma recordFailure_run k r k' : recordFailure tracker id k = (r, k') →
  match r with
  | Ok n => emits k k' [FailureCounted id n] ∧ RecordFailure tracker (ks_tracker k) id = Ok (n, ks_tracker k')
  | Err _ => k' = k
  end.
Proof.
  unfold recordFailure, ofResult, mbind, kafkaM_bind, record, modify, fail, emits.
  destruct (RecordFailure tracker (ks_tracker k) id) as [[n t]|e]; cbn; intros H; injection H as <- <-; done.
Qed.

(** A commit and then a clearing, after the events [pre]. *)
Definition closing (pre : list Event) (r : result unit) (new : list Event) : Prop :=
  match r with
  | Ok _ => new = pre ++ [commitEvent] ++ [Cleared id]
  | Err _ => new = pre ∨ new = pre ++ [commitEvent] ++ []
  end.
Lemma commit_then_clear (committing : kafkaM T unit) prefix pre k k1 r k' :
  (∀ k r k', committing k = (r, k') →
     ks_tracker k' = ks_tracker k ∧ match r with Ok _ => emits k k' [commitEvent] | Err _ => emits k k' [] end) →
  emits k k1 pre → (committing ;; clearAttempts tracker prefix id) k1 = (r, k') →
  ∃ new, emits k k' new ∧ closing pre r new.
Proof.
  intros Hc He H. run_inv H.
  - apply Hc in H0 as [_ H0]. apply clearAttempts_run in H. destruct r as [[]|e].
    + destruct H as [H _]. eexists. split; [eapply emits_trans; [exact He|eapply emits_trans; [exact H0|exact H]]|done].
    + subst. eexists. split; [eapply emits_trans; [exact He|exact H0]|]. by right.
  - apply Hc in H as [_ H]. eexists. split; [eapply emits_trans; [exact He|exact H]|]. left. by rewrite app_nil_r.
Qed.
Lemma closing_ended P why pre r new : closing pre r new → Forall P pre → why pre →
  match r with Ok _ => ended P why true new | Err _ => Forall P new ∨ ended P why false new end.
Proof.
  unfold closing. destruct r as [[]|e].
  - intros -> Hp Hw. by exists pre.
  - intros [-> | ->] Hp Hw; [by left|right; by exists pre].
Qed.

(** ** Poison records *)
Lemma poisonOnFile_run (k : KafkaState T) r k' : poisonOnFile acknowledged id k = (r, k') →
  k' = k ∧ (r = Ok true → ∃ lookup events, acknowledged = Some lookup ∧ lookup events id = Ok true).
Proof.
  unfold poisonOnFile. destruct acknowledged as [lookup|]; intros H; [|by injection H as <- <-].
  unfold mbind, kafkaM_bind, ask, ofResult in H. destruct (lookup (ks_events k) id) as [b|e] eqn:E; injection H as <- <-; split; try done.
  intros [= ->]. eauto.
Qed.
Lemma acknowledgePoison_run (absent : kafkaM T unit) prefix disposition k r k' :
  (∀ k1 r1 k1', absent k1 = (r1, k1') → k1' = k1) →
  acknowledgePoison acknowledge absent prefix disposition k = (r, k') →
  ∃ new, emits k k' new ∧ Forall quiet new ∧ (∀ u, r = Ok u → acknowledge = None ∨ PoisonRecorded disposition ∈ new).
Proof.
  intros Ha. unfold acknowledgePoison. destruct acknowledge as [ack|]; intros H.
  - unfold mbind, kafkaM_bind, ask, wrapped, fail, record, modify in H. destruct (ack (ks_events k) disposition) as [e|]; cbn in H; injection H as <- <-.
    + exists []. split_and!; [by apply emits_nil|constructor|done].
    + exists [PoisonRecorded disposition]. split_and!; [done|by repeat constructor|]. intros. right. set_solver.
  - apply Ha in H as ->. exists []. split_and!; [by apply emits_nil|constructor|auto].
Qed.

Lemma fail_keeps e (k : KafkaState T) r k' : (fail e : kafkaM T unit) k = (r, k') → k' = k.
Proof. unfold fail. by intros [= _ <-]. Qed.
Lemma ret_keeps (k : KafkaState T) r k' : (mret tt : kafkaM T unit) k = (r, k') → k' = k.
Proof. unfold mret, kafkaM_ret. by intros [= _ <-]. Qed.
(** What happens to the record before its offset is committed. *)
Definition disposePoison (n : Z) (cause : error) : kafkaM T unit :=
  let disposition := mkDisposition id (cf_PoisonPolicy config) n (err_text cause) (cloneMessage message) in
  if bool_decide (cf_PoisonPolicy config = PoisonHalt) then
    let e := poisonError config id cause in
    markUnhealthy e ;; fail e
  else if bool_decide (cf_PoisonPolicy config = PoisonSkip) then
    acknowledgePoison acknowledge (fail nilAcknowledger) "acknowledge skipped poison record: " disposition
  else if bool_decide (cf_PoisonPolicy config = PoisonDLQ) then
    e ← ask (λ events, publish events (dlqMessage config message id cause));
    wrapped "publish poison record to DLQ: " e ;;
    record (Published (dlqMessage config message id cause)) ;;
    acknowledgePoison acknowledge (mret tt) "acknowledge DLQ poison record: " disposition
  else fail (errorf "unsupported poison policy").
Lemma disposePoison_run n cause k r k' : disposePoison n cause k = (r, k') →
  ∃ new, emits k k' new ∧ Forall quiet new ∧ (∀ u, r = Ok u → disposed new).
Proof.
  unfold disposePoison. intros H. case_bool_decide.
  { unfold mbind, kafkaM_bind, markUnhealthy, modify, fail in H. injection H as <- <-. exists []. split_and!; [by apply emits_nil|constructor|done]. }
  case_bool_decide.
  { destruct (acknowledgePoison_run _ _ _ _ _ _ (fail_keeps _) H) as (new & He & Hu & Hok).
    exists new. split_and!; [done|done|]. intros u ->. destruct (Hok u eq_refl) as [Hn|Hin].
    - unfold acknowledgePoison in H. by rewrite Hn in H.
    - left. eauto. }
  case_bool_decide; [|unfold fail in H; injection H as <- <-; exists []; split_and!; [by apply emits_nil|constructor|done]].
  run_inv H; [|by injection H].
  match goal with E : ask _ _ = _ |- _ => unfold ask in E; injection E as <- <- end.
  destruct (publish _ _) as [e|]; cbn [wrapped] in H.
  { unfold mbind, kafkaM_bind, fail in H. injection H as <- <-. exists []. split_and!; [by apply emits_nil|constructor|done]. }
  run_inv H; [|by injection H]. match goal with E : mret _ _ = _ |- _ => injection E as <- <- end.
  run_inv H; [|by injection H]. match goal with E : record _ _ = _ |- _ => unfold record, modify in E; injection E as <- <- end.
  destruct (acknowledgePoison_run _ _ _ _ _ _ ret_keeps H) as (new & He & Hu & Hok).
  exists (Published (dlqMessage config message id cause) :: new). split_and!.
  - unfold emits in *. cbn in He. by rewrite He, <-app_assoc.
  - by constructor.
  - intros u _. right. left. exists cause. set_solver.
Qed.
Lemma handlePoison_run n cause k r k' :
  handlePoison tracker config commit acknowledge acknowledged publish message id n cause k = (r, k') →
  ∃ new, emits k k' new ∧ match r with Ok _ => ended quiet disposed true new | Err _ => Forall quiet new ∨ ended quiet disposed false new end.
Proof.
  unfold handlePoison. fold (disposePoison n cause). intros H. run_inv H.
  - match goal with E : poisonOnFile _ _ _ = _ |- _ => apply poisonOnFile_run in E as [-> Hfile] end.
    match goal with b : bool |- _ => destruct b end.
    + destruct (commit_then_clear (commitMessage commit message) _ [] _ _ _ _ commitMessage_run (emits_nil _ _ eq_refl) H) as (new & He & Hcl).
      exists new. split; [done|]. eapply closing_ended; [exact Hcl|constructor|]. right. right. by apply Hfile.
    + run_inv H.
      * match goal with E : disposePoison _ _ _ = _ |- _ => apply disposePoison_run in E as (pre & He & Hu & Hd) end.
        destruct (commit_then_clear (commitOrMark commit message) _ _ _ _ _ _ commitOrMark_run He H) as (new & He' & Hcl).
        exists new. split; [done|]. eapply closing_ended; [exact Hcl|done|by eapply Hd].
      * apply disposePoison_run in H as (new & He & Hu & _). exists new. split; [done|by left].
  - apply poisonOnFile_run in H as [-> _]. exists []. split; [by apply emits_nil|]. left. constructor.
Qed.

(** ** Rounds *)
Definition handledCount (l : list Event) : nat := List.length (List.filter isHandled l).
Lemma quiet_count l : Forall quiet l → handledCount l = 0%nat ∧ Forall notCommit l.
Proof.
  induction 1 as [|e l [Hc Hh] _ [IH1 IH2]]; [done|]. split; [|by constructor]. unfold handledCount in *. cbn. by rewrite Hh.
Qed.
Lemma handledCount_app l l' : handledCount (l ++ l') = (handledCount l + handledCount l')%nat.
Proof. unfold handledCount. by rewrite List.filter_app, length_app. Qed.
Lemma ended_count P why ok new : ended P why ok new → ∃ pre, handledCount new = handledCount pre ∧ Forall P pre ∧ why pre ∧
  new = pre ++ [commitEvent] ++ (if ok then [Cleared id] else []).
Proof. intros (pre & -> & Hp & Hw). exists pre. rewrite handledCount_app. split_and!; try done. destruct ok; cbn; lia. Qed.

Definition roundFacts (failures : Z) (k : KafkaState T) (r : result (option Z)) (k' : KafkaState T) (new : list Event) : Prop :=
  emits k k' new ∧ handledCount new = 1%nat ∧
  match r with
  | Ok None => ended notCommit justified true new
  | Ok (Some n) => Forall notCommit new ∧ n < cf_MaxAttempts config ∧ RecordFailure tracker (ks_tracker k) id = Ok (n, ks_tracker k')
  | Err _ => Forall notCommit new ∨ ended notCommit justified false new
  end.
Lemma waitContext_run delay (k : KafkaState T) r k' : waitContext interrupted delay k = (r, k') → k' = k.
Proof.
  unfold waitContext. case_bool_decide; [by apply ret_keeps|]. unfold mbind, kafkaM_bind, ask, orFail. intros H0.
  destruct (interrupted (ks_events k)); [by eapply fail_keeps|by eapply ret_keeps].
Qed.
Lemma deliveryRound_run failures k r k' :
  deliveryRound tracker config handle commit ctxError interrupted acknowledge acknowledged publish message id failures k = (r, k') →
  ∃ new, roundFacts failures k r k' new.
Proof.
  unfold deliveryRound. intros H. set (delivery := mkDelivery _ _ _) in H. run_inv H; [|by injection H].
  match goal with E : ask _ _ = _ |- _ => unfold ask in E; injection E as <- <- end.
  set (outcome := handle _ _) in H. run_inv H; [|by injection H].
  match goal with E : record _ _ = (_, ?x) |- _ => unfold record, modify in E; injection E as _ E; rename x into k1;
    assert (emits k k1 [Handled delivery outcome]) as He1 by (subst; done); assert (ks_tracker k1 = ks_tracker k) as Ht1 by (subst; done); clear E end.
  destruct (outcome ≫= validateHandleResult config) as [[]|cause] eqn:Hv.
  - apply bind_Ok in Hv as (hr & Ho & Hv). rewrite kafkaM_bind_assoc in H.
    assert (∃ r', (commitOrMark commit message ;; clearAttempts tracker "clear committed Kafka delivery attempts: " id) k1 = (r', k') ∧
      r = match r' with Ok _ => Ok None | Err e => Err e end) as (r' & Hrun & ->).
    { run_inv H; [|eauto]. match goal with E : mret _ _ = _ |- _ => injection E as <- <- end. eauto. }
    destruct (commit_then_clear (commitOrMark commit message) _ _ _ _ _ _ commitOrMark_run He1 Hrun) as (new & He & Hcl).
    exists new. split; [done|]. split.
    { destruct r' as [[]|e]; [|destruct Hcl as [Hcl|Hcl]]; rewrite Hcl; done. }
    pose proof (closing_ended notCommit justified _ _ _ Hcl ltac:(by repeat constructor)
      ltac:(left; exists (i64 (failures + 1)), hr; cbn; split; [by rewrite Ho|by apply validateHandleResult_reached])) as Hend. by destruct r' as [[]|e].
  - assert (∀ e, r = Err e → ks_events k' = ks_events k1 → ∃ new, roundFacts failures k r k' new) as Hfail.
    { intros e -> Hsame. exists [Handled delivery outcome]. split_and!; [unfold emits in *; by rewrite Hsame|done|left; by repeat constructor]. }
    run_inv H; [|by injection H]. match goal with E : ask _ _ = _ |- _ => unfold ask in E; injection E as <- <- end.
    run_inv H; [|destruct (ctxError _); [injection H as _ <-; by eapply Hfail|discriminate H]].
    match goal with E : orFail _ _ = _ |- _ => destruct (ctxError _); [discriminate E|injection E as <- <-] end.
    run_inv H; [|apply recordFailure_run in H as ->; by eapply Hfail].
    match goal with E : recordFailure _ _ _ = (Ok ?c, ?x) |- _ => apply recordFailure_run in E as [He2 Hrec]; rename c into n; rename x into k2 end.
    rewrite Ht1 in Hrec. pose proof (emits_trans _ _ _ _ _ He1 He2) as He. cbn [app] in He. case_bool_decide as Hmax.
    + assert (∃ r', handlePoison tracker config commit acknowledge acknowledged publish message id n cause k2 = (r', k') ∧
        r = match r' with Ok _ => Ok None | Err e => Err e end) as (r' & Hrun & ->).
      { run_inv H; [|eauto]. match goal with E : mret _ _ = _ |- _ => injection E as <- <- end. eauto. }
      apply handlePoison_run in Hrun as (new & Hen & Hnew). eexists. split; [eapply emits_trans; [exact He|exact Hen]|]. rewrite handledCount_app.
      assert (∀ ok, ended quiet disposed ok new → handledCount new = 0%nat ∧
        ended notCommit justified ok ([Handled delivery outcome; FailureCounted id n] ++ new)) as Hended.
      { intros ok (pre & -> & [Hc Hp]%quiet_count & Hw). rewrite handledCount_app, Hc. split; [by destruct ok|].
        exists ([Handled delivery outcome; FailureCounted id n] ++ pre). split; [by rewrite <-!app_assoc|]. split; [by repeat constructor|].
        right. split; [exists n; split; [done|set_solver]|]. unfold disposed in *. set_solver. }
      destruct r' as [[]|e].
      * by destruct (Hended true Hnew) as [-> ?].
      * destruct Hnew as [Hq|Hq]; [|destruct (Hended false Hq) as [-> ?]; split; [done|by right]].
        apply quiet_count in Hq as [-> Hq]. split; [done|]. left. by repeat constructor.
    + run_inv H.
      * match goal with E : waitContext _ _ _ = _ |- _ => apply waitContext_run in E as -> end. injection H as <- <-.
        eexists. split; [exact He|]. split_and!; [done|by repeat constructor|lia|done].
      * apply waitContext_run in H as ->. eexists. split; [exact He|]. split; [done|]. left. by repeat constructor.
Qed.

(** ** The loop *)
Lemma justified_prefix p pre : justified pre → justified (p ++ pre).
Proof.
  intros [(attempt & outcome & Hl & Hv)|[(n & Hn & Hin) Hd]].
  - left. exists attempt, outcome. split; [|done]. rewrite last_app, Hl. done.
  - right. split; [exists n; set_solver|]. unfold disposed in *. set_solver.
Qed.
Lemma ended_prefix p ok new : Forall notCommit p → ended notCommit justified ok new → ended notCommit justified ok (p ++ new).
Proof.
  intros Hp (pre & -> & Hpre & Hw). exists (p ++ pre). split_and!; [by rewrite app_assoc|by apply Forall_app|by apply justified_prefix].
Qed.
Definition loopFacts (k : KafkaState T) (r : result (option unit)) (k' : KafkaState T) (new : list Event) : Prop :=
  emits k k' new ∧
  match r with
  | Ok (Some _) => ended notCommit justified true new
  | Ok None => Forall notCommit new
  | Err _ => Forall notCommit new ∨ ended notCommit justified false new
  end.
Lemma loopFacts_prefix k k1 r k' p new : emits k k1 p → Forall notCommit p → loopFacts k1 r k' new → loopFacts k r k' (p ++ new).
Proof.
  intros He Hp [He' Hr]. split; [by eapply emits_trans|]. destruct r as [[[]|]|e].
  - by apply ended_prefix.
  - by apply Forall_app.
  - destruct Hr as [Hr|Hr]; [left; by apply Forall_app|right; by apply ended_prefix].
Qed.
(** The calls of the handler that a run may make. *)
Definition callBound (failures : Z) : nat := Nat.max 1 (Z.to_nat (cf_MaxAttempts config - failures)).
Lemma deliveryLoop_run fuel failures k r k' :
  deliveryLoop tracker config handle commit ctxError interrupted acknowledge acknowledged publish fuel message id failures k = (r, k') →
  ∃ new, loopFacts k r k' new ∧
    (∀ count, CountsFailures tracker count → cf_MaxAttempts config ≤ MaxInt64 → count (ks_tracker k) id = failures → 0 ≤ failures < MaxInt64 →
     (handledCount new ≤ callBound failures)%nat ∧ ((callBound failures ≤ fuel)%nat → r ≠ Ok None)).
Proof.
  revert failures k r k'. induction fuel as [|fuel IH]; intros failures k r k' H; cbn in H.
  { injection H as <- <-. exists []. split; [split; [by apply emits_nil|constructor]|]. intros _ _ _ _ _. unfold callBound. cbn. split; lia. }
  run_inv H.
  - match goal with E : deliveryRound _ _ _ _ _ _ _ _ _ _ _ _ _ = _ |- _ => apply deliveryRound_run in E as (new & He & Hc & Hr) end.
    match goal with x : option Z |- _ => destruct x as [n|] end.
    + destruct Hr as (Hu & Hn & Hrec). destruct (IH _ _ _ _ H) as (new' & Hf & Hb). exists (new ++ new').
      split; [by eapply loopFacts_prefix|]. intros count Hcounts Hmax Hcount Hrange.
      rewrite <-Hcount in Hrange. destruct (counts_failure _ _ _ _ Hrec Hrange) as [Hn1 Hcount']. specialize (Hcount' id).
      rewrite bool_decide_eq_true_2 in Hcount' by done. destruct (Hb count Hcounts Hmax Hcount' ltac:(lia)) as [Hb1 Hb2].
      rewrite handledCount_app, Hc. unfold callBound in *. split; [lia|]. intros Hfuel. apply Hb2. lia.
    + injection H as <- <-. exists new. split; [by split|]. intros _ _ _ _ _. rewrite Hc. unfold callBound. split; [lia|done].
  - apply deliveryRound_run in H as (new & He & Hc & Hr). exists new. split; [by split|]. intros _ _ _ _ _. rewrite Hc. unfold callBound. split; [lia|done].
Qed.
End Delivered.

Section Records.
  Context {T : Type} (tracker : AttemptTracker T) (config : Config).
  Context (handle : list Event → Delivery → result HandleResult) (commit : list Event → Message → option error)
    (ctxError interrupted : list Event → option error).
  Context (acknowledge : option (list Event → PoisonDisposition → option error))
    (acknowledged : option (list Event → string → result bool)) (publish : list Event → Message → option error).
  #[local] Abbreviation processMessage := (processMessage tracker config handle commit ctxError interrupted acknowledge acknowledged publish).
  #[local] Abbreviation idOf message := (DeliveryID (cf_ClusterNamespace config) message).

Lemma processMessage_run fuel message k r k' :
  processMessage fuel message k = (r, k') →
  ∃ new, loopFacts config acknowledged message (idOf message) k r k' new ∧
    (∀ count, CountsFailures tracker count → cf_MaxAttempts config ≤ MaxInt64 → 0 ≤ count (ks_tracker k) (idOf message) < MaxInt64 →
     (handledCount new ≤ callBound config (count (ks_tracker k) (idOf message)))%nat ∧
     ((callBound config (count (ks_tracker k) (idOf message)) ≤ fuel)%nat → r ≠ Ok None)).
Proof.
  unfold Kafka.processMessage. intros H. run_inv H; [|by injection H].
  match goal with E : modify _ _ = (_, ?x) |- _ => unfold modify in E; injection E as _ E; rename x into k1;
    assert (ks_events k1 = ks_events k ∧ ks_tracker k1 = ks_tracker k) as [Hev Htr] by (subst; done); clear E end.
  setoid_rewrite <-Htr. run_inv H.
  - match goal with E : attemptsOf _ _ _ = _ |- _ => unfold attemptsOf, ofResult in E; destruct (Attempts _ _ _) as [n|] eqn:Ha;
      [injection E as <- <-|discriminate E] end.
    destruct (deliveryLoop_run _ _ _ _ _ _ _ _ _ _ _ _ _ _ _ _ H) as (new & [He Hf] & Hb).
    exists new. split; [split; [unfold emits in *; by rewrite He, Hev|done]|]. intros count Hcounts Hmax Hrange.
    apply counts_attempts in Ha. subst. by apply (Hb count).
  - unfold attemptsOf, ofResult in H. destruct (Attempts _ _ _); [discriminate H|injection H as _ <-]. exists [].
    split; [split; [by apply emits_nil|left; constructor]|]. intros count _ _ _. unfold callBound. split; [cbn; lia|done].
Qed.

Lemma processMessage_commits fuel message k r k' :
  processMessage fuel message k = (r, k') →
  ∃ new, ks_events k' = ks_events k ++ new ∧
    (∀ pre topic partition offset post, new = pre ++ Committed topic partition offset :: post →
       (topic = ms_Topic message ∧ partition = ms_Partition message ∧ offset = i64 (ms_Offset message + 1)) ∧
       justified config acknowledged message (idOf message) pre ∧ (post = [] ∨ post = [Cleared (idOf message)])) ∧
    (r = Ok (Some tt) → ∃ pre, new = pre ++ [commitEvent message; Cleared (idOf message)]).
Proof.
  intros H. destruct (processMessage_run _ _ _ _ _ H) as (new & [He Hr] & _). exists new. split; [exact He|].
  assert (∀ ok, ended message (idOf message) notCommit (justified config acknowledged message (idOf message)) ok new →
    ∀ pre topic partition offset post, new = pre ++ Committed topic partition offset :: post →
      (topic = ms_Topic message ∧ partition = ms_Partition message ∧ offset = i64 (ms_Offset message + 1)) ∧
      justified config acknowledged message (idOf message) pre ∧ (post = [] ∨ post = [Cleared (idOf message)])) as Hended.
  { intros ok (pre0 & -> & Hp & Hw) pre topic partition offset post E.
    assert (pre = pre0 ∧ Committed topic partition offset :: post = commitEvent message :: (if ok then [Cleared (idOf message)] else [])) as [-> E2].
    { eapply (separated isCommit); [done|done| |exact E|exact Hp]. by destruct ok; repeat constructor. }
    injection E2 as -> -> -> ->. split_and!; try done. destruct ok; auto. }
  assert (Forall notCommit new → ∀ pre topic partition offset post, new = pre ++ Committed topic partition offset :: post → False) as Hnone.
  { intros Hu pre topic partition offset post ->. apply Forall_app in Hu as [_ Hu]. by apply Forall_cons in Hu as [Hu _]. }
  destruct r as [[[]|]|e]; (split; [|try done]).
  - by apply (Hended true).
  - intros _. destruct Hr as (pre & -> & _). by exists pre.
  - intros pre topic partition offset post E. by destruct (Hnone Hr _ _ _ _ _ E).
  - destruct Hr as [Hr|Hr]; [|by apply (Hended false)]. intros pre topic partition offset post E. by destruct (Hnone Hr _ _ _ _ _ E).
Qed.

(** C13: an offset is committed once per delivery and only when that is justified. In any
    run over a record, whatever the handler, the broker, the poison ledger, the publisher
    and the context answer, a commit is for the offset after this record; right before it
    the handler reached the acknowledgement boundary of the contract for this record, or
    the failures reached the limit and the poison record is durably disposed of
    (acknowledged, published to the DLQ, or found on file); and nothing but the clearing of
    the attempts follows it. A run that succeeds has committed and cleared. *)
Theorem kafka_commits_are_justified fuel message k r k' :
  processMessage fuel message k = (r, k') →
  ∃ new, ks_events k' = ks_events k ++ new ∧
    (∀ pre topic partition offset post, new = pre ++ Committed topic partition offset :: post →
       (topic = ms_Topic message ∧ partition = ms_Partition message ∧ offset = i64 (ms_Offset message + 1)) ∧
       justified config acknowledged message (idOf message) pre ∧ (post = [] ∨ post = [Cleared (idOf message)])) ∧
    (r = Ok (Some tt) → ∃ pre, new = pre ++ [commitEvent message; Cleared (idOf message)]).
Proof. apply processMessage_commits. Qed.

(** The attempts at a record end. With a tracker that counts failures, a record that
    has failed [n] times is handed to the handler at most [MaxAttempts - n] more times, and
    once if it has used them up already; that many rounds are enough for the loop to
    return, with the record committed, or with an error. *)
Theorem kafka_attempts_end count fuel message k :
  CountsFailures tracker count → cf_MaxAttempts config ≤ MaxInt64 → 0 ≤ count (ks_tracker k) (idOf message) < MaxInt64 →
  (callBound config (count (ks_tracker k) (idOf message)) ≤ fuel)%nat →
  let '(r, k') := processMessage fuel message k in
  r ≠ Ok None ∧ ∃ new, ks_events k' = ks_events k ++ new ∧
    (handledCount new ≤ callBound config (count (ks_tracker k) (idOf message)))%nat.
Proof.
  intros Hcounts Hmax Hrange Hfuel. destruct (processMessage fuel message k) as [r k'] eqn:H.
  destruct (processMessage_run _ _ _ _ _ H) as (new & [He _] & Hb). destruct (Hb count Hcounts Hmax Hrange) as [Hb1 Hb2].
  split; [by apply Hb2|]. by exists new.
Qed.
End Records.

(** ** Backoff *)
Lemma doubleDelay_spec rounds maximum delay : 0 < delay ≤ maximum → maximum < 2 ^ 63 →
  match doubleDelay rounds maximum delay with
  | inl early => early = maximum ∧ maximum ≤ delay * 2 ^ Z.of_nat rounds
  | inr d => d = Z.min maximum (delay * 2 ^ Z.of_nat rounds) ∧ d ≤ maximum
  end.
Proof.
  intros Hd Hm. revert delay Hd. induction rounds as [|rounds IH]; intros delay Hd; cbn [doubleDelay].
  - change (2 ^ Z.of_nat 0) with 1. lia.
  - rewrite Nat2Z.inj_succ, Z.pow_succ_r by lia. pose proof (Z.pow_pos_nonneg 2 (Z.of_nat rounds) ltac:(lia) ltac:(lia)) as Hpow.
    case_bool_decide as H1; [|nia]. case_bool_decide as H2.
    + rewrite Z.quot_div_nonneg in H2 by lia. pose proof (Z.div_mod maximum 2 ltac:(lia)). pose proof (Z.mod_pos_bound maximum 2 ltac:(lia)). nia.
    + rewrite Z.quot_div_nonneg in H2 by lia. pose proof (Z.div_mod maximum 2 ltac:(lia)). pose proof (Z.mod_pos_bound maximum 2 ltac:(lia)).
      rewrite i64_id by lia. specialize (IH (delay * 2) ltac:(lia)). rewrite Z.mul_assoc. exact IH.
Qed.

(** The backoff is the capped doubling, on machine integers. For every initial delay,
    cap and attempt that a normalized configuration allows, the delay is the initial one
    doubled once per earlier failure, or the cap; no product overflows on the way. *)
Theorem retryDelay_is_capped_doubling initial maximum attempt :
  0 < initial ≤ maximum → maximum ≤ MaxInt64 → 1 ≤ attempt →
  retryDelay initial maximum attempt = Z.min maximum (initial * 2 ^ (attempt - 1)).
Proof.
  intros Hi Hm Ha. unfold MaxInt64 in Hm. unfold retryDelay.
  pose proof (doubleDelay_spec (Z.to_nat (attempt - 1)) maximum initial Hi ltac:(lia)) as H. rewrite Z2Nat.id in H by lia.
  destruct (doubleDelay _ _ _) as [early|d]; [destruct H as [-> H]; lia|]. destruct H as [-> H]. case_bool_decide; lia.
Qed.
Lemma retryDelay_is_capped_doubling_witness :
  retryDelay 1000000000 9000000000 3 = 4000000000 ∧ retryDelay 1 MaxInt64 200 = MaxInt64.
Proof.
  split; rewrite retryDelay_is_capped_doubling; first [reflexivity | vm_compute; split; discriminate || reflexivity | vm_compute; discriminate].
Defined.

(** ** Delivery identities *)
Lemma containsB_elem a l : a ∈ l → containsB l [a] = true.
Proof.
  induction l as [|b l IH]; [set_solver|]. intros [->|H]%elem_of_cons; cbn; [by rewrite bool_decide_eq_true_2|].
  rewrite (IH H). by rewrite orb_true_r.
Qed.
Lemma no_slash s : Contains s "/" = false → chr 47 ∉ bytes s.
Proof. intros H Hin. apply containsB_elem in Hin. unfold Contains in H. by change (bytes "/") with [chr 47] in H; rewrite Hin in H. Qed.
Lemma pretty_no_slash (z : Z) : chr 47 ∉ bytes (pretty z).
Proof.
  assert (∀ n, 0 ≤ n → chr 47 ∉ bytes (pretty n)) as Hpos.
  { intros n Hn Hin. pose proof (pretty_nonneg_digits n Hn) as H. rewrite Forall_forall in H. specialize (H _ Hin). done. }
  destruct z as [|p|p]; [by apply Hpos|by apply Hpos|]. change (pretty (Z.neg p)) with ("-" +:+ pretty (Z.pos p)).
  rewrite bytes_app, elem_of_app. intros [H|H]; [|by eapply (Hpos (Z.pos p))]. apply list_elem_of_singleton in H. done.
Qed.
Lemma DeliveryID_bytes ns m : bytes (DeliveryID ns m) =
  bytes "kafka/" ++ bytes ns ++ chr 47 :: bytes (ms_Topic m) ++ chr 47 :: bytes (pretty (ms_Partition m)) ++ chr 47 :: bytes (pretty (ms_Offset m)).
Proof. unfold DeliveryID. rewrite !bytes_app. by change (bytes "/") with [chr 47]. Qed.
Lemma last_separator (l l' r r' : list ascii) : chr 47 ∉ r → chr 47 ∉ r' → l ++ chr 47 :: r = l' ++ chr 47 :: r' → l = l' ∧ r = r'.
Proof.
  intros Hr Hr' E. apply (f_equal (@rev ascii)) in E. rewrite !rev_app_distr in E. cbn in E. rewrite <-!app_assoc in E. cbn in E.
  apply separator_unique in E as [E1 E2].
  - split; [rewrite <-(rev_involutive l), E2|rewrite <-(rev_involutive r), E1]; apply rev_involutive.
  - rewrite list_elem_of_In, <-in_rev, <-list_elem_of_In. done.
  - rewrite list_elem_of_In, <-in_rev, <-list_elem_of_In. done.
Qed.
Lemma DeliveryID_inj ns ns' m m' : Contains ns "/" = false → Contains ns' "/" = false → DeliveryID ns m = DeliveryID ns' m' →
  ns = ns' ∧ ms_Topic m = ms_Topic m' ∧ ms_Partition m = ms_Partition m' ∧ ms_Offset m = ms_Offset m'.
Proof.
  intros Hns Hns' E. apply (f_equal bytes) in E. rewrite !DeliveryID_bytes in E. apply app_inv_head in E.
  apply separator_unique in E as [E1%bytes_inj E]; [|by apply no_slash..].
  rewrite !(app_comm_cons _ _ (chr 47)), !(app_assoc (bytes (ms_Topic _))) in E.
  apply last_separator in E as [E E4%bytes_inj]; [|apply pretty_no_slash..].
  apply last_separator in E as [E2%bytes_inj E3%bytes_inj]; [|apply pretty_no_slash..].
  split_and!; [done|done|by apply (inj pretty)..].
Qed.
Lemma normalizeConfig_namespace c config : normalizeConfig c = Ok config → Contains (cf_ClusterNamespace config) "/" = false.
Proof. unfold normalizeConfig. intros H. repeat (apply bind_Ok in H as (? & ? & H)). injection H as <-. inv_res. done. Qed.

(** identities name records. Under normalized configurations, two records whose requests
    carry one admission identity come from one namespace, topic, partition and offset, even
    when topics contain slashes; and one execution identity means the same record and tenant
    and the same ruleset and version, unless SHA-256 collides on the two framed identities. *)
Theorem kafka_identities_name_records c c' config config' handler handler' m m' request request' admission admission' :
  normalizeConfig c = Ok config → normalizeConfig c' = Ok config' →
  recordRequest handler (DeliveryID (cf_ClusterNamespace config) m) (ms_Value m) = Ok request →
  recordRequest handler' (DeliveryID (cf_ClusterNamespace config') m') (ms_Value m') = Ok request' →
  xr_Admission request = Some admission → xr_Admission request' = Some admission' →
  let sameRecord := cf_ClusterNamespace config = cf_ClusterNamespace config' ∧ ms_Topic m = ms_Topic m' ∧
    ms_Partition m = ms_Partition m' ∧ ms_Offset m = ms_Offset m' in
  let components a := [ad_TenantNamespace a; ad_AdmissionID a; ad_Ruleset a; ad_Version a] in
  (ad_AdmissionID admission = ad_AdmissionID admission' → sameRecord) ∧
  (Forall frameable (components admission ++ components admission') → ad_ExecutionID admission = ad_ExecutionID admission' →
   (sameRecord ∧ components admission = components admission') ∨
   collides (frameIdentity (components admission)) (frameIdentity (components admission'))).
Proof.
  intros Hc Hc' Hr Hr' Ha Ha'. cbn zeta. apply normalizeConfig_namespace in Hc, Hc'. unfold recordRequest in Hr, Hr'.
  repeat (apply bind_Ok in Hr as (? & ? & Hr)). repeat (apply bind_Ok in Hr' as (? & ? & Hr')). injection Hr as <-. injection Hr' as <-.
  cbn in Ha, Ha'. injection Ha as <-. injection Ha' as <-. cbn. split; [by apply DeliveryID_inj|].
  intros Hf Hid. apply (Forall_app _ [_; _; _; _]) in Hf as [Hf Hf']. apply hashIdentity_collision in Hid as [Hid|Hid]; [|by right|done|done].
  left. split; [|done]. apply DeliveryID_inj; [done|done|]. exact (f_equal (λ l, List.nth 1 l "") Hid).
Qed.

(** The witnesses: two configurations, one record, and a handler that fails once. *)
Definition demoConfig : Config :=
  mkConfig "src" "" ["b:9092"] "t/x" "g" "" "" 0 0 0 0 "" "" "" 0 0 0 0 0 0 0.
Definition demoNormal : Config := configDefaults demoConfig.
Definition demoMessage : Message :=
  mkMessage "t/x" 1 7 9 "" ("{" +:+ q "facts" +:+ ":{" +:+ q "a" +:+ ":1}}") [] 0.
Definition demoAdmission : AdmissionRequest :=
  mkAdmissionRequest (StableExecutionID "default" "kafka/src/t/x/1/7" "orders" "v1") "kafka/src/t/x/1/7" "default" "orders" "v1"
    [("a", ANumber "1")] "" "".
Definition demoRequest : ExecuteRequest := mkExecuteRequest (Some demoAdmission) "" WaitTerminal None.
Lemma kafka_identities_name_records_witness :
  (cf_ClusterNamespace demoNormal = "src" ∧ ad_AdmissionID demoAdmission = "kafka/src/t/x/1/7") ∧
  (cf_ClusterNamespace demoNormal = cf_ClusterNamespace demoNormal ∧ ms_Topic demoMessage = ms_Topic demoMessage ∧
   ms_Partition demoMessage = ms_Partition demoMessage ∧ ms_Offset demoMessage = ms_Offset demoMessage).
Proof.
  split; [split; reflexivity|].
  exact (proj1 (kafka_identities_name_records (Some demoConfig) (Some demoConfig) demoNormal demoNormal sampleConfig sampleConfig
    demoMessage demoMessage demoRequest demoRequest demoAdmission demoAdmission
    ltac:(vm_compute; reflexivity) ltac:(vm_compute; reflexivity) ltac:(vm_compute; reflexivity) ltac:(vm_compute; reflexivity)
    eq_refl eq_refl) eq_refl).
Defined.

Definition demoState : KafkaState memoryAttemptTracker := mkKafkaState 0 0 0 false None newMemoryAttemptTracker [].
Definition secondTime (events : list Event) (_ : Delivery) : result HandleResult :=
  match events with [] => Err (errorf "later") | _ => Ok (mkHandleResult true true) end.
Definition demoRun (fuel : nat) : result (option unit) * KafkaState memoryAttemptTracker :=
  processMessage memoryTracker demoNormal secondTime (λ _ _, None) (λ _, None) (λ _, None) None None (λ _ _, None) fuel demoMessage demoState.
Lemma kafka_commits_are_justified_witness :
  ∃ new, ks_events (demoRun 2).2 = ks_events demoState ++ new ∧
    ∃ pre, new = pre ++ [commitEvent demoMessage; Cleared "kafka/src/t/x/1/7"].
Proof.
  destruct (kafka_commits_are_justified memoryTracker demoNormal secondTime (λ _ _, None) (λ _, None) (λ _, None) None None (λ _ _, None)
    2 demoMessage demoState (Ok (Some tt)) (demoRun 2).2 ltac:(vm_compute; reflexivity)) as (new & He & _ & Hok).
  exists new. split; [exact He|]. exact (Hok eq_refl).
Defined.
Lemma kafka_attempts_end_witness :
  (demoRun 3).1 ≠ Ok None ∧ ∃ new, ks_events (demoRun 3).2 = ks_events demoState ++ new ∧ (handledCount new ≤ 3)%nat.
Proof.
  exact (kafka_attempts_end memoryTracker demoNormal secondTime (λ _ _, None) (λ _, None) (λ _, None) None None (λ _ _, None)
    memoryCount 3 demoMessage demoState memory_counts ltac:(vm_compute; discriminate) ltac:(vm_compute; split; [discriminate|reflexivity])
    ltac:(vm_compute; lia)).
Defined.
