(* ===== verification/KafkaGroup.v ===== *)
(** * The consumer group ([internal/daemon/kafka/consumer.go])

    One goroutine per assigned partition, in one generation after another, and a token
    that admits one record at a time. The machine interleaves them; processing a record is
    [processMessage] on the shared source. A partition reader delivers, from an offset, the
    stream [stream topic partition offset]. *)

From S2P Require Import Prelude GoText Json Identity Value Admission EngineState Engine Kafka KafkaProps.
From stdpp Require Import relations.
From Stdlib Require Import ZArith NArith Ascii String Lia.
Local Open Scope list_scope.
Local Open Scope Z_scope.

Inductive Phase : Type :=
  | Starting (offset : Z)            (* before [SetOffset] *)
  | Waiting                          (* at the [select] *)
  | Holding                          (* has the token, in [FetchMessage] *)
  | Processing (message : Message)
  | Exited.
(** The stream still to be fetched, and the records that were processed without an error. *)
Record Worker : Type := mkWorker {
  wk_topic : string; wk_partition : Z; wk_phase : Phase; wk_stream : list Message; wk_done : list Message }.
#[global] Instance eta_Worker : Eta Worker := λ r,
  mkWorker (wk_topic r) (wk_partition r) (wk_phase r) (wk_stream r) (wk_done r).

Record Group (T : Type) : Type := mkGroup {
  gs_token : bool;                   (* a value in the [admission] channel *)
  gs_cause : option error;           (* of [cancel] *)
  gs_workers : list Worker;          (* of all generations so far *)
  gs_running : bool;                 (* [Run] is in its loop *)
  gs_source : KafkaState T }.
Arguments mkGroup {T}.
Arguments gs_token {T}.
Arguments gs_cause {T}.
Arguments gs_workers {T}.
Arguments gs_running {T}.
Arguments gs_source {T}.
#[global] Instance eta_Group T : Eta (Group T) := λ r,
  mkGroup (gs_token r) (gs_cause r) (gs_workers r) (gs_running r) (gs_source r).

(** [cancel] keeps its first cause. *)
Definition cancel {T} (cause : option error) (g : Group T) : Group T :=
  g <| gs_cause := match gs_cause g with Some e => Some e | None => cause end |>.
Definition setWorker {T} (i : nat) (w : Worker) (g : Group T) : Group T := g <| gs_workers := <[i := w]> (gs_workers g) |>.
Definition newWorker (assignment : topicAssignment) : Worker :=
  mkWorker (ta_topic assignment) (pt_ID (ta_partition assignment)) (Starting (pt_Offset (ta_partition assignment))) [] [].

Section Machine.
  Context {T : Type} (tracker : AttemptTracker T) (config : Config).
  Context (handle : list Event → Delivery → result HandleResult) (commit : list Event → Message → option error)
    (ctxError interrupted : list Event → option error).
  Context (acknowledge : option (list Event → PoisonDisposition → option error))
    (acknowledged : option (list Event → string → result bool)) (publish : list Event → Message → option error).
  Context (stream : string → Z → Z → list Message).
  #[local] Abbreviation process := (processMessage tracker config handle commit ctxError interrupted acknowledge acknowledged publish).

Inductive groupStep (g : Group T) : Group T → Prop :=
  (* [group.Next] returns a generation *)
  | step_generation topics :
      gs_running g = true →
      groupStep g (g <| gs_workers := gs_workers g ++ (newWorker <$> orderedAssignments topics) |>)
  (* [group.Next] fails: the loop waits for the token and returns, or goes on *)
  | step_next_fails returns :
      gs_running g = true → gs_token g = true →
      groupStep g (g <| gs_running := negb returns |>)
  | step_offset_set i w offset :
      gs_workers g !! i = Some w → wk_phase w = Starting offset →
      groupStep g (setWorker i (w <| wk_phase := Waiting |> <| wk_stream := stream (wk_topic w) (wk_partition w) offset |>) g)
  | step_offset_fails i w offset e :
      gs_workers g !! i = Some w → wk_phase w = Starting offset →
      groupStep g (cancel (Some e) (setWorker i (w <| wk_phase := Exited |>) g))
  | step_stops i w :
      gs_workers g !! i = Some w → wk_phase w = Waiting →
      groupStep g (setWorker i (w <| wk_phase := Exited |>) g)
  | step_acquires i w :
      gs_workers g !! i = Some w → wk_phase w = Waiting → gs_token g = true →
      groupStep g (setWorker i (w <| wk_phase := Holding |>) g <| gs_token := false |>)
  | step_fetch_fails i w cause :
      gs_workers g !! i = Some w → wk_phase w = Holding →
      groupStep g (cancel cause (setWorker i (w <| wk_phase := Exited |>) g <| gs_token := true |>))
  | step_fetches i w message rest :
      gs_workers g !! i = Some w → wk_phase w = Holding → wk_stream w = message :: rest →
      groupStep g (setWorker i (w <| wk_phase := Processing message |> <| wk_stream := rest |>) g)
  | step_processed i w message fuel source :
      gs_workers g !! i = Some w → wk_phase w = Processing message →
      process fuel message (gs_source g) = (Ok (Some tt), source) →
      groupStep g (setWorker i (w <| wk_phase := Waiting |> <| wk_done := wk_done w ++ [message] |>) g
                     <| gs_token := true |> <| gs_source := source |>)
  | step_process_fails i w message fuel source e cause :
      gs_workers g !! i = Some w → wk_phase w = Processing message →
      process fuel message (gs_source g) = (Err e, source) →
      groupStep g (cancel cause (setWorker i (w <| wk_phase := Exited |>) g <| gs_token := true |> <| gs_source := source |>)).

(** [Run] starts with the token in the channel and no generation. *)
Definition started (source : KafkaState T) : Group T := mkGroup true None [] true source.

(** ** Invariants *)
Definition holds (w : Worker) : bool := match wk_phase w with Holding | Processing _ => true | _ => false end.
Definition inHand (w : Worker) : list Message := match wk_phase w with Processing m => [m] | _ => [] end.
Definition holders (l : list Worker) : nat := List.length (List.filter holds l).

(** The records of a worker are the stream of its partition, in order and without a gap. *)
Definition reads (w : Worker) : Prop :=
  match wk_phase w with
  | Starting _ => wk_done w = []
  | Exited => ∃ offset, wk_done w = [] ∨ wk_done w `prefix_of` stream (wk_topic w) (wk_partition w) offset
  | _ => ∃ offset, stream (wk_topic w) (wk_partition w) offset = wk_done w ++ inHand w ++ wk_stream w
  end.
Definition recorded (events : list Event) (w : Worker) : Prop := (commitEvent <$> wk_done w) `sublist_of` events.
(** Every commit among the events is for a record of some stream, and justified by events before it. *)
Definition allJustified (events : list Event) : Prop :=
  ∀ pre topic partition offset post, events = pre ++ Committed topic partition offset :: post →
    ∃ m from p o before, m ∈ stream from p o ∧ Committed topic partition offset = commitEvent m ∧
      before `suffix_of` pre ∧ justified config acknowledged m (DeliveryID (cf_ClusterNamespace config) m) before.
Record groupInv (start : list Event) (g : Group T) : Prop := {
  gi_token : ((if gs_token g then 1 else 0) + holders (gs_workers g) = 1)%nat;
  gi_reads : Forall reads (gs_workers g);
  gi_events : ∃ events, ks_events (gs_source g) = start ++ events ∧ Forall (recorded events) (gs_workers g) ∧ allJustified events }.

Lemma holders_insert l i w w' : l !! i = Some w →
  (holders (<[i := w']> l) + (if holds w then 1 else 0) = holders l + if holds w' then 1 else 0)%nat.
Proof.
  unfold holders. revert i. induction l as [|x l IH]; intros [|i] H; cbn in H; [done|done| |].
  - injection H as ->. cbn. destruct (holds w), (holds w'); cbn; lia.
  - specialize (IH i H). change (<[S i := w']> (x :: l)) with (x :: <[i := w']> l). cbn [List.filter].
    destruct (holds x); cbn [List.length]; lia.
Qed.
Lemma holders_new l assignments : holders (l ++ (newWorker <$> assignments)) = holders l.
Proof.
  unfold holders. rewrite List.filter_app, length_app. assert (List.filter holds (newWorker <$> assignments) = []) as ->; [|cbn; lia].
  induction assignments; cbn; auto.
Qed.

Lemma recorded_more events new w : recorded events w → recorded (events ++ new) w.
Proof. unfold recorded. intros H. by apply sublist_inserts_r. Qed.
Lemma allJustified_more events new m from p o :
  allJustified events → m ∈ stream from p o →
  (∀ pre topic partition offset post, new = pre ++ Committed topic partition offset :: post →
     (topic = ms_Topic m ∧ partition = ms_Partition m ∧ offset = i64 (ms_Offset m + 1)) ∧
     justified config acknowledged m (DeliveryID (cf_ClusterNamespace config) m) pre) →
  allJustified (events ++ new).
Proof.
  intros Hall Hm Hnew pre topic partition offset post E. apply app_eq_inv in E as [(l & -> & E)|(l & -> & E)].
  - destruct l as [|e l]; cbn in E.
    + rewrite app_nil_r in *. destruct (Hnew [] _ _ _ _ (eq_sym E)) as ((-> & -> & ->) & Hj). exists m, from, p, o, [].
      split_and!; [done|done|by exists pre; rewrite app_nil_r|done].
    + injection E as <- ->. by eapply Hall.
  - destruct (Hnew _ _ _ _ _ E) as ((-> & -> & ->) & Hj). exists m, from, p, o, l. split_and!; [done|done|by exists events|done].
Qed.

(** What a step does to one worker keeps the invariant if it keeps these. *)
Lemma groupInv_worker start (g : Group T) i w w' (token : bool) source new :
  groupInv start g → gs_workers g !! i = Some w →
  ((if token then 1 else 0) + (if holds w' then 1 else 0) = (if gs_token g then 1 else 0) + (if holds w then 1 else 0))%nat →
  reads w' → ks_events source = ks_events (gs_source g) ++ new →
  (∀ events, allJustified events → allJustified (events ++ new)) →
  (∀ events, recorded events w → recorded (events ++ new) w') →
  ∀ cause running, groupInv start (mkGroup token cause (<[i := w']> (gs_workers g)) running source).
Proof.
  intros [Htoken Hreads (events & He & Hrec & Hall)] Hi Hcount Hw' Hs Hj Hr cause running. split; cbn [gs_token gs_workers gs_source].
  - pose proof (holders_insert _ _ _ w' Hi). lia.
  - by apply Forall_insert.
  - exists (events ++ new). split_and!; [by rewrite Hs, He, app_assoc| |by apply Hj].
    apply Forall_insert; [eapply Forall_impl; [exact Hrec|intros; by apply recorded_more]|].
    apply Hr. by eapply (Forall_lookup_1 _ _ _ _ Hrec).
Qed.
(** A step that leaves the source alone. *)
Lemma groupInv_quiet start (g : Group T) i w w' (token : bool) :
  groupInv start g → gs_workers g !! i = Some w →
  ((if token then 1 else 0) + (if holds w' then 1 else 0) = (if gs_token g then 1 else 0) + (if holds w then 1 else 0))%nat →
  reads w' → wk_done w' = wk_done w →
  ∀ cause running, groupInv start (mkGroup token cause (<[i := w']> (gs_workers g)) running (gs_source g)).
Proof.
  intros Hinv Hi Hcount Hw' Hd. eapply (groupInv_worker _ _ _ _ _ _ _ []); [done|done|done|done|by rewrite app_nil_r|..].
  - intros events. by rewrite app_nil_r.
  - intros events. unfold recorded. by rewrite app_nil_r, Hd.
Qed.

Lemma reads_exit w : reads w → reads (w <| wk_phase := Exited |>).
Proof.
  unfold reads, inHand. destruct w as [topic partition phase rest finished]. cbn. destruct phase; cbn.
  - intros ->. exists 0. by left.
  - intros [offset E]. exists offset. right. rewrite E. by apply prefix_app_r.
  - intros [offset E]. exists offset. right. rewrite E. by apply prefix_app_r.
  - intros [offset E]. exists offset. right. rewrite E. by apply prefix_app_r.
  - done.
Qed.
Lemma process_new message k r k' : ∀ fuel, process fuel message k = (r, k') →
  ∃ new, ks_events k' = ks_events k ++ new ∧
    (∀ from p o events, message ∈ stream from p o → allJustified events → allJustified (events ++ new)) ∧
    (r = Ok (Some tt) → commitEvent message ∈ new).
Proof.
  intros fuel (new & He & Hj & Hok)%processMessage_commits. exists new. split_and!; [done| |].
  - intros from p o events Hm Hall. eapply allJustified_more; [done|done|]. intros pre topic partition offset post E.
    destruct (Hj _ _ _ _ _ E) as (? & ? & _). done.
  - intros E. destruct (Hok E) as [pre ->]. set_solver.
Qed.
Lemma holder_no_token start (g : Group T) i w : groupInv start g → gs_workers g !! i = Some w → holds w = true → gs_token g = false.
Proof.
  intros [Ht _ _] Hi Hw. pose proof (holders_insert _ _ _ (w <| wk_phase := Exited |>) Hi) as Hc. rewrite Hw in Hc.
  change (holds (w <| wk_phase := Exited |>)) with false in Hc. destruct (gs_token g); [cbv beta iota in *; lia|done].
Qed.
Lemma in_stream w message : wk_phase w = Processing message → reads w → ∃ offset, message ∈ stream (wk_topic w) (wk_partition w) offset.
Proof. unfold reads, inHand. intros ->. intros [offset E]. exists offset. rewrite E. set_solver. Qed.

Lemma groupStep_inv start g g' : groupInv start g → groupStep g g' → groupInv start g'.
Proof.
  intros Hinv H. destruct H as [topics Hrun|returns Hrun Htok|i w offset Hi Hp|i w offset e Hi Hp|i w Hi Hp|i w Hi Hp Htok|i w cause Hi Hp
    |i w message rest Hi Hp Hs|i w message fuel source Hi Hp Hrun|i w message fuel source e cause Hi Hp Hrun];
    try match goal with Hi : gs_workers _ !! _ = Some _ |- _ => pose proof (Forall_lookup_1 _ _ _ _ (gi_reads _ _ Hinv) Hi) as Hw end.
  - destruct Hinv as [Htoken Hreads (events & He & Hrec & Hall)]. split.
    + etrans; [|exact Htoken]. f_equal. apply holders_new.
    + apply (Forall_app _ (gs_workers g)). split; [done|]. apply Forall_fmap, Forall_true. done.
    + exists events. split_and!; [done| |done]. apply (Forall_app _ (gs_workers g)). split; [done|]. apply Forall_fmap, Forall_true.
      intros a. unfold recorded. cbn. apply sublist_nil_l.
  - destruct Hinv as [Htoken Hreads Hev]. by split.
  - apply (groupInv_quiet start g i w); [done|done| | |by destruct w].
    + destruct w; cbn in *. by rewrite Hp.
    + unfold reads in *. destruct w; cbn in *. subst. by exists offset.
  - apply (groupInv_quiet start g i w); [done|done| |by apply reads_exit|by destruct w]. destruct w; cbn in *. by rewrite Hp.
  - apply (groupInv_quiet start g i w); [done|done| |by apply reads_exit|by destruct w]. destruct w; cbn in *. by rewrite Hp.
  - apply (groupInv_quiet start g i w); [done|done| | |by destruct w].
    + rewrite Htok. destruct w; cbn in *. by rewrite Hp.
    + unfold reads, inHand in *. destruct w; cbn in *. by subst.
  - assert (gs_token g = false) as Htok.
    { eapply holder_no_token; [done|done|]. unfold holds. by rewrite Hp. }
    apply (groupInv_quiet start g i w); [done|done| |by apply reads_exit|by destruct w]. rewrite Htok. destruct w; cbn in *. by rewrite Hp.
  - apply (groupInv_quiet start g i w); [done|done| | |by destruct w].
    + destruct w; cbn in *. by rewrite Hp.
    + unfold reads, inHand in *. destruct w; cbn in *. by subst.
  - assert (gs_token g = false) as Htok by (eapply holder_no_token; [done|done|]; unfold holds; by rewrite Hp).
    destruct (in_stream _ _ Hp Hw) as [offset Hm]. destruct (process_new _ _ _ _ _ Hrun) as (new & He & Hj & Hc).
    eapply (groupInv_worker start g i w); [done|done| | |exact He|intros; by eapply Hj|].
    + rewrite Htok. unfold holds at 2. rewrite Hp. by destruct w.
    + unfold reads, inHand in *. destruct w; cbn in *. subst. destruct Hw as [o E]. exists o. by rewrite E, <-app_assoc.
    + intros events. unfold recorded. destruct w; cbn. rewrite fmap_app. intros Hs. apply sublist_app; [done|].
      apply list_elem_of_split in Hc as (l1 & l2 & ->); [|done]. cbn. apply sublist_inserts_l, sublist_skip, sublist_nil_l.
  - assert (gs_token g = false) as Htok by (eapply holder_no_token; [done|done|]; unfold holds; by rewrite Hp).
    destruct (in_stream _ _ Hp Hw) as [offset Hm]. destruct (process_new _ _ _ _ _ Hrun) as (new & He & Hj & _).
    eapply (groupInv_worker start g i w); [done|done| |by apply reads_exit|exact He|intros; by eapply Hj|].
    + rewrite Htok. unfold holds at 2. rewrite Hp. by destruct w.
    + intros events Hs. apply recorded_more. unfold recorded in *. by destruct w.
Qed.

Lemma started_inv source : groupInv (ks_events source) (started source).
Proof.
  split; [done|constructor|]. exists []. split_and!; [by rewrite app_nil_r|constructor|].
  intros pre topic partition offset post E. by destruct pre.
Qed.
Lemma groupInv_reachable source g : rtc groupStep (started source) g → groupInv (ks_events source) g.
Proof.
  intros H. pose proof (started_inv source) as Hinv. revert Hinv. generalize (started source) H. clear H. intros g0 H.
  induction H as [g1|g1 g2 g3 Hs _ IH]; [done|]. intros Hinv. apply IH. by eapply groupStep_inv.
Qed.
Lemma holders_unique l i j w w' : (holders l ≤ 1)%nat → l !! i = Some w → l !! j = Some w' → holds w = true → holds w' = true → i = j.
Proof.
  intros Hn Hi Hj Hw Hw'. destruct (decide (i = j)) as [|Hne]; [done|].
  pose proof (holders_insert _ _ _ (w <| wk_phase := Exited |>) Hi) as H1. rewrite Hw in H1.
  assert (<[i := w <| wk_phase := Exited |>]> l !! j = Some w') as Hj' by (by rewrite list_lookup_insert_ne).
  pose proof (holders_insert _ _ _ (w' <| wk_phase := Exited |>) Hj') as H2. rewrite Hw' in H2.
  change (holds (w <| wk_phase := Exited |>)) with false in H1. change (holds (w' <| wk_phase := Exited |>)) with false in H2.
  cbv beta iota in *. lia.
Qed.

(** C14: the consumer group works on one record at a time and leaves no gap. In every
    interleaving of the partition workers of any number of generations, at most one worker
    has a fetched record or is fetching one, and none while the token is free; what a worker
    has finished is an initial segment of the stream of its partition, each record of it
    committed, in that order; and every commit of the run is for a record of a stream and
    is justified by the events before it: the acknowledgement boundary, or a durable poison
    disposition. *)
Theorem kafka_group_is_serial source g :
  rtc groupStep (started source) g →
  (∀ i j w w', gs_workers g !! i = Some w → gs_workers g !! j = Some w' → holds w = true → holds w' = true →
     i = j ∧ gs_token g = false) ∧
  ∃ events, ks_events (gs_source g) = ks_events source ++ events ∧ allJustified events ∧
    ∀ i w, gs_workers g !! i = Some w →
      (commitEvent <$> wk_done w) `sublist_of` events ∧
      (wk_done w = [] ∨ ∃ offset, (wk_done w ++ inHand w) `prefix_of` stream (wk_topic w) (wk_partition w) offset).
Proof.
  intros H. apply groupInv_reachable in H as Hinv. split.
  - intros i j w w' Hi Hj Hw Hw'. split; [|by eapply holder_no_token].
    eapply holders_unique; [|done..]. pose proof (gi_token _ _ Hinv). lia.
  - destruct Hinv as [_ Hreads (events & He & Hrec & Hall)]. exists events. split_and!; [done|done|]. intros i w Hi. split.
    + exact (Forall_lookup_1 _ _ _ _ Hrec Hi).
    + pose proof (Forall_lookup_1 _ _ _ _ Hreads Hi) as Hw. unfold reads, inHand in *.
      destruct (wk_phase w); [by left| | | |]; destruct Hw as [offset Hw]; [right; exists offset..|].
      * rewrite Hw. by apply prefix_app, prefix_nil.
      * rewrite Hw. by apply prefix_app, prefix_nil.
      * rewrite Hw, app_assoc. by apply prefix_app_r.
      * destruct Hw as [->|Hw]; [by left|right]. exists offset. by rewrite app_nil_r.
Qed.
End Machine.

(** A group of one partition that has processed the first of two records. *)
Definition demoStream (_ : string) (_ _ : Z) : list Message := [demoMessage; demoMessage <| ms_Offset := 8 |>].
#[local] Abbreviation demoStep :=
  (groupStep memoryTracker demoNormal secondTime (λ _ _, None) (λ _, None) (λ _, None) None None (λ _ _, None) demoStream).
Definition demoWorker (phase : Phase) (rest finished : list Message) : Worker := mkWorker "t/x" 1 phase rest finished.
Definition demoGroup (token : bool) (w : Worker) (source : KafkaState memoryAttemptTracker) : Group memoryAttemptTracker :=
  mkGroup token None [w] true source.
Lemma demo_processed source :
  processMessage memoryTracker demoNormal secondTime (λ _ _, None) (λ _, None) (λ _, None) None None (λ _ _, None) 2 demoMessage demoState
    = (Ok (Some tt), source) →
  demoStep (demoGroup false (demoWorker (Processing demoMessage) [demoMessage <| ms_Offset := 8 |>] []) demoState)
    (demoGroup true (demoWorker Waiting [demoMessage <| ms_Offset := 8 |>] [demoMessage]) source).
Proof.
  intros H. exact (step_processed _ _ _ _ _ _ _ _ _ _
    (demoGroup false (demoWorker (Processing demoMessage) [demoMessage <| ms_Offset := 8 |>] []) demoState) 0 _ demoMessage 2 source eq_refl eq_refl H).
Qed.
Lemma kafka_group_is_serial_witness :
  ∃ events, ks_events (demoRun 2).2 = ks_events demoState ++ events ∧
    (commitEvent <$> [demoMessage]) `sublist_of` events.
Proof.
  destruct (kafka_group_is_serial memoryTracker demoNormal secondTime (λ _ _, None) (λ _, None) (λ _, None) None None (λ _ _, None) demoStream
    demoState (demoGroup true (demoWorker Waiting [demoMessage <| ms_Offset := 8 |>] [demoMessage]) (demoRun 2).2)) as (_ & events & He & _ & Hw).
  - apply (rtc_l _ _ (demoGroup true (demoWorker (Starting 7) [] []) demoState));
      [exact (step_generation _ _ _ _ _ _ _ _ _ _ (started demoState) [("t/x", [mkPartition 1 7])] eq_refl)|].
    apply (rtc_l _ _ (demoGroup true (demoWorker Waiting (demoStream "" 0 0) []) demoState));
      [exact (step_offset_set _ _ _ _ _ _ _ _ _ _ (demoGroup true (demoWorker (Starting 7) [] []) demoState) 0 _ 7 eq_refl eq_refl)|].
    apply (rtc_l _ _ (demoGroup false (demoWorker Holding (demoStream "" 0 0) []) demoState));
      [exact (step_acquires _ _ _ _ _ _ _ _ _ _ (demoGroup true (demoWorker Waiting (demoStream "" 0 0) []) demoState) 0 _ eq_refl eq_refl eq_refl)|].
    apply (rtc_l _ _ (demoGroup false (demoWorker (Processing demoMessage) [demoMessage <| ms_Offset := 8 |>] []) demoState));
      [exact (step_fetches _ _ _ _ _ _ _ _ _ _ (demoGroup false (demoWorker Holding (demoStream "" 0 0) []) demoState) 0 _ _ _ eq_refl eq_refl eq_refl)|].
    apply rtc_once, demo_processed. vm_compute. reflexivity.
  - exists events. split; [exact He|]. exact (proj1 (Hw 0%nat _ eq_refl)).
Defined.
