(* ===== verification/Descriptor.v ===== *)
(** * Executor descriptors and resolvers ([invocation/descriptor.go])

    Canonical resolver input, its validation and its JSON form, and the resolver registry.
    [toLower] is [strings.ToLower], with the case tables of Unicode. A resolved executor may
    own a resource that its generation must close. *)

From S2P Require Import Prelude GoText Sha256 Json Env.
From Stdlib Require Import ZArith NArith Ascii String.
Local Open Scope list_scope.

Definition DescriptorHTTP : string := "http".
Definition DescriptorGRPC : string := "grpc".
Definition DescriptorStream : string := "stream".
Definition DescriptorOCI : string := "oci".
Definition DescriptorEmbedded : string := "embedded".

(** [^.+@sha256:[0-9a-f]{64}$] *)
Definition digestPinned (reference : string) : bool :=
  let l := bytes reference in
  let prefix := take (List.length l - 72) l in
  let suffix := drop (List.length l - 72) l in
  bool_decide (72 < List.length l)
  && negb (existsb (byteIs 10) prefix)
  && bool_decide (take 8 suffix = bytes "@sha256:")
  && forallb (λ a, byteIn 48 57 a || byteIn 97 102 a) (drop 8 suffix).

Record DescriptorSpec : Type := mkDescriptorSpec {
  ds_Type : string;
  ds_ResolverID : string;
  ds_Reference : string;
  ds_Headers : gmap string string;
  ds_Settings : gmap string string }.
(** [Descriptor]; a [DescriptorKV] is a pair. *)
Record Descriptor : Type := mkDescriptor {
  de_Type : string;
  de_ResolverID : string;
  de_Reference : string;
  de_Headers : list (string * string);
  de_Settings : list (string * string) }.
#[global] Instance Descriptor_eq_dec : EqDecision Descriptor.
Proof. solve_decision. Defined.

Definition reservedHTTPHeaders : list string :=
  ["x-effectus-verb"; "x-effectus-request-id"; "x-effectus-execution-id"; "x-effectus-saga-id"; "x-effectus-effect-id";
   "x-effectus-attempt"; "x-effectus-direction"; "x-effectus-argument-hash"; "x-effectus-contract-hash";
   "x-effectus-fencing-grants"; "x-effectus-deadline"; "x-effectus-outcome"; "idempotency-key"].
Definition validateDescriptorType (value : string) : result unit :=
  failIf (negb (bool_decide (value ∈ [DescriptorHTTP; DescriptorGRPC; DescriptorStream; DescriptorOCI; DescriptorEmbedded])))
    (errorf "unknown invocation descriptor type").

Section Descriptors.
  Context (toLower : string → string).

(** The checks of one name, and the folded names after it. *)
Definition checkHeader (seenFoldedNames : gset string) (name : string) : result (gset string) :=
  let foldedName := toLower name in
  failIf (bool_decide (foldedName ∈ seenFoldedNames)) (errorf "invocation descriptor headers collide case-insensitively") ;;
  failIf (bool_decide (foldedName ∈ reservedHTTPHeaders) || HasPrefix foldedName "x-effectus-")
    (errorf "invocation descriptor header is reserved") ;;
  Ok ({[foldedName]} ∪ seenFoldedNames).
Definition checkDescriptorName (headers : bool) (seenFoldedNames : gset string) (rawName : string) : result (gset string) :=
  let name := TrimSpace rawName in
  failIf (bool_decide (name = "") || bool_decide (name ≠ rawName)) (errorf "invocation descriptor contains a non-canonical key") ;;
  if headers then checkHeader seenFoldedNames name else Ok seenFoldedNames.
Definition canonicalDescriptorValues (values : gmap string string) (headers : bool) : result (list (string * string)) :=
  let names := sortedKeys values in
  foldR (checkDescriptorName headers) names ∅ ;;
  Ok ((λ name, (name, default "" (values !! name))) <$> names).

Definition NewDescriptor (spec : DescriptorSpec) : result Descriptor :=
  let resolverID := TrimSpace (ds_ResolverID spec) in
  let reference := TrimSpace (ds_Reference spec) in
  validateDescriptorType (ds_Type spec) ;;
  failIf (bool_decide (ds_Type spec = DescriptorOCI) && negb (digestPinned reference))
    (errorf "invocation descriptor OCI reference must be digest-pinned") ;;
  headers ← canonicalDescriptorValues (ds_Headers spec) true;
  settings ← canonicalDescriptorValues (ds_Settings spec) false;
  Ok (mkDescriptor (ds_Type spec) resolverID reference headers settings).

(** The loop, from the previous name on. *)
Fixpoint validateValues (headers : bool) (previous : option string) (seenFoldedNames : gset string) (values : list (string * string))
    : result unit :=
  match values with
  | [] => Ok tt
  | value :: values =>
      failIf (bool_decide (value.1 = "") || bool_decide (value.1 ≠ TrimSpace value.1)) (errorf "invocation descriptor contains a non-canonical key") ;;
      failIf (match previous with Some p => negb (strLt p value.1) | None => false end)
        (errorf "invocation descriptor keys are duplicated or not ordered") ;;
      seenFoldedNames ← (if headers then checkHeader seenFoldedNames value.1 else Ok seenFoldedNames);
      validateValues headers (Some value.1) seenFoldedNames values
  end.
Definition validateCanonicalDescriptorValues (values : list (string * string)) (headers : bool) : result unit :=
  validateValues headers None ∅ values.
Definition validate (descriptor : Descriptor) : result unit :=
  validateDescriptorType (de_Type descriptor) ;;
  failIf (bool_decide (de_ResolverID descriptor ≠ TrimSpace (de_ResolverID descriptor))
          || bool_decide (de_Reference descriptor ≠ TrimSpace (de_Reference descriptor)))
    (errorf "invocation descriptor identifiers must be normalized") ;;
  failIf (bool_decide (de_Type descriptor = DescriptorOCI) && negb (digestPinned (de_Reference descriptor)))
    (errorf "invocation descriptor OCI reference must be digest-pinned") ;;
  validateCanonicalDescriptorValues (de_Headers descriptor) true ;;
  validateCanonicalDescriptorValues (de_Settings descriptor) false.

(** The JSON tags of [descriptorDocument]. *)
Definition kvJSON (kv : string * string) : json := JObj [("name", JStr kv.1); ("value", JStr kv.2)].
Definition descriptorJSON (descriptor : Descriptor) : json :=
  JObj ([("type", JStr (de_Type descriptor))]
        ++ omitEmpty (bool_decide (de_ResolverID descriptor = "")) "resolver_id" (JStr (de_ResolverID descriptor))
        ++ omitEmpty (bool_decide (de_Reference descriptor = "")) "reference" (JStr (de_Reference descriptor))
        ++ omitEmpty (bool_decide (de_Headers descriptor = [])) "headers" (JArr (kvJSON <$> de_Headers descriptor))
        ++ omitEmpty (bool_decide (de_Settings descriptor = [])) "settings" (JArr (kvJSON <$> de_Settings descriptor))).
Definition descriptorText (descriptor : Descriptor) : result string :=
  validate descriptor ;;
  ofOption (Marshal (descriptorJSON descriptor)) (errorf "marshal descriptor").

(** ** Resolvers *)
  (** Executors, and the resources of executors. *)
  Context {X : Type}.
(** The resources opened so far are numbered in order; [closed] is the log of [Close]. *)
Record Resources : Type := mkResources { rs_opened : nat; rs_closed : list nat }.
(** [Resolver.Resolve]: a possibly nil executor, and whether a closer comes with it. *)
Definition Resolver : Type := Resources → Descriptor → result (option X * bool).
Definition Registry : Type := gmap string Resolver.

Definition NewRegistry (registrations : list (string * option Resolver)) : result Registry :=
  foldR (λ registry registration,
           let '(rawID, resolver) := registration in
           let id := TrimSpace rawID in
           match resolver with
           | None => Err (errorf "invocation resolver registration is invalid")
           | Some resolver =>
               failIf (bool_decide (id = "") || bool_decide (id ≠ rawID)) (errorf "invocation resolver registration is invalid") ;;
               failIf (bool_decide (is_Some (registry !! id))) (errorf "invocation resolver is registered more than once") ;;
               Ok (<[id := resolver]> registry)
           end) registrations ∅.

Definition closeResource (n : nat) (resources : Resources) : Resources := mkResources (rs_opened resources) (rs_closed resources ++ [n]).
(** The closer, when there is one, is the resource opened last. *)
Definition Resolve (registry : option Registry) (descriptor : Descriptor) (resources : Resources) : result (X * option nat) * Resources :=
  match registry with
  | None => (Err (errorf "invocation resolver registry is nil"), resources)
  | Some registry =>
      match validate descriptor with
      | Err e => (Err e, resources)
      | Ok _ =>
          let id := de_ResolverID descriptor in
          if bool_decide (id = "") then (Err (errorf "callback-only invocation descriptor cannot be resolved"), resources) else
          match registry !! id with
          | None => (Err (errorf "invocation resolver is not registered"), resources)
          | Some resolver =>
              match resolver resources descriptor with
              | Err e => (Err (mkError (err_is e) ("resolve invocation descriptor: " +:+ err_text e)), resources)
              | Ok (executor, closer) =>
                  let n := rs_opened resources in
                  let resources := if (closer : bool) then mkResources (S n) (rs_closed resources) else resources in
                  match executor with
                  | None => (Err (errorf "invocation resolver returned a nil executor"),
                             if closer then closeResource n resources else resources)
                  | Some executor => (Ok (executor, if closer then Some n else None), resources)
                  end
              end
          end
      end
  end.
End Descriptors.
