(* ===== verification/Generation.v ===== *)
(** * Building and rebuilding generations
    ([runtime/generation.go], [runtime/generation_build.go], [runtime/artifact_resolver.go])

    A generation freezes a checked artifact with the executors of its verbs. It is built
    from a source bundle, or rebuilt from the manifest that an execution has pinned. What
    executors own is opened and closed in the [Resources] that are passed along. *)

From S2P Require Import Prelude GoText Sha256 Json Ledger Ir Types Env Check Value Eval Admission GoPath SourceScan SourceAst Compiler Descriptor.
From Stdlib Require Import ZArith NArith Ascii String.
Local Open Scope list_scope.

(** ** Generations *)

(** [append([]string(nil), values...)] of a slice that may be nil: an empty one becomes nil. *)
Definition appendNil (values : option (list string)) : option (list string) :=
  match values with Some (_ :: _) => values | _ => None end.
Definition cloneVerb (contract : VerbContract) : VerbContract :=
  mkVerb (vc_Arguments contract) (appendNil (vc_RequiredArgs contract)) (vc_ResultType contract) (vc_InverseVerb contract)
    (vc_RetryPolicy contract) (vc_IdempotencyPolicy contract) (vc_FencingRequired contract).
Definition cloneGenerationEnvironment (environment : Environment) : Environment :=
  mkEnvironment (env_Facts environment) (cloneVerb <$> env_Verbs environment) (env_Functions environment) (env_Types environment).

(** The call that no generation can evaluate, in every branch. *)
Fixpoint validateGenerationExpression (expression : Expression) : result unit :=
  match expression with
  | ExprCall _ _ => Err (errorf "predicate function is unavailable in immutable generations")
  | ExprUnary _ operand => validateGenerationExpression operand
  | ExprBinary _ l r => validateGenerationExpression l ;; validateGenerationExpression r
  | ExprNil => Err nilDereference
  | _ => Ok tt
  end.

Definition namedJSON (name : string) (value : json) : string → json := λ key, JObj [("name", JStr name); (key, value)].
Definition canonicalExecutorDescriptors (values : gmap string Descriptor) : list (string * Descriptor) :=
  (λ name, (name, default (mkDescriptor "" "" "" [] []) (values !! name))) <$> sortedKeys values.
Definition canonicalStringManifest (values : gmap string string) : list (string * string) :=
  (λ name, (name, default "" (values !! name))) <$> sortedKeys values.
Record generationDigestManifest : Type := mkManifest {
  mf_IRDigest : string;
  mf_EnvironmentDigest : string;
  mf_Ruleset : string;
  mf_Version : string;
  mf_SourceDigest : string;
  mf_Executors : list (string * Descriptor);
  mf_Functions : list (string * string) }.
Definition executorsJSON (executors : list (string * Descriptor)) : json :=
  JArr ((λ e : string * Descriptor, namedJSON e.1 (descriptorJSON e.2) "descriptor") <$> executors).
Definition manifestJSON (manifest : generationDigestManifest) : json :=
  JObj [("ir_digest", JStr (mf_IRDigest manifest)); ("environment_digest", JStr (mf_EnvironmentDigest manifest));
        ("ruleset", JStr (mf_Ruleset manifest)); ("version", JStr (mf_Version manifest)); ("source_digest", JStr (mf_SourceDigest manifest));
        ("executors", executorsJSON (mf_Executors manifest));
        ("functions", JArr ((λ f : string * string, namedJSON f.1 (JStr f.2) "value") <$> mf_Functions manifest))].

Section Generations.
  Context (toLower : string → string) {X : Type}.

Record GenerationConfig : Type := mkGenerationConfig {
  cg_Checked : option (Checked * RuleArtifact);
  cg_Environment : Environment;
  cg_Ruleset : string;
  cg_Version : string;
  cg_ExecutorDescriptors : gmap string Descriptor;
  cg_FunctionIDs : gmap string string;
  cg_SourceDigest : string;
  cg_Executors : gmap string (option X);
  cg_Closers : list nat;
  cg_Production : bool }.
(** The artifact is what [CloneArtifact] returns. *)
Record Generation : Type := mkGenerationValue {
  ge_checked : Checked;
  ge_artifact : RuleArtifact;
  ge_environment : Environment;
  ge_ruleset : string;
  ge_version : string;
  ge_executorDescriptors : gmap string Descriptor;
  ge_functionIDs : gmap string string;
  ge_sourceDigest : string;
  ge_digest : string;
  ge_executors : gmap string (option X);
  ge_closers : list nat }.

Definition validateResolvedGenerationVerb (verb : string) (descriptors : gmap string Descriptor) (executors : gmap string (option X)) : result unit :=
  descriptor ← ofOption (descriptors !! verb) (errorf "production generation verb has no canonical descriptor");
  failIf (bool_decide (de_ResolverID descriptor = "")) (errorf "production generation verb is callback-only and cannot be recovered") ;;
  failIf (match executors !! verb with Some (Some _) => false | _ => true end) (errorf "production generation verb is unresolved").
(** The verbs that the steps of the plans call. *)
Definition stepVerbs (step : Step) : list string :=
  sp_Verb step :: match sp_Compensation step with Some c => [cc_InverseVerb c] | None => [] end.
Definition planVerbs (plans : list Plan) : list string := plans ≫= λ plan, pl_Steps plan ≫= stepVerbs.
Definition checkExecutor (config : GenerationConfig) (verb : string) (executor : option X) : result unit :=
  failIf (match executor with None => true | Some _ => false end) (errorf "generation executor is nil") ;;
  descriptor ← ofOption (cg_ExecutorDescriptors config !! verb) (errorf "generation executor has no canonical descriptor");
  failIf (cg_Production config && isBlank (de_ResolverID descriptor))
    (errorf "production generation executor is callback-only and cannot be recovered").
Definition generationManifest (config : GenerationConfig) (checked : Checked) (environmentDigest : string) : generationDigestManifest :=
  mkManifest (digest checked) environmentDigest (cg_Ruleset config) (cg_Version config) (cg_SourceDigest config)
    (canonicalExecutorDescriptors (cg_ExecutorDescriptors config)) (canonicalStringManifest (cg_FunctionIDs config)).

Definition NewGeneration (config : GenerationConfig) : result Generation :=
  '(checked, artifact) ← ofOption (cg_Checked config) (errorf "generation checked IR is required");
  failIf (bool_decide (digest checked = "")) (errorf "generation checked IR is required") ;;
  failIf (isBlank (cg_Ruleset config) || isBlank (cg_Version config)) (errorf "generation ruleset and version are required") ;;
  environmentDigest ← EnvironmentDigest (cg_Environment config);
  failIf (bool_decide (ra_EnvironmentDigest artifact ≠ environmentDigest)) (errorf "generation environment does not match checked IR") ;;
  allR (λ plan, validateGenerationExpression (pl_Predicate plan)) (ra_Plans artifact) ;;
  failIf (cg_Production config && isBlank (cg_SourceDigest config)) (errorf "production generation source digest is required") ;;
  eachR (λ _ descriptor, descriptorText toLower descriptor ;; Ok tt) (cg_ExecutorDescriptors config) ;;
  eachR (checkExecutor config) (cg_Executors config) ;;
  (if cg_Production config then
     allR (λ verb, validateResolvedGenerationVerb verb (cg_ExecutorDescriptors config) (cg_Executors config)) (planVerbs (ra_Plans artifact))
   else Ok tt) ;;
  data ← ofOption (Marshal (manifestJSON (generationManifest config checked environmentDigest))) (errorf "marshal generation manifest");
  Ok (mkGenerationValue checked artifact (cloneGenerationEnvironment (cg_Environment config)) (cg_Ruleset config) (cg_Version config)
        (cg_ExecutorDescriptors config) (cg_FunctionIDs config) (cg_SourceDigest config) (sha256hex (bytes data))
        (cg_Executors config) (cg_Closers config)).

(** [Environment] of a generation is a further copy. *)
Definition generationEnvironment (generation : Generation) : Environment := cloneGenerationEnvironment (ge_environment generation).

(** ** Closing *)
(** [closeAcquired], [closeAll] and [Generation.Close]: in reverse order. *)
Definition closeAll (closers : list nat) (resources : Resources) : Resources := foldr closeResource resources closers.

(** ** Building from a bundle *)
(** The accessors of a [bundle.SourceBundle]. *)
Record SourceBundle : Type := mkBundle {
  bn_Name : string;
  bn_Version : string;
  bn_Sources : list Source;
  bn_Environment : Environment;
  bn_Executors : gmap string Descriptor;
  bn_Digest : result string }.

(** The loop that resolves the descriptors, with what it has acquired. *)
Fixpoint resolveAll (production : bool) (registry : option (Registry (X := X))) (descriptors : list (string * Descriptor))
    (executors : gmap string (option X)) (closers : list nat) (resources : Resources)
    : result (gmap string (option X) * list nat) * Resources :=
  match descriptors with
  | [] => (Ok (executors, closers), resources)
  | (verbName, descriptor) :: descriptors =>
      let abandon e := (Err e, closeAll closers resources) in
      if production && bool_decide (de_ResolverID descriptor = "") then abandon (errorf "compile generation: checked verb is callback-only")
      else match registry with
      | None => abandon (errorf "compile generation: invocation resolver registry is required")
      | Some _ =>
          match Resolve toLower registry descriptor resources with
          | (Err e, resources) => (Err (mkError (err_is e) ("compile generation: " +:+ err_text e)), closeAll closers resources)
          | (Ok (executor, closer), resources) =>
              resolveAll production registry descriptors (<[verbName := Some executor]> executors)
                (closers ++ match closer with Some n => [n] | None => [] end) resources
          end
      end
  end.
(** What follows the compilation, [checked] being its result. *)
Definition assembleGeneration (bundle : SourceBundle) (checked : Checked * RuleArtifact) (registry : option (Registry (X := X)))
    (functionIDs : gmap string string) (production : bool) (resources : Resources) : result Generation * Resources :=
  let descriptors := bn_Executors bundle in
  if negb (forallb (λ verb, bool_decide (is_Some (descriptors !! verb))) (planVerbs (ra_Plans checked.2)))
  then (Err (errorf "compile generation: checked verb has no invocation descriptor"), resources)
  else match resolveAll production registry (canonicalExecutorDescriptors descriptors) ∅ [] resources with
  | (Err e, resources) => (Err e, resources)
  | (Ok (executors, closers), resources) =>
      match (sourceDigest ← bn_Digest bundle;
             NewGeneration (mkGenerationConfig (Some checked) (bn_Environment bundle) (bn_Name bundle) (bn_Version bundle) descriptors
                              functionIDs sourceDigest executors closers production)) with
      | Err e => (Err (mkError (err_is e) ("compile generation: " +:+ err_text e)), closeAll closers resources)
      | Ok generation => (Ok generation, resources)
      end
  end.
Definition CompileGeneration (compile : SourceBundle → result (Checked * RuleArtifact)) (bundle : option SourceBundle)
    (registry : option (Registry (X := X))) (functionIDs : gmap string string) (production : bool) (resources : Resources)
    : result Generation * Resources :=
  match bundle with
  | None => (Err (errorf "compile generation: source bundle is required"), resources)
  | Some bundle =>
      match compile bundle with
      | Err e => (Err e, resources)
      | Ok checked => assembleGeneration bundle checked registry functionIDs production resources
      end
  end.
End Generations.
