(* ===== verification/GenerationArtifact.v ===== *)
(** * The durable form of a generation
    ([runtime/durable_admission.go], [runtime/artifact_resolver.go], [runtime/generation_view.go])

    The manifest that admission pins with an execution, and the generation that recovery
    rebuilds from it. The strict decoders of its three JSON documents and the protobuf codec
    are arguments. *)

From S2P Require Import Prelude GoText Sha256 Json Ledger Ir Types Env Check Value Eval Admission SourceAst Compiler Descriptor Generation.
From Stdlib Require Import ZArith NArith Ascii String.
Local Open Scope list_scope.

(** ** Writing *)

(** A copied environment: the argument types of a function without arguments are a nil slice. *)
Definition copiedFunctionJSON (c : FunctionContract) : json :=
  JObj [("argument_types", match fc_ArgumentTypes c with [] => JNull | l => stringsJSON l end);
        ("return_type", JStr (fc_ReturnType c)); ("pure", JBool (fc_Pure c)); ("total", JBool (fc_Total c))].
Definition copiedEnvironmentJSON (e : Environment) : json :=
  JObj [("facts", mapOf JStr (env_Facts e)); ("verbs", mapOf verbJSON (env_Verbs e));
        ("functions", mapOf copiedFunctionJSON (env_Functions e)); ("types", mapOf typeJSON (env_Types e))].
(** The JSON tags of the generated [CompilerMetadata]. *)
Definition compilerJSON (compiler : option CompilerMetadata) : json :=
  match compiler with
  | None => JNull
  | Some c =>
      JObj (omitEmpty (bool_decide (cm_Name c = "")) "name" (JStr (cm_Name c))
            ++ omitEmpty (bool_decide (cm_Version c = "")) "version" (JStr (cm_Version c))
            ++ omitEmpty (bool_decide (cm_BuildDigest c = "")) "build_digest" (JStr (cm_BuildDigest c)))
  end.
Definition identityJSON (ruleset version : string) (functionIDs : gmap string string) : json :=
  JObj [("ruleset", JStr ruleset); ("version", JStr version); ("function_ids", mapOf JStr functionIDs)].

Section Artifacts.
  Context (toLower : string → string) {X : Type}.
  #[local] Abbreviation Generation := (Generation (X := X)).
  #[local] Abbreviation Registry := (Registry (X := X)).
  Context (protoSize : RuleArtifact → Z) (unknownFields : RuleArtifact → bool)
    (protoMarshal : RuleArtifact → option string) (protoUnmarshal : string → option RuleArtifact).
  (** [strictArtifactJSON] into an environment, an executor manifest and an identity. *)
  Context (decodeEnvironment : string → result Environment) (decodeExecutors : string → result (list (string * Descriptor)))
    (decodeIdentity : string → result (string * string * gmap string string)).

Definition marshalText (value : json) : result string := ofOption (Marshal value) (errorf "marshal").
Definition executionArtifactForGeneration (generation : Generation) : result ExecutionArtifact :=
  environment ← marshalText (copiedEnvironmentJSON (generationEnvironment generation));
  let entries := canonicalExecutorDescriptors (ge_executorDescriptors generation) in
  allR (λ e : string * Descriptor, descriptorText toLower e.2 ;; Ok tt) entries ;;
  executorManifest ← marshalText (executorsJSON entries);
  compilerMetadata ← marshalText (compilerJSON (ra_Compiler (ge_artifact generation)));
  identity ← marshalText (identityJSON (ge_ruleset generation) (ge_version generation) (ge_functionIDs generation));
  Ok (mkArtifact (ge_digest generation) (digest (ge_checked generation)) (wire (ge_checked generation)) environment
        executorManifest identity (ge_sourceDigest generation) compilerMetadata zeroTime).

(** ** Rebuilding *)
Definition zeroLimits : Limits := mkLimits 0 0 0 0 0 0 0 0 0 0 0 0 0.
Fixpoint resolveEntries (environment : Environment) (registry : option Registry) (entries : list (string * Descriptor))
    (descriptors : gmap string Descriptor) (executors : gmap string (option X)) (closers : list nat) (resources : Resources)
    : result (gmap string Descriptor * gmap string (option X) * list nat) * Resources :=
  match entries with
  | [] => (Ok (descriptors, executors, closers), resources)
  | (name, descriptor) :: entries =>
      if bool_decide (env_Verbs environment !! name = None) then (Err (errorf "executor has no checked contract"), closeAll closers resources)
      else match Resolve toLower registry descriptor resources with
      | (Err e, resources) => (Err (mkError (err_is e) ("resolve verb: " +:+ err_text e)), closeAll closers resources)
      | (Ok (executor, closer), resources) =>
          resolveEntries environment registry entries (<[name := descriptor]> descriptors) (<[name := Some executor]> executors)
            (closers ++ match closer with Some n => [n] | None => [] end) resources
      end
  end.
(** The part before anything is acquired: the environment, the artifact and the entries. *)
Definition decodeArtifact (artifact : ExecutionArtifact) : result (Environment * (Checked * RuleArtifact) * list (string * Descriptor)) :=
  environment ← decodeEnvironment (ar_Environment artifact);
  checked ← Parse protoSize unknownFields protoMarshal protoUnmarshal (ar_IRBytes artifact) environment zeroLimits;
  failIf (bool_decide (digest checked.1 ≠ ar_IRDigest artifact)) (errorf "checked artifact digest mismatch") ;;
  entries ← decodeExecutors (ar_ExecutorManifest artifact);
  Ok (environment, checked, entries).
(** The part after the executors were resolved. *)
Definition rebuild (artifact : ExecutionArtifact) (environment : Environment) (checked : Checked * RuleArtifact)
    (descriptors : gmap string Descriptor) (executors : gmap string (option X)) (closers : list nat) : result Generation :=
  '(ruleset, version, functionIDs) ← decodeIdentity (ar_FunctionManifest artifact);
  generation ← NewGeneration toLower (mkGenerationConfig (Some checked) environment ruleset version descriptors functionIDs
                 (ar_SourceDigest artifact) executors closers true);
  failIf (bool_decide (ge_digest generation ≠ ar_GenerationDigest artifact))
    (errorf "resolved generation digest does not match pinned artifact") ;;
  Ok generation.
Definition ResolveGeneration (registry : option Registry) (artifact : ExecutionArtifact) (resources : Resources)
    : result Generation * Resources :=
  match registry with
  | None => (Err (errorf "artifact invocation resolver registry is not configured"), resources)
  | Some _ =>
      match decodeArtifact artifact with
      | Err e => (Err e, resources)
      | Ok (environment, checked, entries) =>
          match resolveEntries environment registry entries ∅ ∅ [] resources with
          | (Err e, resources) => (Err e, resources)
          | (Ok (descriptors, executors, closers), resources) =>
              match rebuild artifact environment checked descriptors executors closers with
              | Err e => (Err e, closeAll closers resources)
              | Ok generation => (Ok generation, resources)
              end
          end
      end
  end.

(** ** Dry runs *)
  Context (formatFloat : spec_float → string) (matchString : string → string → result bool).
Record PlanEvaluation : Type := mkPlanEvaluation { pe_ID : string; pe_Dialect : Z; pe_Priority : Z; pe_Verbs : list string; pe_Matched : bool }.
Definition planVerbNames (plan : Plan) : list string := sp_Verb <$> pl_Steps plan.
Fixpoint dryRunPlans (ctx : nat → option error) (i : nat) (plans : list Plan) (facts : list (string * any)) : result (list PlanEvaluation) :=
  match plans with
  | [] => Ok []
  | plan :: plans =>
      ctxErr (ctx i) ;;
      matched ← evaluateCheckedPredicate matchString (pl_Predicate plan) facts;
      rest ← dryRunPlans ctx (S i) plans facts;
      Ok (mkPlanEvaluation (pl_Id plan) (pl_SourceDialect plan) (pl_Priority plan) (planVerbNames plan) matched :: rest)
  end.
Definition DryRun (ctx : nat → option error) (generation : option Generation) (closed : bool) (facts : list (string * any))
    : result (list PlanEvaluation) :=
  match generation with
  | None => Err (wrapf ErrBlockedDependency "checked generation is unavailable")
  | Some generation =>
      failIf closed (wrapf ErrBlockedDependency "checked generation is unavailable") ;;
      match normalizedWorkflowFacts formatFloat (generationEnvironment generation) facts with
      | Err e => Err (mkError (ErrInvalidExecuteRequest :: err_is e) (err_text e))
      | Ok effective => dryRunPlans ctx 0 (ra_Plans (ge_artifact generation)) effective
      end
  end.
End Artifacts.
