(* ===== verification/GenerationProps.v ===== *)
(** * Correctness of generations

    A production generation first: the shop artifact with an HTTP executor for each verb, its
    bundle and its resolvers, on which the witnesses are stated. Then canonical descriptors,
    the resources of executors, what a production generation has, what its digest covers, and
    when recovery rebuilds the generation that was pinned. *)

From S2P Require Import Prelude GoText Sha256 Json Identity JsonProofs Ledger Ir Types Env EnvProps Check Value Eval Admission CheckLemmas ArtifactDemo.
From S2P Require Import SourceAst Compiler CompilerProps DataflowProps Descriptor Generation GenerationArtifact.
From Stdlib Require Import ZArith Ascii String NArith Lia.
Local Open Scope list_scope.

Definition shopDescriptor (path : string) : Descriptor :=
  mkDescriptor DescriptorHTTP "http" ("https://shop.example/" +:+ path) [("X-Shop", "1")] [("method", "POST"); ("timeout", "5s")].
Definition shopDescriptors : gmap string Descriptor :=
  {["ship" := shopDescriptor "ship"; "unship" := shopDescriptor "unship"; "notify" := shopDescriptor "notify"]}.
(** Every executor owns a connection. *)
Definition shopRegistry : Registry (X := string) := {["http" := λ _ d, Ok (Some (de_Reference d), true)]}.
(** The resolver of the second verb answers without an executor. *)
Definition brokenRegistry : Registry (X := string) :=
  {["http" := λ r d, Ok (if bool_decide (rs_opened r = 1%nat) then None else Some (de_Reference d), true)]}.
Definition shopBundle : SourceBundle := mkBundle "shop" "1.0.0" [] shopEnvironment shopDescriptors (Ok "source").
Definition shopCompile (_ : SourceBundle) : result (Checked * RuleArtifact) := Ok (shopHandle, shopClone).
Definition shopConfigWith (executors : gmap string (option string)) : GenerationConfig (X := string) :=
  mkGenerationConfig (Some (shopHandle, shopClone)) shopEnvironment "shop" "1.0.0" shopDescriptors ∅ "source" executors [] true.
Definition shopConfig : GenerationConfig (X := string) :=
  shopConfigWith {["ship" := Some "ship"; "unship" := Some "unship"; "notify" := Some "notify"]}.
(** The executors of another process. *)
Definition otherConfig : GenerationConfig (X := string) :=
  shopConfigWith {["ship" := Some "a"; "unship" := Some "b"; "notify" := Some "c"]}.
Definition emptyGeneration : Generation (X := string) :=
  mkGenerationValue (mkChecked "" "" 0 0 0) (mkRuleArtifact 0 None "" []) (mkEnvironment ∅ ∅ ∅ ∅) "" "" ∅ ∅ "" "" ∅ [].
Definition shopGeneration : Generation (X := string) :=
  Eval vm_compute in match NewGeneration ToLower shopConfig with Ok g => g | Err _ => emptyGeneration end.
Definition otherGeneration : Generation (X := string) :=
  Eval vm_compute in match NewGeneration ToLower otherConfig with Ok g => g | Err _ => emptyGeneration end.
Definition emptyPin : ExecutionArtifact := mkArtifact "" "" "" "" "" "" "" "" zeroTime.
Definition shopPin : ExecutionArtifact :=
  Eval vm_compute in match executionArtifactForGeneration ToLower shopGeneration with Ok a => a | Err _ => emptyPin end.

Example shopGeneration_Ok : NewGeneration ToLower shopConfig = Ok shopGeneration.
Proof. vm_compute. reflexivity. Qed.
Example shopPin_Ok : executionArtifactForGeneration ToLower shopGeneration = Ok shopPin.
Proof. vm_compute. reflexivity. Qed.
Example otherGeneration_Ok : NewGeneration ToLower otherConfig = Ok otherGeneration.
Proof. vm_compute. reflexivity. Qed.

(** A verb whose one argument is optional, and a plan that calls it without. *)
Definition pingVerb : VerbContract := mkVerb {["note" := "string"]} (Some []) "void" "" (mkRetryPolicy 0 0 0) "" false.
Definition pingEnvironment : Environment := mkEnvironment ∅ {["ping" := pingVerb]} ∅ ∅.
Definition pingDigest : string := Eval vm_compute in match EnvironmentDigest pingEnvironment with Ok d => d | Err _ => "" end.
Definition pingHash : string := Eval vm_compute in match ContractHash pingVerb with Ok h => h | Err _ => "" end.
Definition pingArtifact : RuleArtifact :=
  mkRuleArtifact FormatVersion (Some (mkCompiler "effectusc" "1.0.0" pingDigest)) pingDigest
    [mkPlan "ping" SOURCE_DIALECT_LIST 0 1 (ExprLiteral (LitBool true)) EXECUTION_POLICY_DURABLE_FAIL_FAST
       [mkIrStep "ping-1" 0 "ping" pingHash [] None None None 0 0]].
Definition pingChecked : result (Checked * RuleArtifact) :=
  Eval vm_compute in Check shopSize shopKnown shopMarshal (Some pingArtifact) pingEnvironment noLimits.
Definition pingHandle : Checked := match pingChecked with Ok r => r.1 | Err _ => mkChecked "" "" 0 0 0 end.
Definition pingClone : RuleArtifact := match pingChecked with Ok r => r.2 | Err _ => pingArtifact end.
Definition pingConfig : GenerationConfig (X := string) :=
  mkGenerationConfig (Some (pingHandle, pingClone)) pingEnvironment "shop" "1.0.0" {["ping" := shopDescriptor "ping"]} ∅ "source"
    {["ping" := Some "ping"]} [] true.
Definition pingGeneration : Generation (X := string) :=
  Eval vm_compute in match NewGeneration ToLower pingConfig with Ok g => g | Err _ => emptyGeneration end.
Definition pingPin : ExecutionArtifact :=
  Eval vm_compute in match executionArtifactForGeneration ToLower pingGeneration with Ok a => a | Err _ => emptyPin end.
Example pingChecked_Ok :
  Check shopSize shopKnown shopMarshal (Some pingArtifact) pingEnvironment noLimits = Ok (pingHandle, pingClone).
Proof. vm_compute. reflexivity. Qed.
Example pingGeneration_Ok : NewGeneration ToLower pingConfig = Ok pingGeneration.
Proof. vm_compute. reflexivity. Qed.
Example pingPin_Ok : executionArtifactForGeneration ToLower pingGeneration = Ok pingPin.
Proof. vm_compute. reflexivity. Qed.

(** ** Canonical descriptors *)
Lemma neq_self (s : string) : bool_decide (s ≠ s) = false.
Proof. apply bool_decide_eq_false_2. naive_solver. Qed.
Section Canonical.
  Context (toLower : string → string).

Definition ordered (previous : option string) (names : list string) : Prop :=
  match previous with Some p => StronglySorted (λ a b, strLt a b = true) (p :: names) | None => StronglySorted (λ a b, strLt a b = true) names end.
Lemma ordered_cons previous name names :
  ordered previous (name :: names) ↔ match previous with Some p => strLt p name = true | None => True end ∧ ordered (Some name) names.
Proof.
  unfold ordered. destruct previous as [p|]; [|naive_solver]. split.
  - intros H. apply StronglySorted_inv in H as [H Hp]. apply Forall_cons in Hp as [Hp _]. done.
  - intros [Hp H]. constructor; [done|]. apply StronglySorted_inv in H as [_ H]. constructor; [done|].
    eapply Forall_impl; [exact H|]. intros x Hx. by eapply strLt_trans.
Qed.
(** Both loops make the same tests; one of them also compares neighbours. *)
Lemma validateValues_spec headers previous seen values :
  validateValues toLower headers previous seen values = Ok tt ↔
  ordered previous values.*1 ∧ ∃ seen', foldR (checkDescriptorName toLower headers) values.*1 seen = Ok seen'.
Proof.
  revert previous seen. induction values as [|[name value] values IH]; intros previous seen.
  { cbn. split; [|done]. intros _. split; [|eauto]. destruct previous; repeat constructor. }
  rewrite fmap_cons, ordered_cons. cbn [validateValues fst foldR]. unfold checkDescriptorName at 1. rewrite !bind_Ok. split.
  - intros ([] & H1%failIf_Ok & H). apply bind_Ok in H as ([] & H2%failIf_Ok & H). apply bind_Ok in H as (seen1 & H3 & H).
    apply IH in H as [Ho [seen' Hs]]. split; [split; [by destruct previous; [apply negb_false_iff|]|done]|].
    exists seen'. apply bind_Ok. exists seen1. split; [|done]. apply bind_Ok. apply orb_false_iff in H1 as [E1 E2]. bool_to_prop.
    apply dec_stable in E2. exists tt. rewrite <-E2. split; [|done]. apply failIf_Ok. rewrite !bool_decide_eq_false_2 by naive_solver. done.
  - intros ([Hp Ho] & seen' & H). apply bind_Ok in H as (seen1 & H1 & H). apply bind_Ok in H1 as ([] & H1%failIf_Ok & H2).
    apply orb_false_iff in H1 as [E1 E2]. bool_to_prop. apply dec_stable in E2. rewrite E2 in E1, H2. exists tt. split.
    { apply failIf_Ok. rewrite !bool_decide_eq_false_2 by naive_solver. done. }
    apply bind_Ok. exists tt. split; [apply failIf_Ok; destruct previous; [by rewrite Hp|done]|]. apply bind_Ok. exists seen1. split; [done|].
    apply IH. eauto.
Qed.
Lemma sorted_keys_unique (l : list (string * string)) :
  StronglySorted (λ a b, strLt a b = true) l.*1 → NoDup l.*1 ∧ sortedKeys (list_to_map (M := gmap string string) l) = l.*1.
Proof.
  intros Hs. assert (NoDup l.*1) as Hn.
  { induction Hs as [|x l' _ IH Hx]; constructor; [|done]. intros Hin. rewrite Forall_forall in Hx. specialize (Hx _ Hin). by rewrite strLt_irrefl in Hx. }
  split; [done|]. apply (StronglySorted_unique_strong (λ a b, strLt a b = true)).
  - intros a b _ _ Hab Hba. apply strLt_asymm in Hab. congruence.
  - apply sortedKeys_strict.
  - done.
  - unfold sortedKeys. rewrite sortedStrings_Permutation. by rewrite map_to_list_to_map.
Qed.
Lemma canonicalDescriptorValues_spec headers m l :
  canonicalDescriptorValues toLower m headers = Ok l ↔
  validateCanonicalDescriptorValues toLower l headers = Ok tt ∧ list_to_map l = m.
Proof.
  unfold canonicalDescriptorValues, validateCanonicalDescriptorValues. rewrite validateValues_spec, bind_Ok. split.
  - intros (seen & Hs & [= <-]). assert (((λ name, (name, default "" (m !! name))) <$> sortedKeys m).*1 = sortedKeys m) as Hf.
    { rewrite <-list_fmap_compose. apply list_fmap_id. }
    rewrite Hf. split; [split; [apply sortedKeys_strict|eauto]|]. apply map_eq. intros k.
    destruct (m !! k) as [v|] eqn:Hk.
    + apply elem_of_list_to_map; [rewrite Hf; unfold sortedKeys; rewrite sortedStrings_Permutation; apply NoDup_fst_map_to_list|].
      apply list_elem_of_fmap. exists k. rewrite Hk. split; [done|]. apply sortedKeys_elem. eauto.
    + apply not_elem_of_list_to_map. rewrite Hf, sortedKeys_elem, Hk. by intros [? ?].
  - intros [[Ho [seen Hs]] <-]. destruct (sorted_keys_unique l Ho) as [Hn Hk]. exists seen. rewrite Hk. split; [done|]. f_equal.
    rewrite <-list_fmap_compose. apply list_eq. intros i. rewrite list_lookup_fmap. destruct (l !! i) as [[k v]|] eqn:Hi; [|done]. cbn. do 2 f_equal.
    rewrite (elem_of_list_to_map_1 _ k v); [done|done|by eapply list_elem_of_lookup_2].
Qed.

Definition specOf (d : Descriptor) : DescriptorSpec :=
  mkDescriptorSpec (de_Type d) (de_ResolverID d) (de_Reference d) (list_to_map (de_Headers d)) (list_to_map (de_Settings d)).
Lemma NewDescriptor_spec spec d : NewDescriptor toLower spec = Ok d ↔
  validate toLower d = Ok tt ∧ specOf d = mkDescriptorSpec (ds_Type spec) (TrimSpace (ds_ResolverID spec)) (TrimSpace (ds_Reference spec)) (ds_Headers spec) (ds_Settings spec).
Proof.
  unfold NewDescriptor, validate, specOf. split.
  - intros H. inv_res. cbn. repeat match goal with E : canonicalDescriptorValues _ _ _ = Ok _ |- _ => apply canonicalDescriptorValues_spec in E as [? <-] end.
    rewrite !TrimSpace_idemp, !neq_self. cbn.
    unfold validateCanonicalDescriptorValues in *.
    repeat match goal with E : _ = Ok () |- _ => rewrite E; cbn; clear E | E : _ && _ = false |- _ => rewrite E; cbn; clear E end. done.
  - intros [H Hs]. destruct d as [t r f h st]. cbn in *. injection Hs as -> -> -> Hh Hst. apply bind_Ok in H as ([] & -> & H).
    apply bind_Ok in H as ([] & _ & H). apply bind_Ok in H as ([] & -> & H). apply bind_Ok in H as ([] & H1 & H2). cbn.
    rewrite (proj2 (canonicalDescriptorValues_spec true _ h)) by done. cbn. by rewrite (proj2 (canonicalDescriptorValues_spec false _ st)).
Qed.

(** One descriptor has one canonical form. [NewDescriptor] accepts a specification
    exactly when some descriptor that passes [validate] has its type, its trimmed identifiers
    and its headers and settings, and then it returns that descriptor; so a descriptor is
    valid exactly when it is what [NewDescriptor] builds from its own contents, and two valid
    descriptors with the same contents are equal, whatever order a decoder read them in. *)
Theorem descriptors_are_canonical d d' spec :
  (validate toLower d = Ok tt ↔ NewDescriptor toLower (specOf d) = Ok d) ∧
  (NewDescriptor toLower spec = Ok d ↔
     validate toLower d = Ok tt ∧
     specOf d = mkDescriptorSpec (ds_Type spec) (TrimSpace (ds_ResolverID spec)) (TrimSpace (ds_Reference spec)) (ds_Headers spec) (ds_Settings spec)) ∧
  (validate toLower d = Ok tt → validate toLower d' = Ok tt → specOf d = specOf d' → d = d').
Proof.
  assert (∀ d0, validate toLower d0 = Ok tt ↔ NewDescriptor toLower (specOf d0) = Ok d0) as Hv.
  { intros d0. rewrite NewDescriptor_spec. split; [|by intros [? _]]. intros H. split; [done|]. unfold validate in H.
    apply bind_Ok in H as ([] & _ & H). apply bind_Ok in H as ([] & H%failIf_Ok & _). apply orb_false_iff in H as [E1 E2]. bool_to_prop.
    apply dec_stable in E1, E2. unfold specOf. cbn. by rewrite <-E1, <-E2. }
  split; [apply Hv|]. split; [apply NewDescriptor_spec|]. intros H%Hv H'%Hv E. rewrite E in H. congruence.
Qed.
End Canonical.

(** The same headers in another order: one canonical descriptor. *)
Lemma descriptors_are_canonical_witness :
  NewDescriptor ToLower (mkDescriptorSpec DescriptorHTTP " http " "https://shop.example/ship" {["X-Shop" := "1"]} {["timeout" := "5s"; "method" := "POST"]})
  = Ok (shopDescriptor "ship") ∧ (∀ d, validate ToLower d = Ok tt → specOf d = specOf (shopDescriptor "ship") → d = shopDescriptor "ship").
Proof.
  split.
  - apply (descriptors_are_canonical ToLower (shopDescriptor "ship") (shopDescriptor "ship")). split; [vm_compute; reflexivity|].
    unfold specOf. f_equal; try (vm_compute; reflexivity); apply map_eq; intros k; cbn; apply insert_insert_ne || done; done.
  - intros d Hd Hs. apply (descriptors_are_canonical ToLower d (shopDescriptor "ship") (specOf d)); [done|vm_compute; reflexivity|done].
Defined.

(** ** Resources *)

(** The resources opened since [before], in order. *)
Definition openedSince (before after : Resources) : list nat := seq (rs_opened before) (rs_opened after - rs_opened before).
(** They are all open and held, or all closed, each once. *)
Definition held (before after : Resources) (closers : list nat) : Prop :=
  rs_closed after = rs_closed before ∧ rs_opened before ≤ rs_opened after ∧ closers = openedSince before after.
Definition settled (before after : Resources) : Prop :=
  rs_opened before ≤ rs_opened after ∧ ∃ closed, rs_closed after = rs_closed before ++ closed ∧ closed ≡ₚ openedSince before after.

Lemma closeAll_spec closers r : rs_opened (closeAll closers r) = rs_opened r ∧ rs_closed (closeAll closers r) = rs_closed r ++ rev closers.
Proof.
  unfold closeAll. induction closers as [|c closers [IH1 IH2]]; cbn; [by rewrite app_nil_r|]. split; [done|]. by rewrite IH2, app_assoc.
Qed.
Lemma held_start r : held r r [].
Proof. unfold held, openedSince. by rewrite Nat.sub_diag. Qed.
Lemma settled_start r : settled r r.
Proof. split; [done|]. exists []. unfold openedSince. by rewrite app_nil_r, Nat.sub_diag. Qed.
Lemma held_close before r closers : held before r closers → settled before (closeAll closers r).
Proof.
  intros (Hc & Ho & ->). destruct (closeAll_spec (openedSince before r) r) as [E1 E2]. split; [by rewrite E1|].
  exists (rev (openedSince before r)). rewrite E2, Hc. split; [done|]. unfold openedSince at 2. rewrite E1. fold (openedSince before r). by rewrite <-Permutation_rev.
Qed.
Lemma openedSince_S before r r' : rs_opened before ≤ rs_opened r → rs_opened r' = S (rs_opened r) →
  openedSince before r' = openedSince before r ++ [rs_opened r].
Proof.
  unfold openedSince. intros Ho ->. replace (S (rs_opened r) - rs_opened before) with (rs_opened r - rs_opened before + 1) by lia.
  rewrite seq_app. by replace (rs_opened before + (rs_opened r - rs_opened before)) with (rs_opened r) by lia.
Qed.

Section Owned.
  Context (toLower : string → string) {X : Type}.

Lemma Resolve_held registry descriptor before closers r res r' :
  held before r closers → Resolve toLower (X := X) registry descriptor r = (res, r') →
  match res with
  | Ok (_, closer) => held before r' (closers ++ match closer with Some n => [n] | None => [] end)
  | Err _ => settled before (closeAll closers r')
  end.
Proof.
  intros Hh. pose proof (held_close _ _ _ Hh) as Hclose. unfold Resolve.
  destruct registry as [registry|]; [|by intros [= <- <-]]. destruct (validate _ _); [|by intros [= <- <-]].
  case_bool_decide; [by intros [= <- <-]|]. destruct (registry !! _) as [resolver|]; [|by intros [= <- <-]].
  destruct (resolver _ _) as [[[x|] [|]]|]; intros [= <- <-]; [| |..|done].
  - destruct Hh as (Hc & Ho & ->). split_and!; [done|cbn; lia|]. symmetry. by apply (openedSince_S before r).
  - by rewrite app_nil_r.
  - destruct Hh as (Hc & Ho & ->). destruct (closeAll_spec (openedSince before r) (closeResource (rs_opened r) (mkResources (S (rs_opened r)) (rs_closed r)))) as [E1 E2].
    split; [rewrite E1; cbn; lia|]. exists ([rs_opened r] ++ rev (openedSince before r)). split.
    { rewrite E2. cbn [closeResource rs_closed]. by rewrite Hc, <-app_assoc. }
    unfold openedSince at 2. rewrite E1. change (seq _ _) with (openedSince before (mkResources (S (rs_opened r)) (rs_closed r))).
    rewrite (openedSince_S before r (mkResources (S (rs_opened r)) (rs_closed r))) by done. rewrite <-Permutation_rev. apply Permutation_app_comm.
  - done.
Qed.
Lemma resolveAll_held production registry descriptors executors closers before r res r' :
  held before r closers → resolveAll toLower (X := X) production registry descriptors executors closers r = (res, r') →
  match res with Ok (_, closers') => held before r' closers' | Err _ => settled before r' end.
Proof.
  revert executors closers r. induction descriptors as [|[verb descriptor] descriptors IH]; cbn; intros executors closers r Hh H.
  { by injection H as <- <-. }
  pose proof (held_close _ _ _ Hh) as Hclose. destruct (_ && _); [by injection H as <- <-|]. destruct registry as [registry|]; [|by injection H as <- <-].
  destruct (Resolve _ _ _ _) as [[[x closer]|e] r1] eqn:Hr; apply (Resolve_held _ _ _ _ _ _ _ Hh) in Hr; [exact (IH _ _ _ Hr H)|by injection H as <- <-].
Qed.
Lemma resolveEntries_held environment registry entries descriptors executors closers before r res r' :
  held before r closers → resolveEntries toLower (X := X) environment registry entries descriptors executors closers r = (res, r') →
  match res with Ok (_, closers') => held before r' closers' | Err _ => settled before r' end.
Proof.
  revert descriptors executors closers r. induction entries as [|[name descriptor] entries IH]; cbn; intros descriptors executors closers r Hh H.
  { by injection H as <- <-. }
  pose proof (held_close _ _ _ Hh) as Hclose. case_bool_decide; [by injection H as <- <-|].
  destruct (Resolve _ _ _ _) as [[[x closer]|e] r1] eqn:Hr; apply (Resolve_held _ _ _ _ _ _ _ Hh) in Hr; [exact (IH _ _ _ _ Hr H)|by injection H as <- <-].
Qed.
Lemma NewGeneration_closers config g : NewGeneration toLower (X := X) config = Ok g → ge_closers g = cg_Closers config.
Proof.
  unfold NewGeneration. intros H. apply bind_Ok in H as ([checked artifact] & _ & H).
  repeat (apply bind_Ok in H as (? & _ & H)). by injection H as <-.
Qed.
End Owned.

(** C31: what executors own is never leaked and never closed twice. Whatever the resolvers
    answer, when the build of a generation from a bundle, or its reconstruction from a pinned
    artifact, fails at any point, each resource opened on the way has been closed exactly
    once; when it succeeds none has been closed, the generation owns exactly those that were
    opened, in the order of acquisition, and closing it closes each of them once, the last
    one first. *)
Theorem generation_resources_are_accounted toLower (X : Type) before :
  let owned (r : result (Generation (X := X))) after :=
    match r with
    | Err _ => settled before after
    | Ok g => held before after (ge_closers g) ∧ settled before (closeAll (ge_closers g) after) ∧
              rs_closed (closeAll (ge_closers g) after) = rs_closed after ++ rev (ge_closers g)
    end in
  (∀ compile bundle registry functionIDs production r after,
     CompileGeneration toLower compile bundle registry functionIDs production before = (r, after) → owned r after) ∧
  (∀ protoSize unknownFields protoMarshal protoUnmarshal decodeEnvironment decodeExecutors decodeIdentity registry artifact r after,
     ResolveGeneration toLower protoSize unknownFields protoMarshal protoUnmarshal decodeEnvironment decodeExecutors decodeIdentity
       registry artifact before = (r, after) → owned r after).
Proof.
  intros owned. assert (∀ g after, held before after (ge_closers g) → owned (Ok g) after) as Hok.
  { intros g after Hh. split; [done|]. split; [by apply held_close|]. apply closeAll_spec. }
  split.
  - intros compile bundle registry functionIDs production r after H. unfold CompileGeneration in H.
    destruct bundle as [bundle|]; [|injection H as <- <-; apply settled_start]. destruct (compile bundle) as [checked|e]; [|injection H as <- <-; apply settled_start].
    unfold assembleGeneration in H. destruct (negb _); [injection H as <- <-; apply settled_start|].
    destruct (resolveAll _ _ _ _ _ _ _) as [[[executors closers]|e] r1] eqn:Hr; apply (resolveAll_held _ _ _ _ _ _ _ _ _ _ (held_start before)) in Hr; [|by injection H as <- <-].
    destruct (bn_Digest bundle ≫= _) as [g|e] eqn:Hg; injection H as <- <-; [|by apply held_close].
    apply Hok. apply bind_Ok in Hg as (d & _ & Hg). apply NewGeneration_closers in Hg. by rewrite Hg.
  - intros protoSize unknownFields protoMarshal protoUnmarshal decodeEnvironment decodeExecutors decodeIdentity registry artifact r after H.
    unfold ResolveGeneration in H. destruct registry as [registry|]; [|injection H as <- <-; apply settled_start].
    destruct (decodeArtifact _ _ _ _ _ _ _) as [[[environment checked] entries]|e]; [|injection H as <- <-; apply settled_start].
    destruct (resolveEntries _ _ _ _ _ _ _ _) as [[[[descriptors executors] closers]|e] r1] eqn:Hr;
      apply (resolveEntries_held _ _ _ _ _ _ _ _ _ _ _ (held_start before)) in Hr; [|by injection H as <- <-].
    destruct (rebuild _ _ _ _ _ _ _ _) as [g|e] eqn:Hg; injection H as <- <-; [|by apply held_close].
    apply Hok. unfold rebuild in Hg. apply bind_Ok in Hg as ([[ruleset version] functionIDs] & _ & Hg). apply bind_Ok in Hg as (g' & Hg' & Hg).
    apply bind_Ok in Hg as (? & _ & [= <-]). apply NewGeneration_closers in Hg'. by rewrite Hg'.
Qed.
(** The second of three executors cannot be had: the two connections that were opened are
    closed again. With a registry that has them all, three are open. *)
Lemma generation_resources_are_accounted_witness :
  let before := mkResources 0 [] in
  let build registry := CompileGeneration ToLower shopCompile (Some shopBundle) (Some registry) ∅ true before in
  (∃ e, build brokenRegistry = (Err e, mkResources 2 [1%nat; 0%nat]) ∧ settled before (mkResources 2 [1%nat; 0%nat])) ∧
  (∃ g, build shopRegistry = (Ok g, mkResources 3 []) ∧ ge_closers g = [0%nat; 1%nat; 2%nat] ∧ held before (mkResources 3 []) (ge_closers g)).
Proof.
  intros before build. split; subst before build; cbv beta.
  - destruct (CompileGeneration ToLower shopCompile (Some shopBundle) (Some brokenRegistry) ∅ true (mkResources 0 [])) as [res after] eqn:E.
    pose proof (proj1 (generation_resources_are_accounted ToLower string (mkResources 0 [])) shopCompile (Some shopBundle) (Some brokenRegistry) ∅ true res after E) as H.
    vm_compute in E. injection E as <- <-. eexists. split; [reflexivity|exact H].
  - destruct (CompileGeneration ToLower shopCompile (Some shopBundle) (Some shopRegistry) ∅ true (mkResources 0 [])) as [res after] eqn:E.
    pose proof (proj1 (generation_resources_are_accounted ToLower string (mkResources 0 [])) shopCompile (Some shopBundle) (Some shopRegistry) ∅ true res after E) as H.
    vm_compute in E. injection E as <- <-. eexists. split; [reflexivity|]. split; [reflexivity|exact (proj1 H)].
Defined.
