(* ===== verification/GenerationRecovery.v ===== *)
(** * Recovery of generations

    What the digest of a generation covers, which production generations can run, and when
    recovery rebuilds from a pinned artifact the generation that admission pinned. *)

From S2P Require Import Prelude GoText Sha256 Json JsonProofs Identity Ledger Ir Types Env EnvProps Check.
From S2P Require Import CheckLemmas Value Eval Admission ArtifactDemo ArtifactProps SourceAst Compiler CompilerProps.
From S2P Require Import Descriptor Generation GenerationArtifact GenerationProps.
From Stdlib Require Import ZArith NArith Ascii String Lia.
Local Open Scope list_scope.

(** ** Production generations *)

Fixpoint callFree (expression : Expression) : bool :=
  match expression with
  | ExprCall _ _ | ExprNil => false
  | ExprUnary _ operand => callFree operand
  | ExprBinary _ l r => callFree l && callFree r
  | _ => true
  end.
Lemma validateGenerationExpression_spec e : validateGenerationExpression e = Ok tt ↔ callFree e = true.
Proof.
  induction e as [| | | |op e IH|op l IHl r IHr|]; cbn; try done. rewrite bind_Ok, andb_true_iff, <-IHl, <-IHr. split.
  - by intros ([] & ? & ?).
  - intros [? ?]. by exists tt.
Qed.

Section Production.
  Context (toLower : string → string) {X : Type}.

(** What [NewGeneration] requires of its configuration. *)
Definition runnable (descriptors : gmap string Descriptor) (executors : gmap string (option X)) (verb : string) : Prop :=
  ∃ d x, descriptors !! verb = Some d ∧ validate toLower d = Ok tt ∧ de_ResolverID d ≠ "" ∧ executors !! verb = Some (Some x).
Definition sound (config : GenerationConfig (X := X)) (checked : Checked) (artifact : RuleArtifact) (environmentDigest : string) : Prop :=
  cg_Checked config = Some (checked, artifact) ∧ digest checked ≠ "" ∧ isBlank (cg_Ruleset config) = false ∧ isBlank (cg_Version config) = false ∧
  EnvironmentDigest (cg_Environment config) = Ok environmentDigest ∧ ra_EnvironmentDigest artifact = environmentDigest ∧
  (∀ plan, plan ∈ ra_Plans artifact → callFree (pl_Predicate plan) = true) ∧
  (∀ verb d, cg_ExecutorDescriptors config !! verb = Some d → validate toLower d = Ok tt) ∧
  (∀ verb x, cg_Executors config !! verb = Some x → is_Some x ∧ ∃ d, cg_ExecutorDescriptors config !! verb = Some d ∧
     (cg_Production config = true → isBlank (de_ResolverID d) = false)) ∧
  (cg_Production config = true → isBlank (cg_SourceDigest config) = false ∧
     ∀ verb, verb ∈ planVerbs (ra_Plans artifact) → runnable (cg_ExecutorDescriptors config) (cg_Executors config) verb).
(** The value it then returns. *)
Definition generationOf (config : GenerationConfig (X := X)) (checked : Checked) (artifact : RuleArtifact) (environmentDigest : string) : Generation (X := X) :=
  mkGenerationValue checked artifact (cloneGenerationEnvironment (cg_Environment config)) (cg_Ruleset config) (cg_Version config)
    (cg_ExecutorDescriptors config) (cg_FunctionIDs config) (cg_SourceDigest config)
    (sha256hex (jsonText (manifestJSON (generationManifest config checked environmentDigest)))) (cg_Executors config) (cg_Closers config).

Lemma supported_descriptor d : supported (descriptorJSON d) = true.
Proof.
  assert (∀ l, forallb supported (kvJSON <$> l) = true) as Hk by (intros l; induction l; done).
  unfold descriptorJSON, omitEmpty. cbn. repeat case_bool_decide; cbn; by rewrite ?Hk.
Qed.
Lemma supported_manifest m : supported (manifestJSON m) = true.
Proof.
  cbn. apply andb_true_iff. split; [|apply andb_true_iff; split; [|done]]; apply forallb_forall; intros v Hv; apply list_elem_of_In, list_elem_of_fmap in Hv as ([name d] & -> & _); [|done].
  cbn -[descriptorJSON]. by rewrite supported_descriptor.
Qed.
Lemma descriptorText_Ok d : (descriptorText toLower d ;; Ok tt) = Ok tt ↔ validate toLower d = Ok tt.
Proof.
  unfold descriptorText, Marshal. rewrite supported_descriptor. destruct (validate toLower d) as [[]|]; done.
Qed.
Lemma validateResolved_Ok verb descriptors executors :
  (∀ d, descriptors !! verb = Some d → validate toLower d = Ok tt) →
  validateResolvedGenerationVerb (X := X) verb descriptors executors = Ok tt ↔ runnable descriptors executors verb.
Proof.
  intros Hv. unfold validateResolvedGenerationVerb, runnable. rewrite bind_Ok. split.
  - intros (d & Hd%ofOption_Ok & H). apply bind_Ok in H as ([] & H1%failIf_Ok & H2%failIf_Ok). bool_to_prop.
    destruct (executors !! verb) as [[x|]|] eqn:E; [|done..]. exists d, x. auto.
  - intros (d & x & Hd & _ & Hr & Hx). exists d. rewrite Hd, Hx, bool_decide_eq_false_2 by done. done.
Qed.
Lemma checkExecutor_Ok config verb x :
  checkExecutor (X := X) config verb x = Ok tt ↔
  is_Some x ∧ ∃ d, cg_ExecutorDescriptors config !! verb = Some d ∧ (cg_Production config = true → isBlank (de_ResolverID d) = false).
Proof.
  unfold checkExecutor. rewrite bind_Ok. split.
  - intros ([] & H%failIf_Ok & H'). apply bind_Ok in H' as (d & Hd%ofOption_Ok & H2%failIf_Ok). split; [by destruct x|]. exists d. split; [done|].
    intros Hp. by rewrite Hp in H2.
  - intros [[x' ->] (d & Hd & Hp)]. exists tt. split; [done|]. rewrite Hd. cbn. destruct (cg_Production config); [by rewrite Hp|done].
Qed.

Lemma NewGeneration_Ok config g : NewGeneration toLower config = Ok g ↔
  ∃ checked artifact environmentDigest, sound config checked artifact environmentDigest ∧ g = generationOf config checked artifact environmentDigest.
Proof.
  unfold NewGeneration, sound, generationOf, Marshal. rewrite bind_Ok. split.
  - intros ([checked artifact] & Hc%ofOption_Ok & H). apply bind_Ok in H as ([] & H1%failIf_Ok & H). apply bind_Ok in H as ([] & H2%failIf_Ok & H).
    apply bind_Ok in H as (ed & He & H). apply bind_Ok in H as ([] & H3%failIf_Ok & H). apply bind_Ok in H as ([] & H4%allR_Ok & H).
    apply bind_Ok in H as ([] & H5%failIf_Ok & H). apply bind_Ok in H as ([] & H6 & H). apply bind_Ok in H as ([] & H7 & H).
    apply bind_Ok in H as ([] & H8 & H). rewrite supported_manifest in H. injection H as <-. rewrite bytes_ofBytes.
    rewrite eachR_Ok in H6. rewrite eachR_Ok in H7. setoid_rewrite descriptorText_Ok in H6. setoid_rewrite checkExecutor_Ok in H7. apply orb_false_iff in H2 as [H2 H2']. bool_to_prop. apply dec_stable in H3.
    rewrite Forall_forall in H4. setoid_rewrite validateGenerationExpression_spec in H4.
    exists checked, artifact, ed. split_and!; try done. intros Hp. rewrite Hp in H5, H8. split; [done|]. rewrite allR_Ok, Forall_forall in H8. intros verb Hv.
    apply validateResolved_Ok; eauto.
  - intros (checked & artifact & ed & (Hc & H1 & H2 & H2' & He & H3 & H4 & H6 & H7 & H8) & ->). exists (checked, artifact). split; [by apply ofOption_Ok|].
    apply bind_Ok. exists tt. split; [apply failIf_Ok; by apply bool_decide_eq_false|].
    apply bind_Ok. exists tt. split; [by rewrite H2, H2'|]. apply bind_Ok. exists ed. split; [done|].
    apply bind_Ok. exists tt. split; [apply failIf_Ok, bool_decide_eq_false; naive_solver|].
    apply bind_Ok. exists tt. split; [apply allR_Ok, Forall_forall; intros plan Hp; apply validateGenerationExpression_spec; auto|].
    apply bind_Ok. exists tt. split; [destruct (cg_Production config); [|done]; by rewrite (proj1 (H8 eq_refl))|].
    apply bind_Ok. exists tt. split; [apply eachR_Ok; intros k d Hd; apply descriptorText_Ok; eauto|].
    apply bind_Ok. exists tt. split; [apply eachR_Ok; intros k d Hd; apply checkExecutor_Ok; eauto|].
    apply bind_Ok. exists tt. split.
    { destruct (cg_Production config); [|done]. apply allR_Ok, Forall_forall. intros verb Hv. apply validateResolved_Ok; [eauto|]. by apply (H8 eq_refl). }
    rewrite supported_manifest. cbn [ofOption mbind result_bind]. by rewrite bytes_ofBytes.
Qed.

(** A production generation can run and can be recovered. When [NewGeneration] accepts a
    production configuration, its artifact was checked against exactly its environment, no
    predicate calls a function, and every verb that a step calls or that compensates a step
    has a valid descriptor that names a resolver, and an executor; a configuration that lacks
    any of this is refused. *)
Theorem production_generations_can_run (config : GenerationConfig (X := X)) checked artifact :
  cg_Production config = true → cg_Checked config = Some (checked, artifact) →
  let ready :=
    EnvironmentDigest (cg_Environment config) = Ok (ra_EnvironmentDigest artifact) ∧
    ∀ plan, plan ∈ ra_Plans artifact → callFree (pl_Predicate plan) = true ∧
      ∀ step verb, step ∈ pl_Steps plan → verb = sp_Verb step ∨ (∃ c, sp_Compensation step = Some c ∧ verb = cc_InverseVerb c) →
        runnable (cg_ExecutorDescriptors config) (cg_Executors config) verb in
  (∀ g, NewGeneration toLower config = Ok g →
     ready ∧ ge_executors g = cg_Executors config ∧ ge_executorDescriptors g = cg_ExecutorDescriptors config ∧ ge_artifact g = artifact) ∧
  (~ ready → ∃ e, NewGeneration toLower config = Err e).
Proof.
  intros Hp Hc ready.
  assert (∀ g, NewGeneration toLower config = Ok g →
     ready ∧ ge_executors g = cg_Executors config ∧ ge_executorDescriptors g = cg_ExecutorDescriptors config ∧ ge_artifact g = artifact) as H.
  { intros g (c & a & ed & Hs & ->)%NewGeneration_Ok. destruct Hs as (E & _ & _ & _ & He & Hd & Hcalls & _ & _ & Hverbs). rewrite Hc in E. injection E as <- <-.
    split; [|done]. split; [by rewrite He, Hd|]. intros plan Hplan. split; [by apply Hcalls|]. intros step verb Hstep Hv. apply (Hverbs Hp).
    unfold planVerbs. apply list_elem_of_bind. exists plan. split; [|done]. apply list_elem_of_bind. exists step. split; [|done]. unfold stepVerbs.
    destruct Hv as [->|(comp & -> & ->)]; [by left|]. right. by left. }
  split; [exact H|]. intros Hn. destruct (NewGeneration toLower config) as [g|e]; [|eauto]. destruct Hn. by apply (H g).
Qed.
End Production.

Lemma production_generations_can_run_witness :
  (∃ g, NewGeneration ToLower shopConfig = Ok g) ∧ runnable ToLower (cg_ExecutorDescriptors shopConfig) (cg_Executors shopConfig) "unship".
Proof.
  split; [exists shopGeneration; exact shopGeneration_Ok|].
  refine (proj2 (proj2 (proj1 (proj1 (production_generations_can_run ToLower shopConfig shopHandle shopClone eq_refl eq_refl) shopGeneration shopGeneration_Ok))
    (default auditPlan (ra_Plans shopClone !! 0%nat)) _) (default shipStep ((ra_Plans shopClone ≫= pl_Steps) !! 0%nat)) "unship" _ _).
  - vm_compute. left.
  - vm_compute. left.
  - right. eexists. split; vm_compute; reflexivity.
Defined.

(** ** What the digest covers *)




(** ** The environment that is pinned *)


Lemma clone_clone environment : cloneGenerationEnvironment (cloneGenerationEnvironment environment) = cloneGenerationEnvironment environment.
Proof.
  unfold cloneGenerationEnvironment. cbn. f_equal. rewrite <-map_fmap_compose. apply map_fmap_ext. intros name c _. unfold cloneVerb. cbn.
  by destruct (vc_RequiredArgs c) as [[|]|].
Qed.

(** ** Resolving what was pinned *)
Section Resolving.
  Context (toLower : string → string) {X : Type}.


End Resolving.

(** ** The round trip *)
Section Rebuilding.
  Context (toLower : string → string) {X : Type}.
  Context (protoSize : RuleArtifact → Z) (unknownFields : RuleArtifact → bool)
    (protoMarshal : RuleArtifact → option string) (protoUnmarshal : string → option RuleArtifact).
  Context (decodeEnvironment : string → result Environment) (decodeExecutors : string → result (list (string * Descriptor)))
    (decodeIdentity : string → result (string * string * gmap string string)).

(** The decoders read back what was written for this generation. *)
Definition readsBack (g : Generation (X := X)) (pinned : ExecutionArtifact) : Prop :=
  decodeEnvironment (ar_Environment pinned) = Ok (generationEnvironment g) ∧
  decodeExecutors (ar_ExecutorManifest pinned) = Ok (canonicalExecutorDescriptors (ge_executorDescriptors g)) ∧
  decodeIdentity (ar_FunctionManifest pinned) = Ok (ge_ruleset g, ge_version g, ge_functionIDs g).

Lemma pinned_fields (g : Generation (X := X)) pinned : executionArtifactForGeneration toLower g = Ok pinned →
  ar_GenerationDigest pinned = ge_digest g ∧ ar_IRDigest pinned = digest (ge_checked g) ∧ ar_IRBytes pinned = wire (ge_checked g) ∧
  ar_SourceDigest pinned = ge_sourceDigest g.
Proof. unfold executionArtifactForGeneration. intros H. do 5 (apply bind_Ok in H as (? & _ & H)). by injection H as <-. Qed.



Lemma Parse_environment data environment limits a c :
  Parse protoSize unknownFields protoMarshal protoUnmarshal data environment limits = Ok c → protoUnmarshal data = Some a →
  EnvironmentDigest environment = Ok (ra_EnvironmentDigest a).
Proof.
  unfold Parse. intros H Hu. apply bind_Ok in H as (l & _ & H). apply bind_Ok in H as ([] & _ & H). rewrite Hu in H. cbn in H. destruct c as [c clone].
  apply Check_Ok in H as (l' & a' & e & s & w & _ & [= <-] & _ & _ & He & Hc & _). unfold check in Hc. inv_check.
  match goal with E : EnvironmentDigest e = Ok _ |- _ => rename E into Hd end. unfold EnvironmentDigest in Hd |- *. rewrite (normalizeEnvironment_idem _ _ He) in Hd.
  rewrite He, Hd. f_equal. bool_to_prop. symmetry. by apply dec_stable.
Qed.
(** C33: a pinned environment that lost something blocks recovery. When the copy of the
    environment that a generation keeps has another digest than the environment it was built
    for, the artifact that is pinned for its executions is refused by every recovery, whatever
    the registry; nothing had refused the generation. The witness has such a generation: a
    verb with an optional argument only, whose empty [RequiredArgs] the copy turns into nil,
    that is, into a requirement of every argument. *)
Theorem lost_optional_arguments_block_recovery (config : GenerationConfig (X := X)) checked artifact g pinned :
  cg_Checked config = Some (checked, artifact) → protoUnmarshal (wire checked) = Some artifact →
  NewGeneration toLower config = Ok g → executionArtifactForGeneration toLower g = Ok pinned → readsBack g pinned →
  EnvironmentDigest (cloneGenerationEnvironment (cg_Environment config)) ≠ EnvironmentDigest (cg_Environment config) →
  ∀ (registry : option (Registry (X := X))) r, ∃ e r', ResolveGeneration toLower protoSize unknownFields protoMarshal protoUnmarshal decodeEnvironment decodeExecutors decodeIdentity
    registry pinned r = (Err e, r').
Proof.
  intros Hcfg Hu (c & a & ed & Hs & ->)%NewGeneration_Ok Hpin (Henv & _) Hlost registry r. destruct Hs as (E & _ & _ & _ & He & Hd & _). rewrite Hcfg in E. injection E as <- <-.
  apply pinned_fields in Hpin as (_ & _ & P3 & _). unfold ResolveGeneration, decodeArtifact. destruct registry as [registry|]; [|eauto].
  rewrite Henv. cbn [mbind result_bind]. unfold generationEnvironment. cbn [generationOf ge_environment]. rewrite clone_clone, P3. cbn [generationOf ge_checked].
  destruct (Parse _ _ _ _ _ _ _) as [p|e] eqn:Hp; [|cbn; eauto]. eapply Parse_environment in Hp; [|exact Hu]. congruence.
Qed.
End Rebuilding.

(** Decoders that know the one text that was written. *)
Definition knows {A} (text : string) (value : A) (given : string) : result A :=
  if bool_decide (given = text) then Ok value else Err (errorf "decode").
Lemma knows_text {A} text (value : A) : knows text value text = Ok value.
Proof. unfold knows. by rewrite bool_decide_eq_true_2. Qed.

Lemma lost_optional_arguments_block_recovery_witness :
  NewGeneration ToLower pingConfig = Ok pingGeneration ∧ executionArtifactForGeneration ToLower pingGeneration = Ok pingPin ∧
  ∃ e r', ResolveGeneration ToLower shopSize shopKnown shopMarshal (λ _, Some pingClone) (knows (ar_Environment pingPin) (generationEnvironment pingGeneration))
    (knows (ar_ExecutorManifest pingPin) (canonicalExecutorDescriptors (ge_executorDescriptors pingGeneration)))
    (knows (ar_FunctionManifest pingPin) (ge_ruleset pingGeneration, ge_version pingGeneration, ge_functionIDs pingGeneration))
    (Some shopRegistry) pingPin (mkResources 0 []) = (Err e, r').
Proof.
  split; [exact pingGeneration_Ok|]. split; [exact pingPin_Ok|].
  apply (lost_optional_arguments_block_recovery ToLower shopSize shopKnown shopMarshal (λ _, Some pingClone) _ _ _ pingConfig pingHandle pingClone pingGeneration pingPin);
    [reflexivity|reflexivity|exact pingGeneration_Ok|exact pingPin_Ok|split_and!; apply knows_text|by vm_compute].
Defined.
