(* ===== verification/HttpExecutor.v ===== *)
(** * Executors behind HTTP ([invocation/http.go], [executorhttp/handler.go])

    Both sides of the protocol by which a worker calls a business executor: the client that
    writes an invocation as a request and classifies the response, and the endpoint that
    reads the request back, calls the business handler and writes its outcome. The network
    is the function [send]; times are written and read by [formatTime] and [parseTime], and
    [decodeGrants] is [json.Unmarshal] into the fencing grants. *)

From S2P Require Import Prelude GoText Sha256 Json Workflow Value Admission Check Dispatcher GoPath Descriptor.
From stdpp Require Import pretty.
From Stdlib Require Import ZArith NArith Ascii String Floats.SpecFloat.
Local Open Scope list_scope.
Local Open Scope Z_scope.

(** ** Headers *)

(** [textproto.CanonicalMIMEHeaderKey]: the bytes of a token, and the spelling with an upper
    case letter at the start and after each dash. A key with another byte is left alone. *)
Definition tokenByte (a : ascii) : bool :=
  byteIn 48 57 a || byteIn 65 90 a || byteIn 97 122 a
  || bool_decide (byteN a ∈ [33; 35; 36; 37; 38; 39; 42; 43; 45; 46; 94; 95; 96; 124; 126]%N).
Definition upperByte (a : ascii) : ascii := if byteIn 97 122 a then ascii_of_N (byteN a - 32) else a.
Fixpoint canonicalFrom (upper : bool) (l : list ascii) : list ascii :=
  match l with
  | [] => []
  | a :: l => (if upper then upperByte a else lowerByte a) :: canonicalFrom (byteIs 45 a) l
  end.
Definition CanonicalHeaderKey (name : string) : string :=
  if forallb tokenByte (bytes name) then ofBytes (canonicalFrom true (bytes name)) else name.
(** [http.Header], each name with its first value. *)
Abbreviation Header := (gmap string string).
Definition headerSet (headers : Header) (name value : string) : Header := <[CanonicalHeaderKey name := value]> headers.
Definition headerGet (headers : Header) (name : string) : string := default "" (headers !! CanonicalHeaderKey name).

Definition HeaderVerb : string := "X-Effectus-Verb".
Definition HeaderRequestID : string := "X-Effectus-Request-ID".
Definition HeaderExecutionID : string := "X-Effectus-Execution-ID".
Definition HeaderSagaID : string := "X-Effectus-Saga-ID".
Definition HeaderEffectID : string := "X-Effectus-Effect-ID".
Definition HeaderAttempt : string := "X-Effectus-Attempt".
Definition HeaderDirection : string := "X-Effectus-Direction".
Definition HeaderArgumentHash : string := "X-Effectus-Argument-Hash".
Definition HeaderContractHash : string := "X-Effectus-Contract-Hash".
Definition HeaderFencingGrants : string := "X-Effectus-Fencing-Grants".
Definition HeaderDeadline : string := "X-Effectus-Deadline".
Definition HeaderOutcome : string := "X-Effectus-Outcome".
Definition HeaderIdempotencyKey : string := "Idempotency-Key".
Example reservedHTTPHeaders_fold :
  reservedHTTPHeaders = ToLower <$> [HeaderVerb; HeaderRequestID; HeaderExecutionID; HeaderSagaID; HeaderEffectID; HeaderAttempt;
    HeaderDirection; HeaderArgumentHash; HeaderContractHash; HeaderFencingGrants; HeaderDeadline; HeaderOutcome; HeaderIdempotencyKey].
Proof. vm_compute. reflexivity. Qed.

(** ** Messages *)
Record HTTPRequest : Type := mkHTTPRequest { hq_Method : string; hq_URL : string; hq_Header : Header; hq_Body : string }.
(** The body and the error that ends it, if any. *)
Record HTTPResponse : Type := mkHTTPResponse {
  hp_StatusCode : Z; hp_Status : string; hp_Header : Header; hp_Body : string; hp_BodyError : option error }.

(** [Decoder.Decode] with [UseNumber], and a second one that must find the end. *)
Definition decodeOne (text : string) : option json :=
  let l := bytes text in
  match parseValue (parseFuel l) 0 l with
  | Some (v, rest) => if bool_decide (skipWS rest = []) then Some v else None
  | None => None
  end.
Definition outcomeClass (text : string) : OutcomeClass :=
  if bool_decide (text = "success") then OutcomeSuccess
  else if bool_decide (text = "retryable_failure_known_not_committed") then OutcomeRetryableKnownNotCommitted
  else if bool_decide (text = "permanent_failure") then OutcomePermanentFailure
  else if bool_decide (text = "unknown_outcome") then OutcomeUnknown
  else if bool_decide (text = "stale_fence") then OutcomeStaleFence
  else OutcomeOther text.
Definition classText (class : OutcomeClass) : string :=
  match class with
  | OutcomeSuccess => "success"
  | OutcomeRetryableKnownNotCommitted => "retryable_failure_known_not_committed"
  | OutcomePermanentFailure => "permanent_failure"
  | OutcomeUnknown => "unknown_outcome"
  | OutcomeStaleFence => "stale_fence"
  | OutcomeOther text => text
  end.
Definition failure (class : OutcomeClass) (e : error) : Outcome json := mkOutcome class JNull (Some e).

Definition grantJSON (grant : FencingGrant) : json :=
  JObj [("authority", JStr (fg_Authority grant)); ("resource", JStr (fg_Resource grant)); ("token", JNum (pretty (fg_Token grant)))].
(** No grants are a nil slice. *)
Definition grantsText (grants : list FencingGrant) : string :=
  default "" (Marshal (match grants with [] => JNull | _ => JArr (grantJSON <$> grants) end)).

Definition MaxInt64 : Z := 2 ^ 63 - 1.
Definition defaultBytes : Z := 1048576.

Section Protocol.
  Context (toLower : string → string) (formatFloat : spec_float → string).
  Context (formatTime : Time → string) (parseTime : string → result Time) (decodeGrants : string → result (list FencingGrant)).

(** ** The client *)
Record HTTPExecutor : Type := mkHTTPExecutor {
  he_URL : string; he_Method : string; he_Headers : gmap string string; he_MaxResponseBytes : Z }.
Definition validateStaticHTTPHeaders (headers : gmap string string) : result unit :=
  foldR (checkHeader toLower) (sortedKeys headers) ∅ ;; Ok tt.
Definition NewHTTPExecutor (executor : HTTPExecutor) : result HTTPExecutor :=
  failIf (isBlank (he_URL executor)) (errorf "invocation HTTP URL is required") ;;
  validateStaticHTTPHeaders (he_Headers executor) ;;
  failIf (bool_decide (he_MaxResponseBytes executor < 0) || bool_decide (he_MaxResponseBytes executor = MaxInt64))
    (errorf "invocation response limit must be nonnegative and smaller than MaxInt64") ;;
  Ok (mkHTTPExecutor (he_URL executor) (if bool_decide (he_Method executor = "") then "POST" else he_Method executor) (he_Headers executor)
        (if bool_decide (he_MaxResponseBytes executor = 0) then defaultBytes else he_MaxResponseBytes executor)).

Definition setInvocationHeaders (headers : Header) (request : InvocationRequest) : Header :=
  let metadata := iv_Metadata request in
  let saga := mc_Saga metadata in
  let headers := headerSet headers HeaderVerb (iv_Verb request) in
  let headers := headerSet headers HeaderRequestID (mc_RequestID metadata) in
  let headers := headerSet headers HeaderExecutionID (mc_ExecutionID metadata) in
  let headers := headerSet headers HeaderSagaID (sm_SagaID saga) in
  let headers := headerSet headers HeaderEffectID (sm_EffectID saga) in
  let headers := headerSet headers HeaderAttempt (pretty (sm_Attempt saga)) in
  let headers := headerSet headers HeaderDirection (directionString (sm_Direction saga)) in
  let headers := headerSet headers HeaderIdempotencyKey (sm_IdempotencyKey saga) in
  let headers := headerSet headers HeaderArgumentHash (iv_ArgumentHash request) in
  let headers := headerSet headers HeaderContractHash (iv_ContractHash request) in
  let headers := headerSet headers HeaderFencingGrants (grantsText (mc_FencingGrants metadata)) in
  if timeIsZero (mc_Deadline metadata) then headers else headerSet headers HeaderDeadline (formatTime (mc_Deadline metadata)).

(** The headers of a request; the static ones are written in some order, [static]. *)
Definition requestHeaders (static : list (string * string)) (request : InvocationRequest) : Header :=
  setInvocationHeaders (foldl (λ headers p, headerSet headers p.1 p.2) (headerSet ∅ "Content-Type" "application/json") static) request.

(** What the response says. *)
Definition classify (maxResponseBytes : Z) (response : HTTPResponse) : Outcome json :=
  if bool_decide (maxResponseBytes < strlen (hp_Body response)) then failure OutcomeUnknown (errorf "invocation response exceeds the limit") else
  match hp_BodyError response with
  | Some e => failure OutcomeUnknown (mkError (err_is e) ("read invocation response: " +:+ err_text e))
  | None =>
      if bool_decide (200 ≤ hp_StatusCode response) && bool_decide (hp_StatusCode response < 300) then
        match decodeOne (hp_Body response) with
        | Some value => mkOutcome OutcomeSuccess value None
        | None => failure OutcomeUnknown (errorf "decode successful invocation response")
        end
      else
        let class := outcomeClass (TrimSpace (headerGet (hp_Header response) HeaderOutcome)) in
        let message := TrimSpace (hp_Body response) in
        let message := if bool_decide (message = "") then hp_Status response else message in
        let outcome := failure class (errorf ("invocation HTTP status " +:+ pretty (hp_StatusCode response) +:+ ": " +:+ message)) in
        if negb (isOk (ValidateOutcome outcome)) || bool_decide (class = OutcomeSuccess)
        then mkOutcome OutcomeUnknown (oc_Result outcome) (oc_Err outcome) else outcome
  end.

(** [HTTPExecutor.Invoke], with the request it handed to [Client.Do], if any. [build] is
    [http.NewRequestWithContext] refusing a method or a URL. The arguments are a map that is
    not nil, as in every request that the endpoint accepts. *)
Definition Invoke (build : string → string → option error) (send : HTTPRequest → result HTTPResponse) (ctx : option error)
    (executor : HTTPExecutor) (static : list (string * string)) (request : InvocationRequest) : Outcome json * option HTTPRequest :=
  match NewHTTPExecutor executor with
  | Err e => (failure OutcomePermanentFailure e, None)
  | Ok executor =>
      match ctx with
      | Some e => (failure OutcomeRetryableKnownNotCommitted e, None)
      | None =>
          match Marshal (toJSON formatFloat (AMap (iv_Arguments request))) with
          | None => (failure OutcomePermanentFailure (errorf "encode invocation arguments"), None)
          | Some payload =>
              match build (he_Method executor) (he_URL executor) with
              | Some e => (failure OutcomePermanentFailure (mkError (err_is e) ("build invocation request: " +:+ err_text e)), None)
              | None =>
                  let httpRequest := mkHTTPRequest (he_Method executor) (he_URL executor) (requestHeaders static request) payload in
                  match send httpRequest with
                  | Err e => (failure OutcomeUnknown (mkError (err_is e) ("send invocation: " +:+ err_text e)), Some httpRequest)
                  | Ok response => (classify (he_MaxResponseBytes executor) response, Some httpRequest)
                  end
              end
          end
      end
  end.

(** ** The endpoint *)
Definition required (headers : Header) (name : string) : result string :=
  let value := TrimSpace (headerGet headers name) in
  failIf (bool_decide (value = "")) (errorf (name +:+ " header is required")) ;; Ok value.
(** [strconv.ParseUint(s, 10, 64)] *)
Definition ParseUint (s : string) : result Z :=
  failIf (bool_decide (s = "") || negb (forallb (byteIn 48 57) (bytes s))) (errorf "invalid syntax") ;;
  let n := foldl digitStep 0 (bytes s) in
  failIf (bool_decide (2 ^ 64 ≤ n)) (errorf "value out of range") ;; Ok n.
Definition parseDirection (text : string) : option Direction :=
  if bool_decide (text = "forward") then Some DirectionForward
  else if bool_decide (text = "compensation") then Some DirectionCompensation else None.

Definition decodeMetadata (headers : Header) : result Context :=
  executionID ← required headers HeaderExecutionID;
  sagaID ← required headers HeaderSagaID;
  effectID ← required headers HeaderEffectID;
  idempotencyKey ← required headers HeaderIdempotencyKey;
  attempt ← ParseUint (TrimSpace (headerGet headers HeaderAttempt));
  failIf (bool_decide (attempt = 0)) (errorf "X-Effectus-Attempt header must be a positive integer") ;;
  direction ← ofOption (parseDirection (TrimSpace (headerGet headers HeaderDirection)))
                (errorf "X-Effectus-Direction header must be forward or compensation");
  requestID ← required headers HeaderRequestID;
  let deadline := TrimSpace (headerGet headers HeaderDeadline) in
  deadline ← (if bool_decide (deadline = "") then Ok zeroTime else parseTime deadline);
  let grants := TrimSpace (headerGet headers HeaderFencingGrants) in
  grants ← (if bool_decide (grants = "") then Ok [] else decodeGrants grants);
  Ok (mkContext requestID executionID (mkSagaMeta sagaID effectID attempt direction idempotencyKey) grants deadline).

(** [hex.DecodeString] and the comparison with the digest. *)
Definition sameDigest (provided : string) (canonical : string) : bool :=
  match hexDecode (bytes provided) with
  | Some digest => bool_decide (digest = sha256 (bytes canonical))
  | None => false
  end.
Definition decodeRequest (request : HTTPRequest) (maxBytes : Z) : result InvocationRequest :=
  metadata ← decodeMetadata (hq_Header request);
  failIf (bool_decide (maxBytes < strlen (hq_Body request))) (errorf "executor request exceeds the limit") ;;
  fields ← match decodeOne (hq_Body request) with
           | Some (JObj fields) => Ok fields
           | Some JNull => Err (errorf "executor arguments must be a JSON object")
           | _ => Err (errorf "decode executor arguments")
           end;
  verb ← required (hq_Header request) HeaderVerb;
  argumentHash ← required (hq_Header request) HeaderArgumentHash;
  canonical ← ofOption (Marshal (JObj fields)) (errorf "canonicalize executor arguments");
  failIf (negb (sameDigest argumentHash canonical)) (errorf "X-Effectus-Argument-Hash does not match canonical arguments") ;;
  contractHash ← required (hq_Header request) HeaderContractHash;
  Ok (mkInvocation metadata verb ((λ f, (f.1, ofJSON f.2)) <$> fields) (sha256hex (bytes canonical)) contractHash).

Definition newline : string := String (chr 10) "".
Definition statusText (code : Z) : string :=
  if bool_decide (code = 200) then "200 OK" else if bool_decide (code = 400) then "400 Bad Request"
  else if bool_decide (code = 405) then "405 Method Not Allowed" else if bool_decide (code = 409) then "409 Conflict"
  else if bool_decide (code = 422) then "422 Unprocessable Entity" else if bool_decide (code = 503) then "503 Service Unavailable"
  else "500 Internal Server Error".
(** [http.Error] on a response with some headers. *)
Definition httpError (headers : Header) (text : string) (code : Z) : HTTPResponse :=
  mkHTTPResponse code (statusText code)
    (headerSet (headerSet headers "Content-Type" "text/plain; charset=utf-8") "X-Content-Type-Options" "nosniff") (text +:+ newline) None.
Definition outcomeStatus (class : OutcomeClass) : Z :=
  match class with
  | OutcomeRetryableKnownNotCommitted => 503
  | OutcomePermanentFailure => 422
  | OutcomeStaleFence => 409
  | _ => 500
  end.
Definition writeOutcome (outcome : Outcome json) : HTTPResponse :=
  if bool_decide (oc_Class outcome = OutcomeSuccess) then
    match Marshal (oc_Result outcome) with
    | None => httpError (headerSet ∅ HeaderOutcome (classText OutcomeUnknown)) "encode business result" 500
    | Some payload => mkHTTPResponse 200 (statusText 200) (headerSet ∅ "Content-Type" "application/json") (payload +:+ newline) None
    end
  else
    httpError (headerSet ∅ HeaderOutcome (classText (oc_Class outcome))) (match oc_Err outcome with Some e => err_text e | None => "" end)
      (outcomeStatus (oc_Class outcome)).
Definition serve (maxRequestBytes : Z) (handler : InvocationRequest → Outcome json) (request : HTTPRequest) : HTTPResponse :=
  if bool_decide (hq_Method request ≠ "POST") then httpError (headerSet ∅ "Allow" "POST") "method not allowed" 405 else
  match decodeRequest request maxRequestBytes with
  | Err e => httpError ∅ (err_text e) 400
  | Ok decoded =>
      let outcome := handler decoded in
      writeOutcome (match ValidateOutcome outcome with
                    | Err e => failure OutcomeUnknown (mkError (err_is e) ("business executor returned an invalid outcome: " +:+ err_text e))
                    | Ok _ => outcome
                    end)
  end.
(** [NewHandler] *)
Definition NewHandler (maxRequestBytes : Z) (handler : InvocationRequest → Outcome json) : result (HTTPRequest → HTTPResponse) :=
  failIf (bool_decide (maxRequestBytes < 0) || bool_decide (maxRequestBytes = MaxInt64))
    (errorf "executor HTTP maximum request bytes must be nonnegative and smaller than MaxInt64") ;;
  Ok (serve (if bool_decide (maxRequestBytes = 0) then defaultBytes else maxRequestBytes) handler).
End Protocol.
