(* ===== verification/HttpProps.v ===== *)
(** * Correctness of the HTTP executor protocol

    How a response may be read, and that a call through a connection that delivers is the
    call of the business handler. *)

From S2P Require Import Prelude GoText Sha256 Json JsonProofs Workflow Value Admission Check CheckLemmas Dispatcher GoPath Descriptor HttpExecutor.
From stdpp Require Import pretty.
From Stdlib Require Import ZArith NArith Ascii String Floats.SpecFloat Lia.
Local Open Scope list_scope.
Local Open Scope Z_scope.

(** ** Classification *)
Lemma outcomeClass_text class : (∀ text, class ≠ OutcomeOther text) → outcomeClass (classText class) = class ∧ TrimSpace (classText class) = classText class.
Proof. intros H. destruct class as [| | | | |text]; [split; vm_compute; reflexivity..|]. exfalso. by apply (H text). Qed.
Lemma classText_outcomeClass text class : outcomeClass text = class → (∀ t, class ≠ OutcomeOther t) → text = classText class.
Proof. unfold outcomeClass. intros <- H. repeat case_bool_decide; try done. Qed.

(** What a class means, given what was sent and answered. *)
Definition explained (send : HTTPRequest → result HTTPResponse) (outcome : Outcome json) (sent : option HTTPRequest) : Prop :=
  let answered P := ∃ q response, sent = Some q ∧ send q = Ok response ∧ P response in
  let succeeded response := 200 ≤ hp_StatusCode response < 300 in
  let says text := answered (λ response, (~ succeeded response) ∧ hp_BodyError response = None ∧
    TrimSpace (headerGet (hp_Header response) HeaderOutcome) = text) in
  match oc_Class outcome with
  | OutcomeSuccess => answered (λ response, succeeded response ∧ hp_BodyError response = None ∧ decodeOne (hp_Body response) = Some (oc_Result outcome))
  | OutcomeRetryableKnownNotCommitted => sent = None ∨ says "retryable_failure_known_not_committed"
  | OutcomePermanentFailure => sent = None ∨ says "permanent_failure"
  | OutcomeStaleFence => says "stale_fence"
  | OutcomeUnknown => is_Some sent
  | OutcomeOther _ => False
  end.

Section Honest.
  Context (toLower : string → string) (formatFloat : spec_float → string) (formatTime : Time → string).

Lemma classify_explained send q response max :
  send q = Ok response → explained send (classify max response) (Some q) ∧ ValidateOutcome (classify max response) = Ok tt.
Proof.
  intros Hs. unfold classify. case_bool_decide; [split; [by eexists|done]|]. destruct (hp_BodyError response) as [e|] eqn:He; [split; [by eexists|done]|].
  destruct (bool_decide _ && bool_decide _) eqn:Hc.
  - bool_to_prop. destruct (decodeOne _) as [v|] eqn:Hd; [|split; [by eexists|done]]. split; [|done]. exists q, response. auto.
  - assert (~ (200 ≤ hp_StatusCode response < 300)) as Hn by (apply andb_false_iff in Hc; rewrite !bool_decide_eq_false in Hc; lia).
    destruct (outcomeClass _) eqn:Hclass; cbn; (split; [|done]); try (by eexists); try right; exists q, response; (split; [done|]); (split; [done|]);
      (split; [done|]); (split; [done|]); by apply classText_outcomeClass in Hclass.
Qed.

(** C21: a response is never read as more than it says. Whatever the network answers, the
    outcome of [Invoke] is well-formed; a success is one JSON value of a 2xx response, and is
    that value; a failure that is known not to have committed, a permanent failure or a stale
    fence was said so by the endpoint in the outcome header of a response that is not 2xx, or
    nothing was sent; and everything else that was sent is an unknown outcome: an error of the
    network, a response too long or cut short, a success without a value, a missing, unknown
    or contradictory header. *)
Theorem http_outcomes_are_honest build send ctx executor static request outcome sent :
  Invoke toLower formatFloat formatTime build send ctx executor static request = (outcome, sent) →
  ValidateOutcome outcome = Ok tt ∧ explained send outcome sent.
Proof.
  unfold Invoke. intros H. destruct (NewHTTPExecutor toLower executor) as [e|e]; [|injection H as <- <-; split; [done|by left]].
  destruct ctx as [e'|]; [injection H as <- <-; split; [done|by left]|].
  destruct (Marshal _) as [payload|]; [|injection H as <- <-; split; [done|by left]].
  destruct (build _ _) as [e'|]; [injection H as <- <-; split; [done|by left]|].
  destruct (send _) as [response|e'] eqn:Hs; injection H as <- <-; [|split; [done|by eexists]].
  destruct (classify_explained _ _ _ (he_MaxResponseBytes e) Hs). auto.
Qed.
End Honest.

(** ** The round trip *)
Lemma headerGet_set_eq headers name value : headerGet (headerSet headers name value) name = value.
Proof. unfold headerGet, headerSet. by rewrite lookup_insert_eq. Qed.
Lemma headerGet_set_ne headers name name' value : CanonicalHeaderKey name ≠ CanonicalHeaderKey name' →
  headerGet (headerSet headers name value) name' = headerGet headers name'.
Proof. intros H. unfold headerGet, headerSet. by rewrite lookup_insert_ne. Qed.
Ltac header :=
  repeat first [rewrite headerGet_set_eq | rewrite headerGet_set_ne by (vm_compute; discriminate)].

(** A field that the endpoint reads as it was written. *)
Definition clean (s : string) : Prop := TrimSpace s = s ∧ s ≠ "".
Lemma required_clean headers name s : headerGet headers name = s → clean s → required headers name = Ok s.
Proof. intros <- [Ht Hn]. unfold required. rewrite Ht. by rewrite bool_decide_eq_false_2. Qed.
(** Bytes of printed numbers and digests are no white space, nor parts of it. *)
Definition plainByte (a : ascii) : bool := byteIn 33 126 a.
Lemma plain_space1 a : plainByte a = true → space1 a = false ∧ (∀ b, space2 a b = false) ∧ (∀ b, space2 b a = false) ∧
  (∀ b c, space3 a b c = false) ∧ (∀ b c, space3 b c a = false).
Proof.
  unfold plainByte, space1, space2, space3, byteIs. rewrite byteIn_spec. intros H.
  assert (∀ lo hi, (126 < lo)%N → byteIn lo hi a = false) as Hin by (intros lo hi Hlo; apply not_true_is_false; rewrite byteIn_spec; lia).
  assert (byteIn 9 13 a = false) as -> by (apply not_true_is_false; rewrite byteIn_spec; lia). rewrite !(Hin 128%N) by lia.
  repeat rewrite (bool_decide_eq_false_2 (byteN a = _)) by lia. split_and!; [done|done|intros b; by rewrite andb_false_r|done|].
  intros b c. by rewrite !andb_false_r.
Qed.
Lemma plain_trim s : Forall (λ a, plainByte a = true) (bytes s) → TrimSpace s = s.
Proof.
  intros H. unfold TrimSpace. rewrite trimLeft_id.
  - rewrite trimRightRev_id; [by rewrite rev_involutive, ofBytes_bytes|]. apply Forall_rev in H.
    destruct (rev (bytes s)) as [|c [|b [|a l]]]; [done|..]; apply Forall_cons in H as [(E1 & E2 & E3 & E4 & E5)%plain_space1 _]; cbn; by rewrite ?E1, ?E3, ?E5.
  - destruct (bytes s) as [|c [|b [|a l]]]; [done|..]; apply Forall_cons in H as [(E1 & E2 & E3 & E4 & E5)%plain_space1 _]; cbn; by rewrite ?E1, ?E2, ?E4.
Qed.
Lemma digits_plain l : Forall (λ a, byteIn 48 57 a = true) l → Forall (λ a, plainByte a = true) l.
Proof. intros H. eapply Forall_impl; [exact H|]. intros a. cbn beta. unfold plainByte. rewrite !byteIn_spec. lia. Qed.
Lemma pretty_trim n : 0 ≤ n → TrimSpace (pretty n) = pretty n.
Proof. intros H. by apply plain_trim, digits_plain, pretty_nonneg_digits. Qed.
Lemma ParseUint_pretty n : 0 ≤ n < 2 ^ 64 → ParseUint (pretty n) = Ok n.
Proof.
  intros H. unfold ParseUint. assert (Forall (λ a, byteIn 48 57 a = true) (bytes (pretty n))) as Hd by (apply pretty_nonneg_digits; lia).
  rewrite (bool_decide_eq_false_2 (pretty n = "")).
  2: { intros E. assert (foldl digitStep 0 (bytes (pretty n)) = n) as Hv by (apply pretty_nonneg_value; lia). rewrite E in Hv. cbn in Hv. subst n. done. }
  rewrite (proj2 (forallb_forall _ _)); [|intros x Hx; rewrite Forall_forall in Hd; apply Hd; by apply list_elem_of_In].
  cbn [negb orb failIf mbind result_bind]. rewrite pretty_nonneg_value by lia. by rewrite bool_decide_eq_false_2 by lia.
Qed.
Lemma hexVal_hexDigit n : (n < 16)%N → hexVal (hexDigit n) = Some n.
Proof.
  intros Hn. destruct n as [|p]; [reflexivity|]. do 4 (destruct p as [p|p|]; try reflexivity; try lia).
Qed.
Lemma hexDecode_hexEncode l : hexDecode (bytes (hexEncode l)) = Some l.
Proof.
  unfold hexEncode. rewrite bytes_ofBytes. induction l as [|a l IH]; [done|].
  change (hexBytes (a :: l)) with (hexDigit (byteN a / 16) :: hexDigit (byteN a mod 16) :: hexBytes l). cbn [hexDecode].
  assert (byteN a < 256)%N as Ha by apply N_ascii_bounded.
  rewrite !hexVal_hexDigit by (first [apply N.Div0.div_lt_upper_bound; lia|apply N.mod_lt; lia]). cbn [mbind option_bind].
  rewrite IH. cbn [mbind option_bind]. do 2 f_equal. rewrite <-N.div_mod by lia. apply ascii_N_embedding.
Qed.
Lemma hexDigit_plain n : (n < 16)%N → plainByte (hexDigit n) = true.
Proof. intros Hn. destruct n as [|p]; [reflexivity|]. do 4 (destruct p as [p|p|]; try reflexivity; try lia). Qed.
Lemma sha256_length data : List.length (sha256 data) = 32%nat.
Proof.
  assert (∀ h kws, List.length (foldl round256 h kws) = List.length h) as Hf.
  { intros h kws. revert h. induction kws as [|kw kws IH]; intros h; [done|]. cbn. rewrite IH. by destruct h as [|? [|? [|? [|? [|? [|? [|? [|? [|]]]]]]]]]. }
  assert (∀ fuel ws h, List.length (blocks fuel ws h) = List.length h) as Hb.
  { intros fuel. induction fuel as [|fuel IH]; intros [|w ws] h; try done. cbn [blocks]. rewrite IH. unfold compress. rewrite length_zip_with, Hf. lia. }
  Transparent sha256. unfold sha256. Opaque sha256.
  assert (∀ l, List.length (l ≫= beBytes 4) = (4 * List.length l)%nat) as Hl.
  { intros l. induction l as [|x l IH]; [done|]. rewrite bind_cons, length_app, IH. cbn. lia. }
  rewrite Hl, Hb. reflexivity.
Qed.
Lemma sha256hex_clean data : clean (sha256hex data).
Proof.
  split.
  - apply plain_trim. unfold sha256hex, hexEncode. rewrite bytes_ofBytes. unfold hexBytes. apply Forall_bind, Forall_true. intros a.
    assert (byteN a < 256)%N as Ha by apply N_ascii_bounded.
    repeat constructor; apply hexDigit_plain; [apply N.Div0.div_lt_upper_bound; lia|apply N.mod_lt; lia].
  - intros E. pose proof (sha256_length data) as Hl. pose proof (hexDecode_hexEncode (sha256 data)) as Hd. unfold sha256hex in E. rewrite E in Hd.
    cbn in Hd. injection Hd as Hd. by rewrite <-Hd in Hl.
Qed.

Lemma decodeOne_text v suffix : jsonValue v = true → delim (bytes suffix) → skipWS (bytes suffix) = [] →
  decodeOne (ofBytes (jsonText v) +:+ suffix) = Some v.
Proof.
  intros Hv Hd Hw. unfold decodeOne. rewrite bytes_app, bytes_ofBytes, (parseValue_jsonText v (bytes suffix) Hv Hd). by rewrite bool_decide_eq_true_2.
Qed.
Lemma toJSON_ofJSON formatFloat v : supported v = true → toJSON formatFloat (ofJSON v) = v.
Proof.
  induction v as [| | | |items IH|fields IH|] using json_nested_ind; cbn; intros H; try done; f_equal.
  - rewrite <-list_fmap_compose. induction IH as [|x l Hx _ IHl]; [done|]. cbn in *. bool_to_prop. rewrite Hx, IHl by done. done.
  - rewrite <-list_fmap_compose. induction IH as [|[k x] l Hx _ IHl]; [done|]. cbn in *. bool_to_prop. rewrite Hx, IHl by done. done.
Qed.

Lemma sameDigest_self text : sameDigest (sha256hex (bytes text)) text = true.
Proof. unfold sameDigest, sha256hex. rewrite hexDecode_hexEncode. by rewrite bool_decide_eq_true_2. Qed.

Section Delivered.
  Context (toLower : string → string) (formatFloat : spec_float → string).
  Context (formatTime : Time → string) (parseTime : string → result Time) (decodeGrants : string → result (list FencingGrant)).

(** A request as the dispatcher makes them: its identities are written without surrounding
    space, its arguments were decoded from their canonical JSON, and its hash is theirs. *)
Record dispatched (request : InvocationRequest) (fields : list (string * json)) (text : string) : Prop := {
  dq_identities : Forall clean [mc_RequestID (iv_Metadata request); mc_ExecutionID (iv_Metadata request); sm_SagaID (mc_Saga (iv_Metadata request));
    sm_EffectID (mc_Saga (iv_Metadata request)); sm_IdempotencyKey (mc_Saga (iv_Metadata request)); iv_Verb request; iv_ContractHash request];
  dq_attempt : 0 < sm_Attempt (mc_Saga (iv_Metadata request)) < 2 ^ 64;
  dq_deadline : timeIsZero (mc_Deadline (iv_Metadata request)) = false;
  dq_arguments : iv_Arguments request = (λ f, (f.1, ofJSON f.2)) <$> fields;
  dq_value : jsonValue (JObj fields) = true;
  dq_text : Marshal (JObj fields) = Some text;
  dq_hash : iv_ArgumentHash request = sha256hex (bytes text) }.
(** The time and the grants are read back as they were written. *)
Definition readable (request : InvocationRequest) : Prop :=
  clean (formatTime (mc_Deadline (iv_Metadata request))) ∧
  parseTime (formatTime (mc_Deadline (iv_Metadata request))) = Ok (mc_Deadline (iv_Metadata request)) ∧
  TrimSpace (grantsText (mc_FencingGrants (iv_Metadata request))) ≠ "" ∧
  decodeGrants (TrimSpace (grantsText (mc_FencingGrants (iv_Metadata request)))) = Ok (mc_FencingGrants (iv_Metadata request)).

Lemma headers_written static request : timeIsZero (mc_Deadline (iv_Metadata request)) = false →
  let get := headerGet (requestHeaders formatTime static request) in
  let metadata := iv_Metadata request in
  get HeaderVerb = iv_Verb request ∧ get HeaderRequestID = mc_RequestID metadata ∧ get HeaderExecutionID = mc_ExecutionID metadata ∧
  get HeaderSagaID = sm_SagaID (mc_Saga metadata) ∧ get HeaderEffectID = sm_EffectID (mc_Saga metadata) ∧
  get HeaderAttempt = pretty (sm_Attempt (mc_Saga metadata)) ∧ get HeaderDirection = directionString (sm_Direction (mc_Saga metadata)) ∧
  get HeaderIdempotencyKey = sm_IdempotencyKey (mc_Saga metadata) ∧ get HeaderArgumentHash = iv_ArgumentHash request ∧
  get HeaderContractHash = iv_ContractHash request ∧ get HeaderFencingGrants = grantsText (mc_FencingGrants metadata) ∧
  get HeaderDeadline = formatTime (mc_Deadline metadata).
Proof.
  intros Hd. unfold requestHeaders, setInvocationHeaders. rewrite Hd. cbv zeta. split_and!; header; reflexivity.
Qed.
Lemma direction_text d : TrimSpace (directionString d) = directionString d ∧ parseDirection (directionString d) = Some d.
Proof. destruct d; split; vm_compute; reflexivity. Qed.

Lemma decodeMetadata_written static request fields text : dispatched request fields text → readable request →
  decodeMetadata parseTime decodeGrants (requestHeaders formatTime static request) = Ok (iv_Metadata request).
Proof.
  intros [Hid Hat Hdl _ _ _ _] (Ht1 & Ht2 & Hg1 & Hg2).
  destruct (headers_written static request Hdl) as (_ & G2 & G3 & G4 & G5 & G6 & G7 & G8 & _ & _ & G11 & G12).
  rewrite !Forall_cons in Hid. destruct Hid as (C1 & C2 & C3 & C4 & C5 & _). unfold decodeMetadata.
  rewrite (required_clean _ _ _ G3 C2), (required_clean _ _ _ G4 C3), (required_clean _ _ _ G5 C4), (required_clean _ _ _ G8 C5). cbn [mbind result_bind].
  rewrite G6, pretty_trim, ParseUint_pretty by lia. cbn [mbind result_bind].
  rewrite (bool_decide_eq_false_2 (sm_Attempt _ = 0)) by lia. cbn [failIf mbind result_bind].
  destruct (direction_text (sm_Direction (mc_Saga (iv_Metadata request)))) as [D1 D2]. rewrite G7, D1, D2. cbn [ofOption mbind result_bind].
  rewrite (required_clean _ _ _ G2 C1). cbn [mbind result_bind]. rewrite G12, (proj1 Ht1).
  rewrite (bool_decide_eq_false_2 (formatTime _ = "")) by apply Ht1. rewrite Ht2. cbn [mbind result_bind].
  rewrite G11, (bool_decide_eq_false_2 (TrimSpace (grantsText _) = "")) by done. rewrite Hg2. cbn [mbind result_bind]. by destruct request as [[? ? [] ? ?] ? ? ? ?].
Qed.
Lemma decodeRequest_written static request fields text max method url : dispatched request fields text → readable request → strlen text ≤ max →
  decodeRequest parseTime decodeGrants (mkHTTPRequest method url (requestHeaders formatTime static request) text) max = Ok request.
Proof.
  intros Hd Hr Hmax. pose proof (decodeMetadata_written static _ _ _ Hd Hr) as Hm. destruct Hd as [Hid _ Hdl Harg Hv Htext Hhash].
  destruct (headers_written static request Hdl) as (G1 & _ & _ & _ & _ & _ & _ & _ & G9 & G10 & _).
  rewrite !Forall_cons in Hid. destruct Hid as (_ & _ & _ & _ & _ & C6 & C7 & _). unfold decodeRequest. cbn [hq_Header hq_Body]. rewrite Hm. cbn [mbind result_bind].
  rewrite (bool_decide_eq_false_2 (max < strlen text)) by lia. cbn [failIf mbind result_bind].
  assert (decodeOne text = Some (JObj fields)) as ->.
  { destruct (Decode_Marshal _ Hv) as (E & _). rewrite Htext in E. injection E as ->. rewrite <-(decodeOne_text (JObj fields) ""); [|done..].
    f_equal. apply bytes_inj. by rewrite bytes_app, app_nil_r. }
  cbn [mbind result_bind]. rewrite (required_clean _ _ _ G1 C6). cbn [mbind result_bind]. rewrite Hhash in G9.
  rewrite (required_clean _ _ _ G9 (sha256hex_clean _)). cbn [mbind result_bind]. rewrite Htext. cbn [ofOption mbind result_bind].
  rewrite sameDigest_self. cbn [negb failIf mbind result_bind].
  rewrite (required_clean _ _ _ G10 C7). cbn [mbind result_bind]. rewrite <-Harg, <-Hhash. by destruct request.
Qed.

(** ** The call through the network *)
Lemma response_class max outcome :
  ValidateOutcome outcome = Ok tt → oc_Class outcome ≠ OutcomeSuccess →
  oc_Class (classify max (writeOutcome outcome)) =
    if bool_decide (max < strlen (match oc_Err outcome with Some e => err_text e | None => "" end) + 1) then OutcomeUnknown else oc_Class outcome.
Proof.
  intros Hv Hs. unfold writeOutcome. rewrite bool_decide_eq_false_2 by done. unfold httpError, classify. cbn [hp_Body hp_BodyError hp_StatusCode hp_Header hp_Status].
  rewrite strlen_app. change (strlen newline) with 1. case_bool_decide; [done|].
  destruct (oc_Class outcome) as [| | | | |text] eqn:Hc; [done|..|unfold ValidateOutcome in Hv; by rewrite Hc in Hv];
    cbn [outcomeStatus]; rewrite andb_comm; (rewrite (bool_decide_eq_false_2 (_ < 300)) by lia); cbn [andb]; header;
    match goal with |- context [outcomeClass (TrimSpace (classText ?c))] => destruct (outcomeClass_text c ltac:(done)) as [-> ->] || (destruct (outcomeClass_text c ltac:(done)) as [E1 E2]; rewrite E2, E1) end; reflexivity.
Qed.
Lemma response_success max outcome payload :
  oc_Class outcome = OutcomeSuccess → jsonValue (oc_Result outcome) = true → Marshal (oc_Result outcome) = Some payload → strlen payload < max →
  classify max (writeOutcome outcome) = mkOutcome OutcomeSuccess (oc_Result outcome) None.
Proof.
  intros Hc Hj Hm Hlen. unfold writeOutcome. rewrite bool_decide_eq_true_2, Hm by done. unfold classify. cbn [hp_Body hp_BodyError hp_StatusCode].
  rewrite strlen_app. change (strlen newline) with 1. rewrite (bool_decide_eq_false_2 (max < _)) by lia. cbn [andb].
  destruct (Decode_Marshal _ Hj) as (E & _). rewrite Hm in E. injection E as ->. by rewrite decodeOne_text.
Qed.

(** C20: a call through HTTP is the call of the business handler. When the connection
    delivers the request to an endpoint and its response back, the handler is called with
    exactly the request that the dispatcher made, metadata, fencing grants, deadline,
    arguments and hashes included, whatever static headers the executor sets; and the worker
    gets the outcome the handler returned: the same JSON result of a success, the same class
    of a failure, and an unknown outcome for an invalid one, unless the response exceeds the
    limit of the client, which is an unknown outcome. *)
Theorem http_calls_reach_the_handler executor resolved static request fields text maxRequest handler serveHTTP :
  NewHTTPExecutor toLower executor = Ok resolved → he_Method resolved = "POST" →
  dispatched request fields text → readable request → NewHandler parseTime decodeGrants maxRequest handler = Ok serveHTTP →
  strlen text ≤ (if bool_decide (maxRequest = 0) then defaultBytes else maxRequest) →
  let '(outcome, sent) := Invoke toLower formatFloat formatTime (λ _ _, None) (λ q, Ok (serveHTTP q)) None executor static request in
  let business := handler request in
  (∃ q, sent = Some q ∧ serveHTTP q = writeOutcome (match ValidateOutcome business with
     | Err e => failure OutcomeUnknown (mkError (err_is e) ("business executor returned an invalid outcome: " +:+ err_text e))
     | Ok _ => business end)) ∧
  (ValidateOutcome business = Ok tt → oc_Class business = OutcomeSuccess → jsonValue (oc_Result business) = true →
     (∀ payload, Marshal (oc_Result business) = Some payload → strlen payload < he_MaxResponseBytes resolved) →
     outcome = mkOutcome OutcomeSuccess (oc_Result business) None) ∧
  (∀ e, ValidateOutcome business = Ok tt → oc_Err business = Some e → strlen (err_text e) < he_MaxResponseBytes resolved →
     oc_Class outcome = oc_Class business) ∧
  (ValidateOutcome business ≠ Ok tt → oc_Class outcome = OutcomeUnknown).
Proof.
  intros Hn Hpost Hd Hr Hh Hlen. unfold Invoke. rewrite Hn.
  assert (toJSON formatFloat (AMap (iv_Arguments request)) = JObj fields) as ->.
  { rewrite (dq_arguments _ _ _ Hd). apply (toJSON_ofJSON formatFloat (JObj fields)), jsonWF_supported.
    pose proof (dq_value _ _ _ Hd) as Hv. unfold jsonValue in Hv. by bool_to_prop. }
  rewrite (dq_text _ _ _ Hd). unfold NewHandler in Hh. apply bind_Ok in Hh as ([] & _ & [= <-]). set (q := mkHTTPRequest _ _ _ _). set (business := handler request).
  assert (∀ max, strlen text ≤ max → serve parseTime decodeGrants max handler q = writeOutcome (match ValidateOutcome business with
     | Err e => failure OutcomeUnknown (mkError (err_is e) ("business executor returned an invalid outcome: " +:+ err_text e))
     | Ok _ => business end)) as Hserve.
  { intros max Hmax. unfold serve, q. cbn [hq_Method]. rewrite Hpost. rewrite bool_decide_eq_false_2 by naive_solver.
    by rewrite (decodeRequest_written static request fields text max). }
  rewrite Hserve by done. split; [by exists q; rewrite Hserve|]. split_and!.
  - intros Hv Hc Hj Hp. rewrite Hv. destruct (Decode_Marshal _ Hj) as (E & _). by apply (response_success _ _ _ Hc Hj E), Hp.
  - intros e Hv He Hl. rewrite Hv. rewrite response_class, He; [|done|].
    + by rewrite bool_decide_eq_false_2 by lia.
    + intros Hc. unfold ValidateOutcome in Hv. by rewrite Hc, He in Hv.
  - intros Hv. destruct (ValidateOutcome business) as [[]|e]; [done|]. rewrite response_class by done. match goal with |- (if ?b then _ else _) = _ => destruct b end; reflexivity.
Qed.
End Delivered.

(** A call of [ship] with a fencing grant, and an endpoint that answers with a ticket. *)
Definition shipFields : list (string * json) := [("to", JStr "bob")].
Definition shipText : string := Eval vm_compute in default "" (Marshal (JObj shipFields)).
Definition shipMeta : Context :=
  mkContext "exec-1" "exec-1" (mkSagaMeta "saga-1" "effect-1" 2 DirectionForward "key-1") [mkGrant "stock" "bin-7" 41] 1000.
Definition shipCall : InvocationRequest :=
  mkInvocation shipMeta "ship" ((λ f, (f.1, ofJSON f.2)) <$> shipFields) (sha256hex (bytes shipText)) "contract".
Definition shipExecutor : HTTPExecutor := mkHTTPExecutor "https://shop.example/ship" "" {["X-Shop" := "1"]} 0.
Definition shipResolved : HTTPExecutor := mkHTTPExecutor "https://shop.example/ship" "POST" {["X-Shop" := "1"]} defaultBytes.
Definition timeText (t : Time) : string := pretty t.
Definition readTime (_ : string) : result Time := Ok 1000.
Definition readGrants (_ : string) : result (list FencingGrant) := Ok [mkGrant "stock" "bin-7" 41].
Definition shipHandler (request : InvocationRequest) : Outcome json :=
  if bool_decide (sm_Attempt (mc_Saga (iv_Metadata request)) = 2) then mkOutcome OutcomeSuccess (JObj [("ticket", JNum "7")]) None
  else failure OutcomePermanentFailure (errorf "unexpected attempt").
Definition shipServer : HTTPRequest → HTTPResponse := serve readTime readGrants defaultBytes shipHandler.
Lemma shipCall_dispatched : dispatched shipCall shipFields shipText.
Proof.
  constructor; try (vm_compute; reflexivity); [|vm_compute; split; reflexivity].
  repeat constructor; try (vm_compute; reflexivity); vm_compute; discriminate.
Qed.
Lemma shipCall_readable : readable timeText readTime readGrants shipCall.
Proof. split; [split; [vm_compute; reflexivity|vm_compute; discriminate]|]. split; [reflexivity|]. split; [vm_compute; discriminate|reflexivity]. Qed.
Lemma http_calls_reach_the_handler_witness :
  (Invoke ToLower (λ _, "") timeText (λ _ _, None) (λ q, Ok (shipServer q)) None shipExecutor [("X-Shop", "1")] shipCall).1
  = mkOutcome OutcomeSuccess (JObj [("ticket", JNum "7")]) None.
Proof.
  pose proof (http_calls_reach_the_handler ToLower (λ _, "") timeText readTime readGrants shipExecutor shipResolved [("X-Shop", "1")] shipCall shipFields shipText 0
    shipHandler shipServer ltac:(vm_compute; reflexivity) eq_refl shipCall_dispatched shipCall_readable ltac:(reflexivity) ltac:(vm_compute; discriminate)) as H.
  destruct (Invoke _ _ _ _ _ _ _ _ _) as [outcome sent]. destruct H as (_ & H & _). apply H; [vm_compute; reflexivity..|].
  intros payload [= <-]. vm_compute. reflexivity.
Defined.
(** A gateway answers instead of the endpoint: nothing is known. *)
Definition gateway (_ : HTTPRequest) : result HTTPResponse := Ok (mkHTTPResponse 503 "503 Service Unavailable" ∅ "try later" None).
Lemma http_outcomes_are_honest_witness :
  let '(outcome, sent) := Invoke ToLower (λ _, "") timeText (λ _ _, None) gateway None shipExecutor [] shipCall in
  oc_Class outcome = OutcomeUnknown ∧ ValidateOutcome outcome = Ok tt ∧ explained gateway outcome sent.
Proof.
  destruct (Invoke ToLower (λ _, "") timeText (λ _ _, None) gateway None shipExecutor [] shipCall) as [outcome sent] eqn:E.
  split; [vm_compute in E; injection E as <- _; reflexivity|]. exact (http_outcomes_are_honest ToLower (λ _, "") timeText _ _ _ _ _ _ _ _ E).
Defined.
