(* ===== verification/HttpPolicy.v ===== *)
(** * Where executors may be called ([invocation/http_resolver.go])

    The resolver that rebuilds an HTTP executor from its descriptor, the addresses it may
    dial, and what a redirect may carry. Parsed URLs, IP literals and durations are read by
    arguments; [equalFold] is [strings.EqualFold]. *)

From S2P Require Import Prelude GoText Json Value GoPath Descriptor HttpExecutor.
From stdpp Require Import pretty.
From Stdlib Require Import ZArith NArith Ascii String.
Local Open Scope list_scope.

(** ** Addresses *)

(** [net.IP]: nil, or 4 or 16 bytes as a number. *)
Inductive IP : Type := IPNil | IP4 (value : N) | IP16 (value : N).
Definition To4 (ip : IP) : option N :=
  match ip with
  | IPNil => None
  | IP4 v => Some v
  | IP16 v => if bool_decide (N.shiftr v 32 = 0xffff)%N then Some (N.land v 0xffffffff) else None
  end.
Definition IsUnspecified (ip : IP) : bool :=
  match To4 ip, ip with
  | Some v, _ => bool_decide (v = 0%N)
  | None, IP16 v => bool_decide (v = 0%N)
  | _, _ => false
  end.
Definition IsMulticast (ip : IP) : bool :=
  match To4 ip, ip with
  | Some v, _ => bool_decide (N.shiftr v 28 = 0xe)%N
  | None, IP16 v => bool_decide (N.shiftr v 120 = 0xff)%N
  | _, _ => false
  end.
Definition IsLinkLocalMulticast (ip : IP) : bool :=
  match To4 ip, ip with
  | Some v, _ => bool_decide (N.shiftr v 8 = 0xe00000)%N
  | None, IP16 v => bool_decide (N.shiftr v 120 = 0xff)%N && bool_decide (N.land (N.shiftr v 112) 0xf = 2)%N
  | _, _ => false
  end.
Definition IsLinkLocalUnicast (ip : IP) : bool :=
  match To4 ip, ip with
  | Some v, _ => bool_decide (N.shiftr v 16 = 0xa9fe)%N
  | None, IP16 v => bool_decide (N.shiftr v 118 = 0x3fa)%N
  | _, _ => false
  end.

(** [netip.Addr] and [netip.Prefix]: a prefix holds addresses of its own family. *)
Inductive Addr : Type := Addr4 (value : N) | Addr6 (value : N).
Definition AddrFromSlice (ip : IP) : option Addr :=
  match ip with IPNil => None | IP4 v => Some (Addr4 v) | IP16 v => Some (Addr6 v) end.
Definition Unmap (address : Addr) : Addr :=
  match address with
  | Addr6 v => if bool_decide (N.shiftr v 32 = 0xffff)%N then Addr4 (N.land v 0xffffffff) else address
  | Addr4 _ => address
  end.
Record Prefix : Type := mkPrefix { px_addr : Addr; px_bits : N }.
Definition prefixContains (prefix : Prefix) (address : Addr) : bool :=
  match px_addr prefix, address with
  | Addr4 base, Addr4 v => bool_decide (N.shiftr v (32 - px_bits prefix) = N.shiftr base (32 - px_bits prefix))
  | Addr6 base, Addr6 v => bool_decide (N.shiftr v (128 - px_bits prefix) = N.shiftr base (128 - px_bits prefix))
  | _, _ => false
  end.
(** Prefixes as they are written: four bytes, or the leading 16-bit groups. *)
Definition quad (a b c d : N) : N := (N.shiftl a 24 + N.shiftl b 16 + N.shiftl c 8 + d)%N.
Definition v4 (a b c d bits : N) : Prefix := mkPrefix (Addr4 (quad a b c d)) bits.
Definition groups (l : list N) : N := foldl (λ n g, N.shiftl n 16 + g)%N 0%N (l ++ replicate (8 - List.length l) 0%N).
Definition v6 (l : list N) (bits : N) : Prefix := mkPrefix (Addr6 (groups l)) bits.

Definition httpNonPublicIPv4 : list Prefix :=
  [v4 0 0 0 0 8; v4 10 0 0 0 8; v4 100 64 0 0 10; v4 127 0 0 0 8; v4 169 254 0 0 16; v4 172 16 0 0 12; v4 192 0 0 0 24; v4 192 0 2 0 24;
   v4 192 88 99 0 24; v4 192 168 0 0 16; v4 198 18 0 0 15; v4 198 51 100 0 24; v4 203 0 113 0 24; v4 240 0 0 0 4].
Definition httpPublicSpecialIPv4 : list Prefix := [v4 192 0 0 9 32; v4 192 0 0 10 32].
Definition httpPublicIPv6 : Prefix := v6 [0x2000%N] 3.
Definition httpNonPublicIPv6 : list Prefix := [v6 [0x2001%N] 23; v6 [0x2001; 0xdb8]%N 32; v6 [0x2002%N] 16; v6 [0x3fff%N] 20].
Definition httpPublicSpecialIPv6 : list Prefix :=
  [v6 [0x2001; 1; 0; 0; 0; 0; 0; 1]%N 128; v6 [0x2001; 1; 0; 0; 0; 0; 0; 2]%N 128; v6 [0x2001; 1; 0; 0; 0; 0; 0; 3]%N 128;
   v6 [0x2001; 3]%N 32; v6 [0x2001; 4; 0x112]%N 48; v6 [0x2001; 0x20]%N 28; v6 [0x2001; 0x30]%N 28].

(** The loop over the blocked prefixes: the first that holds the address decides. *)
Fixpoint notBlocked (blocked exceptions : list Prefix) (address : Addr) : bool :=
  match blocked with
  | [] => true
  | prefix :: blocked =>
      if prefixContains prefix address then existsb (λ exception, prefixContains exception address) exceptions
      else notBlocked blocked exceptions address
  end.
Definition allowedIP (allowPrivate : bool) (ip : IP) : bool :=
  if match ip with IPNil => true | _ => false end || IsUnspecified ip || IsMulticast ip || IsLinkLocalMulticast ip || IsLinkLocalUnicast ip then false else
  match AddrFromSlice ip with
  | None => false
  | Some address =>
      if allowPrivate then true else
      match Unmap address with
      | Addr4 v => notBlocked httpNonPublicIPv4 httpPublicSpecialIPv4 (Addr4 v)
      | Addr6 v => if negb (prefixContains httpPublicIPv6 (Addr6 v)) then false else notBlocked httpNonPublicIPv6 httpPublicSpecialIPv6 (Addr6 v)
      end
  end.
Definition validateResolvedIPs (allowPrivate : bool) (addresses : list IP) : result unit :=
  failIf (bool_decide (addresses = [])) (errorf "invocation HTTP host has no addresses") ;;
  failIf (negb (forallb (allowedIP allowPrivate) addresses)) (errorf "invocation HTTP host resolved to a disallowed address").

(** ** Dialing *)

(** The [DialContext] of the client: the host is looked up once, every address it has is
    checked, and the checked addresses are dialed in turn. *)
Section Dial.
  Context {Conn : Type} (splitHostPort : string → result (string * string)) (lookup : string → result (list IP)).
  Context (dial : IP → string → result Conn).

Fixpoint dialEach (last : error) (port : string) (addresses : list IP) : result Conn :=
  match addresses with
  | [] => Err last
  | candidate :: addresses =>
      match dial candidate port with
      | Ok connection => Ok connection
      | Err dialErr => dialEach dialErr port addresses
      end
  end.
Definition dialContext (allowPrivate : bool) (address : string) : result Conn :=
  '(host, port) ← splitHostPort address;
  addresses ← match lookup host with
              | Ok addresses => Ok addresses
              | Err e => Err (mkError (err_is e) ("resolve invocation HTTP host: " +:+ err_text e))
              end;
  validateResolvedIPs allowPrivate addresses ;;
  dialEach (errorf "") port addresses.
End Dial.

(** ** URLs *)

(** The parts of a [url.URL] that are read. *)
Record URL : Type := mkURL { ur_Scheme : string; ur_Hostname : string; ur_Port : string; ur_User : bool }.

Section Policy.
  Context (equalFold : string → string → bool) (parseIP : string → IP) (parseURL : string → result URL).
  Context (urlString : URL → string) (toLower : string → string) (parseDuration : string → result Z).

Definition checkURL (allowPrivate : bool) (parsed : URL) : result unit :=
  failIf (bool_decide (ur_Scheme parsed ≠ "http") && bool_decide (ur_Scheme parsed ≠ "https")) (errorf "invocation HTTP URL scheme must be http or https") ;;
  failIf (bool_decide (ur_Hostname parsed = "") || ur_User parsed) (errorf "invocation HTTP URL must have a host and no user information") ;;
  failIf (equalFold (ur_Hostname parsed) "localhost" && negb allowPrivate) (errorf "invocation HTTP URL host is not allowed") ;;
  failIf (match parseIP (ur_Hostname parsed) with IPNil => false | ip => negb (allowedIP allowPrivate ip) end) (errorf "invocation HTTP URL IP is not allowed").
Definition validateURL (allowPrivate : bool) (raw : string) : result URL :=
  match parseURL raw with
  | Err e => Err (mkError (err_is e) ("parse invocation HTTP URL: " +:+ err_text e))
  | Ok parsed => checkURL allowPrivate parsed ;; Ok parsed
  end.

Definition originPort (value : URL) : string :=
  if bool_decide (ur_Port value ≠ "") then ur_Port value else if equalFold (ur_Scheme value) "https" then "443" else "80".
Definition sameHTTPOrigin (left right : URL) : bool :=
  equalFold (ur_Scheme left) (ur_Scheme right) && equalFold (ur_Hostname left) (ur_Hostname right) && bool_decide (originPort left = originPort right).

(** ** Redirects *)
Definition headerDel (headers : Header) (name : string) : Header := delete (CanonicalHeaderKey name) headers.
Definition hasPrefixFold (name : string) : bool := HasPrefix (toLower name) "x-effectus-".
Definition stripHeaders (sensitive : list string) (headers : Header) : Header :=
  let headers := headerDel (headerDel headers "Authorization") "Cookie" in
  let headers := foldl headerDel headers sensitive in
  foldl (λ headers header, if hasPrefixFold header then headerDel headers header else headers) headers (map_to_list headers).*1.
(** [CheckRedirect]: the requests so far, the first one first, and the next one with the
    headers it would carry; the result is the headers it does carry. *)
Definition checkRedirect (allowPrivate : bool) (sensitive : list string) (via : list URL) (next : URL) (headers : Header) : result Header :=
  failIf (bool_decide (3 ≤ List.length via)) (errorf "invocation HTTP redirect limit exceeded") ;;
  validateURL allowPrivate (urlString next) ;;
  failIf (match last via with Some previous => equalFold (ur_Scheme previous) "https" && equalFold (ur_Scheme next) "http" | None => false end)
    (errorf "invocation HTTPS redirect cannot downgrade to HTTP") ;;
  Ok (match via with
      | first :: _ => if negb (sameHTTPOrigin first next) then stripHeaders sensitive headers else headers
      | [] => headers
      end).

(** ** The resolver *)
Definition HTTPResolverID : string := "effectus/http/v1".
Local Open Scope Z_scope.
Definition ParseInt (s : string) : result Z :=
  let '(negative, digits) := match bytes s with
                             | a :: l => if byteIs 45 a then (true, l) else if byteIs 43 a then (false, l) else (false, a :: l)
                             | [] => (false, [])
                             end in
  failIf (bool_decide (digits = []) || negb (forallb (byteIn 48 57) digits)) (errorf "invalid syntax") ;;
  let n := foldl digitStep 0 digits in
  let n := if (negative : bool) then - n else n in
  failIf (bool_decide (n < - 2 ^ 63) || bool_decide (MaxInt64 < n)) (errorf "value out of range") ;; Ok n.
Definition ParseBool (s : string) : option bool :=
  if bool_decide (s ∈ ["1"; "t"; "T"; "TRUE"; "true"; "True"]) then Some true
  else if bool_decide (s ∈ ["0"; "f"; "F"; "FALSE"; "false"; "False"]) then Some false else None.

(** [InvocationResolverDescriptor] *)
Definition executorDescriptor (executor : HTTPExecutor) : result Descriptor :=
  executor ← NewHTTPExecutor toLower executor;
  NewDescriptor toLower (mkDescriptorSpec DescriptorHTTP HTTPResolverID (he_URL executor) (he_Headers executor)
    {["method" := he_Method executor; "max_response_bytes" := pretty (he_MaxResponseBytes executor)]}).
(** [HTTPResolver.Resolve]: the executor, the timeout of its client and its policy. *)
Definition resolveHTTP (descriptor : Descriptor) : result (HTTPExecutor * Z * bool) :=
  failIf (bool_decide (de_Type descriptor ≠ DescriptorHTTP)) (errorf "HTTP resolver cannot resolve descriptor type") ;;
  let settings : gmap string string := list_to_map (de_Settings descriptor) in
  let setting name := TrimSpace (default "" (settings !! name)) in
  let method := if bool_decide (setting "method" = "") then "POST" else setting "method" in
  timeout ← (if bool_decide (setting "timeout" = "") then Ok (30 * Second) else
             match parseDuration (setting "timeout") with
             | Ok parsed => failIf (bool_decide (parsed ≤ 0)) (errorf "invocation HTTP timeout must be a positive duration") ;; Ok parsed
             | Err _ => Err (errorf "invocation HTTP timeout must be a positive duration")
             end);
  maxResponseBytes ← (if bool_decide (setting "max_response_bytes" = "") then Ok defaultBytes else
             match ParseInt (setting "max_response_bytes") with
             | Ok parsed => failIf (bool_decide (parsed ≤ 0)) (errorf "invocation HTTP max_response_bytes must be positive") ;; Ok parsed
             | Err _ => Err (errorf "invocation HTTP max_response_bytes must be positive")
             end);
  allowPrivate ← (if bool_decide (setting "allow_private_network" = "") then Ok false else
             ofOption (ParseBool (setting "allow_private_network")) (errorf "invocation HTTP allow_private_network must be boolean"));
  validateURL allowPrivate (de_Reference descriptor) ;;
  executor ← NewHTTPExecutor toLower (mkHTTPExecutor (de_Reference descriptor) method (list_to_map (de_Headers descriptor)) maxResponseBytes);
  Ok (executor, timeout, allowPrivate).
End Policy.
