(* ===== verification/Postgres.v ===== *)
(** * The PostgreSQL outbox store ([schema/saga_outbox_postgres.go])

    The tables of [schema/migrations] as finite maps from primary keys to rows, and one
    definition per method and query of the store. A nullable column is an option, compared as
    SQL does: a comparison with NULL does not select. A method runs in one transaction and is
    one state transformer; a statement that fails rolls the transaction back, which is why
    the result of a method is [result (A * Database)]. [now] is the transaction time [now()],
    [ctx] is [ctx.Err()] when the transaction begins, and [locked] are the rows that
    [SKIP LOCKED] passes over. Transactions are taken one after another; what a connection
    that breaks leaves behind is either no change or the change of the transaction. *)

From S2P Require Import Prelude GoText Sha256 Json Workflow Identity Outbox Ledger.
From Stdlib Require Import ZArith String.
Local Open Scope list_scope.
Local Open Scope Z_scope.

(** What the database does to values: [jsonb] gives the text of a document back in its own
    normal form, which is JSON text that Go reads, or refuses it; [timestamptz] keeps microseconds; text is ordered by the
    collation of the database. *)
Class PostgresTypes : Type := {
  jsonb : string → option string;
  timestamptz : Time → Time;
  textBefore : string → string → bool;
  jsonb_normal t t' : jsonb t = Some t' → jsonb t' = Some t';
  jsonb_text t t' : jsonb t = Some t' → Valid t' = true;
  jsonb_reads t t' : jsonb t = Some t' → jsonSemanticallyEqual t' t' = true;
  timestamptz_zero t : timestamptz t = zeroTime → t = zeroTime }.

(** ** SQL *)
Definition sqlError (text : string) : error := errorf text.
(** [sql.ErrNoRows] *)
Definition noRows : error := errorf "sql: no rows in result set".
Definition uniqueViolation : error := errorf "duplicate key value violates unique constraint".
Definition foreignKeyViolation : error := errorf "insert or update violates foreign key constraint".
Definition sqlEq {A} `{EqDecision A} (column : option A) (value : A) : bool := bool_decide (column = Some value).
(** [column <= value] and [column > value] on times. *)
Definition sqlLe (column : option Time) (value : Time) : bool :=
  match column with Some t => negb (timeAfter t value) | None => false end.
Definition sqlGt (column : option Time) (value : Time) : bool :=
  match column with Some t => timeAfter t value | None => false end.
(** [WHERE]: the rows that a condition selects, by key. *)
Definition selectRows {K V} `{Countable K} (where_ : V → bool) (table : gmap K V) : list (K * V) :=
  List.filter (λ p, where_ p.2) (map_to_list table).
Definition existsRow {K V} `{Countable K} (where_ : V → bool) (table : gmap K V) : bool :=
  match selectRows where_ table with [] => false | _ => true end.
Definition countRows {K V} `{Countable K} (where_ : V → bool) (table : gmap K V) : Z :=
  Z.of_nat (List.length (selectRows where_ table)).
(** [UPDATE ... WHERE] over the whole table, and on one primary key with the number of rows. *)
Definition updateRows {K V} `{Countable K} (where_ : V → bool) (set_ : V → V) (table : gmap K V) : gmap K V :=
  (λ row, if where_ row then set_ row else row) <$> table.
Definition updateRow {K V} `{Countable K} (key : K) (where_ : V → bool) (set_ : V → V) (table : gmap K V) : gmap K V * Z :=
  match table !! key with
  | Some row => if where_ row then (<[key := set_ row]> table, 1) else (table, 0)
  | None => (table, 0)
  end.
(** The ranges of [bigint] and [integer] columns. *)
Definition maxBigint : Z := 2 ^ 63 - 1.
Definition maxInteger : Z := 2 ^ 31 - 1.

Definition nullString (value : string) : option string := if bool_decide (value = "") then None else Some value.
Definition nullTime (value : Time) : option Time := if timeIsZero value then None else Some value.
(** The zero value of a NULL column. *)
Definition ofNullString (value : option string) : string := default "" value.
Definition ofNullTime (value : option Time) : Time := default zeroTime value.

(** ** Tables *)
Record StepRow : Type := mkStepRow {
  tp_saga_id : string;
  tp_effect_id : string;
  tp_sequence : Z;
  tp_verb : string;
  tp_contract_hash : string;
  tp_arguments : string;
  tp_argument_hash : string;
  tp_compensation_verb : option string;
  tp_compensation_contract_hash : option string;
  tp_compensation_arguments : option string;
  tp_compensation_argument_hash : option string;
  tp_fencing_requirements : list FencingRequirement;
  tp_state : StepState;
  tp_result : option string }.
Record OutboxRow : Type := mkOutboxRow {
  ob_dispatch_id : string;
  ob_saga_id : string;
  ob_effect_id : string;
  ob_sequence : Z;
  ob_direction : Direction;
  ob_verb : string;
  ob_contract_hash : string;
  ob_arguments : string;
  ob_argument_hash : string;
  ob_idempotency_key : string;
  ob_state : DispatchState;
  ob_attempt : Z;
  ob_lease_owner : option string;
  ob_lease_token : option string;
  ob_lease_deadline : option Time;
  ob_next_attempt_at : option Time;
  ob_fencing_requirements : list FencingRequirement;
  ob_fencing_grants : list FencingGrant;
  ob_last_outcome : option OutcomeClass;
  ob_last_error : option string;
  ob_result : option string;
  ob_serial_saga : bool;
  ob_revision : Z;
  ob_created_at : Time;
  ob_updated_at : Time }.
Record AttemptRow : Type := mkAttemptRow {
  aw_dispatch_id : string;
  aw_attempt : Z;
  aw_lease_owner : string;
  aw_lease_token : string;
  aw_lease_deadline : Time;
  aw_fencing_grants : list FencingGrant;
  aw_outcome : option OutcomeClass;
  aw_error : option string;
  aw_started_at : Time;
  aw_completed_at : option Time }.
Record ExecutionRow : Type := mkExecutionRow {
  xr_execution_id : string;
  xr_admission_identity : string;
  xr_request_hash : string;
  xr_ruleset : string;
  xr_version : string;
  xr_tenant_namespace : string;
  xr_merge_policy : string;
  xr_generation_digest : string;
  xr_effective_facts : string;
  xr_state : ExecutionState;
  xr_revision : Z;
  xr_recovery_owner : option string;
  xr_recovery_token : option string;
  xr_recovery_deadline : option Time;
  xr_last_error : option string;
  xr_created_at : Time;
  xr_updated_at : Time }.
Record GenerationRow : Type := mkGenerationRow {
  gr_ruleset : string;
  gr_version : string;
  gr_environment : string;
  gr_generation_digest : string;
  gr_active : bool;
  gr_retired_at : option Time }.
Record SnapshotRow : Type := mkSnapshotRow {
  sn_execution_id : string;
  sn_universe : string;
  sn_revision : Z;
  sn_created_at : Time }.
Record Database : Type := mkDatabase {
  pg_instances : gmap string SagaInstance;
  pg_steps : gmap (string * string) StepRow;
  pg_outbox : gmap string OutboxRow;
  pg_attempts : gmap (string * Z) AttemptRow;
  pg_artifacts : gmap string ExecutionArtifact;
  (** keyed by ruleset, version and generation digest *)
  pg_generations : gmap (string * string * string) GenerationRow;
  pg_executions : gmap string ExecutionRow;
  (** keyed by execution and plan *)
  pg_plans : gmap (string * string) ExecutionPlanRecord;
  (** with [applied_at] *)
  pg_facts : gmap (string * string) (FactApplication * Time);
  pg_snapshots : gmap string SnapshotRow }.

#[global] Instance eta_StepRow : Eta StepRow := λ r,
  mkStepRow (tp_saga_id r) (tp_effect_id r) (tp_sequence r) (tp_verb r) (tp_contract_hash r) (tp_arguments r) (tp_argument_hash r)
    (tp_compensation_verb r) (tp_compensation_contract_hash r) (tp_compensation_arguments r) (tp_compensation_argument_hash r)
    (tp_fencing_requirements r) (tp_state r) (tp_result r).
#[global] Instance eta_OutboxRow : Eta OutboxRow := λ r,
  mkOutboxRow (ob_dispatch_id r) (ob_saga_id r) (ob_effect_id r) (ob_sequence r) (ob_direction r) (ob_verb r) (ob_contract_hash r)
    (ob_arguments r) (ob_argument_hash r) (ob_idempotency_key r) (ob_state r) (ob_attempt r) (ob_lease_owner r) (ob_lease_token r)
    (ob_lease_deadline r) (ob_next_attempt_at r) (ob_fencing_requirements r) (ob_fencing_grants r) (ob_last_outcome r)
    (ob_last_error r) (ob_result r) (ob_serial_saga r) (ob_revision r) (ob_created_at r) (ob_updated_at r).
#[global] Instance eta_AttemptRow : Eta AttemptRow := λ r,
  mkAttemptRow (aw_dispatch_id r) (aw_attempt r) (aw_lease_owner r) (aw_lease_token r) (aw_lease_deadline r) (aw_fencing_grants r)
    (aw_outcome r) (aw_error r) (aw_started_at r) (aw_completed_at r).
#[global] Instance eta_ExecutionRow : Eta ExecutionRow := λ r,
  mkExecutionRow (xr_execution_id r) (xr_admission_identity r) (xr_request_hash r) (xr_ruleset r) (xr_version r) (xr_tenant_namespace r)
    (xr_merge_policy r) (xr_generation_digest r) (xr_effective_facts r) (xr_state r) (xr_revision r) (xr_recovery_owner r)
    (xr_recovery_token r) (xr_recovery_deadline r) (xr_last_error r) (xr_created_at r) (xr_updated_at r).
#[global] Instance eta_GenerationRow : Eta GenerationRow := λ r,
  mkGenerationRow (gr_ruleset r) (gr_version r) (gr_environment r) (gr_generation_digest r) (gr_active r) (gr_retired_at r).
#[global] Instance eta_Database : Eta Database := λ r,
  mkDatabase (pg_instances r) (pg_steps r) (pg_outbox r) (pg_attempts r) (pg_artifacts r) (pg_generations r) (pg_executions r)
    (pg_plans r) (pg_facts r) (pg_snapshots r).
Definition emptyDatabase : Database := mkDatabase ∅ ∅ ∅ ∅ ∅ ∅ ∅ ∅ ∅ ∅.

(** ** Rows as Go values *)
Definition nullOutcome (outcome : OutcomeClass) : option OutcomeClass := if bool_decide (outcome = OutcomeOther "") then None else Some outcome.
Definition ofNullOutcome (outcome : option OutcomeClass) : OutcomeClass := default (OutcomeOther "") outcome.
(** A row of [effectus_saga_instances] has the columns of a [SagaInstance]. *)
Definition scanSaga (row : SagaInstance) : SagaInstance := row.
Definition scanDispatch (row : OutboxRow) : Dispatch :=
  mkDispatch (ob_dispatch_id row) (ob_saga_id row) (ob_effect_id row) (ob_sequence row) (ob_direction row) (ob_verb row) (ob_contract_hash row)
    (ob_arguments row) (ob_argument_hash row) (ob_idempotency_key row) (ob_state row) (ob_attempt row) (ofNullString (ob_lease_owner row))
    (ofNullString (ob_lease_token row)) (ofNullTime (ob_lease_deadline row)) (ofNullTime (ob_next_attempt_at row)) (ob_fencing_requirements row)
    (ob_fencing_grants row) (ofNullOutcome (ob_last_outcome row)) (ofNullString (ob_last_error row)) (ofNullString (ob_result row))
    (ob_revision row) (ob_created_at row) (ob_updated_at row).
Definition scanStep (row : StepRow) : SagaStep :=
  mkStep (tp_saga_id row) (tp_effect_id row) (tp_sequence row) (tp_verb row) (tp_contract_hash row) (tp_arguments row) (tp_argument_hash row)
    (ofNullString (tp_compensation_verb row)) (ofNullString (tp_compensation_contract_hash row)) (ofNullString (tp_compensation_arguments row))
    (ofNullString (tp_compensation_argument_hash row)) (tp_fencing_requirements row) (tp_state row) (ofNullString (tp_result row)).
Definition scanAttempt (row : AttemptRow) : DispatchAttempt :=
  mkAttempt (aw_dispatch_id row) (aw_attempt row) (aw_lease_owner row) (aw_lease_token row) (aw_lease_deadline row) (aw_fencing_grants row)
    (ofNullOutcome (aw_outcome row)) (ofNullString (aw_error row)) (aw_started_at row) (ofNullTime (aw_completed_at row)).

Definition getSagaTx (db : Database) (sagaID : string) : result SagaInstance := scanSaga <$> ofOption (pg_instances db !! sagaID) noRows.
Definition getDispatchTx (db : Database) (dispatchID : string) : result Dispatch := scanDispatch <$> ofOption (pg_outbox db !! dispatchID) noRows.
Definition identityIs (sagaID effectID : string) (direction : Direction) (row : OutboxRow) : bool :=
  bool_decide (ob_saga_id row = sagaID) && bool_decide (ob_effect_id row = effectID) && bool_decide (ob_direction row = direction).
(** [(saga_id, effect_id, direction)] is unique. *)
Definition getDispatchByIdentityTx (db : Database) (sagaID effectID : string) (direction : Direction) : option Dispatch :=
  scanDispatch <$> (selectRows (identityIs sagaID effectID direction) (pg_outbox db)).*2 !! 0%nat.
Definition getStepTx (db : Database) (sagaID effectID : string) : result SagaStep := scanStep <$> ofOption (pg_steps db !! (sagaID, effectID)) noRows.

Section Store.
  Context `{PT : !PostgresTypes}.

(** A nullable [jsonb] parameter, and one that is required. *)
Definition nullJSON (value : string) : result (option string) :=
  if bool_decide (value = "") then Ok None else Some <$> ofOption (jsonb value) (sqlError "invalid input syntax for type json").
Definition castJSON (value : string) : result string := ofOption (jsonb value) (sqlError "invalid input syntax for type json").

(** [INSERT INTO effectus_saga_outbox]: the foreign keys, the unique constraints and the checks. *)
Definition insertOutbox (row : OutboxRow) (db : Database) : result Database :=
  failIf (bool_decide (pg_instances db !! ob_saga_id row = None) || bool_decide (pg_steps db !! (ob_saga_id row, ob_effect_id row) = None)) foreignKeyViolation ;;
  failIf (bool_decide (is_Some (pg_outbox db !! ob_dispatch_id row))
          || existsRow (λ other, bool_decide (ob_idempotency_key other = ob_idempotency_key row)
                                 || identityIs (ob_saga_id row) (ob_effect_id row) (ob_direction row) other) (pg_outbox db)) uniqueViolation ;;
  failIf (bool_decide (ob_sequence row ≤ 0) || bool_decide (maxInteger < ob_sequence row)) (sqlError "sequence check") ;;
  Ok (db <| pg_outbox := <[ob_dispatch_id row := row]> (pg_outbox db) |>).
(** A queued dispatch as the two statements that insert one write it; the other columns have
    their defaults. *)
Definition queuedRow (now : Time) (key sagaID effectID : string) (sequence : Z) (direction : Direction) (verb contract arguments argumentHash : string)
    (fencing : list FencingRequirement) (serial : bool) : OutboxRow :=
  mkOutboxRow (dispatchIDOf key) sagaID effectID sequence direction verb contract arguments argumentHash key DispatchQueued 0 None None None None
    fencing [] None None None serial 1 now now.

(** ** Sagas and steps ([schema/execution_ledger_postgres.go]) *)
Definition createSagaTx (testBinary : bool) (now : Time) (request : CreateSagaRequest) (db : Database) : result (SagaInstance * Database) :=
  validateSagaRequest testBinary request ;;
  match pg_instances db !! cs_SagaID request with
  | None =>
      let saga := mkSaga (cs_Namespace request) (cs_SagaID request) (cs_ExecutionID request) (cs_PlanID request) (cs_PlanDigest request)
        SagaRunning (cs_Serial request) 1 now now in
      Ok (scanSaga saga, db <| pg_instances := <[cs_SagaID request := saga]> (pg_instances db) |>)
  | Some row =>
      let saga := scanSaga row in
      failIf (bool_decide (sg_Namespace saga ≠ cs_Namespace request) || bool_decide (sg_ExecutionID saga ≠ cs_ExecutionID request)
              || bool_decide (sg_PlanID saga ≠ cs_PlanID request) || bool_decide (sg_PlanDigest saga ≠ cs_PlanDigest request)
              || bool_decide (sg_Serial saga ≠ cs_Serial request)) (wrapf ErrIdentityConflict "saga") ;;
      Ok (saga, db)
  end.

(** [COALESCE(max(sequence), 0)] *)
Definition maxSequence (db : Database) (sagaID : string) : Z :=
  foldr (λ p, Z.max (tp_sequence p.2)) 0 (selectRows (λ row, bool_decide (tp_saga_id row = sagaID)) (pg_steps db)).
Definition insertStep (row : StepRow) (db : Database) : result Database :=
  failIf (bool_decide (pg_instances db !! tp_saga_id row = None)) foreignKeyViolation ;;
  failIf (bool_decide (is_Some (pg_steps db !! (tp_saga_id row, tp_effect_id row)))
          || existsRow (λ other, bool_decide (tp_saga_id other = tp_saga_id row) && bool_decide (tp_sequence other = tp_sequence row)) (pg_steps db)) uniqueViolation ;;
  failIf (bool_decide (tp_sequence row ≤ 0) || bool_decide (maxInteger < tp_sequence row)) (sqlError "sequence check") ;;
  failIf (negb (bool_decide (tp_compensation_verb row = None ∧ tp_compensation_contract_hash row = None ∧ tp_compensation_arguments row = None ∧ tp_compensation_argument_hash row = None)
          || bool_decide (is_Some (tp_compensation_verb row) ∧ is_Some (tp_compensation_contract_hash row) ∧ is_Some (tp_compensation_arguments row) ∧ is_Some (tp_compensation_argument_hash row))))
    (sqlError "compensation check") ;;
  Ok (db <| pg_steps := <[(tp_saga_id row, tp_effect_id row) := row]> (pg_steps db) |>).
Definition enqueueStepTx (now : Time) (request : EnqueueStepRequest json) (db : Database) : result (Dispatch * Database) :=
  n ← normalizeEnqueue request;
  let request := ne_request n in
  saga ← getSagaTx db (eq_SagaID request);
  match getDispatchByIdentityTx db (eq_SagaID request) (eq_EffectID request) DirectionForward with
  | Some existing =>
      step ← getStepTx db (eq_SagaID request) (eq_EffectID request);
      failIf (negb (sameStep step request (ne_argumentHash n) (ne_compensationHash n))) (wrapf ErrIdentityConflict "saga effect") ;;
      Ok (existing, db)
  | None =>
      failIf (bool_decide (sg_State saga ≠ SagaRunning)) (wrapf ErrInvalidTransition "saga is not running") ;;
      failIf (bool_decide (eq_Sequence request ≠ maxSequence db (sg_SagaID saga) + 1)) (wrapf ErrIdentityConflict "non-dense sequence") ;;
      arguments ← castJSON (ne_arguments n);
      compensationArguments ← nullJSON (ne_compensationArguments n);
      db ← insertStep (mkStepRow (eq_SagaID request) (eq_EffectID request) (eq_Sequence request) (eq_Verb request) (eq_ContractHash request)
             arguments (ne_argumentHash n) (nullString (eq_CompensationVerb request)) (nullString (eq_CompensationContract request))
             compensationArguments (nullString (ne_compensationHash n)) (eq_Fencing request) StepPending None) db;
      let key := IdempotencyKey (sg_Namespace saga) (sg_SagaID saga) (eq_EffectID request) DirectionForward in
      db ← insertOutbox (queuedRow now key (sg_SagaID saga) (eq_EffectID request) (eq_Sequence request) DirectionForward (eq_Verb request)
             (eq_ContractHash request) arguments (ne_argumentHash n) (eq_Fencing request) (sg_Serial saga)) db;
      let db := db <| pg_instances := (updateRow (sg_SagaID saga) (λ _, true)
                  (λ row, row <| sg_Revision := sg_Revision row + 1 |> <| sg_UpdatedAt := now |>) (pg_instances db)).1 |> in
      dispatch ← getDispatchTx db (dispatchIDOf key);
      Ok (dispatch, db)
  end.

Definition PostgresCreateSaga (testBinary : bool) (ctx : option error) (now : Time) (request : CreateSagaRequest) (db : Database)
    : result (SagaInstance * Database) :=
  ctxErr ctx ;; createSagaTx testBinary now request db.
Definition PostgresEnqueueStep (ctx : option error) (now : Time) (request : EnqueueStepRequest json) (db : Database) : result (Dispatch * Database) :=
  ctxErr ctx ;; enqueueStepTx now request db.
Definition PostgresReplayExistingStep (ctx : option error) (now : Time) (request : EnqueueStepRequest json) (db : Database) : result (Dispatch * Database) :=
  ctxErr ctx ;;
  dispatchID ← ofOption (ob_dispatch_id <$> (selectRows (identityIs (eq_SagaID request) (eq_EffectID request) DirectionForward) (pg_outbox db)).*2 !! 0%nat)
    (wrapf ErrIdentityConflict "legacy checked dispatch no longer exists");
  '(dispatch, db) ← enqueueStepTx now request db;
  failIf (bool_decide (d_ID dispatch ≠ dispatchID)) (wrapf ErrIdentityConflict "legacy checked dispatch changed identity") ;;
  Ok (dispatch, db).

(** ** Claims *)

(** [LEFT JOIN effectus_executions]: no execution row, or an open one. *)
Definition executionOpen (db : Database) (executionID : string) : bool :=
  match pg_executions db !! executionID with
  | None => true
  | Some execution => bool_decide (xr_state execution ∈ [ExecutionAdmitting; ExecutionAccepted; ExecutionRunning])
  end.
Definition claimableRow (db : Database) (now : Time) (options : ClaimOptions) (o : OutboxRow) : bool :=
  match pg_instances db !! ob_saga_id o with
  | None => false
  | Some s =>
      (bool_decide (cl_TargetDispatchID options = "") || bool_decide (ob_dispatch_id o = cl_TargetDispatchID options))
      && executionOpen db (sg_ExecutionID s)
      && (bool_decide (ob_state o = DispatchQueued)
          || (bool_decide (ob_state o = DispatchRetryWait)
              && match ob_next_attempt_at o with None => true | Some t => negb (timeAfter t now) end)
          || (bool_decide (ob_state o = DispatchInFlight) && sqlLe (ob_lease_deadline o) now))
      && ((bool_decide (sg_State s = SagaRunning) && bool_decide (ob_direction o = DirectionForward))
          || (bool_decide (sg_State s = SagaCompensating) && bool_decide (ob_direction o = DirectionCompensation)))
      && (negb (ob_serial_saga o)
          || negb (existsRow (λ active, bool_decide (ob_saga_id active = ob_saga_id o) && bool_decide (ob_state active = DispatchInFlight)
                                       && sqlGt (ob_lease_deadline active) now && bool_decide (ob_dispatch_id active ≠ ob_dispatch_id o)) (pg_outbox db)))
      && (negb (ob_serial_saga o) || bool_decide (ob_direction o ≠ DirectionForward)
          || negb (existsRow (λ earlier, bool_decide (ob_saga_id earlier = ob_saga_id o) && bool_decide (ob_direction earlier = DirectionForward)
                                        && bool_decide (ob_sequence earlier < ob_sequence o) && bool_decide (ob_state earlier ≠ DispatchSucceeded)) (pg_outbox db)))
  end.
(** [ORDER BY created_at, saga_id, sequence, dispatch_id] *)
Definition rowBefore (a b : OutboxRow) : bool :=
  if bool_decide (ob_created_at a ≠ ob_created_at b) then bool_decide (ob_created_at a < ob_created_at b)
  else if bool_decide (ob_saga_id a ≠ ob_saga_id b) then textBefore (ob_saga_id a) (ob_saga_id b)
  else if bool_decide (ob_sequence a ≠ ob_sequence b) then bool_decide (ob_sequence a < ob_sequence b)
  else textBefore (ob_dispatch_id a) (ob_dispatch_id b).
Definition rowLe (a b : string * OutboxRow) : Prop := rowBefore b.2 a.2 = false.
#[global] Instance rowLe_dec a b : Decision (rowLe a b).
Proof. unfold rowLe. apply _. Defined.
Definition claimedRow (now : Time) (options : ClaimOptions) (token : string) (row : OutboxRow) : OutboxRow :=
  row <| ob_state := DispatchInFlight |> <| ob_attempt := ob_attempt row + 1 |> <| ob_lease_owner := Some (cl_Owner options) |>
      <| ob_lease_token := Some token |> <| ob_lease_deadline := Some (timeAdd now (cl_LeaseDuration options / 1000 * 1000)) |>
      <| ob_next_attempt_at := None |> <| ob_fencing_grants := [] |> <| ob_revision := ob_revision row + 1 |> <| ob_updated_at := now |>.
Definition PostgresClaimDispatch (ctx : option error) (now : Time) (locked : string → bool) (token : result string) (options : ClaimOptions)
    (db : Database) : result (Dispatch * Database) :=
  failIf (bool_decide (cl_Owner options = "") || bool_decide (cl_LeaseDuration options ≤ 0))
    (errorf "claim owner and positive lease duration are required") ;;
  ctxErr ctx ;;
  match List.find (λ p, negb (locked p.1)) (merge_sort rowLe (selectRows (claimableRow db now options) (pg_outbox db))) with
  | None => Err (wrapf ErrNoDispatch "no eligible dispatch")
  | Some (dispatchID, row) =>
      token ← token;
      failIf (bool_decide (maxBigint < ob_attempt row + 1)) (sqlError "bigint out of range") ;;
      (* the unique index on the serial dispatch in flight *)
      failIf (ob_serial_saga row && existsRow (λ other, bool_decide (ob_saga_id other = ob_saga_id row) && bool_decide (ob_state other = DispatchInFlight)
                && ob_serial_saga other && bool_decide (ob_dispatch_id other ≠ dispatchID)) (pg_outbox db)) uniqueViolation ;;
      let row := claimedRow now options token row in
      let db := db <| pg_outbox := <[dispatchID := row]> (pg_outbox db) |> in
      failIf (bool_decide (is_Some (pg_attempts db !! (dispatchID, ob_attempt row)))) uniqueViolation ;;
      let db := db <| pg_attempts := <[(dispatchID, ob_attempt row) :=
                  mkAttemptRow dispatchID (ob_attempt row) (cl_Owner options) token (timeAdd now (cl_LeaseDuration options / 1000 * 1000)) [] None None now None]>
                  (pg_attempts db) |> in
      dispatch ← getDispatchTx db dispatchID;
      failIf (bool_decide (d_Attempt dispatch ≠ ob_attempt row)) (errorf "claimed attempt mismatch") ;;
      Ok (dispatch, db)
  end.

(** ** Fencing grants *)
Definition leasedRow (attempt : Z) (leaseToken : string) (now : Time) (row : OutboxRow) : bool :=
  bool_decide (ob_state row = DispatchInFlight) && bool_decide (ob_attempt row = attempt) && sqlEq (ob_lease_token row) leaseToken
  && sqlGt (ob_lease_deadline row) now.
Definition PostgresSaveFencingGrants (ctx : option error) (now : Time) (dispatchID : string) (attempt : Z) (leaseToken : string)
    (grants : list FencingGrant) (db : Database) : result Database :=
  validateGrants grants ;;
  ctxErr ctx ;;
  dispatch ← getDispatchTx db dispatchID;
  failIf (negb (currentLease (Some dispatch) attempt leaseToken)) (wrapf ErrStaleLease "stale dispatch lease") ;;
  failIf (bool_decide (List.length (d_Fencing dispatch) ≠ List.length grants)) (errorf "fencing grant count does not match dispatch requirements") ;;
  failIf (existsb (λ '(requirement, grant), bool_decide (fg_Authority grant ≠ fr_Authority requirement)
                     || bool_decide (fg_Resource grant ≠ fr_Resource requirement)) (zip (d_Fencing dispatch) grants))
    (errorf "fencing grant does not match dispatch requirement") ;;
  failIf (bool_decide (d_FencingGrants dispatch ≠ []) && negb (sameGrants (d_FencingGrants dispatch) grants))
    (wrapf ErrIdentityConflict "fencing grants already persisted") ;;
  let '(outbox, rows) := updateRow dispatchID (leasedRow attempt leaseToken now)
        (λ row, row <| ob_fencing_grants := grants |> <| ob_revision := ob_revision row + 1 |> <| ob_updated_at := now |>) (pg_outbox db) in
  failIf (bool_decide (rows ≠ 1)) (wrapf ErrStaleLease "stale dispatch lease") ;;
  let '(attempts, rows) := updateRow (dispatchID, attempt) (λ row, bool_decide (aw_lease_token row = leaseToken))
        (λ row, row <| aw_fencing_grants := grants |>) (pg_attempts db) in
  failIf (bool_decide (rows ≠ 1)) (wrapf ErrStaleLease "stale dispatch lease") ;;
  Ok (db <| pg_outbox := outbox |> <| pg_attempts := attempts |>).

(** ** Compensation *)
Definition hasSucceededStepPostgres (db : Database) (sagaID : string) : bool :=
  existsRow (λ row, bool_decide (tp_saga_id row = sagaID) && bool_decide (tp_state row = StepSucceeded)) (pg_steps db).
(** [ORDER BY sequence DESC LIMIT 1] *)
Definition laterStep (a b : (string * string) * StepRow) : Prop := tp_sequence b.2 ≤ tp_sequence a.2.
#[global] Instance laterStep_dec a b : Decision (laterStep a b).
Proof. unfold laterStep. apply _. Defined.
Definition compensationCandidatePostgres (db : Database) (sagaID : string) : option SagaStep :=
  match merge_sort laterStep (selectRows (λ row, bool_decide (tp_saga_id row = sagaID) && bool_decide (tp_state row = StepSucceeded)
                                                 && bool_decide (is_Some (tp_compensation_verb row))) (pg_steps db)) with
  | (_, row) :: _ => Some (scanStep row)
  | [] => None
  end.
Definition enqueueCompensationPostgres (now : Time) (saga : SagaInstance) (step : SagaStep) (db : Database) : result Database :=
  let key := IdempotencyKey (sg_Namespace saga) (sg_SagaID saga) (st_EffectID step) DirectionCompensation in
  arguments ← castJSON (st_CompensationArguments step);
  if existsRow (identityIs (sg_SagaID saga) (st_EffectID step) DirectionCompensation) (pg_outbox db) then Ok db else
  insertOutbox (queuedRow now key (sg_SagaID saga) (st_EffectID step) (st_Sequence step) DirectionCompensation (st_CompensationVerb step)
    (st_CompensationContract step) arguments (st_CompensationArgumentHash step) (st_Fencing step) (sg_Serial saga)) db.
(** [UPDATE effectus_saga_instances SET state, revision, updated_at] *)
Definition writeSaga (sagaID : string) (state : SagaState) (revision : Z) (now : Time) (db : Database) : Database :=
  db <| pg_instances := (updateRow sagaID (λ _, true)
          (λ row, row <| sg_State := state |> <| sg_Revision := revision |> <| sg_UpdatedAt := timestamptz now |>) (pg_instances db)).1 |>.
Definition startCompensationPostgres (now : Time) (saga : SagaInstance) (at_ : Time) (db : Database) : result Database :=
  '(state, db) ← match compensationCandidatePostgres db (sg_SagaID saga) with
                 | None => Ok (if hasSucceededStepPostgres db (sg_SagaID saga) then SagaBlockedCompensation else SagaFailed, db)
                 | Some step => db ← enqueueCompensationPostgres now saga step db; Ok (SagaCompensating, db)
                 end;
  Ok (writeSaga (sg_SagaID saga) state (u64_inc (sg_Revision saga)) at_ db).
Definition enqueueNextCompensationPostgres (now : Time) (saga : SagaInstance) (at_ : Time) (db : Database) : result Database :=
  match compensationCandidatePostgres db (sg_SagaID saga) with
  | None =>
      let state := if hasSucceededStepPostgres db (sg_SagaID saga) then SagaBlockedCompensation else SagaCompensated in
      Ok (writeSaga (sg_SagaID saga) state (u64_inc (sg_Revision saga)) at_ db)
  | Some step => enqueueCompensationPostgres now saga step db
  end.

(** ** Completions *)

(** The attempts before the current one, and how many of them are known not to have committed. *)
Definition priorUnresolvedPostgres (db : Database) (dispatchID : string) (attempt : Z) : bool :=
  let before row := bool_decide (aw_dispatch_id row = dispatchID) && bool_decide (aw_attempt row < attempt) in
  let previous := countRows before (pg_attempts db) in
  let known := countRows (λ row, before row && sqlEq (aw_outcome row) OutcomeRetryableKnownNotCommitted
                                 && bool_decide (is_Some (aw_completed_at row))) (pg_attempts db) in
  bool_decide (previous ≠ attempt - 1) || bool_decide (known ≠ previous).
Definition completedRow (dispatch : Dispatch) (result : option string) (now : Time) (row : OutboxRow) : OutboxRow :=
  row <| ob_state := d_State dispatch |> <| ob_lease_owner := None |> <| ob_lease_token := None |> <| ob_lease_deadline := None |>
      <| ob_next_attempt_at := timestamptz <$> nullTime (d_NextAttemptAt dispatch) |> <| ob_last_outcome := nullOutcome (d_LastOutcome dispatch) |>
      <| ob_last_error := nullString (d_LastError dispatch) |> <| ob_result := result |> <| ob_revision := d_Revision dispatch |>
      <| ob_updated_at := timestamptz now |>.
Definition PostgresCompleteDispatch (ctx : option error) (defaultNow now : Time) (completion : Completion) (db : Database) : result Database :=
  let completion := if timeIsZero (cp_Now completion) then completion <| cp_Now := defaultNow |> else completion in
  validateCompletion completion ;;
  ctxErr ctx ;;
  dispatch ← getDispatchTx db (cp_DispatchID completion);
  failIf (negb (currentLease (Some dispatch) (cp_Attempt completion) (cp_LeaseToken completion))) (wrapf ErrStaleLease "stale dispatch lease") ;;
  saga ← getSagaTx db (d_SagaID dispatch);
  step ← getStepTx db (d_SagaID dispatch) (d_EffectID dispatch);
  let priorUnresolved := terminalOutcomeMayMaskPriorUnknown completion && priorUnresolvedPostgres db (d_ID dispatch) (d_Attempt dispatch) in
  let '(dispatch, step, saga) := applyCompletion dispatch step saga completion priorUnresolved in
  result ← nullJSON (d_Result dispatch);
  let '(outbox, rows) := updateRow (d_ID dispatch) (leasedRow (cp_Attempt completion) (cp_LeaseToken completion) now)
        (completedRow dispatch result (cp_Now completion)) (pg_outbox db) in
  failIf (bool_decide (rows ≠ 1)) (wrapf ErrStaleLease "stale dispatch lease") ;;
  stepResult ← nullJSON (st_Result step);
  let db := db <| pg_outbox := outbox |>
    <| pg_steps := (updateRow (st_SagaID step, st_EffectID step) (λ _, true)
                      (λ row, row <| tp_state := st_State step |> <| tp_result := stepResult |>) (pg_steps db)).1 |> in
  let db := writeSaga (sg_SagaID saga) (sg_State saga) (sg_Revision saga) (cp_Now completion) db in
  let '(attempts, rows) := updateRow (d_ID dispatch, cp_Attempt completion) (λ row, bool_decide (aw_lease_token row = cp_LeaseToken completion))
        (λ row, row <| aw_outcome := Some (cp_Outcome completion) |> <| aw_error := nullString (cp_Error completion) |>
                    <| aw_completed_at := Some (timestamptz (cp_Now completion)) |>) (pg_attempts db) in
  failIf (bool_decide (rows ≠ 1)) (wrapf ErrStaleLease "stale dispatch lease") ;;
  let db := db <| pg_attempts := attempts |> in
  db ← (if bool_decide (d_Direction dispatch = DirectionForward) && negb priorUnresolved
           && (bool_decide (cp_Outcome completion = OutcomePermanentFailure)
               || (bool_decide (cp_Outcome completion = OutcomeRetryableKnownNotCommitted) && cp_Exhausted completion))
        then startCompensationPostgres now saga (cp_Now completion) db else Ok db);
  if bool_decide (d_Direction dispatch = DirectionCompensation) && bool_decide (cp_Outcome completion = OutcomeSuccess)
  then enqueueNextCompensationPostgres now saga (cp_Now completion) db else Ok db.

(** ** Closing sagas *)

(** [UPDATE effectus_saga_instances SET state, revision = revision + 1, updated_at = now()] *)
Definition advanceSaga (sagaID : string) (from_ : SagaState → bool) (state : SagaState) (now : Time) (db : Database) : Database :=
  db <| pg_instances := (updateRow sagaID (λ row, from_ (sg_State row))
          (λ row, row <| sg_State := state |> <| sg_Revision := sg_Revision row + 1 |> <| sg_UpdatedAt := now |>) (pg_instances db)).1 |>.
Definition PostgresCompleteSaga (ctx : option error) (now : Time) (sagaID : string) (db : Database) : result Database :=
  ctxErr ctx ;;
  saga ← getSagaTx db sagaID;
  if bool_decide (sg_State saga = SagaCompleted) then Ok db else
  failIf (bool_decide (sg_State saga ≠ SagaRunning)) (wrapf ErrInvalidTransition "cannot complete saga") ;;
  failIf (bool_decide (countRows (λ row, bool_decide (ob_saga_id row = sagaID) && bool_decide (ob_state row ≠ DispatchSucceeded)) (pg_outbox db) ≠ 0))
    (wrapf ErrInvalidTransition "saga has nonterminal dispatches") ;;
  Ok (advanceSaga sagaID (λ state, bool_decide (state = SagaRunning)) SagaCompleted now db).

Definition rejectActiveDispatchLease (now : Time) (sagaID : string) (db : Database) : result unit :=
  failIf (existsRow (λ row, bool_decide (ob_saga_id row = sagaID) && bool_decide (ob_state row = DispatchInFlight) && sqlGt (ob_lease_deadline row) now) (pg_outbox db))
    (wrapf ErrActiveDispatchLease "saga").
(** [dispatch_id IN (SELECT dispatch_id FROM effectus_saga_attempts WHERE outcome = 'unknown_outcome' OR completed_at IS NULL)] *)
Definition unresolvedAttempt (db : Database) (dispatchID : string) : bool :=
  existsRow (λ row, bool_decide (aw_dispatch_id row = dispatchID) && (sqlEq (aw_outcome row) OutcomeUnknown || bool_decide (aw_completed_at row = None))) (pg_attempts db).
Definition uncertainRetryRow (db : Database) (row : OutboxRow) : bool :=
  bool_decide (ob_state row = DispatchRetryWait) && (sqlEq (ob_last_outcome row) OutcomeUnknown || unresolvedAttempt db (ob_dispatch_id row)).
(** The three updates that close the rows of a saga: expired leases, uncertain retries, and
    what is still pending. [scope] is the rest of their conditions. *)
Definition blockExpiredRow (now : Time) (message : string) (row : OutboxRow) : OutboxRow :=
  row <| ob_state := DispatchBlockedUnknown |> <| ob_lease_owner := None |> <| ob_lease_token := None |> <| ob_lease_deadline := None |>
      <| ob_next_attempt_at := None |> <| ob_last_error := Some message |> <| ob_revision := ob_revision row + 1 |> <| ob_updated_at := now |>.
Definition blockUncertainRow (now : Time) (row : OutboxRow) : OutboxRow :=
  row <| ob_state := DispatchBlockedUnknown |> <| ob_next_attempt_at := None |> <| ob_revision := ob_revision row + 1 |> <| ob_updated_at := now |>.
Definition cancelRow (now : Time) (message : string) (row : OutboxRow) : OutboxRow :=
  row <| ob_state := DispatchCanceled |> <| ob_next_attempt_at := None |> <| ob_last_error := Some message |>
      <| ob_revision := ob_revision row + 1 |> <| ob_updated_at := now |>.
Definition expiredRow (now : Time) (row : OutboxRow) : bool := bool_decide (ob_state row = DispatchInFlight) && sqlLe (ob_lease_deadline row) now.
Definition pendingRow (row : OutboxRow) : bool := bool_decide (ob_state row = DispatchQueued) || bool_decide (ob_state row = DispatchRetryWait).
Definition closeRows (scope : OutboxRow → bool) (now : Time) (expired canceled : string) (db : Database) : Database :=
  let outbox := updateRows (λ row, scope row && expiredRow now row) (blockExpiredRow now expired) (pg_outbox db) in
  let outbox := updateRows (λ row, scope row && uncertainRetryRow db row) (blockUncertainRow now) outbox in
  db <| pg_outbox := updateRows (λ row, scope row && pendingRow row) (cancelRow now canceled) outbox |>.

(** The body of the loop of [FinalizeStoppedExecution]. *)
Definition finalizeStoppedSagaTx (now : Time) (db : Database) (sagaID : string) : result Database :=
  let scope row := bool_decide (ob_saga_id row = sagaID) in
  let close := closeRows scope now "dispatch lease expired without a known outcome" "execution stopped before dispatch could complete" in
  saga ← getSagaTx db sagaID;
  rejectActiveDispatchLease now sagaID db ;;
  if isTerminalSaga (sg_State saga) then
    let closed := close db in
    let uncertain := existsRow (λ row, scope row && bool_decide (ob_state row = DispatchBlockedUnknown)) (pg_outbox closed) in
    Ok (if uncertain && bool_decide (sg_State saga ≠ SagaBlockedUnknown) then advanceSaga sagaID (λ _, true) SagaBlockedUnknown now closed else closed)
  else
    let uncertain := existsRow (λ row, scope row && (bool_decide (ob_state row = DispatchInFlight) || bool_decide (ob_state row = DispatchBlockedUnknown)
                                                     || uncertainRetryRow db row)) (pg_outbox db) in
    let succeeded := existsRow (λ row, scope row && bool_decide (ob_direction row = DirectionForward) && bool_decide (ob_state row = DispatchSucceeded)) (pg_outbox db) in
    let nextState := if bool_decide (sg_State saga = SagaCompensating) then SagaBlockedDependency else SagaFailed in
    let nextState := if uncertain then SagaBlockedUnknown else if succeeded then SagaBlockedDependency else nextState in
    Ok (advanceSaga sagaID (λ state, negb (isTerminalSaga state)) nextState now (close db)).
Fixpoint finalizeStoppedSagas (now : Time) (db : Database) (sagaIDs : list string) : result Database :=
  match sagaIDs with
  | [] => Ok db
  | sagaID :: sagaIDs => db ← finalizeStoppedSagaTx now db sagaID; finalizeStoppedSagas now db sagaIDs
  end.
(** The order in which the sagas are taken is the collation's, which [order] stands for. *)
Definition PostgresFinalizeStoppedExecution (ctx : option error) (now : Time) (order : list string → list string) (executionID : string) (db : Database)
    : result Database :=
  failIf (bool_decide (executionID = "")) (errorf "execution ID is required") ;;
  ctxErr ctx ;;
  finalizeStoppedSagas now db (order (selectRows (λ saga, bool_decide (sg_ExecutionID saga = executionID)) (pg_instances db)).*1).

Definition PostgresBlockSagaCompensation (ctx : option error) (now : Time) (sagaID : string) (db : Database) : result Database :=
  failIf (bool_decide (sagaID = "")) (errorf "saga ID is required") ;;
  ctxErr ctx ;;
  saga ← getSagaTx db sagaID;
  if bool_decide (sg_State saga = SagaBlockedCompensation) then Ok db else
  failIf (bool_decide (sg_State saga ≠ SagaCompensating)) (wrapf ErrInvalidTransition "cannot block compensation") ;;
  rejectActiveDispatchLease now sagaID db ;;
  let scope row := bool_decide (ob_saga_id row = sagaID) && bool_decide (ob_direction row = DirectionCompensation) in
  let expiredCount := countRows (λ row, scope row && expiredRow now row) (pg_outbox db) in
  let unknownRetryCount := countRows (λ row, scope row && uncertainRetryRow db row) (pg_outbox db) in
  let nextState := if bool_decide (expiredCount ≠ 0) || bool_decide (unknownRetryCount ≠ 0) then SagaBlockedUnknown else SagaBlockedCompensation in
  Ok (advanceSaga sagaID (λ state, bool_decide (state = SagaCompensating)) nextState now
        (closeRows scope now "compensation lease expired without a known outcome" "compensation disabled by fail-fast execution policy" db)).
Definition PostgresFinalizeFailFastSaga (ctx : option error) (now : Time) (sagaID : string) (db : Database) : result Database :=
  failIf (bool_decide (sagaID = "")) (errorf "saga ID is required") ;;
  ctxErr ctx ;;
  saga ← getSagaTx db sagaID;
  if bool_decide (sg_State saga = SagaFailed) then Ok db else
  failIf (bool_decide (sg_State saga ≠ SagaBlockedCompensation)) (wrapf ErrInvalidTransition "cannot finalize fail-fast saga") ;;
  failIf (existsRow (λ row, bool_decide (ob_saga_id row = sagaID)
                            && (bool_decide (ob_direction row = DirectionCompensation) || bool_decide (ob_state row = DispatchInFlight))) (pg_outbox db))
    (wrapf ErrInvalidTransition "saga has compensation or in-flight work") ;;
  Ok (advanceSaga sagaID (λ state, bool_decide (state = SagaBlockedCompensation)) SagaFailed now db).

(** ** Reads *)
Definition PostgresGetSaga (ctx : option error) (sagaID : string) (db : Database) : result SagaInstance := ctxErr ctx ;; getSagaTx db sagaID.
Definition PostgresGetDispatch (ctx : option error) (dispatchID : string) (db : Database) : result Dispatch := ctxErr ctx ;; getDispatchTx db dispatchID.
(** [ORDER BY sequence, direction] *)
Definition listRowBefore (a b : OutboxRow) : bool :=
  if bool_decide (ob_sequence a ≠ ob_sequence b) then bool_decide (ob_sequence a < ob_sequence b)
  else textBefore (directionString (ob_direction a)) (directionString (ob_direction b)).
Definition listRowLe (a b : OutboxRow) : Prop := listRowBefore b a = false.
#[global] Instance listRowLe_dec a b : Decision (listRowLe a b).
Proof. unfold listRowLe. apply _. Defined.
Definition PostgresListDispatches (ctx : option error) (sagaID : string) (db : Database) : result (list Dispatch) :=
  ctxErr ctx ;; Ok (scanDispatch <$> merge_sort listRowLe (selectRows (λ row, bool_decide (ob_saga_id row = sagaID)) (pg_outbox db)).*2).
Definition attemptLe (a b : AttemptRow) : Prop := aw_attempt a ≤ aw_attempt b.
#[global] Instance attemptLe_dec a b : Decision (attemptLe a b).
Proof. unfold attemptLe. apply _. Defined.
Definition PostgresListAttempts (ctx : option error) (dispatchID : string) (db : Database) : result (list DispatchAttempt) :=
  ctxErr ctx ;; Ok (scanAttempt <$> merge_sort attemptLe (selectRows (λ row, bool_decide (aw_dispatch_id row = dispatchID)) (pg_attempts db)).*2).
End Store.
