(* ===== verification/PostgresSim.v ===== *)
(** * The tables represent an outbox store

    When the rows of a database stand for a store of [Outbox], and that the transactions of
    [Postgres] that change the outbox tables keep this so. Compared are all columns but the
    text of messages, revisions and the times of writing; documents are compared in the
    normal form of [jsonb], and the time of the next attempt while it matters. *)

From S2P Require Import Prelude GoText Sha256 Json Workflow Identity Ledger Outbox OutboxInv OutboxDyn OutboxOps OutboxClose Postgres.
From Stdlib Require Import ZArith String Btauto.
Local Open Scope list_scope.
Local Open Scope Z_scope.

Ltac decide_closed :=
  repeat match goal with |- context [bool_decide ?P] => let b := eval vm_compute in (bool_decide P) in match b with true => idtac | false => idtac end; change (bool_decide P) with b end.

(** ** Queries *)
Section Queries.
  Context {K V : Type} `{Countable K}.
Lemma selectRows_elem (p : V → bool) (m : gmap K V) k v : (k, v) ∈ selectRows p m ↔ m !! k = Some v ∧ p v = true.
Proof. unfold selectRows. rewrite list_elem_of_In, List.filter_In, <- list_elem_of_In, elem_of_map_to_list. reflexivity. Qed.
Lemma existsRow_true (p : V → bool) (m : gmap K V) : existsRow p m = true ↔ ∃ k v, m !! k = Some v ∧ p v = true.
Proof.
  unfold existsRow. destruct (selectRows p m) as [|[k v] l] eqn:E.
  - split; [discriminate|]. intros (k & v & L). apply selectRows_elem in L. rewrite E in L. inversion L.
  - split; [|reflexivity]. intros _. exists k, v. apply selectRows_elem. rewrite E. left.
Qed.
Lemma existsRow_false (p : V → bool) (m : gmap K V) : existsRow p m = false ↔ ∀ k v, m !! k = Some v → p v = false.
Proof.
  rewrite <- not_true_iff_false, existsRow_true. split.
  - intros N k v L. apply not_true_iff_false. intros P. apply N. eauto.
  - intros N (k & v & L & P). rewrite (N _ _ L) in P. discriminate.
Qed.
Lemma countRows_zero (p : V → bool) (m : gmap K V) : countRows p m = 0 ↔ existsRow p m = false.
Proof. unfold countRows, existsRow. destruct (selectRows p m); cbn; [tauto|]. split; [lia|discriminate]. Qed.
Lemma countRows_ext (p q : V → bool) (m : gmap K V) : (∀ k v, m !! k = Some v → p v = q v) → countRows p m = countRows q m.
Proof.
  intros E. unfold countRows, selectRows. do 2 f_equal. assert (F : ∀ k v, (k, v) ∈ map_to_list m → p v = q v).
  { intros k v I. apply (E k), elem_of_map_to_list, I. }
  revert F. generalize (map_to_list m). induction l as [|[k v] l IH]; intros F; [reflexivity|]. cbn. rewrite (F k v) by left.
  rewrite IH; [reflexivity|]. intros k' v' I. apply (F k'). right. exact I.
Qed.
End Queries.
Lemma existsRow_mapExists {V W} (p : V → bool) (q : W → bool) (m : gmap string V) (m' : gmap string W) :
  (∀ k, is_Some (m !! k) ↔ is_Some (m' !! k)) → (∀ k v w, m !! k = Some v → m' !! k = Some w → p v = q w) → existsRow p m = mapExists q m'.
Proof.
  intros D E. apply eq_true_iff_eq. rewrite existsRow_true, mapExists_true. split; intros (k & v & L & P).
  - destruct (proj1 (D k)) as [w L']; [eauto|]. exists k, w. rewrite <- (E _ _ _ L L'). auto.
  - destruct (proj2 (D k)) as [w L']; [eauto|]. exists k, w. rewrite (E _ _ _ L' L). auto.
Qed.

(** ** Representation *)
Section Sim.
  Context `{PT : !PostgresTypes}.

Definition canonText (text : string) : string := default text (jsonb text).
Definition canonSaga (saga : SagaInstance) : SagaInstance := saga <| sg_Revision := 0 |> <| sg_CreatedAt := zeroTime |> <| sg_UpdatedAt := zeroTime |>.
Definition canonStep (step : SagaStep) : SagaStep :=
  step <| st_Arguments := canonText (st_Arguments step) |> <| st_CompensationArguments := canonText (st_CompensationArguments step) |>
       <| st_Result := canonText (st_Result step) |>.
Definition canonDispatch (d : Dispatch) : Dispatch :=
  d <| d_Arguments := canonText (d_Arguments d) |> <| d_Result := canonText (d_Result d) |>
    <| d_NextAttemptAt := if bool_decide (d_State d = DispatchRetryWait) then d_NextAttemptAt d else zeroTime |>
    <| d_LastError := "" |> <| d_Revision := 0 |> <| d_CreatedAt := zeroTime |> <| d_UpdatedAt := zeroTime |>.
Definition canonAttempt (a : DispatchAttempt) : DispatchAttempt :=
  a <| at_StartedAt := zeroTime |> <| at_CompletedAt := if timeIsZero (at_CompletedAt a) then zeroTime else 1 |>.

(** The attempt of a given number. *)
Definition attemptAt (s : InMemoryOutboxStore) (k : string) (n : Z) : option DispatchAttempt :=
  if bool_decide (1 ≤ n) then attemptsOf s k !! Z.to_nat (n - 1) else None.
Record represents (db : Database) (s : InMemoryOutboxStore) : Prop := {
  rp_sagas : canonSaga <$> pg_instances db = canonSaga <$> os_sagas s;
  rp_dispatches : canonDispatch ∘ scanDispatch <$> pg_outbox db = canonDispatch <$> os_dispatches s;
  rp_steps sid eid : canonStep ∘ scanStep <$> pg_steps db !! (sid, eid) = canonStep <$> stepAt s sid eid;
  rp_attempts k n : canonAttempt ∘ scanAttempt <$> pg_attempts db !! (k, n) = canonAttempt <$> attemptAt s k n;
  rp_row k row : pg_outbox db !! k = Some row → ob_serial_saga row = true ∧ (ob_state row = DispatchInFlight → is_Some (ob_lease_deadline row));
  rp_step key row : pg_steps db !! key = Some row → tp_compensation_verb row ≠ Some "";
  rp_completed key row : pg_attempts db !! key = Some row → aw_completed_at row ≠ Some zeroTime;
  rp_count k : Z.of_nat (List.length (attemptsOf s k)) ≤ maxBigint }.

Lemma represents_empty : represents emptyDatabase NewInMemoryOutboxStore.
Proof.
  split; try (intros ? ? L; cbn in L; rewrite lookup_empty in L; discriminate).
  - cbn. rewrite !fmap_empty. reflexivity.
  - cbn. rewrite !fmap_empty. reflexivity.
  - intros sid eid. unfold stepAt, stepsOf. cbn. rewrite !lookup_empty. reflexivity.
  - intros k n. unfold attemptAt, attemptsOf. cbn. rewrite !lookup_empty. cbn. destruct (bool_decide _); reflexivity.
  - intros k. unfold attemptsOf. cbn. rewrite lookup_empty. cbn. unfold maxBigint. lia.
Qed.

(** Equal canonical forms agree on what the transactions read. *)
Ltac use_canon :=
  repeat match goal with
  | H : canonDispatch _ = canonDispatch _ |- _ => unfold canonDispatch in H; injection H; clear H; intros
  | H : canonSaga _ = canonSaga _ |- _ => unfold canonSaga in H; injection H; clear H; intros
  | H : canonStep _ = canonStep _ |- _ => unfold canonStep in H; injection H; clear H; intros
  | H : canonAttempt _ = canonAttempt _ |- _ => unfold canonAttempt in H; injection H; clear H; intros
  end.
Lemma rep_lookup {A B C} (f : A → C) (g : B → C) (m : gmap string A) (m' : gmap string B) k x :
  f <$> m = g <$> m' → m !! k = Some x → ∃ y, m' !! k = Some y ∧ f x = g y.
Proof.
  intros E L. apply (f_equal (lookup k)) in E. rewrite !lookup_fmap, L in E. destruct (m' !! k) as [y|]; [|discriminate].
  exists y. split; [reflexivity|]. apply (inj Some) in E. exact E.
Qed.
Lemma rep_is_Some {A B C} (f : A → C) (g : B → C) (m : gmap string A) (m' : gmap string B) k : f <$> m = g <$> m' → is_Some (m !! k) ↔ is_Some (m' !! k).
Proof. intros E. rewrite <- (fmap_is_Some f), <- (fmap_is_Some g), <- !lookup_fmap, E. reflexivity. Qed.
Lemma rep_saga db s k sg : represents db s → pg_instances db !! k = Some sg → ∃ sg', os_sagas s !! k = Some sg' ∧ canonSaga sg = canonSaga sg'.
Proof. intros R. apply rep_lookup, (rp_sagas _ _ R). Qed.
Lemma rep_dispatch db s k row : represents db s → pg_outbox db !! k = Some row → ∃ d, os_dispatches s !! k = Some d ∧ canonDispatch (scanDispatch row) = canonDispatch d.
Proof. intros R L. apply (rep_lookup _ _ _ _ _ _ (rp_dispatches _ _ R) L). Qed.
Lemma rep_row db s k d : represents db s → os_dispatches s !! k = Some d → ∃ row, pg_outbox db !! k = Some row ∧ canonDispatch (scanDispatch row) = canonDispatch d.
Proof. intros R L. destruct (rep_lookup _ _ _ _ _ _ (eq_sym (rp_dispatches _ _ R)) L) as (row & L' & E). exists row. split; [exact L'|symmetry; exact E]. Qed.
Lemma rep_step db s sid eid row : represents db s → pg_steps db !! (sid, eid) = Some row → ∃ st, stepAt s sid eid = Some st ∧ canonStep (scanStep row) = canonStep st.
Proof.
  intros R L. pose proof (rp_steps _ _ R sid eid) as E. rewrite L in E. destruct (stepAt s sid eid) as [st|]; [|discriminate].
  exists st. split; [reflexivity|]. apply (inj Some) in E. exact E.
Qed.

(** ** Creating sagas and steps *)
Definition follows (db' : Database) (s : InMemoryOutboxStore) : Prop := ∃ s', rtc outbox_step s s' ∧ represents db' s'.
Lemma follows_same db s : represents db s → follows db s.
Proof. intros R. exists s. split; [apply rtc_refl|exact R]. Qed.
Lemma follows_step db s s' : outbox_step s s' → represents db s' → follows db s.
Proof. intros S R. exists s'. split; [apply rtc_once, S|exact R]. Qed.
Lemma rep_no_saga db s k : represents db s → pg_instances db !! k = None ↔ os_sagas s !! k = None.
Proof. intros R. rewrite !eq_None_not_Some, (rep_is_Some _ _ _ _ k (rp_sagas _ _ R)). reflexivity. Qed.
Lemma rep_no_row db s k : represents db s → pg_outbox db !! k = None ↔ os_dispatches s !! k = None.
Proof. intros R. rewrite !eq_None_not_Some, (rep_is_Some _ _ _ _ k (rp_dispatches _ _ R)). reflexivity. Qed.

Lemma sim_createSaga tb now request db sg db' s : represents db s → store_inv s → createSagaTx tb now request db = Ok (sg, db') → follows db' s.
Proof.
  intros R I H. unfold createSagaTx in H. apply bind_Ok in H as ([] & V & H). destruct (pg_instances db !! cs_SagaID request) as [row|] eqn:L.
  { inv_res. apply follows_same, R. }
  injection H as _ <-. pose proof (proj1 (rep_no_saga _ _ _ R) L) as N.
  eapply follows_step; [eapply (step_create tb None now request)|].
  { unfold CreateSaga. cbn [ctxErr mbind result_bind]. rewrite V. cbn [mbind result_bind]. rewrite N. reflexivity. }
  destruct R as [R1 R2 R3 R4 R5 R6 R7 R8]. split; try assumption.
  - cbn. rewrite !fmap_insert, R1. reflexivity.
  - intros sid eid. cbn. rewrite R3. unfold stepAt, stepsOf. cbn. destruct (decide (sid = cs_SagaID request)) as [->|Ne]; [|rewrite lookup_insert_ne by auto; reflexivity].
    rewrite lookup_insert_eq. cbn. rewrite lookup_empty. destruct (default ∅ (os_steps s !! cs_SagaID request) !! eid) as [st|] eqn:E; [|reflexivity].
    apply (si_step _ (inv_static _ I)) in E as [[? E] _]. congruence.
Qed.

Lemma nodup_range (l : list Z) m : NoDup l → (∀ x, x ∈ l → 1 ≤ x ≤ m) → (List.length l ≤ Z.to_nat m)%nat.
Proof.
  intros N B. rewrite <- (length_seqZ 1 m). apply submseteq_length, NoDup_submseteq; [exact N|]. intros x I. apply elem_of_seqZ. specialize (B x I). lia.
Qed.
Lemma foldr_max {A} (f : A → Z) l : (∀ x, x ∈ l → f x ≤ foldr (λ p, Z.max (f p)) 0 l) ∧ (∀ b, 0 ≤ b → (∀ x, x ∈ l → f x ≤ b) → foldr (λ p, Z.max (f p)) 0 l ≤ b).
Proof.
  induction l as [|a l [IH1 IH2]]; cbn.
  - split; [intros x I; inversion I|auto].
  - split; [intros x I; apply elem_of_cons in I as [-> |I]; [lia|specialize (IH1 _ I); lia]|].
    intros b B F. assert (f a ≤ b) by (apply F; left). assert (foldr (λ p, Z.max (f p)) 0 l ≤ b) by (apply IH2; [exact B|]; intros x I; apply F; right; exact I). lia.
Qed.
Lemma rep_step_saga db s a b row : represents db s → static_inv s → pg_steps db !! (a, b) = Some row → tp_saga_id row = a ∧ tp_effect_id row = b.
Proof. intros R I L. destruct (rep_step _ _ _ _ _ R L) as (st & E & C). apply (si_step _ I) in E as (_ & E1 & E2 & _). use_canon. cbn in *. split; congruence. Qed.
Lemma rep_stepRow db s sid eid st : represents db s → stepAt s sid eid = Some st → ∃ row, pg_steps db !! (sid, eid) = Some row ∧ canonStep (scanStep row) = canonStep st.
Proof.
  intros R L. pose proof (rp_steps _ _ R sid eid) as E. rewrite L in E. destruct (pg_steps db !! (sid, eid)) as [row|]; [|discriminate].
  exists row. split; [reflexivity|]. apply (inj Some) in E. exact E.
Qed.
(** The sequences of a saga are dense, so that their maximum is their number. *)
Lemma maxSequence_size db s sid : represents db s → static_inv s → maxSequence db sid = Z.of_nat (size (stepsOf s sid)).
Proof.
  intros R I. unfold maxSequence. destruct (foldr_max (λ p : (string * string) * StepRow, tp_sequence p.2) (selectRows (λ row, bool_decide (tp_saga_id row = sid)) (pg_steps db))) as [U L].
  apply Z.le_antisymm.
  - apply L; [lia|]. intros [[a b] row] E. apply selectRows_elem in E as [E S]. apply bool_decide_eq_true in S. cbn [snd].
    destruct (rep_step_saga _ _ _ _ _ R I E) as [<- _]. rewrite S in E. destruct (rep_step _ _ _ _ _ R E) as (st & Es & C). apply (si_step _ I) in Es. use_canon. cbn in *. lia.
  - set (m := foldr _ 0 _) in *.
    assert (P : (List.length (st_Sequence <$> (map_to_list (stepsOf s sid)).*2) ≤ Z.to_nat m)%nat).
    { apply nodup_range.
      - rewrite <- list_fmap_compose. apply NoDup_fmap_2_strong; [|apply NoDup_map_to_list].
        intros [e1 s1] [e2 s2] I1 I2 E. apply elem_of_map_to_list in I1, I2. cbn in E. assert (e1 = e2) as <- by (eapply (si_seq _ I); eassumption). congruence.
      - intros x J. apply list_elem_of_fmap in J as (st & -> & J). apply list_elem_of_fmap in J as ([e st'] & -> & J). apply elem_of_map_to_list in J. cbn [snd].
        pose proof (si_step _ I _ _ _ J) as (_ & _ & _ & B). split; [lia|]. destruct (rep_stepRow _ _ _ _ _ R J) as (row & E & C).
        destruct (rep_step_saga _ _ _ _ _ R I E) as [S _]. specialize (U ((sid, e), row)). cbn [snd] in U. use_canon. cbn in *.
        replace (st_Sequence st') with (tp_sequence row) by congruence. apply U. apply selectRows_elem. split; [exact E|]. apply bool_decide_eq_true, S. }
    rewrite !length_fmap, length_map_to_list in P. assert (0 ≤ m) by (destruct (Z_le_gt_dec 0 m); [assumption|]; exfalso; subst m; clear -g; revert g; induction (selectRows _ _) as [|p l IH]; cbn; lia). lia.
Qed.

Lemma castJSON_canon t t' : castJSON t = Ok t' → canonText t' = canonText t.
Proof. unfold castJSON, canonText. intros E%ofOption_Ok. rewrite E, (jsonb_normal _ _ E). reflexivity. Qed.
Lemma nullJSON_canon t o : nullJSON t = Ok o → canonText (ofNullString o) = canonText t.
Proof.
  unfold nullJSON. case_bool_decide as E; [intros [= <-]; rewrite E; reflexivity|].
  destruct (jsonb t) as [t'|] eqn:J; [|discriminate]. cbn. intros [= <-]. cbn. unfold canonText. rewrite J, (jsonb_normal _ _ J). reflexivity.
Qed.
Lemma ofNull_nullString t : ofNullString (nullString t) = t.
Proof. unfold nullString. case_bool_decide as E; [rewrite E; reflexivity|reflexivity]. Qed.
Lemma nullString_nonempty t : nullString t ≠ Some "".
Proof. unfold nullString. case_bool_decide; congruence. Qed.
Lemma identity_row db sid eid dir x : getDispatchByIdentityTx db sid eid dir = Some x →
  ∃ k row, pg_outbox db !! k = Some row ∧ identityIs sid eid dir row = true ∧ x = scanDispatch row.
Proof.
  unfold getDispatchByIdentityTx. intros E. apply fmap_Some in E as (row & E & ->). apply list_lookup_fmap_Some in E as ([k row'] & -> & E).
  apply list_elem_of_lookup_2, selectRows_elem in E as [E P]. eauto.
Qed.
Lemma updateRow_all {K V} `{Countable K} (m : gmap K V) k f v : m !! k = Some v → (updateRow k (λ _, true) f m).1 = <[k := f v]> m.
Proof. unfold updateRow. intros ->. reflexivity. Qed.
Lemma insertOutbox_ok row db db' : insertOutbox row db = Ok db' → pg_outbox db !! ob_dispatch_id row = None ∧ db' = db <| pg_outbox := <[ob_dispatch_id row := row]> (pg_outbox db) |>.
Proof.
  unfold insertOutbox. intros H. inv_res. match goal with E : bool_decide (is_Some _) || _ = false |- _ => apply orb_false_iff in E as [E _]; apply bool_decide_eq_false in E; apply eq_None_not_Some in E end. auto.
Qed.
Lemma insertStep_ok row db db' : insertStep row db = Ok db' →
  pg_steps db !! (tp_saga_id row, tp_effect_id row) = None ∧ db' = db <| pg_steps := <[(tp_saga_id row, tp_effect_id row) := row]> (pg_steps db) |>.
Proof.
  unfold insertStep. intros H. inv_res. match goal with E : bool_decide (is_Some _) || _ = false |- _ => apply orb_false_iff in E as [E _]; apply bool_decide_eq_false in E; apply eq_None_not_Some in E end. auto.
Qed.
Lemma stepAt_put s sid eid st sid' eid' : stepAt (putStep sid eid st s) sid' eid' = if bool_decide (sid' = sid ∧ eid' = eid) then Some st else stepAt s sid' eid'.
Proof.
  unfold stepAt, stepsOf, putStep. cbn. case_bool_decide as E.
  - destruct E as [-> ->]. rewrite lookup_insert_eq. cbn. apply lookup_insert_eq.
  - destruct (decide (sid' = sid)) as [->|N]; [|rewrite lookup_insert_ne by auto; reflexivity]. rewrite lookup_insert_eq. cbn.
    rewrite lookup_insert_ne by (intros ->; apply E; split; reflexivity). reflexivity.
Qed.
Lemma sim_enqueueStep now request db d db' s : represents db s → store_inv s → enqueueStepTx now request db = Ok (d, db') → follows db' s.
Proof.
  intros R I H. pose proof (inv_static _ I) as St. unfold enqueueStepTx in H. apply bind_Ok in H as (n & N & H). set (r := ne_request n) in *.
  apply bind_Ok in H as (sg & G & H). unfold getSagaTx in G. destruct (pg_instances db !! eq_SagaID r) as [sg0|] eqn:Lg; [|discriminate]. injection G as <-. unfold scanSaga in *.
  destruct (rep_saga _ _ _ _ R Lg) as (sg' & Lg' & Cg). destruct (si_saga _ St _ _ Lg') as (Es & Se & _).
  destruct (getDispatchByIdentityTx db _ _ _) as [x|] eqn:Q.
  { inv_res. apply follows_same, R. }
  inv_res. bool_to_prop.
  match goal with E : insertStep _ _ = Ok _ |- _ => apply insertStep_ok in E as [Ls ->] end.
  match goal with E : insertOutbox _ _ = Ok _ |- _ => apply insertOutbox_ok in E as [Lo ->] end. cbn [tp_saga_id tp_effect_id ob_dispatch_id queuedRow] in *.
  repeat match goal with E : ¬ (_ ≠ _) |- _ => apply dec_stable in E end.
  cbn in Ls, Lo. assert (E1 : sg_SagaID sg0 = eq_SagaID r) by congruence. assert (E2 : sg_Serial sg0 = true) by congruence.
  assert (E3 : sg_Namespace sg0 = sg_Namespace sg') by congruence. rewrite E1 in *. rewrite E3 in Lo.
  rewrite (maxSequence_size _ _ _ R St) in *. apply (rep_no_row _ _ _ R) in Lo.
  eapply follows_step; [eapply (step_enqueue None now request)|].
  { unfold EnqueueStep. cbn [ctxErr mbind result_bind]. rewrite N. cbn [mbind result_bind]. fold r. rewrite Lg'. cbn [ofOption mbind result_bind].
    rewrite Es, Lo. replace (sg_State sg') with SagaRunning by congruence. cbn [isTerminalSaga failIf mbind result_bind].
    rewrite (bool_decide_eq_false_2 (SagaRunning ≠ SagaRunning)) by (intros []; reflexivity).
    rewrite (bool_decide_eq_false_2 (eq_Sequence r ≠ _)) by (intros []; assumption). cbn [failIf mbind result_bind]. reflexivity. }
  rewrite (updateRow_all _ _ _ _ Lg), E2, E3. destruct R as [R1 R2 R3 R4 R5 R6 R7 R8]. split.
  - cbn. rewrite !fmap_insert, R1. f_equal. unfold canonSaga. cbn. f_equal; congruence.
  - cbn. rewrite !fmap_insert, R2. f_equal. unfold canonDispatch. cbn. f_equal. apply castJSON_canon; assumption.
  - intros sid eid. cbn.
    change (stepAt _ sid eid) with (stepAt (putStep (eq_SagaID r) (eq_EffectID r) (mkStep (eq_SagaID r) (eq_EffectID r) (eq_Sequence r) (eq_Verb r)
        (eq_ContractHash r) (ne_arguments n) (ne_argumentHash n) (eq_CompensationVerb r)
        (eq_CompensationContract r) (ne_compensationArguments n) (ne_compensationHash n)
        (eq_Fencing r) StepPending "") s) sid eid). rewrite stepAt_put. case_bool_decide as E.
    + destruct E as [-> ->]. rewrite lookup_insert_eq. cbn. f_equal. unfold canonStep. cbn. rewrite !ofNull_nullString. f_equal; [apply castJSON_canon; assumption|apply nullJSON_canon; assumption].
    + rewrite lookup_insert_ne by (intros K; injection K as K1 K2; apply E; split; congruence). apply R3.
  - exact R4.
  - intros k row L. cbn in L. apply lookup_insert_Some in L as [[<- <-]|[_ L]]; [|apply (R5 _ _ L)]. split; [reflexivity|discriminate].
  - intros key row L. cbn in L. apply lookup_insert_Some in L as [[<- <-]|[_ L]]; [|apply (R6 _ _ L)]. apply nullString_nonempty.
  - exact R7.
  - exact R8.
Qed.

(** ** Claims *)
Lemma dispatchIDOf_nonempty s k d : static_inv s → os_dispatches s !! k = Some d → k ≠ "".
Proof. intros I L. apply (si_disp _ I) in L as (_ & -> & _). discriminate. Qed.
Lemma claim_targets s o now k d : static_inv s → os_dispatches s !! k = Some d → cl_TargetDispatchID o = k → eligible s o now d = true → startable s now d = true →
  List.find (λ p, startable s now p.2) (eligibleDispatches s o now) = Some (k, d).
Proof.
  intros I L T E S. destruct (List.find _ _) as [[k' d']|] eqn:F.
  - apply find_elem in F as [F _]. apply eligibleDispatches_elem in F as [L' E']. assert (d_ID d' = k) as K.
    { unfold eligible in E'. rewrite T in E'. rewrite (bool_decide_eq_true_2 (k ≠ "")) in E' by (eapply dispatchIDOf_nonempty; eassumption).
      destruct (bool_decide (d_ID d' ≠ k)) eqn:B; [discriminate|]. apply bool_decide_eq_false, dec_stable in B. exact B. }
    pose proof (si_disp _ I _ _ L') as [K' _]. assert (k' = k) as -> by congruence. congruence.
  - exfalso. eapply List.find_none in F; [|apply list_elem_of_In, (eligibleDispatches_elem s o now k d); eauto]. cbn in F. congruence.
Qed.
Lemma u64_bigint n : 0 ≤ n ≤ maxBigint → u64 n = n.
Proof. unfold u64, maxBigint. intros B. apply Z.mod_small. lia. Qed.
Lemma rep_attempt_count db s k d : represents db s → store_inv s → os_dispatches s !! k = Some d → d_Attempt d = Z.of_nat (List.length (attemptsOf s k)).
Proof. intros R I L. rewrite (di_count _ _ (inv_disp _ I _ _ L)). apply u64_bigint. pose proof (rp_count _ _ R k). lia. Qed.
Lemma attemptAt_put s k l k' n : attemptAt (putAttempts k l s) k' n = if bool_decide (k' = k) then (if bool_decide (1 ≤ n) then l !! Z.to_nat (n - 1) else None) else attemptAt s k' n.
Proof.
  unfold attemptAt. destruct (decide (k' = k)) as [->|E].
  - rewrite (bool_decide_eq_true_2 (k = k)) by reflexivity. rewrite attemptsOf_put. reflexivity.
  - rewrite (bool_decide_eq_false_2 (k' = k)) by exact E. rewrite attemptsOf_put_ne by exact E. reflexivity.
Qed.

(** The fields that canonical forms keep. *)
Lemma canonDispatch_fields d d' : canonDispatch d = canonDispatch d' →
  d_ID d = d_ID d' ∧ d_SagaID d = d_SagaID d' ∧ d_EffectID d = d_EffectID d' ∧ d_Sequence d = d_Sequence d' ∧ d_Direction d = d_Direction d' ∧ d_State d = d_State d' ∧
  d_Attempt d = d_Attempt d' ∧ d_LeaseOwner d = d_LeaseOwner d' ∧ d_LeaseToken d = d_LeaseToken d' ∧ d_LeaseDeadline d = d_LeaseDeadline d' ∧
  (d_State d = DispatchRetryWait → d_NextAttemptAt d = d_NextAttemptAt d') ∧ d_Fencing d = d_Fencing d' ∧ d_FencingGrants d = d_FencingGrants d' ∧ d_LastOutcome d = d_LastOutcome d'.
Proof.
  unfold canonDispatch. cbn. intros E. injection E; intros. repeat (split; [assumption|]). split; [|repeat split; assumption].
  intros W. match goal with N : (if _ then _ else _) = (if _ then _ else _), S : d_State d = d_State d' |- _ => rewrite <- S, W in N; exact N end.
Qed.
Lemma canonSaga_fields g g' : canonSaga g = canonSaga g' →
  sg_SagaID g = sg_SagaID g' ∧ sg_Namespace g = sg_Namespace g' ∧ sg_ExecutionID g = sg_ExecutionID g' ∧ sg_Serial g = sg_Serial g' ∧ sg_State g = sg_State g'.
Proof. unfold canonSaga. cbn. intros E. injection E; intros. repeat split; assumption. Qed.
(** A condition on rows that reads as one on dispatches. *)
Definition sameRow (row : OutboxRow) (d : Dispatch) : Prop :=
  canonDispatch (scanDispatch row) = canonDispatch d ∧ ob_serial_saga row = true ∧ (ob_state row = DispatchInFlight → is_Some (ob_lease_deadline row)).
Lemma rep_same db s k row d : represents db s → pg_outbox db !! k = Some row → os_dispatches s !! k = Some d → sameRow row d.
Proof. intros R L L'. destruct (rep_dispatch _ _ _ _ R L) as (d' & L2 & C). assert (d' = d) as -> by congruence. split; [exact C|apply (rp_row _ _ R _ _ L)]. Qed.
Lemma rep_exists db s p q : represents db s → (∀ row d, sameRow row d → p row = q d) → existsRow p (pg_outbox db) = mapExists q (os_dispatches s).
Proof.
  intros R E. apply existsRow_mapExists; [intros k; apply (rep_is_Some _ _ _ _ k (rp_dispatches _ _ R))|]. intros k row d L L'. apply E. eapply rep_same; eassumption.
Qed.
Lemma sameRow_active row d now : zeroTime ≤ now → sameRow row d →
  bool_decide (ob_state row = DispatchInFlight) && sqlGt (ob_lease_deadline row) now = bool_decide (d_State d = DispatchInFlight) && timeAfter (d_LeaseDeadline d) now.
Proof.
  intros T (C & _ & S). apply canonDispatch_fields in C as (_ & _ & _ & _ & _ & E & _ & _ & _ & El & _). cbn in E, El. rewrite <- E, <- El.
  case_bool_decide as B; [|reflexivity]. destruct (S B) as [t ->]. reflexivity.
Qed.

(** What the selection of a claim says in the terms of the store. *)
Lemma claimable_eligible db s now o k row d : represents db s → store_inv s → zeroTime ≤ now → pg_outbox db !! k = Some row → os_dispatches s !! k = Some d →
  claimableRow db now o row = true → eligible s (mkClaim (cl_Owner o) (cl_LeaseDuration o / 1000 * 1000) zeroTime k) now d = true ∧ startable s now d = true.
Proof.
  intros R I T Lr L C. pose proof (inv_static _ I) as St. destruct (rep_dispatch _ _ _ _ R Lr) as (d' & L' & Cd). assert (d' = d) as -> by congruence.
  pose proof (si_disp _ St _ _ L) as (Ek & _). pose proof (rp_row _ _ R _ _ Lr) as [Se Le]. unfold claimableRow in C.
  destruct (pg_instances db !! ob_saga_id row) as [sg|] eqn:Lg; [|discriminate]. destruct (rep_saga _ _ _ _ R Lg) as (sg' & Lg' & Cg).
  pose proof (si_saga _ St _ _ Lg') as (_ & Sg & _). rewrite Se in C. cbn [negb orb] in C.
  apply andb_true_iff in C as [C Early]. apply andb_true_iff in C as [C Act]. apply andb_true_iff in C as [C Phase]. apply andb_true_iff in C as [_ Due].
  apply canonDispatch_fields in Cd as (Ei & Es & _ & Eq & Ed & Est & _ & _ & _ & El & En & _). apply canonSaga_fields in Cg as (_ & _ & _ & _ & Eg). cbn in *. split.
  - unfold eligible. cbn [cl_TargetDispatchID]. rewrite (bool_decide_eq_false_2 (d_ID d ≠ k)) by (intros []; exact Ek). rewrite andb_false_r, <- Es, Lg', <- Eg.
    rewrite <- Ed. revert En El Phase Due. rewrite <- Est. destruct (ob_state row), (sg_State sg), (ob_direction row); intros En El; decide_closed; cbn; try discriminate; intros _;
      try reflexivity; (specialize (En eq_refl) || clear En); try rewrite <- En; try rewrite <- El; unfold sqlLe, ofNullTime in *.
    all: try (destruct (ob_next_attempt_at row) as [t|]; cbn; [rewrite orb_false_r; intros ->; reflexivity|intros _; apply negb_true_iff, bool_decide_eq_false; lia]).
    all: destruct (ob_lease_deadline row); cbn; [intros ->; reflexivity|discriminate].
  - unfold startable. rewrite <- Es, Lg', Sg. cbn [andb]. apply negb_true_iff, orb_false_iff. split.
    + apply negb_true_iff in Act. rewrite <- Act. unfold hasOtherInFlightLocked. symmetry. apply (rep_exists _ _ _ _ R). intros r x X.
      pose proof (sameRow_active _ _ now T X) as A. destruct X as (X & _). apply canonDispatch_fields in X as (Xi & Xs & _). cbn in *.
      rewrite Xi, Xs, Ei. generalize dependent (sqlGt (ob_lease_deadline r) now). intros b A.
      transitivity (bool_decide (d_ID x ≠ d_ID d) && bool_decide (d_SagaID x = ob_saga_id row) && (bool_decide (ob_state r = DispatchInFlight) && b)); [btauto|]. rewrite A. btauto.
    + unfold hasUnfinishedEarlierForwardLocked. rewrite <- Ed. destruct (bool_decide (ob_direction row ≠ DirectionForward)); [reflexivity|]. cbn [orb] in Early.
      apply negb_true_iff in Early. rewrite <- Early. symmetry. apply (rep_exists _ _ _ _ R). intros r x (X & _).
      apply canonDispatch_fields in X as (_ & Xs & _ & Xq & Xd & Xt & _). cbn in *. rewrite Xs, Xq, Xd, Xt, <- Es, <- Eq. reflexivity.
Qed.

Definition Microsecond : Z := 1000.
(** Replacing the row of one dispatch. *)
Lemma rep_put_row db s k row d : represents db s → sameRow row d → represents (db <| pg_outbox := <[k := row]> (pg_outbox db) |>) (putDispatch k d s).
Proof.
  intros [R1 R2 R3 R4 R5 R6 R7 R8] (C & S & D). split; try assumption.
  - cbn. rewrite !fmap_insert, R2. f_equal. exact C.
  - intros k' row' L. cbn in L. apply lookup_insert_Some in L as [[_ <-]|[_ L]]; [auto|apply (R5 _ _ L)].
Qed.
(** Writing the attempt of one number. *)
Lemma rep_put_attempt db s k n row a l : represents db s → 1 ≤ n → canonAttempt (scanAttempt row) = canonAttempt a → aw_completed_at row ≠ Some zeroTime →
  l !! Z.to_nat (n - 1) = Some a → (∀ i, i ≠ Z.to_nat (n - 1) → l !! i = attemptsOf s k !! i) → Z.of_nat (List.length l) ≤ maxBigint →
  represents (db <| pg_attempts := <[(k, n) := row]> (pg_attempts db) |>) (putAttempts k l s).
Proof.
  intros [R1 R2 R3 R4 R5 R6 R7 R8] N C Z Ln Lo B. split; try assumption.
  - intros k' n'. cbn. rewrite attemptAt_put. destruct (decide (k' = k)) as [->|Ne].
    + rewrite (bool_decide_eq_true_2 (k = k)) by reflexivity. destruct (decide (n' = n)) as [->|Nn].
      * rewrite lookup_insert_eq, (bool_decide_eq_true_2 (1 ≤ n)), Ln by exact N. cbn. f_equal. exact C.
      * rewrite lookup_insert_ne by congruence. rewrite R4. unfold attemptAt. destruct (bool_decide (1 ≤ n')) eqn:E; [|reflexivity]. apply bool_decide_eq_true in E.
        rewrite Lo by lia. reflexivity.
    + rewrite (bool_decide_eq_false_2 (k' = k)) by exact Ne. rewrite lookup_insert_ne by congruence. apply R4.
  - intros key row' L. cbn in L. apply lookup_insert_Some in L as [[_ <-]|[_ L]]; [exact Z|apply (R7 _ _ L)].
  - intros k'. destruct (decide (k' = k)) as [->|Ne]; [rewrite attemptsOf_put; exact B|rewrite attemptsOf_put_ne by exact Ne; apply R8].
Qed.
Lemma sim_claim ctx now locked token o db d db' s : represents db s → store_inv s → zeroTime ≤ now → Microsecond ≤ cl_LeaseDuration o →
  PostgresClaimDispatch ctx now locked token o db = Ok (d, db') → follows db' s.
Proof.
  intros R I T D H. unfold PostgresClaimDispatch in H. apply bind_Ok in H as ([] & V%failIf_Ok & H). apply bind_Ok in H as ([] & _ & H).
  destruct (List.find _ _) as [[k row]|] eqn:F; [|discriminate]. apply find_elem in F as [F _]. rewrite merge_sort_Permutation in F. apply selectRows_elem in F as [L C].
  destruct (rep_dispatch _ _ _ _ R L) as (d0 & L0 & Cd). destruct (claimable_eligible _ _ _ _ _ _ _ R I T L L0 C) as [E S].
  pose proof (rep_attempt_count _ _ _ _ R I L0) as Cnt. pose proof (rep_same _ _ _ _ _ R L L0) as (_ & Ser & _). pose proof (si_disp _ (inv_static _ I) _ _ L0) as (Ek & _).
  apply bind_Ok in H as (tok & _ & H). apply bind_Ok in H as ([] & Bi%failIf_Ok & H). apply bind_Ok in H as ([] & _ & H). cbv zeta in H.
  apply bind_Ok in H as ([] & _ & H). apply bind_Ok in H as (d1 & _ & H). apply bind_Ok in H as ([] & _ & H). injection H as -> <-. bool_to_prop.
  set (o' := mkClaim (cl_Owner o) (cl_LeaseDuration o / 1000 * 1000) zeroTime k) in *.
  pose proof (claim_targets s o' now k d0 (inv_static _ I) L0 eq_refl E S) as F. pose proof (canonDispatch_fields _ _ Cd) as (_ & _ & _ & _ & _ & _ & Ea & _).
  assert (Ea' : ob_attempt row = d_Attempt d0) by exact Ea. clear Ea.
  assert (Au : u64_inc (d_Attempt d0) = ob_attempt row + 1) by (unfold u64_inc; rewrite <- Ea'; apply u64_bigint; split; [rewrite Ea', Cnt; lia|apply Z.nlt_ge, Bi]).
  assert (Du : ¬ cl_LeaseDuration o' ≤ 0).
  { unfold o', Microsecond in *. cbn [cl_LeaseDuration]. pose proof (Z.div_le_lower_bound (cl_LeaseDuration o) 1000 1 ltac:(lia) ltac:(lia)). lia. }
  apply (follows_step _ s (putAttempts k (attemptsOf s k ++ [claimAttempt now o' tok d0]) (putDispatch k (claimed now o' tok d0) s))).
  { apply (step_claim None now (Ok tok) o' s (claimed now o' tok d0)). unfold ClaimDispatch. cbn [ctxErr mbind result_bind].
    rewrite (bool_decide_eq_false_2 (cl_Owner o' = "")) by assumption. rewrite (bool_decide_eq_false_2 (cl_LeaseDuration o' ≤ 0)) by exact Du. cbn [orb failIf mbind result_bind].
    change (timeIsZero (cl_Now o')) with true. cbn iota. rewrite F. cbn [mbind result_bind]. rewrite <- Ek. reflexivity. }
  set (row' := claimedRow now o tok row).
  set (aw := mkAttemptRow k (ob_attempt row + 1) (cl_Owner o) tok (timeAdd now (cl_LeaseDuration o / 1000 * 1000)) [] None None now None).
  refine (rep_put_attempt (db <| pg_outbox := <[k := row']> (pg_outbox db) |>) (putDispatch k (claimed now o' tok d0) s) k (ob_attempt row + 1) aw
    (claimAttempt now o' tok d0) (attemptsOf s k ++ [claimAttempt now o' tok d0]) _ _ _ _ _ _ _).
  - apply rep_put_row; [exact R|]. split; [|split; [exact Ser|intros _; cbn; eauto]]. unfold canonDispatch in *. injection Cd; intros. cbn. rewrite Au. f_equal; assumption.
  - lia.
  - unfold canonAttempt. cbn. rewrite Au, Ek. reflexivity.
  - discriminate.
  - replace (Z.to_nat (ob_attempt row + 1 - 1)) with (List.length (attemptsOf s k)) by lia. rewrite lookup_app_r by lia. rewrite Nat.sub_diag. reflexivity.
  - intros i N. change (attemptsOf (putDispatch k _ s) k) with (attemptsOf s k). destruct (decide (i < List.length (attemptsOf s k))%nat); [rewrite lookup_app_l by lia; reflexivity|].
    rewrite !lookup_ge_None_2; [reflexivity|lia|rewrite length_app; cbn; lia].
  - rewrite length_app. cbn. lia.
Qed.

(** ** Fencing grants *)
Lemma updateRow_ok {K V} `{Countable K} (m m' : gmap K V) k p f n : updateRow k p f m = (m', n) → n = 1 → ∃ v, m !! k = Some v ∧ p v = true ∧ m' = <[k := f v]> m.
Proof.
  unfold updateRow. destruct (m !! k) as [v|] eqn:L; [|intros [= <- <-]; discriminate]. destruct (p v) eqn:P; [|intros [= <- <-]; discriminate].
  intros [= <- <-] _. exists v. auto.
Qed.
Lemma sameRow_lease row d attempt token now : sameRow row d → leasedRow attempt token now row = true → token ≠ "" → currentLeaseAt (Some d) attempt token now = true.
Proof.
  intros (C & _ & _) L T. apply canonDispatch_fields in C as (_ & _ & _ & _ & _ & Es & Ea & _ & Et & El & _). cbn in *. unfold leasedRow in L. unfold currentLeaseAt, currentLease.
  rewrite <- Es, <- Ea, <- Et, <- El. apply andb_true_iff in L as [L L4]. apply andb_true_iff in L as [L L3]. rewrite L. unfold sqlEq in L3. apply bool_decide_eq_true in L3. rewrite L3. cbn.
  rewrite (bool_decide_eq_true_2 (token ≠ "")), (bool_decide_eq_true_2 (token = token)) by auto. cbn. destruct (ob_lease_deadline row); [exact L4|discriminate].
Qed.
(** The attempt in flight is the last one. *)
Lemma rep_last_attempt db s k d row : represents db s → store_inv s → os_dispatches s !! k = Some d → pg_attempts db !! (k, d_Attempt d) = Some row →
  ∃ a, attemptsOf s k !! Z.to_nat (d_Attempt d - 1) = Some a ∧ canonAttempt (scanAttempt row) = canonAttempt a ∧ 1 ≤ d_Attempt d ∧ pred (List.length (attemptsOf s k)) = Z.to_nat (d_Attempt d - 1).
Proof.
  intros R I L A. pose proof (rep_attempt_count _ _ _ _ R I L) as C. pose proof (rp_attempts _ _ R k (d_Attempt d)) as E. rewrite A in E. unfold attemptAt in E.
  destruct (bool_decide (1 ≤ d_Attempt d)) eqn:B; [|discriminate]. apply bool_decide_eq_true in B.
  destruct (attemptsOf s k !! Z.to_nat (d_Attempt d - 1)) as [a|]; [|discriminate]. apply (inj Some) in E. exists a. repeat split; try assumption. lia.
Qed.
Lemma rep_update_last db s k d row row' f : represents db s → store_inv s → os_dispatches s !! k = Some d → pg_attempts db !! (k, d_Attempt d) = Some row →
  (∀ a, canonAttempt (scanAttempt row) = canonAttempt a → canonAttempt (scanAttempt row') = canonAttempt (f a)) → aw_completed_at row' ≠ Some zeroTime →
  ∀ db1 s1, represents db1 s1 → attemptsOf s1 k = attemptsOf s k →
  represents (db1 <| pg_attempts := <[(k, d_Attempt d) := row']> (pg_attempts db1) |>) (putAttempts k (updateLast f (attemptsOf s k)) s1).
Proof.
  intros R I L A F Z db1 s1 R1 E1. destruct (rep_last_attempt _ _ _ _ _ R I L A) as (a & La & Ca & B & P).
  apply (rep_put_attempt db1 s1 k (d_Attempt d) row' (f a)); try assumption.
  - apply F, Ca.
  - unfold updateLast. rewrite P, list_lookup_alter, decide_True, La by reflexivity. reflexivity.
  - intros i N. unfold updateLast. rewrite P, list_lookup_alter_ne by auto. rewrite E1. reflexivity.
  - unfold updateLast. rewrite length_alter. apply (rp_count _ _ R).
Qed.
Lemma sim_grants ctx now id attempt token grants db db' s : represents db s → store_inv s → PostgresSaveFencingGrants ctx now id attempt token grants db = Ok db' → follows db' s.
Proof.
  intros R I H. unfold PostgresSaveFencingGrants in H. apply bind_Ok in H as ([] & V & H). apply bind_Ok in H as ([] & _ & H). apply bind_Ok in H as (d & G & H).
  unfold getDispatchTx in G. destruct (pg_outbox db !! id) as [row|] eqn:L; [|discriminate]. injection G as <-.
  apply bind_Ok in H as ([] & C%failIf_Ok & H). apply bind_Ok in H as ([] & G1%failIf_Ok & H). apply bind_Ok in H as ([] & G2%failIf_Ok & H). apply bind_Ok in H as ([] & G3%failIf_Ok & H).
  destruct (updateRow id _ _ _) as [outbox n1] eqn:U1. apply bind_Ok in H as ([] & N1%failIf_Ok & H). destruct (updateRow (id, attempt) _ _ _) as [attempts n2] eqn:U2.
  apply bind_Ok in H as ([] & N2%failIf_Ok & H). injection H as <-. apply bool_decide_eq_false, dec_stable in N1, N2.
  destruct (updateRow_ok _ _ _ _ _ _ U1 N1) as (row1 & L1 & P1 & ->). assert (row1 = row) as -> by congruence.
  destruct (updateRow_ok _ _ _ _ _ _ U2 N2) as (aw & L2 & P2 & ->).
  destruct (rep_dispatch _ _ _ _ R L) as (d & Ld & Cd). pose proof (rep_same _ _ _ _ _ R L Ld) as Sr.
  assert (Ce : currentLeaseAt (Some d) attempt token now = true).
  { apply (sameRow_lease row); [exact Sr|exact P1|]. apply negb_false_iff in C. unfold currentLease in C. cbn in C. repeat (apply andb_true_iff in C as [C ?]). bool_to_prop. assumption. }
  assert (Ea : attempt = d_Attempt d). { unfold currentLeaseAt, currentLease in Ce. repeat (apply andb_true_iff in Ce as [Ce ?]). bool_to_prop. congruence. }
  pose proof (canonDispatch_fields _ _ Cd) as (_ & _ & _ & _ & _ & _ & _ & _ & _ & _ & _ & Ef & Eg & _). cbn in Ef, Eg. cbn in G1, G2, G3. rewrite Ef in G1, G2. rewrite Eg in G3.
  set (d' := d <| d_FencingGrants := grants |> <| d_Revision := u64_inc (d_Revision d) |> <| d_UpdatedAt := now |>).
  apply (follows_step _ s (putAttempts id (updateLast (λ a, a <| at_FencingGrants := grants |>) (attemptsOf s id)) (putDispatch id d' s))).
  { apply (step_grants None now now id attempt token grants). unfold SaveFencingGrants. cbn [ctxErr mbind result_bind]. rewrite V, Ld, Ce, G1. cbn [negb failIf mbind result_bind].
    rewrite G2. cbn [failIf mbind result_bind]. rewrite G3. reflexivity. }
  rewrite Ea in *. refine (rep_update_last db s id d aw _ _ R I Ld L2 _ _ (db <| pg_outbox := _ |>) (putDispatch id d' s) _ eq_refl).
  - intros a Ca. unfold canonAttempt in *. injection Ca; intros. cbn. f_equal; assumption.
  - apply (rp_completed _ _ R _ _ L2).
  - apply rep_put_row; [exact R|]. destruct Sr as (_ & S1 & S2). split; [|split; [exact S1|exact S2]]. unfold canonDispatch in *. injection Cd; intros. cbn. f_equal; assumption.
Qed.
End Sim.
