(* ===== verification/PostgresComplete.v ===== *)
(** * Completions in PostgreSQL

    [PostgresCompleteDispatch] does to the rows what [CompleteDispatch] does to the store that
    they represent: the query over earlier attempts, the outcome, the row of the step, of the
    saga and of the attempt, and the compensation that follows. *)

From S2P Require Import Prelude GoText Sha256 Json Workflow Identity Ledger Outbox OutboxInv OutboxDyn OutboxOps OutboxClose Postgres PostgresSim.
From Stdlib Require Import ZArith String Btauto.
Local Open Scope list_scope.
Local Open Scope Z_scope.

Section Complete.
  Context `{PT : !PostgresTypes}.

(** ** Earlier attempts *)
Lemma filter_and {A} (p q : A → bool) l : List.length (List.filter (λ x, p x && q x) l) = List.length (List.filter p l) ↔ (∀ x, x ∈ l → p x = true → q x = true).
Proof.
  induction l as [|a l IH]; cbn; [split; [intros _ x I; inversion I|reflexivity]|].
  assert (B : (List.length (List.filter (λ x, p x && q x) l) ≤ List.length (List.filter p l))%nat).
  { clear. induction l as [|a l IH]; cbn; [lia|]. destruct (p a), (q a); cbn; lia. }
  destruct (p a) eqn:Pa, (q a) eqn:Qa; cbn.
  - rewrite Nat.succ_inj_wd, IH. split; [intros F x I Px; apply elem_of_cons in I as [-> |I]; auto|intros F x I; apply F; right; exact I].
  - split; [lia|]. intros F. rewrite (F a) in Qa; [discriminate|left|exact Pa].
  - rewrite IH. split; [intros F x I Px; apply elem_of_cons in I as [-> |I]; [congruence|auto]|intros F x I; apply F; right; exact I].
  - rewrite IH. split; [intros F x I Px; apply elem_of_cons in I as [-> |I]; [congruence|auto]|intros F x I; apply F; right; exact I].
Qed.
Lemma countRows_and {K V} `{Countable K} (p q : V → bool) (m : gmap K V) :
  countRows (λ v, p v && q v) m = countRows p m ↔ ∀ k v, m !! k = Some v → p v = true → q v = true.
Proof.
  unfold countRows, selectRows. rewrite Nat2Z.inj_iff, (filter_and (λ x, p x.2) (λ x, q x.2)). split.
  - intros F k v L. apply (F (k, v)), elem_of_map_to_list, L.
  - intros F [k v] I. apply (F k), elem_of_map_to_list, I.
Qed.
(** An attempt row is stored under its dispatch and its number. *)
Lemma rep_attempt_row db s k n row : represents db s → store_inv s → pg_attempts db !! (k, n) = Some row →
  ∃ d a, os_dispatches s !! k = Some d ∧ attemptsOf s k !! Z.to_nat (n - 1) = Some a ∧ canonAttempt (scanAttempt row) = canonAttempt a ∧ 1 ≤ n ∧ aw_dispatch_id row = k ∧ aw_attempt row = n.
Proof.
  intros R I L. pose proof (rp_attempts _ _ R k n) as E. rewrite L in E. unfold attemptAt in E. destruct (bool_decide (1 ≤ n)) eqn:B; [|discriminate]. apply bool_decide_eq_true in B.
  destruct (attemptsOf s k !! Z.to_nat (n - 1)) as [a|] eqn:La; [|discriminate]. apply (inj Some) in E.
  destruct (os_attempts s !! k) as [l|] eqn:Lk; [|unfold attemptsOf in La; rewrite Lk in La; discriminate].
  destruct (si_atts _ (inv_static _ I) _ _ Lk) as [d Ld]. exists d, a. pose proof (inv_disp _ I _ _ Ld) as D. destruct (di_number _ _ D _ _ La) as [Na Ia].
  pose proof (si_disp _ (inv_static _ I) _ _ Ld) as [Ek _]. assert (Bn : (Z.to_nat (n - 1) < List.length (attemptsOf s k))%nat) by (eapply lookup_lt_Some; exact La).
  pose proof (rp_count _ _ R k) as Bc. rewrite u64_bigint in Na by lia. unfold canonAttempt in E. injection E; intros. cbn in *.
  repeat split; try assumption; try congruence. lia.
Qed.

Lemma priorAttemptsFrom_spec n l cur : priorAttemptsFrom n l cur = true ↔
  ∀ i a, l !! i = Some a → at_Attempt a = u64 (n + Z.of_nat i + 1) ∧ (at_Attempt a = cur ∨ (at_Outcome a = OutcomeRetryableKnownNotCommitted ∧ at_CompletedAt a ≠ zeroTime)).
Proof.
  revert n. induction l as [|b l IH]; intros n; cbn [priorAttemptsFrom].
  - split; [intros _ i a L; rewrite lookup_nil in L; discriminate|reflexivity].
  - assert (Sp : (∀ i a, (b :: l) !! i = Some a → at_Attempt a = u64 (n + Z.of_nat i + 1) ∧ (at_Attempt a = cur ∨ (at_Outcome a = OutcomeRetryableKnownNotCommitted ∧ at_CompletedAt a ≠ zeroTime))) ↔
      (at_Attempt b = u64 (n + 1) ∧ (at_Attempt b = cur ∨ (at_Outcome b = OutcomeRetryableKnownNotCommitted ∧ at_CompletedAt b ≠ zeroTime))) ∧ priorAttemptsFrom (n + 1) l cur = true).
    { rewrite IH. split.
      - intros F. split; [specialize (F 0%nat b eq_refl); rewrite Z.add_0_r in F; exact F|]. intros i a L. specialize (F (S i) a L).
        replace (n + 1 + Z.of_nat i + 1) with (n + Z.of_nat (S i) + 1) by lia. exact F.
      - intros [F0 F] [|i] a L; cbn in L; [injection L as <-; rewrite Z.add_0_r; exact F0|]. specialize (F i a L). replace (n + Z.of_nat (S i) + 1) with (n + 1 + Z.of_nat i + 1) by lia. exact F. }
    rewrite Sp. clear Sp IH. unfold timeIsZero. destruct (bool_decide (at_Attempt b ≠ u64 (n + 1))) eqn:E1; bool_to_prop; [split; [discriminate|tauto]|]. apply dec_stable in E1.
    destruct (bool_decide (at_Attempt b = cur)) eqn:E2; bool_to_prop; [tauto|]. destruct (_ || _) eqn:E3.
    + split; [discriminate|]. intros [[_ [F|[F1 F2]]] _]; [tauto|]. apply orb_true_iff in E3 as [E3|E3]; apply bool_decide_eq_true in E3; tauto.
    + apply orb_false_iff in E3 as [E3 E4]. apply bool_decide_eq_false in E3, E4. apply dec_stable in E4. tauto.
Qed.
(** The rows of the attempts before the current one, by number. *)
Lemma count_previous db s k d : represents db s → store_inv s → os_dispatches s !! k = Some d → 1 ≤ d_Attempt d →
  countRows (λ row, bool_decide (aw_dispatch_id row = k) && bool_decide (aw_attempt row < d_Attempt d)) (pg_attempts db) = d_Attempt d - 1.
Proof.
  intros R I L B. pose proof (rep_attempt_count _ _ _ _ R I L) as C. unfold countRows.
  assert (P : (selectRows (λ row, bool_decide (aw_dispatch_id row = k) && bool_decide (aw_attempt row < d_Attempt d)) (pg_attempts db)).*1 ≡ₚ pair k <$> seqZ 1 (d_Attempt d - 1)).
  { apply NoDup_Permutation.
    - unfold selectRows. apply NoDup_fmap_fst.
      + intros x y1 y2 I1 I2. apply list_elem_of_In, List.filter_In in I1 as [I1 _], I2 as [I2 _]. apply list_elem_of_In, elem_of_map_to_list in I1, I2. congruence.
      + apply NoDup_ListNoDup, List.NoDup_filter, NoDup_ListNoDup, NoDup_map_to_list.
    - apply NoDup_fmap_2; [intros x y E; congruence|apply NoDup_seqZ].
    - intros [k' n]. rewrite !list_elem_of_fmap. split.
      + intros ([[k1 n1] row] & E & J). cbn in E. injection E as -> ->. apply selectRows_elem in J as [J Q]. destruct (rep_attempt_row _ _ _ _ _ R I J) as (d' & a & _ & _ & _ & B1 & Ek & En).
        apply andb_true_iff in Q as [Q1 Q2]. bool_to_prop. exists n1. split; [congruence|]. apply elem_of_seqZ. lia.
      + intros (n' & E & J). injection E as -> ->. apply elem_of_seqZ in J. pose proof (rp_attempts _ _ R k n') as Q. unfold attemptAt in Q. rewrite bool_decide_eq_true_2 in Q by lia.
        destruct (lookup_lt_is_Some_2 (attemptsOf s k) (Z.to_nat (n' - 1))) as [a La]; [lia|]. rewrite La in Q. destruct (pg_attempts db !! (k, n')) as [row|] eqn:Lr; [|discriminate].
        exists ((k, n'), row). split; [reflexivity|]. apply selectRows_elem. split; [exact Lr|]. destruct (rep_attempt_row _ _ _ _ _ R I Lr) as (_ & _ & _ & _ & _ & _ & Ek & En).
        rewrite !bool_decide_eq_true_2 by (try assumption; lia). reflexivity. }
  apply Permutation_length in P. rewrite !length_fmap, length_seqZ in P. rewrite P. lia.
Qed.
Lemma prior_same db s k d : represents db s → store_inv s → os_dispatches s !! k = Some d → 1 ≤ d_Attempt d →
  priorUnresolvedPostgres db k (d_Attempt d) = negb (priorAttemptsKnownNotCommitted (attemptsOf s k) (d_Attempt d)).
Proof.
  intros R I L B. pose proof (rep_attempt_count _ _ _ _ R I L) as C. pose proof (rp_count _ _ R k) as Bc. unfold priorUnresolvedPostgres, priorAttemptsKnownNotCommitted. rewrite (count_previous _ _ _ _ R I L B).
  rewrite (bool_decide_eq_false_2 (d_Attempt d - 1 ≠ d_Attempt d - 1)) by (intros []; reflexivity). cbn [orb].
  rewrite (bool_decide_eq_false_2 (u64 _ ≠ _)) by (intros []; rewrite C; apply u64_bigint; lia). apply eq_true_iff_eq. rewrite bool_decide_eq_true, negb_true_iff, <- not_true_iff_false.
  apply not_iff_compat. rewrite <- (count_previous _ _ _ _ R I L B). 
  rewrite (countRows_ext _ (λ row, (bool_decide (aw_dispatch_id row = k) && bool_decide (aw_attempt row < d_Attempt d)) &&
    (sqlEq (aw_outcome row) OutcomeRetryableKnownNotCommitted && bool_decide (is_Some (aw_completed_at row))))) by (intros ? ? _; symmetry; apply andb_assoc).
  rewrite countRows_and, priorAttemptsFrom_spec. pose proof (inv_disp _ I _ _ L) as D. split.
  - intros F i a La. destruct (di_number _ _ D _ _ La) as [Na Ia]. split; [rewrite Na; f_equal; lia|]. assert (Bi : (i < List.length (attemptsOf s k))%nat) by (eapply lookup_lt_Some; exact La).
    rewrite u64_bigint in Na by lia. destruct (decide (Z.of_nat i + 1 = d_Attempt d)) as [E|E]; [left; lia|right].
    pose proof (rp_attempts _ _ R k (Z.of_nat i + 1)) as Q. unfold attemptAt in Q. rewrite bool_decide_eq_true_2 in Q by lia. replace (Z.to_nat (Z.of_nat i + 1 - 1)) with i in Q by lia. rewrite La in Q.
    destruct (pg_attempts db !! (k, Z.of_nat i + 1)) as [row|] eqn:Lr; [|discriminate]. apply (inj Some) in Q. destruct (rep_attempt_row _ _ _ _ _ R I Lr) as (_ & _ & _ & _ & _ & _ & Ek & En).
    specialize (F _ _ Lr). rewrite !bool_decide_eq_true_2 in F by (try assumption; lia). specialize (F eq_refl). apply andb_true_iff in F as [F1 F2]. unfold sqlEq in F1. apply bool_decide_eq_true in F1, F2.
    unfold canonAttempt in Q. injection Q as _ _ _ _ _ _ Qo _ Qc. cbn in Qo, Qc. rewrite F1 in Qo. split; [rewrite <- Qo; reflexivity|]. destruct F2 as [t Ft]. pose proof (rp_completed _ _ R _ _ Lr) as Z0.
    rewrite Ft in *. cbn in Qc. intros X. rewrite X in Qc. unfold timeIsZero in Qc. rewrite (bool_decide_eq_false_2 (t = zeroTime)) in Qc by congruence. discriminate.
  - intros F [k' n] row Lr Q. apply andb_true_iff in Q as [Q1 Q2]. bool_to_prop. destruct (rep_attempt_row _ _ _ _ _ R I Lr) as (d' & a & _ & La & Ca & Bn & Ek & En). assert (k' = k) as -> by congruence.
    destruct (F _ _ La) as [Na [X|[X1 X2]]].
    + exfalso. assert (Bi : (Z.to_nat (n - 1) < List.length (attemptsOf s k))%nat) by (eapply lookup_lt_Some; exact La). rewrite Na, u64_bigint in X by lia. lia.
    + unfold canonAttempt in Ca. injection Ca as _ _ _ _ _ _ Co _ Cc. cbn in Co, Cc. unfold sqlEq. apply andb_true_iff. split; apply bool_decide_eq_true.
      * rewrite X1 in Co. destruct (aw_outcome row); cbn in Co; congruence.
      * destruct (aw_completed_at row); [eauto|]. cbn in Cc. unfold timeIsZero in Cc at 2. rewrite (bool_decide_eq_false_2 (at_CompletedAt a = zeroTime)) in Cc by exact X2. discriminate.
Qed.

(** ** Replacing rows *)
Lemma rep_put_saga db s k g g' : represents db s → canonSaga g = canonSaga g' → represents (db <| pg_instances := <[k := g]> (pg_instances db) |>) (putSaga k g' s).
Proof. intros [R1 R2 R3 R4 R5 R6 R7 R8] C. split; try assumption. cbn. rewrite !fmap_insert, R1, C. reflexivity. Qed.
Lemma rep_put_step db s sid eid row st : represents db s → canonStep (scanStep row) = canonStep st → tp_compensation_verb row ≠ Some "" →
  represents (db <| pg_steps := <[(sid, eid) := row]> (pg_steps db) |>) (putStep sid eid st s).
Proof.
  intros [R1 R2 R3 R4 R5 R6 R7 R8] C V. split; try assumption.
  - intros sid' eid'. cbn. rewrite stepAt_put. case_bool_decide as E.
    + destruct E as [-> ->]. rewrite lookup_insert_eq. cbn. f_equal. exact C.
    + rewrite lookup_insert_ne by (intros K; injection K as K1 K2; apply E; split; congruence). apply R3.
  - intros key row' L. cbn in L. apply lookup_insert_Some in L as [[_ <-]|[_ L]]; [exact V|apply (R6 _ _ L)].
Qed.

(** ** Compensation *)
Lemma canonStep_fields st st' : canonStep st = canonStep st' →
  st_SagaID st = st_SagaID st' ∧ st_EffectID st = st_EffectID st' ∧ st_Sequence st = st_Sequence st' ∧ st_CompensationVerb st = st_CompensationVerb st' ∧
  st_CompensationContract st = st_CompensationContract st' ∧ canonText (st_CompensationArguments st) = canonText (st_CompensationArguments st') ∧
  st_CompensationArgumentHash st = st_CompensationArgumentHash st' ∧ st_Fencing st = st_Fencing st' ∧ st_State st = st_State st'.
Proof. unfold canonStep. cbn. intros E. injection E; intros. repeat split; assumption. Qed.
Lemma rep_reversible db s key row st : represents db s → pg_steps db !! key = Some row → canonStep (scanStep row) = canonStep st →
  bool_decide (tp_state row = StepSucceeded) && bool_decide (is_Some (tp_compensation_verb row)) = true ↔ reversible st.
Proof.
  intros R L C. apply canonStep_fields in C as (_ & _ & _ & V & _ & _ & _ & _ & S). cbn in V, S. unfold reversible. rewrite <- V, <- S, andb_true_iff, !bool_decide_eq_true.
  pose proof (rp_step _ _ R _ _ L) as N. destruct (tp_compensation_verb row) as [v|]; cbn; [|split; [intros [_ [? ?]]; discriminate|intros [_ []]; reflexivity]].
  split; intros [A B]; (split; [exact A|]); [congruence|eauto].
Qed.
#[local] Instance laterStep_trans : Transitive laterStep.
Proof. intros x y z. unfold laterStep. lia. Qed.
#[local] Instance laterStep_total : Total laterStep.
Proof. intros x y. unfold laterStep. lia. Qed.
Lemma candidate_same db s sid : represents db s → static_inv s →
  match compensationCandidatePostgres db sid, compensationCandidateLocked s sid with
  | Some st1, Some st => canonStep st1 = canonStep st ∧ ∃ eid, stepAt s sid eid = Some st
  | None, None => True
  | _, _ => False
  end.
Proof.
  intros R I. unfold compensationCandidatePostgres. set (p := λ row, _ && _ && _). pose proof (candidate_spec s sid) as Sp.
  destruct (merge_sort laterStep (selectRows p (pg_steps db))) as [|[[a b] row] l] eqn:E.
  - destruct (compensationCandidateLocked s sid) as [st|]; [|exact Logic.I]. destruct Sp as ((eid & L) & Rv & _). destruct (rep_stepRow _ _ _ _ _ R L) as (row & Lr & C).
    assert (J : ((sid, eid), row) ∈ selectRows p (pg_steps db)).
    { apply selectRows_elem. split; [exact Lr|]. unfold p. rewrite <- andb_assoc. apply andb_true_iff. split; [apply bool_decide_eq_true, (rep_step_saga _ _ _ _ _ R I Lr)|apply (rep_reversible _ _ _ _ _ R Lr C), Rv]. }
    rewrite <- (merge_sort_Permutation laterStep), E in J. inversion J.
  - assert (J : ((a, b), row) ∈ selectRows p (pg_steps db)) by (rewrite <- (merge_sort_Permutation laterStep), E; left). apply selectRows_elem in J as [Lr Q]. unfold p in Q. rewrite <- andb_assoc in Q.
    apply andb_true_iff in Q as [Q1 Q2]. apply bool_decide_eq_true in Q1. destruct (rep_step_saga _ _ _ _ _ R I Lr) as [Ea Eb]. assert (a = sid) as -> by congruence.
    destruct (rep_step _ _ _ _ _ R Lr) as (st & L & C). apply (rep_reversible _ _ _ _ _ R Lr C) in Q2.
    destruct (compensationCandidateLocked s sid) as [st'|]; [|exact (Sp _ _ L Q2)]. destruct Sp as ((eid & L') & Rv & Mx). specialize (Mx _ _ L Q2).
    destruct (rep_stepRow _ _ _ _ _ R L') as (row' & Lr' & C').
    assert (Mx' : tp_sequence row' ≤ tp_sequence row).
    { assert (J : ((sid, eid), row') ∈ selectRows p (pg_steps db)).
      { apply selectRows_elem. split; [exact Lr'|]. unfold p. rewrite <- andb_assoc. apply andb_true_iff. split; [apply bool_decide_eq_true, (rep_step_saga _ _ _ _ _ R I Lr')|apply (rep_reversible _ _ _ _ _ R Lr' C'), Rv]. }
      rewrite <- (merge_sort_Permutation laterStep), E in J. apply elem_of_cons in J as [J|J]; [injection J as _ ->; lia|].
      assert (Srt : StronglySorted laterStep (merge_sort laterStep (selectRows p (pg_steps db)))).
      { apply StronglySorted_merge_sort; apply _. }
      rewrite E in Srt. apply StronglySorted_inv in Srt as [_ Srt]. rewrite Forall_forall in Srt. apply (Srt _ J). }
    apply canonStep_fields in C as F, C' as F'. destruct F as (_ & _ & Sq & _), F' as (_ & _ & Sq' & _). cbn in Sq, Sq'.
    assert (b = eid) as ->. { eapply (si_seq _ I); [exact L|exact L'|]. lia. }
    assert (st' = st) as -> by congruence. split; [exact C|]. eauto.
Qed.
Lemma hasSucceeded_same db s sid : represents db s → static_inv s → hasSucceededStepPostgres db sid = hasSucceededStepLocked s sid.
Proof.
  intros R I. unfold hasSucceededStepPostgres, hasSucceededStepLocked. apply eq_true_iff_eq. rewrite existsRow_true, mapExists_true. split.
  - intros ([a b] & row & L & Q). apply andb_true_iff in Q as [Q1 Q2]. bool_to_prop. destruct (rep_step_saga _ _ _ _ _ R I L) as [Ea _]. assert (a = sid) as -> by congruence.
    destruct (rep_step _ _ _ _ _ R L) as (st & Ls & C). apply canonStep_fields in C as (_ & _ & _ & _ & _ & _ & _ & _ & S). cbn in S. exists b, st. split; [exact Ls|]. apply bool_decide_eq_true. congruence.
  - intros (b & st & Ls & Q). bool_to_prop. destruct (rep_stepRow _ _ _ _ _ R Ls) as (row & L & C). destruct (rep_step_saga _ _ _ _ _ R I L) as [Ea _]. exists (sid, b), row.
    apply canonStep_fields in C as (_ & _ & _ & _ & _ & _ & _ & _ & S). cbn in S. split; [exact L|]. rewrite !bool_decide_eq_true_2 by congruence. reflexivity.
Qed.

Lemma sim_enqueueCompensation now at_ g1 g st1 st g0 db db' s : represents db s → static_inv s → sg_SagaID g1 = sg_SagaID g → sg_Namespace g1 = sg_Namespace g → sg_Serial g1 = true →
  os_sagas s !! sg_SagaID g = Some g0 → sg_Namespace g0 = sg_Namespace g → canonStep st1 = canonStep st →
  enqueueCompensationPostgres now g1 st1 db = Ok db' → represents db' (enqueueCompensationLocked g st at_ s).
Proof.
  intros R I E1 E2 E3 Lg E4 C H. unfold enqueueCompensationPostgres in H. apply bind_Ok in H as (arguments & A & H). apply canonStep_fields in C as (_ & Ce & Cq & Cv & Cc & Ca & Ch & Cf & _).
  unfold enqueueCompensationLocked. rewrite E1, E2, E3, Ce in H. set (key := IdempotencyKey _ _ _ _) in *. destruct (existsRow _ _) eqn:X.
  - injection H as <-. apply existsRow_true in X as (k & row & L & Q). unfold identityIs in Q. apply andb_true_iff in Q as [Q Q3]. apply andb_true_iff in Q as [Q1 Q2]. bool_to_prop.
    destruct (rep_dispatch _ _ _ _ R L) as (d & Ld & Cd). apply canonDispatch_fields in Cd as (_ & D1 & D2 & _ & D3 & _). cbn in D1, D2, D3.
    pose proof (si_disp _ I _ _ Ld) as (_ & Ek & g' & _ & Lg' & _ & _ & Ik). rewrite <- D1, Q1, Lg in Lg'. injection Lg' as <-.
    replace (dispatchIDOf key) with k; [rewrite Ld; exact R|]. rewrite Ek, Ik. unfold key. rewrite E4, <- D1, <- D2, <- D3, Q1, Q2, Q3. reflexivity.
  - apply insertOutbox_ok in H as [L ->]. cbn [queuedRow ob_dispatch_id] in *. apply (rep_no_row _ _ _ R) in L. rewrite L. apply rep_put_row; [exact R|]. split; [|split; [reflexivity|discriminate]].
    unfold canonDispatch. cbn. rewrite Cq, Cv, Cc, Ch, Cf, (castJSON_canon _ _ A), Ca. reflexivity.
Qed.
(** Writing the saga after enqueueing its inverse, or before. *)
Lemma enqueueCompensation_putSaga g st at_ k g' s : enqueueCompensationLocked g st at_ (putSaga k g' s) = putSaga k g' (enqueueCompensationLocked g st at_ s).
Proof. unfold enqueueCompensationLocked. cbn [os_dispatches putSaga]. destruct (os_dispatches s !! _) eqn:L; cbn; rewrite L; reflexivity. Qed.
Lemma rep_writeSaga db s k state revision at_ g0 g : represents db s → pg_instances db !! k = Some g0 →
  canonSaga (g0 <| sg_State := state |>) = canonSaga g → represents (writeSaga k state revision at_ db) (putSaga k g s).
Proof.
  intros R L C. unfold writeSaga. rewrite (updateRow_all _ _ _ _ L). apply rep_put_saga; [exact R|]. unfold canonSaga in *. cbn in *. exact C.
Qed.
Lemma finish_compensation db s k g0 g st st' revision at_ : represents db s → pg_instances db !! k = Some g0 → canonSaga g0 = canonSaga g → st = st' →
  represents (writeSaga k st revision at_ db) (finishSaga k g st' at_ s).
Proof.
  intros R L C ->. unfold finishSaga. apply (rep_writeSaga _ _ _ _ _ _ g0); [exact R|exact L|]. unfold canonSaga in *. cbn in *. injection C; intros. f_equal; assumption.
Qed.
Lemma pg_instances_enqueue now g st db db' : enqueueCompensationPostgres now g st db = Ok db' → pg_instances db' = pg_instances db.
Proof.
  unfold enqueueCompensationPostgres. intros H. apply bind_Ok in H as (a & _ & H). destruct (existsRow _ _); [injection H as <-; reflexivity|]. apply insertOutbox_ok in H as [_ ->]. reflexivity.
Qed.
Section Compensating.
  Context (now at_ : Time) (db db' : Database) (s : InMemoryOutboxStore) (k : string) (g1 g : SagaInstance).
  Context (R : represents db s) (I : static_inv s) (Ek : sg_SagaID g = k) (Lg : os_sagas s !! k = Some g) (L1 : pg_instances db !! k = Some g1).
  (** The saga of the transaction agrees with its row but for what is never compared. *)
  Context (gt : SagaInstance) (Ct : canonSaga gt = canonSaga g).
Lemma sim_startCompensation : startCompensationPostgres now gt at_ db = Ok db' → represents db' (startCompensationLocked k g at_ s).
Proof using R I Ek Lg L1 Ct.
  pose proof (canonSaga_fields _ _ Ct) as (F1 & F2 & _ & F4 & _). pose proof (si_saga _ I _ _ Lg) as (_ & Se & _).
  assert (C1 : canonSaga g1 = canonSaga g). { destruct (rep_saga _ _ _ _ R L1) as (g' & L' & C). congruence. }
  unfold startCompensationPostgres, startCompensationLocked. rewrite F1, Ek. intros H. pose proof (candidate_same db s k R I) as Cs.
  destruct (compensationCandidatePostgres db k) as [st1|], (compensationCandidateLocked s k) as [st|]; try contradiction.
  - apply bind_Ok in H as ([state db1] & H1 & H). apply bind_Ok in H1 as (db2 & H1 & H2). injection H2 as <- <-. injection H as <-. destruct Cs as [Cs _].
    unfold finishSaga. rewrite enqueueCompensation_putSaga.
    assert (R2 : represents db2 (enqueueCompensationLocked g st at_ s)) by (eapply (sim_enqueueCompensation now at_ gt g st1 st g); try eassumption; congruence || reflexivity).
    apply (rep_writeSaga _ _ _ _ _ _ g1); [exact R2|rewrite (pg_instances_enqueue _ _ _ _ _ H1); exact L1|]. unfold canonSaga in *. cbn in *. injection C1; intros. f_equal; assumption.
  - cbn [mbind result_bind] in H. injection H as <-. rewrite (hasSucceeded_same _ _ _ R I). destruct (hasSucceededStepLocked s k); (eapply finish_compensation; [exact R|exact L1|exact C1|reflexivity]).
Qed.
Lemma sim_nextCompensation : enqueueNextCompensationPostgres now gt at_ db = Ok db' → represents db' (enqueueNextCompensationLocked k g at_ s).
Proof using R I Ek Lg L1 Ct.
  pose proof (canonSaga_fields _ _ Ct) as (F1 & F2 & _ & F4 & _). pose proof (si_saga _ I _ _ Lg) as (_ & Se & _).
  assert (C1 : canonSaga g1 = canonSaga g). { destruct (rep_saga _ _ _ _ R L1) as (g' & L' & C). congruence. }
  unfold enqueueNextCompensationPostgres, enqueueNextCompensationLocked. rewrite F1, Ek. intros H. pose proof (candidate_same db s k R I) as Cs.
  destruct (compensationCandidatePostgres db k) as [st1|], (compensationCandidateLocked s k) as [st|]; try contradiction.
  - destruct Cs as [Cs _]. eapply (sim_enqueueCompensation now at_ gt g st1 st g); try eassumption; congruence || reflexivity.
  - injection H as <-. rewrite (hasSucceeded_same _ _ _ R I). destruct (hasSucceededStepLocked s k); (eapply finish_compensation; [exact R|exact L1|exact C1|reflexivity]).
Qed.
End Compensating.

(** ** One outcome *)
Lemma ofNull_nullOutcome o : ofNullOutcome (nullOutcome o) = o.
Proof. unfold nullOutcome. case_bool_decide as E; [rewrite E; reflexivity|reflexivity]. Qed.
(** The time that a column of a completion keeps. *)
Definition kept (t : Time) : Time := ofNullTime (timestamptz <$> nullTime t).
Lemma completed_row row d d1 d2 result now : canonDispatch (scanDispatch row) = canonDispatch d → nullJSON (d_Result d1) = Ok result →
  d_State d1 = d_State d2 → canonText (d_Result d1) = canonText (d_Result d2) → d_LastOutcome d1 = d_LastOutcome d2 →
  d_LeaseOwner d2 = "" → d_LeaseToken d2 = "" → d_LeaseDeadline d2 = zeroTime → (d_State d2 = DispatchRetryWait → kept (d_NextAttemptAt d1) = d_NextAttemptAt d2) →
  d_core d2 = d_core d → d_Attempt d2 = d_Attempt d → d_FencingGrants d2 = d_FencingGrants d →
  canonDispatch (scanDispatch (completedRow d1 result now row)) = canonDispatch d2.
Proof.
  intros C J E1 E2 E3 E4 E5 E6 E7 K E8 E9. pose proof (nullJSON_canon _ _ J) as J'. pose proof (ofNull_nullOutcome (d_LastOutcome d1)) as O.
  unfold d_core in K. injection K as K1 K2 K3 K4 K5 K6 K7 Ka K8 K9 K10 _. unfold canonDispatch in C |- *. injection C as C1 C2 C3 C4 C5 C6 C7 C8 C9 C10 _ C11 _ _ _ _ C12 C13 _ _.
  unfold scanDispatch, completedRow in *. cbn -[canonText ofNullString ofNullTime ofNullOutcome nullOutcome nullTime] in *. fold (kept (d_NextAttemptAt d1)).
  rewrite O, J', E1, E2, E3, E4, E5, E6, E8, E9, Ka, C8. f_equal; try first [assumption|reflexivity|etransitivity; [eassumption|symmetry; eassumption]].
  destruct (bool_decide (d_State d2 = DispatchRetryWait)) eqn:W; [apply bool_decide_eq_true in W; apply E7, W|reflexivity].
Qed.
Lemma apply_same d1 d st1 st g1 g c prior d1' st1' g1' d' st' g' : canonDispatch d1 = canonDispatch d → canonStep st1 = canonStep st → canonSaga g1 = canonSaga g →
  applyCompletion d1 st1 g1 c prior = (d1', st1', g1') → applyCompletion d st g (c <| cp_NextAttemptAt := kept (cp_NextAttemptAt c) |>) prior = (d', st', g') →
  (∀ t, cp_Outcome c ≠ OutcomeOther t) →
  (d_State d1' = d_State d' ∧ canonText (d_Result d1') = canonText (d_Result d') ∧ d_LastOutcome d1' = d_LastOutcome d' ∧ d_LeaseOwner d' = "" ∧ d_LeaseToken d' = "" ∧
   d_LeaseDeadline d' = zeroTime ∧ (d_State d' = DispatchRetryWait → kept (d_NextAttemptAt d1') = d_NextAttemptAt d') ∧ d_Attempt d' = d_Attempt d ∧ d_FencingGrants d' = d_FencingGrants d) ∧
  (st_State st1' = st_State st' ∧ canonText (st_Result st1') = canonText (st_Result st')) ∧ sg_State g1' = sg_State g'.
Proof.
  intros Cd Cs Cg A1 A2 N. apply canonSaga_fields in Cg as (_ & _ & _ & _ & Eg). assert (Ed : d_Direction d1 = d_Direction d) by (apply canonDispatch_fields in Cd; tauto).
  assert (Er : canonText (d_Result d1) = canonText (d_Result d)) by (unfold canonDispatch in Cd; cbn in Cd; injection Cd; intros; assumption).
  assert (Et : st_State st1 = st_State st) by (apply canonStep_fields in Cs; tauto).
  assert (Ex : canonText (st_Result st1) = canonText (st_Result st)) by (unfold canonStep in Cs; cbn in Cs; injection Cs; intros; assumption).
  clear Cd Cs. revert A1 A2. unfold applyCompletion. cbn. rewrite Ed.
  destruct prior; [|destruct (cp_Outcome c) eqn:O; try (destruct (cp_Exhausted c))]; try (destruct (N class eq_refl)); destruct (d_Direction d) eqn:F;
    intros [= <- <- <-] [= <- <- <-]; cbn; repeat split; first [assumption|reflexivity|discriminate].
Qed.

Lemma validateCompletion_outcome c : validateCompletion c = Ok tt → ∀ t, cp_Outcome c ≠ OutcomeOther t.
Proof. intros V t E. unfold validateCompletion in V. rewrite E in V. apply bind_Ok in V as ([] & _ & V). discriminate. Qed.
Lemma validateCompletion_next c t : validateCompletion (c <| cp_NextAttemptAt := t |>) = validateCompletion c.
Proof. reflexivity. Qed.
Lemma canonStep_put srow st st' row' : canonStep (scanStep srow) = canonStep st → st_core st' = st_core st → tp_state row' = st_State st' →
  canonText (ofNullString (tp_result row')) = canonText (st_Result st') → row' = srow <| tp_state := tp_state row' |> <| tp_result := tp_result row' |> →
  canonStep (scanStep row') = canonStep st'.
Proof.
  intros C K S X E. rewrite E. unfold st_core in K. injection K as K1 K2 K3 K4 K5 K6 K7 K8 K9 K10 K11 K12. unfold canonStep in *. injection C as C1 C2 C3 C4 C5 C6 C7 C8 C9 C10 C11 C12 _ _.
  cbn -[canonText ofNullString] in *. rewrite K6, K10, S, X. f_equal; first [reflexivity|assumption|etransitivity; [eassumption|symmetry; eassumption]].
Qed.
Lemma canonSaga_put g1 g g1' g' : canonSaga g1 = canonSaga g → sg_core g1' = sg_core g1 → sg_core g' = sg_core g → sg_State g1' = sg_State g' → canonSaga g1' = canonSaga g'.
Proof.
  intros C K1 K S. unfold sg_core in *. injection K1 as A1 A2 A3 A4 A5 A6 _. injection K as B1 B2 B3 B4 B5 B6 _. unfold canonSaga in *. injection C as C1 C2 C3 C4 C5 _ C6. cbn in *.
  rewrite A1, A2, A3, A4, A5, A6, B1, B2, B3, B4, B5, B6, S, C1, C2, C3, C4, C5, C6. reflexivity.
Qed.
Lemma applied_leaves d st g c prior d' st' g' : applyCompletion d st g c prior = (d', st', g') → (∀ t, cp_Outcome c ≠ OutcomeOther t) → d_State d' ≠ DispatchInFlight.
Proof.
  unfold applyCompletion. cbn. intros A N. destruct prior; [|destruct (cp_Outcome c) eqn:O; try (destruct (N class eq_refl)); try destruct (cp_Exhausted c)];
    destruct (d_Direction d); injection A as <- <- <-; discriminate.
Qed.
(** The rows that a completion writes: the dispatch, its step, its saga and its attempt. *)
Definition writtenRows (k : string) (d : Dispatch) (row' : OutboxRow) (srow' : StepRow) (g1' : SagaInstance) (aw' : AttemptRow) (at_ : Time) (db : Database) : Database :=
  (writeSaga (d_SagaID d) (sg_State g1') (sg_Revision g1') at_
    (db <| pg_outbox := <[k := row']> (pg_outbox db) |> <| pg_steps := <[(d_SagaID d, d_EffectID d) := srow']> (pg_steps db) |>))
    <| pg_attempts := <[(k, d_Attempt d) := aw']> (pg_attempts db) |>.
Section Written.
  Context (db : Database) (s : InMemoryOutboxStore) (k : string) (row : OutboxRow) (d d1' d' : Dispatch) (srow : StepRow) (st st1' st' : SagaStep) (g1 g g1' g' : SagaInstance).
  Context (aw : AttemptRow) (c : Completion) (prior : bool) (jr sr : option string).
  Context (R : represents db s) (I : store_inv s) (L : pg_outbox db !! k = Some row) (Ld : os_dispatches s !! k = Some d).
  Context (Lg1 : pg_instances db !! d_SagaID d = Some g1) (Lg : os_sagas s !! d_SagaID d = Some g).
  Context (Ls1 : pg_steps db !! (d_SagaID d, d_EffectID d) = Some srow) (Ls : stepAt s (d_SagaID d) (d_EffectID d) = Some st).
  Context (La : pg_attempts db !! (k, d_Attempt d) = Some aw) (Nz : cp_Now c ≠ zeroTime) (No : ∀ t, cp_Outcome c ≠ OutcomeOther t).
  Context (A1 : applyCompletion (scanDispatch row) (scanStep srow) g1 c prior = (d1', st1', g1')).
  Context (A2 : applyCompletion d st g (c <| cp_NextAttemptAt := kept (cp_NextAttemptAt c) |>) prior = (d', st', g')).
  Context (J1 : nullJSON (d_Result d1') = Ok jr) (J2 : nullJSON (st_Result st1') = Ok sr).
Let srow' := srow <| tp_state := st_State st1' |> <| tp_result := sr |>.
Let aw' := aw <| aw_outcome := Some (cp_Outcome c) |> <| aw_error := nullString (cp_Error c) |> <| aw_completed_at := Some (timestamptz (cp_Now c)) |>.
Let f (a : DispatchAttempt) := a <| at_Outcome := cp_Outcome c |> <| at_Error := cp_Error c |> <| at_CompletedAt := cp_Now c |>.
Let l := updateLast f (attemptsOf s k).
Lemma written_saga : canonSaga g1' = canonSaga g'.
Proof using R I L Ld Lg1 Lg Ls1 Ls No A1 A2.
  destruct (rep_saga _ _ _ _ R Lg1) as (g0 & E & C). assert (g0 = g) as -> by congruence. destruct (rep_step _ _ _ _ _ R Ls1) as (st0 & Es & Cs). assert (st0 = st) as -> by congruence.
  destruct (rep_same _ _ _ _ _ R L Ld) as (Cd & _). destruct (applyCompletion_core _ _ _ _ _ _ _ _ A1) as (_ & _ & K1 & _). destruct (applyCompletion_core _ _ _ _ _ _ _ _ A2) as (_ & _ & K2 & _).
  destruct (apply_same _ _ _ _ _ _ _ _ _ _ _ _ _ _ Cd Cs C A1 A2 No) as (_ & _ & S). exact (canonSaga_put _ _ _ _ C K1 K2 S).
Qed.
Lemma written_static : static_inv (completed k l d d' st' g' s).
Proof using I Ld Lg Ls A2.
  destruct (applyCompletion_core _ _ _ _ _ _ _ _ A2) as (Kd & Ks & Kg & _). apply (completed_static s k l d d' st st' g g'); assumption.
Qed.
Lemma written_represents : represents (writtenRows k d (completedRow d1' jr (cp_Now c) row) srow' g1' aw' (cp_Now c) db) (completed k l d d' st' g' s).
Proof using R I L Ld Lg1 Lg Ls1 Ls La Nz No A1 A2 J1 J2.
  destruct (rep_saga _ _ _ _ R Lg1) as (g0 & E & C). assert (g0 = g) as -> by congruence. destruct (rep_step _ _ _ _ _ R Ls1) as (st0 & Es & Cs). assert (st0 = st) as -> by congruence.
  destruct (rep_same _ _ _ _ _ R L Ld) as (Cd & Se & _). destruct (applyCompletion_core _ _ _ _ _ _ _ _ A2) as (Kd & Ks & Kg & _).
  destruct (apply_same _ _ _ _ _ _ _ _ _ _ _ _ _ _ Cd Cs C A1 A2 No) as ((S1 & S2 & S3 & S4 & S5 & S6 & S7 & S8 & S9) & (S10 & S11) & S12).
  unfold completed, l, writtenRows.
  refine (rep_update_last db s k d aw aw' f R I Ld La _ _ (writeSaga _ _ _ _ _) (putSaga (d_SagaID d) g' (putStep (d_SagaID d) (d_EffectID d) st' (putDispatch k d' s))) _ eq_refl).
  - intros a Ca. unfold canonAttempt in *. injection Ca as C1 C2 C3 C4 C5 C6 C7 C8 C9. unfold aw', f. cbn in *. rewrite ofNull_nullString. unfold timeIsZero.
    rewrite (bool_decide_eq_false_2 (timestamptz _ = _)) by (intros X; apply Nz, timestamptz_zero, X). rewrite (bool_decide_eq_false_2 _ Nz). f_equal; assumption.
  - intros X. apply Nz, timestamptz_zero. unfold aw' in X. cbn in X. congruence.
  - apply (rep_writeSaga _ _ _ _ _ _ g1); [|exact Lg1|].
    + refine (rep_put_step _ _ _ _ srow' st' (rep_put_row db s k _ d' R _) _ _).
      * split; [|split].
        -- apply (completed_row row d); assumption.
        -- exact Se.
        -- cbn. rewrite S1. intros X. destruct (applied_leaves _ _ _ _ _ _ _ _ A2 No X).
      * apply (canonStep_put srow st); [exact Cs|exact Ks|exact S10| |reflexivity]. transitivity (canonText (st_Result st1')); [exact (nullJSON_canon _ _ J2)|exact S11].
      * apply (rp_step _ _ R _ _ Ls1).
    + apply (canonSaga_put g1 g); [exact C|reflexivity|exact Kg|exact S12].
Qed.
End Written.
(** The compensation that an outcome starts or continues. *)
Definition afterOutcome (dir : Direction) (fails succeeds : bool) (k : string) (g : SagaInstance) (at_ : Time) (s : InMemoryOutboxStore) : InMemoryOutboxStore :=
  match dir with
  | DirectionForward => if fails then startCompensationLocked k g at_ s else s
  | DirectionCompensation => if succeeds then enqueueNextCompensationLocked k g at_ s else s
  end.
Lemma sim_afterOutcome dir fails succeeds now at_ k gt g g1 db db' s : represents db s → static_inv s → sg_SagaID g = k → os_sagas s !! k = Some g → pg_instances db !! k = Some g1 →
  canonSaga gt = canonSaga g →
  (db1 ← (if bool_decide (dir = DirectionForward) && fails then startCompensationPostgres now gt at_ db else Ok db);
   if bool_decide (dir = DirectionCompensation) && succeeds then enqueueNextCompensationPostgres now gt at_ db1 else Ok db1) = Ok db' →
  represents db' (afterOutcome dir fails succeeds k g at_ s).
Proof.
  intros R St Gk Lg L1 C H. destruct dir; decide_closed; unfold afterOutcome.
  - apply bind_Ok in H as (db1 & H & E). injection E as <-. destruct fails; cbn [andb] in H; [|injection H as <-; exact R].
    eapply (sim_startCompensation now at_ db db1 s k g1 g); eassumption.
  - cbn [andb mbind result_bind] in H. destruct succeeds; cbn [andb] in H; [|injection H as <-; exact R].
    eapply (sim_nextCompensation now at_ db db' s k g1 g); eassumption.
Qed.
Lemma sim_complete ctx defaultNow now completion db db' s : represents db s → store_inv s → zeroTime < defaultNow →
  PostgresCompleteDispatch ctx defaultNow now completion db = Ok db' → follows db' s.
Proof.
  intros R I Dn H. pose proof (inv_static _ I) as St. unfold PostgresCompleteDispatch in H. set (c := if timeIsZero (cp_Now completion) then _ else completion) in *.
  assert (Nz : cp_Now c ≠ zeroTime). { unfold c. destruct (timeIsZero (cp_Now completion)) eqn:Z; cbn; [intros E; rewrite E in Dn; exact (Z.lt_irrefl _ Dn)|]. apply bool_decide_eq_false in Z. exact Z. }
  apply bind_Ok in H as ([] & V & H). apply bind_Ok in H as ([] & _ & H). apply bind_Ok in H as (d1 & G & H). unfold getDispatchTx in G.
  destruct (pg_outbox db !! cp_DispatchID c) as [row|] eqn:L; [|discriminate]. injection G as <-. apply bind_Ok in H as ([] & Cl%failIf_Ok & H).
  apply bind_Ok in H as (g1 & G & H). unfold getSagaTx in G. cbn [d_SagaID scanDispatch] in G, H. destruct (pg_instances db !! ob_saga_id row) as [g1'|] eqn:Lg; [|discriminate]. injection G as <-. unfold scanSaga in H.
  apply bind_Ok in H as (st1 & G & H). unfold getStepTx in G. cbn [d_EffectID scanDispatch] in G, H. destruct (pg_steps db !! (ob_saga_id row, ob_effect_id row)) as [srow|] eqn:Ls; [|discriminate]. injection G as <-.
  destruct (rep_dispatch _ _ _ _ R L) as (d & Ld & Cd). pose proof (rep_same _ _ _ _ _ R L Ld) as Sr. destruct (rep_saga _ _ _ _ R Lg) as (g & Lg' & Cg). destruct (rep_step _ _ _ _ _ R Ls) as (st & Ls' & Cs).
  pose proof (canonDispatch_fields _ _ Cd) as (Fi & Fs & Fe & _ & Fd & _ & Fa & _). cbn in Fi, Fs, Fe, Fd, Fa. pose proof (si_disp _ St _ _ Ld) as (Ek & _).
  set (k := cp_DispatchID c) in *. cbv zeta in H. cbn [d_ID d_Attempt scanDispatch] in H. rewrite Fi, Ek, Fa in H. rewrite Fs, Fe in *. apply negb_false_iff in Cl.
  pose proof (validateCompletion_outcome _ V) as No.
  assert (Pe : d_State d = DispatchInFlight ∧ d_Attempt d = cp_Attempt c ∧ cp_LeaseToken c ≠ "").
  { destruct Sr as (X & _). apply canonDispatch_fields in X as (_ & _ & _ & _ & _ & Xs & Xa & _). cbn in Xs, Xa. unfold currentLease in Cl. cbn in Cl. repeat (apply andb_true_iff in Cl as [Cl ?]). bool_to_prop.
    repeat split; congruence. }
  destruct Pe as (Pi & Pa & Pt).
  assert (B : 1 ≤ d_Attempt d).
  { rewrite (rep_attempt_count _ _ _ _ R I Ld). pose proof (di_started _ _ (inv_disp _ I _ _ Ld)) as N. destruct (attemptsOf s k); [|cbn; lia]. exfalso. apply N; congruence. }
  rewrite (prior_same _ _ _ _ R I Ld B) in H. set (prior := terminalOutcomeMayMaskPriorUnknown c && _) in *.
  destruct (applyCompletion _ _ _ _ prior) as [[d1' st1'] g1''] eqn:A1 in H.
  destruct (applyCompletion d st g (c <| cp_NextAttemptAt := kept (cp_NextAttemptAt c) |>) prior) as [[d' st'] g'] eqn:A2.
  destruct (applyCompletion_core _ _ _ _ _ _ _ _ A1) as (Kd & Ks & Kg & _). apply bind_Ok in H as (jr & J1 & H). destruct (updateRow (d_ID d1') _ _ _) as [outbox n1] eqn:U1.
  apply bind_Ok in H as ([] & N1%failIf_Ok & H). apply bind_Ok in H as (sr & J2 & H). change (pg_attempts (writeSaga _ _ _ _ _)) with (pg_attempts db) in H. destruct (updateRow (d_ID d1', _) _ _ _) as [attempts n2] eqn:U2. apply bind_Ok in H as ([] & N2%failIf_Ok & H).
  apply bool_decide_eq_false, dec_stable in N1, N2. unfold d_core in Kd. injection Kd as Kd1 _ _ _ Kd2 _ _ _ _ _ _ _. cbn in Kd1, Kd2.
  assert (Gk : sg_SagaID g1'' = d_SagaID d). { destruct (si_saga _ St _ _ Lg') as [Gk _]. apply canonSaga_fields in Cg as [Gs _]. unfold sg_core in Kg. injection Kg as _ Kg _ _ _ _ _. congruence. }
  assert (Sk : (st_SagaID st1', st_EffectID st1') = (d_SagaID d, d_EffectID d)).
  { destruct (rep_step_saga _ _ _ _ _ R St Ls) as [X1 X2]. unfold st_core in Ks. injection Ks as Y1 Y2 _ _ _ _ _ _ _ _ _ _. cbn in Y1, Y2. congruence. }
  rewrite Kd1, Kd2, Fi, Fd, Ek, Gk, Sk in *. destruct (updateRow_ok _ _ _ _ _ _ U1 N1) as (row1 & L1 & P1 & E1). assert (row1 = row) as -> by congruence.
  destruct (updateRow_ok _ _ _ _ _ _ U2 N2) as (aw & La & _ & E2). clear U1 U2. rewrite (updateRow_all _ _ _ _ Ls) in H. rewrite E1, E2, <- Pa in H. rewrite <- Pa in La.
  pose proof (written_represents db s k row d d1' d' srow st st1' st' g1' g g1'' g' aw c prior jr sr R I L Ld Lg Lg' Ls Ls' La Nz No A1 A2 J1 J2) as R1.
  pose proof (written_saga db s k row d d1' d' srow st st1' st' g1' g g1'' g' c prior R I L Ld Lg Lg' Ls Ls' No A1 A2) as Cg1.
  pose proof (written_static s k d d' st st' g g' c prior I Ld Lg' Ls' A2) as St1.
  match type of R1 with represents ?x _ => set (db1 := x) in * end. set (s1 := completed _ _ _ _ _ _ _) in *.
  apply (follows_step _ s (afterOutcome (d_Direction d) (negb prior && (bool_decide (cp_Outcome c = OutcomePermanentFailure) || (bool_decide (cp_Outcome c = OutcomeRetryableKnownNotCommitted) && cp_Exhausted c)))
    (bool_decide (cp_Outcome c = OutcomeSuccess)) (d_SagaID d) g' (cp_Now c) s1)).
  - apply (step_complete None defaultNow now (completion <| cp_NextAttemptAt := kept (cp_NextAttemptAt c) |>)). unfold CompleteDispatch. cbn [ctxErr mbind result_bind].
    replace (if timeIsZero _ then _ else _) with (c <| cp_NextAttemptAt := kept (cp_NextAttemptAt c) |>) by (unfold c; cbn; destruct (timeIsZero (cp_Now completion)); reflexivity).
    cbv zeta. rewrite validateCompletion_next, V. cbn [mbind result_bind]. change (cp_DispatchID (c <| _ := _ |>)) with k. rewrite Ld.
    change (currentLeaseAt (Some d) _ _ now) with (currentLeaseAt (Some d) (cp_Attempt c) (cp_LeaseToken c) now). rewrite (sameRow_lease row d _ _ _ Sr P1 Pt). cbn [negb failIf mbind result_bind].
    unfold stepAt in Ls'. rewrite Lg', Ls', Ek. change (terminalOutcomeMayMaskPriorUnknown (c <| _ := _ |>)) with (terminalOutcomeMayMaskPriorUnknown c). fold prior. rewrite A2. reflexivity.
  - apply (sim_afterOutcome (d_Direction d) _ _ now _ _ g1'' g' (g1' <| sg_State := sg_State g1'' |> <| sg_Revision := sg_Revision g1'' |> <| sg_UpdatedAt := timestamptz (cp_Now c) |>) db1); try assumption.
    + destruct (applyCompletion_core _ _ _ _ _ _ _ _ A2) as (_ & _ & Kg' & _). unfold sg_core in Kg'. injection Kg' as _ Kg' _ _ _ _ _. rewrite Kg'. apply (si_saga _ St _ _ Lg').
    + cbn. apply lookup_insert_eq.
    + unfold db1, writtenRows, writeSaga. cbn [pg_instances]. rewrite (updateRow_all _ _ _ _ Lg). apply lookup_insert_eq.
    + rewrite andb_assoc. exact H.
Qed.
End Complete.
