(* ===== verification/PostgresClose.v ===== *)
(** * Closing sagas in PostgreSQL

    The three updates that close the rows of a saga do what the loops of the store do, and
    the transactions that complete, stop, block and fail sagas do to the rows what the
    methods of the store do to the store that they represent. *)

From S2P Require Import Prelude GoText Sha256 Json Workflow Identity Ledger Outbox OutboxInv OutboxDyn OutboxOps OutboxClose Postgres PostgresSim PostgresComplete.
From Stdlib Require Import ZArith String Btauto.
Local Open Scope list_scope.
Local Open Scope Z_scope.

Section Close.
  Context `{PT : !PostgresTypes}.

Lemma rep_advance db s k from_ state now at_ g1 g : represents db s → pg_instances db !! k = Some g1 → from_ (sg_State g1) = true → os_sagas s !! k = Some g →
  represents (advanceSaga k from_ state now db) (finishSaga k g state at_ s).
Proof.
  intros R L F Lg. unfold advanceSaga, updateRow. rewrite L, F. cbn [fst]. unfold finishSaga. apply rep_put_saga; [exact R|].
  destruct (rep_saga _ _ _ _ R L) as (g0 & E & C). assert (g0 = g) as -> by congruence. unfold canonSaga in *. cbn in *. injection C; intros. f_equal; assumption.
Qed.
Lemma advanceSaga_pass db k from_ state now g1 : pg_instances db !! k = Some g1 → from_ (sg_State g1) = true → advanceSaga k from_ state now db = advanceSaga k (λ _, true) state now db.
Proof. intros L F. unfold advanceSaga, updateRow. rewrite L, F. reflexivity. Qed.
Lemma sim_completeSaga ctx now sid db db' s : represents db s → PostgresCompleteSaga ctx now sid db = Ok db' → follows db' s.
Proof.
  intros R H. unfold PostgresCompleteSaga in H. apply bind_Ok in H as ([] & _ & H). apply bind_Ok in H as (g1 & G & H). unfold getSagaTx in G.
  destruct (pg_instances db !! sid) as [g0|] eqn:L; [|discriminate]. injection G as <-. unfold scanSaga in H. destruct (bool_decide (sg_State g0 = SagaCompleted)) eqn:E; [injection H as <-; apply follows_same, R|].
  apply bind_Ok in H as ([] & Ru%failIf_Ok & H). apply bind_Ok in H as ([] & Z%failIf_Ok & H). injection H as <-. destruct (rep_saga _ _ _ _ R L) as (g & Lg & C).
  apply canonSaga_fields in C as (_ & _ & _ & _ & Es). apply (follows_step _ s (finishSaga sid g SagaCompleted now s)).
  - apply (step_complete_saga None now sid). unfold CompleteSaga. cbn [ctxErr mbind result_bind]. rewrite Lg. cbn [ofOption mbind result_bind]. rewrite <- Es, E, Ru. cbn [failIf mbind result_bind].
    apply bool_decide_eq_false, dec_stable, countRows_zero in Z. erewrite rep_exists in Z; [rewrite Z; reflexivity|exact R|].
    intros row d (X & _). apply canonDispatch_fields in X as (_ & X1 & _ & _ & _ & X2 & _). cbn in X1, X2. rewrite X1, X2. reflexivity.
  - apply (rep_advance _ _ _ _ _ _ _ g0); [exact R|exact L| |exact Lg]. apply bool_decide_eq_false, dec_stable in Ru. apply bool_decide_eq_true, Ru.
Qed.
Lemma sim_failFast ctx now sid db db' s : represents db s → PostgresFinalizeFailFastSaga ctx now sid db = Ok db' → follows db' s.
Proof.
  intros R H. unfold PostgresFinalizeFailFastSaga in H. do 2 apply bind_Ok in H as ([] & _ & H). apply bind_Ok in H as (g1 & G & H). unfold getSagaTx in G.
  destruct (pg_instances db !! sid) as [g0|] eqn:L; [|discriminate]. injection G as <-. unfold scanSaga in H. destruct (bool_decide (sg_State g0 = SagaFailed)) eqn:E; [injection H as <-; apply follows_same, R|].
  apply bind_Ok in H as ([] & Ru%failIf_Ok & H). apply bind_Ok in H as ([] & Z%failIf_Ok & H). injection H as <-. destruct (rep_saga _ _ _ _ R L) as (g & Lg & C).
  apply canonSaga_fields in C as (_ & _ & _ & _ & Es). apply (follows_step _ s (finishSaga sid g SagaFailed now s)).
  - apply (step_failfast None now sid). unfold FinalizeFailFastSaga. cbn [ctxErr mbind result_bind]. rewrite Lg. cbn [ofOption mbind result_bind]. rewrite <- Es, E, Ru. cbn [failIf mbind result_bind].
    erewrite rep_exists in Z; [rewrite Z; reflexivity|exact R|].
    intros row d (X & _). apply canonDispatch_fields in X as (_ & X1 & _ & _ & X3 & X2 & _). cbn in X1, X2, X3. rewrite X1, X2, X3. reflexivity.
  - apply (rep_advance _ _ _ _ _ _ _ g0); [exact R|exact L| |exact Lg]. apply bool_decide_eq_false, dec_stable in Ru. apply bool_decide_eq_true, Ru.
Qed.

(** ** Closing rows *)
Lemma rep_fmap_rows db s (F : OutboxRow → OutboxRow) (G : Dispatch → Dispatch) : represents db s →
  (∀ k row d, pg_outbox db !! k = Some row → os_dispatches s !! k = Some d → sameRow row d → sameRow (F row) (G d)) →
  represents (db <| pg_outbox := F <$> pg_outbox db |>) (s <| os_dispatches := G <$> os_dispatches s |>).
Proof.
  intros R E. pose proof R as [R1 R2 R3 R4 R5 R6 R7 R8]. split; try assumption.
  - cbn. apply map_eq. intros k. rewrite !lookup_fmap. destruct (pg_outbox db !! k) as [row|] eqn:L.
    + destruct (rep_dispatch _ _ _ _ R L) as (d & Ld & _). rewrite Ld. cbn. f_equal. apply (E k); [exact L|exact Ld|]. exact (rep_same _ _ _ _ _ R L Ld).
    + apply (rep_no_row _ _ _ R) in L. rewrite L. reflexivity.
  - intros k row L. cbn in L. rewrite lookup_fmap in L. apply fmap_Some in L as (row0 & L & ->). destruct (rep_dispatch _ _ _ _ R L) as (d & Ld & _).
    apply (E k row0 d L Ld (rep_same _ _ _ _ _ R L Ld)).
Qed.
Lemma attempt_open aw a : canonAttempt (scanAttempt aw) = canonAttempt a → aw_completed_at aw ≠ Some zeroTime →
  sqlEq (aw_outcome aw) OutcomeUnknown || bool_decide (aw_completed_at aw = None) = bool_decide (at_Outcome a = OutcomeUnknown) || timeIsZero (at_CompletedAt a).
Proof.
  intros C N. unfold canonAttempt in C. injection C as _ _ _ _ _ _ Co _ Cc. cbn in Co, Cc. f_equal.
  - unfold sqlEq. apply bool_decide_ext. rewrite <- Co. destruct (aw_outcome aw) as [o|]; cbn; [|split; discriminate]. split; [intros E; congruence|intros ->; reflexivity].
  - destruct (aw_completed_at aw) as [t|]; cbn in Cc.
    + rewrite bool_decide_eq_false_2 by discriminate. unfold timeIsZero in Cc at 1. rewrite (bool_decide_eq_false_2 (t = zeroTime)) in Cc by congruence. destruct (timeIsZero (at_CompletedAt a)); [discriminate|reflexivity].
    + destruct (timeIsZero (at_CompletedAt a)); [reflexivity|discriminate].
Qed.
Lemma uncertain_same db s k row d : represents db s → store_inv s → os_dispatches s !! k = Some d → sameRow row d → uncertainRetryRow db row = isUncertainRetryLocked s d.
Proof.
  intros R I L (C & _). pose proof (si_disp _ (inv_static _ I) _ _ L) as (Ek & _). unfold canonDispatch in C. injection C; intros. cbn in *. clear C.
  unfold uncertainRetryRow, isUncertainRetryLocked. assert (Es : ob_state row = d_State d) by assumption. assert (Ei : ob_dispatch_id row = d_ID d) by assumption.
  assert (Eo : ofNullOutcome (ob_last_outcome row) = d_LastOutcome d) by assumption. rewrite Es, Ei, Ek.
  destruct (decide (d_State d = DispatchRetryWait)) as [P|P]; [rewrite (bool_decide_eq_true_2 _ P), (bool_decide_eq_false_2 (d_State d ≠ _)) by (intros []; exact P)|rewrite (bool_decide_eq_false_2 _ P), (bool_decide_eq_true_2 _ P); reflexivity].
  cbn [andb]. assert (Eq : sqlEq (ob_last_outcome row) OutcomeUnknown = bool_decide (d_LastOutcome d = OutcomeUnknown)).
  { unfold sqlEq. apply bool_decide_ext. rewrite <- Eo. destruct (ob_last_outcome row) as [o|]; cbn; [|split; discriminate]. split; [intros E; congruence|intros ->; reflexivity]. }
  rewrite Eq. destruct (bool_decide (d_LastOutcome d = OutcomeUnknown)); [reflexivity|]. cbn [orb]. unfold unresolvedAttempt. apply eq_true_iff_eq. rewrite existsRow_true, existsb_exists. split.
  - intros ([k' n] & aw & Lr & Q). apply andb_true_iff in Q as [Q1 Q2]. bool_to_prop. destruct (rep_attempt_row _ _ _ _ _ R I Lr) as (_ & a & _ & La & Ca & _ & Ek' & _). assert (k' = k) as -> by congruence.
    exists a. split; [apply list_elem_of_In, (list_elem_of_lookup_2 _ _ _ La)|]. rewrite <- (attempt_open _ _ Ca (rp_completed _ _ R _ _ Lr)). exact Q2.
  - intros (a & Ia & Q). apply list_elem_of_In, list_elem_of_lookup in Ia as [i La]. pose proof (rp_attempts _ _ R k (Z.of_nat i + 1)) as E. unfold attemptAt in E. rewrite bool_decide_eq_true_2 in E by lia.
    replace (Z.to_nat (Z.of_nat i + 1 - 1)) with i in E by lia. rewrite La in E. destruct (pg_attempts db !! (k, Z.of_nat i + 1)) as [aw|] eqn:Lr; [|discriminate]. apply (inj Some) in E.
    exists (k, Z.of_nat i + 1), aw. split; [exact Lr|]. destruct (rep_attempt_row _ _ _ _ _ R I Lr) as (_ & _ & _ & _ & _ & _ & Ek' & _). rewrite (bool_decide_eq_true_2 _ Ek'). cbn [andb].
    rewrite (attempt_open _ _ E (rp_completed _ _ R _ _ Lr)). exact Q.
Qed.

(** What the three updates make of one row. *)
Definition closeRow (scope : OutboxRow → bool) (now : Time) (expired canceled : string) (db : Database) (row : OutboxRow) : OutboxRow :=
  if scope row then
    if expiredRow now row then blockExpiredRow now expired row
    else if uncertainRetryRow db row then blockUncertainRow now row
    else if pendingRow row then cancelRow now canceled row else row
  else row.
Lemma closeRows_fmap scope now expired canceled db : (∀ row row', ob_saga_id row' = ob_saga_id row → ob_direction row' = ob_direction row → scope row' = scope row) →
  closeRows scope now expired canceled db = db <| pg_outbox := closeRow scope now expired canceled db <$> pg_outbox db |>.
Proof.
  intros Sc. unfold closeRows, updateRows. rewrite <- !map_fmap_compose. f_equal. apply map_fmap_ext. intros k row _. unfold closeRow, compose.
  assert (S1 : scope (blockExpiredRow now expired row) = scope row) by (apply Sc; reflexivity). assert (S2 : scope (blockUncertainRow now row) = scope row) by (apply Sc; reflexivity).
  destruct (scope row) eqn:E; cbn [andb]; [|rewrite E; cbn [andb]; rewrite E; reflexivity].
  destruct (expiredRow now row); [rewrite S1; cbn [andb]; change (uncertainRetryRow db (blockExpiredRow now expired row)) with false; cbn iota; rewrite S1; reflexivity|]. rewrite E. cbn [andb].
  destruct (uncertainRetryRow db row); [rewrite S2; reflexivity|rewrite E; reflexivity].
Qed.
Lemma sameRow_block row d now now' message : sameRow row d → sameRow (blockExpiredRow now message row) (blockExpiredDispatch d now').
Proof. intros (C & S & _). split; [|split; [exact S|discriminate]]. unfold canonDispatch in *. cbn in *. injection C; intros. f_equal; assumption. Qed.
Lemma sameRow_uncertain row d now now' : sameRow row d → sameRow (blockUncertainRow now row) (blockUnknownRetryDispatch d now').
Proof. intros (C & S & _). split; [|split; [exact S|discriminate]]. unfold canonDispatch in *. cbn in *. injection C; intros. f_equal; assumption. Qed.
Lemma sameRow_cancel row d now now' message message' : sameRow row d → sameRow (cancelRow now message row) (cancelDispatch d now' message').
Proof. intros (C & S & _). split; [|split; [exact S|discriminate]]. unfold canonDispatch in *. cbn in *. injection C; intros. f_equal; assumption. Qed.
Lemma sameRow_fields row d : sameRow row d → ob_dispatch_id row = d_ID d ∧ ob_saga_id row = d_SagaID d ∧ ob_direction row = d_Direction d ∧ ob_state row = d_State d.
Proof. intros (C & _). apply canonDispatch_fields in C as (C1 & C2 & _ & _ & C3 & C4 & _). auto. Qed.
(** Without an unexpired lease, a row in flight has expired. *)
Lemma expired_inflight row d now : sameRow row d → ob_state row = DispatchInFlight → sqlGt (ob_lease_deadline row) now = false → expiredRow now row = true.
Proof. intros (_ & _ & S) P N. unfold expiredRow. rewrite (bool_decide_eq_true_2 _ P). destruct (S P) as [t E]. rewrite E in *. cbn in *. rewrite N. reflexivity. Qed.
Section Saga.
  Context (db : Database) (s : InMemoryOutboxStore) (now : Time) (sid : string) (R : represents db s) (I : store_inv s).
  Context (NoLease : ∀ k row, pg_outbox db !! k = Some row → ob_saga_id row = sid → ob_state row = DispatchInFlight → sqlGt (ob_lease_deadline row) now = false).
(** What a close makes of a dispatch that it covers, given what the store does with one. *)
Lemma close_same scope expired canceled G k row d : pg_outbox db !! k = Some row → os_dispatches s !! k = Some d → sameRow row d →
  (scope row = true → d_SagaID d = sid ∧ 
     ((d_State d = DispatchInFlight ∧ G d = blockExpiredDispatch d now) ∨ (isUncertainRetryLocked s d = true ∧ G d = blockUnknownRetryDispatch d now) ∨
      ((d_State d = DispatchQueued ∨ d_State d = DispatchRetryWait) ∧ isUncertainRetryLocked s d = false ∧ ∃ m, G d = cancelDispatch d now m) ∨ (pendingState (d_State d) = false ∧ G d = d))) →
  (scope row = false → G d = d) → sameRow (closeRow scope now expired canceled db row) (G d).
Proof using R I NoLease.
  intros L Ld S In Out. unfold closeRow. destruct (scope row); [|rewrite Out by reflexivity; exact S]. destruct (In eq_refl) as [Es Cs]. destruct (sameRow_fields _ _ S) as (_ & E1 & _ & E2).
  rewrite (uncertain_same _ _ _ _ _ R I Ld S). destruct Cs as [[P ->]|[[P ->]|[(P & U & m & ->)|[P ->]]]].
  - rewrite (expired_inflight _ _ now S) by (try congruence; apply (NoLease _ _ L); congruence). apply sameRow_block, S.
  - unfold expiredRow. rewrite bool_decide_eq_false_2 by (rewrite E2, (uncertainRetry_state _ _ P); discriminate). cbn [andb]. rewrite P. apply sameRow_uncertain, S.
  - unfold expiredRow, pendingRow. rewrite bool_decide_eq_false_2 by (rewrite E2; destruct P as [-> | ->]; discriminate). cbn [andb]. rewrite U, E2. destruct P as [-> | ->]; apply sameRow_cancel, S.
  - assert (U : isUncertainRetryLocked s d = false). { destruct (isUncertainRetryLocked s d) eqn:U; [|reflexivity]. apply uncertainRetry_state in U. rewrite U in P. discriminate. }
    unfold expiredRow, pendingRow. rewrite E2, U. destruct (d_State d); try discriminate; exact S.
Qed.
End Saga.

Lemma existsRow_or {K V} `{Countable K} (p q : V → bool) (m : gmap K V) : existsRow (λ v, p v || q v) m = existsRow p m || existsRow q m.
Proof.
  apply eq_true_iff_eq. rewrite orb_true_iff, !existsRow_true. split.
  - intros (k & v & L & Q). apply orb_true_iff in Q as [Q|Q]; eauto.
  - intros [(k & v & L & Q)|(k & v & L & Q)]; exists k, v; (split; [exact L|]); rewrite Q; [reflexivity|apply orb_true_r].
Qed.
Lemma rep_exists_at db s p q : represents db s → (∀ k row d, pg_outbox db !! k = Some row → os_dispatches s !! k = Some d → sameRow row d → p row = q d) →
  existsRow p (pg_outbox db) = mapExists q (os_dispatches s).
Proof.
  intros R E. apply existsRow_mapExists; [intros k; apply (rep_is_Some _ _ _ _ k (rp_dispatches _ _ R))|]. intros k row d L L'. apply (E k); try assumption. eapply rep_same; eassumption.
Qed.

(** ** One saga *)
Lemma active_same db s sid now : represents db s → zeroTime ≤ now →
  existsRow (λ row, bool_decide (ob_saga_id row = sid) && bool_decide (ob_state row = DispatchInFlight) && sqlGt (ob_lease_deadline row) now) (pg_outbox db) = hasActiveLease s sid now.
Proof.
  intros R T. unfold hasActiveLease. apply (rep_exists _ _ _ _ R). intros row d S. pose proof (sameRow_active _ _ _ T S) as A. destruct (sameRow_fields _ _ S) as (_ & E & _). rewrite <- !andb_assoc, A, E. reflexivity.
Qed.
Lemma no_lease db sid now : rejectActiveDispatchLease now sid db = Ok tt →
  ∀ k row, pg_outbox db !! k = Some row → ob_saga_id row = sid → ob_state row = DispatchInFlight → sqlGt (ob_lease_deadline row) now = false.
Proof.
  unfold rejectActiveDispatchLease. intros E%failIf_Ok k row L S P. rewrite existsRow_false in E. specialize (E _ _ L). rewrite !bool_decide_eq_true_2 in E by assumption. exact E.
Qed.
Lemma blockCompensation_cases s now sid d : bool_decide (d_SagaID d = sid) && bool_decide (d_Direction d = DirectionCompensation) = true → let G := blockCompensationDispatch s now sid in
  (d_State d = DispatchInFlight ∧ G d = blockExpiredDispatch d now) ∨ (isUncertainRetryLocked s d = true ∧ G d = blockUnknownRetryDispatch d now) ∨
  ((d_State d = DispatchQueued ∨ d_State d = DispatchRetryWait) ∧ isUncertainRetryLocked s d = false ∧ ∃ m, G d = cancelDispatch d now m) ∨ (pendingState (d_State d) = false ∧ G d = d).
Proof.
  intros Q. cbv zeta. unfold blockCompensationDispatch. rewrite Q. destruct (isUncertainRetryLocked s d) eqn:U.
  - rewrite (uncertainRetry_state _ _ U). right. left. split; reflexivity.
  - destruct (d_State d) eqn:P; first [left; split; reflexivity|right; right; left; split; [first [left; reflexivity|right; reflexivity]|]; split; [reflexivity|eexists; reflexivity]|right; right; right; split; reflexivity].
Qed.
Lemma sim_block ctx now sid db db' s : represents db s → store_inv s → zeroTime ≤ now → PostgresBlockSagaCompensation ctx now sid db = Ok db' → follows db' s.
Proof.
  intros R I T H. unfold PostgresBlockSagaCompensation in H. do 2 apply bind_Ok in H as ([] & _ & H). apply bind_Ok in H as (g1 & G & H). unfold getSagaTx in G.
  destruct (pg_instances db !! sid) as [g0|] eqn:L; [|discriminate]. injection G as <-. unfold scanSaga in H.
  destruct (bool_decide (sg_State g0 = SagaBlockedCompensation)) eqn:E; [injection H as <-; apply follows_same, R|]. apply bind_Ok in H as ([] & Ru%failIf_Ok & H). apply bind_Ok in H as ([] & A & H).
  cbv zeta in H. injection H as <-. destruct (rep_saga _ _ _ _ R L) as (g & Lg & C). apply canonSaga_fields in C as (_ & _ & _ & _ & Es). pose proof (no_lease _ _ _ A) as NL.
  set (scope := λ row, bool_decide (ob_saga_id row = sid) && bool_decide (ob_direction row = DirectionCompensation)) in *.
  assert (Nx : (if bool_decide (countRows (λ row, scope row && expiredRow now row) (pg_outbox db) ≠ 0) || bool_decide (countRows (λ row, scope row && uncertainRetryRow db row) (pg_outbox db) ≠ 0)
                then SagaBlockedUnknown else SagaBlockedCompensation) = (if mapExists (uncertainCompensation s sid) (os_dispatches s) then SagaBlockedUnknown else SagaBlockedCompensation)).
  { apply (f_equal (λ b : bool, if b then SagaBlockedUnknown else SagaBlockedCompensation)), eq_true_iff_eq. rewrite orb_true_iff, !bool_decide_eq_true, !countRows_zero, !not_false_iff_true, <- orb_true_iff, <- existsRow_or. rewrite (rep_exists_at _ _ _ (uncertainCompensation s sid) R); [reflexivity|].
    intros k row d Lr Ld S. rewrite (uncertain_same _ _ _ _ _ R I Ld S). destruct (sameRow_fields _ _ S) as (_ & E1 & E2 & E3). unfold uncertainCompensation, scope. rewrite E1, E2, <- andb_orb_distrib_r. 
    destruct (bool_decide (d_SagaID d = sid)) eqn:Q; [|reflexivity]. apply bool_decide_eq_true in Q. f_equal. f_equal. unfold expiredRow. rewrite E3. destruct (bool_decide (d_State d = DispatchInFlight)) eqn:P; [|reflexivity].
    apply bool_decide_eq_true in P. pose proof (expired_inflight _ _ now S) as X. unfold expiredRow in X. rewrite E3, (bool_decide_eq_true_2 _ P) in X. apply X; [congruence|]. apply (NL _ _ Lr); congruence. }
  match goal with |- follows (advanceSaga _ ?f ?st _ (closeRows _ _ ?e ?c _)) _ => change (follows (advanceSaga sid f st now (closeRows scope now e c db)) s);
    replace st with (if mapExists (uncertainCompensation s sid) (os_dispatches s) then SagaBlockedUnknown else SagaBlockedCompensation) by (symmetry; exact Nx) end. clear Nx.
  set (next := if mapExists _ _ then _ else _).
  apply (follows_step _ s (finishSaga sid g next now (s <| os_dispatches := blockCompensationDispatch s now sid <$> os_dispatches s |>))).
  - apply (step_block None now sid). unfold BlockSagaCompensation. cbn [ctxErr mbind result_bind]. rewrite Lg. cbn [ofOption mbind result_bind]. rewrite <- Es, E, Ru. cbn [failIf mbind result_bind].
    unfold rejectActiveDispatchLease in A. apply failIf_Ok in A. rewrite (active_same _ _ _ _ R T) in A. rewrite A. reflexivity.
  - assert (Sc : ∀ row row', ob_saga_id row' = ob_saga_id row → ob_direction row' = ob_direction row → scope row' = scope row) by (intros row row' E1 E2; unfold scope; rewrite E1, E2; reflexivity).
    rewrite (closeRows_fmap _ _ _ _ _ Sc). apply (rep_advance _ _ _ _ _ _ _ g0); [|exact L|apply bool_decide_eq_false, dec_stable in Ru; apply bool_decide_eq_true, Ru|exact Lg].
    apply rep_fmap_rows; [exact R|]. intros k row d Lr Ld S. destruct (sameRow_fields _ _ S) as (_ & E1 & E2 & _).
    apply (close_same db s now sid R I NL scope _ _ (blockCompensationDispatch s now sid) k); try assumption; unfold scope, blockCompensationDispatch; rewrite E1, E2.
    + intros Q. pose proof Q as Q1. apply andb_true_iff in Q1 as [Q1 _]. apply bool_decide_eq_true in Q1. split; [exact Q1|]. fold (blockCompensationDispatch s now sid d). apply blockCompensation_cases, Q.
    + intros ->. reflexivity.
Qed.

(** ** Stopping an execution *)
Lemma foldl_stopped_map s sid m next : next ≠ SagaBlockedUnknown → foldl (stoppedStateStep s sid) next (map_to_list m).*2 =
  if mapExists (uncertainDispatch s sid) m then SagaBlockedUnknown else if mapExists (stoppedDependency sid) m then SagaBlockedDependency else next.
Proof. intros N. rewrite foldl_stopped, (bool_decide_eq_false_2 _ N). reflexivity. Qed.
Lemma closed_unknown s now sid : mapExists (λ d, bool_decide (d_SagaID d = sid) && bool_decide (d_State d = DispatchBlockedUnknown)) (closeStopped s now sid <$> os_dispatches s) =
  mapExists (uncertainDispatch s sid) (os_dispatches s).
Proof.
  apply eq_true_iff_eq. rewrite !mapExists_true. setoid_rewrite lookup_fmap_Some. split.
  - intros (k & d' & (d & <- & Ld) & Q). apply andb_true_iff in Q as [Q1 Q2]. apply bool_decide_eq_true in Q1, Q2. exists k, d. split; [exact Ld|].
    assert (Sd : d_SagaID d = sid). { destruct (cs_closes _ _ _ (closeStopped_closer s now sid) d) as [K _]. unfold d_core in K. unfold closeStopped, compose in *. injection K as _ K _ _ _ _ _ _ _ _ _ _. congruence. }
    apply (closeStopped_unknown s now sid d Sd), Q2.
  - intros (k & d & Ld & Q). exists k, (closeStopped s now sid d). split; [exists d; split; [reflexivity|exact Ld]|].
    assert (Sd : d_SagaID d = sid) by (unfold uncertainDispatch in Q; apply andb_true_iff in Q as [Q _]; apply bool_decide_eq_true in Q; exact Q).
    destruct (cs_closes _ _ _ (closeStopped_closer s now sid) d) as [K _]. unfold d_core in K. injection K as _ K _ _ _ _ _ _ _ _ _ _. rewrite K, (bool_decide_eq_true_2 _ Sd). cbn [andb].
    apply bool_decide_eq_true, (closeStopped_unknown s now sid d Sd), Q.
Qed.
Lemma sim_stopOne now sid db db' s g : represents db s → store_inv s → zeroTime ≤ now → os_sagas s !! sid = Some g → finalizeStoppedSagaTx now db sid = Ok db' →
  represents db' (finalizeStoppedSaga (sg_ExecutionID g) now s (sid, g)) ∧ hasActiveLease s sid now = false.
Proof.
  intros R I T Lg H. pose proof (si_saga _ (inv_static _ I) _ _ Lg) as (Gk & _). unfold finalizeStoppedSagaTx in H. cbv zeta in H. apply bind_Ok in H as (g1 & G & H). unfold getSagaTx in G.
  destruct (pg_instances db !! sid) as [g0|] eqn:L; [|discriminate]. injection G as <-. unfold scanSaga in H. apply bind_Ok in H as ([] & A & H). pose proof (no_lease _ _ _ A) as NL.
  unfold rejectActiveDispatchLease in A. apply failIf_Ok in A. rewrite (active_same _ _ _ _ R T) in A. split; [|exact A]. clear A.
  destruct (rep_saga _ _ _ _ R L) as (g' & Lg' & C). assert (g' = g) as -> by congruence. apply canonSaga_fields in C as (_ & _ & _ & _ & Es).
  set (scope := λ row, bool_decide (ob_saga_id row = sid)) in *. rewrite closeRows_fmap in H by (intros row row' E1 E2; unfold scope; rewrite E1; reflexivity).
  unfold finalizeStoppedSaga. rewrite (bool_decide_eq_false_2 (sg_ExecutionID g ≠ _)) by (intros []; reflexivity). rewrite Gk, <- Es.
  set (db1 := db <| pg_outbox := _ |>) in H. set (s1 := s <| os_dispatches := _ |>).
  assert (R1 : represents db1 s1).
  { apply rep_fmap_rows; [exact R|]. intros k row d Lr Ld S. destruct (sameRow_fields _ _ S) as (_ & E1 & _). unfold compose. fold (closeStopped s now sid d).
    apply (close_same db s now sid R I NL scope _ _ (closeStopped s now sid) k); try assumption; unfold scope; rewrite E1; intros Q; [apply bool_decide_eq_true in Q; split; [exact Q|]|apply bool_decide_eq_false in Q; apply closeStopped_other, Q].
    destruct (closeStopped_cases s now sid d Q) as [X|[X|[(X1 & X2 & X3)|X]]]; [tauto|tauto|right; right; left; eauto|tauto]. }
  assert (U : existsRow (λ row, bool_decide (ob_saga_id row = sid) && bool_decide (ob_state row = DispatchBlockedUnknown)) (pg_outbox db1) = mapExists (uncertainDispatch s sid) (os_dispatches s)).
  { rewrite (rep_exists_at db1 s1 _ (λ d, bool_decide (d_SagaID d = sid) && bool_decide (d_State d = DispatchBlockedUnknown)) R1).
    - apply closed_unknown.
    - intros k row d _ _ S. destruct (sameRow_fields _ _ S) as (_ & E1 & _ & E2). rewrite E1, E2. reflexivity. }
  destruct (isTerminalSaga (sg_State g0)) eqn:Te; injection H as <-.
  - match type of U with _ = ?b => match goal with |- represents (if ?e && _ then _ else _) _ => replace e with b by (symmetry; exact U) end end. destruct (mapExists _ _ && _); [|exact R1]. apply (rep_advance _ _ _ _ _ _ _ g0); [exact R1|exact L|reflexivity|exact Lg].
  - rewrite foldl_stopped_map by (destruct (bool_decide _); discriminate). erewrite (rep_exists_at db s _ (uncertainDispatch s sid) R), (rep_exists_at db s _ (stoppedDependency sid) R).
    + apply (rep_advance _ _ _ _ _ _ _ g0); [exact R1|exact L|rewrite Te; reflexivity|exact Lg].
    + intros k row d _ _ S. destruct (sameRow_fields _ _ S) as (_ & E1 & E2 & E3). unfold stoppedDependency. rewrite E1, E2, E3. reflexivity.
    + intros k row d _ Ld S. rewrite (uncertain_same _ _ _ _ _ R I Ld S). destruct (sameRow_fields _ _ S) as (_ & E1 & _ & E3). unfold uncertainDispatch. rewrite E1, E3. btauto.
Qed.

(** The store takes the sagas of an execution in the order of its map, the transaction in the
    order of the collation: closing one saga does not touch another. *)
Definition stoppedOutcome (s : InMemoryOutboxStore) (k : string) (g : SagaInstance) : option SagaState :=
  if isTerminalSaga (sg_State g)
  then if mapExists (uncertainDispatch s k) (os_dispatches s) && bool_decide (sg_State g ≠ SagaBlockedUnknown) then Some SagaBlockedUnknown else None
  else Some (if mapExists (uncertainDispatch s k) (os_dispatches s) then SagaBlockedUnknown
             else if mapExists (stoppedDependency k) (os_dispatches s) then SagaBlockedDependency
             else if bool_decide (sg_State g = SagaCompensating) then SagaBlockedDependency else SagaFailed).
Definition recordOutcome (o : option SagaState) (k : string) (g : SagaInstance) (now : Time) (s : InMemoryOutboxStore) : InMemoryOutboxStore :=
  match o with Some state => finishSaga k g state now s | None => s end.
Definition closedStore (s : InMemoryOutboxStore) (now : Time) (k : string) : InMemoryOutboxStore := s <| os_dispatches := closeStopped s now k <$> os_dispatches s |>.
Lemma finalizeStoppedSaga_form eid now s k g : sg_SagaID g = k → sg_ExecutionID g = eid →
  finalizeStoppedSaga eid now s (k, g) = recordOutcome (stoppedOutcome s k g) k g now (closedStore s now k).
Proof.
  intros Ek Ee. unfold finalizeStoppedSaga. rewrite (bool_decide_eq_false_2 (_ ≠ eid)) by (intros []; exact Ee). rewrite Ek. unfold stoppedOutcome. destruct (isTerminalSaga (sg_State g)).
  - destruct (_ && _); reflexivity.
  - rewrite foldl_stopped_map by (destruct (bool_decide _); discriminate). reflexivity.
Qed.
Lemma uncertainDispatch_attempts s s' k d : os_attempts s' = os_attempts s → uncertainDispatch s' k d = uncertainDispatch s k d.
Proof. intros E. unfold uncertainDispatch, isUncertainRetryLocked, attemptsOf. rewrite E. reflexivity. Qed.
Lemma closeStopped_attempts s s' now k d : os_attempts s' = os_attempts s → closeStopped s' now k d = closeStopped s now k d.
Proof. intros E. unfold closeStopped, settleDispatch, isUncertainRetryLocked, attemptsOf. rewrite E. reflexivity. Qed.
Lemma closeStopped_saga s now k d : d_SagaID (closeStopped s now k d) = d_SagaID d.
Proof. destruct (cs_closes _ _ _ (closeStopped_closer s now k) d) as [K _]. unfold d_core in K. injection K as _ K _ _ _ _ _ _ _ _ _ _. exact K. Qed.
(** A question about one saga has the answer it had before another saga was closed. *)
Lemma mapExists_other s now k k' p q : k ≠ k' → (∀ d, q d = p d) → (∀ d, p d = true → d_SagaID d = k') →
  mapExists q (closeStopped s now k <$> os_dispatches s) = mapExists p (os_dispatches s).
Proof.
  intros N E S. apply eq_true_iff_eq. rewrite !mapExists_true. split.
  - intros (j & d' & L & Q). rewrite lookup_fmap in L. apply fmap_Some in L as (d & L & ->). rewrite E in Q. pose proof (S _ Q) as Sd. rewrite closeStopped_saga in Sd.
    rewrite closeStopped_other in Q by congruence. eauto.
  - intros (j & d & L & Q). exists j, d. rewrite lookup_fmap, L. pose proof (S _ Q) as Sd. cbn. rewrite closeStopped_other by congruence. rewrite E. auto.
Qed.
Lemma stoppedOutcome_other s now k k' g g' o : k ≠ k' → stoppedOutcome (recordOutcome o k g now (closedStore s now k)) k' g' = stoppedOutcome s k' g'.
Proof.
  intros N. unfold stoppedOutcome. assert (D : os_dispatches (recordOutcome o k g now (closedStore s now k)) = closeStopped s now k <$> os_dispatches s) by (destruct o; reflexivity).
  assert (A : os_attempts (recordOutcome o k g now (closedStore s now k)) = os_attempts s) by (destruct o; reflexivity). rewrite D.
  rewrite (mapExists_other s now k k' (uncertainDispatch s k')), (mapExists_other s now k k' (stoppedDependency k')); [reflexivity|exact N|reflexivity| |exact N| |].
  - intros d Q. unfold stoppedDependency in Q. repeat (apply andb_true_iff in Q as [Q ?]). bool_to_prop. assumption.
  - intros d. apply uncertainDispatch_attempts, A.
  - intros d Q. unfold uncertainDispatch in Q. apply andb_true_iff in Q as [Q _]. bool_to_prop. assumption.
Qed.
Lemma closeStopped_comm s now k k' d : k ≠ k' → closeStopped s now k' (closeStopped s now k d) = closeStopped s now k (closeStopped s now k' d).
Proof.
  intros N. destruct (decide (d_SagaID d = k)) as [E|E].
  - rewrite !(closeStopped_other s now k') by (rewrite ?closeStopped_saga; congruence). reflexivity.
  - rewrite !(closeStopped_other s now k) by (rewrite ?closeStopped_saga; congruence). reflexivity.
Qed.
Lemma finalizeStoppedSaga_comm eid now s k g k' g' : k ≠ k' → sg_SagaID g = k → sg_ExecutionID g = eid → sg_SagaID g' = k' → sg_ExecutionID g' = eid →
  finalizeStoppedSaga eid now (finalizeStoppedSaga eid now s (k, g)) (k', g') = finalizeStoppedSaga eid now (finalizeStoppedSaga eid now s (k', g')) (k, g).
Proof.
  intros N E1 E2 E3 E4. rewrite !(finalizeStoppedSaga_form eid) by assumption. rewrite !stoppedOutcome_other by congruence.
  generalize (stoppedOutcome s k g), (stoppedOutcome s k' g'). intros o o'.
  assert (A : ∀ o k g, os_attempts (recordOutcome o k g now (closedStore s now k)) = os_attempts s) by (intros [] ? ?; reflexivity).
  assert (D : ∀ o k g, os_dispatches (recordOutcome o k g now (closedStore s now k)) = closeStopped s now k <$> os_dispatches s) by (intros [] ? ?; reflexivity).
  unfold closedStore at 1 3. rewrite !D.
  rewrite (map_fmap_ext (closeStopped (recordOutcome o k g now (closedStore s now k)) now k') (closeStopped s now k')) by (intros; apply closeStopped_attempts, A).
  rewrite (map_fmap_ext (closeStopped (recordOutcome o' k' g' now (closedStore s now k')) now k) (closeStopped s now k)) by (intros; apply closeStopped_attempts, A).
  rewrite <- !map_fmap_compose, (map_fmap_ext (closeStopped s now k' ∘ closeStopped s now k) (closeStopped s now k ∘ closeStopped s now k')) by (intros; apply closeStopped_comm, N).
  destruct o, o'; unfold recordOutcome, finishSaga, closedStore, putSaga; cbn; try reflexivity. f_equal. apply insert_insert_ne. congruence.
Qed.
Lemma finalize_perm eid now s l l' : l ≡ₚ l' → NoDup l.*1 → (∀ k g, (k, g) ∈ l → sg_SagaID g = k ∧ sg_ExecutionID g = eid) →
  foldl (finalizeStoppedSaga eid now) s l = foldl (finalizeStoppedSaga eid now) s l'.
Proof.
  intros P. revert s. induction P as [|[k g] l l' P IH|[k g] [k' g'] l|l1 l2 l3 P1 IH1 P2 IH2]; intros s N E.
  - reflexivity.
  - cbn [foldl]. apply IH; [apply NoDup_cons in N; apply N|]. intros k' g' J. apply E. right. exact J.
  - assert (E1 : sg_SagaID g = k ∧ sg_ExecutionID g = eid) by (apply E; first [left|right; left]). assert (E2 : sg_SagaID g' = k' ∧ sg_ExecutionID g' = eid) by (apply E; first [left|right; left]).
    assert (k ≠ k') by (cbn in N; apply NoDup_cons in N as [N _]; intros ->; apply N; left).
    cbn [foldl]. f_equal. destruct E1, E2. apply finalizeStoppedSaga_comm; congruence.
  - rewrite IH1 by assumption. apply IH2; [rewrite <- P1; exact N|]. intros k g J. apply E. rewrite P1. exact J.
Qed.
Lemma finalize_skip eid now l : ∀ s, foldl (finalizeStoppedSaga eid now) s l = foldl (finalizeStoppedSaga eid now) s (List.filter (λ p, bool_decide (sg_ExecutionID p.2 = eid)) l).
Proof.
  induction l as [|[k g] l IH]; intros s; [reflexivity|]. cbn [List.filter foldl snd]. destruct (decide (sg_ExecutionID g = eid)) as [E|E].
  - rewrite (bool_decide_eq_true_2 _ E). apply IH.
  - rewrite (bool_decide_eq_false_2 _ E). unfold finalizeStoppedSaga at 2. rewrite (bool_decide_eq_true_2 _ E). apply IH.
Qed.
Lemma hasActiveLease_same s s' sid now : same_saga s s' sid → hasActiveLease s' sid now = hasActiveLease s sid now.
Proof.
  intros [_ E _]. unfold hasActiveLease. apply eq_true_iff_eq. rewrite !mapExists_true. split; intros (k & d & L & Q); exists k, d; (split; [|exact Q]);
    repeat (apply andb_true_iff in Q as [Q ?]); bool_to_prop; apply (E k d); split; assumption.
Qed.
Lemma sim_stopAll now eid ids : zeroTime ≤ now → ∀ db db' s, represents db s → store_inv s → NoDup ids → (∀ k, k ∈ ids → ∃ g, os_sagas s !! k = Some g ∧ sg_ExecutionID g = eid) →
  finalizeStoppedSagas now db ids = Ok db' → ∃ l, l.*1 = ids ∧ (∀ k g, (k, g) ∈ l → os_sagas s !! k = Some g) ∧
    represents db' (foldl (finalizeStoppedSaga eid now) s l) ∧ (∀ k, k ∈ ids → hasActiveLease s k now = false).
Proof.
  intros T. induction ids as [|sid ids IH]; intros db db' s R I N Ex H.
  - injection H as <-. exists []. split; [reflexivity|]. split; [intros k g J; inversion J|]. split; [exact R|]. intros k J. inversion J.
  - cbn [finalizeStoppedSagas] in H. apply bind_Ok in H as (db1 & H1 & H). destruct (Ex sid) as (g & Lg & Eg); [left|]. destruct (sim_stopOne _ _ _ _ _ _ R I T Lg H1) as [R1 A]. rewrite Eg in R1.
    destruct (finalizeStoppedSaga_spec eid now s sid g I Lg) as (I1 & [O1 O2] & _). apply NoDup_cons in N as [N1 N]. assert (Ne : ∀ k, k ∈ ids → k ≠ sid) by congruence.
    destruct (IH db1 db' _ R1 I1 N) as (l & El & Il & R' & A'); [|exact H|].
    + intros k J. destruct (Ex k) as (gk & Lk & Ek); [right; exact J|]. exists gk. rewrite O2 by (apply Ne, J). auto.
    + exists ((sid, g) :: l). split; [cbn; congruence|]. split; [|split; [exact R'|]].
      * intros k gk J. apply elem_of_cons in J as [J|J]; [injection J as -> ->; exact Lg|]. rewrite <- O2; [apply Il, J|]. apply Ne. rewrite <- El. apply list_elem_of_fmap. exists (k, gk). auto.
      * intros k J. apply elem_of_cons in J as [->|J]; [exact A|]. rewrite <- (hasActiveLease_same _ _ k now (O1 _ (Ne _ J))). apply A', J.
Qed.
Lemma sim_stop ctx now order eid db db' s : represents db s → store_inv s → zeroTime ≤ now → (∀ l, order l ≡ₚ l) → PostgresFinalizeStoppedExecution ctx now order eid db = Ok db' → follows db' s.
Proof.
  intros R I T Or H. unfold PostgresFinalizeStoppedExecution in H. apply bind_Ok in H as ([] & E%failIf_Ok & H). apply bind_Ok in H as ([] & _ & H). pose proof (inv_static _ I) as St.
  set (ids := (selectRows _ (pg_instances db)).*1) in H.
  assert (Id : ∀ k, k ∈ ids ↔ ∃ g, os_sagas s !! k = Some g ∧ sg_ExecutionID g = eid).
  { intros k. unfold ids. rewrite list_elem_of_fmap. split.
    - intros ([k' g1] & -> & J). apply selectRows_elem in J as [L Q]. bool_to_prop. destruct (rep_saga _ _ _ _ R L) as (g & Lg & C). apply canonSaga_fields in C as (_ & _ & C & _). exists g. split; [exact Lg|congruence].
    - intros (g & Lg & Eg). destruct (pg_instances db !! k) as [g1|] eqn:L; [|apply (rep_no_saga _ _ _ R) in L; congruence]. exists (k, g1). split; [reflexivity|]. apply selectRows_elem. split; [exact L|].
      destruct (rep_saga _ _ _ _ R L) as (g' & Lg' & C). apply canonSaga_fields in C as (_ & _ & C & _). apply bool_decide_eq_true. congruence. }
  assert (Nd : NoDup ids).
  { unfold ids, selectRows. apply NoDup_fmap_fst; [|apply NoDup_ListNoDup, List.NoDup_filter, NoDup_ListNoDup, NoDup_map_to_list].
    intros x y1 y2 I1 I2. apply list_elem_of_In, List.filter_In in I1 as [I1 _], I2 as [I2 _]. apply list_elem_of_In, elem_of_map_to_list in I1, I2. congruence. }
  destruct (sim_stopAll now eid (order ids) T db db' s R I) as (l & El & Il & R' & A); [rewrite Or; exact Nd|intros k; rewrite Or; apply Id|exact H|].
  eapply follows_step; [|exact R']. apply (step_stop None now eid). unfold FinalizeStoppedExecution. cbn [ctxErr mbind result_bind]. rewrite E. cbn [failIf mbind result_bind].
  rewrite (proj2 (mapExists_false _ _)); cbn [failIf mbind result_bind].
  - f_equal. rewrite (finalize_skip eid now (map_to_list (os_sagas s))). symmetry. apply finalize_perm.
    + apply NoDup_Permutation; [apply (NoDup_fmap_1 fst); rewrite El, Or; exact Nd|apply NoDup_ListNoDup, List.NoDup_filter, NoDup_ListNoDup, NoDup_map_to_list|].
      intros [k g]. rewrite (list_elem_of_In (List.filter _ _)), List.filter_In, <- list_elem_of_In, elem_of_map_to_list. cbn [snd]. rewrite bool_decide_eq_true. split.
      * intros J. split; [apply Il, J|]. assert (Jk : k ∈ ids) by (rewrite <- Or, <- El; apply list_elem_of_fmap; exists (k, g); auto). apply Id in Jk as (g' & Lg' & Eg'). apply Il in J. congruence.
      * intros [Lg Eg]. assert (Jk : k ∈ l.*1) by (rewrite El, Or; apply Id; eauto). apply list_elem_of_fmap in Jk as ([k' g'] & -> & J). apply Il in J as J'. cbn [fst] in *. assert (g' = g) as -> by congruence. exact J.
    + rewrite El, Or. exact Nd.
    + intros k g J. apply Il in J as Lg. split; [apply (si_saga _ St _ _ Lg)|]. assert (Jk : k ∈ ids) by (rewrite <- Or, <- El; apply list_elem_of_fmap; exists (k, g); auto). apply Id in Jk as (g' & Lg' & Eg'). congruence.
  - intros k g Lg. destruct (decide (sg_ExecutionID g = eid)) as [Eg|Eg]; [|rewrite (bool_decide_eq_false_2 _ Eg); reflexivity]. destruct (si_saga _ St _ _ Lg) as [-> _].
    rewrite (A k) by (rewrite Or; apply Id; eauto). apply andb_false_r.
Qed.
End Close.
