(* ===== verification/PostgresLedger.v ===== *)
(** * The PostgreSQL execution ledger ([schema/execution_ledger_postgres.go])

    Artifacts, executions with their plans, facts and generations, recovery leases, and the
    admission that writes an execution with its sagas and first steps in one transaction.
    [now] is [now()], [clock] is [clock_timestamp()], and [others i] is what other
    transactions do to the database before the [i]-th time that an admission looks at it. *)

From S2P Require Import Prelude GoText Sha256 Json Workflow Identity Outbox Ledger Postgres.
From Stdlib Require Import ZArith String.
Local Open Scope list_scope.
Local Open Scope Z_scope.

(** The transaction was chosen to fail so that others can go on ([40001] and [40P01]). *)
Definition serializationFailure : error := errorf "could not serialize access".
Definition isRetryablePostgresAdmissionError (e : error) : bool :=
  bool_decide (e = uniqueViolation) || bool_decide (e = serializationFailure).
(** [revision + 1] *)
Definition incBigint (value : Z) : result Z := failIf (bool_decide (maxBigint ≤ value)) (sqlError "bigint out of range") ;; Ok (value + 1).
(** The [CHECK] on the state of an execution. *)
Definition checkExecutionState (state : ExecutionState) : result unit :=
  match state with ExecutionOther _ => Err (sqlError "violates check constraint") | _ => Ok tt end.

(** ** Rows as records *)
Definition ordinalLe (a b : ExecutionPlanRecord) : Prop := pr_Ordinal a ≤ pr_Ordinal b.
#[global] Instance ordinalLe_dec a b : Decision (ordinalLe a b).
Proof. unfold ordinalLe. apply _. Defined.
Definition plansOf (db : Database) (executionID : string) : list ExecutionPlanRecord :=
  merge_sort ordinalLe (selectRows (λ plan, bool_decide (pr_ExecutionID plan = executionID)) (pg_plans db)).*2.
Definition scanExecution (row : ExecutionRow) (plans : list ExecutionPlanRecord) : ExecutionRecord :=
  mkExecution (xr_execution_id row) (xr_admission_identity row) (xr_request_hash row) (xr_ruleset row) (xr_version row) (xr_tenant_namespace row)
    (xr_merge_policy row) (xr_generation_digest row) (xr_effective_facts row) (xr_state row) (xr_revision row) (ofNullString (xr_recovery_owner row))
    (ofNullString (xr_recovery_token row)) (ofNullTime (xr_recovery_deadline row)) (ofNullString (xr_last_error row)) (xr_created_at row) (xr_updated_at row) plans.
Definition getExecutionQuery (db : Database) (id : string) : result ExecutionRecord :=
  row ← ofOption (pg_executions db !! id) (wrapf ErrExecutionNotFound "execution not found"); Ok (scanExecution row (plansOf db id)).
Definition getArtifactQuery (db : Database) (digest : string) : result ExecutionArtifact :=
  ofOption (pg_artifacts db !! digest) (wrapf ErrArtifactNotFound "execution artifact not found").
Definition PostgresGetArtifact (ctx : option error) (digest : string) (db : Database) : result ExecutionArtifact := ctxErr ctx ;; getArtifactQuery db digest.
Definition PostgresGetExecution (ctx : option error) (id : string) (db : Database) : result ExecutionRecord := ctxErr ctx ;; getExecutionQuery db id.
Definition admissionIs (identity : string) (row : ExecutionRow) : bool := bool_decide (xr_admission_identity row = identity).
(** [admission_identity] is unique. *)
Definition admittedRow (db : Database) (identity : string) : option ExecutionRow := (selectRows (admissionIs identity) (pg_executions db)).*2 !! 0%nat.
Definition PostgresGetExecutionByAdmission (ctx : option error) (identity : string) (db : Database) : result ExecutionRecord :=
  ctxErr ctx ;;
  row ← ofOption (admittedRow db identity) (wrapf ErrExecutionNotFound "admission");
  PostgresGetExecution ctx (xr_execution_id row) db.

Section Ledger.
  Context `{PT : !PostgresTypes}.

(** ** Admission *)
Definition putArtifactTx (now : Time) (artifact : ExecutionArtifact) (db : Database) : result Database :=
  environment ← castJSON (ar_Environment artifact);
  executors ← castJSON (ar_ExecutorManifest artifact);
  functions ← castJSON (ar_FunctionManifest artifact);
  metadata ← castJSON (ar_CompilerMetadata artifact);
  match pg_artifacts db !! ar_GenerationDigest artifact with
  | None =>
      Ok (db <| pg_artifacts := <[ar_GenerationDigest artifact := mkArtifact (ar_GenerationDigest artifact) (ar_IRDigest artifact) (ar_IRBytes artifact)
                environment executors functions (ar_SourceDigest artifact) metadata now]> (pg_artifacts db) |>)
  | Some existing =>
      failIf (negb (sameExecutionArtifact existing artifact)) (wrapf ErrIdentityConflict "generation artifact") ;; Ok db
  end.
Definition PostgresPutArtifact (ctx : option error) (now : Time) (artifact : ExecutionArtifact) (db : Database) : result Database :=
  validateExecutionArtifact artifact ;; ctxErr ctx ;; putArtifactTx now artifact db.

Definition generationKey (record : ExecutionRecord) : string * string * string := (er_Ruleset record, er_Version record, er_GenerationDigest record).
(** [UPDATE effectus_rule_generations SET state = 'retired'] *)
Definition retireGenerations (now : Time) (record : ExecutionRecord) (db : Database) : Database :=
  db <| pg_generations := updateRows (λ row, bool_decide (gr_ruleset row = er_Ruleset record) && bool_decide (gr_environment row = er_TenantNamespace record) && gr_active row
            && (bool_decide (gr_generation_digest row ≠ er_GenerationDigest record) || bool_decide (gr_version row ≠ er_Version record)))
          (λ row, row <| gr_active := false |> <| gr_retired_at := Some now |>) (pg_generations db) |>.
(** [INSERT ... ON CONFLICT (ruleset, version, generation_digest) DO UPDATE SET state = 'active'],
    the foreign key and the unique index on the active generation of a ruleset and an environment. *)
Definition activateGeneration (record : ExecutionRecord) (db : Database) : result Database :=
  let row := match pg_generations db !! generationKey record with
             | Some row => row <| gr_active := true |> <| gr_retired_at := None |>
             | None => mkGenerationRow (er_Ruleset record) (er_Version record) (er_TenantNamespace record) (er_GenerationDigest record) true None
             end in
  failIf (bool_decide (pg_artifacts db !! er_GenerationDigest record = None)) foreignKeyViolation ;;
  failIf (existsRow (λ other, bool_decide (gr_ruleset other = gr_ruleset row) && bool_decide (gr_environment other = gr_environment row) && gr_active other
            && (bool_decide (gr_generation_digest other ≠ gr_generation_digest row) || bool_decide (gr_version other ≠ gr_version row))) (pg_generations db)) uniqueViolation ;;
  Ok (db <| pg_generations := <[generationKey record := row]> (pg_generations db) |>).
Definition insertExecution (now : Time) (record : ExecutionRecord) (facts : string) (db : Database) : result Database :=
  failIf (bool_decide (pg_artifacts db !! er_GenerationDigest record = None)) foreignKeyViolation ;;
  failIf (bool_decide (is_Some (pg_executions db !! er_ExecutionID record)) || existsRow (admissionIs (er_AdmissionIdentity record)) (pg_executions db)) uniqueViolation ;;
  Ok (db <| pg_executions := <[er_ExecutionID record :=
            mkExecutionRow (er_ExecutionID record) (er_AdmissionIdentity record) (er_RequestHash record) (er_Ruleset record) (er_Version record)
              (er_TenantNamespace record) (er_MergePolicy record) (er_GenerationDigest record) facts ExecutionAccepted 1 None None None None now now]> (pg_executions db) |>).
Definition insertFactApplication (now : Time) (application : FactApplication) (db : Database) : result Database :=
  facts ← castJSON (fa_Facts application);
  failIf (bool_decide (pg_executions db !! fa_ExecutionID application = None)) foreignKeyViolation ;;
  failIf (bool_decide (is_Some (pg_facts db !! (fa_ExecutionID application, fa_FactEventID application)))) uniqueViolation ;;
  failIf (bool_decide (fa_AppliedRevision application ≤ 0) || bool_decide (maxBigint < fa_AppliedRevision application)) (sqlError "violates check constraint") ;;
  Ok (db <| pg_facts := <[(fa_ExecutionID application, fa_FactEventID application) :=
            (mkFactApplication (fa_ExecutionID application) (fa_FactEventID application) (fa_MergePolicy application) facts (fa_AppliedRevision application), now)]> (pg_facts db) |>).
Definition insertSnapshot (now : Time) (executionID universe : string) (revision : Z) (db : Database) : result Database :=
  failIf (bool_decide (pg_executions db !! executionID = None)) foreignKeyViolation ;;
  failIf (bool_decide (is_Some (pg_snapshots db !! executionID))) uniqueViolation ;;
  Ok (db <| pg_snapshots := <[executionID := mkSnapshotRow executionID universe revision now]> (pg_snapshots db) |>).
Fixpoint insertExecutionPlansTx (plans : list ExecutionPlanRecord) (db : Database) : result Database :=
  match plans with
  | [] => Ok db
  | plan :: plans =>
      failIf (bool_decide (pg_executions db !! pr_ExecutionID plan = None) || bool_decide (pg_instances db !! pr_SagaID plan = None)) foreignKeyViolation ;;
      failIf (bool_decide (is_Some (pg_plans db !! (pr_ExecutionID plan, pr_PlanID plan)))
              || existsRow (λ other, bool_decide (pr_SagaID other = pr_SagaID plan)
                   || (bool_decide (pr_ExecutionID other = pr_ExecutionID plan) && bool_decide (pr_Ordinal other = pr_Ordinal plan))) (pg_plans db)) uniqueViolation ;;
      failIf (bool_decide (pr_Ordinal plan < 0) || bool_decide (maxInteger < pr_Ordinal plan)) (sqlError "violates check constraint") ;;
      insertExecutionPlansTx plans (db <| pg_plans := <[(pr_ExecutionID plan, pr_PlanID plan) := plan <| pr_State := "selected" |>]> (pg_plans db) |>)
  end.
(** The boolean result says whether the execution is new. *)
Definition admitExecutionLedgerTx (now : Time) (admission : DurableAdmission) (insertPlans : bool) (db : Database) : result (ExecutionRecord * bool * Database) :=
  db ← putArtifactTx now (da_Artifact admission) db;
  let execution := da_Execution admission in
  match admittedRow db (er_AdmissionIdentity execution) with
  | Some existing =>
      failIf (bool_decide (xr_execution_id existing ≠ er_ExecutionID execution) || bool_decide (xr_request_hash existing ≠ er_RequestHash execution))
        (wrapf ErrIdentityConflict "admission identity") ;;
      record ← getExecutionQuery db (xr_execution_id existing);
      Ok (record, false, db)
  | None =>
      db ← activateGeneration execution (retireGenerations now execution db);
      facts ← castJSON (er_EffectiveFacts execution);
      db ← insertExecution now execution facts db;
      db ← insertFactApplication now (da_FactApplication admission) db;
      db ← insertSnapshot now (er_ExecutionID execution) facts (fa_AppliedRevision (da_FactApplication admission)) db;
      db ← (if insertPlans then insertExecutionPlansTx (da_Plans admission) db else Ok db);
      Ok (execution <| er_State := ExecutionAccepted |> <| er_Revision := 1 |> <| er_Plans := da_Plans admission |>, true, db)
  end.
(** The sagas of the selected plans, in order. *)
Fixpoint createAdmissionSagas (testBinary : bool) (now : Time) (executionID : string) (sagas : list CreateSagaRequest) (plans : list ExecutionPlanRecord) (db : Database)
    : result Database :=
  match sagas, plans with
  | saga :: sagas, plan :: plans =>
      failIf (bool_decide (cs_ExecutionID saga ≠ executionID) || bool_decide (cs_SagaID saga ≠ pr_SagaID plan) || bool_decide (cs_PlanID saga ≠ pr_PlanID plan))
        (errorf "admission saga does not match selected plan") ;;
      '(_, db) ← createSagaTx testBinary now saga db;
      createAdmissionSagas testBinary now executionID sagas plans db
  | _, _ => Ok db
  end.
Fixpoint enqueueInitialSteps (now : Time) (steps : list (EnqueueStepRequest json)) (db : Database) : result Database :=
  match steps with
  | [] => Ok db
  | step :: steps => '(_, db) ← enqueueStepTx now step db; enqueueInitialSteps now steps db
  end.
(** A saga without a first step is complete when it is admitted. *)
Definition completeEmptySaga (now : Time) (executionID : string) (steps : list (EnqueueStepRequest json)) (db : Database) (saga : CreateSagaRequest) : Database :=
  if existsb (λ step, bool_decide (eq_SagaID step = cs_SagaID saga)) steps then db else
  let db := advanceSaga (cs_SagaID saga) (λ state, bool_decide (state = SagaRunning)) SagaCompleted now db in
  db <| pg_plans := updateRows (λ plan, bool_decide (pr_ExecutionID plan = executionID) && bool_decide (pr_SagaID plan = cs_SagaID saga))
          (λ plan, plan <| pr_State := "completed" |>) (pg_plans db) |>.
Definition admitExecutionAtomicOnce (testBinary : bool) (ctx : option error) (now : Time) (admission : DurableAdmission) (db : Database)
    : result (ExecutionRecord * bool * Database) :=
  validateDurableAdmission admission ;;
  failIf (bool_decide (List.length (da_Sagas admission) ≠ List.length (da_Plans admission))) (errorf "selected plan and saga counts differ") ;;
  failIf (bool_decide (List.length (da_Plans admission) < List.length (da_InitialSteps admission))%nat) (errorf "too many initial steps") ;;
  ctxErr ctx ;;
  '(record, created, db') ← admitExecutionLedgerTx now admission false db;
  if created : bool then
    db' ← createAdmissionSagas testBinary now (er_ExecutionID record) (da_Sagas admission) (da_Plans admission) db';
    db' ← insertExecutionPlansTx (da_Plans admission) db';
    db' ← enqueueInitialSteps now (da_InitialSteps admission) db';
    let db' := foldl (completeEmptySaga now (er_ExecutionID record) (da_InitialSteps admission)) db' (da_Sagas admission) in
    match da_InitialSteps admission with
    | [] =>
        Ok (record <| er_State := ExecutionCompleted |> <| er_Revision := 2 |> <| er_Plans := (λ plan, plan <| pr_State := "completed" |>) <$> er_Plans record |>, true,
            db' <| pg_executions := (updateRow (er_ExecutionID record) (λ _, true)
                     (λ row, row <| xr_state := ExecutionCompleted |> <| xr_revision := xr_revision row + 1 |> <| xr_updated_at := now |>) (pg_executions db')).1 |>)
    | _ => Ok (record, true, db')
    end
  (* the transaction is rolled back *)
  else Ok (record, false, db).

Definition maxAttempts : nat := 6.
(** The retry loop; [aborted i] says that the database chose attempt [i] to fail. *)
Fixpoint admitAttempts (testBinary : bool) (ctx : nat → option error) (now : nat → Time) (aborted : nat → bool) (others : nat → Database → Database)
    (admission : DurableAdmission) (remaining attempt : nat) (db : Database) : result (ExecutionRecord * bool) * Database :=
  match remaining with
  | O => (Err (errorf "admission retry loop exhausted"), db)
  | S remaining =>
      let db := others (2 * attempt)%nat db in
      match (if aborted attempt then Err serializationFailure else admitExecutionAtomicOnce testBinary (ctx (3 * attempt)%nat) (now attempt) admission db) with
      | Ok (record, created, db) => (Ok (record, created), db)
      | Err e =>
          if negb (isRetryablePostgresAdmissionError e) then (Err e, db) else
          let db := others (2 * attempt + 1)%nat db in
          let execution := da_Execution admission in
          match PostgresGetExecutionByAdmission (ctx (3 * attempt + 1)%nat) (er_AdmissionIdentity execution) db with
          | Ok existing =>
              if bool_decide (er_ExecutionID existing ≠ er_ExecutionID execution) || bool_decide (er_RequestHash existing ≠ er_RequestHash execution)
                 || bool_decide (er_GenerationDigest existing ≠ er_GenerationDigest execution)
              then (Err (wrapf ErrIdentityConflict "admission identity"), db) else (Ok (existing, false), db)
          | Err missing =>
              if negb (errorsIs missing ErrExecutionNotFound) then (Err missing, db) else
              match remaining with
              | O => (Err (errorf "admit execution after concurrency retries"), db)
              | _ => match ctx (3 * attempt + 2)%nat with
                     | Some e => (Err e, db)
                     | None => admitAttempts testBinary ctx now aborted others admission remaining (S attempt) db
                     end
              end
          end
      end
  end.
Definition AdmitExecutionAtomic (testBinary : bool) (ctx : nat → option error) (now : nat → Time) (aborted : nat → bool) (others : nat → Database → Database)
    (admission : DurableAdmission) (db : Database) : result (ExecutionRecord * bool) * Database :=
  admitAttempts testBinary ctx now aborted others admission maxAttempts 0 db.
Definition PostgresAdmitExecution := AdmitExecutionAtomic.
End Ledger.

(** ** States *)

(** [UPDATE effectus_execution_plans SET state = $2 WHERE execution_id = $1] *)
Definition disposePlanRows (id : string) (state : ExecutionState) (db : Database) : Database :=
  db <| pg_plans := updateRows (λ plan, bool_decide (pr_ExecutionID plan = id)) (λ plan, plan <| pr_State := executionPlanDisposition state |>) (pg_plans db) |>.
(** An [UPDATE] of one execution that increments its revision: no row, or the new row. *)
Definition updateExecution (id : string) (where_ : ExecutionRow → bool) (set_ : ExecutionRow → ExecutionRow) (db : Database) : result (option (ExecutionRow * Database)) :=
  match pg_executions db !! id with
  | Some row =>
      if where_ row then
        revision ← incBigint (xr_revision row);
        let row := set_ row <| xr_revision := revision |> in
        checkExecutionState (xr_state row) ;;
        Ok (Some (row, db <| pg_executions := <[id := row]> (pg_executions db) |>))
      else Ok None
  | None => Ok None
  end.
Definition PostgresSetExecutionState (ctx ctx' : option error) (now : Time) (id : string) (revision : Z) (state : ExecutionState) (message : string) (db : Database)
    : result ExecutionRecord * Database :=
  let updated :=
    ctxErr ctx ;;
    failIf (bool_decide (maxBigint < revision)) (sqlError "bigint out of range") ;;
    updateExecution id (λ row, bool_decide (xr_revision row = revision) && bool_decide (xr_recovery_token row = None) && negb (IsTerminalExecutionState (xr_state row)))
      (λ row, row <| xr_state := state |> <| xr_last_error := nullString message |> <| xr_updated_at := now |>) db in
  match updated with
  | Err e => (Err e, db)
  | Ok None => (Err (wrapf ErrOptimisticConflict "optimistic conflict"), db)
  | Ok (Some (_, db)) => let db := disposePlanRows id state db in (PostgresGetExecution ctx' id db, db)
  end.

(** ** Recovery leases *)
Definition leasableRow (now : Time) (row : ExecutionRow) : bool :=
  negb (IsTerminalExecutionState (xr_state row)) && (bool_decide (xr_recovery_token row = None) || sqlLe (xr_recovery_deadline row) now).
Definition leaseRow (owner token : string) (now : Time) (duration : Duration) (row : ExecutionRow) : ExecutionRow :=
  row <| xr_recovery_owner := Some owner |> <| xr_recovery_token := Some token |> <| xr_recovery_deadline := Some (timeAdd now (duration / 1000 * 1000)) |>
      <| xr_updated_at := now |>.
Definition leaseOf (id owner token : string) (row : ExecutionRow) : ExecutionLease :=
  mkExecutionLease id owner token (ofNullTime (xr_recovery_deadline row)) (xr_revision row).
Definition LeaseExecution (ctx : option error) (now : Time) (token : result string) (executionID owner : string) (duration : Duration) (db : Database)
    : result (ExecutionLease * Database) :=
  failIf (bool_decide (executionID = "") || bool_decide (owner = "") || bool_decide (duration ≤ 0))
    (errorf "execution ID, recovery owner, and positive lease duration are required") ;;
  token ← token;
  ctxErr ctx ;;
  updated ← updateExecution executionID (leasableRow now) (leaseRow owner token now duration) db;
  '(row, db) ← ofOption updated (wrapf ErrStaleExecutionLease "stale execution recovery lease");
  Ok (leaseOf executionID owner token row, db).
(** [ORDER BY updated_at, execution_id], [FOR UPDATE SKIP LOCKED] and [LIMIT] *)
Definition leaseRowBefore `{!PostgresTypes} (a b : string * ExecutionRow) : bool :=
  if bool_decide (xr_updated_at a.2 ≠ xr_updated_at b.2) then bool_decide (xr_updated_at a.2 < xr_updated_at b.2) else textBefore a.1 b.1.
Definition leaseRowLe `{!PostgresTypes} (a b : string * ExecutionRow) : Prop := leaseRowBefore b a = false.
#[global] Instance leaseRowLe_dec `{!PostgresTypes} a b : Decision (leaseRowLe a b).
Proof. unfold leaseRowLe. apply _. Defined.
Definition leasableRows `{!PostgresTypes} (now : Time) (locked : string → bool) (limit : Z) (db : Database) : list string :=
  take (Z.to_nat limit) (List.filter (λ id, negb (locked id)) (merge_sort leaseRowLe (selectRows (leasableRow now) (pg_executions db))).*1).
Fixpoint leaseRows (owner : string) (duration : Duration) (now : Time) (token : nat → result string) (i : nat) (ids : list string) (db : Database)
    : result (list ExecutionLease * Database) :=
  match ids with
  | [] => Ok ([], db)
  | id :: ids =>
      token_i ← token i;
      updated ← updateExecution id (λ _, true) (leaseRow owner token_i now duration) db;
      '(row, db) ← ofOption updated noRows;
      '(leases, db) ← leaseRows owner duration now token (S i) ids db;
      Ok (leaseOf id owner token_i row :: leases, db)
  end.
Definition PostgresLeaseExecutions `{!PostgresTypes} (ctx : option error) (now : Time) (locked : string → bool) (token : nat → result string) (owner : string)
    (limit : Z) (duration : Duration) (db : Database) : result (list ExecutionLease * Database) :=
  failIf (bool_decide (owner = "") || bool_decide (limit ≤ 0) || bool_decide (duration ≤ 0)) (errorf "recovery owner, positive limit, and lease duration are required") ;;
  ctxErr ctx ;;
  leaseRows owner duration now token 0 (leasableRows now locked limit db) db.
(** The row that a lease names, as it was when the lease was taken, and not expired. *)
Definition holdsLease (clock : Time) (lease : ExecutionLease) (row : ExecutionRow) : bool :=
  sqlEq (xr_recovery_owner row) (el_Owner lease) && sqlEq (xr_recovery_token row) (el_Token lease) && bool_decide (xr_revision row = el_Revision lease)
  && sqlGt (xr_recovery_deadline row) clock.
Definition PostgresRenewExecutionLease (ctx : option error) (clock : Time) (lease : ExecutionLease) (duration : Duration) (db : Database)
    : result (ExecutionLease * Database) :=
  failIf (bool_decide (duration < 1000)) (errorf "lease duration must be at least one microsecond") ;;
  ctxErr ctx ;;
  match pg_executions db !! el_ExecutionID lease with
  | None => Err (wrapf ErrStaleExecutionLease "stale execution recovery lease")
  | Some row =>
      failIf (negb (holdsLease clock lease row && negb (IsTerminalExecutionState (xr_state row)))) (wrapf ErrStaleExecutionLease "stale execution recovery lease") ;;
      let deadline := Z.max (ofNullTime (xr_recovery_deadline row)) (timeAdd clock (duration / 1000 * 1000)) in
      Ok (lease <| el_Deadline := deadline |>, db <| pg_executions := <[el_ExecutionID lease := row <| xr_recovery_deadline := Some deadline |>]> (pg_executions db) |>)
  end.
Definition PostgresFinishExecutionLease (ctx : option error) (now clock : Time) (lease : ExecutionLease) (state : ExecutionState) (message : string) (db : Database)
    : result Database :=
  ctxErr ctx ;;
  updated ← updateExecution (el_ExecutionID lease) (holdsLease clock lease)
    (λ row, row <| xr_state := if bool_decide (state = ExecutionOther "") then xr_state row else state |> <| xr_last_error := nullString message |>
                <| xr_recovery_owner := None |> <| xr_recovery_token := None |> <| xr_recovery_deadline := None |> <| xr_updated_at := now |>) db;
  '(_, db) ← ofOption updated (wrapf ErrStaleExecutionLease "stale execution recovery lease");
  Ok (if bool_decide (state ≠ ExecutionOther "") then disposePlanRows (el_ExecutionID lease) state db else db).

(** ** Statistics *)
Record RecoveryStats : Type := mkRecoveryStats {
  rs_Nonterminal : Z;
  rs_Blocked : Z;
  rs_OldestNonterminal : Time;
  rs_OldestOutbox : Time }.
Definition nonterminalRow (row : ExecutionRow) : bool := bool_decide (xr_state row ∈ [ExecutionAdmitting; ExecutionAccepted; ExecutionRunning]).
(** [state LIKE 'blocked_%'] *)
Definition blockedRow (row : ExecutionRow) : bool :=
  match xr_state row with ExecutionBlockedUnknown | ExecutionBlockedFence | ExecutionBlockedDependency | ExecutionBlockedCompensation => true | _ => false end.
(** [min], which is NULL of no rows. *)
Definition minTime (times : list Time) : option Time :=
  foldr (λ t least, Some (match least with Some m => Z.min t m | None => t end)) None times.
Definition PostgresRecoveryStats (ctx : option error) (db : Database) : result RecoveryStats :=
  ctxErr ctx ;;
  Ok (mkRecoveryStats (countRows nonterminalRow (pg_executions db)) (countRows blockedRow (pg_executions db))
        (ofNullTime (minTime (xr_updated_at <$> (selectRows nonterminalRow (pg_executions db)).*2)))
        (ofNullTime (minTime (ob_updated_at <$> (selectRows (λ row, bool_decide (ob_state row ∉ [DispatchSucceeded; DispatchFailedPermanent; DispatchCanceled]))
                                                   (pg_outbox db)).*2)))).
