(* ===== verification/PostgresView.v ===== *)
(** * The database and the in-memory ledger

    Which tables a transaction touches: those of the outbox store leave the tables of the
    ledger alone, and those of the ledger the tables of the outbox, but for an admission,
    which writes both. Then one execution of the database seen as an in-memory ledger. *)

From S2P Require Import Prelude GoText Sha256 Json Workflow Identity Outbox OutboxInv OutboxDyn OutboxOps OutboxClose Ledger LedgerProps Postgres PostgresSim.
From S2P Require Import PostgresComplete PostgresClose PostgresLedger.
From Stdlib Require Import ZArith String.
Local Open Scope list_scope.
Local Open Scope Z_scope.

Definition ledgerTables (db : Database) := (pg_artifacts db, pg_executions db, pg_plans db).
Definition outboxTables (db : Database) := (pg_instances db, pg_steps db, pg_outbox db, pg_attempts db).

Section Run.
  Context `{PT : !PostgresTypes}.

(** ** Frames *)
Lemma represents_tables db db' s : outboxTables db' = outboxTables db → represents db s → represents db' s.
Proof.
  unfold outboxTables. intros E [R1 R2 R3 R4 R5 R6 R7 R8]. injection E as E1 E2 E3 E4. split; rewrite ?E1, ?E2, ?E3, ?E4; assumption.
Qed.
Lemma insertOutbox_frame row db db' : insertOutbox row db = Ok db' → ledgerTables db' = ledgerTables db.
Proof. intros [_ ->]%insertOutbox_ok. reflexivity. Qed.
Lemma createSagaTx_frame tb now request db sg db' : createSagaTx tb now request db = Ok (sg, db') → ledgerTables db' = ledgerTables db.
Proof.
  unfold createSagaTx. intros H. apply bind_Ok in H as (x & _ & H). destruct (pg_instances db !! _); [apply bind_Ok in H as (y & _ & H)|]; injection H as _ <-; reflexivity.
Qed.
Lemma enqueueStepTx_frame now request db d db' : enqueueStepTx now request db = Ok (d, db') → ledgerTables db' = ledgerTables db.
Proof.
  unfold enqueueStepTx. intros H. apply bind_Ok in H as (n & _ & H). apply bind_Ok in H as (sg & _ & H). destruct (getDispatchByIdentityTx _ _ _ _).
  - apply bind_Ok in H as (st & _ & H). apply bind_Ok in H as (y & _ & H). injection H as _ <-. reflexivity.
  - do 2 apply bind_Ok in H as (? & _ & H). do 2 apply bind_Ok in H as (? & _ & H). apply bind_Ok in H as (db1 & H1 & H). apply bind_Ok in H as (db2 & H2 & H). cbv zeta in H. apply bind_Ok in H as (d' & _ & H).
    injection H as _ <-. apply insertOutbox_frame in H2. unfold insertStep in H1. do 4 apply bind_Ok in H1 as (? & _ & H1). injection H1 as <-. exact H2.
Qed.
Lemma claim_frame ctx now locked token o db d db' : PostgresClaimDispatch ctx now locked token o db = Ok (d, db') → ledgerTables db' = ledgerTables db.
Proof.
  unfold PostgresClaimDispatch. intros H. do 2 apply bind_Ok in H as (? & _ & H). destruct (List.find _ _) as [[k row]|]; [|discriminate]. do 3 apply bind_Ok in H as (? & _ & H). cbv zeta in H.
  do 3 apply bind_Ok in H as (? & _ & H). injection H as _ <-. reflexivity.
Qed.
Lemma grants_frame ctx now id attempt token grants db db' : PostgresSaveFencingGrants ctx now id attempt token grants db = Ok db' → ledgerTables db' = ledgerTables db.
Proof.
  unfold PostgresSaveFencingGrants. intros H. do 7 apply bind_Ok in H as (? & _ & H). destruct (updateRow id _ _ _) as [outbox n1]. apply bind_Ok in H as (? & _ & H).
  destruct (updateRow (id, attempt) _ _ _) as [attempts n2]. apply bind_Ok in H as (? & _ & H). injection H as <-. reflexivity.
Qed.
Lemma enqueueCompensation_frame now saga step db db' : enqueueCompensationPostgres now saga step db = Ok db' → ledgerTables db' = ledgerTables db.
Proof. unfold enqueueCompensationPostgres. intros H. apply bind_Ok in H as (? & _ & H). destruct (existsRow _ _); [injection H as <-; reflexivity|exact (insertOutbox_frame _ _ _ H)]. Qed.
Lemma startCompensation_frame now saga at_ db db' : startCompensationPostgres now saga at_ db = Ok db' → ledgerTables db' = ledgerTables db.
Proof.
  unfold startCompensationPostgres. intros H. apply bind_Ok in H as ([state db1] & H1 & H). injection H as <-. destruct (compensationCandidatePostgres _ _); [|injection H1 as _ <-; reflexivity].
  apply bind_Ok in H1 as (db2 & H1 & E). injection E as _ <-. exact (enqueueCompensation_frame _ _ _ _ _ H1).
Qed.
Lemma nextCompensation_frame now saga at_ db db' : enqueueNextCompensationPostgres now saga at_ db = Ok db' → ledgerTables db' = ledgerTables db.
Proof. unfold enqueueNextCompensationPostgres. intros H. destruct (compensationCandidatePostgres _ _); [exact (enqueueCompensation_frame _ _ _ _ _ H)|injection H as <-; reflexivity]. Qed.
Lemma complete_frame ctx dn now c db db' : PostgresCompleteDispatch ctx dn now c db = Ok db' → ledgerTables db' = ledgerTables db.
Proof.
  unfold PostgresCompleteDispatch. set (c' := if timeIsZero _ then _ else _). intros H. do 6 apply bind_Ok in H as (? & _ & H). cbv zeta in H. destruct (applyCompletion _ _ _ _ _) as [[d' st'] g'].
  apply bind_Ok in H as (jr & _ & H). destruct (updateRow (d_ID d') _ _ _) as [outbox n1]. do 2 apply bind_Ok in H as (? & _ & H). destruct (updateRow (d_ID d', _) _ _ _) as [attempts n2]. apply bind_Ok in H as (? & _ & H).
  apply bind_Ok in H as (db1 & H1 & H). transitivity (ledgerTables db1).
  - match type of H with (if ?b then _ else _) = _ => destruct b end; [exact (nextCompensation_frame _ _ _ _ _ H)|injection H as <-; reflexivity].
  - match type of H1 with (if ?b then _ else _) = _ => destruct b end; [exact (startCompensation_frame _ _ _ _ _ H1)|injection H1 as <-; reflexivity].
Qed.
Lemma completeSaga_frame ctx now sid db db' : PostgresCompleteSaga ctx now sid db = Ok db' → ledgerTables db' = ledgerTables db.
Proof.
  unfold PostgresCompleteSaga. intros H. do 2 apply bind_Ok in H as (? & _ & H). destruct (bool_decide _); [injection H as <-; reflexivity|]. do 2 apply bind_Ok in H as (? & _ & H). injection H as <-. reflexivity.
Qed.
Lemma failFast_frame ctx now sid db db' : PostgresFinalizeFailFastSaga ctx now sid db = Ok db' → ledgerTables db' = ledgerTables db.
Proof.
  unfold PostgresFinalizeFailFastSaga. intros H. do 3 apply bind_Ok in H as (? & _ & H). destruct (bool_decide _); [injection H as <-; reflexivity|]. do 2 apply bind_Ok in H as (? & _ & H). injection H as <-. reflexivity.
Qed.
Lemma block_frame ctx now sid db db' : PostgresBlockSagaCompensation ctx now sid db = Ok db' → ledgerTables db' = ledgerTables db.
Proof.
  unfold PostgresBlockSagaCompensation. intros H. do 3 apply bind_Ok in H as (? & _ & H). destruct (bool_decide _); [injection H as <-; reflexivity|]. do 2 apply bind_Ok in H as (? & _ & H). injection H as <-. reflexivity.
Qed.
Lemma stop_frame ctx now order eid db db' : PostgresFinalizeStoppedExecution ctx now order eid db = Ok db' → ledgerTables db' = ledgerTables db.
Proof.
  unfold PostgresFinalizeStoppedExecution. intros H. do 2 apply bind_Ok in H as (? & _ & H). revert H. generalize (order (selectRows (λ saga, bool_decide (sg_ExecutionID saga = eid)) (pg_instances db)).*1).
  intros l. revert db. induction l as [|sid l IH]; intros db H; [injection H as <-; reflexivity|]. cbn [finalizeStoppedSagas] in H. apply bind_Ok in H as (db1 & H1 & H). rewrite (IH _ H). clear H IH.
  unfold finalizeStoppedSagaTx in H1. cbv zeta in H1. do 2 apply bind_Ok in H1 as (? & _ & H1). destruct (isTerminalSaga _); injection H1 as <-; [destruct (_ && _)|]; reflexivity.
Qed.

(** ** Admission and the outbox *)
Lemma follows_trans db1 db2 s : follows db1 s → store_inv s → (∀ s1, represents db1 s1 → store_inv s1 → follows db2 s1) → follows db2 s.
Proof.
  intros (s1 & P1 & R1) I H. destruct (H s1 R1) as (s2 & P2 & R2); [|exists s2; split; [transitivity s1; assumption|exact R2]].
  refine (rtc_ind_r store_inv s I _ s1 P1). intros a b _ S J. exact (outbox_step_inv _ _ S J).
Qed.
Definition hasRows (db : Database) (sid : string) : bool := existsRow (λ row, bool_decide (ob_saga_id row = sid)) (pg_outbox db).
Lemma createSagaTx_outbox tb now request db sg db' : createSagaTx tb now request db = Ok (sg, db') → pg_outbox db' = pg_outbox db.
Proof.
  unfold createSagaTx. intros H. apply bind_Ok in H as (x & _ & H). destruct (pg_instances db !! _); [apply bind_Ok in H as (y & _ & H)|]; injection H as _ <-; reflexivity.
Qed.
(** A step adds rows of its own saga only. *)
Lemma enqueueStepTx_rows now request db d db' s sid : represents db s → static_inv s → enqueueStepTx now request db = Ok (d, db') → eq_SagaID request ≠ sid → hasRows db sid = false → hasRows db' sid = false.
Proof.
  intros R St H N E. unfold enqueueStepTx in H. apply bind_Ok in H as (n & Nm & H). destruct (normalizeEnqueue_identity _ _ Nm) as (Es & _). apply bind_Ok in H as (sg & G & H).
  destruct (getDispatchByIdentityTx _ _ _ _); [apply bind_Ok in H as (st & _ & H); apply bind_Ok in H as (y & _ & H); injection H as _ <-; exact E|].
  unfold getSagaTx in G. destruct (pg_instances db !! _) as [g0|] eqn:L; [|discriminate]. injection G as <-. destruct (rep_saga _ _ _ _ R L) as (g & Lg & C). apply canonSaga_fields in C as (C & _).
  destruct (si_saga _ St _ _ Lg) as [Gk _].
  do 4 apply bind_Ok in H as (? & _ & H). apply bind_Ok in H as (db1 & H1 & H). apply bind_Ok in H as (db2 & H2 & H). cbv zeta in H. apply bind_Ok in H as (d' & _ & H). injection H as _ <-.
  apply insertStep_ok in H1 as [_ ->]. apply insertOutbox_ok in H2 as [_ ->]. unfold hasRows in *. rewrite existsRow_false in *. intros k row Lr. cbn in Lr.
  apply lookup_insert_Some in Lr as [[_ <-]|[_ Lr]]; [|apply (E _ _ Lr)]. cbn. apply bool_decide_eq_false_2. unfold scanSaga in *. congruence.
Qed.
Section Admission.
  Context (now : Time).
Lemma sim_createSagas tb eid sagas : ∀ plans db db' s, represents db s → store_inv s → createAdmissionSagas tb now eid sagas plans db = Ok db' →
  follows db' s ∧ pg_outbox db' = pg_outbox db.
Proof.
  induction sagas as [|r sagas IH]; intros [|p plans] db db' s R I H; cbn [createAdmissionSagas] in H; try (injection H as <-; split; [apply follows_same, R|reflexivity]).
  apply bind_Ok in H as ([] & _ & H). apply bind_Ok in H as ([sg db1] & H1 & H). pose proof (sim_createSaga _ _ _ _ _ _ _ R I H1) as F. pose proof (createSagaTx_outbox _ _ _ _ _ _ H1) as E. split.
  - apply (follows_trans _ _ _ F I). intros s1 R1 I1. apply (IH plans db1 db' s1 R1 I1 H).
  - destruct F as (s1 & P1 & R1). rewrite <- E. refine (proj2 (IH plans db1 db' s1 R1 _ H)). refine (rtc_ind_r store_inv s I _ s1 P1). intros a b _ S J. exact (outbox_step_inv _ _ S J).
Qed.
Lemma sim_initialSteps steps : ∀ db db' s, represents db s → store_inv s → enqueueInitialSteps now steps db = Ok db' →
  follows db' s ∧ ∀ sid, Forall (λ step, eq_SagaID step ≠ sid) steps → hasRows db sid = false → hasRows db' sid = false.
Proof.
  induction steps as [|r steps IH]; intros db db' s R I H; cbn [enqueueInitialSteps] in H; [injection H as <-; split; [apply follows_same, R|auto]|].
  apply bind_Ok in H as ([d db1] & H1 & H). pose proof (sim_enqueueStep _ _ _ _ _ _ R I H1) as F. split.
  - apply (follows_trans _ _ _ F I). intros s1 R1 I1. apply (IH db1 db' s1 R1 I1 H).
  - intros sid Fa E. apply Forall_cons in Fa as [N Fa]. destruct F as (s1 & P1 & R1). refine (proj2 (IH db1 db' s1 R1 _ H) sid Fa _).
    + refine (rtc_ind_r store_inv s I _ s1 P1). intros a b _ S J. exact (outbox_step_inv _ _ S J).
    + exact (enqueueStepTx_rows _ _ _ _ _ _ _ R (inv_static _ I) H1 N E).
Qed.
Lemma sim_emptySaga db s sid : represents db s → hasRows db sid = false → follows (advanceSaga sid (λ state, bool_decide (state = SagaRunning)) SagaCompleted now db) s.
Proof.
  intros R E. destruct (pg_instances db !! sid) as [g0|] eqn:L.
  - destruct (decide (sg_State g0 = SagaRunning)) as [Ru|Ru].
    + destruct (rep_saga _ _ _ _ R L) as (g & Lg & C). apply canonSaga_fields in C as (_ & _ & _ & _ & Es). eapply (follows_step _ s (finishSaga sid g SagaCompleted now s)).
      * apply (step_complete_saga None now sid). unfold CompleteSaga. cbn [ctxErr mbind result_bind]. rewrite Lg. cbn [ofOption mbind result_bind].
        replace (sg_State g) with SagaRunning by congruence. decide_closed. cbn iota. cbn [failIf mbind result_bind]. rewrite (proj2 (mapExists_false _ _)); [reflexivity|].
        intros k d Ld. destruct (rep_row _ _ _ _ R Ld) as (row & Lr & C). apply canonDispatch_fields in C as (_ & C & _). cbn in C. unfold hasRows in E. rewrite existsRow_false in E. specialize (E _ _ Lr).
        rewrite C in E. rewrite E. reflexivity.
      * apply (rep_advance _ _ _ _ _ _ _ g0); [exact R|exact L|apply bool_decide_eq_true, Ru|exact Lg].
    + apply follows_same. unfold advanceSaga, updateRow. rewrite L, (bool_decide_eq_false_2 _ Ru). cbn [fst]. apply (represents_tables db); [reflexivity|exact R].
  - apply follows_same. unfold advanceSaga, updateRow. rewrite L. cbn [fst]. apply (represents_tables db); [reflexivity|exact R].
Qed.
Lemma sim_emptySagas eid steps sagas : ∀ db s, represents db s → store_inv s →
  (∀ r, r ∈ sagas → Forall (λ step, eq_SagaID step ≠ cs_SagaID r) steps → hasRows db (cs_SagaID r) = false) → follows (foldl (completeEmptySaga now eid steps) db sagas) s.
Proof.
  induction sagas as [|r sagas IH]; intros db s R I E; [apply follows_same, R|]. cbn [foldl]. unfold completeEmptySaga at 2. destruct (existsb _ steps) eqn:X; cbv zeta.
  - apply IH; [exact R|exact I|]. intros r' J. apply E. right. exact J.
  - assert (Fa : Forall (λ step, eq_SagaID step ≠ cs_SagaID r) steps).
    { apply Forall_forall. intros step J Es. apply not_true_iff_false in X. apply X. apply existsb_exists. exists step. split; [apply list_elem_of_In, J|apply bool_decide_eq_true, Es]. }
    pose proof (sim_emptySaga db s (cs_SagaID r) R (E r ltac:(left) Fa)) as F.
    assert (F' : follows ((advanceSaga (cs_SagaID r) (λ state, bool_decide (state = SagaRunning)) SagaCompleted now db) <| pg_plans := updateRows (λ plan, bool_decide (pr_ExecutionID plan = eid) && bool_decide (pr_SagaID plan = cs_SagaID r)) (λ plan, plan <| pr_State := "completed" |>) (pg_plans (advanceSaga (cs_SagaID r) (λ state, bool_decide (state = SagaRunning)) SagaCompleted now db)) |>) s).
    { destruct F as (s1 & P1 & R1). exists s1. split; [exact P1|]. refine (represents_tables _ _ _ _ R1). reflexivity. }
    apply (follows_trans _ _ _ F' I). intros s1 R1 I1. apply IH; [exact R1|exact I1|]. intros r' J. apply (E r'). right. exact J.
Qed.
End Admission.

(** None of the sagas of the admission has been worked on. *)
Definition newSagas (admission : DurableAdmission) (db : Database) : Prop := ∀ r, r ∈ da_Sagas admission → hasRows db (cs_SagaID r) = false.
(** The sagas of an execution are created by its admission: nothing has been done for them before. *)
Definition ownsSagas (admission : DurableAdmission) (db : Database) : Prop := pg_executions db !! er_ExecutionID (da_Execution admission) = None → newSagas admission db.
Lemma insertPlans_tables plans : ∀ db db', insertExecutionPlansTx plans db = Ok db' → outboxTables db' = outboxTables db.
Proof.
  induction plans as [|p plans IH]; intros db db' H; cbn [insertExecutionPlansTx] in H; [injection H as <-; reflexivity|]. do 3 apply bind_Ok in H as (? & _ & H). apply IH in H. exact H.
Qed.
Lemma putArtifact_tables now a db db' : putArtifactTx now a db = Ok db' → outboxTables db' = outboxTables db.
Proof.
  unfold putArtifactTx. intros H. do 4 apply bind_Ok in H as (? & _ & H). destruct (pg_artifacts db !! _); [apply bind_Ok in H as (? & _ & H)|]; injection H as <-; reflexivity.
Qed.
Lemma insertRows_tables now record facts application revision db1 db2 db3 db4 db5 : activateGeneration record (retireGenerations now record db1) = Ok db2 → insertExecution now record facts db2 = Ok db3 →
  insertFactApplication now application db3 = Ok db4 → insertSnapshot now (er_ExecutionID record) facts revision db4 = Ok db5 → outboxTables db5 = outboxTables db1.
Proof.
  unfold activateGeneration, insertExecution, insertFactApplication, insertSnapshot. cbv zeta. intros H1 H2 H3 H4.
  do 2 apply bind_Ok in H1 as (? & _ & H1). injection H1 as <-. do 2 apply bind_Ok in H2 as (? & _ & H2). injection H2 as <-. do 4 apply bind_Ok in H3 as (? & _ & H3). injection H3 as <-.
  do 2 apply bind_Ok in H4 as (? & _ & H4). injection H4 as <-. reflexivity.
Qed.
Lemma admitLedger_tables now adm db r c db' : admitExecutionLedgerTx now adm false db = Ok (r, c, db') → outboxTables db' = outboxTables db.
Proof.
  unfold admitExecutionLedgerTx. intros H. apply bind_Ok in H as (db1 & H1 & H). rewrite <- (putArtifact_tables _ _ _ _ H1). destruct (admittedRow _ _).
  - do 2 apply bind_Ok in H as (? & _ & H). injection H as _ _ <-. reflexivity.
  - apply bind_Ok in H as (db2 & H2 & H). apply bind_Ok in H as (facts & _ & H). apply bind_Ok in H as (db3 & H3 & H). apply bind_Ok in H as (db4 & H4 & H). apply bind_Ok in H as (db5 & H5 & H).
    apply bind_Ok in H as (db6 & H6 & H). injection H6 as <-. injection H as _ _ <-. exact (insertRows_tables _ _ _ _ _ _ _ _ _ _ H2 H3 H4 H5).
Qed.
Lemma sim_admit tb ctx now adm db r c db' s : represents db s → store_inv s → newSagas adm db → admitExecutionAtomicOnce tb ctx now adm db = Ok (r, c, db') → follows db' s.
Proof.
  intros R I N H. unfold admitExecutionAtomicOnce in H. do 4 apply bind_Ok in H as (? & _ & H). apply bind_Ok in H as ([[record created] db1] & H1 & H). destruct created; [|injection H as _ _ <-; apply follows_same, R].
  apply admitLedger_tables in H1. assert (O1 : pg_outbox db1 = pg_outbox db) by (unfold outboxTables in H1; congruence).
  apply bind_Ok in H as (db2 & H2 & H). apply bind_Ok in H as (db3 & H3 & H). apply bind_Ok in H as (db4 & H4 & H). cbv zeta in H.
  pose proof (represents_tables _ _ _ H1 R) as R1. destruct (sim_createSagas now _ _ _ _ _ _ _ R1 I H2) as [F2 O2]. apply insertPlans_tables in H3.
  assert (F3 : follows db3 s) by (destruct F2 as (s2 & P2 & R2); exists s2; split; [exact P2|exact (represents_tables _ _ _ H3 R2)]). assert (O3 : pg_outbox db3 = pg_outbox db) by (unfold outboxTables in H3; congruence).
  assert (F5 : follows (foldl (completeEmptySaga now (er_ExecutionID record) (da_InitialSteps adm)) db4 (da_Sagas adm)) s).
  { apply (follows_trans _ _ _ F3 I). intros s3 R3 I3. destruct (sim_initialSteps now _ _ _ _ R3 I3 H4) as [F4 E4]. apply (follows_trans _ _ _ F4 I3). intros s4 R4 I4.
    apply sim_emptySagas; [exact R4|exact I4|]. intros q J Fa. apply (E4 _ Fa). unfold hasRows. rewrite O3. exact (N q J). }
  destruct (da_InitialSteps adm) as [|step steps]; injection H as _ _ <-; [|exact F5]. destruct F5 as (s5 & P5 & R5). exists s5. split; [exact P5|]. refine (represents_tables _ _ _ _ R5). reflexivity.
Qed.
End Run.

(** ** One execution of the database as an in-memory ledger

    Which execution a recovery lease takes depends on the collation and on the rows that other
    transactions have locked, so the tables are compared with the in-memory ledger one
    execution at a time: [sees db id l] says that [l] is the ledger that holds what the tables
    hold about execution [id] alone. Each transaction of the ledger is then an operation of
    [Ledger] on that ledger, or does not touch it. *)

(** ** What the rows of the ledger satisfy *)
Definition leaseColumns (row : ExecutionRow) : Prop :=
  (xr_recovery_owner row = None ∧ xr_recovery_token row = None ∧ xr_recovery_deadline row = None) ∨
  (∃ owner token deadline, xr_recovery_owner row = Some owner ∧ xr_recovery_token row = Some token ∧ token ≠ "" ∧ xr_recovery_deadline row = Some deadline).
Record ledger_rows (db : Database) : Prop := {
  lr_row id row : pg_executions db !! id = Some row → xr_execution_id row = id ∧ 1 ≤ xr_revision row ≤ maxBigint ∧ leaseColumns row;
  lr_artifact k a : pg_artifacts db !! k = Some a → ar_GenerationDigest a = k ∧ validateExecutionArtifact a = Ok tt ∧ sameExecutionArtifact a a = true;
  lr_plan key plan : pg_plans db !! key = Some plan → key = (pr_ExecutionID plan, pr_PlanID plan) ∧ is_Some (pg_executions db !! pr_ExecutionID plan);
  lr_ordinal key key' plan plan' : pg_plans db !! key = Some plan → pg_plans db !! key' = Some plan' → pr_ExecutionID plan = pr_ExecutionID plan' → pr_Ordinal plan = pr_Ordinal plan' → key = key';
  lr_identity id id' row row' : pg_executions db !! id = Some row → pg_executions db !! id' = Some row' → xr_admission_identity row = xr_admission_identity row' → id = id' }.
Lemma rows_empty : ledger_rows emptyDatabase.
Proof. split; intros *; rewrite ?lookup_empty; intros; simplify_eq. Qed.
Lemma rows_tables db db' : ledgerTables db' = ledgerTables db → ledger_rows db → ledger_rows db'.
Proof. unfold ledgerTables. intros E [R1 R2 R3 R4 R5]. injection E as E1 E2 E3. split; rewrite ?E1, ?E2, ?E3; assumption. Qed.

(** ** Plans in order *)
Definition earlier (a b : ExecutionPlanRecord) : Prop := pr_Ordinal a < pr_Ordinal b.
#[local] Instance ordinalLe_trans : Transitive ordinalLe.
Proof. intros a b c. unfold ordinalLe. lia. Qed.
#[local] Instance ordinalLe_total : Total ordinalLe.
Proof. intros a b. unfold ordinalLe. lia. Qed.
Definition planOf (db : Database) (id : string) (plan : ExecutionPlanRecord) : Prop := ∃ key, pg_plans db !! key = Some plan ∧ pr_ExecutionID plan = id.
Lemma plansOf_elem db id plan : plan ∈ plansOf db id ↔ planOf db id plan.
Proof.
  unfold plansOf, planOf. rewrite merge_sort_Permutation, list_elem_of_fmap. split.
  - intros ([key p] & -> & J). apply selectRows_elem in J as [L Q]. apply bool_decide_eq_true in Q. eauto.
  - intros (key & L & E). exists (key, plan). split; [reflexivity|]. apply selectRows_elem. split; [exact L|apply bool_decide_eq_true, E].
Qed.
Lemma earlier_NoDup l : StronglySorted earlier l → NoDup l.
Proof.
  induction 1 as [|a l S IH F]; [constructor|]. constructor; [|exact IH]. intros J. rewrite Forall_forall in F. specialize (F _ J). unfold earlier in F. lia.
Qed.
Lemma planRows_NoDup db id : NoDup (selectRows (λ plan, bool_decide (pr_ExecutionID plan = id)) (pg_plans db)).*1.
Proof.
  unfold selectRows. apply NoDup_fmap_fst; [|apply NoDup_ListNoDup, List.NoDup_filter, NoDup_ListNoDup, NoDup_map_to_list].
  intros x y1 y2 I1 I2. apply list_elem_of_In, List.filter_In in I1 as [I1 _], I2 as [I2 _]. apply list_elem_of_In, elem_of_map_to_list in I1, I2. congruence.
Qed.
Section Plans.
  Context (db : Database) (W : ledger_rows db) (id : string).
Lemma plansOf_sorted : StronglySorted earlier (plansOf db id).
Proof using W.
  assert (S : StronglySorted ordinalLe (plansOf db id)) by (apply StronglySorted_merge_sort; apply _).
  assert (N : NoDup (plansOf db id)).
  { unfold plansOf. rewrite merge_sort_Permutation. apply NoDup_fmap_2_strong; [|apply (NoDup_fmap_1 fst), planRows_NoDup].
    intros [k p] [k' p'] J J' E. cbn in E. apply selectRows_elem in J as [L _], J' as [L' _]. apply (lr_plan _ W) in L as [-> _], L' as [-> _]. congruence. }
  assert (U : ∀ a b, a ∈ plansOf db id → b ∈ plansOf db id → pr_Ordinal a = pr_Ordinal b → a = b).
  { intros a b A B E. apply plansOf_elem in A as (k & L & Ea), B as (k' & L' & Eb). assert (k = k') as <- by (eapply (lr_ordinal _ W); [exact L|exact L'|congruence|exact E]). congruence. }
  revert S N U. induction (plansOf db id) as [|a l IH]; intros S N U; [constructor|]. apply StronglySorted_inv in S as [S F]. apply NoDup_cons in N as [Na N]. constructor.
  - apply IH; [exact S|exact N|]. intros x y X Y. apply U; right; assumption.
  - rewrite Forall_forall in *. intros b B. specialize (F _ B). unfold ordinalLe, earlier in *. destruct (decide (pr_Ordinal a = pr_Ordinal b)) as [E|E]; [|lia]. destruct Na. rewrite (U a b); [exact B|left|right; exact B|exact E].
Qed.
(** The plans of an execution are determined by their rows. *)
Lemma plansOf_unique l : StronglySorted earlier l → (∀ plan, plan ∈ l ↔ planOf db id plan) → plansOf db id = l.
Proof using W.
  intros S E. assert (P : plansOf db id ≡ₚ l).
  { apply NoDup_Permutation; [apply earlier_NoDup, plansOf_sorted|apply earlier_NoDup, S|]. intros plan. rewrite plansOf_elem. symmetry. apply E. }
  apply (StronglySorted_unique_strong earlier); [|exact plansOf_sorted|exact S|exact P]. intros a b _ _ A B. unfold earlier in *. lia.
Qed.
End Plans.

(** ** The ledger of one execution *)
Definition recordOf (db : Database) (id : string) : option ExecutionRecord := (λ row, scanExecution row (plansOf db id)) <$> pg_executions db !! id.
Record sees (db : Database) (id : string) (l : InMemoryExecutionLedger) : Prop := {
  se_artifacts : lg_artifacts l = pg_artifacts db;
  se_executions : lg_executions l = match recordOf db id with Some r => {[id := r]} | None => ∅ end;
  se_admission : lg_byAdmission l = match recordOf db id with Some r => {[er_AdmissionIdentity r := id]} | None => ∅ end }.
Definition tracks (db' : Database) (id : string) (l : InMemoryExecutionLedger) : Prop := ∃ l', rtc ledger_step l l' ∧ sees db' id l'.
Lemma tracks_same db id l : sees db id l → tracks db id l.
Proof. intros S. exists l. split; [apply rtc_refl|exact S]. Qed.
Lemma tracks_step db id l l' : ledger_step l l' → sees db id l' → tracks db id l.
Proof. intros P S. exists l'. split; [apply rtc_once, P|exact S]. Qed.
Lemma tracks_trans db1 db2 id l : tracks db1 id l → (∀ l1, sees db1 id l1 → tracks db2 id l1) → tracks db2 id l.
Proof. intros (l1 & P1 & S1) H. destruct (H l1 S1) as (l2 & P2 & S2). exists l2. split; [transitivity l1; assumption|exact S2]. Qed.
Lemma sees_other db db' id l : pg_artifacts db' = pg_artifacts db → recordOf db' id = recordOf db id → sees db id l → sees db' id l.
Proof. intros E1 E2 [S1 S2 S3]. split; rewrite ?E1, ?E2; assumption. Qed.
Lemma sees_tables db db' id l : ledgerTables db' = ledgerTables db → sees db id l → sees db' id l.
Proof. unfold ledgerTables. intros E. injection E as E1 E2 E3. apply sees_other; [exact E1|]. unfold recordOf, plansOf. rewrite E2, E3. reflexivity. Qed.
Lemma sees_record db id l row : sees db id l → pg_executions db !! id = Some row → lg_executions l !! id = Some (scanExecution row (plansOf db id)).
Proof. intros [_ S _] L. rewrite S. unfold recordOf. rewrite L. cbn. apply lookup_insert_eq. Qed.
(** Replacing the record of the execution by one of the same admission. *)
Lemma sees_put db db' id l row row' : sees db id l → pg_executions db !! id = Some row → pg_artifacts db' = pg_artifacts db → pg_executions db' !! id = Some row' →
  xr_admission_identity row' = xr_admission_identity row → sees db' id (putExecution id (scanExecution row' (plansOf db' id)) l).
Proof.
  intros [S1 S2 S3] L E1 E2 E3. unfold recordOf in *. rewrite L in S2, S3. cbn in S2, S3. split; cbn.
  - rewrite E1. exact S1.
  - unfold recordOf. rewrite E2, S2. cbn. rewrite insert_singleton_eq. reflexivity.
  - unfold recordOf. rewrite E2, S3. cbn. rewrite E3. reflexivity.
Qed.

Lemma scan_Revision r p : er_Revision (scanExecution r p) = xr_revision r.
Proof. reflexivity. Qed.
Lemma scan_State r p : er_State (scanExecution r p) = xr_state r.
Proof. reflexivity. Qed.
Lemma scan_Token r p : er_RecoveryToken (scanExecution r p) = ofNullString (xr_recovery_token r).
Proof. reflexivity. Qed.
Lemma scan_Owner r p : er_RecoveryOwner (scanExecution r p) = ofNullString (xr_recovery_owner r).
Proof. reflexivity. Qed.
Lemma scan_Deadline r p : er_RecoveryDeadline (scanExecution r p) = ofNullTime (xr_recovery_deadline r).
Proof. reflexivity. Qed.
Lemma scan_Plans r p : er_Plans (scanExecution r p) = p.
Proof. reflexivity. Qed.
Create Rewrite HintDb scan.
#[local] Hint Rewrite scan_Revision scan_State scan_Token scan_Owner scan_Deadline scan_Plans : scan.

(** ** Updates of one execution *)
Lemma updateExecution_ok id where_ set_ db row db' : updateExecution id where_ set_ db = Ok (Some (row, db')) →
  ∃ row0, pg_executions db !! id = Some row0 ∧ where_ row0 = true ∧ xr_revision row0 < maxBigint ∧ row = set_ row0 <| xr_revision := xr_revision row0 + 1 |> ∧
    db' = db <| pg_executions := <[id := row]> (pg_executions db) |>.
Proof.
  unfold updateExecution. destruct (pg_executions db !! id) as [row0|]; [|discriminate]. destruct (where_ row0) eqn:Q; [|discriminate]. intros H. apply bind_Ok in H as (rev & H1 & H).
  unfold incBigint in H1. apply bind_Ok in H1 as ([] & B%failIf_Ok & H1). injection H1 as <-. cbv zeta in H. apply bind_Ok in H as ([] & _ & H). injection H as <- <-. apply bool_decide_eq_false in B.
  exists row0. repeat split; try reflexivity; [exact Q|lia].
Qed.
Lemma rows_update db id row row' : ledger_rows db → pg_executions db !! id = Some row → xr_execution_id row' = xr_execution_id row → 1 ≤ xr_revision row' ≤ maxBigint → leaseColumns row' →
  xr_admission_identity row' = xr_admission_identity row → ledger_rows (db <| pg_executions := <[id := row']> (pg_executions db) |>).
Proof.
  intros [R1 R2 R3 R4 R5] L E B C A. split; cbn; try assumption.
  - intros id1 row1 L1. apply lookup_insert_Some in L1 as [[<- <-]|[_ L1]]; [|apply (R1 _ _ L1)]. split; [rewrite E; apply (R1 _ _ L)|split; assumption].
  - intros key plan Lp. destruct (R3 _ _ Lp) as [K [x X]]. split; [exact K|]. destruct (decide (id = pr_ExecutionID plan)) as [->|N]; [rewrite lookup_insert_eq; eauto|rewrite lookup_insert_ne by exact N; eauto].
  - intros id1 id2 row1 row2 L1 L2 Ei. apply lookup_insert_Some in L1 as [[<- <-]|[_ L1]], L2 as [[<- <-]|[_ L2]]; [reflexivity|eapply R5; [exact L|exact L2|congruence]|eapply R5; [exact L1|exact L|congruence]|eapply R5; eassumption].
Qed.
Lemma recordOf_other db id id' row : id' ≠ id → recordOf (db <| pg_executions := <[id := row]> (pg_executions db) |>) id' = recordOf db id'.
Proof. intros N. unfold recordOf. cbn. rewrite lookup_insert_ne by auto. reflexivity. Qed.
Lemma u64_revision r : 1 ≤ r → r < maxBigint → u64_inc r = r + 1.
Proof. intros A B. unfold u64_inc. apply u64_bigint. lia. Qed.

(** Plans whose state is set, in order. *)
Lemma dispose_sorted (f : ExecutionPlanRecord → ExecutionPlanRecord) l : (∀ p, pr_Ordinal (f p) = pr_Ordinal p) → StronglySorted earlier l → StronglySorted earlier (f <$> l).
Proof.
  intros E. induction 1 as [|a l S IH F]; [constructor|]. constructor; [exact IH|]. rewrite Forall_forall in *. intros b J. apply list_elem_of_fmap in J as (b' & -> & J). unfold earlier. rewrite !E. apply (F _ J).
Qed.
Definition planUpdate (db : Database) (f : ExecutionPlanRecord → ExecutionPlanRecord) : Database := db <| pg_plans := f <$> pg_plans db |>.
Definition keepsPlan (f : ExecutionPlanRecord → ExecutionPlanRecord) : Prop :=
  ∀ p, pr_ExecutionID (f p) = pr_ExecutionID p ∧ pr_PlanID (f p) = pr_PlanID p ∧ pr_SagaID (f p) = pr_SagaID p ∧ pr_Ordinal (f p) = pr_Ordinal p.
Lemma rows_planUpdate db f : keepsPlan f → ledger_rows db → ledger_rows (planUpdate db f).
Proof.
  intros K [R1 R2 R3 R4 R5]. split; cbn; try assumption.
  - intros key plan L. rewrite lookup_fmap in L. apply fmap_Some in L as (p & L & ->). destruct (K p) as (-> & -> & _). apply (R3 _ _ L).
  - intros key key' plan plan' L L'. rewrite lookup_fmap in L, L'. apply fmap_Some in L as (p & L & ->), L' as (p' & L' & ->). destruct (K p) as (-> & _ & _ & ->), (K p') as (-> & _ & _ & ->). apply (R4 _ _ _ _ L L').
Qed.
Lemma plansOf_planUpdate db f id : keepsPlan f → ledger_rows db → plansOf (planUpdate db f) id = f <$> plansOf db id.
Proof.
  intros K W. apply plansOf_unique; [apply rows_planUpdate; assumption|apply dispose_sorted; [intros p; apply (K p)|apply plansOf_sorted, W]|]. intros plan. rewrite list_elem_of_fmap. unfold planOf, planUpdate. cbn. split.
  - intros (p & -> & J). apply plansOf_elem in J as (key & L & E). exists key. rewrite lookup_fmap, L. split; [reflexivity|]. rewrite (proj1 (K p)). exact E.
  - intros (key & L & E). rewrite lookup_fmap in L. apply fmap_Some in L as (p & L & ->). exists p. split; [reflexivity|]. apply plansOf_elem. exists key. split; [exact L|]. rewrite (proj1 (K p)) in E. exact E.
Qed.
Definition disposeOf (id : string) (state : ExecutionState) (plan : ExecutionPlanRecord) : ExecutionPlanRecord :=
  if bool_decide (pr_ExecutionID plan = id) then plan <| pr_State := executionPlanDisposition state |> else plan.
Lemma disposePlanRows_update id state db : disposePlanRows id state db = planUpdate db (disposeOf id state).
Proof. reflexivity. Qed.
Lemma disposeOf_keeps id state : keepsPlan (disposeOf id state).
Proof. intros p. unfold disposeOf. destruct (bool_decide _); repeat split. Qed.
Lemma disposeOf_plans db id id' state : disposeOf id' state <$> plansOf db id = if bool_decide (id = id') then disposePlans state (plansOf db id) else plansOf db id.
Proof.
  assert (E : Forall (λ p, pr_ExecutionID p = id) (plansOf db id)) by (apply Forall_forall; intros p J; apply plansOf_elem in J as (key & _ & E); exact E).
  unfold disposePlans. induction (plansOf db id) as [|p ps IH]; [destruct (bool_decide _); reflexivity|]. apply Forall_cons in E as [E1 E]. rewrite !fmap_cons, (IH E). unfold disposeOf. rewrite E1.
  destruct (bool_decide (id = id')); reflexivity.
Qed.

(** ** State changes and leases *)
Definition stepsTo (db db' : Database) : Prop := ledger_rows db' ∧ ∀ id l, sees db id l → tracks db' id l.
Lemma stepsTo_refl db : ledger_rows db → stepsTo db db.
Proof. intros W. split; [exact W|]. intros id l. apply tracks_same. Qed.
Lemma stepsTo_trans db1 db2 db3 : stepsTo db1 db2 → stepsTo db2 db3 → stepsTo db1 db3.
Proof. intros [_ A] [W B]. split; [exact W|]. intros id l S. apply (tracks_trans db2); [apply A, S|]. intros l1. apply B. Qed.
Lemma stepsTo_tables db db' : ledgerTables db' = ledgerTables db → ledger_rows db → stepsTo db db'.
Proof. intros E W. split; [apply (rows_tables db); assumption|]. intros id l S. apply tracks_same, (sees_tables db); assumption. Qed.
(** One execution changes, and the in-memory ledger makes the same change. *)
Lemma stepsTo_execution db id row row' : ledger_rows db → pg_executions db !! id = Some row → xr_execution_id row' = xr_execution_id row → 1 ≤ xr_revision row' ≤ maxBigint → leaseColumns row' →
  xr_admission_identity row' = xr_admission_identity row →
  (∀ l, lg_executions l = {[id := scanExecution row (plansOf db id)]} → ledger_step l (putExecution id (scanExecution row' (plansOf db id)) l)) →
  stepsTo db (db <| pg_executions := <[id := row']> (pg_executions db) |>).
Proof.
  intros W L E B C A H. split; [apply (rows_update db id row); assumption|]. intros id' l S. destruct (decide (id' = id)) as [->|N].
  - apply (tracks_step _ _ _ (putExecution id (scanExecution row' (plansOf db id)) l)); [apply H; rewrite (se_executions _ _ _ S); unfold recordOf; rewrite L; reflexivity|].
    refine (sees_put db _ id l row row' S L _ _ A); [reflexivity|apply lookup_insert_eq].
  - apply tracks_same. refine (sees_other db _ _ _ _ _ S); [reflexivity|apply recordOf_other, N].
Qed.
(** As before, with the plans of the execution disposed too. *)
Lemma stepsTo_disposed db id row row' state : ledger_rows db → pg_executions db !! id = Some row → xr_execution_id row' = xr_execution_id row → 1 ≤ xr_revision row' ≤ maxBigint → leaseColumns row' →
  xr_admission_identity row' = xr_admission_identity row →
  (∀ l, lg_executions l = {[id := scanExecution row (plansOf db id)]} → ledger_step l (putExecution id (scanExecution row' (disposePlans state (plansOf db id))) l)) →
  stepsTo db (disposePlanRows id state (db <| pg_executions := <[id := row']> (pg_executions db) |>)).
Proof.
  intros W L E B C A H. pose proof (rows_update db id row row' W L E B C A) as W1. rewrite disposePlanRows_update. split; [apply rows_planUpdate; [apply disposeOf_keeps|exact W1]|]. intros id' l S.
  set (db1 := db <| pg_executions := _ |>) in *.
  assert (P : ∀ i, plansOf (planUpdate db1 (disposeOf id state)) i = if bool_decide (i = id) then disposePlans state (plansOf db i) else plansOf db i) by (intros i; rewrite (plansOf_planUpdate _ _ _ (disposeOf_keeps id state) W1); change (plansOf db1 i) with (plansOf db i); apply disposeOf_plans).
  destruct (decide (id' = id)) as [->|N].
  - apply (tracks_step _ _ _ (putExecution id (scanExecution row' (disposePlans state (plansOf db id))) l)); [apply H; rewrite (se_executions _ _ _ S); unfold recordOf; rewrite L; reflexivity|].
    pose proof (sees_put db (planUpdate db1 (disposeOf id state)) id l row row' S L eq_refl) as X. rewrite P, bool_decide_eq_true_2 in X by reflexivity. apply X; [apply lookup_insert_eq|exact A].
  - apply tracks_same. refine (sees_other db _ _ _ _ _ S); [reflexivity|]. unfold recordOf. rewrite P, (bool_decide_eq_false_2 _ N). cbn. rewrite lookup_insert_ne by auto. reflexivity.
Qed.
Lemma free_columns row : leaseColumns row → xr_recovery_token row = None → xr_recovery_owner row = None ∧ xr_recovery_deadline row = None.
Proof. intros [(A & _ & B)|(o & t & d & _ & B & _)] E; [auto|congruence]. Qed.
Lemma view_setState ctx ctx' now id revision state message db res db' : ledger_rows db → PostgresSetExecutionState ctx ctx' now id revision state message db = (res, db') → stepsTo db db'.
Proof.
  intros W H. unfold PostgresSetExecutionState in H. destruct (ctxErr ctx ;; _) as [[[row db1]|]|e] eqn:U; [|injection H as _ <-; apply stepsTo_refl, W..]. injection H as _ <-.
  do 2 apply bind_Ok in U as (? & _ & U). apply updateExecution_ok in U as (row0 & L & Q & B & -> & ->). destruct (lr_row _ W _ _ L) as (E & R & C).
  apply andb_true_iff in Q as [Q Q3]. apply andb_true_iff in Q as [Q1 Q2]. apply bool_decide_eq_true in Q1, Q2. destruct (free_columns _ C Q2) as [Fo Fd].
  eapply stepsTo_disposed; [exact W|exact L|reflexivity|cbn; lia|left; cbn; auto|reflexivity|]. intros l El. eapply (ls_state None now id revision state message l (scanExecution _ _)).
  unfold SetExecutionState. cbn [ctxErr mbind result_bind]. rewrite El, lookup_singleton_eq. cbn [ofOption mbind result_bind]. autorewrite with scan.
  rewrite (bool_decide_eq_false_2 (_ ≠ revision)) by (intros []; exact Q1). rewrite (proj1 (negb_true_iff _) Q3), Q2. decide_closed. cbn [orb failIf mbind result_bind].
  rewrite u64_revision by lia.
  match goal with |- Ok (?a, _) = Ok (_, putExecution _ ?b _) => assert (X : a = b) by (unfold scanExecution; cbn -[ofNullString nullString ofNullTime]; rewrite ofNull_nullString; reflexivity) end.
  rewrite X. reflexivity.
Qed.

(** Leasing the only execution of a ledger. *)
Lemma lease_one id row plans now owner token duration l : lg_executions l = {[id := scanExecution row plans]} → leasableRow now row = true → leaseColumns row →
  1 ≤ xr_revision row < maxBigint → isBlank owner = false → token ≠ "" → Microsecond ≤ duration →
  ledger_step l (putExecution id (scanExecution (leaseRow owner token now duration (row <| xr_revision := xr_revision row + 1 |>)) plans) l).
Proof.
  intros El Q C B Ob Tk D. set (r := scanExecution row plans) in *.
  assert (Du : 0 < duration / 1000 * 1000) by (unfold Microsecond in D; pose proof (Z.div_le_lower_bound duration 1000 1 ltac:(lia) ltac:(lia)); lia).
  assert (Le : leasable now r = true).
  { unfold leasableRow in Q. apply andb_true_iff in Q as [Q1 Q2]. unfold leasable, r. autorewrite with scan. rewrite Q1. cbn [andb].
    destruct C as [(Co & Ct & Cd)|(o & t & d & Co & Ct & Nt & Cd)]; rewrite Ct, Cd in *; cbn in *; [reflexivity|]. rewrite Q2. apply orb_true_r. }
  assert (Ca : leaseCandidates now l = [(id, r)]).
  { unfold leaseCandidates. rewrite El, map_to_list_singleton. cbn. rewrite Le. reflexivity. }
  eapply (ls_lease None now (λ _, Ok token) owner 1 (duration / 1000 * 1000) l); [intros i t E; congruence|]. unfold LeaseExecutions. rewrite Ob, Ca.
  rewrite (bool_decide_eq_false_2 (1 ≤ 0)), (bool_decide_eq_false_2 (_ ≤ 0)) by lia. cbn [orb]. change (take (Z.to_nat 1) [(id, r)]) with [(id, r)]. cbn [leaseAll]. change (er_Revision r) with (xr_revision row). rewrite u64_revision by lia. reflexivity.
Qed.
Lemma leaseRow_ok owner token now duration row : 1 ≤ xr_revision row < maxBigint → token ≠ "" → let row' := leaseRow owner token now duration (row <| xr_revision := xr_revision row + 1 |>) in
  xr_execution_id row' = xr_execution_id row ∧ 1 ≤ xr_revision row' ≤ maxBigint ∧ leaseColumns row' ∧ xr_admission_identity row' = xr_admission_identity row.
Proof. intros B T. cbn. repeat split; [lia|lia|]. right. cbn. eauto 10. Qed.
Lemma view_lease ctx now token id owner duration db lease db' : ledger_rows db → isBlank owner = false → (∀ t, token = Ok t → t ≠ "") → Microsecond ≤ duration →
  LeaseExecution ctx now token id owner duration db = Ok (lease, db') → stepsTo db db'.
Proof.
  intros W Ob Tk D H. unfold LeaseExecution in H. apply bind_Ok in H as (? & _ & H). apply bind_Ok in H as (tok & Et & H). apply bind_Ok in H as (? & _ & H). apply bind_Ok in H as (up & U & H).
  apply bind_Ok in H as ([row1 db1] & O%ofOption_Ok & H). subst up. injection H as _ <-. apply updateExecution_ok in U as (row & L & Q & B & -> & ->). destruct (lr_row _ W _ _ L) as (E & R & C).
  destruct (leaseRow_ok owner tok now duration row ltac:(lia) (Tk _ Et)) as (X1 & X2 & X3 & X4).
  apply (stepsTo_execution db id row); try assumption. intros l El. apply lease_one; auto; lia.
Qed.
Lemma view_leaseRows owner duration now token : isBlank owner = false → (∀ i t, token i = Ok t → t ≠ "") → Microsecond ≤ duration → ∀ ids i db leases db', ledger_rows db → NoDup ids →
  (∀ id, id ∈ ids → ∃ row, pg_executions db !! id = Some row ∧ leasableRow now row = true) → leaseRows owner duration now token i ids db = Ok (leases, db') → stepsTo db db'.
Proof.
  intros Ob Tk D. induction ids as [|id ids IH]; intros i db leases db' W N Q H; cbn [leaseRows] in H; [injection H as _ <-; apply stepsTo_refl, W|].
  apply bind_Ok in H as (tok & Et & H). apply bind_Ok in H as (up & U & H). apply bind_Ok in H as ([row1 db1] & O%ofOption_Ok & H). subst up. apply bind_Ok in H as ([leases1 db2] & H1 & H). injection H as _ <-.
  apply updateExecution_ok in U as (row & L & _ & B & -> & ->). destruct (lr_row _ W _ _ L) as (E & R & C). destruct (Q id ltac:(left)) as (row' & L' & Lr). assert (row' = row) as -> by congruence.
  destruct (leaseRow_ok owner tok now duration row ltac:(lia) (Tk _ _ Et)) as (X1 & X2 & X3 & X4). apply NoDup_cons in N as [N1 N].
  assert (S : stepsTo db (db <| pg_executions := <[id := leaseRow owner tok now duration (row <| xr_revision := xr_revision row + 1 |>)]> (pg_executions db) |>)).
  { apply (stepsTo_execution db id row); try assumption. intros l El. apply lease_one; eauto; lia. }
  refine (stepsTo_trans _ _ _ S _). refine (IH _ _ _ _ (proj1 S) N _ H1). intros id' J. destruct (Q id' ltac:(right; exact J)) as (row' & L1 & Q1). exists row'. split; [|exact Q1]. cbn. rewrite lookup_insert_ne; [exact L1|]. intros ->. apply N1, J.
Qed.
Lemma view_leases `{PT : !PostgresTypes} ctx now locked token owner limit duration db leases db' : ledger_rows db → isBlank owner = false → (∀ i t, token i = Ok t → t ≠ "") → Microsecond ≤ duration →
  PostgresLeaseExecutions ctx now locked token owner limit duration db = Ok (leases, db') → stepsTo db db'.
Proof.
  intros W Ob Tk D H. unfold PostgresLeaseExecutions in H. do 2 apply bind_Ok in H as ([] & _ & H). refine (view_leaseRows owner duration now token Ob Tk D _ _ _ _ _ W _ _ H).
  - unfold leasableRows. apply (sublist_NoDup _ ((merge_sort leaseRowLe (selectRows (leasableRow now) (pg_executions db))).*1)).
    + rewrite (merge_sort_Permutation leaseRowLe). unfold selectRows. apply NoDup_fmap_fst; [|apply NoDup_ListNoDup, List.NoDup_filter, NoDup_ListNoDup, NoDup_map_to_list].
      intros x y1 y2 I1 I2. apply list_elem_of_In, List.filter_In in I1 as [I1 _], I2 as [I2 _]. apply list_elem_of_In, elem_of_map_to_list in I1, I2. congruence.
    + transitivity ((List.filter (λ id, negb (locked id)) (merge_sort leaseRowLe (selectRows (leasableRow now) (pg_executions db))).*1)); [apply sublist_take|].
      induction ((merge_sort leaseRowLe (selectRows (leasableRow now) (pg_executions db))).*1) as [|x xs IH]; cbn; [constructor|]. destruct (negb (locked x)); constructor; exact IH.
  - intros id J. unfold leasableRows in J. apply elem_of_take in J as (j & J & _). apply list_elem_of_lookup_2, list_elem_of_In, List.filter_In in J as [J _]. apply list_elem_of_In, list_elem_of_fmap in J as ([k row] & -> & J).
    rewrite (merge_sort_Permutation leaseRowLe) in J. apply selectRows_elem in J as [L Q]. eauto.
Qed.

Lemma sqlEq_true {A} `{EqDecision A} (column : option A) (value : A) : sqlEq column value = true ↔ column = Some value.
Proof. unfold sqlEq. apply bool_decide_eq_true. Qed.
Lemma holdsLease_true clock lease row : holdsLease clock lease row = true → xr_recovery_owner row = Some (el_Owner lease) ∧ xr_recovery_token row = Some (el_Token lease) ∧
  xr_revision row = el_Revision lease ∧ ∃ d, xr_recovery_deadline row = Some d ∧ timeAfter d clock = true.
Proof.
  unfold holdsLease. rewrite !andb_true_iff, !sqlEq_true, bool_decide_eq_true. intros [[[A B] C] D]. repeat split; try assumption. destruct (xr_recovery_deadline row) as [d|]; [eauto|discriminate].
Qed.
Lemma held_guard row plans lease clock : holdsLease clock lease row = true → let record := scanExecution row plans in
  bool_decide (er_RecoveryOwner record ≠ el_Owner lease) || bool_decide (er_RecoveryToken record ≠ el_Token lease)
  || bool_decide (er_Revision record ≠ el_Revision lease) || negb (timeAfter (er_RecoveryDeadline record) clock) = false.
Proof.
  intros (Qo & Qt & Qr & d & Qd & Qa)%holdsLease_true. cbv zeta. autorewrite with scan. rewrite Qo, Qt, Qd, Qr. cbn [ofNullString ofNullTime default]. unfold id.
  rewrite !(bool_decide_eq_false_2 (_ ≠ _)) by (intros []; reflexivity). rewrite Qa. reflexivity.
Qed.
Lemma view_renew ctx clock lease duration db lease' db' : ledger_rows db → zeroTime ≤ clock → PostgresRenewExecutionLease ctx clock lease duration db = Ok (lease', db') → stepsTo db db'.
Proof.
  intros W T H. unfold PostgresRenewExecutionLease in H. apply bind_Ok in H as (? & D%failIf_Ok & H). apply bind_Ok in H as (? & _ & H). apply bool_decide_eq_false in D.
  destruct (pg_executions db !! el_ExecutionID lease) as [row|] eqn:L; [|discriminate]. apply bind_Ok in H as (? & Q%failIf_Ok & H). cbv zeta in H. injection H as _ <-. apply negb_false_iff, andb_true_iff in Q as [Q Te].
  pose proof (held_guard row (plansOf db (el_ExecutionID lease)) lease clock Q) as G. apply holdsLease_true in Q as (Qo & Qt & Qr & d & Qd & Qa). destruct (lr_row _ W _ _ L) as (E & R & C). rewrite Qd. cbn [ofNullTime default]. unfold id.
  assert (Tk : el_Token lease ≠ "") by (destruct C as [(_ & Ct & _)|(o & t & d' & _ & Ct & Nt & _)]; congruence).
  apply (stepsTo_execution db (el_ExecutionID lease) row); [exact W|exact L|reflexivity|exact R|right; cbn; eauto 10|reflexivity|]. intros l El.
  eapply (ls_renew None clock lease (duration / 1000 * 1000) l); [exact T|]. unfold RenewExecutionLease. cbn [ctxErr mbind result_bind].
  assert (0 < duration / 1000 * 1000) by (pose proof (Z.div_le_lower_bound duration 1000 1 ltac:(lia) ltac:(lia)); lia). rewrite (bool_decide_eq_false_2 (_ ≤ 0)) by lia. cbn [failIf mbind result_bind].
  rewrite El, lookup_singleton_eq. cbv zeta in G. rewrite G, scan_State, (proj1 (negb_true_iff _) Te), scan_Deadline, Qd. cbn [orb failIf mbind result_bind ofNullTime default]. unfold id. cbv zeta.
  replace (if timeAfter (timeAdd clock (duration / 1000 * 1000)) d then (scanExecution row (plansOf db (el_ExecutionID lease))) <| er_RecoveryDeadline := timeAdd clock (duration / 1000 * 1000) |> else scanExecution row (plansOf db (el_ExecutionID lease)))
    with (scanExecution (row <| xr_recovery_deadline := Some (Z.max d (timeAdd clock (duration / 1000 * 1000))) |>) (plansOf db (el_ExecutionID lease))); [reflexivity|].
  clear G. unfold timeAfter. case_bool_decide as X; unfold scanExecution; cbn -[ofNullString]; [rewrite Z.max_r by lia; reflexivity|]. rewrite Z.max_l, Qd by lia. reflexivity.
Qed.
Lemma view_finish ctx now clock lease state message db db' : ledger_rows db → zeroTime ≤ clock → PostgresFinishExecutionLease ctx now clock lease state message db = Ok db' → stepsTo db db'.
Proof.
  intros W T H. unfold PostgresFinishExecutionLease in H. apply bind_Ok in H as (? & _ & H). apply bind_Ok in H as (up & U & H). apply bind_Ok in H as ([row1 db1] & O%ofOption_Ok & H). subst up. injection H as <-.
  apply updateExecution_ok in U as (row & L & Q & B & -> & ->). pose proof (held_guard row (plansOf db (el_ExecutionID lease)) lease clock Q) as G. destruct (lr_row _ W _ _ L) as (E & R & C).
  assert (St : ∀ l plans', (plans' = if bool_decide (state ≠ ExecutionOther "") then disposePlans state (plansOf db (el_ExecutionID lease)) else plansOf db (el_ExecutionID lease)) →
    lg_executions l = {[el_ExecutionID lease := scanExecution row (plansOf db (el_ExecutionID lease))]} →
    ledger_step l (putExecution (el_ExecutionID lease) (scanExecution (row <| xr_revision := xr_revision row + 1 |>
      <| xr_state := if bool_decide (state = ExecutionOther "") then xr_state (row <| xr_revision := xr_revision row + 1 |>) else state |> <| xr_last_error := nullString message |>
      <| xr_recovery_owner := None |> <| xr_recovery_token := None |> <| xr_recovery_deadline := None |> <| xr_updated_at := now |>) plans') l)).
  { intros l plans' -> El. apply (ls_finish None clock now lease state message l); [exact T|]. unfold FinishExecutionLease. cbn [ctxErr mbind result_bind]. rewrite El, lookup_singleton_eq. cbn [ofOption mbind result_bind].
    cbv zeta in G. rewrite G. cbn [failIf mbind result_bind]. f_equal. f_equal. destruct (decide (state = ExecutionOther "")) as [X|X].
    - rewrite (bool_decide_eq_true_2 _ X), (bool_decide_eq_false_2 (state ≠ _)) by (intros []; exact X). rewrite scan_Revision, u64_revision by lia. unfold scanExecution. cbn -[ofNullString nullString ofNullTime]. rewrite ofNull_nullString. reflexivity.
    - rewrite (bool_decide_eq_false_2 _ X), (bool_decide_eq_true_2 _ X). change (er_Revision (_ <| er_State := _ |> <| er_Plans := _ |>)) with (xr_revision row). rewrite u64_revision by lia.
      unfold scanExecution. cbn -[ofNullString nullString ofNullTime]. rewrite ofNull_nullString. reflexivity. }
  destruct (bool_decide (state ≠ ExecutionOther "")).
  - eapply stepsTo_disposed; [exact W|exact L|reflexivity|cbn; lia|left; repeat split|reflexivity|]. intros l El. apply St; [reflexivity|exact El].
  - eapply stepsTo_execution; [exact W|exact L|reflexivity|cbn; lia|left; repeat split|reflexivity|]. intros l El. apply St; [reflexivity|exact El].
Qed.

(** ** The plans of an admission *)
Definition selected (plan : ExecutionPlanRecord) : ExecutionPlanRecord := plan <| pr_State := "selected" |>.
Lemma insertPlans_view eid plans : ∀ db db', ledger_rows db → Forall (λ p, pr_ExecutionID p = eid) plans → insertExecutionPlansTx plans db = Ok db' →
  ledger_rows db' ∧ pg_artifacts db' = pg_artifacts db ∧ pg_executions db' = pg_executions db ∧ (∀ id plan, planOf db' id plan ↔ planOf db id plan ∨ (id = eid ∧ plan ∈ selected <$> plans)).
Proof.
  induction plans as [|p plans IH]; intros db db' W F H; cbn [insertExecutionPlansTx] in H.
  { injection H as <-. split; [exact W|]. split; [reflexivity|]. split; [reflexivity|]. intros id plan. split; [auto|intros [X|[_ X]]; [exact X|inversion X]]. }
  apply bind_Ok in H as ([] & Fk%failIf_Ok & H). apply bind_Ok in H as ([] & U%failIf_Ok & H). apply bind_Ok in H as ([] & _ & H). apply Forall_cons in F as [Ep F].
  apply orb_false_iff in Fk as [Fk _]. apply bool_decide_eq_false in Fk. apply orb_false_iff in U as [U1 U2]. apply bool_decide_eq_false, eq_None_not_Some in U1. rewrite existsRow_false in U2.
  fold (selected p) in H. set (db1 := db <| pg_plans := _ |>) in H.
  assert (W1 : ledger_rows db1).
  { destruct W as [W1 W2 W3 W4 W5]. split; cbn; try assumption.
    - intros key plan L. apply lookup_insert_Some in L as [[<- <-]|[_ L]]; [|apply (W3 _ _ L)]. split; [reflexivity|]. apply not_eq_None_Some. exact Fk.
    - assert (Un : ∀ k' plan', pg_plans db !! k' = Some plan' → pr_ExecutionID plan' = pr_ExecutionID p → pr_Ordinal plan' = pr_Ordinal p → False).
      { intros k' plan' L' E1 E2. specialize (U2 _ _ L'). rewrite (bool_decide_eq_true_2 _ E1), (bool_decide_eq_true_2 _ E2), orb_true_r in U2. discriminate. }
      intros key key' plan plan' L L' E1 E2. apply lookup_insert_Some in L as [[<- <-]|[N L]], L' as [[<- <-]|[N' L']]; [reflexivity|..].
      + destruct (Un _ _ L'); symmetry; assumption.
      + destruct (Un _ _ L); assumption.
      + apply (W4 _ _ _ _ L L' E1 E2). }
  destruct (IH _ _ W1 F H) as (W' & A' & X' & P'). split; [exact W'|]. split; [exact A'|]. split; [exact X'|]. intros id plan. rewrite P', fmap_cons, elem_of_cons. unfold planOf, db1. cbn. split.
  - intros [(key & L & E)|[E J]]; [|tauto]. apply lookup_insert_Some in L as [[<- <-]|[_ L]]; [right; split; [cbn in E; congruence|auto]|left; eauto].
  - intros [(key & L & E)|[E [J|J]]]; [left|left|tauto].
    + exists key. split; [|exact E]. apply lookup_insert_Some. right. split; [intros <-; congruence|exact L].
    + exists (pr_ExecutionID p, pr_PlanID p). split; [rewrite J; apply lookup_insert_eq|]. rewrite J. cbn. congruence.
Qed.
(** What the sagas without a first step do to the plans. *)
Definition completeOf (eid sid : string) (plan : ExecutionPlanRecord) : ExecutionPlanRecord :=
  if bool_decide (pr_ExecutionID plan = eid) && bool_decide (pr_SagaID plan = sid) then plan <| pr_State := "completed" |> else plan.
Record completes (eid : string) (sagas : list CreateSagaRequest) (all : bool) (f : ExecutionPlanRecord → ExecutionPlanRecord) : Prop := {
  co_keeps : keepsPlan f;
  co_other p : pr_ExecutionID p ≠ eid → f p = p;
  co_stays p : pr_State p = "completed" → pr_State (f p) = "completed";
  co_all p : all = true → pr_ExecutionID p = eid → pr_SagaID p ∈ cs_SagaID <$> sagas → pr_State (f p) = "completed" }.
Lemma completeEmpty_view now eid steps sagas : ∀ db, ∃ f, completes eid sagas (bool_decide (steps = [])) f ∧
  let db' := foldl (completeEmptySaga now eid steps) db sagas in pg_plans db' = f <$> pg_plans db ∧ pg_executions db' = pg_executions db ∧ pg_artifacts db' = pg_artifacts db.
Proof.
  induction sagas as [|r sagas IH]; intros db.
  { exists id. split; [|split; [cbn; rewrite map_fmap_id; reflexivity|auto]]. split; [intros p; repeat split|reflexivity|auto|]. intros p _ _ J. inversion J. }
  cbn [foldl]. destruct (IH (completeEmptySaga now eid steps db r)) as (f & [F1 F2 F3 F4] & P & X & A). set (db1 := completeEmptySaga now eid steps db r) in *.
  destruct (existsb (λ step, bool_decide (eq_SagaID step = cs_SagaID r)) steps) eqn:E.
  - assert (db1 = db) as D by (unfold db1, completeEmptySaga; rewrite E; reflexivity). rewrite D in P, X, A. exists f. split; [|cbv zeta; rewrite D; auto]. split; [exact F1|exact F2|exact F3|].
    intros p S Ep J. apply bool_decide_eq_true in S. subst steps. discriminate.
  - assert (D : pg_plans db1 = completeOf eid (cs_SagaID r) <$> pg_plans db ∧ pg_executions db1 = pg_executions db ∧ pg_artifacts db1 = pg_artifacts db) by (unfold db1, completeEmptySaga; rewrite E; repeat split).
    destruct D as (D1 & D2 & D3). exists (f ∘ completeOf eid (cs_SagaID r)).
    assert (K : keepsPlan (completeOf eid (cs_SagaID r))) by (intros p; unfold completeOf; destruct (_ && _); repeat split). split; [split|].
    + intros p. destruct (K p) as (K1 & K2 & K3 & K4). destruct (F1 (completeOf eid (cs_SagaID r) p)) as (G1 & G2 & G3 & G4). unfold compose. repeat split; congruence.
    + intros p N. unfold compose, completeOf. rewrite (bool_decide_eq_false_2 _ N). apply F2, N.
    + intros p S. apply F3. unfold completeOf. destruct (_ && _); [reflexivity|exact S].
    + intros p S Ep J. rewrite fmap_cons in J. apply elem_of_cons in J as [J|J].
      * apply F3. unfold completeOf. rewrite (bool_decide_eq_true_2 _ Ep), (bool_decide_eq_true_2 _ J). reflexivity.
      * apply F4; [exact S|destruct (K p) as (-> & _); exact Ep|destruct (K p) as (_ & _ & -> & _); exact J].
    + cbv zeta. rewrite P, X, A, D1, D2, D3, <- map_fmap_compose. auto.
Qed.
Lemma validatePlans_map f eid plans : keepsPlan f → ∀ i, validatePlans eid i (f <$> plans) = validatePlans eid i plans.
Proof. intros K. induction plans as [|p plans IH]; intros i; [reflexivity|]. rewrite fmap_cons. cbn [validatePlans]. destruct (K p) as (-> & -> & -> & ->). rewrite IH. reflexivity. Qed.
Lemma validatePlans_ok eid plans : ∀ i, validatePlans eid i plans = Ok tt → Forall (λ p, pr_ExecutionID p = eid ∧ i ≤ pr_Ordinal p) plans ∧ StronglySorted earlier plans.
Proof.
  induction plans as [|p plans IH]; intros i H; [split; constructor|]. cbn [validatePlans] in H. apply bind_Ok in H as ([] & V%failIf_Ok & H). destruct (IH _ H) as [F S].
  apply orb_false_iff in V as [V _]. apply orb_false_iff in V as [V _]. apply orb_false_iff in V as [V1 V2]. apply bool_decide_eq_false, dec_stable in V1, V2. split.
  - constructor; [split; [exact V1|lia]|]. rewrite Forall_forall in *. intros q J. destruct (F _ J). split; [assumption|lia].
  - constructor; [exact S|]. rewrite Forall_forall in *. intros q J. destruct (F _ J). unfold earlier. lia.
Qed.

(** ** Artifacts *)
Section Admitting.
  Context `{PT : !PostgresTypes}.
Lemma castJSON_text t t' : castJSON t = Ok t' → Valid t' = true ∧ jsonSemanticallyEqual t' t' = true.
Proof. unfold castJSON. intros E%ofOption_Ok. split; [exact (jsonb_text _ _ E)|exact (jsonb_reads _ _ E)]. Qed.
Lemma stored_artifact a e x f m now : validateExecutionArtifact a = Ok tt → Forall (λ t, Valid t = true ∧ jsonSemanticallyEqual t t = true) [e; x; f; m] →
  let a' := mkArtifact (ar_GenerationDigest a) (ar_IRDigest a) (ar_IRBytes a) e x f (ar_SourceDigest a) m now in validateExecutionArtifact a' = Ok tt ∧ sameExecutionArtifact a' a' = true.
Proof.
  intros V F. apply Forall_cons in F as [[V1 S1] F]. apply Forall_cons in F as [[V2 S2] F]. apply Forall_cons in F as [[V3 S3] F]. apply Forall_cons in F as [[V4 S4] _].
  unfold validateExecutionArtifact in *. apply bind_Ok in V as ([] & A%failIf_Ok & V%failIf_Ok). cbn. cbn in A. rewrite A. cbn [failIf mbind result_bind]. rewrite V1, V2, V3, V4. repeat (apply orb_false_iff in V as [V ?]). rewrite V.
  split; [reflexivity|]. unfold sameExecutionArtifact. cbn. rewrite S1, S2, S3, S4, !bool_decide_eq_true_2 by reflexivity. reflexivity.
Qed.
Lemma view_artifactTx now a db db' : ledger_rows db → validateExecutionArtifact a = Ok tt → putArtifactTx now a db = Ok db' →
  stepsTo db db' ∧ pg_executions db' = pg_executions db ∧ pg_plans db' = pg_plans db ∧ is_Some (pg_artifacts db' !! ar_GenerationDigest a).
Proof.
  intros W V H. unfold putArtifactTx in H. apply bind_Ok in H as (e & E%castJSON_text & H). apply bind_Ok in H as (x & X%castJSON_text & H). apply bind_Ok in H as (f & F%castJSON_text & H). apply bind_Ok in H as (m & M%castJSON_text & H).
  destruct (pg_artifacts db !! ar_GenerationDigest a) as [old|] eqn:L; [apply bind_Ok in H as ([] & _ & H); injection H as <-; rewrite L; split; [apply stepsTo_refl, W|eauto]|]. injection H as <-.
  destruct (stored_artifact a e x f m now V) as [V' S']; [repeat constructor; assumption || tauto|]. set (a' := mkArtifact _ _ _ _ _ _ _ _ _) in *. cbn. rewrite lookup_insert_eq. split; [|eauto]. split.
  - destruct W as [W1 W2 W3 W4 W5]. split; cbn; try assumption. intros k a0 La. apply lookup_insert_Some in La as [[<- <-]|[_ La]]; [auto|apply (W2 _ _ La)].
  - intros id l [S1 S2 S3]. apply (tracks_step _ _ _ (l <| lg_artifacts := <[ar_GenerationDigest a := a']> (lg_artifacts l) |>)).
    + apply (ls_artifact None now a'). unfold PutArtifact. cbn [ctxErr mbind result_bind]. rewrite V'. cbn [mbind result_bind]. change (ar_GenerationDigest a') with (ar_GenerationDigest a). rewrite S1, L. reflexivity.
    + split; cbn; [rewrite S1; reflexivity|exact S2|exact S3].
Qed.
Lemma view_putArtifact ctx now a db db' : ledger_rows db → PostgresPutArtifact ctx now a db = Ok db' → stepsTo db db'.
Proof. intros W H. unfold PostgresPutArtifact in H. apply bind_Ok in H as ([] & V & H). apply bind_Ok in H as ([] & _ & H). apply (view_artifactTx now a); assumption. Qed.

(** ** Admission *)
Definition acceptedRow (now : Time) (x : ExecutionRecord) (facts : string) : ExecutionRow :=
  mkExecutionRow (er_ExecutionID x) (er_AdmissionIdentity x) (er_RequestHash x) (er_Ruleset x) (er_Version x) (er_TenantNamespace x) (er_MergePolicy x) (er_GenerationDigest x) facts
    ExecutionAccepted 1 None None None None now now.
Lemma ledgerTx_created now adm db r db' : let x := da_Execution adm in admitExecutionLedgerTx now adm false db = Ok (r, true, db') →
  ∃ db1 facts, putArtifactTx now (da_Artifact adm) db = Ok db1 ∧ castJSON (er_EffectiveFacts x) = Ok facts ∧ pg_executions db1 !! er_ExecutionID x = None ∧ existsRow (admissionIs (er_AdmissionIdentity x)) (pg_executions db1) = false ∧ er_ExecutionID r = er_ExecutionID x ∧
    pg_artifacts db' = pg_artifacts db1 ∧ pg_plans db' = pg_plans db1 ∧ pg_executions db' = <[er_ExecutionID x := acceptedRow now x facts]> (pg_executions db1).
Proof.
  cbv zeta. unfold admitExecutionLedgerTx. intros H. apply bind_Ok in H as (db1 & H1 & H). cbv zeta in H. destruct (admittedRow _ _); [do 2 apply bind_Ok in H as (? & _ & H); discriminate|].
  apply bind_Ok in H as (db2 & H2 & H). apply bind_Ok in H as (facts & Hf & H). apply bind_Ok in H as (db3 & H3 & H). apply bind_Ok in H as (db4 & H4 & H). apply bind_Ok in H as (db5 & H5 & H).
  apply bind_Ok in H as (db6 & H6 & H). injection H6 as <-. injection H as <- <-. unfold activateGeneration in H2. cbv zeta in H2. do 2 apply bind_Ok in H2 as (? & _ & H2). injection H2 as <-.
  unfold insertExecution in H3. apply bind_Ok in H3 as (? & _ & H3). apply bind_Ok in H3 as (? & U%failIf_Ok & H3). injection H3 as <-. apply orb_false_iff in U as [U Ui]. apply bool_decide_eq_false, eq_None_not_Some in U.
  unfold insertFactApplication in H4. do 4 apply bind_Ok in H4 as (? & _ & H4). injection H4 as <-. unfold insertSnapshot in H5. do 2 apply bind_Ok in H5 as (? & _ & H5). injection H5 as <-.
  exists db1, facts. repeat split; assumption || reflexivity.
Qed.
Lemma createSagas_frame tb now eid sagas : ∀ plans db db', createAdmissionSagas tb now eid sagas plans db = Ok db' → ledgerTables db' = ledgerTables db.
Proof.
  induction sagas as [|r sagas IH]; intros [|p plans] db db' H; cbn [createAdmissionSagas] in H; try (injection H as <-; reflexivity). apply bind_Ok in H as (? & _ & H). apply bind_Ok in H as ([sg db1] & H1 & H).
  rewrite (IH _ _ _ H). exact (createSagaTx_frame _ _ _ _ _ _ H1).
Qed.
Lemma createSagas_matches tb now eid sagas : ∀ plans db db', createAdmissionSagas tb now eid sagas plans db = Ok db' → List.length sagas = List.length plans → pr_SagaID <$> plans = cs_SagaID <$> sagas.
Proof.
  induction sagas as [|r sagas IH]; intros [|p plans] db db' H N; try discriminate; [reflexivity|]. cbn [createAdmissionSagas] in H. apply bind_Ok in H as (? & M%failIf_Ok & H). apply bind_Ok in H as ([sg db1] & _ & H).
  apply orb_false_iff in M as [M _]. apply orb_false_iff in M as [_ M]. apply bool_decide_eq_false, dec_stable in M. rewrite !fmap_cons, (IH _ _ _ H) by (injection N; auto). congruence.
Qed.
Lemma initialSteps_frame now steps : ∀ db db', enqueueInitialSteps now steps db = Ok db' → ledgerTables db' = ledgerTables db.
Proof.
  induction steps as [|r steps IH]; intros db db' H; cbn [enqueueInitialSteps] in H; [injection H as <-; reflexivity|]. apply bind_Ok in H as ([d db1] & H1 & H). rewrite (IH _ _ H). exact (enqueueStepTx_frame _ _ _ _ _ H1).
Qed.

Definition finishedRow (now : Time) (row : ExecutionRow) : ExecutionRow := row <| xr_state := ExecutionCompleted |> <| xr_revision := xr_revision row + 1 |> <| xr_updated_at := now |>.
(** What an admission leaves in the tables of the ledger. *)
Record admits (now : Time) (adm : DurableAdmission) (db1 db' : Database) (facts : string) (f : ExecutionPlanRecord → ExecutionPlanRecord) : Prop := {
  ad_new : pg_executions db1 !! er_ExecutionID (da_Execution adm) = None;
  ad_facts : Valid facts = true;
  ad_completes : completes (er_ExecutionID (da_Execution adm)) (da_Sagas adm) (bool_decide (da_InitialSteps adm = [])) f;
  ad_matches : pr_SagaID <$> da_Plans adm = cs_SagaID <$> da_Sagas adm;
  ad_artifact : is_Some (pg_artifacts db1 !! ar_GenerationDigest (da_Artifact adm));
  ad_artifacts : pg_artifacts db' = pg_artifacts db1;
  ad_executions : pg_executions db' = <[er_ExecutionID (da_Execution adm) :=
    let row := acceptedRow now (da_Execution adm) facts in if bool_decide (da_InitialSteps adm = []) then finishedRow now row else row]> (pg_executions db1);
  ad_rows : ledger_rows db';
  ad_plans id plan : planOf db' id plan ↔ planOf db1 id plan ∨ (id = er_ExecutionID (da_Execution adm) ∧ plan ∈ f ∘ selected <$> da_Plans adm) }.
Lemma rows_insert db id row : ledger_rows db → pg_executions db !! id = None → xr_execution_id row = id → 1 ≤ xr_revision row ≤ maxBigint → leaseColumns row →
  existsRow (admissionIs (xr_admission_identity row)) (pg_executions db) = false → ledger_rows (db <| pg_executions := <[id := row]> (pg_executions db) |>).
Proof.
  intros [R1 R2 R3 R4 R5] L E B C U. rewrite existsRow_false in U. split; cbn; try assumption.
  - intros id1 row1 L1. apply lookup_insert_Some in L1 as [[<- <-]|[_ L1]]; [auto|apply (R1 _ _ L1)].
  - intros key plan Lp. destruct (R3 _ _ Lp) as [K [x X]]. split; [exact K|]. rewrite lookup_insert_ne by congruence. eauto.
  - assert (Un : ∀ k r, pg_executions db !! k = Some r → xr_admission_identity r = xr_admission_identity row → False) by (intros k r Lr Ei; specialize (U _ _ Lr); unfold admissionIs in U; apply bool_decide_eq_false in U; auto).
    intros id1 id2 row1 row2 L1 L2 Ei. apply lookup_insert_Some in L1 as [[<- <-]|[_ L1]], L2 as [[<- <-]|[_ L2]]; [reflexivity|destruct (Un _ _ L2); congruence|destruct (Un _ _ L1); congruence|eapply R5; eassumption].
Qed.
Lemma planOf_update db f id plan : keepsPlan f → planOf (planUpdate db f) id plan ↔ ∃ p, plan = f p ∧ planOf db id p.
Proof.
  intros K. unfold planOf, planUpdate. cbn. split.
  - intros (key & L & E). rewrite lookup_fmap in L. apply fmap_Some in L as (p & L & ->). exists p. split; [reflexivity|]. exists key. rewrite (proj1 (K p)) in E. auto.
  - intros (p & -> & key & L & E). exists key. rewrite lookup_fmap, L, (proj1 (K p)). auto.
Qed.
Lemma admit_tables tb ctx now adm db r db' : ledger_rows db → admitExecutionAtomicOnce tb ctx now adm db = Ok (r, true, db') →
  validateDurableAdmission adm = Ok tt ∧ ∃ db1 facts f, stepsTo db db1 ∧ admits now adm db1 db' facts f.
Proof.
  intros W H. unfold admitExecutionAtomicOnce in H. apply bind_Ok in H as ([] & V & H). apply bind_Ok in H as ([] & Ln%failIf_Ok & H). apply bind_Ok in H as ([] & _ & H). apply bind_Ok in H as ([] & _ & H).
  apply bool_decide_eq_false, dec_stable in Ln. split; [exact V|]. apply bind_Ok in H as ([[r1 c] db2] & H1 & H). destruct c; [|discriminate].
  apply ledgerTx_created in H1 as (db1 & facts & Ha & Hf & New & Ui & Er & A2 & P2 & X2). rewrite Er in H. set (e := er_ExecutionID (da_Execution adm)) in *.
  assert (Va : validateExecutionArtifact (da_Artifact adm) = Ok tt) by (unfold validateDurableAdmission in V; apply bind_Ok in V as ([] & V & _); exact V).
  assert (Vp : validatePlans e 0 (da_Plans adm) = Ok tt) by (unfold validateDurableAdmission in V; cbv zeta in V; do 4 apply bind_Ok in V as ([] & _ & V); exact V).
  destruct (validatePlans_ok _ _ _ Vp) as [Fp Sp]. destruct (view_artifactTx _ _ _ _ W Va Ha) as (S1 & X1 & P1 & Ia). pose proof (proj1 S1) as W1.
  apply bind_Ok in H as (db3 & H3 & H). pose proof (createSagas_matches _ _ _ _ _ _ _ H3 Ln) as M. apply createSagas_frame in H3. apply bind_Ok in H as (db4 & H4 & H). apply bind_Ok in H as (db5 & H5%initialSteps_frame & H). cbv zeta in H.
  assert (W2 : ledger_rows db2).
  { assert (W2 : ledger_rows (db1 <| pg_executions := <[e := acceptedRow now (da_Execution adm) facts]> (pg_executions db1) |>)) by (apply rows_insert; [exact W1|exact New|reflexivity|cbn; unfold maxBigint; lia|left; repeat split|exact Ui]).
    apply (rows_tables _ db2) in W2; [exact W2|]. unfold ledgerTables. cbn. congruence. }
  destruct (insertPlans_view e (da_Plans adm) db3 db4) as (W4 & A4 & X4 & P4); [apply (rows_tables db2); assumption|eapply Forall_impl; [exact Fp|]; cbn; tauto|exact H4|].
  destruct (completeEmpty_view now e (da_InitialSteps adm) (da_Sagas adm) db5) as (f & Cf & P6 & X6 & A6). set (db6 := foldl _ db5 _) in *. cbv zeta in P6, X6, A6.
  exists db1, facts, f. split; [exact S1|].
  unfold ledgerTables in H3, H5. injection H3 as A3 X3 P3. injection H5 as A5 X5 P5. assert (K : keepsPlan f) by apply Cf.
  assert (X7 : pg_executions db6 = <[e := acceptedRow now (da_Execution adm) facts]> (pg_executions db1)) by congruence.
  assert (W6 : ledger_rows db6).
  { apply (rows_tables (planUpdate db5 f)); [unfold ledgerTables; cbn; congruence|]. apply rows_planUpdate; [exact K|]. apply (rows_tables db4); [unfold ledgerTables; congruence|exact W4]. }
  assert (P7 : ∀ id plan, planOf db6 id plan ↔ planOf db1 id plan ∨ (id = e ∧ plan ∈ f ∘ selected <$> da_Plans adm)).
  { intros id plan. unfold planOf at 1. rewrite P6, P5. change (planOf (planUpdate db4 f) id plan ↔ planOf db1 id plan ∨ (id = e ∧ plan ∈ f ∘ selected <$> da_Plans adm)). rewrite (planOf_update _ _ _ _ K).
    assert (Old : ∀ i p, planOf db3 i p ↔ planOf db1 i p) by (intros i p; unfold planOf; rewrite P3, P2; reflexivity).
    assert (Ne : ∀ i p, planOf db1 i p → f p = p).
    { intros i p (key & L & E). apply (co_other _ _ _ _ Cf). intros Ep. destruct (lr_plan _ W1 _ _ L) as [_ [x X]]. congruence. }
    split.
    - intros (p & -> & J). apply P4 in J as [J|[E J]]; [left; apply Old in J as J'; rewrite (Ne _ _ J'); exact J'|right]. split; [exact E|]. apply list_elem_of_fmap in J as (q & -> & J). apply list_elem_of_fmap. exists q. auto.
    - intros [J|[E J]]; [exists plan; split; [symmetry; apply (Ne _ _ J)|]; apply P4; left; apply Old, J|]. apply list_elem_of_fmap in J as (q & -> & J). exists (selected q). split; [reflexivity|]. apply P4. right.
      split; [exact E|]. apply list_elem_of_fmap. eauto. }
  destruct (castJSON_text _ _ Hf) as [Vf _]. destruct (da_InitialSteps adm) as [|step steps] eqn:Si.
  - injection H as _ <-. assert (Lx : pg_executions db6 !! e = Some (acceptedRow now (da_Execution adm) facts)) by (rewrite X7; apply lookup_insert_eq). rewrite (updateRow_all _ _ _ _ Lx).
    split; rewrite ?Si; try assumption; cbn.
    + congruence.
    + rewrite X7, insert_insert_eq. reflexivity.
    + refine (rows_update db6 e _ _ W6 Lx _ _ _ _); [reflexivity|cbn; unfold maxBigint; lia|left; repeat split|reflexivity].
  - injection H as _ <-. split; rewrite ?Si; try assumption. congruence.
Qed.

(** The admission as the in-memory ledger is given it: the rows as they are stored. *)
Definition storedAdmission (adm : DurableAdmission) (artifact : ExecutionArtifact) (facts : string) (plans : list ExecutionPlanRecord) : DurableAdmission :=
  mkAdmission artifact ((da_Execution adm) <| er_EffectiveFacts := facts |> <| er_RecoveryOwner := "" |> <| er_RecoveryToken := "" |> <| er_RecoveryDeadline := zeroTime |> <| er_LastError := "" |>)
    (da_FactApplication adm) plans (da_Sagas adm) (da_InitialSteps adm).
Lemma storedAdmission_valid adm artifact facts plans : validateDurableAdmission adm = Ok tt → validateExecutionArtifact artifact = Ok tt → ar_GenerationDigest artifact = ar_GenerationDigest (da_Artifact adm) →
  Valid facts = true → validatePlans (er_ExecutionID (da_Execution adm)) 0 plans = Ok tt → validateDurableAdmission (storedAdmission adm artifact facts plans) = Ok tt.
Proof.
  intros V Va Ed Vf Vp. unfold validateDurableAdmission in *. cbv zeta in *. cbn [da_Artifact da_Execution da_FactApplication da_Plans storedAdmission]. apply bind_Ok in V as ([] & _ & V). apply bind_Ok in V as ([] & V1 & V).
  apply bind_Ok in V as ([] & V2%failIf_Ok & V). apply bind_Ok in V as ([] & V3 & _). rewrite Va. cbn [mbind result_bind]. cbn in V1. cbn -[validatePlans failIf]. rewrite V1. cbn [mbind result_bind]. apply orb_false_iff in V2 as [V2 _].
  rewrite Ed, V2, Vf. cbn [negb orb failIf mbind result_bind]. cbn in V3. rewrite V3. exact Vp.
Qed.
Lemma admit_new now adm artifact facts plans l : let x := da_Execution adm in lg_executions l = ∅ → lg_byAdmission l = ∅ → lg_artifacts l !! ar_GenerationDigest artifact = Some artifact →
  sameExecutionArtifact artifact artifact = true → validateDurableAdmission (storedAdmission adm artifact facts plans) = Ok tt →
  ∃ l', ledger_step l l' ∧ lg_artifacts l' = lg_artifacts l ∧ lg_executions l' = {[er_ExecutionID x := scanExecution (acceptedRow now x facts) plans]} ∧ lg_byAdmission l' = {[er_AdmissionIdentity x := er_ExecutionID x]}.
Proof.
  cbv zeta. intros E1 E2 La Sa V. eexists. split; [|split; [|split]].
  - eapply (ls_admit None now (storedAdmission adm artifact facts plans)); [repeat split|]. unfold AdmitExecution. cbn [ctxErr mbind result_bind]. rewrite V. cbn [mbind result_bind]. cbv zeta. unfold admissionID. rewrite E2, lookup_empty.
    cbn [default]. rewrite (bool_decide_eq_false_2 ("" ≠ "")) by (intros []; reflexivity). rewrite E1, lookup_empty. cbn [da_Artifact storedAdmission]. rewrite La, Sa. cbn [negb failIf mbind result_bind]. reflexivity.
  - reflexivity.
  - cbn [lg_executions]. rewrite insert_empty. reflexivity.
  - cbn [lg_byAdmission]. rewrite insert_empty. reflexivity.
Qed.
Lemma disposePlans_done state plans : Forall (λ p, pr_State p = executionPlanDisposition state) plans → disposePlans state plans = plans.
Proof.
  unfold disposePlans. induction 1 as [|p ps E _ IH]; [reflexivity|]. rewrite fmap_cons, IH. apply (f_equal (λ p', p' :: ps)). destruct p. cbn in *. rewrite E. reflexivity.
Qed.
Lemma view_admitted now adm db1 db' facts f : ledger_rows db1 → validateDurableAdmission adm = Ok tt → admits now adm db1 db' facts f → stepsTo db1 db'.
Proof.
  intros W V [New Vf Cf M Ia A X W' P]. set (e := er_ExecutionID (da_Execution adm)) in *. split; [exact W'|]. intros id l S.
  assert (None1 : ∀ p, ¬ planOf db1 e p) by (intros p (key & L & E); destruct (lr_plan _ W _ _ L) as [_ [y Y]]; congruence).
  destruct (decide (id = e)) as [->|N].
  2:{ apply tracks_same. refine (sees_other db1 _ _ _ A _ S). unfold recordOf. rewrite X, lookup_insert_ne by auto. f_equal. symmetry.
      replace (plansOf db' id) with (plansOf db1 id); [reflexivity|]. symmetry. apply plansOf_unique; [exact W'|apply plansOf_sorted, W|]. intros plan. rewrite plansOf_elem, P. tauto. }
  assert (Vp : validatePlans e 0 (da_Plans adm) = Ok tt) by (unfold validateDurableAdmission in V; cbv zeta in V; do 4 apply bind_Ok in V as ([] & _ & V); exact V).
  assert (K : keepsPlan (f ∘ selected)) by (intros p; destruct (co_keeps _ _ _ _ Cf (selected p)) as (K1 & K2 & K3 & K4); repeat split; assumption).
  assert (Ps : plansOf db' e = f ∘ selected <$> da_Plans adm).
  { apply plansOf_unique; [exact W'|apply dispose_sorted; [intros p; apply K|apply (validatePlans_ok _ _ _ Vp)]|]. intros plan. rewrite P. split; [auto|]. intros [J|[_ J]]; [destruct (None1 _ J)|exact J]. }
  destruct S as [S1 S2 S3]. unfold recordOf in S2, S3. rewrite New in S2, S3. cbn in S2, S3. destruct Ia as [a La]. destruct (lr_artifact _ W _ _ La) as (Ea & Va & Sa).
  destruct (admit_new now adm a facts (plansOf db' e) l S2 S3) as (l' & St & A' & X' & B'); [rewrite S1, Ea; exact La|exact Sa|apply storedAdmission_valid; try assumption; rewrite Ps, (validatePlans_map _ _ _ K); exact Vp|].
  fold e in X', B'. destruct (bool_decide (da_InitialSteps adm = [])) eqn:Si.
  - apply (tracks_trans (db' <| pg_executions := <[e := acceptedRow now (da_Execution adm) facts]> (pg_executions db1) |>)).
    + apply (tracks_step _ _ _ l' St). split; [rewrite A'; cbn; congruence|unfold recordOf; cbn; rewrite lookup_insert_eq; exact X'|unfold recordOf; cbn; rewrite lookup_insert_eq; exact B'].
    + assert (Dn : disposePlans ExecutionCompleted (plansOf db' e) = plansOf db' e).
      { assert (F : Forall (λ p, pr_State p = "completed") (plansOf db' e)).
        { rewrite Ps. apply Forall_forall. intros p J. apply list_elem_of_fmap in J as (q & -> & J). apply (co_all _ _ _ _ Cf); [reflexivity|..].
          - cbn. destruct (validatePlans_ok _ _ _ Vp) as [F _]. rewrite Forall_forall in F. apply (F _ J).
          - cbn. rewrite <- M. apply list_elem_of_fmap. eauto. }
        apply disposePlans_done, F. }
      intros l1 Sl. apply (tracks_step _ _ _ (putExecution e (scanExecution (finishedRow now (acceptedRow now (da_Execution adm) facts)) (plansOf db' e)) l1)).
      * eapply (ls_state None now e 1 ExecutionCompleted "" l1 (scanExecution _ _)). unfold SetExecutionState. cbn [ctxErr mbind result_bind].
        rewrite (sees_record _ _ _ (acceptedRow now (da_Execution adm) facts) Sl) by apply lookup_insert_eq. cbn [ofOption mbind result_bind]. autorewrite with scan. cbn [acceptedRow xr_revision xr_state xr_recovery_token ofNullString default IsTerminalExecutionState].
        decide_closed. cbn [orb failIf mbind result_bind]. change (plansOf (db' <| pg_executions := _ |>) e) with (plansOf db' e). rewrite Dn.
        match goal with |- Ok (?a, _) = Ok (_, putExecution _ ?b _) => assert (Eq : a = b) by (rewrite (u64_revision 1) by (unfold maxBigint; lia); reflexivity) end. rewrite Eq. reflexivity.
      * refine (sees_put _ db' e l1 (acceptedRow now (da_Execution adm) facts) _ Sl _ _ _ _); [apply lookup_insert_eq|reflexivity|rewrite X; apply lookup_insert_eq|reflexivity].
  - apply (tracks_step _ _ _ l' St). split; [congruence|unfold recordOf; rewrite X, lookup_insert_eq; exact X'|unfold recordOf; rewrite X, lookup_insert_eq; exact B'].
Qed.
Lemma view_admit tb ctx now adm db r c db' : ledger_rows db → admitExecutionAtomicOnce tb ctx now adm db = Ok (r, c, db') → stepsTo db db'.
Proof.
  intros W H. destruct c.
  - destruct (admit_tables _ _ _ _ _ _ _ W H) as (V & db1 & facts & f & S1 & Ad). exact (stepsTo_trans _ _ _ S1 (view_admitted _ _ _ _ _ _ (proj1 S1) V Ad)).
  - unfold admitExecutionAtomicOnce in H. do 4 apply bind_Ok in H as (? & _ & H). apply bind_Ok in H as ([[r1 c] db1] & _ & H). destruct c.
    + do 3 apply bind_Ok in H as (? & _ & H). cbv zeta in H. destruct (da_InitialSteps adm); discriminate.
    + injection H as _ <-. apply stepsTo_refl, W.
Qed.
End Admitting.
