(* ===== verification/PostgresRuns.v ===== *)
(** * Runs of transactions

    One step of the database is one transaction of either store. Every run from the empty
    database is a run of the in-memory outbox store and, execution by execution, of the
    in-memory ledger. A concrete run follows. *)

From S2P Require Import Prelude GoText Sha256 Json Workflow Identity Outbox OutboxInv OutboxDyn OutboxOps OutboxClose OutboxDemo Ledger LedgerProps Postgres.
From S2P Require Import PostgresSim PostgresComplete PostgresClose PostgresLedger PostgresView.
From Stdlib Require Import ZArith String.
Local Open Scope list_scope.
Local Open Scope Z_scope.

(** ** Runs *)

(** One transaction. The clock of the database is not before the zero time, leases last a
    microsecond at least, [ORDER BY] orders what it is given, lease tokens and owners are not
    blank, and the sagas of an execution are created by its admission. *)
Inductive pg_step `{PT : !PostgresTypes} : Database → Database → Prop :=
  | pg_create tb ctx now request db saga db' : PostgresCreateSaga tb ctx now request db = Ok (saga, db') → pg_step db db'
  | pg_enqueue ctx now request db d db' : PostgresEnqueueStep ctx now request db = Ok (d, db') → pg_step db db'
  | pg_replay ctx now request db d db' : PostgresReplayExistingStep ctx now request db = Ok (d, db') → pg_step db db'
  | pg_claim ctx now locked token options db d db' : zeroTime ≤ now → Microsecond ≤ cl_LeaseDuration options →
      PostgresClaimDispatch ctx now locked token options db = Ok (d, db') → pg_step db db'
  | pg_grants ctx now id attempt token grants db db' : PostgresSaveFencingGrants ctx now id attempt token grants db = Ok db' → pg_step db db'
  | pg_complete ctx defaultNow now completion db db' : zeroTime < defaultNow → PostgresCompleteDispatch ctx defaultNow now completion db = Ok db' → pg_step db db'
  | pg_complete_saga ctx now sid db db' : PostgresCompleteSaga ctx now sid db = Ok db' → pg_step db db'
  | pg_stop ctx now order eid db db' : zeroTime ≤ now → (∀ l, order l ≡ₚ l) → PostgresFinalizeStoppedExecution ctx now order eid db = Ok db' → pg_step db db'
  | pg_block ctx now sid db db' : zeroTime ≤ now → PostgresBlockSagaCompensation ctx now sid db = Ok db' → pg_step db db'
  | pg_failfast ctx now sid db db' : PostgresFinalizeFailFastSaga ctx now sid db = Ok db' → pg_step db db'
  | pg_artifact ctx now artifact db db' : PostgresPutArtifact ctx now artifact db = Ok db' → pg_step db db'
  | pg_admit tb ctx now admission db record created db' : ownsSagas admission db → admitExecutionAtomicOnce tb ctx now admission db = Ok (record, created, db') → pg_step db db'
  | pg_state ctx ctx' now id revision state message db result db' : PostgresSetExecutionState ctx ctx' now id revision state message db = (result, db') → pg_step db db'
  | pg_lease ctx now token id owner duration db lease db' : isBlank owner = false → (∀ t, token = Ok t → t ≠ "") → Microsecond ≤ duration →
      LeaseExecution ctx now token id owner duration db = Ok (lease, db') → pg_step db db'
  | pg_leases ctx now locked token owner limit duration db leases db' : isBlank owner = false → (∀ i t, token i = Ok t → t ≠ "") → Microsecond ≤ duration →
      PostgresLeaseExecutions ctx now locked token owner limit duration db = Ok (leases, db') → pg_step db db'
  | pg_renew ctx clock lease duration db lease' db' : zeroTime ≤ clock → PostgresRenewExecutionLease ctx clock lease duration db = Ok (lease', db') → pg_step db db'
  | pg_finish ctx now clock lease state message db db' : zeroTime ≤ clock → PostgresFinishExecutionLease ctx now clock lease state message db = Ok db' → pg_step db db'.
Definition pg_reachable `{!PostgresTypes} : Database → Prop := rtc pg_step emptyDatabase.

Section Runs.
  Context `{PT : !PostgresTypes}.
Lemma updateExecution_tables id where_ set_ db row db' : updateExecution id where_ set_ db = Ok (Some (row, db')) → outboxTables db' = outboxTables db.
Proof. intros (row0 & _ & _ & _ & _ & ->)%updateExecution_ok. reflexivity. Qed.
Lemma leaseRows_tables owner duration now token ids : ∀ i db leases db', leaseRows owner duration now token i ids db = Ok (leases, db') → outboxTables db' = outboxTables db.
Proof.
  induction ids as [|id ids IH]; intros i db leases db' H; cbn [leaseRows] in H; [injection H as _ <-; reflexivity|]. apply bind_Ok in H as (tok & _ & H). apply bind_Ok in H as (up & U & H).
  apply bind_Ok in H as ([row1 db1] & O%ofOption_Ok & H). subst up. apply bind_Ok in H as ([leases1 db2] & H1 & H). injection H as _ <-. rewrite (IH _ _ _ _ H1). exact (updateExecution_tables _ _ _ _ _ _ U).
Qed.
Lemma putArtifact_executions now a db db' : putArtifactTx now a db = Ok db' → pg_executions db' = pg_executions db.
Proof. unfold putArtifactTx. intros H. do 4 apply bind_Ok in H as (? & _ & H). destruct (pg_artifacts db !! _); [apply bind_Ok in H as (? & _ & H)|]; injection H as <-; reflexivity. Qed.
Lemma sim_admission tb ctx now adm db r c db' s : represents db s → store_inv s → ownsSagas adm db → admitExecutionAtomicOnce tb ctx now adm db = Ok (r, c, db') → follows db' s.
Proof.
  intros R I Ow H. destruct c.
  - refine (sim_admit _ _ _ _ _ _ _ _ _ R I _ H). apply Ow. unfold admitExecutionAtomicOnce in H. do 4 apply bind_Ok in H as (? & _ & H). apply bind_Ok in H as ([[r1 c] db2] & H1 & H). destruct c; [|discriminate].
    apply ledgerTx_created in H1 as (db1 & facts & Ha & _ & New & _). rewrite (putArtifact_executions _ _ _ _ Ha) in New. exact New.
  - unfold admitExecutionAtomicOnce in H. do 4 apply bind_Ok in H as (? & _ & H). apply bind_Ok in H as ([[r1 c] db1] & _ & H).
    destruct c; [do 3 apply bind_Ok in H as (? & _ & H); cbv zeta in H; destruct (da_InitialSteps adm); discriminate|]. injection H as _ <-. apply follows_same, R.
Qed.
(** A transaction keeps the outbox tables a picture of a run of the store, and the tables of
    the ledger of runs of ledgers. *)
Lemma pg_step_outbox db db' s : pg_step db db' → represents db s → store_inv s → follows db' s.
Proof.
  intros St R I.
  assert (Same : outboxTables db' = outboxTables db → follows db' s) by (intros E; apply follows_same, (represents_tables db); assumption).
  destruct St.
  - unfold PostgresCreateSaga in H. apply bind_Ok in H as ([] & _ & H). exact (sim_createSaga _ _ _ _ _ _ _ R I H).
  - unfold PostgresEnqueueStep in H. apply bind_Ok in H as ([] & _ & H). exact (sim_enqueueStep _ _ _ _ _ _ R I H).
  - unfold PostgresReplayExistingStep in H. apply bind_Ok in H as ([] & _ & H). apply bind_Ok in H as (id & _ & H). apply bind_Ok in H as ([d1 db1] & H1 & H). apply bind_Ok in H as ([] & _ & H). injection H as _ <-. exact (sim_enqueueStep _ _ _ _ _ _ R I H1).
  - eapply sim_claim; eassumption.
  - eapply sim_grants; eassumption.
  - eapply sim_complete; eassumption.
  - eapply sim_completeSaga; eassumption.
  - eapply sim_stop; eassumption.
  - eapply sim_block; eassumption.
  - eapply sim_failFast; eassumption.
  - apply Same. unfold PostgresPutArtifact in H. do 2 apply bind_Ok in H as ([] & _ & H). exact (putArtifact_tables _ _ _ _ H).
  - eapply sim_admission; eassumption.
  - apply Same. unfold PostgresSetExecutionState in H. destruct (ctxErr ctx ;; _) as [[[row db1]|]|e] eqn:U; [|injection H as _ <-; reflexivity..]. injection H as _ <-. do 2 apply bind_Ok in U as ([] & _ & U). exact (updateExecution_tables _ _ _ _ _ _ U).
  - apply Same. unfold LeaseExecution in H2. apply bind_Ok in H2 as ([] & _ & H2). apply bind_Ok in H2 as (tok & _ & H2). apply bind_Ok in H2 as ([] & _ & H2). apply bind_Ok in H2 as (up & U & H2). apply bind_Ok in H2 as ([row db1] & O%ofOption_Ok & H2).
    subst up. injection H2 as _ <-. exact (updateExecution_tables _ _ _ _ _ _ U).
  - apply Same. unfold PostgresLeaseExecutions in H2. do 2 apply bind_Ok in H2 as ([] & _ & H2). exact (leaseRows_tables _ _ _ _ _ _ _ _ _ H2).
  - apply Same. unfold PostgresRenewExecutionLease in H0. do 2 apply bind_Ok in H0 as ([] & _ & H0). destruct (pg_executions db !! _); [|discriminate]. apply bind_Ok in H0 as ([] & _ & H0). injection H0 as _ <-. reflexivity.
  - apply Same. unfold PostgresFinishExecutionLease in H0. apply bind_Ok in H0 as ([] & _ & H0). apply bind_Ok in H0 as (up & U & H0). apply bind_Ok in H0 as ([row db1] & O%ofOption_Ok & H0). subst up. injection H0 as <-.
    apply updateExecution_tables in U. destruct (bool_decide _); exact U.
Qed.
Lemma pg_step_ledger db db' : pg_step db db' → ledger_rows db → stepsTo db db'.
Proof.
  intros St W. destruct St.
  - unfold PostgresCreateSaga in H. apply bind_Ok in H as ([] & _ & H). apply stepsTo_tables; [exact (createSagaTx_frame _ _ _ _ _ _ H)|exact W].
  - unfold PostgresEnqueueStep in H. apply bind_Ok in H as ([] & _ & H). apply stepsTo_tables; [exact (enqueueStepTx_frame _ _ _ _ _ H)|exact W].
  - unfold PostgresReplayExistingStep in H. apply bind_Ok in H as ([] & _ & H). apply bind_Ok in H as (id & _ & H). apply bind_Ok in H as ([d1 db1] & H1 & H). apply bind_Ok in H as ([] & _ & H). injection H as _ <-.
    apply stepsTo_tables; [exact (enqueueStepTx_frame _ _ _ _ _ H1)|exact W].
  - apply stepsTo_tables; [exact (claim_frame _ _ _ _ _ _ _ _ H1)|exact W].
  - apply stepsTo_tables; [exact (grants_frame _ _ _ _ _ _ _ _ H)|exact W].
  - apply stepsTo_tables; [exact (complete_frame _ _ _ _ _ _ H0)|exact W].
  - apply stepsTo_tables; [exact (completeSaga_frame _ _ _ _ _ H)|exact W].
  - apply stepsTo_tables; [exact (stop_frame _ _ _ _ _ _ H1)|exact W].
  - apply stepsTo_tables; [exact (block_frame _ _ _ _ _ H0)|exact W].
  - apply stepsTo_tables; [exact (failFast_frame _ _ _ _ _ H)|exact W].
  - exact (view_putArtifact _ _ _ _ _ W H).
  - exact (view_admit _ _ _ _ _ _ _ _ W H0).
  - exact (view_setState _ _ _ _ _ _ _ _ _ _ W H).
  - exact (view_lease _ _ _ _ _ _ _ _ _ W H H0 H1 H2).
  - exact (view_leases _ _ _ _ _ _ _ _ _ _ W H H0 H1 H2).
  - exact (view_renew _ _ _ _ _ _ _ W H H0).
  - exact (view_finish _ _ _ _ _ _ _ _ W H H0).
Qed.
Lemma run_outbox db : pg_reachable db → ∃ s, reachable s ∧ represents db s.
Proof.
  intros H. refine (rtc_ind_r (λ db, ∃ s, reachable s ∧ represents db s) emptyDatabase _ _ db H).
  - exists NewInMemoryOutboxStore. split; [apply rtc_refl|apply represents_empty].
  - intros db1 db2 _ St (s & Rs & R). destruct (pg_step_outbox _ _ _ St R (reachable_inv _ Rs)) as (s' & P & R'). exists s'. split; [eapply rtc_trans; [exact Rs|exact P]|exact R'].
Qed.
Lemma run_ledger db : pg_reachable db → ledger_rows db ∧ ∀ id, ∃ l, ledger_reachable l ∧ sees db id l.
Proof.
  intros H. refine (rtc_ind_r (λ db, ledger_rows db ∧ ∀ id, ∃ l, ledger_reachable l ∧ sees db id l) emptyDatabase _ _ db H).
  - split; [apply rows_empty|]. intros id. exists NewInMemoryExecutionLedger. split; [apply rtc_refl|]. split; reflexivity.
  - intros db1 db2 _ St [W V]. destruct (pg_step_ledger _ _ St W) as [W' T]. split; [exact W'|]. intros id. destruct (V id) as (l & Rl & S). destruct (T id l S) as (l' & P & S'). exists l'. split; [eapply rtc_trans; [exact Rl|exact P]|exact S'].
Qed.

(** ** Reads *)
#[local] Instance attemptLe_trans : Transitive attemptLe.
Proof. intros a b c. unfold attemptLe. lia. Qed.
#[local] Instance attemptLe_total : Total attemptLe.
Proof. intros a b. unfold attemptLe. lia. Qed.
(** The rows of the attempts of a dispatch, in order. *)
Lemma attempt_rows db s k l n : represents db s → (∀ i a, l !! i = Some a → attemptAt s k (Z.of_nat i + 1 + n) = Some a) →
  ∃ rows, canonAttempt <$> (scanAttempt <$> rows) = canonAttempt <$> l ∧ ∀ i, rows !! i = if bool_decide (i < List.length l)%nat then pg_attempts db !! (k, Z.of_nat i + 1 + n) else None.
Proof.
  intros R. revert n. induction l as [|a l IH]; intros n H; [exists []; split; [reflexivity|intros i; rewrite bool_decide_eq_false_2 by (cbn; lia); reflexivity]|].
  pose proof (rp_attempts _ _ R k (1 + n)) as E. rewrite (H 0%nat a eq_refl : attemptAt s k (1 + n) = Some a) in E. destruct (pg_attempts db !! (k, 1 + n)) as [row|] eqn:L; [|discriminate]. apply (inj Some) in E.
  destruct (IH (n + 1)) as (rows & E1 & E2). { intros i b Lb. replace (Z.of_nat i + 1 + (n + 1)) with (Z.of_nat (S i) + 1 + n) by lia. apply (H (S i) b Lb). }
  exists (row :: rows). split; [rewrite !fmap_cons, E1; f_equal; exact E|]. intros [|i]; cbn [lookup list_lookup]; [rewrite bool_decide_eq_true_2 by (cbn; lia); symmetry; exact L|]. rewrite E2.
  replace (Z.of_nat (S i) + 1 + n) with (Z.of_nat i + 1 + (n + 1)) by lia. cbn [List.length]. destruct (decide (i < List.length l)%nat) as [B|B]; [rewrite !bool_decide_eq_true_2 by lia|rewrite !bool_decide_eq_false_2 by lia]; reflexivity.
Qed.
Lemma rep_attempts db s k : represents db s → store_inv s →
  ∃ rows, PostgresListAttempts None k db = Ok rows ∧ canonAttempt <$> rows = canonAttempt <$> attemptsOf s k.
Proof.
  intros R I. eexists. split; [reflexivity|]. destruct (attempt_rows db s k (attemptsOf s k) 0 R) as (rows & E1 & E2).
  { intros i a L. unfold attemptAt. rewrite bool_decide_eq_true_2 by lia. replace (Z.to_nat (Z.of_nat i + 1 + 0 - 1)) with i by lia. exact L. }
  rewrite <- E1. f_equal. f_equal.
  assert (Key : ∀ i row, rows !! i = Some row → pg_attempts db !! (k, Z.of_nat i + 1) = Some row ∧ aw_dispatch_id row = k ∧ aw_attempt row = Z.of_nat i + 1).
  { intros i row L. rewrite E2, Z.add_0_r in L. destruct (bool_decide _); [|discriminate]. split; [exact L|]. destruct (rep_attempt_row _ _ _ _ _ R I L) as (_ & _ & _ & _ & _ & _ & Ek & En). auto. }
  apply (StronglySorted_unique_strong attemptLe).
  - intros a b Ja Jb A B. apply list_elem_of_lookup in Jb as [i Lb]. destruct (Key _ _ Lb) as (Kb & _ & Nb). rewrite merge_sort_Permutation in Ja. apply list_elem_of_fmap in Ja as ([[k' n] a'] & -> & Ja). apply selectRows_elem in Ja as [La Q].
    apply bool_decide_eq_true in Q. destruct (rep_attempt_row _ _ _ _ _ R I La) as (_ & _ & _ & _ & _ & _ & Ek & En). unfold attemptLe in *. cbn [snd] in *. assert (k' = k) as -> by congruence. assert (n = Z.of_nat i + 1) as -> by lia. congruence.
  - apply StronglySorted_merge_sort; apply _.
  - assert (S : ∀ l m, (∀ i row, l !! i = Some row → aw_attempt row = Z.of_nat i + m) → StronglySorted attemptLe l).
    { induction l as [|a l IH]; intros m Hl; [constructor|]. constructor; [apply (IH (m + 1)); intros i row L; rewrite (Hl (S i) row L); lia|]. apply Forall_forall. intros b J. apply list_elem_of_lookup in J as [i Lb].
      unfold attemptLe. rewrite (Hl 0%nat a eq_refl), (Hl (S i) b Lb). lia. }
    apply (S rows 1). intros i row L. apply (Key _ _ L).
  - rewrite merge_sort_Permutation. apply NoDup_Permutation.
    + apply NoDup_fmap_2_strong; [|unfold selectRows; apply NoDup_ListNoDup, List.NoDup_filter, NoDup_ListNoDup, NoDup_map_to_list].
      intros [[k1 n1] r1] [[k2 n2] r2] J1 J2 E. cbn in E. subst r2. apply selectRows_elem in J1 as [L1 _], J2 as [L2 _].
      destruct (rep_attempt_row _ _ _ _ _ R I L1) as (_ & _ & _ & _ & _ & _ & A1 & A2), (rep_attempt_row _ _ _ _ _ R I L2) as (_ & _ & _ & _ & _ & _ & B1 & B2). congruence.
    + apply NoDup_alt. intros i j row Li Lj. destruct (Key _ _ Li) as (_ & _ & Ni), (Key _ _ Lj) as (_ & _ & Nj). lia.
    + intros row. rewrite list_elem_of_fmap. split.
      * intros ([[k' n] r] & -> & J). apply selectRows_elem in J as [L Q]. apply bool_decide_eq_true in Q. destruct (rep_attempt_row _ _ _ _ _ R I L) as (_ & a & _ & La & _ & Bn & Ek & En). cbn [snd] in *. assert (k' = k) as -> by congruence.
        apply list_elem_of_lookup. exists (Z.to_nat (n - 1)). rewrite E2, bool_decide_eq_true_2 by (eapply lookup_lt_Some; exact La). replace (Z.of_nat (Z.to_nat (n - 1)) + 1 + 0) with n by lia. exact L.
      * intros J. apply list_elem_of_lookup in J as [i L]. destruct (Key _ _ L) as (Lr & Ek & _). exists ((k, Z.of_nat i + 1), row). split; [reflexivity|]. apply selectRows_elem. split; [exact Lr|apply bool_decide_eq_true, Ek].
Qed.
End Runs.

(** ** A concrete run of the database

    An execution is admitted with its saga and first step, the step is claimed and succeeds,
    a second one is enqueued and claimed, and recovery leases the execution. The database
    keeps documents as they are written and every instant. *)

Definition plainJSON (text : string) : option string := if Valid text && jsonSemanticallyEqual text text then Some text else None.
Lemma plainJSON_text t t' : plainJSON t = Some t' → t' = t ∧ Valid t = true ∧ jsonSemanticallyEqual t t = true.
Proof. unfold plainJSON. destruct (Valid t), (jsonSemanticallyEqual t t); cbn; try discriminate. intros [= <-]. auto. Qed.
Lemma plainJSON_normal t t' : plainJSON t = Some t' → plainJSON t' = Some t'.
Proof. intros E. destruct (plainJSON_text _ _ E) as [-> _]. exact E. Qed.
Lemma plainJSON_valid t t' : plainJSON t = Some t' → Valid t' = true.
Proof. intros E. destruct (plainJSON_text _ _ E) as (-> & V & _). exact V. Qed.
Lemma plainJSON_reads t t' : plainJSON t = Some t' → jsonSemanticallyEqual t' t' = true.
Proof. intros E. destruct (plainJSON_text _ _ E) as (-> & _ & R). exact R. Qed.
#[global] Instance plainTypes : PostgresTypes :=
  {| jsonb := plainJSON; timestamptz t := t; textBefore := strLt; jsonb_normal := plainJSON_normal; jsonb_text := plainJSON_valid; jsonb_reads := plainJSON_reads;
     timestamptz_zero t E := E |}.

(** ** The run *)
Definition pgAdmissionOf (executionID identity version tenant generation : string) (plans : list ExecutionPlanRecord) (sagas : list CreateSagaRequest) (steps : list (EnqueueStepRequest json)) : DurableAdmission :=
  mkAdmission (demoArtifact <| ar_GenerationDigest := generation |>)
    (mkExecution executionID identity "h" "rules" version tenant "" generation "{}" ExecutionAdmitting 0 "" "" zeroTime "" zeroTime zeroTime [])
    (mkFactApplication executionID "event" "" "{}" 1) plans sagas steps.
Definition pgAdmission : DurableAdmission := pgAdmissionOf "exec" "adm" "v1" "tenant" "gen" [demoPlan] [demoCreate] [demoStep "a" 1].
Definition pgAdmit (admission : DurableAdmission) (db : Database) : result (ExecutionRecord * bool * Database) := admitExecutionAtomicOnce false None 10 admission db.
Definition pgClaimNext (db : Database) : result (Dispatch * Database) := PostgresClaimDispatch None 1000 (λ _, false) (Ok "token") (mkClaim "worker" 5000 zeroTime "") db.
Definition pgSuccess (effect : string) : Completion := mkCompletion (demoKey effect DirectionForward) 1 "token" OutcomeSuccess "true" "" zeroTime false 1500.
Definition pgSucceed (effect : string) (db : Database) : result Database := PostgresCompleteDispatch None 1 1500 (pgSuccess effect) db.
Definition pgLease (db : Database) : result (ExecutionLease * Database) := LeaseExecution None 2000 (Ok "recovery") "exec" "operator" 9000 db.
Definition dbOf (r : result Database) : Database := match r with Ok db => db | Err _ => emptyDatabase end.
Definition pgAdmitted := Eval vm_compute in dbOf (snd <$> pgAdmit pgAdmission emptyDatabase).
Definition pgClaimed := Eval vm_compute in dbOf (snd <$> pgClaimNext pgAdmitted).
Definition pgSucceeded := Eval vm_compute in dbOf (pgSucceed "a" pgClaimed).
Definition pgEnqueued := Eval vm_compute in dbOf (snd <$> PostgresEnqueueStep None 1600 (demoStep "b" 2) pgSucceeded).
Definition pgRunning := Eval vm_compute in dbOf (snd <$> pgClaimNext pgEnqueued).
Definition pgLeased := Eval vm_compute in dbOf (snd <$> pgLease pgRunning).

Lemma snd_Ok {A B} (r : result (A * B)) b : snd <$> r = Ok b → ∃ a, r = Ok (a, b).
Proof. destruct r as [[a b']|e]; cbn; [intros [= <-]; eauto|discriminate]. Qed.
Lemma pgAdmitted_reachable : pg_reachable pgAdmitted.
Proof.
  destruct (snd_Ok (pgAdmit pgAdmission emptyDatabase) pgAdmitted) as [[record created] E]; [vm_cast_no_check (eq_refl (Ok pgAdmitted))|].
  eapply rtc_once, (pg_admit false None 10 pgAdmission); [|exact E]. intros _ r J. reflexivity.
Qed.
Lemma pgClaim_step db d db' : pgClaimNext db = Ok (d, db') → pg_step db db'.
Proof. apply pg_claim; [discriminate|]. unfold Microsecond. cbn. lia. Qed.
Lemma pgClaimed_reachable : pg_reachable pgClaimed.
Proof.
  destruct (snd_Ok (pgClaimNext pgAdmitted) pgClaimed) as [d E]; [vm_cast_no_check (eq_refl (Ok pgClaimed))|]. eapply rtc_r; [exact pgAdmitted_reachable|exact (pgClaim_step _ _ _ E)].
Qed.
Lemma pgSucceeded_reachable : pg_reachable pgSucceeded.
Proof.
  assert (E : pgSucceed "a" pgClaimed = Ok pgSucceeded) by vm_cast_no_check (eq_refl (Ok pgSucceeded)). eapply rtc_r; [exact pgClaimed_reachable|]. apply (pg_complete None 1 1500 (pgSuccess "a")); [exact Z.lt_0_1|exact E].
Qed.
Lemma pgRunning_reachable : pg_reachable pgRunning.
Proof.
  destruct (snd_Ok (PostgresEnqueueStep None 1600 (demoStep "b" 2) pgSucceeded) pgEnqueued) as [d E]; [vm_cast_no_check (eq_refl (Ok pgEnqueued))|].
  destruct (snd_Ok (pgClaimNext pgEnqueued) pgRunning) as [d' E']; [vm_cast_no_check (eq_refl (Ok pgRunning))|].
  eapply rtc_r; [eapply rtc_r; [exact pgSucceeded_reachable|exact (pg_enqueue None 1600 (demoStep "b" 2) pgSucceeded d pgEnqueued E)]|exact (pgClaim_step _ _ _ E')].
Qed.
Lemma pgLeased_reachable : pg_reachable pgLeased.
Proof.
  destruct (snd_Ok (pgLease pgRunning) pgLeased) as [lease E]; [vm_cast_no_check (eq_refl (Ok pgLeased))|]. eapply rtc_r; [exact pgRunning_reachable|].
  refine (pg_lease None 2000 (Ok "recovery") "exec" "operator" 9000 pgRunning lease pgLeased _ _ _ E); [reflexivity|intros t [= <-]; discriminate|unfold Microsecond; lia].
Qed.
