(* ===== verification/PostgresProps.v ===== *)
(** * What the PostgreSQL stores guarantee

    The refinements of the in-memory stores with the reads that agree, a property of the rows
    that follows, and what a recovery lease and an admission promise by themselves. *)

From S2P Require Import Prelude GoText Sha256 Json Workflow Identity Ledger LedgerProps Outbox OutboxInv OutboxDyn OutboxOps OutboxClose OutboxDemo.
From S2P Require Import Postgres PostgresSim PostgresComplete PostgresClose PostgresLedger PostgresView PostgresRuns.
From Stdlib Require Import ZArith String.
Local Open Scope list_scope.
Local Open Scope Z_scope.

(** ** The outbox *)

(** Two reads that fail or succeed together, with results that agree. *)
Definition sameRead {A B} (agree : A → B → Prop) (left_ : result A) (right_ : result B) : Prop :=
  match left_, right_ with Ok a, Ok b => agree a b | Err _, Err _ => True | _, _ => False end.

(** C15: The PostgreSQL outbox refines the in-memory one. The tables that any run of transactions leads to
    (sagas and steps, claims, grants, completions, the ways to close a saga, and admissions) stand for a
    store that a run of the in-memory outbox leads to, and reading a saga, a dispatch or the attempts of a
    dispatch gives in both what agrees on every column but revisions, times of writing and messages. *)
Theorem postgres_outbox_refines_the_store `{PT : !PostgresTypes} (db : Database) : pg_reachable db → ∃ s, reachable s ∧ represents db s ∧ ∀ id,
  sameRead (λ a b, canonSaga a = canonSaga b) (PostgresGetSaga None id db) (GetSaga None id s) ∧
  sameRead (λ a b, canonDispatch a = canonDispatch b) (PostgresGetDispatch None id db) (GetDispatch None id s) ∧
  sameRead (λ a b, canonAttempt <$> a = canonAttempt <$> b) (PostgresListAttempts None id db) (ListAttempts None id s).
Proof.
  intros H. destruct (run_outbox _ H) as (s & Rs & R). exists s. split; [exact Rs|]. split; [exact R|]. intros id. split; [|split].
  - unfold PostgresGetSaga, GetSaga, getSagaTx. cbn [ctxErr mbind result_bind]. destruct (pg_instances db !! id) as [g|] eqn:L; cbn.
    + destruct (rep_saga _ _ _ _ R L) as (g' & L' & C). rewrite L'. exact C.
    + apply (rep_no_saga _ _ _ R) in L. rewrite L. exact Logic.I.
  - unfold PostgresGetDispatch, GetDispatch, getDispatchTx. cbn [ctxErr mbind result_bind]. destruct (pg_outbox db !! id) as [row|] eqn:L; cbn -[canonDispatch scanDispatch].
    + destruct (rep_dispatch _ _ _ _ R L) as (d & L' & C). rewrite L'. exact C.
    + apply (rep_no_row _ _ _ R) in L. rewrite L. exact Logic.I.
  - destruct (rep_attempts db s id R (reachable_inv _ Rs)) as (rows & -> & E). exact E.
Qed.
Lemma postgres_outbox_refines_the_store_witness : ∃ s, reachable s ∧ represents pgRunning s.
Proof. destruct (postgres_outbox_refines_the_store pgRunning pgRunning_reachable) as (s & A & B & _). exists s. split; [exact A|exact B]. Defined.

(** C16: Plan order in the tables. When an attempt row exists for a forward dispatch, every forward dispatch
    of the same saga with a smaller sequence has the state [succeeded], in every database that a run of
    transactions leads to. *)
Theorem postgres_effects_in_plan_order `{PT : !PostgresTypes} (db : Database) k row k' row' n attempt : pg_reachable db → pg_outbox db !! k = Some row → pg_outbox db !! k' = Some row' →
  ob_saga_id row' = ob_saga_id row → ob_direction row = DirectionForward → ob_direction row' = DirectionForward → pg_attempts db !! (k, n) = Some attempt → ob_sequence row' < ob_sequence row →
  ob_state row' = DispatchSucceeded.
Proof.
  intros H L L' Es F F' La Q. destruct (run_outbox _ H) as (s & Rs & R). pose proof (reachable_inv _ Rs) as I. destruct (rep_dispatch _ _ _ _ R L) as (d & Ld & C), (rep_dispatch _ _ _ _ R L') as (d' & Ld' & C').
  apply canonDispatch_fields in C as (_ & C2 & _ & C4 & C5 & _), C' as (_ & C2' & _ & C4' & C5' & C6' & _). cbn in *. destruct (rep_attempt_row _ _ _ _ _ R I La) as (_ & a & _ & A & _).
  rewrite C6'. apply (attempted_earlier s k d I Ld) with k'; [intros E; rewrite E in A; discriminate|split; [exact Ld'|congruence]|congruence|congruence|lia].
Qed.
Definition rowOf (db : Database) (effect : string) : OutboxRow := default (queuedRow 0 "" "" "" 0 DirectionForward "" "" "" "" [] false) (pg_outbox db !! demoKey effect DirectionForward).
Definition firstRow : OutboxRow := Eval vm_compute in rowOf pgRunning "a".
Definition secondRow : OutboxRow := Eval vm_compute in rowOf pgRunning "b".
Definition secondAttempt : AttemptRow := Eval vm_compute in default (mkAttemptRow "" 0 "" "" 0 [] None None 0 None) (pg_attempts pgRunning !! (demoKey "b" DirectionForward, 1)).
Definition firstKey : string := Eval vm_compute in demoKey "a" DirectionForward.
Definition secondKey : string := Eval vm_compute in demoKey "b" DirectionForward.
Lemma postgres_effects_in_plan_order_witness : ob_state firstRow = DispatchSucceeded.
Proof.
  apply (postgres_effects_in_plan_order pgRunning secondKey secondRow firstKey firstRow 1 secondAttempt pgRunning_reachable); try reflexivity; vm_compute; reflexivity.
Defined.

(** ** The ledger *)

(** C17: The PostgreSQL ledger refines the in-memory one, execution by execution. For every execution
    identifier, what the tables hold after any run of transactions is exactly what some run of the
    in-memory ledger holds about that execution (identity, facts, state, revision, lease, times and plans
    in order), reading the execution gives the same record in both, and no admission identity has
    two executions. *)
Theorem postgres_executions_refine_the_ledger `{PT : !PostgresTypes} (db : Database) : pg_reachable db →
  (∀ id, ∃ l, ledger_reachable l ∧ sees db id l ∧ sameRead eq (PostgresGetExecution None id db) (GetExecution None id l)) ∧
  (∀ id id' row row', pg_executions db !! id = Some row → pg_executions db !! id' = Some row' → xr_admission_identity row = xr_admission_identity row' → id = id').
Proof.
  intros H. destruct (run_ledger _ H) as [W V]. split; [|exact (lr_identity _ W)]. intros id. destruct (V id) as (l & Rl & S). exists l. split; [exact Rl|]. split; [exact S|].
  unfold PostgresGetExecution, GetExecution, getExecutionQuery. cbn [ctxErr mbind result_bind]. rewrite (se_executions _ _ _ S). unfold recordOf. destruct (pg_executions db !! id) as [row|]; cbn -[scanExecution plansOf].
  - rewrite lookup_singleton_eq. reflexivity.
  - rewrite lookup_empty. exact Logic.I.
Qed.
Lemma postgres_executions_refine_the_ledger_witness : ∃ l, ledger_reachable l ∧ sees pgLeased "exec" l.
Proof. destruct (postgres_executions_refine_the_ledger pgLeased pgLeased_reachable) as [V _]. destruct (V "exec") as (l & A & B & _). exists l. split; [exact A|exact B]. Defined.

Lemma updateExecution_refused id where_ set_ db row r : pg_executions db !! id = Some row → where_ row = false → updateExecution id where_ set_ db = Ok (Some r) → False.
Proof. unfold updateExecution. intros -> ->. discriminate. Qed.
Lemma leaseRows_others owner duration now token ids id : id ∉ ids → ∀ i db leases db', leaseRows owner duration now token i ids db = Ok (leases, db') →
  pg_executions db' !! id = pg_executions db !! id ∧ el_ExecutionID <$> leases = ids.
Proof.
  intros N. induction ids as [|id' ids IH]; intros i db leases db' H; cbn [leaseRows] in H; [injection H as <- <-; split; reflexivity|]. apply not_elem_of_cons in N as [N1 N2].
  apply bind_Ok in H as (tok & _ & H). apply bind_Ok in H as (up & U & H). apply bind_Ok in H as ([row1 db1] & O%ofOption_Ok & H). subst up. apply bind_Ok in H as ([leases1 db2] & H1 & H). injection H as <- <-.
  apply updateExecution_ok in U as (row & _ & _ & _ & _ & ->). destruct (IH N2 _ _ _ _ H1) as [E1 E2]. split; [rewrite E1; cbn; apply lookup_insert_ne; auto|rewrite fmap_cons, E2; reflexivity].
Qed.
(** C18: A recovery lease excludes every other writer. While the row of an execution holds an unexpired
    lease, it cannot be leased by name, a batch of leases neither returns it nor changes its row, its state
    cannot be set by revision, and whoever does not hold its token can neither renew nor finish the lease. *)
Theorem postgres_lease_excludes_others `{PT : !PostgresTypes} (db : Database) id row token now : pg_executions db !! id = Some row → xr_recovery_token row = Some token →
  sqlGt (xr_recovery_deadline row) now = true →
  (∀ ctx tok owner duration r, LeaseExecution ctx now tok id owner duration db ≠ Ok r) ∧
  (∀ ctx locked tok owner limit duration leases db', PostgresLeaseExecutions ctx now locked tok owner limit duration db = Ok (leases, db') →
     (id ∉ (el_ExecutionID <$> leases)) ∧ pg_executions db' !! id = Some row) ∧
  (∀ ctx ctx' at_ revision state message, ∃ e, PostgresSetExecutionState ctx ctx' at_ id revision state message db = (Err e, db)) ∧
  (∀ ctx clock lease duration r, el_ExecutionID lease = id → el_Token lease ≠ token → PostgresRenewExecutionLease ctx clock lease duration db ≠ Ok r) ∧
  (∀ ctx at_ clock lease state message r, el_ExecutionID lease = id → el_Token lease ≠ token → PostgresFinishExecutionLease ctx at_ clock lease state message db ≠ Ok r).
Proof.
  intros L T D. assert (Nl : leasableRow now row = false).
  { unfold leasableRow. rewrite T, (bool_decide_eq_false_2 (Some token = None)) by discriminate. destruct (xr_recovery_deadline row) as [d|]; [|discriminate]. cbn in *. rewrite D. apply andb_false_r. }
  assert (Nh : ∀ clock lease, el_Token lease ≠ token → holdsLease clock lease row = false).
  { intros clock lease N. unfold holdsLease, sqlEq. rewrite T, (bool_decide_eq_false_2 (Some token = _)) by congruence. rewrite andb_false_r. reflexivity. }
  split; [|split; [|split; [|split]]].
  - intros ctx tok owner duration r H. unfold LeaseExecution in H. apply bind_Ok in H as (? & _ & H). apply bind_Ok in H as (? & _ & H). apply bind_Ok in H as (? & _ & H). apply bind_Ok in H as (up & U & H).
    apply bind_Ok in H as ([row1 db1] & O%ofOption_Ok & _). subst up. exact (updateExecution_refused _ _ _ _ _ _ L Nl U).
  - intros ctx locked tok owner limit duration leases db' H. unfold PostgresLeaseExecutions in H. do 2 apply bind_Ok in H as (? & _ & H).
    assert (N : id ∉ leasableRows now locked limit db).
    { intros J. unfold leasableRows in J. apply elem_of_take in J as (j & J & _). apply list_elem_of_lookup_2, list_elem_of_In, List.filter_In in J as [J _]. apply list_elem_of_In, list_elem_of_fmap in J as ([k r] & -> & J).
      rewrite (merge_sort_Permutation leaseRowLe) in J. apply selectRows_elem in J as [Lr Q]. cbn in L. congruence. }
    destruct (leaseRows_others _ _ _ _ _ _ N _ _ _ _ H) as [E1 E2]. rewrite E1, E2. auto.
  - intros ctx ctx' at_ revision state message. unfold PostgresSetExecutionState. destruct (ctxErr ctx ;; _) as [[r|]|e] eqn:U; [|eexists; reflexivity|eexists; reflexivity].
    do 2 apply bind_Ok in U as (? & _ & U). exfalso. eapply updateExecution_refused; [exact L| |exact U]. cbn. rewrite T, (bool_decide_eq_false_2 (Some token = None)) by discriminate. rewrite andb_false_r. reflexivity.
  - intros ctx clock lease duration r E N H. unfold PostgresRenewExecutionLease in H. do 2 apply bind_Ok in H as (? & _ & H). rewrite E, L, (Nh _ _ N) in H. discriminate.
  - intros ctx at_ clock lease state message r E N H. unfold PostgresFinishExecutionLease in H. apply bind_Ok in H as (? & _ & H). apply bind_Ok in H as (up & U & H). apply bind_Ok in H as ([row1 db1] & O%ofOption_Ok & _). subst up.
    rewrite E in U. exact (updateExecution_refused _ _ _ _ _ _ L (Nh _ _ N) U).
Qed.
Definition recoveredRow : ExecutionRow := Eval vm_compute in default (mkExecutionRow "" "" "" "" "" "" "" "" "" ExecutionAccepted 0 None None None None 0 0) (pg_executions pgLeased !! "exec").
Lemma postgres_lease_excludes_others_witness : ∃ e, PostgresSetExecutionState None None 3000 "exec" 2 ExecutionCompleted "" pgLeased = (Err e, pgLeased).
Proof.
  destruct (postgres_lease_excludes_others pgLeased "exec" recoveredRow "recovery" 3000) as (_ & _ & S & _); [vm_compute; reflexivity|reflexivity|reflexivity|]. apply (S None None 3000 2 ExecutionCompleted "").
Defined.

Section Retries.
  Context `{PT : !PostgresTypes}.
End Retries.


(** The row of a generation is keyed by ruleset, version and digest, and keeps the environment that
    first admitted it, so that the admission of one tenant activates the generation of another: after
    tenant [a] has admitted under [v1] and then under [v2], tenant [b] is refused under [v1] by the index
    on the active generation of [a], whose second admission is the one that stays active. *)
Definition bareAdmission (executionID tenant version generation : string) : DurableAdmission := pgAdmissionOf executionID executionID version tenant generation [] [] [].
Lemma tenant_refused_by_anothers_generation : ∃ r1 db1 r2 db2,
  pgAdmit (bareAdmission "e1" "a" "v1" "g1") emptyDatabase = Ok (r1, true, db1) ∧ pgAdmit (bareAdmission "e2" "a" "v2" "g2") db1 = Ok (r2, true, db2) ∧
  pgAdmit (bareAdmission "e3" "b" "v1" "g1") db2 = Err uniqueViolation ∧ isRetryablePostgresAdmissionError uniqueViolation = true.
Proof. do 4 eexists. split; [vm_compute; reflexivity|]. split; [vm_compute; reflexivity|]. split; vm_compute; reflexivity. Qed.
